(* ===== verification/_CoqProject ===== *)
-Q . S2P
Prelude.v
Errors.v
Bus.v
Info.v
Rand.v
Metadata.v
Interceptors.v
Float32.v
Options.v
Retry.v
Messages.v
Selection.v
ClientRPC.v
MultiRPC.v
Subscription.v
Router.v
ServerRPC.v
ServerRun.v
ServerClose.v
Registry.v
Registration.v
Protocol.v
StreamCore.v
StreamOpen.v
ServerStream.v
ServerStreamClose.v
StreamDelivery.v
SubList.v
LocalBus.v
LocalDelivery.v
RedisBus.v
RedisPublish.v
NatsBus.v
NatsDelivery.v
NatsTable.v
ClientStream.v
Naming.v
CommandLine.v
TypeMap.v
Generator.v
GeneratorNames.v
GeneratorTopics.v
GenText.v
GenBalance.v
GenRegister.v
Metrics.v
TestBus.v
Heap.v
LaggyBus.v
Tracing.v
System.v
SystemCalls.v
Transport.v
TransportLocal.v
TransportRedis.v
TransportNats.v
Transports.v
