(* ===== verification/Prelude.v ===== *)
(** * Verification of psrpc

    psrpc is an RPC framework over a publish and subscribe bus.  A client publishes a
    request on a channel named after the service, the method and the topic; servers
    that take it bid for it (claim requests) when the method needs a claim; the client
    selects one and publishes its grant (a claim response); the server that was granted
    runs the method's handler and publishes a response on a channel of the client's.
    Multi requests are handled by every server, streams are opened like requests and
    then carry messages both ways.  The bus is one of several transports: in process,
    redis, nats.  A plugin of protoc generates typed clients and servers from service
    definitions.

    ** Parts and files

    - [Prelude]: Go's conventions: results, [int64], channels, strings as bytes; shared
      lemmas and the hint database [psrpc].
    - [Errors] ([src/errors.go]): error codes, the psrpc errors as values of a tree of
      wrapped errors, [errors.As] and [errors.Is].
    - [Bus] ([src/pkg/bus/bus.go], [compression.go], [options.go], [serialization.go]):
      the envelope of messages and its compression.  [Subscription]
      ([src/pkg/bus/subscription.go], [src/pkg/client/subscription.go]): the forwarding
      of a transport's messages to a typed channel.
    - [Info] ([src/pkg/info]): service definitions and the names of channels, byte for
      byte.  [Rand] ([src/pkg/rand]): identifiers.  [Metadata] ([src/pkg/metadata]).
    - [Interceptors] ([src/internal/interceptors]), [Options] (options of clients,
      requests, servers and streams), [Retry] ([src/pkg/middleware/retry.go],
      [recovery.go]).
    - [Float32]: the order of affinities.  [Messages] ([src/internal/internal.proto]).
    - [Selection] ([selectServerUntil] of [src/pkg/client/rpc.go]), [ClientRPC]
      ([newRPC], [RequestSingle]), [MultiRPC] ([src/pkg/client/multi.go]), [Router]
      ([src/pkg/client/client.go]): the client.
    - [ServerRPC], [ServerRun], [ServerClose] ([src/pkg/server/rpc.go]), [Registry]
      ([server.go]), [Registration] ([registration.go]): the server.
    - [Protocol]: one request's client and its servers put together.  [System],
      [SystemCalls]: any number of clients and of servers, with their goroutines, over one
      bus that may lose, delay, repeat and reorder what it carries.
    - [StreamCore] ([src/internal/stream]): one end of a stream.  [StreamOpen]
      ([src/pkg/client/stream.go], [src/pkg/server/stream.go]): how it is opened, by the
      client and by a server.  [StreamDelivery]: the two ends put together.
      [ServerStream], [ServerStreamClose] ([src/pkg/server/stream.go]): the streams of a
      server, with the loop that feeds them, their table and their closing.
      [ClientStream] ([src/pkg/client/stream.go], [client.go]): the streams of a client,
      opened and run by interleaved goroutines, with the loop that feeds them.
    - [SubList], [LocalBus], [LocalDelivery] ([src/pkg/bus/localbus]); [RedisBus],
      [RedisPublish] ([src/pkg/bus/redisbus]); [NatsBus], [NatsDelivery], [NatsTable]
      ([src/pkg/bus/natsbus]: the steps, what a subscription is given, the table of
      routers): transports.  [Transport] ([bus.Transport] of [src/pkg/bus/bus.go]): what a
      transport promises, as a class; [TransportLocal], [TransportRedis], [TransportNats]:
      its instances; [Transports]: subscriptions over any of them.
    - [Naming] ([go_naming.go] and [stringutils.go] of [src/protoc-gen-psrpc]),
      [CommandLine] ([command_line.go]), [TypeMap] ([typemap.go]: the registry of message
      definitions, with the aliasing of Go's slices), [Generator] ([generator.go]: the
      state of a run, packages, imports, options and topics) with [GeneratorNames] and
      [GeneratorTopics] (its theorems), [GenText] (what it prints, up to the whole
      response), [GenBalance], [GenRegister] (theorems of the text): the code generator.
    - [Metrics] ([src/pkg/middleware/metrics.go]), [Tracing]
      ([src/pkg/middleware/otelpsrpc/otel.go]): interceptors that report calls.
    - [TestBus] ([src/pkg/bus/interceptor.go], [src/testutils/bus.go],
      [unreliablebus.go]), [Heap] and [LaggyBus] ([src/testutils/laggybus.go]): buses for
      tests, which lose and delay messages.

    ** How the code is modelled

    Sequential code is functions.  Code whose goroutines share state is a step function
    [step : label → state → outcome] on a record of what they share and of where each
    goroutine is: a step is what one of them does between two points where another may
    come in (a lock taken, a channel operation, a call of other modules' code), and
    [outcome] is the next state, [Blocked], or [Panic] where Go would panic.  A run is a
    list of labels, so that a theorem about all runs is about all interleavings; what
    the environment does (messages, times, answers of a broker, errors) is in the labels.
    Pointers are indices of the lists of all objects ever made.

    Code of other modules (protobuf, gzip, gRPC's and Twirp's codes, go-redis, hashes)
    is a parameter: classes with the laws the code relies on, or arguments.  Of Go's
    standard library what the code uses is written out ([path], [strings], [strconv.Quote],
    [container/heap], timers).  Each
    property that has hypotheses has a witness next to it, at a concrete input.

    ** What the theorems show

    - Names and bytes: channel names and handler keys keep services, methods and topics
      apart ([server_channels_injective]); what is published is
      what a subscriber receives, within the cap on what is decompressed
      ([published_is_received], [decompress_capped]); errors keep their code and text on
      the way to the caller ([error_reaches_caller]).
    - One rpc: of all the servers that take a claimed request at most one handles it
      ([system_one_server_handles]), and a result returned to a caller is one a server's
      handler gave for that very request ([system_result_authentic]), both in every run of
      the whole system; the client picks the best bidder there is ([select_best]), and with
      no losses its result is that server's answer ([rpc_end_to_end]).  Further: the two
      sides of the first ([one_server_handles], [rpc_grants_one_bidder]).
    - Clients: requests do not see each other's messages, are in the client's maps exactly
      while they are under way, and leave nothing behind ([requests_isolated]); streams get
      their messages in order and whole ([client_streams_isolated]); an opening among them
      returns a stream only when it was acknowledged, and else closes it and says why
      ([client_openings_end]); a multi request hands over every response, if the
      interceptors of the application pass on responses of the method's type
      ([multi_delivers]; else [multi_nil_message_panics]).  Further: when the read loop
      cannot block ([reader_never_blocks]).
    - Servers: a handler runs exactly when the code's conditions hold
      ([handler_runs_iff]); its goroutines do what the sequential handler says, in every
      interleaving ([goroutines_refine_handleRequest]: the refinement of one atomic
      handling); they do not panic, and closing waits for the requests taken, and
      returns ([server_never_panics], [close_drains], [close_terminates]); the table of
      handlers stays well-formed ([registry_well_formed]); [Close] returns with every handler
      closed that it found, having waited for the work of each unless it is forced, and a
      handler that does not end keeps it waiting ([server_close_stops_all],
      [graceful_close_waits]; what is registered meanwhile: [registration_after_close]).
    - Retries: how many, and that they end ([retry_default_total]); how they are spaced
      ([retry_no_subscriber_paced]).
    - Streams: one server opens a claimed stream ([one_server_opens]), opening ends with
      the stream or with it closed ([open_stream_outcome], [stream_open_end_to_end]); no
      panic in any interleaving of sends, closes and what the peer sends
      ([stream_never_panics]); a send that succeeds has put what it was given
      where the other end's user takes it ([stream_send_delivered]; but for the end of the
      context: [send_unacknowledged]).  On a server, in every interleaving: an opening does what
      the sequential code says ([openings_refine_handleOpenRequest]), the table has
      exactly the streams there are ([stream_table_exact]), closing ends them
      ([close_ends_streams]) and returns ([stream_close_returns]), without a panic
      ([server_streams_never_panic]).
    - Transports and subscriptions: no panics in any interleaving; each transport
      implements an abstract bus, which hands a subscription what was published to it and
      no more ([transports_refine_bus]), and so, over any that does, a typed subscription
      gives its user published messages only ([subscription_authentic]); the in-process bus
      delivers each publication once to each subscriber ([publish_reaches_subscribers]);
      the redis bus publishes in order ([redis_publish_fifo]), comes to be subscribed to
      what the bus wants, and to no more if redis does not say of a subscription it made
      that it failed ([redis_settles], [redis_stray_subscription]), and gives each payload of a queue to one
      process ([redis_queue_read_once]); the nats bus hands each subscription what its
      router handled of its channel and keeps its table of routers exact
      ([nats_router_delivers], [nats_table_exact]); a subscription forwards in order
      ([subscription_forwards]).
    - The code generator: its text is well bracketed when the names of topics and groups,
      which protoc does not check, are identifiers ([generated_text_balanced],
      [topic_name_unbalanced]); the
      client and the server it generates agree on the service ([generated_definitions_agree]);
      the registry of messages has every message under its name, and under a name the
      last message that the files it was given define or import publicly with it
      ([registry_exact]); the packages that a service's types come from are imported,
      except from a file without an import path in the directory of the generated one
      ([type_packages_imported], [second_local_dependency]) and its methods' topics grouped
      ([topic_groups_exact]).  Further: aliases of packages are fresh and names exact
      ([package_alias_fresh], [package_names_exact]), identifiers are Go's
      ([camel_case_identifier]), parameters are read the same in any order
      ([params_deterministic]).
    - Around calls: interceptor chains nest ([server_chain_nested]); metrics are reported
      once and change nothing ([server_metrics_transparent], [multi_metrics_exact],
      [stream_end_reported_once]); a server's span is below the client's
      ([trace_propagated]).  The lagging bus delivers each message once, not before its
      time, and wakes its reader when one is due ([laggy_delivers], [laggy_wakes]).

    Theorems that are not among the properties record where the code does less than it
    means to; the manifest's findings name them ([reader_wedges],
    [overlapping_registrations], [redis_deaf_subscriber], [stream_escapes_close],
    [import_shadows_own], [client_bytes_swapped], [end_overtakes_messages] and others).

    ** Bounds and fuel

    Fuel is a bound on what is not structural, and for each use a theorem says how much
    is enough: [Retry]'s loop, one unit per attempt ([retry_default_total]); [Rand]'s, one
    per draw of its source ([formatID_spec]); [TypeMap]'s walk of public imports, one per
    file ([registry_exact]); [Generator]'s search for a free alias, one per name in use
    ([fresh_alias_total]); [Heap]'s two loops, one per element ([Push_heap], [Pop_heap]);
    [TestBus]'s read, one per message lost ([unreliable_read_returns]).  [GenText] splits
    a descriptor into lines with its length as fuel ([descriptor_printed]).  Durations and
    times are Z with [int64] written out where the code computes with them; lengths are
    not bounded.

    ** What is not modelled

    Channels of capacity zero (a hand-over without a buffer) in the concurrent models: the
    default sizes are positive.  Data races below the steps: the models take the code's
    locks to protect what they protect.  Garbage, logging, and the effects of hooks.

    Of the generator: [go/parser] and [go/printer], which lay out the text it printed, the
    compression of descriptors, and the Unicode tables, which are parameters.  Not modelled
    because they have no logic of their own: generated code, the harness that runs brokers
    for the tests, aliases of types, the logger that forwards, the version string and the
    build script.  The default providers of OpenTelemetry are that library's. *)
From stdpp Require Export base tactics list gmap strings option relations.
From Stdlib Require Export ZArith Lia Ascii.
From Stdlib Require String.

#[export] Set Default Goal Selector "!".
#[global] Open Scope string_scope.
#[global] Open Scope list_scope.
#[global] Open Scope Z_scope.

(** ** Results of fallible Go functions *)

(** [(value, error)] pairs, where Go code looks at the value only when the
    error is nil. *)
Inductive result (E A : Type) : Type :=
| Ok (a : A)
| Err (e : E).
Arguments Ok {E A} a.
Arguments Err {E A} e.

#[export] Instance result_ret {E} : MRet (result E) := fun _ a => Ok a.
#[export] Instance result_bind {E} : MBind (result E) :=
  fun _ _ f r => match r with Ok a => f a | Err e => Err e end.
#[export] Instance result_fmap {E} : FMap (result E) :=
  fun _ _ f r => match r with Ok a => Ok (f a) | Err e => Err e end.

#[export] Instance result_eq_dec {E A} `{EqDecision E, EqDecision A} :
  EqDecision (result E A).
Proof. solve_decision. Defined.

Definition is_ok {E A} (r : result E A) : bool :=
  match r with Ok _ => true | Err _ => false end.

Lemma Ok_inj {E A} (a b : A) : @Ok E A a = Ok b → a = b.
Proof. by intros [= ->]. Qed.

Lemma is_ok_spec {E A} (r : result E A) : is_ok r = true → ∃ a, r = Ok a.
Proof. destruct r as [a|e]; [by exists a|done]. Qed.

Lemma bind_is_ok {E A B} (r : result E A) (f : A → result E B) : is_ok (r ≫= f) = true → ∃ a, r = Ok a ∧ is_ok (f a) = true.
Proof. destruct r as [a|e]; [by exists a|done]. Qed.

(** ** Machine integers *)

(** The value an [int64] (a [time.Duration] in particular) holds after an
    arithmetic operation whose exact result is [z]. *)
Definition int64 (z : Z) : Z := (z + 2 ^ 63) mod 2 ^ 64 - 2 ^ 63.

(** [time.Time.Sub] (and [time.Since], [time.Until]) keeps to the range of a
    [time.Duration] instead of wrapping. *)
Definition time_Sub (t u : Z) : Z := Z.max (- 2 ^ 63) (Z.min (2 ^ 63 - 1) (t - u)).

(** [time.Nanosecond]s. *)
Definition Second : Z := 1000000000.
Definition Millisecond : Z := 1000000.

Definition in_int64 (z : Z) : Prop := - 2 ^ 63 <= z < 2 ^ 63.

(** ** Go's [switch] over comparable values *)

Fixpoint switch {K A} `{EqDecision K} (x : K) (cases : list (list K * A)) (dflt : A) : A :=
  match cases with
  | [] => dflt
  | (ks, a) :: rest => if bool_decide (x ∈ ks) then a else switch x rest dflt
  end.

(** ** Go channels *)

(** A buffered channel: what is queued, the capacity, and whether [close] ran. *)
Record chan (A : Type) : Type := Chan {
  chan_cap : nat;
  chan_buf : list A;
  chan_closed : bool
}.
Arguments Chan {A} chan_cap chan_buf chan_closed.
Arguments chan_cap {A} c.
Arguments chan_buf {A} c.
Arguments chan_closed {A} c.

Definition make_chan {A} (size : nat) : chan A := Chan size [] false.

(** What a send does when no receiver is waiting. *)
Inductive sent (A : Type) : Type :=
| Sent (c : chan A)
| SendBlocks
| SendPanics.
Arguments Sent {A} c.
Arguments SendBlocks {A}.
Arguments SendPanics {A}.

Definition chan_send {A} (c : chan A) (a : A) : sent A :=
  if chan_closed c then SendPanics
  else if (length (chan_buf c) <? chan_cap c)%nat
       then Sent (Chan (chan_cap c) (chan_buf c ++ [a]) false)
       else SendBlocks.

Inductive received (A : Type) : Type :=
| Received (a : A) (c : chan A)
| RecvClosed
| RecvBlocks.
Arguments Received {A} a c.
Arguments RecvClosed {A}.
Arguments RecvBlocks {A}.

Definition chan_recv {A} (c : chan A) : received A :=
  match chan_buf c with
  | a :: rest => Received a (Chan (chan_cap c) rest (chan_closed c))
  | [] => if chan_closed c then RecvClosed else RecvBlocks
  end.

(** [close]: panics ([None]) on a channel already closed. *)
Definition chan_close {A} (c : chan A) : option (chan A) :=
  if chan_closed c then None else Some (Chan (chan_cap c) (chan_buf c) true).

(** ** Bytes and strings *)

(** A Go string is a sequence of bytes: [String.string], whose characters are
    bytes. [#s] is its length. *)
Definition byte_of_Z (z : Z) : ascii := ascii_of_N (Z.to_N (z mod 256)).
Definition Z_of_byte (a : ascii) : Z := Z.of_N (N_of_ascii a).

Definition bytes_of (s : string) : list ascii := String.list_ascii_of_string s.
Definition string_of (l : list ascii) : string := String.string_of_list_ascii l.

(** ** Reachability *)

(** A property of the initial state that every step preserves holds in every
    reachable state. *)
Definition invariant {S} (step : S → S → Prop) (P : S → Prop) : Prop :=
  ∀ s s', P s → step s s' → P s'.

(** The environment of a step relation labelled with what happened. *)
Inductive trace {S L} (step : S → L → S → Prop) : S → list L → S → Prop :=
| trace_nil s : trace step s [] s
| trace_cons s1 l s2 ls s3 :
    step s1 l s2 → trace step s2 ls s3 → trace step s1 (l :: ls) s3.

(** ** Hints and tactics of the development *)

Create HintDb psrpc.

Ltac go_case :=
  match goal with
  | |- context [match ?x with _ => _ end] => destruct x eqn:?
  | H : context [match ?x with _ => _ end] |- _ => destruct x eqn:?
  end.

Ltac go_crush :=
  repeat (simplify_eq/= || go_case); try done; try lia; eauto with psrpc.

(** ** Lemmas *)

Lemma sublist_Forall {A} (P : A → Prop) l1 l2 : l1 `sublist_of` l2 → Forall P l2 → Forall P l1.
Proof. induction 1; intros Hall; [done|inversion Hall; constructor; auto|inversion Hall; auto]. Qed.

Lemma forallb_lookup {A} (f : A → bool) l n x :
  forallb f l = true → l !! n = Some x → f x = true.
Proof.
  revert n. induction l as [|a l IH]; intros [|n] Hf Hn; simplify_eq/=;
    apply andb_prop in Hf as [Ha Hf]; [done|eauto].
Qed.

Lemma forallb_false {A} (f : A → bool) (xs : list A) : forallb f xs = false → ∃ a, a ∈ xs ∧ f a = false.
Proof.
  induction xs as [|a xs IH]; simpl; [done|]. destruct (f a) eqn:Ha; simpl; [|exists a; split; [by left|done]].
  intros (b & ? & ?)%IH. exists b. split; [by right|done].
Qed.

(** In a list with one element replaced. *)
Lemma list_lookup_insert_cases {A} (l : list A) n m x y :
  <[n := y]> l !! m = Some x → (m = n ∧ x = y) ∨ (m ≠ n ∧ l !! m = Some x).
Proof. intros [(-> & <- & _)|[Hne Hm]]%list_lookup_insert_Some; [by left|right; by split]. Qed.

Section int64_lemmas.
Lemma int64_id z : in_int64 z → int64 z = z.
Proof. unfold int64, in_int64. intros. rewrite Z.mod_small; lia. Qed.

Lemma int64_range z : in_int64 (int64 z).
Proof.
  unfold int64, in_int64.
  pose proof (Z.mod_pos_bound (z + 2 ^ 63) (2 ^ 64)). lia.
Qed.
End int64_lemmas.

Section reachability.
Context {S : Type} (step : S → S → Prop) (P : S → Prop).

Lemma invariant_rtc s s' : invariant step P → P s → rtc step s s' → P s'.
Proof. intros Hinv HP Hs. induction Hs; eauto. Qed.
End reachability.

Section traces.
Context {S L : Type} (step : S → L → S → Prop).

Lemma trace_invariant (P : S → Prop) s ls s' :
  (∀ s l s', P s → step s l s' → P s') → P s → trace step s ls s' → P s'.
Proof. intros Hinv HP Ht. induction Ht; eauto. Qed.

Lemma trace_app s1 l1 s2 l2 s3 :
  trace step s1 l1 s2 → trace step s2 l2 s3 → trace step s1 (l1 ++ l2) s3.
Proof. induction 1; simpl; [done|]. intros. econstructor; eauto. Qed.
End traces.

Section switch_lemmas.
Context {K A : Type} `{EqDecision K}.

Lemma switch_miss (x : K) (cases : list (list K * A)) d :
  (∀ ks a, (ks, a) ∈ cases → x ∉ ks) → switch x cases d = d.
Proof.
  induction cases as [|[ks a] cases IH]; intros Hn; simpl; [done|].
  rewrite bool_decide_eq_false_2 by (eapply Hn; left).
  apply IH. intros ks' a' Hin. eapply Hn. by right; eauto.
Qed.

(** What holds of every case and of the default holds of a switch. *)
Lemma switch_Forall (P : A → Prop) (x : K) (cases : list (list K * A)) d :
  Forall (λ c, P c.2) cases → P d → P (switch x cases d).
Proof.
  intros Hc Hd. induction Hc as [|[ks a] cases Ha Hc IH]; simpl; [done|].
  by case_bool_decide.
Qed.

(** A switch whose cases each test one value, all different, is a lookup. *)
Lemma switch_assoc (l : list (K * A)) k a d :
  NoDup l.*1 → (k, a) ∈ l → switch k ((λ p, ([p.1], p.2)) <$> l) d = a.
Proof.
  induction l as [|[k' a'] l IH]; intros Hnd Hin; [set_solver|].
  apply NoDup_cons in Hnd as [Hk Hnd]. simpl.
  apply elem_of_cons in Hin as [[= -> ->]|Hin].
  - by rewrite bool_decide_eq_true_2 by set_solver.
  - rewrite bool_decide_eq_false_2; [by apply IH|].
    intros ->%list_elem_of_singleton. apply Hk, list_elem_of_fmap. by exists (k', a).
Qed.
End switch_lemmas.

Section sum_lemmas.
Context {A : Type} (f : A → nat).

Lemma sum_list_with_insert l n x y :
  l !! n = Some x → (sum_list_with f (<[n := y]> l) + f x = sum_list_with f l + f y)%nat.
Proof.
  revert n. induction l as [|a l IH]; intros [|n] Hn; simplify_eq/=; [lia|].
  specialize (IH n Hn). lia.
Qed.

Lemma sum_list_with_lookup l n x : l !! n = Some x → (f x <= sum_list_with f l)%nat.
Proof.
  revert n. induction l as [|a l IH]; intros [|n] Hn; simplify_eq/=; [lia|].
  specialize (IH n Hn). lia.
Qed.

Lemma sum_list_with_pos l : sum_list_with f l ≠ 0%nat → ∃ n a, l !! n = Some a ∧ f a ≠ 0%nat.
Proof.
  induction l as [|a l IH]; simpl; [done|]. intros Hs. destruct (decide (f a = 0%nat)) as [Hz|?]; [|by exists 0%nat, a].
  destruct IH as (n & b & ? & ?); [lia|]. by exists (S n), b.
Qed.

(** An element that makes up the sum leaves nothing to the others. *)
Lemma sum_list_with_others l n x m y :
  l !! n = Some x → (sum_list_with f l <= f x)%nat → l !! m = Some y → m ≠ n → f y = 0%nat.
Proof.
  revert n m. induction l as [|a l IH]; intros [|n] [|m] Hn Hs Hm Hne; simplify_eq/=.
  - pose proof (sum_list_with_lookup _ _ _ Hm). lia.
  - pose proof (sum_list_with_lookup _ _ _ Hn). lia.
  - eapply IH; [exact Hn| |exact Hm|congruence]. lia.
Qed.
End sum_lemmas.

Section chan_lemmas.
Lemma chan_recv_closed {A} (c c' : chan A) a : chan_recv c = Received a c' →
  chan_closed c' = chan_closed c ∧ chan_cap c' = chan_cap c ∧ chan_buf c = a :: chan_buf c'.
Proof.
  unfold chan_recv. destruct (chan_buf c) as [|b rest]; [by destruct (chan_closed c)|]. by intros [= -> <-].
Qed.

Lemma chan_recv_end {A} (c : chan A) : chan_recv c = RecvClosed → chan_buf c = [] ∧ chan_closed c = true.
Proof. unfold chan_recv. destruct (chan_buf c); [|done]. by destruct (chan_closed c). Qed.

Lemma chan_send_sent {A} (c c' : chan A) a : chan_send c a = Sent c' →
  chan_closed c = false ∧ chan_closed c' = false ∧ chan_cap c' = chan_cap c ∧ chan_buf c' = chan_buf c ++ [a].
Proof.
  unfold chan_send. destruct (chan_closed c); [done|]. destruct (_ <? _)%nat; [|done]. by intros [= <-].
Qed.
End chan_lemmas.

Section string_lemmas.
Lemma bytes_of_app s1 s2 : bytes_of (s1 +:+ s2) = bytes_of s1 ++ bytes_of s2.
Proof. unfold bytes_of. induction s1; simpl; [done|]. by rewrite IHs1. Qed.

Lemma bytes_of_string_of l : bytes_of (string_of l) = l.
Proof. apply String.list_ascii_of_string_of_list_ascii. Qed.

Lemma string_of_bytes_of s : string_of (bytes_of s) = s.
Proof. apply String.string_of_list_ascii_of_string. Qed.

#[export] Instance bytes_of_inj : Inj (=) (=) bytes_of.
Proof.
  intros s1 s2 Heq. rewrite <- (string_of_bytes_of s1), <- (string_of_bytes_of s2).
  by rewrite Heq.
Qed.

#[export] Instance string_of_inj : Inj (=) (=) string_of.
Proof.
  intros l1 l2 Heq. rewrite <- (bytes_of_string_of l1), <- (bytes_of_string_of l2).
  by rewrite Heq.
Qed.
End string_lemmas.

Create Rewrite HintDb psrpc_rw.

#[export] Hint Rewrite bytes_of_app bytes_of_string_of string_of_bytes_of : psrpc_rw.
#[export] Hint Resolve int64_range : psrpc.
