(* ===== verification/Errors.v ===== *)
(** * Errors.v: the error values of psrpc ([src/errors.go])

    Error codes and their HTTP, gRPC and Twirp images, the [psrpcError] and
    [NoSubscriberError] types, their constructors, and how [errors.As] and
    [errors.Is] find them inside wrapped errors.

    gRPC's and Twirp's code constants, [anypb.Any] and [status.FromError] are
    other modules' code: they are the classes [GrpcApi], [TwirpApi] and
    [StatusApi]. *)
From S2P Require Import Prelude.

(** ** Other modules' code *)

(** [google.golang.org/grpc/codes] and [anypb]: the code constants are distinct. *)
Class GrpcApi := {
  codes_Code : Type;
  codes_OK : codes_Code;
  codes_Canceled : codes_Code;
  codes_Unknown : codes_Code;
  codes_InvalidArgument : codes_Code;
  codes_DeadlineExceeded : codes_Code;
  codes_NotFound : codes_Code;
  codes_AlreadyExists : codes_Code;
  codes_PermissionDenied : codes_Code;
  codes_ResourceExhausted : codes_Code;
  codes_FailedPrecondition : codes_Code;
  codes_Aborted : codes_Code;
  codes_OutOfRange : codes_Code;
  codes_Unimplemented : codes_Code;
  codes_Internal : codes_Code;
  codes_Unavailable : codes_Code;
  codes_DataLoss : codes_Code;
  codes_Unauthenticated : codes_Code;
  codes_eq_dec :: EqDecision codes_Code;
  codes_distinct : NoDup
    [codes_OK; codes_Canceled; codes_Unknown; codes_InvalidArgument;
     codes_DeadlineExceeded; codes_NotFound; codes_AlreadyExists;
     codes_PermissionDenied; codes_ResourceExhausted; codes_FailedPrecondition;
     codes_Aborted; codes_OutOfRange; codes_Unimplemented; codes_Internal;
     codes_Unavailable; codes_DataLoss; codes_Unauthenticated];
  (** [*anypb.Any] *)
  Any : Type
}.

(** [github.com/twitchtv/twirp]'s error codes. *)
Class TwirpApi := {
  twirp_ErrorCode : Type;
  twirp_NoError : twirp_ErrorCode;
  twirp_Canceled : twirp_ErrorCode;
  twirp_Unknown : twirp_ErrorCode;
  twirp_InvalidArgument : twirp_ErrorCode;
  twirp_Malformed : twirp_ErrorCode;
  twirp_DeadlineExceeded : twirp_ErrorCode;
  twirp_NotFound : twirp_ErrorCode;
  twirp_AlreadyExists : twirp_ErrorCode;
  twirp_PermissionDenied : twirp_ErrorCode;
  twirp_ResourceExhausted : twirp_ErrorCode;
  twirp_FailedPrecondition : twirp_ErrorCode;
  twirp_Aborted : twirp_ErrorCode;
  twirp_OutOfRange : twirp_ErrorCode;
  twirp_Unimplemented : twirp_ErrorCode;
  twirp_Internal : twirp_ErrorCode;
  twirp_Unavailable : twirp_ErrorCode;
  twirp_DataLoss : twirp_ErrorCode;
  twirp_Unauthenticated : twirp_ErrorCode
}.

(** ** Error codes *)

Abbreviation ErrorCode := string (only parsing).

Definition OK : ErrorCode := "".
Definition Canceled : ErrorCode := "canceled".
Definition MalformedRequest : ErrorCode := "malformed_request".
Definition MalformedResponse : ErrorCode := "malformed_result".
Definition DeadlineExceeded : ErrorCode := "deadline_exceeded".
Definition Unavailable : ErrorCode := "unavailable".
Definition Unknown : ErrorCode := "unknown".
Definition InvalidArgument : ErrorCode := "invalid_argument".
Definition NotFound : ErrorCode := "not_found".
Definition NotAcceptable : ErrorCode := "not_acceptable".
Definition AlreadyExists : ErrorCode := "already_exists".
Definition PermissionDenied : ErrorCode := "permission_denied".
Definition ResourceExhausted : ErrorCode := "resource_exhausted".
Definition FailedPrecondition : ErrorCode := "failed_precondition".
Definition Aborted : ErrorCode := "aborted".
Definition OutOfRange : ErrorCode := "out_of_range".
Definition Unimplemented : ErrorCode := "unimplemented".
Definition Internal : ErrorCode := "internal".
Definition DataLoss : ErrorCode := "data_loss".
Definition Unauthenticated : ErrorCode := "unauthenticated".
Definition UnprocessableEntity : ErrorCode := "unprocessable_entity".
Definition UpstreamServerError : ErrorCode := "upstream_server_error".
Definition UpstreamClientError : ErrorCode := "upstream_client_error".

(** The HTTP statuses are [net/http]'s. *)
Definition ToHTTP (e : ErrorCode) : Z :=
  switch e
    [([OK], 200);
     ([Unknown; MalformedResponse; Internal; DataLoss], 500);
     ([InvalidArgument; MalformedRequest], 400);
     ([NotFound], 404);
     ([NotAcceptable], 406);
     ([AlreadyExists; Aborted], 409);
     ([PermissionDenied], 403);
     ([ResourceExhausted], 429);
     ([FailedPrecondition], 412);
     ([OutOfRange], 416);
     ([Unimplemented], 501);
     ([Canceled; DeadlineExceeded; Unavailable], 503);
     ([Unauthenticated], 401);
     ([UnprocessableEntity], 422);
     ([UpstreamServerError], 502);
     ([UpstreamClientError], 424)]
    500.

Definition ErrorCodeFromGRPC `{GrpcApi} (code : codes_Code) : ErrorCode :=
  switch code
    [([codes_OK], OK);
     ([codes_Canceled], Canceled);
     ([codes_Unknown], Unknown);
     ([codes_InvalidArgument], InvalidArgument);
     ([codes_DeadlineExceeded], DeadlineExceeded);
     ([codes_NotFound], NotFound);
     ([codes_AlreadyExists], AlreadyExists);
     ([codes_PermissionDenied], PermissionDenied);
     ([codes_ResourceExhausted], ResourceExhausted);
     ([codes_FailedPrecondition], FailedPrecondition);
     ([codes_Aborted], Aborted);
     ([codes_OutOfRange], OutOfRange);
     ([codes_Unimplemented], Unimplemented);
     ([codes_Internal], Internal);
     ([codes_Unavailable], Unavailable);
     ([codes_DataLoss], DataLoss);
     ([codes_Unauthenticated], Unauthenticated)]
    Unknown.

Definition ToGRPC `{GrpcApi} (e : ErrorCode) : codes_Code :=
  switch e
    [([OK], codes_OK);
     ([Canceled], codes_Canceled);
     ([Unknown], codes_Unknown);
     ([InvalidArgument; MalformedRequest], codes_InvalidArgument);
     ([DeadlineExceeded], codes_DeadlineExceeded);
     ([NotFound], codes_NotFound);
     ([AlreadyExists], codes_AlreadyExists);
     ([PermissionDenied], codes_PermissionDenied);
     ([ResourceExhausted], codes_ResourceExhausted);
     ([FailedPrecondition], codes_FailedPrecondition);
     ([Aborted], codes_Aborted);
     ([OutOfRange], codes_OutOfRange);
     ([Unimplemented], codes_Unimplemented);
     ([MalformedResponse; Internal], codes_Internal);
     ([Unavailable], codes_Unavailable);
     ([DataLoss], codes_DataLoss);
     ([Unauthenticated], codes_Unauthenticated);
     ([UpstreamServerError], codes_Internal);
     ([UpstreamClientError], codes_InvalidArgument)]
    codes_Unknown.

Definition ToTwirp `{TwirpApi} (e : ErrorCode) : twirp_ErrorCode :=
  switch e
    [([OK], twirp_NoError);
     ([Canceled], twirp_Canceled);
     ([Unknown], twirp_Unknown);
     ([InvalidArgument], twirp_InvalidArgument);
     ([MalformedRequest; MalformedResponse], twirp_Malformed);
     ([DeadlineExceeded], twirp_DeadlineExceeded);
     ([NotFound], twirp_NotFound);
     ([AlreadyExists], twirp_AlreadyExists);
     ([PermissionDenied], twirp_PermissionDenied);
     ([ResourceExhausted], twirp_ResourceExhausted);
     ([FailedPrecondition], twirp_FailedPrecondition);
     ([Aborted], twirp_Aborted);
     ([OutOfRange], twirp_OutOfRange);
     ([Unimplemented], twirp_Unimplemented);
     ([Internal], twirp_Internal);
     ([Unavailable], twirp_Unavailable);
     ([DataLoss], twirp_DataLoss);
     ([Unauthenticated], twirp_Unauthenticated);
     ([UpstreamServerError], twirp_Internal);
     ([UpstreamClientError], twirp_InvalidArgument)]
    twirp_Unknown.

(** ** Error values *)

(** The package's [*psrpcError] variables, by the pointer each holds. *)
Inductive sentinel : Type :=
| PtrRequestCanceled | PtrRequestTimedOut | PtrNoResponse | PtrUnimplemented
| PtrStreamEOF | PtrClientClosed | PtrServerClosed | PtrStreamClosed
| PtrSlowConsumer.

#[export] Instance sentinel_eq_dec : EqDecision sentinel.
Proof. solve_decision. Defined.

(** The standard library's error variables the package compares with. *)
Inductive std_error : Type := ContextCanceled | ContextDeadlineExceeded | IoEOF.

#[export] Instance std_error_eq_dec : EqDecision std_error.
Proof. solve_decision. Defined.

(** What [status.FromError] hands back. *)
Record Status `{GrpcApi} : Type := MkStatus {
  st_Code : codes_Code;
  st_Message : string;
  st_Details : list Any
}.

(** A non-nil [error] by its dynamic type.  [EPsrpc] is a [*psrpcError], with
    the variable it is the value of when it is one; [ENoSubscriber] is a
    [*NoSubscriberError], which embeds a [*psrpcError]; [EWrap] is what
    [fmt.Errorf] returns for one [%w]; [EString] stands for any error whose type
    nothing in the package looks at. *)
Inductive error `{GrpcApi} : Type :=
| EString (msg : string)
| EWrap (msg : string) (err : error)
| EStd (s : std_error)
| ECode (code : ErrorCode)
| EStatus (st : Status)
| EPsrpc (ptr : option sentinel) (err : error) (code : ErrorCode) (details : list Any)
| ENoSubscriber (err : error) (code : ErrorCode) (details : list Any) (Wait : Z).

(** [google.golang.org/grpc/status]: the status carried by an error, when the
    error is one of gRPC's or wraps one, and the text of a status error. *)
Class StatusApi `{GrpcApi} := {
  FromError : error → option Status;
  Status_Error : Status → string;
  FromError_status : ∀ st, FromError (EStatus st) = Some st;
  FromError_string : ∀ msg, FromError (EString msg) = None
}.

(** The methods of the [Error] interface the package calls, on the error found. *)
Record psrpcView `{GrpcApi} : Type := View {
  view_Error : error;
  view_Code : ErrorCode;
  view_Details : list Any
}.

Arguments MkStatus {_} _ _ _.
Arguments st_Code {_} _.
Arguments st_Message {_} _.
Arguments st_Details {_} _.
Arguments EString {_} _.
Arguments EWrap {_} _ _.
Arguments EStd {_} _.
Arguments ECode {_} _.
Arguments EStatus {_} _.
Arguments EPsrpc {_} _ _ _ _.
Arguments ENoSubscriber {_} _ _ _ _.
Arguments View {_} _ _ _.
Arguments view_Error {_} _.
Arguments view_Code {_} _.
Arguments view_Details {_} _.

Section error_values.
Context `{StatusApi}.

Definition std_Error (s : std_error) : string :=
  match s with
  | ContextCanceled => "context canceled"
  | ContextDeadlineExceeded => "context deadline exceeded"
  | IoEOF => "EOF"
  end.

(** [err.Error()]. *)
Fixpoint Error (e : error) : string :=
  match e with
  | EString msg => msg
  | EWrap msg _ => msg
  | EStd s => std_Error s
  | ECode code => code
  | EStatus st => Status_Error st
  | EPsrpc _ err _ _ => Error err
  | ENoSubscriber err _ _ _ => Error err
  end.

(** [err.Unwrap()]: no error, one, or the two of a [psrpcError]. *)
Definition Unwrap (e : error) : list error :=
  match e with
  | EWrap _ err => [err]
  | EPsrpc _ err code _ | ENoSubscriber err code _ _ => [err; ECode code]
  | _ => []
  end.

(** [errors.As(err, &e)] for [e] of the interface type [Error]: the first error
    of the tree, in pre-order, that implements it. *)
Fixpoint as_Error (e : error) : option psrpcView :=
  match e with
  | EPsrpc _ _ code details | ENoSubscriber _ code details _ => Some (View e code details)
  | EWrap _ err => as_Error err
  | _ => None
  end.

(** [errors.As(err, &nse)] for [nse] a [*NoSubscriberError]; the value is its [Wait]. *)
Fixpoint as_NoSubscriber (e : error) : option Z :=
  match e with
  | ENoSubscriber _ _ _ wait => Some wait
  | EWrap _ err | EPsrpc _ err _ _ => as_NoSubscriber err
  | _ => None
  end.

(** [errors.Is(err, target)] for [target] one of the package's variables. *)
Fixpoint Is (target : sentinel) (e : error) : bool :=
  match e with
  | EPsrpc ptr err _ _ => bool_decide (ptr = Some target) || Is target err
  | EWrap _ err | ENoSubscriber err _ _ _ => Is target err
  | _ => false
  end.

(** [errors.Is(err, target)] for [target] a standard library variable. *)
Fixpoint Is_std (target : std_error) (e : error) : bool :=
  match e with
  | EStd s => bool_decide (s = target)
  | EWrap _ err | EPsrpc _ err _ _ | ENoSubscriber err _ _ _ => Is_std target err
  | _ => false
  end.

(** *** Constructors *)

(** [NewError]; [None] is its panic.  [anypb_New] is [anypb.New], which fails
    on a message it cannot marshal. *)
Definition NewError {message} (anypb_New : message → option Any)
    (code : ErrorCode) (err : option error) (details : list message) : option error :=
  match err with
  | None => None
  | Some err => Some (EPsrpc None err code (omap anypb_New details))
  end.

(** [NewError] as the package's own code calls it: a non-nil error, no details. *)
Definition newError (code : ErrorCode) (err : error) : error := EPsrpc None err code [].

(** [NewErrorf], applied to the text [fmt.Errorf] makes of its format. *)
Definition NewErrorf (code : ErrorCode) (msg : string) : error :=
  EPsrpc None (EString msg) code [].

Definition NewErrorFromResponse (code err : string) (details : list Any) : error :=
  let code := if bool_decide (code = "") then Unknown else code in
  EPsrpc None (EString err) code details.

(** The package variable [ptr], initialised with [e]. *)
Definition variable (ptr : sentinel) (e : error) : error :=
  match e with
  | EPsrpc _ err code details => EPsrpc (Some ptr) err code details
  | e => e
  end.

Definition ErrRequestCanceled := variable PtrRequestCanceled (NewErrorf Canceled "request canceled").
Definition ErrRequestTimedOut := variable PtrRequestTimedOut (NewErrorf DeadlineExceeded "request timed out").
Definition ErrNoResponse := variable PtrNoResponse (NewErrorf Unavailable "no response from servers").
Definition ErrUnimplemented := variable PtrUnimplemented (NewErrorf Unimplemented "method is not implemented").
Definition ErrStreamEOF := variable PtrStreamEOF (newError Unavailable (EStd IoEOF)).
Definition ErrClientClosed := variable PtrClientClosed (NewErrorf Canceled "client is closed").
Definition ErrServerClosed := variable PtrServerClosed (NewErrorf Canceled "server is closed").
Definition ErrStreamClosed := variable PtrStreamClosed (NewErrorf Canceled "stream closed").
Definition ErrSlowConsumer := variable PtrSlowConsumer (NewErrorf Unavailable "stream message discarded by slow consumer").

Definition NewNoSubscriberError (wait : Z) : error :=
  ENoSubscriber
    (EWrap (Error ErrNoResponse +:+ ": no server is subscribed") ErrNoResponse)
    Unavailable [] wait.

Definition GetErrorCode (err : option error) : ErrorCode * bool :=
  match err ≫= as_Error with
  | Some e => (view_Code e, true)
  | None =>
      match err ≫= FromError with
      | Some st => (ErrorCodeFromGRPC (st_Code st), true)
      | None => (Unknown, false)
      end
  end.

(** [psrpcError]'s [ToHttp], [GRPCStatus] and [toTwirp]. *)
Definition ToHttp (v : psrpcView) : Z := ToHTTP (view_Code v).

Definition GRPCStatus (v : psrpcView) : Status :=
  MkStatus (ToGRPC (view_Code v)) (Error (view_Error v)) (view_Details v).

Definition toTwirp `{TwirpApi} (v : psrpcView) : twirp_ErrorCode * string :=
  (ToTwirp (view_Code v), Error (view_Error v)).

(** [psrpcError.As]: of the targets only a [*twirp.Error] is set. *)
Definition As `{TwirpApi} (twirp_target : bool) (v : psrpcView) : option (twirp_ErrorCode * string) :=
  if twirp_target then Some (toTwirp v) else None.

(** [errors.As(err, &te)] for [te] a [twirp.Error]: the first error of the tree whose [As]
    sets it. *)
Fixpoint as_twirp `{TwirpApi} (e : error) : option (twirp_ErrorCode * string) :=
  match e with
  | EPsrpc _ _ code details | ENoSubscriber _ code details _ => As true (View e code details)
  | EWrap _ err => as_twirp err
  | _ => None
  end.

(** The error codes gRPC has too. *)
Definition grpc_codes : list ErrorCode :=
  [OK; Canceled; Unknown; InvalidArgument; DeadlineExceeded; NotFound;
   AlreadyExists; PermissionDenied; ResourceExhausted; FailedPrecondition;
   Aborted; OutOfRange; Unimplemented; Internal; Unavailable; DataLoss;
   Unauthenticated].
End error_values.

(** ** Instances the examples run on *)

(** The numbers gRPC gives its codes. *)
Definition grpc_numbers : GrpcApi := {|
  codes_Code := Z; codes_OK := 0; codes_Canceled := 1; codes_Unknown := 2;
  codes_InvalidArgument := 3; codes_DeadlineExceeded := 4; codes_NotFound := 5;
  codes_AlreadyExists := 6; codes_PermissionDenied := 7;
  codes_ResourceExhausted := 8; codes_FailedPrecondition := 9;
  codes_Aborted := 10; codes_OutOfRange := 11; codes_Unimplemented := 12;
  codes_Internal := 13; codes_Unavailable := 14; codes_DataLoss := 15;
  codes_Unauthenticated := 16;
  codes_distinct := ltac:(apply (bool_decide_unpack _); vm_compute; exact I);
  Any := string
|}.

(** A [FromError] that sees through [fmt.Errorf] and [psrpcError]. *)
Fixpoint example_FromError `{GrpcApi} (e : error) : option Status :=
  match e with
  | EStatus st => Some st
  | EWrap _ err => example_FromError err
  | EPsrpc _ err code details | ENoSubscriber err code details _ =>
      Some (MkStatus (ToGRPC code) "" details)
  | _ => None
  end.

Definition example_status : StatusApi (H := grpc_numbers) := {|
  FromError := example_FromError;
  Status_Error st := st_Message st;
  FromError_status _ := eq_refl;
  FromError_string _ := eq_refl
|}.

(** An error wrapped by [fmt.Errorf("...: %w", ...)] any number of times. *)
Definition wraps `{GrpcApi} (msgs : list string) (e : error) : error := foldr EWrap e msgs.

(** gRPC's codes with the error codes of the same name. *)
Definition grpc_table `{GrpcApi} : list (codes_Code * ErrorCode) :=
  [(codes_OK, OK); (codes_Canceled, Canceled); (codes_Unknown, Unknown);
   (codes_InvalidArgument, InvalidArgument); (codes_DeadlineExceeded, DeadlineExceeded);
   (codes_NotFound, NotFound); (codes_AlreadyExists, AlreadyExists);
   (codes_PermissionDenied, PermissionDenied);
   (codes_ResourceExhausted, ResourceExhausted);
   (codes_FailedPrecondition, FailedPrecondition); (codes_Aborted, Aborted);
   (codes_OutOfRange, OutOfRange); (codes_Unimplemented, Unimplemented);
   (codes_Internal, Internal); (codes_Unavailable, Unavailable);
   (codes_DataLoss, DataLoss); (codes_Unauthenticated, Unauthenticated)].

(** ** Theorems *)

Section code_lemmas.
Context `{GrpcApi}.

Lemma ErrorCodeFromGRPC_table c e : (c, e) ∈ grpc_table → ErrorCodeFromGRPC c = e.
Proof. apply (switch_assoc grpc_table). apply codes_distinct. Qed.

Lemma ToGRPC_table c e : (c, e) ∈ grpc_table → ToGRPC e = c.
Proof.
  unfold grpc_table. rewrite !elem_of_cons, elem_of_nil.
  intros Hin; destruct_or!; simplify_eq; reflexivity.
Qed.

Lemma ToGRPC_in_table e : ToGRPC e ∈ grpc_table.*1.
Proof. apply (switch_Forall (λ c, c ∈ grpc_table.*1)); [|set_solver].
  repeat constructor; set_solver. Qed.

Lemma ErrorCodeFromGRPC_other c : c ∉ grpc_table.*1 → ErrorCodeFromGRPC c = Unknown.
Proof.
  intros Hc. apply switch_miss. intros ks e Hin Hks. apply Hc.
  change (_ ∈ _) with ((ks, e) ∈ ((λ p, ([p.1], p.2)) <$> grpc_table)) in Hin.
  apply list_elem_of_fmap in Hin as ([c' e'] & [= -> ->] & Hin).
  apply list_elem_of_singleton in Hks as ->.
  apply list_elem_of_fmap. by exists (c', e').
Qed.
End code_lemmas.

#[export] Hint Resolve ErrorCodeFromGRPC_table ToGRPC_table ToGRPC_in_table : psrpc.

(** GRPC codes and psrpc codes translate back and forth without loss exactly
    where gRPC has the code: a psrpc code survives [ToGRPC] then
    [ErrorCodeFromGRPC] if and only if it is one of the seventeen gRPC codes,
    and a gRPC code survives the other way round if and only if it is one of
    the constants; any other gRPC code reads as [Unknown]. *)
Theorem grpc_codes_roundtrip `{GrpcApi} :
  (∀ e, ErrorCodeFromGRPC (ToGRPC e) = e ↔ e ∈ grpc_codes) ∧
  (∀ c, ToGRPC (ErrorCodeFromGRPC c) = c ↔ c ∈ grpc_table.*1) ∧
  (∀ c, c ∉ grpc_table.*1 → ErrorCodeFromGRPC c = Unknown).
Proof.
  assert (Hl : ∀ e, e ∈ grpc_codes ↔ ∃ c, (c, e) ∈ grpc_table).
  { intros e. change grpc_codes with (grpc_table.*2). rewrite list_elem_of_fmap.
    split; [intros ([c e'] & -> & ?); by exists c|intros [c ?]; by exists (c, e)]. }
  split_and!; [intros e|intros c|apply ErrorCodeFromGRPC_other].
  - rewrite Hl. split; [|intros [c Hc]; rewrite (ToGRPC_table _ _ Hc); eauto with psrpc].
    destruct (list_elem_of_fmap_1 _ _ _ (ToGRPC_in_table e)) as ([c e'] & -> & Hin).
    simpl. rewrite (ErrorCodeFromGRPC_table _ _ Hin). by intros <-; exists c.
  - split; [intros <-; apply ToGRPC_in_table|].
    intros ([c' e] & -> & Hin)%list_elem_of_fmap.
    simpl. rewrite (ErrorCodeFromGRPC_table _ _ Hin). by apply ToGRPC_table.
Qed.

Section error_lemmas.
Context `{StatusApi}.

Lemma as_Error_wraps msgs e : as_Error (wraps msgs e) = as_Error e.
Proof. by induction msgs. Qed.

Lemma as_NoSubscriber_wraps msgs e : as_NoSubscriber (wraps msgs e) = as_NoSubscriber e.
Proof. by induction msgs. Qed.

Lemma Is_wraps t msgs e : Is t (wraps msgs e) = Is t e.
Proof. by induction msgs. Qed.

(** A Twirp server finds the error that a psrpc caller does. *)
Lemma as_twirp_Error `{TwirpApi} e : as_twirp e = toTwirp <$> as_Error e.
Proof. by induction e. Qed.
End error_lemmas.

#[export] Hint Rewrite @as_Error_wraps @as_NoSubscriber_wraps @Is_wraps : psrpc_rw.

(** However often [fmt.Errorf] wraps them, [GetErrorCode] reads the code of
    an error made by [NewErrorFromResponse] (with [Unknown] for an empty code),
    and a [NoSubscriberError] still matches [ErrNoResponse], has code
    [Unavailable] and keeps its [Wait]. *)
Theorem wrapped_errors_found `{StatusApi} (msgs : list string) :
  (∀ code err details,
     GetErrorCode (Some (wraps msgs (NewErrorFromResponse code err details)))
       = (if bool_decide (code = "") then Unknown else code, true)) ∧
  (∀ wait,
     GetErrorCode (Some (wraps msgs (NewNoSubscriberError wait))) = (Unavailable, true) ∧
     Is PtrNoResponse (wraps msgs (NewNoSubscriberError wait)) = true ∧
     as_NoSubscriber (wraps msgs (NewNoSubscriberError wait)) = Some wait).
Proof.
  unfold GetErrorCode. simpl.
  split; intros; simpl; autorewrite with psrpc_rw; [done|split_and!; done].
Qed.
