(* ===== verification/Bus.v ===== *)
(** * Bus.v: the message bus over a transport ([src/pkg/bus])

    Channels, bus options ([options.go]), payload compression
    ([compression.go]), the wire envelope ([serialization.go]) and the bus that
    wraps a transport ([bus.go]).

    The protobuf runtime and the gzip codec are other modules' code: the classes
    [Codec] and [Gzip], with the laws the code relies on. *)
From S2P Require Import Prelude Errors.

Abbreviation bytes := (list ascii) (only parsing).

(** The length Go's [len] returns. *)
Definition len {A} (l : list A) : Z := Z.of_nat (length l).

(** ** Channels and options *)

Record Channel : Type := MkChannel {
  ch_Legacy : string;
  ch_Server : string;
  ch_Local : string
}.

#[export] Instance Channel_eq_dec : EqDecision Channel.
Proof. solve_decision. Defined.

Definition DefaultChannelSize : Z := 100.
Definition DefaultCompressionThreshold : Z := 1024.

Record CompressionOpts : Type := MkCompressionOpts {
  co_Quality : Z;
  co_Threshold : Z;
  co_MaxDecompressedSize : Z
}.

Record BusOpts : Type := MkBusOpts { bo_Compression : CompressionOpts }.

Definition BusOption : Type := BusOpts → BusOpts.

Definition WithBusCompression (c : CompressionOpts) : BusOption := λ _, MkBusOpts c.

Definition getBusOpts (opts : list BusOption) : BusOpts :=
  let o := foldl (λ o opt, opt o) (MkBusOpts (MkCompressionOpts 0 0 0)) opts in
  let c := bo_Compression o in
  if co_Threshold c <=? 0
  then MkBusOpts (MkCompressionOpts (co_Quality c) DefaultCompressionThreshold
                                    (co_MaxDecompressedSize c))
  else o.

(** ** Compression *)

(** [github.com/klauspost/compress/gzip], read through [io.ReadAll], directly or
    under [io.LimitReader].  A reader is what [Reset] opens on a stream. *)
Class Gzip `{GrpcApi} := {
  gzip_BestCompression : Z;
  gzip_write : Z → bytes → option bytes;
  gzip_reader : Type;
  gzip_Reset : bytes → result error gzip_reader;
  gzip_ReadAll : gzip_reader → result error bytes;
  gzip_ReadAllLimit : gzip_reader → Z → result error bytes;
  (** A level is at most [BestCompression], and that is a level. *)
  gzip_Best_pos : 0 < gzip_BestCompression;
  (** What a writer closed without error wrote is read back. *)
  gzip_roundtrip : ∀ level src buf, gzip_write level src = Some buf →
    ∃ r, gzip_Reset buf = Ok r ∧ gzip_ReadAll r = Ok src;
  (** A limit the stream ends before does not show. *)
  gzip_limit_above : ∀ r n out, gzip_ReadAll r = Ok out → len out < n →
    gzip_ReadAllLimit r n = Ok out;
  (** A limit within the stream cuts it there. *)
  gzip_limit_within : ∀ r n out out', gzip_ReadAll r = Ok out → n <= len out →
    gzip_ReadAllLimit r n = Ok out' → out' = take (Z.to_nat n) out;
  (** A limited reader with nothing left to read is at its end. *)
  gzip_limit_none : ∀ r n, n <= 0 → gzip_ReadAllLimit r n = Ok []
}.

(** [internal.Compression]. *)
Definition COMPRESSION_NONE : Z := 0.
Definition COMPRESSION_GZIP : Z := 1.

Section compression.
Context `{Gzip}.

(** The pools hold no state between uses: a writer keeps its level alone, and a
    buffer is reset before each use. *)
Record compressor : Type := MkCompressor {
  c_compression : Z;
  c_threshold : Z;
  c_level : Z
}.

Definition newCompressor (o : CompressionOpts) : option compressor :=
  if co_Quality o <=? 0 then None
  else
    let level := Z.min (co_Quality o) gzip_BestCompression in
    Some (MkCompressor COMPRESSION_GZIP (co_Threshold o) level).

(** [None] is the nil buffer: the payload goes out as it is. *)
Definition compress (c : compressor) (src : bytes) : option bytes :=
  if len src <? c_threshold c then None
  else
    match gzip_write (c_level c) src with
    | None => None
    | Some buf => if len src <=? len buf then None else Some buf
    end.

Definition gunzip (src : bytes) (maxSize : Z) : result error bytes :=
  r ← gzip_Reset src;
  out ← (if 0 <? maxSize then gzip_ReadAllLimit r (int64 (maxSize + 1)) else gzip_ReadAll r);
  if (0 <? maxSize) && (maxSize <? len out)
  then Err (EString "psrpc: decompressed message exceeds the maximum size")
  else Ok out.

Definition decompress (src : bytes) (compression maxSize : Z) : result error bytes :=
  if compression =? COMPRESSION_NONE then Ok src
  else if compression =? COMPRESSION_GZIP then gunzip src maxSize
  else Err (EString "psrpc: unrecognized message compression").
End compression.

(** ** The wire envelope *)

(** [internal.Msg], and its read views [internal.Content] and [internal.Channel]. *)
Record Msg : Type := MkMsg {
  m_TypeUrl : string;
  m_Value : bytes;
  m_Channel : string;
  m_Compression : Z
}.

Record Content : Type := MkContent {
  ct_TypeUrl : string;
  ct_Value : bytes;
  ct_Compression : Z
}.

Definition content_of (m : Msg) : Content :=
  MkContent (m_TypeUrl m) (m_Value m) (m_Compression m).

(** The protobuf runtime.  Messages are up to [proto.Equal]; [UnmarshalNew] is
    [anypb.Any.UnmarshalNew], which finds a message type by its URL among the
    registered ones. *)
Class Codec `{GrpcApi} := {
  message : Type;
  FullName : message → string;
  registered : string → bool;
  Marshal : message → result error bytes;
  Unmarshal : string → bytes → result error message;
  UnmarshalNew : string → bytes → result error message;
  marshal_Msg : Msg → result error bytes;
  unmarshal_Content : bytes → result error Content;
  unmarshal_Channel : bytes → result error string;
  Unmarshal_Marshal : ∀ m b, Marshal m = Ok b → Unmarshal (FullName m) b = Ok m;
  UnmarshalNew_Marshal : ∀ m b, Marshal m = Ok b → registered (FullName m) = true →
    UnmarshalNew ("type.googleapis.com/" +:+ FullName m) b = Ok m;
  (** Fields keep their numbers in the read views. *)
  unmarshal_Content_Msg : ∀ m b, marshal_Msg m = Ok b →
    unmarshal_Content b = Ok (content_of m);
  unmarshal_Channel_Msg : ∀ m b, marshal_Msg m = Ok b →
    unmarshal_Channel b = Ok (m_Channel m)
}.

Section serialization.
Context `{Codec, !Gzip}.

Definition serialize (msg : message) (channel : string) (c : option compressor)
    : result error bytes :=
  value ← Marshal msg;
  let m := MkMsg ("type.googleapis.com/" +:+ FullName msg) value channel COMPRESSION_NONE in
  let m :=
    match c with
    | Some c =>
        match compress c value with
        | Some buf => MkMsg (m_TypeUrl m) buf (m_Channel m) (c_compression c)
        | None => m
        end
    | None => m
    end in
  marshal_Msg m.

Definition DecodeLocalChannel (b : bytes) : result error string := unmarshal_Channel b.

Definition Deserialize (b : bytes) (maxSize : Z) : result error message :=
  m ← unmarshal_Content b;
  value ← decompress (ct_Value m) (ct_Compression m) maxSize;
  UnmarshalNew (ct_TypeUrl m) value.

Definition SerializePayload (m : message) : result error bytes := Marshal m.

(** [DeserializePayload[T]], with [T] given by its full name. *)
Definition DeserializePayload (T : string) (buf : bytes) : result error message :=
  Unmarshal T buf.
End serialization.

(** ** The bus *)

(** [bus.Transport] and [bus.InboxTransport]: what a broker does with a payload,
    on a state of its own.  [PublishWithReply] is there when the transport is an
    [InboxTransport]. *)
Record Transport `{GrpcApi} (St : Type) : Type := MkTransport {
  t_Publish : Channel → bytes → St → St * result error unit;
  t_PublishWithReply : option (Channel → Channel → bytes → St → St * result error unit)
}.
Arguments MkTransport {_ St} _ _.
Arguments t_Publish {_ St} _.
Arguments t_PublishWithReply {_ St} _.

Section message_bus.
Context `{Codec, !Gzip} {St : Type}.

Record messageBus : Type := MkMessageBus {
  b_Transport : Transport St;
  b_c : option compressor;
  b_maxSize : Z
}.

(** What [New] returns: an [*inboxBus] over an [InboxTransport], or a plain
    [*messageBus]. *)
Inductive MessageBus : Type :=
| PlainBus (b : messageBus)
| InboxBus (b : messageBus) (it : Channel → Channel → bytes → St → St * result error unit).

Definition New (t : Transport St) (opts : list BusOption) : MessageBus :=
  let o := getBusOpts opts in
  let b := MkMessageBus t (newCompressor (bo_Compression o))
             (co_MaxDecompressedSize (bo_Compression o)) in
  match t_PublishWithReply t with
  | Some it => InboxBus b it
  | None => PlainBus b
  end.

Definition base (b : MessageBus) : messageBus :=
  match b with PlainBus b => b | InboxBus b _ => b end.

Definition Publish (b : MessageBus) (channel : Channel) (msg : message) (st : St)
    : St * result error unit :=
  match serialize msg (ch_Local channel) (b_c (base b)) with
  | Err e => (st, Err e)
  | Ok p => t_Publish (b_Transport (base b)) channel p st
  end.

Definition MaxDecompressedSize (b : MessageBus) : Z := b_maxSize (base b).

(** [PublishWithReply] on an inbox bus; a plain bus has no such method. *)
Definition PublishWithReply (b : MessageBus) (channel reply : Channel) (msg : message) (st : St)
    : option (St * result error unit) :=
  match b with
  | PlainBus _ => None
  | InboxBus b it =>
      Some (match serialize msg (ch_Local channel) (b_c b) with
            | Err e => (st, Err e)
            | Ok p => it channel reply p st
            end)
  end.
End message_bus.
Arguments messageBus {_} St.
Arguments MessageBus {_} St.

(** ** A codec the examples run on *)

Module Example.

(** A byte string with its length before it, in unary. *)
Definition enc_field (f : bytes) : bytes :=
  replicate (length f) "1"%char ++ "0"%char :: f.

Fixpoint dec_len (b : bytes) : option (nat * bytes) :=
  match b with
  | "1"%char :: b => '(n, b) ← dec_len b; Some (S n, b)
  | "0"%char :: b => Some (0%nat, b)
  | _ => None
  end.

Definition dec_field (b : bytes) : option (bytes * bytes) :=
  '(n, b) ← dec_len b; Some (take n b, drop n b).

Definition enc_Msg (m : Msg) : bytes :=
  enc_field (bytes_of (m_TypeUrl m)) ++ enc_field (m_Value m) ++
  enc_field (bytes_of (m_Channel m)) ++
  (if m_Compression m =? COMPRESSION_GZIP then ["1"%char] else []).

Definition dec_Msg (b : bytes) : option Msg :=
  '(url, b) ← dec_field b;
  '(value, b) ← dec_field b;
  '(ch, b) ← dec_field b;
  Some (MkMsg (string_of url) value (string_of ch)
          (match b with [] => COMPRESSION_NONE | _ => COMPRESSION_GZIP end)).

Lemma dec_enc_field f b : dec_field (enc_field f ++ b) = Some (f, b).
Proof.
  unfold enc_field. rewrite <- app_assoc. simpl.
  assert (Hl : ∀ n r, dec_len (replicate n "1"%char ++ "0"%char :: r) = Some (n, r)).
  { induction n as [|n IH]; intros r; simpl; [done|]. by rewrite IH. }
  unfold dec_field. rewrite Hl. simpl. by rewrite take_app_length, drop_app_length.
Qed.

Definition lift {A} (o : option A) : result (error (H := grpc_numbers)) A :=
  match o with Some a => Ok a | None => Err (EString "cannot parse") end.

(** The envelope's compression is one of the two there are. *)
Definition known (m : Msg) : bool :=
  (m_Compression m =? COMPRESSION_NONE) || (m_Compression m =? COMPRESSION_GZIP).

Lemma dec_enc_Msg m : known m = true → dec_Msg (enc_Msg m) = Some m.
Proof.
  intros Hk. unfold dec_Msg, enc_Msg. rewrite dec_enc_field. simpl.
  rewrite dec_enc_field. simpl. rewrite dec_enc_field. simpl.
  autorewrite with psrpc_rw. destruct m as [url v c z]; unfold known in Hk; simpl in *.
  repeat f_equal. unfold COMPRESSION_NONE, COMPRESSION_GZIP in *.
  destruct (Z.eqb_spec z 1); simplify_eq/=; [done|]. lia.
Qed.

(** Messages are a type name and a body. *)
#[refine] Definition codec : Codec (H := grpc_numbers) := {|
  message := string * bytes;
  FullName := fst;
  registered _ := true;
  Marshal m := Ok (snd m);
  Unmarshal T b := Ok (T, b);
  UnmarshalNew url b :=
    Ok (string_of (drop (length (bytes_of "type.googleapis.com/")) (bytes_of url)), b);
  marshal_Msg m := if known m then Ok (enc_Msg m) else Err (EString "cannot marshal");
  unmarshal_Content b := content_of <$> lift (dec_Msg b);
  unmarshal_Channel b := m_Channel <$> lift (dec_Msg b)
|}.
Proof.
  - by intros [n v] b [= <-].
  - intros [n v] b [= <-] _. simpl fst. rewrite bytes_of_app, drop_app_length.
    by autorewrite with psrpc_rw.
  - intros m b. destruct (known m) eqn:Hk; intros [= <-]. by rewrite dec_enc_Msg.
  - intros m b. destruct (known m) eqn:Hk; intros [= <-]. by rewrite dec_enc_Msg.
Defined.

(** Runs of one letter shrink to a byte; anything else is stored. *)
Definition pack (src : bytes) : bytes :=
  if bool_decide (src = replicate (length src) "a"%char) && (2 <=? len src) && (len src <=? 255)
  then [byte_of_Z (len src)] else "S"%char :: "S"%char :: src.

Definition unpack (b : bytes) : bytes :=
  match b with [n] => replicate (Z.to_nat (Z_of_byte n)) "a"%char | _ => drop 2 b end.

Lemma unpack_pack src : unpack (pack src) = src.
Proof.
  unfold pack. destruct (bool_decide _ && _ && _) eqn:Hp; [|done].
  apply andb_true_iff in Hp as [[Hp%bool_decide_eq_true H2]%andb_true_iff H3].
  simpl. rewrite Hp at 2. f_equal. unfold Z_of_byte, byte_of_Z.
  rewrite N_ascii_embedding.
  - rewrite Z.mod_small by lia. unfold len. lia.
  - rewrite Z.mod_small; lia.
Qed.

#[refine] Definition gzip : Gzip (H := grpc_numbers) := {|
  gzip_BestCompression := 9;
  gzip_write _ src := Some (pack src);
  gzip_reader := bytes;
  gzip_Reset b := Ok (unpack b);
  gzip_ReadAll r := Ok r;
  gzip_ReadAllLimit r n := Ok (take (Z.to_nat n) r)
|}.
Proof.
  - done.
  - intros _ src buf [= <-]. exists src. by rewrite unpack_pack.
  - intros r n out [= ->] Hn. rewrite take_ge; [done|]. unfold len in Hn. lia.
  - by intros r n out out' [= ->] _ [= <-].
  - intros r n Hn. by rewrite Z2Nat.nonpos.
Defined.
End Example.

(** ** Theorems *)

Section compression_lemmas.
Context `{Gzip}.

Lemma newCompressor_gzip o c : newCompressor o = Some c →
  c_compression c = COMPRESSION_GZIP ∧ 1 <= c_level c <= gzip_BestCompression.
Proof.
  unfold newCompressor. pose proof gzip_Best_pos. intros Hc.
  destruct (Z.leb_spec (co_Quality o) 0); simplify_eq/=. split; [done|lia].
Qed.

Lemma compress_smaller c src buf : compress c src = Some buf →
  c_threshold c <= len src ∧ len buf < len src ∧ gzip_write (c_level c) src = Some buf.
Proof.
  unfold compress. intros Hc. destruct (Z.ltb_spec (len src) (c_threshold c)); [done|].
  destruct (gzip_write (c_level c) src) as [buf'|]; [|done].
  destruct (Z.leb_spec (len src) (len buf')); simplify_eq. split_and!; [lia|lia|done].
Qed.

Lemma gunzip_compress c src buf maxSize :
  compress c src = Some buf → maxSize < 2 ^ 63 - 1 → maxSize <= 0 ∨ len src <= maxSize →
  gunzip buf maxSize = Ok src.
Proof.
  intros (_ & _ & Hw)%compress_smaller Hmax Hsz. unfold gunzip.
  destruct (gzip_roundtrip _ _ _ Hw) as (r & -> & Hr). simpl.
  destruct (Z.ltb_spec 0 maxSize); simpl.
  - rewrite int64_id by (unfold in_int64; lia).
    rewrite (gzip_limit_above _ _ src) by (done || lia). simpl.
    by rewrite (proj2 (Z.ltb_ge _ _)) by lia.
  - by rewrite Hr.
Qed.
End compression_lemmas.

#[export] Hint Resolve newCompressor_gzip compress_smaller gunzip_compress : psrpc.

Lemma serialize_deserialize `{Codec, !Gzip} {St} (t : Transport St) (opts : list BusOption)
    (msg : message) (channel : string) (maxSize : Z) (value b : bytes) :
  Marshal msg = Ok value →
  registered (FullName msg) = true →
  maxSize < 2 ^ 63 - 1 → maxSize <= 0 ∨ len value <= maxSize →
  serialize msg channel (b_c (base (New t opts))) = Ok b →
  Deserialize b maxSize = Ok msg ∧ DecodeLocalChannel b = Ok channel.
Proof.
  intros Hm Hreg Hmax Hsz Hs. unfold Deserialize, DecodeLocalChannel.
  assert (∃ m, marshal_Msg m = Ok b ∧ m_Channel m = channel ∧
    m_TypeUrl m = "type.googleapis.com/" +:+ FullName msg ∧
    decompress (m_Value m) (m_Compression m) maxSize = Ok value)
    as (m & Hb & <- & Hurl & Hd).
  { unfold serialize in Hs. rewrite Hm in Hs. simpl in Hs.
    eexists; split; [exact Hs|]. clear Hs.
    assert (Hc : b_c (base (New t opts)) = newCompressor (bo_Compression (getBusOpts opts)))
      by (unfold New; by case_match).
    destruct (b_c _) as [c|]; [|done]. symmetry in Hc.
    destruct (compress c value) as [buf|] eqn:Hbuf; [|done].
    split_and!; [done..|]. simpl.
    rewrite (proj1 (newCompressor_gzip _ _ Hc)). unfold decompress. simpl. eauto with psrpc. }
  rewrite (unmarshal_Content_Msg _ _ Hb), (unmarshal_Channel_Msg _ _ Hb). simpl.
  rewrite Hd, Hurl. simpl. split; [by apply UnmarshalNew_Marshal|done].
Qed.

(** What a bus publishes can be read back: for a bus built with any options,
    the bytes [serialize] makes of a message deserialize to that message, compressed
    or not, and name its local channel, as long as the reader's cap (if it has one)
    is not below the message's encoded size. *)
Theorem publish_roundtrip `{Codec, !Gzip} {St} (t : Transport St) (opts : list BusOption)
    (msg : message) (channel : string) (maxSize : Z) (value b : bytes) :
  Marshal msg = Ok value →
  registered (FullName msg) = true →
  maxSize < 2 ^ 63 - 1 → maxSize <= 0 ∨ len value <= maxSize →
  serialize msg channel (b_c (base (New t opts))) = Ok b →
  Deserialize b maxSize = Ok msg ∧ DecodeLocalChannel b = Ok channel.
Proof. apply serialize_deserialize. Qed.

(** C39: the decompression cap holds: with a positive cap below the largest [int],
    a gzipped payload that decompresses at all decompresses to at most the cap,
    and a stream that holds more than the cap is refused. *)
Theorem decompress_capped `{Gzip} (src : bytes) (maxSize : Z) :
  0 < maxSize < 2 ^ 63 - 1 →
  (∀ out, decompress src COMPRESSION_GZIP maxSize = Ok out → len out <= maxSize) ∧
  (∀ r full, gzip_Reset src = Ok r → gzip_ReadAll r = Ok full → maxSize < len full →
     ∃ e, decompress src COMPRESSION_GZIP maxSize = Err e).
Proof.
  intros Hmax. unfold decompress, gunzip. simpl.
  rewrite (proj2 (Z.ltb_lt 0 maxSize)), int64_id by (unfold in_int64; lia). split.
  - intros out. destruct (gzip_Reset src) as [r|]; simpl; [|done].
    destruct (gzip_ReadAllLimit _ _) as [out'|]; simpl; [|done].
    destruct (Z.ltb_spec maxSize (len out')); intros; simplify_eq. lia.
  - intros r full -> Hfull Hlen. simpl.
    destruct (gzip_ReadAllLimit _ _) as [out|e] eqn:Hout; simpl; [|eauto].
    rewrite (gzip_limit_within _ (maxSize + 1) full out Hfull) by (done || lia).
    rewrite (proj2 (Z.ltb_lt _ _)); [eauto|]. unfold len in *. rewrite length_take. lia.
Qed.

(** Compression never grows a message and never touches a small one: the
    envelope carries either the encoded message itself, marked uncompressed, or a
    strictly shorter gzip of it, and the latter only at or above the threshold,
    which is positive whatever the options. *)
Theorem envelope_never_grows `{Codec, !Gzip} {St} (t : Transport St) (opts : list BusOption)
    (msg : message) (channel : string) (value b : bytes) :
  Marshal msg = Ok value →
  serialize msg channel (b_c (base (New t opts))) = Ok b →
  0 < co_Threshold (bo_Compression (getBusOpts opts)) ∧
  ∃ m, marshal_Msg m = Ok b ∧
    ((m_Compression m = COMPRESSION_NONE ∧ m_Value m = value) ∨
     (m_Compression m = COMPRESSION_GZIP ∧ len (m_Value m) < len value ∧
      co_Threshold (bo_Compression (getBusOpts opts)) <= len value)).
Proof.
  intros Hm Hs. split.
  { unfold getBusOpts. destruct (Z.leb_spec (co_Threshold (bo_Compression (foldl (λ o opt, opt o)
      (MkBusOpts (MkCompressionOpts 0 0 0)) opts))) 0); simpl; [reflexivity|lia]. }
  unfold serialize in Hs. rewrite Hm in Hs. simpl in Hs.
  eexists; split; [exact Hs|]. clear Hs.
  assert (Hc : b_c (base (New t opts)) = newCompressor (bo_Compression (getBusOpts opts)))
    by (unfold New; by case_match).
  destruct (b_c _) as [c|]; [|by left]. symmetry in Hc.
  destruct (compress c value) as [buf|] eqn:Hbuf; [right|by left]. simpl.
  destruct (compress_smaller _ _ _ Hbuf) as (Ht & Hlt & _).
  split_and!; [by eapply newCompressor_gzip|done|].
  revert Hc Ht. unfold newCompressor. case_match; [done|]. by intros [= <-].
Qed.

(** The one cap that does not work is the largest [int]: [int64(maxSize)+1]
    wraps around, the limited reader starts at its end, and every gzipped payload
    reads as empty, without an error. *)
Theorem decompress_maxint_loses_payload `{Gzip} (src : bytes) r :
  gzip_Reset src = Ok r →
  decompress src COMPRESSION_GZIP (2 ^ 63 - 1) = Ok [].
Proof.
  intros Hr. unfold decompress, gunzip. rewrite Hr. simpl.
  rewrite gzip_limit_none; [done|]. vm_compute. by intros.
Qed.

(** ** The theorems at concrete inputs *)

Section witnesses.
#[local] Existing Instance grpc_numbers.
#[local] Existing Instance Example.codec.
#[local] Existing Instance Example.gzip.

(** A transport that drops what it is given, and options that compress. *)
Definition drop_transport : Transport unit := MkTransport (λ _ _ _, (tt, Ok tt)) None.
Definition gzip_opts : list BusOption := [WithBusCompression (MkCompressionOpts 6 10 0)].

Definition letters : message := ("internal.Request", replicate 20 "a"%char).

(** What a bus with these options publishes for twenty letters. *)
Definition published : bytes :=
  match serialize letters "bar.REQ"
          (b_c (base (New drop_transport gzip_opts))) with
  | Ok b => b
  | Err _ => []
  end.

Lemma publish_roundtrip_witness :
  Deserialize published 1000 = Ok letters ∧
  DecodeLocalChannel published = Ok "bar.REQ".
Proof.
  apply (publish_roundtrip drop_transport gzip_opts
           letters "bar.REQ" 1000 (replicate 20 "a"%char));
    [reflexivity|reflexivity|lia|right; unfold len; simpl; lia|vm_compute; reflexivity].
Defined.

Lemma decompress_capped_witness :
  (∀ out, decompress ["200"%char] COMPRESSION_GZIP 50 = Ok out → len out <= 50) ∧
  (∀ r full, gzip_Reset ["200"%char] = Ok r →
     gzip_ReadAll r = Ok full → 50 < len full →
     ∃ e, decompress ["200"%char] COMPRESSION_GZIP 50 = Err e).
Proof. apply (decompress_capped ["200"%char] 50). lia. Defined.

Lemma envelope_never_grows_witness :
  0 < co_Threshold (bo_Compression (getBusOpts gzip_opts)) ∧
  ∃ m, marshal_Msg m =
       Ok (Example.enc_Msg (MkMsg "type.googleapis.com/internal.Request" [byte_of_Z 20] "c" COMPRESSION_GZIP)) ∧
    ((m_Compression m = COMPRESSION_NONE ∧ m_Value m = replicate 20 "a"%char) ∨
     (m_Compression m = COMPRESSION_GZIP ∧ len (m_Value m) < len (replicate 20 "a"%char) ∧
      co_Threshold (bo_Compression (getBusOpts gzip_opts))
        <= len (replicate 20 "a"%char))).
Proof.
  apply (envelope_never_grows drop_transport gzip_opts letters "c"); [reflexivity|vm_compute; reflexivity].
Defined.

Lemma decompress_maxint_loses_payload_witness :
  decompress [byte_of_Z 20] COMPRESSION_GZIP (2 ^ 63 - 1) = Ok [].
Proof.
  eapply decompress_maxint_loses_payload. reflexivity.
Defined.

End witnesses.
