(* ===== verification/Info.v ===== *)
(** * Info.v: service definitions and channel names ([src/pkg/info], [src/info.go])

    How a method is described, and the three names of each channel it uses.
    Go ranges over a string by decoding UTF-8, so the decoder is modelled first. *)
From S2P Require Import Prelude Errors Bus.

(** ** Go's decoding of a string into runes *)

Definition RuneError : Z := 0xFFFD.

Definition between (lo hi b : Z) : bool := (lo <=? b) && (b <=? hi).

(** What a first byte that is not ASCII announces: the width of the encoding and
    the range of its second byte. *)
Definition utf8_first (b0 : Z) : option (nat * Z * Z) :=
  if between 0xC2 0xDF b0 then Some (2%nat, 0x80, 0xBF)
  else if b0 =? 0xE0 then Some (3%nat, 0xA0, 0xBF)
  else if b0 =? 0xED then Some (3%nat, 0x80, 0x9F)
  else if between 0xE1 0xEF b0 then Some (3%nat, 0x80, 0xBF)
  else if b0 =? 0xF0 then Some (4%nat, 0x90, 0xBF)
  else if between 0xF1 0xF3 b0 then Some (4%nat, 0x80, 0xBF)
  else if b0 =? 0xF4 then Some (4%nat, 0x80, 0x8F)
  else None.

(** [utf8.DecodeRuneInString] on the bytes that are left. *)
Definition decode_rune (l : list Z) : Z * nat :=
  match l with
  | [] => (RuneError, 0%nat)
  | b0 :: l =>
      if b0 <? 0x80 then (b0, 1%nat)
      else
        match utf8_first b0, l with
        | Some (2%nat, lo, hi), b1 :: _ =>
            if between lo hi b1
            then (Z.lor (Z.shiftl (Z.land b0 0x1F) 6) (Z.land b1 0x3F), 2%nat)
            else (RuneError, 1%nat)
        | Some (3%nat, lo, hi), b1 :: b2 :: _ =>
            if between lo hi b1 && between 0x80 0xBF b2
            then (Z.lor (Z.shiftl (Z.lor (Z.shiftl (Z.land b0 0x0F) 6) (Z.land b1 0x3F)) 6)
                    (Z.land b2 0x3F), 3%nat)
            else (RuneError, 1%nat)
        | Some (4%nat, lo, hi), b1 :: b2 :: b3 :: _ =>
            if between lo hi b1 && between 0x80 0xBF b2 && between 0x80 0xBF b3
            then (Z.lor (Z.shiftl (Z.lor (Z.shiftl (Z.lor (Z.shiftl (Z.land b0 0x07) 6)
                    (Z.land b1 0x3F)) 6) (Z.land b2 0x3F)) 6) (Z.land b3 0x3F), 4%nat)
            else (RuneError, 1%nat)
        | _, _ => (RuneError, 1%nat)
        end
  end.

(** [for _, r := range s]: [skip] bytes belong to the rune already read. *)
Fixpoint runes_from (skip : nat) (l : list Z) : list Z :=
  match l with
  | [] => []
  | b :: rest =>
      match skip with
      | S skip => runes_from skip rest
      | O => let '(r, w) := decode_rune (b :: rest) in r :: runes_from (pred w) rest
      end
  end.

Definition runes (s : string) : list Z := runes_from 0 (Z_of_byte <$> bytes_of s).

(** [string(r)]: the UTF-8 encoding of a rune. *)
Definition encode_rune (r : Z) : list Z :=
  if r <? 0x80 then [r]
  else if r <? 0x800 then [0xC0 + r / 64; 0x80 + r mod 64]
  else if r <? 0x10000 then [0xE0 + r / 4096; 0x80 + r / 64 mod 64; 0x80 + r mod 64]
  else [0xF0 + r / 262144; 0x80 + r / 4096 mod 64; 0x80 + r / 64 mod 64; 0x80 + r mod 64].

Definition valid_rune (r : Z) : bool := between 0 0xD7FF r || between 0xE000 0x10FFFF r.

(** The string a list of runes is encoded as. *)
Definition string_of_runes (rs : list Z) : string :=
  string_of (byte_of_Z <$> (rs ≫= encode_rune)).

(** ** Channel name parts *)

Definition lowerHex : string := "0123456789abcdef".

Definition channelChar : list (Z * Z) :=
  [(0x30, 0x39); (0x41, 0x5a); (0x5f, 0x5f); (0x61, 0x7a)].

(** [unicode.Is(channelChar, r)]. *)
Definition is_channelChar (r : Z) : bool := existsb (λ '(lo, hi), between lo hi r) channelChar.

(** [lowerHex[r>>uint(s)&0xF]]. *)
Definition hex_digit (r s : Z) : ascii :=
  nth (Z.to_nat (Z.land (Z.shiftr r s) 0xF)) (bytes_of lowerHex) "0"%char.

(** The body of the loop of [appendSanitizedChannelPart]: what it appends for a rune. *)
Definition sanitize_rune (r : Z) : bytes :=
  if is_channelChar r then [byte_of_Z r]
  else if r <? 0x10000 then bytes_of "u+" ++ (hex_digit r <$> [12; 8; 4; 0])
  else bytes_of "U+" ++ (hex_digit r <$> [28; 24; 20; 16; 12; 8; 4; 0]).

Definition appendSanitizedChannelPart (buf : bytes) (s : string) : bytes :=
  foldl (λ buf r, buf ++ sanitize_rune r) buf (runes s).

(** The loop of [appendChannelParts], for parts appended by [app]: [prefix] says
    whether the last part wrote something. *)
Fixpoint append_parts {T} (app : bytes → T → bytes) (delim : ascii) (prefix : bool)
    (buf : bytes) (parts : list T) : bytes :=
  match parts with
  | [] => buf
  | t :: parts =>
      let buf := if prefix then buf ++ [delim] else buf in
      let buf' := app buf t in
      append_parts app delim (length buf <? length buf')%nat buf' parts
  end.

(** The [any] a part is: a string or a slice of strings. *)
Inductive part : Type := PStr (s : string) | PStrs (l : list string).

Definition appendChannelParts (buf : bytes) (delim : ascii) (parts : list part) : bytes :=
  append_parts (λ buf t,
    match t with
    | PStr v => appendSanitizedChannelPart buf v
    | PStrs v => append_parts appendSanitizedChannelPart delim false buf v
    end) delim false buf parts.

Definition formatChannel (delim : ascii) (parts : list part) : string :=
  string_of (appendChannelParts [] delim parts).

Definition formatClientChannel (service clientID channel : string) : string :=
  "CLI." +:+ service +:+ "." +:+ clientID +:+ "." +:+ channel.

Definition formatLocalChannel (method channel : string) : string :=
  method +:+ "." +:+ channel.

Definition formatServerChannel (service : string) (topic : list string) (queue : bool) : string :=
  let b := bytes_of "SRV." ++ bytes_of service in
  let b := foldl (λ b t,
    if bool_decide (t = "") then b else appendSanitizedChannelPart (b ++ ["."%char]) t) b topic in
  string_of (if queue then b ++ bytes_of ".Q" else b).

(** ** Service definitions *)

(** [psrpc.RPCInfo]. *)
Record RPCInfo : Type := MkRPCInfo {
  i_Service : string;
  i_Method : string;
  i_Topic : list string;
  i_Multi : bool
}.

Record MethodInfo : Type := MkMethodInfo {
  mi_AffinityEnabled : bool;
  mi_Multi : bool;
  mi_RequireClaim : bool;
  mi_Queue : bool
}.

Record ServiceDefinition : Type := MkServiceDefinition {
  sd_Name : string;
  sd_ID : string;
  sd_Methods : gmap string MethodInfo
}.

Record RequestInfo : Type := MkRequestInfo {
  ri_RPCInfo : RPCInfo;
  ri_AffinityEnabled : bool;
  ri_RequireClaim : bool;
  ri_Queue : bool
}.

Definition RegisterMethod (s : ServiceDefinition) (name : string)
    (affinityEnabled multi requireClaim queue : bool) : ServiceDefinition :=
  MkServiceDefinition (sd_Name s) (sd_ID s)
    (<[name := MkMethodInfo affinityEnabled multi requireClaim queue]> (sd_Methods s)).

(** [None]: the type assertion on a method that was not registered panics. *)
Definition GetInfo (s : ServiceDefinition) (rpc : string) (topic : list string)
    : option RequestInfo :=
  m ← sd_Methods s !! rpc;
  Some (MkRequestInfo (MkRPCInfo (sd_Name s) rpc topic (mi_Multi m))
          (mi_AffinityEnabled m) (mi_RequireClaim m) (mi_Queue m)).

Definition ri_Service (i : RequestInfo) : string := i_Service (ri_RPCInfo i).
Definition ri_Method (i : RequestInfo) : string := i_Method (ri_RPCInfo i).
Definition ri_Topic (i : RequestInfo) : list string := i_Topic (ri_RPCInfo i).

(** ** Channels *)

Definition PerRequestClientID (clientID requestID : string) : string :=
  clientID +:+ "." +:+ requestID.

(** [strings.Split(s, sep)] for a one byte separator. *)
Fixpoint split (sep : ascii) (l : bytes) : list bytes :=
  match l with
  | [] => [[]]
  | c :: l =>
      if bool_decide (c = sep) then [] :: split sep l
      else match split sep l with
           | p :: ps => (c :: p) :: ps
           | [] => [[c]]
           end
  end.

Definition PerRequestID (channel : string) : string :=
  let parts := string_of <$> split "."%char (bytes_of channel) in
  if (length parts <? 2)%nat then ""
  else default "" (parts !! (length parts - 2)%nat).

Definition GetClaimRequestChannel (service clientID : string) : Channel :=
  MkChannel (formatChannel "|" [PStr service; PStr clientID; PStr "CLAIM"])
            (formatClientChannel service clientID "CLAIM") "".

Definition GetStreamChannel (service nodeID : string) : Channel :=
  MkChannel (formatChannel "|" [PStr service; PStr nodeID; PStr "STR"])
            (formatClientChannel service nodeID "STR") "".

Definition GetResponseChannel (service clientID : string) : Channel :=
  MkChannel (formatChannel "|" [PStr service; PStr clientID; PStr "RES"])
            (formatClientChannel service clientID "RES") "".

Definition GetRPCChannel (i : RequestInfo) : Channel :=
  MkChannel (formatChannel "|" [PStr (ri_Service i); PStr (ri_Method i); PStrs (ri_Topic i); PStr "REQ"])
            (formatServerChannel (ri_Service i) (ri_Topic i) (ri_Queue i))
            (formatLocalChannel (ri_Method i) "REQ").

Definition GetHandlerKey (i : RequestInfo) : string :=
  formatChannel "." [PStr (ri_Method i); PStrs (ri_Topic i)].

Definition GetClaimResponseChannel (i : RequestInfo) : Channel :=
  MkChannel (formatChannel "|" [PStr (ri_Service i); PStr (ri_Method i); PStrs (ri_Topic i); PStr "RCLAIM"])
            (formatServerChannel (ri_Service i) (ri_Topic i) false)
            (formatLocalChannel (ri_Method i) "RCLAIM").

Definition GetStreamServerChannel (i : RequestInfo) : Channel :=
  MkChannel (formatChannel "|" [PStr (ri_Service i); PStr (ri_Method i); PStrs (ri_Topic i); PStr "STR"])
            (formatServerChannel (ri_Service i) (ri_Topic i) false)
            (formatLocalChannel (ri_Method i) "STR").

(** The names the package's own tests expect. *)
Definition example_info (topic : list string) (queue : bool) : RequestInfo :=
  MkRequestInfo (MkRPCInfo "foo" "bar" topic false) false true queue.

Example channel_names_no_topic :
  GetRPCChannel (example_info [] false) = MkChannel "foo|bar|REQ" "SRV.foo" "bar.REQ".
Proof. vm_compute. reflexivity. Qed.

Example channel_names_queue :
  GetRPCChannel (example_info ["a"; "b"; "c"] true)
  = MkChannel "foo|bar|a|b|c|REQ" "SRV.foo.a.b.c.Q" "bar.REQ".
Proof. vm_compute. reflexivity. Qed.

Example channel_names_unicode :
  formatChannel "." [PStr (string_of_runes [0x1F680] +:+ "_" +:+ string_of_runes [0xC9]);
                     PStr (string_of_runes [0x1F6F0] +:+ "_bar");
                     PStrs [string_of_runes [0x8F6F; 0x4EF6]]; PStr "END"]
  = "U+0001f680_u+00c9.U+0001f6f0_bar.u+8f6fu+4ef6.END".
Proof. vm_compute. reflexivity. Qed.

(** A string Go reads as runes without replacing anything: encoding the runes
    gives it back. *)
Definition valid_utf8 (s : string) : bool := bool_decide (string_of_runes (runes s) = s).

(** A name a channel can be made of: not empty, and valid UTF-8. *)
Definition good_name (s : string) : bool := negb (bool_decide (s = "")) && valid_utf8 s.

Definition good_info (i : RequestInfo) : bool :=
  good_name (ri_Service i) && good_name (ri_Method i) && forallb good_name (ri_Topic i).

(** The sanitized form of a string, parts joined by a delimiter, and the decoder
    of sanitized text that shows nothing is lost. *)
Definition san (s : string) : bytes := runes s ≫= sanitize_rune.

Definition join (d : ascii) (l : list bytes) : bytes :=
  match l with
  | [] => []
  | x :: l => x ++ (l ≫= cons d)
  end.

Definition hex_value (c : ascii) : Z :=
  let z := Z_of_byte c in if z <=? 57 then z - 48 else z - 87.

Definition unhex (l : bytes) : Z := foldl (λ acc c, acc * 16 + hex_value c) 0 l.

Definition unsanitize (l : bytes) : option (Z * bytes) :=
  match l with
  | [] => None
  | [c] => Some (Z_of_byte c, [])
  | c1 :: c2 :: rest =>
      if bool_decide (c2 = "+"%char) then
        if bool_decide (c1 = "u"%char) then Some (unhex (take 4 rest), drop 4 rest)
        else Some (unhex (take 8 rest), drop 8 rest)
      else Some (Z_of_byte c1, c2 :: rest)
  end.

(** ** Lemmas *)

Section sanitizing.

Lemma byte_of_Z_id z : 0 <= z < 256 → Z_of_byte (byte_of_Z z) = z.
Proof.
  intros Hz. unfold Z_of_byte, byte_of_Z. rewrite Z.mod_small by lia.
  rewrite N_ascii_embedding; lia.
Qed.

Lemma is_channelChar_range r : is_channelChar r = true → 0x30 <= r <= 0x7a.
Proof.
  unfold is_channelChar, between. simpl. rewrite orb_false_r, !orb_true_iff, !andb_true_iff, !Z.leb_le. lia.
Qed.

Lemma hex_index r s : 0 <= Z.land (Z.shiftr r s) 0xF < 16.
Proof. change 0xF with (Z.ones 4). rewrite Z.land_ones by lia. apply Z.mod_pos_bound. lia. Qed.

(** What holds of the sixteen digits holds of every one printed. *)
Lemma hex_digit_all (P : ascii → Z → Prop) r s :
  (∀ n, 0 <= n < 16 → P (nth (Z.to_nat n) (bytes_of lowerHex) "0"%char) n) →
  P (hex_digit r s) (Z.land (Z.shiftr r s) 0xF).
Proof. intros HP. apply HP, hex_index. Qed.

Ltac sixteen n :=
  assert (n = 0 ∨ n = 1 ∨ n = 2 ∨ n = 3 ∨ n = 4 ∨ n = 5 ∨ n = 6 ∨ n = 7 ∨
          n = 8 ∨ n = 9 ∨ n = 10 ∨ n = 11 ∨ n = 12 ∨ n = 13 ∨ n = 14 ∨ n = 15) as Hn by lia;
  destruct_or! Hn; subst n.

Lemma hex_value_digit r s : 0 <= s → hex_value (hex_digit r s) = (r / 2 ^ s) mod 16.
Proof.
  intros Hs. transitivity (Z.land (Z.shiftr r s) 0xF).
  - apply (hex_digit_all (λ c n, hex_value c = n)). intros n Hn16. by sixteen n.
  - change 0xF with (Z.ones 4). by rewrite Z.land_ones, Z.shiftr_div_pow2 by lia.
Qed.

(** The characters a sanitized name is made of. *)
Definition name_char (c : ascii) : bool :=
  is_channelChar (Z_of_byte c) || bool_decide (c = "+"%char).

Lemma sanitize_rune_chars r : Forall (λ c, name_char c = true) (sanitize_rune r).
Proof.
  assert (Hd : ∀ s, name_char (hex_digit r s) = true).
  { intros s. apply (hex_digit_all (λ c _, name_char c = true)). intros n Hn16. by sixteen n. }
  unfold sanitize_rune. destruct (is_channelChar r) eqn:Hr.
  - pose proof (is_channelChar_range _ Hr). constructor; [|done].
    unfold name_char. rewrite byte_of_Z_id by lia. by rewrite Hr.
  - case_match; repeat constructor; apply Hd || done.
Qed.

Lemma sanitize_rune_head r : ∃ c l, sanitize_rune r = c :: l ∧ c ≠ "+"%char.
Proof.
  unfold sanitize_rune. destruct (is_channelChar r) eqn:Hr.
  - exists (byte_of_Z r), []. split; [done|]. intros Heq.
    apply is_channelChar_range in Hr. apply (f_equal Z_of_byte) in Heq.
    rewrite byte_of_Z_id in Heq by lia. change (Z_of_byte "+") with 43 in Heq. lia.
  - case_match; eexists _, _; (split; [reflexivity|done]).
Qed.

Lemma unsanitize_rune r rest :
  0 <= r < 2 ^ 32 → head rest ≠ Some "+"%char →
  unsanitize (sanitize_rune r ++ rest) = Some (r, rest).
Proof.
  intros Hr Hh. unfold sanitize_rune. destruct (is_channelChar r) eqn:Hc.
  - apply is_channelChar_range in Hc. simpl. rewrite byte_of_Z_id by lia.
    destruct rest as [|c rest]; [done|]. rewrite bool_decide_eq_false_2; [done|].
    intros ->. by apply Hh.
  - case_match; simpl; unfold unhex; simpl; rewrite !hex_value_digit by lia;
      rewrite drop_0; do 2 f_equal; simpl.
    + assert (r < 65536) by lia. change (2 ^ 12) with 4096. change (2 ^ 8) with 256.
      change (2 ^ 4) with 16. change (2 ^ 0) with 1. Z.div_mod_to_equations. lia.
    + change (2 ^ 28) with 268435456. change (2 ^ 24) with 16777216.
      change (2 ^ 20) with 1048576. change (2 ^ 16) with 65536.
      change (2 ^ 12) with 4096. change (2 ^ 8) with 256.
      change (2 ^ 4) with 16. change (2 ^ 0) with 1. Z.div_mod_to_equations. lia.
Qed.

Lemma sanitize_inj rs1 rs2 :
  Forall (λ r, 0 <= r < 2 ^ 32) rs1 → Forall (λ r, 0 <= r < 2 ^ 32) rs2 →
  rs1 ≫= sanitize_rune = rs2 ≫= sanitize_rune → rs1 = rs2.
Proof.
  assert (Hh : ∀ rs, head (rs ≫= sanitize_rune) ≠ Some "+"%char).
  { intros [|r rs]; [done|]. simpl. destruct (sanitize_rune_head r) as (c & l & -> & Hc).
    simpl. congruence. }
  revert rs2. induction rs1 as [|r1 rs1 IH]; intros [|r2 rs2] H1 H2 Heq; [done|..].
  - destruct (sanitize_rune_head r2) as (c & l & Hs & _). simpl in Heq. by rewrite Hs in Heq.
  - destruct (sanitize_rune_head r1) as (c & l & Hs & _). simpl in Heq. by rewrite Hs in Heq.
  - apply Forall_cons in H1 as [Hr1 H1], H2 as [Hr2 H2]. simpl in Heq.
    apply (f_equal unsanitize) in Heq. rewrite !unsanitize_rune in Heq by auto.
    injection Heq as -> Heq. f_equal. by apply IH.
Qed.
End sanitizing.

Section decoding.

Lemma lor_shiftl_add a b n : 0 <= n → 0 <= b < 2 ^ n → Z.lor (Z.shiftl a n) b = a * 2 ^ n + b.
Proof.
  intros Hn Hb. rewrite <- Z.shiftl_mul_pow2 by done.
  assert (Hland : Z.land (Z.shiftl a n) b = 0).
  { apply Z.bits_inj'. intros i Hi. rewrite Z.land_spec, Z.bits_0, Z.shiftl_spec by done.
    destruct (Z.lt_ge_cases i n) as [Hin|Hin]; [by rewrite Z.testbit_neg_r by lia|].
    rewrite (proj2 (Z.testbit_false b i ltac:(done))); [by rewrite andb_false_r|].
    rewrite Z.div_small; [done|]. pose proof (Z.pow_le_mono_r 2 n i). lia. }
  rewrite Z.add_nocarry_lxor by done. by rewrite Z.lxor_lor.
Qed.

Lemma land_low a n : 0 <= n → 0 <= Z.land a (Z.ones n) < 2 ^ n.
Proof. intros. rewrite Z.land_ones by done. apply Z.mod_pos_bound. lia. Qed.

Lemma decode_rune_range l : Forall (λ b, 0 <= b < 256) l → 0 <= (decode_rune l).1 < 2 ^ 21.
Proof.
  intros Hl. unfold decode_rune. destruct l as [|b0 l]; [done|].
  apply Forall_cons in Hl as [Hb0 _].
  pose proof (λ a, land_low a 3 ltac:(lia)) as H3. pose proof (λ a, land_low a 4 ltac:(lia)) as H4.
  pose proof (λ a, land_low a 5 ltac:(lia)) as H5. pose proof (λ a, land_low a 6 ltac:(lia)) as H6.
  change (Z.ones 3) with 7 in H3. change (Z.ones 4) with 15 in H4.
  change (Z.ones 5) with 31 in H5. change (Z.ones 6) with 63 in H6.
  change 0x3F with 63. change 0x1F with 31. change 0x0F with 15. change 0x07 with 7.
  repeat case_match; simpl; try lia; unfold RuneError; try lia;
    rewrite !lor_shiftl_add by (lia || apply H6);
    repeat match goal with |- context [Z.land ?a 63] =>
      let x := fresh "x" in pose proof (H6 a); set (x := Z.land a 63) in *; clearbody x end;
    specialize (H3 b0); specialize (H4 b0); specialize (H5 b0); lia.
Qed.

Lemma runes_range21 s : Forall (λ r, 0 <= r < 2 ^ 21) (runes s).
Proof.
  unfold runes. assert (Hb : Forall (λ b, 0 <= b < 256) (Z_of_byte <$> bytes_of s)).
  { apply Forall_fmap, Forall_forall. intros c _. simpl. unfold Z_of_byte.
    pose proof (N_ascii_bounded c). lia. }
  revert Hb. generalize (Z_of_byte <$> bytes_of s), 0%nat. intros l.
  induction l as [|b l IH]; intros [|skip] Hl; cbn [runes_from]; [done..| |].
  - pose proof (decode_rune_range _ Hl) as Hr. destruct (decode_rune (b :: l)) as [r w].
    constructor; [done|]. apply IH. by apply Forall_cons in Hl as [_ ?].
  - apply IH. by apply Forall_cons in Hl as [_ ?].
Qed.

Lemma runes_range s : Forall (λ r, 0 <= r < 2 ^ 32) (runes s).
Proof. eapply Forall_impl; [apply runes_range21|]. simpl. lia. Qed.

Lemma runes_nonempty s : s ≠ "" → runes s ≠ [].
Proof.
  intros Hs. unfold runes. destruct s as [|c s]; [done|]. cbn -[decode_rune]. by case_match.
Qed.
End decoding.

Section naming.

Lemma appendSanitized_san buf s : appendSanitizedChannelPart buf s = buf ++ san s.
Proof.
  unfold appendSanitizedChannelPart, san. generalize (runes s). intros rs.
  revert buf. induction rs as [|r rs IH]; intros buf; simpl; [by rewrite app_nil_r|].
  by rewrite IH, <- app_assoc.
Qed.

Lemma san_nonempty s : s ≠ "" → san s ≠ [].
Proof.
  intros Hs%runes_nonempty. unfold san. destruct (runes s) as [|r rs]; [done|].
  simpl. by destruct (sanitize_rune_head r) as (c & l & -> & _).
Qed.

Lemma san_chars s : Forall (λ c, name_char c = true) (san s).
Proof.
  unfold san. generalize (runes s). intros rs. induction rs; simpl; [done|].
  apply Forall_app. split; [apply sanitize_rune_chars|done].
Qed.

Lemma san_no_delim d s : name_char d = false → d ∉ san s.
Proof. intros Hd Hin. pose proof (san_chars s) as Hs. rewrite Forall_forall in Hs.
  specialize (Hs d Hin). congruence. Qed.

Lemma san_inj s1 s2 : valid_utf8 s1 = true → valid_utf8 s2 = true → san s1 = san s2 → s1 = s2.
Proof.
  intros H1%bool_decide_eq_true H2%bool_decide_eq_true Heq%sanitize_inj; try apply runes_range.
  by rewrite <- H1, <- H2, Heq.
Qed.

Lemma good_name_spec s : good_name s = true → s ≠ "" ∧ valid_utf8 s = true.
Proof. unfold good_name. intros [? ?]%andb_true_iff. split; [|done]. by case_bool_decide. Qed.

Lemma good_names_spec l : forallb good_name l = true → Forall (λ s, good_name s = true) l.
Proof.
  intros Hl. apply Forall_forall. intros x Hx%list_elem_of_In.
  by eapply List.forallb_forall in Hl.
Qed.

(** Appending parts none of which is empty joins them. *)
Lemma append_parts_join {T} (app : bytes → T → bytes) (f : T → bytes) d p buf (parts : list T) :
  (∀ buf t, app buf t = buf ++ f t) → Forall (λ t, f t ≠ []) parts →
  append_parts app d p buf parts =
    buf ++ (if p then (f <$> parts) ≫= cons d else join d (f <$> parts)).
Proof.
  intros Happ Hne. revert p buf. induction Hne as [|t parts Ht Hne IH]; intros p buf; simpl.
  - destruct p; by rewrite app_nil_r.
  - rewrite Happ. replace (_ <? _)%nat with true.
    + rewrite IH. destruct p; by rewrite <- !app_assoc.
    + symmetry. apply Nat.ltb_lt. rewrite length_app. destruct (f t); simpl; [done|lia].
Qed.

Lemma append_names d p buf l : Forall (λ s, good_name s = true) l →
  append_parts appendSanitizedChannelPart d p buf l =
    buf ++ (if p then (san <$> l) ≫= cons d else join d (san <$> l)).
Proof.
  intros Hl. apply append_parts_join; [apply appendSanitized_san|].
  eapply Forall_impl; [exact Hl|]. intros s [? _]%good_name_spec. by apply san_nonempty.
Qed.

Lemma split_sep d x l : d ∉ x → split d (x ++ d :: l) = x :: split d l.
Proof.
  induction x as [|c x IH]; intros Hx; simpl.
  - by rewrite bool_decide_eq_true_2.
  - rewrite bool_decide_eq_false_2 by set_solver. rewrite IH by set_solver. done.
Qed.

Lemma split_last d x : d ∉ x → split d x = [x].
Proof.
  induction x as [|c x IH]; intros Hx; simpl; [done|].
  rewrite bool_decide_eq_false_2 by set_solver. by rewrite IH by set_solver.
Qed.

Lemma split_nonempty d l : split d l ≠ [].
Proof. induction l; simpl; [done|]. repeat case_match; done. Qed.

(** Whatever comes before a separator, what follows it is split on its own. *)
Lemma split_app d a l : split d (a ++ d :: l) = split d a ++ split d l.
Proof.
  induction a as [|c a IH]; simpl; [by rewrite bool_decide_eq_true_2|].
  case_bool_decide; rewrite IH; [done|].
  pose proof (split_nonempty d a). by destruct (split d a).
Qed.

Lemma split_join d l : l ≠ [] → Forall (λ x, d ∉ x) l → split d (join d l) = l.
Proof.
  destruct l as [|x l]; [done|]. intros _ [Hx Hl]%Forall_cons. simpl.
  revert x Hx. induction Hl as [|y l Hy Hl IH]; intros x Hx; simpl.
  - rewrite app_nil_r. by apply split_last.
  - rewrite split_sep by done. f_equal. by apply IH.
Qed.

Lemma join_san_inj d l1 l2 : name_char d = false → l1 ≠ [] → l2 ≠ [] →
  Forall (λ s, good_name s = true) l1 → Forall (λ s, good_name s = true) l2 →
  join d (san <$> l1) = join d (san <$> l2) → l1 = l2.
Proof.
  intros Hd H1 H2 Hg1 Hg2 Heq%(f_equal (split d)).
  assert (Hno : ∀ l, Forall (λ x, d ∉ x) (san <$> l))
    by (intros l; apply Forall_fmap, Forall_forall; intros; by apply san_no_delim).
  rewrite !split_join in Heq; [|by destruct l2|done|by destruct l1|done].
  clear H1 H2. revert l2 Hg2 Heq. induction Hg1 as [|s1 l1 Hs1 Hg1 IH]; intros [|s2 l2] Hg2 Heq;
    simplify_eq/=; [done|].
  apply Forall_cons in Hg2 as [Hs2 Hg2]. apply good_name_spec in Hs1 as [_ Hs1], Hs2 as [_ Hs2].
  f_equal; [by apply san_inj|by apply IH].
Qed.

(** One turn of the loop of [appendChannelParts]. *)
Lemma append_parts_step {T} (app : bytes → T → bytes) d p buf t parts x :
  (∀ buf, app buf t = buf ++ x) →
  append_parts app d p buf (t :: parts) =
    append_parts app d (negb (bool_decide (x = [])))
      ((if p then buf ++ [d] else buf) ++ x) parts.
Proof.
  intros Happ. simpl. rewrite Happ. f_equal. rewrite length_app. case_bool_decide as Hx; simpl.
  - subst. rewrite Nat.add_0_r. apply Nat.ltb_irrefl.
  - apply Nat.ltb_lt. destruct x; simpl; [done|lia].
Qed.

Lemma append_parts_step_nonempty {T} (app : bytes → T → bytes) d p buf t parts x :
  (∀ buf, app buf t = buf ++ x) → x ≠ [] →
  append_parts app d p buf (t :: parts) =
    append_parts app d true ((if p then buf ++ [d] else buf) ++ x) parts.
Proof. intros Happ Hx. erewrite append_parts_step by done. by rewrite bool_decide_eq_false_2. Qed.

(** The flat key of a server channel is its parts joined by ['|']. *)
Lemma legacy_join a b ts k :
  good_name a = true → good_name b = true → Forall (λ s, good_name s = true) ts → good_name k = true →
  formatChannel "|" [PStr a; PStr b; PStrs ts; PStr k] =
    string_of (join "|" (san <$> a :: b :: ts ++ [k])).
Proof.
  intros [Ha _]%good_name_spec [Hb _]%good_name_spec Hts [Hk _]%good_name_spec.
  unfold formatChannel, appendChannelParts. f_equal.
  erewrite append_parts_step_nonempty
    by first [intros; apply appendSanitized_san|by apply san_nonempty].
  erewrite append_parts_step_nonempty
    by first [intros; apply appendSanitized_san|by apply san_nonempty].
  erewrite append_parts_step by (intros; by apply append_names).
  erewrite append_parts_step_nonempty
    by first [intros; apply appendSanitized_san|by apply san_nonempty].
  simpl. rewrite fmap_app, bind_app. simpl. rewrite app_nil_r.
  destruct ts as [|t ts]; simpl; [by rewrite app_nil_r, <- !app_assoc|].
  rewrite bool_decide_eq_false_2; simpl; [by rewrite <- !app_assoc|].
  apply Forall_cons in Hts as [[Ht _]%good_name_spec _].
  pose proof (san_nonempty t Ht). by destruct (san t).
Qed.
End naming.

(** The channels a server and its clients share for a method, by kind. *)
Definition server_channels : list (RequestInfo → Channel) :=
  [GetRPCChannel; GetClaimResponseChannel; GetStreamServerChannel].

(** The last part of their names. *)
Definition server_channel_names : list string := ["REQ"; "RCLAIM"; "STR"].

Section server_names.

Lemma good_info_spec i : good_info i = true →
  good_name (ri_Service i) = true ∧ good_name (ri_Method i) = true ∧
  Forall (λ s, good_name s = true) (ri_Topic i).
Proof. unfold good_info. intros [[? ?]%andb_true_iff ?%good_names_spec]%andb_true_iff. done. Qed.

Lemma server_channel_legacy k f i : server_channels !! k = Some f →
  ∃ n, server_channel_names !! k = Some n ∧ good_name n = true ∧
    ch_Legacy (f i) =
      formatChannel "|" [PStr (ri_Service i); PStr (ri_Method i); PStrs (ri_Topic i); PStr n].
Proof.
  intros Hf. destruct k as [|[|[|k]]]; simplify_eq/=;
    (eexists; split; [reflexivity|split; [by vm_compute|reflexivity]]).
Qed.

Lemma handler_key_join i : good_info i = true →
  bytes_of (GetHandlerKey i) =
    san (ri_Method i) ++ "."%char :: join "." (san <$> ri_Topic i).
Proof.
  intros (_ & [Hm _]%good_name_spec & Ht)%good_info_spec.
  unfold GetHandlerKey, formatChannel, appendChannelParts. rewrite bytes_of_string_of.
  erewrite append_parts_step_nonempty
    by first [intros; apply appendSanitized_san|by apply san_nonempty].
  erewrite append_parts_step by (intros; by apply append_names).
  simpl. by rewrite <- app_assoc.
Qed.
End server_names.

(** C40: on brokers that route on the flat key, server channels never collide: two
    methods with valid, non-empty names and topics have the same key for any of
    the request, claim response and stream channels only if the kind, the service,
    the method and the topic are all the same. *)
Theorem server_channels_injective (i j : RequestInfo) (a b : nat) (f g : RequestInfo → Channel) :
  good_info i = true → good_info j = true →
  server_channels !! a = Some f → server_channels !! b = Some g →
  ch_Legacy (f i) = ch_Legacy (g j) →
  a = b ∧ ri_Service i = ri_Service j ∧ ri_Method i = ri_Method j ∧ ri_Topic i = ri_Topic j.
Proof.
  intros (Hsi & Hmi & Hti)%good_info_spec (Hsj & Hmj & Htj)%good_info_spec Hf Hg.
  destruct (server_channel_legacy _ _ i Hf) as (n & Hn & Hgn & ->).
  destruct (server_channel_legacy _ _ j Hg) as (n' & Hn' & Hgn' & ->).
  rewrite !legacy_join by done. intros Heq%(inj string_of).
  apply join_san_inj in Heq; [|done|done|done|by repeat constructor; [..|apply Forall_app; auto]
                             |by repeat constructor; [..|apply Forall_app; auto]].
  injection Heq as Hs Hm [Ht Hk]%app_inj_tail. split_and!; try done. subst n'.
  by destruct a as [|[|[|a]]], b as [|[|[|b]]]; simplify_eq/=.
Qed.

Lemma server_channels_injective_witness :
  ch_Legacy (GetRPCChannel (example_info ["a"] false)) = "foo|bar|a|REQ" ∧
  (0%nat = 0%nat ∧ "foo" = "foo" ∧ "bar" = "bar" ∧ ["a"] = ["a"]).
Proof.
  split; [vm_compute; reflexivity|].
  apply (server_channels_injective (example_info ["a"] false) (example_info ["a"] true) 0 0
           GetRPCChannel GetRPCChannel);
    [vm_compute; reflexivity|vm_compute; reflexivity|reflexivity|reflexivity|vm_compute; reflexivity].
Defined.

(** A server's handler table keeps methods and topics apart: the keys of two
    methods with valid, non-empty names and topics agree only if the method and
    the topic do. *)
Theorem handler_key_injective (i j : RequestInfo) :
  good_info i = true → good_info j = true →
  GetHandlerKey i = GetHandlerKey j →
  ri_Method i = ri_Method j ∧ ri_Topic i = ri_Topic j.
Proof.
  intros Hi Hj Hk. pose proof (good_info_spec _ Hi) as (_ & Hmi & Hti).
  pose proof (good_info_spec _ Hj) as (_ & Hmj & Htj).
  apply (f_equal (λ s, split "." (bytes_of s))) in Hk. rewrite !handler_key_join in Hk by done.
  rewrite !split_sep in Hk by by apply san_no_delim.
  injection Hk as Hm Ht. apply good_name_spec in Hmi as [_ Hmi], Hmj as [_ Hmj].
  split; [by apply san_inj|].
  assert (Hs : ∀ l, Forall (λ s, good_name s = true) l → l ≠ [] →
    split "." (join "." (san <$> l)) = san <$> l).
  { intros l _ Hl. apply split_join; [by destruct l|].
    apply Forall_fmap, Forall_forall. intros; by apply san_no_delim. }
  assert (Hn : ∀ t l, Forall (λ s, good_name s = true) (t :: l) → [[]] ≠ san <$> t :: l).
  { intros t l [[Hg _]%good_name_spec _]%Forall_cons. pose proof (san_nonempty t Hg).
    simpl. congruence. }
  destruct (ri_Topic i) as [|t ts] eqn:Ei, (ri_Topic j) as [|u us] eqn:Ej; [done|..].
  - rewrite (Hs (u :: us)) in Ht by done. by apply Hn in Ht.
  - rewrite (Hs (t :: ts)) in Ht by done. by symmetry in Ht; apply Hn in Ht.
  - rewrite !Hs in Ht by done.
    apply (join_san_inj "."); [done..|by rewrite Ht].
Qed.

Lemma handler_key_injective_witness :
  GetHandlerKey (example_info ["a"; "b"] false) = "bar.a.b" ∧
  ("bar" = "bar" ∧ ["a"; "b"] = ["a"; "b"]).
Proof.
  split; [vm_compute; reflexivity|].
  apply (handler_key_injective (example_info ["a"; "b"] false) (example_info ["a"; "b"] true));
    vm_compute; reflexivity.
Defined.

(** The request ID is recovered from the name of a request's own response
    channel, whatever the service and the client ID are, as long as the ID itself
    has no dot. *)
Lemma PerRequestID_response_channel (service clientID requestID : string) :
  "."%char ∉ bytes_of requestID →
  PerRequestID (ch_Server (GetResponseChannel service (PerRequestClientID clientID requestID)))
  = requestID.
Proof.
  intros Hdot. unfold PerRequestID.
  set (pre := bytes_of "CLI." ++ bytes_of service ++ "."%char :: bytes_of clientID).
  replace (bytes_of _) with (pre ++ "."%char :: bytes_of requestID ++ "."%char :: bytes_of "RES").
  - assert (Hres : "."%char ∉ bytes_of "RES") by (apply (bool_decide_unpack _); vm_compute; exact I).
    rewrite split_app, split_sep, (split_last _ (bytes_of "RES")), fmap_app by done.
    generalize (string_of <$> split "." pre). intros l. simpl fmap.
    rewrite length_app. simpl length. rewrite (proj2 (Nat.ltb_ge _ _)) by lia.
    rewrite lookup_app_r by lia.
    replace (_ + 2 - 2 - _)%nat with 0%nat by lia. simpl.
    apply string_of_bytes_of.
  - unfold pre, GetResponseChannel, formatClientChannel, PerRequestClientID. cbn [ch_Server].
    autorewrite with psrpc_rw. change (bytes_of ".") with ["."%char].
    by repeat (rewrite <- !app_assoc; simpl app).
Qed.

(** The subject a queue rpc is published on is, character for character, the
    one of a method of the same service whose topic ends in ["Q"]: [".Q"] is not
    kept apart from the topics. *)
Theorem queue_subject_collides (i j : RequestInfo) :
  ri_Service i = ri_Service j → ri_Queue i = true → ri_Queue j = false →
  ri_Topic j = ri_Topic i ++ ["Q"] →
  ch_Server (GetRPCChannel i) = ch_Server (GetRPCChannel j).
Proof.
  intros Hs Hqi Hqj Ht. unfold GetRPCChannel, formatServerChannel. cbn [ch_Server].
  rewrite Hs, Hqi, Hqj, Ht, foldl_app. f_equal.
  simpl. rewrite appendSanitized_san, <- app_assoc. reflexivity.
Qed.

Lemma queue_subject_collides_witness :
  ch_Server (GetRPCChannel (example_info [] true)) =
    ch_Server (GetRPCChannel (MkRequestInfo (MkRPCInfo "foo" "other" ["Q"] false) false true false)).
Proof. by apply queue_subject_collides. Defined.
