(* ===== verification/Rand.v ===== *)
(** * Rand.v: identifiers ([src/pkg/rand/id.go])

    The generator reads six bits at a time from the draws of a [math/rand]
    source, which is the parameter [src]: its [i]-th call of [Int63] returns
    [src i].  The loop ends when the identifier is full, so it has fuel, counted
    in draws; [formatID_spec] says which draws are enough. *)
From S2P Require Import Prelude Errors Bus Info.

Definition alphabet : bytes :=
  bytes_of "abcdefghijklmnopqrstuvwxyzABCDEFGHIJKLMNOPQRSTUVWXYZ0123456789".

(** What the inner loop does with the [i] chunks left of a draw: where it got in
    the buffer, and whether it returned because the buffer is full. *)
Fixpoint read_draw (i : nat) (r : Z) (n : nat) (b : bytes) : nat * bytes * bool :=
  match i with
  | O => (n, b, false)
  | S i =>
      if Z.land r 0x3f <? len alphabet then
        let b := <[n := nth (Z.to_nat (Z.land r 0x3f)) alphabet "a"%char]> b in
        let n := S n in
        if (n =? length b)%nat then (n, b, true)
        else read_draw i (Z.shiftr r 6) n b
      else read_draw i (Z.shiftr r 6) n b
  end.

(** [None]: the draws did not suffice. *)
Fixpoint readIDChars (draws : list Z) (n : nat) (b : bytes) : option bytes :=
  match draws with
  | [] => None
  | r :: draws =>
      let '(n, b, full) := read_draw 10 r n b in
      if full then Some b else readIDChars draws n b
  end.

(** The first [fuel] draws of a source. *)
Definition draws (src : nat → Z) (fuel : nat) : list Z := src <$> seq 0 fuel.

Definition formatID (src : nat → Z) (fuel : nat) (prefix : string) : option string :=
  b ← readIDChars (draws src fuel) 0 (replicate 12 "000"%char);
  Some (prefix +:+ string_of b).

Definition NewClientID (src : nat → Z) (fuel : nat) : option string := formatID src fuel "CLI_".
Definition NewServerID (src : nat → Z) (fuel : nat) : option string := formatID src fuel "SRV_".
Definition NewRequestID (src : nat → Z) (fuel : nat) : option string := formatID src fuel "REQ_".
Definition NewStreamID (src : nat → Z) (fuel : nat) : option string := formatID src fuel "STR_".
Definition NewString (src : nat → Z) (fuel : nat) : option string := formatID src fuel "".

(** ** Specification *)

(** The characters a draw holds: its ten six bit chunks, less those that number no
    letter of the alphabet. *)
Definition chunk (r : Z) (i : nat) : Z := r / 2 ^ (6 * Z.of_nat i) mod 64.

Definition draw_chars (r : Z) : bytes :=
  omap (λ i, alphabet !! Z.to_nat (chunk r i)) (seq 0 10).

Definition id_chars (src : nat → Z) (fuel : nat) : bytes := draws src fuel ≫= draw_chars.

(** ** Lemmas *)

Section reading.

(** The characters of the chunks from [k] on. *)
Definition chars_from (r : Z) (k n : nat) : bytes :=
  omap (λ i, alphabet !! Z.to_nat (chunk r i)) (seq k n).

Lemma chunk_shift r k : 0 <= r →
  Z.land (Z.shiftr r (6 * Z.of_nat k)) 0x3f = chunk r k.
Proof.
  intros Hr. unfold chunk. change 0x3f with (Z.ones 6).
  by rewrite Z.land_ones, Z.shiftr_div_pow2 by lia.
Qed.

Lemma alphabet_lookup z : 0 <= z →
  alphabet !! Z.to_nat z =
    (if z <? len alphabet then Some (nth (Z.to_nat z) alphabet "a"%char) else None).
Proof.
  intros Hz. unfold len. destruct (Z.ltb_spec z (Z.of_nat (length alphabet))).
  - destruct (lookup_lt_is_Some_2 alphabet (Z.to_nat z)) as [c Hc]; [lia|].
    rewrite Hc. f_equal. symmetry. by apply nth_lookup_Some.
  - apply lookup_ge_None. lia.
Qed.

Lemma read_draw_spec r i k done rest : 0 <= r → rest ≠ [] →
  read_draw i (Z.shiftr r (6 * Z.of_nat k)) (length done) (done ++ rest) =
    let cs := chars_from r k i in
    if (length rest <=? length cs)%nat
    then (length (done ++ rest), done ++ take (length rest) cs, true)
    else (length (done ++ cs), done ++ cs ++ drop (length cs) rest, false).
Proof.
  intros Hr. revert k done rest. induction i as [|i IH]; intros k done rest Hne.
  { simpl. rewrite app_nil_r. by destruct rest. }
  cbn [read_draw]. unfold chars_from. cbn [seq omap list_omap].
  rewrite chunk_shift by done.
  assert (0 <= chunk r k) by (unfold chunk; apply Z.mod_pos_bound; lia).
  rewrite Z.shiftr_shiftr by lia. replace (6 * Z.of_nat k + 6) with (6 * Z.of_nat (S k)) by lia.
  rewrite alphabet_lookup by done. case_match; [|by apply IH].
  set (c := nth _ _ _). destruct rest as [|c0 rest]; [done|].
  rewrite insert_app_r_alt, Nat.sub_diag by lia. simpl insert.
  rewrite length_app. cbn [length].
  replace (done ++ c :: rest) with ((done ++ [c]) ++ rest) by (by rewrite <- app_assoc).
  replace (S (length done)) with (length (done ++ [c])) by (rewrite length_app; simpl; lia).
  destruct rest as [|c1 rest].
  - rewrite length_app, Nat.eqb_refl. simpl. by rewrite take_0, app_nil_r, length_app.
  - replace (_ =? _)%nat with false.
    + rewrite IH by done. simpl. fold (chars_from r (S k) i). case_match.
      * rewrite !length_app, <- app_assoc. simpl. do 2 f_equal. lia.
      * by rewrite <- !app_assoc.
    + symmetry. apply Nat.eqb_neq. rewrite !length_app. simpl. lia.
Qed.

Lemma readIDChars_spec ds done rest : Forall (λ r, 0 <= r) ds → rest ≠ [] →
  readIDChars ds (length done) (done ++ rest) =
    let cs := ds ≫= draw_chars in
    if (length rest <=? length cs)%nat then Some (done ++ take (length rest) cs) else None.
Proof.
  intros Hds. revert done rest. induction Hds as [|r ds Hr Hds IH]; intros done rest Hne.
  { simpl. by destruct rest. }
  cbn [readIDChars]. replace (read_draw 10 r) with (read_draw 10 (Z.shiftr r (6 * Z.of_nat 0)))
    by (by rewrite Z.shiftr_0_r).
  rewrite read_draw_spec by done. cbv zeta. cbn [mbind list_bind].
  change (chars_from r 0 10) with (draw_chars r). generalize (draw_chars r). intros cs.
  rewrite (length_app cs).
  destruct (Nat.leb_spec (length rest) (length cs)).
  - rewrite (proj2 (Nat.leb_le _ _)) by lia. by rewrite take_app_le.
  - rewrite app_assoc, IH.
    + rewrite length_drop. cbv zeta. rewrite take_app_ge by lia.
      destruct (Nat.leb_spec (length rest - length cs) (length (ds ≫= draw_chars)));
        [rewrite (proj2 (Nat.leb_le _ _)) by lia; by rewrite <- app_assoc|].
      by rewrite (proj2 (Nat.leb_gt _ _)) by lia.
    + intros Hd%(f_equal length). rewrite length_drop in Hd. simpl in Hd. lia.
Qed.

Lemma id_chars_alphabet src fuel : Forall (λ c, c ∈ alphabet) (id_chars src fuel).
Proof.
  unfold id_chars. apply Forall_bind, Forall_forall. intros r _.
  apply Forall_forall. intros c (i & _ & Hc)%list_elem_of_omap.
  by apply list_elem_of_lookup_2 in Hc.
Qed.

Lemma formatID_lookup src fuel prefix : (∀ i, 0 <= src i) →
  formatID src fuel prefix =
    if (12 <=? length (id_chars src fuel))%nat
    then Some (prefix +:+ string_of (take 12 (id_chars src fuel))) else None.
Proof.
  intros Hsrc. unfold formatID.
  rewrite (readIDChars_spec _ [] (replicate 12 "000"%char));
    [|unfold draws; apply Forall_fmap, Forall_forall; intros; apply Hsrc|done].
  cbv zeta. rewrite length_replicate. fold (id_chars src fuel). by case_match.
Qed.
End reading.

(** Identifiers are well formed, and enough draws always produce one: with
    [fuel] draws of a non-negative source, [formatID] returns exactly when they hold
    twelve characters of the alphabet, and then the prefix followed by the first
    twelve; so an identifier has twelve characters after its prefix, all letters and
    digits. *)
Theorem formatID_spec (src : nat → Z) (fuel : nat) (prefix : string) :
  (∀ i, 0 <= src i) →
  (is_Some (formatID src fuel prefix) ↔ (12 <= length (id_chars src fuel))%nat) ∧
  (∀ id, formatID src fuel prefix = Some id →
     ∃ cs, id = prefix +:+ string_of cs ∧ cs = take 12 (id_chars src fuel) ∧
           length cs = 12%nat ∧ Forall (λ c, c ∈ alphabet) cs).
Proof.
  intros Hsrc. rewrite formatID_lookup by done.
  destruct (Nat.leb_spec 12 (length (id_chars src fuel))); split.
  - split; [done|by eexists].
  - intros id [= <-]. eexists; split_and!; [reflexivity|done|by rewrite length_take_le|].
    apply Forall_take, id_chars_alphabet.
  - split; [by intros []|lia].
  - done.
Qed.

(** A source that counts, whose draws hold six characters or more. *)
Definition counting_source (i : nat) : Z := 0x0123456789abcdef + 4097 * Z.of_nat i.

Lemma formatID_spec_witness :
  (is_Some (formatID counting_source 2 "REQ_") ↔ (12 <= length (id_chars counting_source 2))%nat) ∧
  (∀ id, formatID counting_source 2 "REQ_" = Some id →
     ∃ cs, id = "REQ_" +:+ string_of cs ∧ cs = take 12 (id_chars counting_source 2) ∧
           length cs = 12%nat ∧ Forall (λ c, c ∈ alphabet) cs).
Proof. apply formatID_spec. intros i. unfold counting_source. lia. Defined.

(** The broker's report finds its request: for every request ID the generator
    makes, the ID is recovered from the name of the request's own response channel,
    whatever the service and client names are. *)
Theorem request_id_recovered (src : nat → Z) (fuel : nat) (service clientID requestID : string) :
  (∀ i, 0 <= src i) →
  NewRequestID src fuel = Some requestID →
  PerRequestID (ch_Server (GetResponseChannel service (PerRequestClientID clientID requestID)))
  = requestID.
Proof.
  intros Hsrc. unfold NewRequestID. rewrite formatID_lookup by done.
  case_match; [|done]. intros [= <-]. apply PerRequestID_response_channel.
  autorewrite with psrpc_rw. intros [Hin|Hin]%elem_of_app.
  - revert Hin. apply (bool_decide_unpack _). vm_compute. exact I.
  - pose proof (Forall_take _ 12 _ (id_chars_alphabet src fuel)) as Ha.
    rewrite Forall_forall in Ha. specialize (Ha _ Hin).
    revert Ha. apply (bool_decide_unpack _). vm_compute. exact I.
Qed.

Lemma request_id_recovered_witness :
  PerRequestID (ch_Server (GetResponseChannel "foo" (PerRequestClientID "CLI_1"
    (default "" (NewRequestID counting_source 2)))))
  = default "" (NewRequestID counting_source 2).
Proof.
  apply (request_id_recovered counting_source 2).
  - intros i. unfold counting_source. lia.
  - vm_compute. reflexivity.
Defined.
