(* ===== verification/Metadata.v ===== *)
(** * Metadata.v: request metadata in contexts ([src/pkg/metadata])

    The two values the package keeps in a [context.Context].  A Go map may be nil:
    a [Metadata] is an option.  Maps are copied before they are written to, so
    they are modelled by value. *)
From S2P Require Import Prelude.

(** A [Metadata]; [None] is the nil map. *)
Abbreviation Metadata := (option (gmap string string)) (only parsing).

Record Header : Type := MkHeader {
  h_RemoteID : string;
  h_SentAt : Z;
  h_Metadata : Metadata
}.

Record ctxMD : Type := MkCtxMD {
  cm_md : Metadata;
  cm_added : list (list string)
}.

(** The values of a context under the package's two keys. *)
Record md_context : Type := MkContext {
  ctx_header : option Header;
  ctx_metadata : option ctxMD
}.

Definition background : md_context := MkContext None None.

Definition NewContextWithIncomingHeader (ctx : md_context) (head : Header) : md_context :=
  MkContext (Some head) (ctx_metadata ctx).

(** The header handed out holds a copy of the map. *)
Definition IncomingHeader (ctx : md_context) : option Header :=
  head ← ctx_header ctx;
  Some (MkHeader (h_RemoteID head) (h_SentAt head) (h_Metadata head)).

Definition NewContextWithOutgoingMetadata (ctx : md_context) (md : Metadata) : md_context :=
  MkContext (ctx_header ctx) (Some (MkCtxMD md [])).

(** [len(md) == 0], of a nil map too. *)
Definition md_empty (md : Metadata) : bool := bool_decide (default ∅ md = ∅).

Definition WithOutgoingMetadata (ctx : md_context) (md : Metadata) : md_context :=
  if md_empty md then ctx
  else
    let m := default (MkCtxMD None []) (ctx_metadata ctx) in
    let m' :=
      match cm_md m with
      | Some old => MkCtxMD (Some (default ∅ md ∪ old)) (cm_added m)
      | None => MkCtxMD md (cm_added m)
      end in
    MkContext (ctx_header ctx) (Some m').

Definition AppendMetadataToOutgoingContext (ctx : md_context) (kv : list string) : md_context :=
  match kv with
  | [] => ctx
  | _ =>
      let md :=
        match ctx_metadata ctx with
        | Some (MkCtxMD (Some md) added) => MkCtxMD (Some md) added
        | _ => MkCtxMD (Some ∅) []
        end in
      MkContext (ctx_header ctx) (Some (MkCtxMD (cm_md md) (cm_added md ++ [kv])))
  end.

(** [for i := 1; i < len(a); i += 2 { clone[a[i-1]] = a[i] }]; a write to a nil map
    panics ([None]). *)
Fixpoint add_pairs (clone : Metadata) (a : list string) : option Metadata :=
  match a with
  | k :: v :: a =>
      match clone with
      | None => None
      | Some m => add_pairs (Some (<[k := v]> m)) a
      end
  | _ => Some clone
  end.

(** [None]: the panic; [Some None]: a nil map. *)
Definition OutgoingContextMetadata (ctx : md_context) : option Metadata :=
  match ctx_metadata ctx with
  | None => Some None
  | Some md => foldl (λ clone a, c ← clone; add_pairs c a) (Some (cm_md md)) (cm_added md)
  end.

(** ** Building contexts *)

(** The operations that set outgoing metadata. *)
Inductive md_op : Type :=
| OpNew (md : Metadata)
| OpWith (md : Metadata)
| OpAppend (kv : list string).

Definition apply_op (ctx : md_context) (op : md_op) : md_context :=
  match op with
  | OpNew md => NewContextWithOutgoingMetadata ctx md
  | OpWith md => WithOutgoingMetadata ctx md
  | OpAppend kv => AppendMetadataToOutgoingContext ctx kv
  end.

Definition build (ops : list md_op) : md_context := foldl apply_op background ops.

(** The value the appended pairs give a key: that of the last pair with the key. *)
Fixpoint last_pair (k : string) (a : list string) : option string :=
  match a with
  | k' :: v :: a =>
      match last_pair k a with
      | Some w => Some w
      | None => if bool_decide (k' = k) then Some v else None
      end
  | _ => None
  end.

Fixpoint last_added (k : string) (added : list (list string)) : option string :=
  match added with
  | [] => None
  | a :: added =>
      match last_added k added with
      | Some w => Some w
      | None => last_pair k a
      end
  end.

(** ** Lemmas *)

Section metadata_lemmas.

(** Pairs are only ever added over a map that is there. *)
Definition md_ok (ctx : md_context) : Prop :=
  ∀ m, ctx_metadata ctx = Some m → cm_md m = None → cm_added m = [].

Lemma apply_op_ok ctx op : md_ok ctx → md_ok (apply_op ctx op).
Proof.
  intros Hok. destruct op as [md|md|kv]; simpl.
  - intros m [= <-]. done.
  - unfold WithOutgoingMetadata, md_empty. case_bool_decide as He; [done|].
    destruct md as [md|]; [|done]. intros m [= <-]. destruct (cm_md (default _ _)); simpl; congruence.
  - destruct kv as [|k kv]; [done|]. simpl. intros m [= <-]. simpl.
    by destruct (ctx_metadata ctx) as [[[md|] added]|].
Qed.

Lemma build_ok ops : md_ok (build ops).
Proof.
  unfold build. assert (Hb : md_ok background) by done. revert Hb. generalize background.
  induction ops as [|op ops IH]; intros ctx Hctx; simpl; [done|]. by apply IH, apply_op_ok.
Qed.

Lemma add_pairs_lookup m a : ∃ m', add_pairs (Some m) a = Some (Some m') ∧
  ∀ k, m' !! k = match last_pair k a with Some v => Some v | None => m !! k end.
Proof.
  revert m. induction a as [a IH] using (induction_ltof1 _ (@length string)).
  unfold ltof in IH. intros m. destruct a as [|x [|v a]]; [exists m; by split; intros..|].
  destruct (IH a ltac:(simpl; lia) (<[x := v]> m)) as (m' & Hm' & Hl).
  exists m'. split; [done|]. intros k. rewrite Hl. simpl.
  destruct (last_pair k a); [done|]. rewrite lookup_insert. by case_decide; case_bool_decide.
Qed.

Lemma add_all_lookup m added :
  ∃ m', foldl (λ clone a, c ← clone; add_pairs c a) (Some (Some m)) added = Some (Some m') ∧
  ∀ k, m' !! k = match last_added k added with Some v => Some v | None => m !! k end.
Proof.
  revert m. induction added as [|a added IH]; intros m; simpl; [exists m; by split; intros|].
  destruct (add_pairs_lookup m a) as (m1 & -> & H1).
  destruct (IH m1) as (m' & -> & H'). exists m'. split; [done|].
  intros k. rewrite H', H1. by destruct (last_added k added).
Qed.

Lemma last_added_app k l1 l2 :
  last_added k (l1 ++ l2) = match last_added k l2 with Some v => Some v | None => last_added k l1 end.
Proof.
  induction l1 as [|a l1 IH]; simpl; [by destruct (last_added k l2)|].
  rewrite IH. by destruct (last_added k l2).
Qed.
End metadata_lemmas.

#[export] Hint Resolve build_ok apply_op_ok : psrpc.

(** [OutgoingContextMetadata] never writes to a nil map: on every context made
    by the package's operations it returns, and the map it returns gives each key
    the value of the last pair appended for it, or else its value in the map set. *)
Theorem outgoing_metadata_total (ops : list md_op) :
  ∃ md, OutgoingContextMetadata (build ops) = Some md ∧
    ∀ k, default ∅ md !! k =
      m ← ctx_metadata (build ops);
      match last_added k (cm_added m) with
      | Some v => Some v
      | None => default ∅ (cm_md m) !! k
      end.
Proof.
  pose proof (build_ok ops) as Hok. unfold OutgoingContextMetadata, md_ok in *.
  destruct (ctx_metadata (build ops)) as [[[md|] added]|]; simpl.
  - destruct (add_all_lookup md added) as (m' & -> & Hl). exists (Some m'). split; [done|].
    intros k. rewrite Hl. by destruct (last_added k added).
  - specialize (Hok _ eq_refl eq_refl). simpl in Hok. subst added. exists None.
    by split.
  - exists None. split; [done|]. intros k. apply lookup_empty.
Qed.

(** An appended pair outlives every later [WithOutgoingMetadata]: whatever
    context the pair was appended to and whatever maps are added afterwards, the
    outgoing metadata has the appended value, so a later value for the same key is
    lost. *)
Theorem appended_value_shadows (ops : list md_op) (k v : string) (mds : list Metadata) :
  ∃ m, OutgoingContextMetadata (build (ops ++ OpAppend [k; v] :: (OpWith <$> mds))) = Some (Some m) ∧
    m !! k = Some v.
Proof.
  assert (Hl : ∃ md added, ctx_metadata (build (ops ++ OpAppend [k; v] :: (OpWith <$> mds))) =
    Some (MkCtxMD (Some md) (added ++ [[k; v]]))).
  { unfold build. rewrite foldl_app. cbn [foldl apply_op]. generalize (foldl apply_op background ops). intros ctx.
    assert (Ha : ∃ md added, ctx_metadata (AppendMetadataToOutgoingContext ctx [k; v]) =
      Some (MkCtxMD (Some md) (added ++ [[k; v]]))).
    { simpl. destruct (ctx_metadata ctx) as [[[md|] added]|]; simpl; eauto; by exists ∅, []. }
    revert Ha. generalize (AppendMetadataToOutgoingContext ctx [k; v]).
    induction mds as [|md mds IH]; intros c Hc; [exact Hc|]. cbn [fmap list_fmap foldl apply_op]. apply IH.
    destruct Hc as (old & added & Hc). unfold WithOutgoingMetadata. case_match; [by eauto|].
    simpl. rewrite Hc. simpl. eauto. }
  destruct Hl as (md & added & Hctx). unfold OutgoingContextMetadata. rewrite Hctx. simpl.
  destruct (add_all_lookup md (added ++ [[k; v]])) as (m & -> & Hm). exists m. split; [done|].
  rewrite Hm, last_added_app. simpl. by rewrite bool_decide_eq_true_2.
Qed.

(** The same on a concrete context: the later value ["new"] is not sent. *)
Example with_after_append :
  OutgoingContextMetadata (WithOutgoingMetadata
    (AppendMetadataToOutgoingContext background ["key"; "old"]) (Some {["key" := "new"]}))
  = Some (Some {["key" := "old"]}).
Proof. vm_compute. reflexivity. Qed.
