(* ===== verification/Interceptors.v ===== *)
(** * Interceptors.v: chains of interceptors ([src/internal/interceptors])

    A server interceptor is code that may act on the world and call the handler it
    is given, any number of times.  It is modelled as a program: a tree whose nodes
    are actions ([Act]) and calls of the handler ([Next]), each continued by what
    the action or the handler returned. *)
From S2P Require Import Prelude Errors Bus Info.

(** ** Client side *)

(** [ChainClientInterceptors]: the loop runs from the last interceptor to the first. *)
Definition ChainClientInterceptors {HandlerType : Type}
    (interceptors : list (RPCInfo → HandlerType → HandlerType))
    (requestInfo : RequestInfo) (handler : HandlerType) : HandlerType :=
  foldl (λ handler interceptor, interceptor (ri_RPCInfo requestInfo) handler)
        handler (reverse interceptors).

(** ** Server side *)

Section server_chain.

(** [Req] is what a handler is called with (context and request), [Res] what it
    returns (response and error), [W] the world and [A] the actions on it, answered
    by a [B]. *)
Context {Req Res W A B : Type}.

Inductive prog : Type :=
| Ret (r : Res)
| Act (a : A) (k : B → prog)
| Next (req : Req) (k : Res → prog).

(** An interceptor, applied to the info of the rpc. *)
Abbreviation interceptor := (Req → prog).

Context (act : A → W → W * B).

(** Runs a program in a state [S] that holds the world, given what its actions and
    its handler do there.  [None] is out of depth, see [state_next]. *)
Fixpoint interp {S} (on : A → S → S * B) (next : Req → S → option (S * Res))
    (p : prog) (s : S) : option (S * Res) :=
  match p with
  | Ret r => Some (s, r)
  | Act a k => let '(s, b) := on a s in interp on next (k b) s
  | Next req k => '(s, r) ← next req s; interp on next (k r) s
  end.

(** Actions on the world next to [state.i]. *)
Definition on_state (a : A) (s : nat * W) : (nat * W) * B :=
  let '(w, b) := act a s.2 in ((s.1, w), b).

(** [state.next] of [ChainServerInterceptors]: [state.i] is shared by every call of
    it that one request makes.  [depth] bounds the calls of [state.next] inside one
    another; each has passed [state.i++], so the number of interceptors is enough
    ([state_next_depth]). *)
Fixpoint state_next (interceptors : list interceptor) (handler : Req → W → W * Res)
    (depth : nat) (req : Req) (s : nat * W) : option ((nat * W) * Res) :=
  match interceptors !! s.1, depth with
  | Some ic, S depth =>
      if (s.1 =? length interceptors - 1)%nat then
        '(w, r) ← interp act (λ req w, Some (handler req w)) (ic req) s.2;
        Some ((s.1, w), r)
      else
        interp on_state (state_next interceptors handler depth) (ic req) (S s.1, s.2)
  | _, _ => None
  end.

(** [None] is the nil interceptor. *)
Definition ChainServerInterceptors (interceptors : list interceptor)
    : option (Req → (Req → W → W * Res) → W → option (W * Res)) :=
  match interceptors with
  | [] => None
  | [ic] => Some (λ req handler w, interp act (λ req w, Some (handler req w)) (ic req) w)
  | _ =>
      Some (λ req handler w,
        '(s, r) ← state_next interceptors handler (length interceptors) req (0%nat, w);
        Some (s.2, r))
  end.

(** ** Reference: each interceptor wraps the rest of the chain *)

Fixpoint nested (interceptors : list interceptor) (handler : Req → W → W * Res)
    (req : Req) (w : W) : option (W * Res) :=
  match interceptors with
  | [] => Some (handler req w)
  | ic :: rest => interp act (nested rest handler) (ic req) w
  end.

(** A program that calls its handler at most once, at most [true] being once. *)
Fixpoint calls_once (may : bool) (p : prog) : Prop :=
  match p with
  | Ret _ => True
  | Act _ k => ∀ b, calls_once may (k b)
  | Next _ k => may = true ∧ ∀ r, calls_once false (k r)
  end.
End server_chain.
Arguments prog : clear implicits.
Abbreviation interceptor Req Res A B := (Req → prog Req Res A B).

(** ** An interceptor that retries, in a chain that logs *)

Module RetryChain.

(** The world is a log; handlers fail ([None]) or succeed. *)
Definition act (line : string) (w : list string) : list string * unit := (w ++ [line], tt).

Definition icept : Type := interceptor string (option string) string unit.

Definition retrying : icept := λ req,
  Next req (λ r, match r with Some _ => Ret r | None => Next req Ret end).

Definition logging (name : string) : icept := λ req,
  Act name (λ _, Next req Ret).

Definition failing (req : string) (w : list string) : list string * option string :=
  (w ++ ["handler"], None).

Definition chain : list icept := [retrying; logging "first"; logging "second"].
End RetryChain.

(** ** Lemmas *)

Section chain_lemmas.
Context {Req Res W A B : Type} (act : A → W → W * B).
Implicit Types (p : prog Req Res A B) (ics : list (interceptor Req Res A B)).

(** Forgetting [state.i]. *)
Definition forget (x : (nat * W) * Res) : W * Res := (x.1.2, x.2).

Lemma interp_inv {S} (P : S → Prop) (on : A → S → S * B) next p s :
  (∀ a s, P s → P (on a s).1) →
  (∀ req s, P s → ∃ s' r, next req s = Some (s', r) ∧ P s') →
  P s → ∃ s' r, interp on next p s = Some (s', r) ∧ P s'.
Proof.
  intros Hon Hn. revert s. induction p as [r|a k IH|req k IH]; intros s Hs; simpl; [eauto|..].
  - specialize (Hon a s Hs). destruct (on a s) as [s' b]. by apply IH.
  - destruct (Hn req s Hs) as (s' & r & -> & Hs'). by apply IH.
Qed.

Lemma on_state_index a s : ((on_state act a s).1).1 = s.1.
Proof. unfold on_state. by destruct (act a s.2). Qed.

(** Depth suffices: a call of [state.next] inside another starts at a later index. *)
Lemma state_next_depth ics handler depth req s :
  (s.1 < length ics)%nat → (length ics - s.1 <= depth)%nat →
  ∃ s' r, state_next act ics handler depth req s = Some (s', r) ∧ (s.1 <= s'.1 < length ics)%nat.
Proof.
  revert req s. induction depth as [|depth IH]; intros req [i w] Hi Hd; simpl in *; [lia|].
  destruct (_ !! _) as [ic|] eqn:Hic; [|by apply lookup_ge_None in Hic; lia]. case_match eqn:Hlast.
  - destruct (interp_inv (λ _, True) act (λ req w, Some (handler req w)) (ic req) w)
      as (w' & r & -> & _); [done|intros req' w' _; destruct (handler req' w'); eauto|done|].
    simpl. eexists _, _; split; [done|]. simpl. lia.
  - apply Nat.eqb_neq in Hlast.
    destruct (interp_inv (λ s, S i <= s.1 < length ics)%nat (on_state act)
      (state_next act ics handler depth) (ic req) (S i, w)) as (s' & r & -> & Hs').
    + intros a s Hs. by rewrite on_state_index.
    + intros req' s Hs. destruct (IH req' s) as (s' & r & Heq & Hs'); [lia..|].
      exists s', r. split; [done|lia].
    + simpl. lia.
    + exists s', r. split; [done|]. simpl. lia.
Qed.

(** A program that calls its handler at most once goes the same way with the shared
    [state.i] as without, when the two handlers agree at that one call. *)
Lemma interp_once next next' may p i w :
  calls_once may p →
  (may = true → ∀ req w, forget <$> next req (i, w) = next' req w) →
  forget <$> interp (on_state act) next p (i, w) = interp act next' p w.
Proof.
  revert may i w. induction p as [r|a k IH|req k IH]; intros may i w Hp Hn; simpl; [done|..].
  - unfold on_state. simpl. destruct (act a w) as [w' b]. by apply (IH b may).
  - destruct Hp as [-> Hk]. rewrite <- (Hn eq_refl).
    destruct (next req (i, w)) as [[[i' w'] r]|]; simpl; [|done].
    by apply (IH r false).
Qed.

Lemma state_next_nested ics handler depth req i w :
  Forall (λ ic : interceptor Req Res A B, ∀ req, calls_once true (ic req)) (take (length ics - 1) ics) →
  (i < length ics)%nat → (length ics - i <= depth)%nat →
  forget <$> state_next act ics handler depth req (i, w) = nested act (drop i ics) handler req w.
Proof.
  intros Hall. revert req i w. induction depth as [|depth IH]; intros req i w Hi Hd; [lia|].
  simpl. destruct (_ !! _) as [ic|] eqn:Hic; [|by apply lookup_ge_None in Hic; lia].
  rewrite (drop_S _ _ _ Hic). simpl. case_match eqn:Hlast.
  - apply Nat.eqb_eq in Hlast. rewrite (drop_ge ics (S i)) by lia. simpl.
    by destruct (interp act _ (ic req) w) as [[w' r]|].
  - apply Nat.eqb_neq in Hlast. apply (interp_once _ _ true).
    + rewrite Forall_forall in Hall. apply Hall.
      apply (list_elem_of_lookup_2 _ i). rewrite lookup_take_lt by lia. done.
    + intros _ req' w'. apply IH; lia.
Qed.
End chain_lemmas.

(** A chain of server interceptors always runs to its end, and when each
    interceptor before the last calls its handler at most once, it does exactly what
    the interceptors do wrapped around one another, the first outermost, around the
    handler. *)
Theorem server_chain_nested {Req Res W A B} (act : A → W → W * B)
    (ics : list (interceptor Req Res A B)) (handler : Req → W → W * Res) :
  (ChainServerInterceptors act ics = None ↔ ics = []) ∧
  (∀ run req w, ChainServerInterceptors act ics = Some run →
     is_Some (run req handler w) ∧
     (Forall (λ ic : interceptor Req Res A B, ∀ req, calls_once true (ic req))
        (take (length ics - 1) ics) →
      run req handler w = nested act ics handler req w)).
Proof.
  destruct ics as [|ic [|ic2 ics]]; (split; [split; done|]); intros run req w; [done|..];
    intros <-%(inj Some); cbv beta.
  - split; [|done].
    destruct (interp_inv (λ _, True) act (λ req w, Some (handler req w)) (ic req) w)
      as (w' & r & -> & _); [done|intros req' w' _; destruct (handler req' w'); eauto|done..].
  - set (all := ic :: ic2 :: ics). split.
    + destruct (state_next_depth act all handler (length all) req (0%nat, w))
        as (s & r & -> & _); simpl; [lia..|done].
    + intros Hall. change all with (drop 0 all) at 3.
      rewrite <- (state_next_nested act all handler (length all) req 0 w Hall) by (simpl; lia).
      by destruct (state_next act all handler (length all) req (0%nat, w)) as [[s r]|].
Qed.

(** With three or more interceptors, one that calls its handler again, to
    retry, skips the interceptors between it and the last on the second call: the
    log of the chain lacks the second ["first"] that nesting gives. *)
Theorem server_chain_retry_skips :
  (run ← ChainServerInterceptors RetryChain.act RetryChain.chain;
   fst <$> run "req" RetryChain.failing []) =
    Some ["first"; "second"; "handler"; "second"; "handler"] ∧
  (fst <$> nested RetryChain.act RetryChain.chain RetryChain.failing "req" []) =
    Some ["first"; "second"; "handler"; "first"; "second"; "handler"].
Proof. split; reflexivity. Qed.
