(* ===== verification/Float32.v ===== *)
(** * Float32.v: comparisons of Go [float32] values

    Affinities are [float32].  The program only compares them, so a value is the
    Standard Library's [spec_float] (infinities, NaN, signed zeros and finite values
    with a mantissa and an exponent) and the comparison operators are IEEE 754's,
    every one of them false on a NaN.  The lemmas show that they come from a total
    preorder on the values other than NaN, which is all the selection loop needs. *)
From S2P Require Import Prelude.
From Stdlib Require Import SpecFloat.

Abbreviation float32 := spec_float.

Definition f32_zero : float32 := S754_zero false.
Definition f32_one : float32 := S754_finite false 8388608 (-23).

(** [a > b], [a >= b], [a < b] and [a <= b]. *)
Definition f32_lt (a b : float32) : bool := SFltb a b.
Definition f32_le (a b : float32) : bool := SFleb a b.
Definition f32_gt (a b : float32) : bool := SFltb b a.
Definition f32_ge (a b : float32) : bool := SFleb b a.

Definition is_nan (a : float32) : bool := match a with S754_nan => true | _ => false end.

(** ** The order behind the operators *)

(** The place of a value among those that are not NaN, compared component by
    component. *)
Definition f32_key (a : float32) : Z * Z * Z :=
  match a with
  | S754_infinity true => (-2, 0, 0)
  | S754_finite true m e => (-1, - e, - Zpos m)
  | S754_finite false m e => (1, e, Zpos m)
  | S754_infinity false => (2, 0, 0)
  | S754_zero _ | S754_nan => (0, 0, 0)
  end.

Definition key_lt (x y : Z * Z * Z) : Prop :=
  let '(a, b, c) := x in let '(a', b', c') := y in
  a < a' ∨ (a = a' ∧ (b < b' ∨ (b = b' ∧ c < c'))).

Definition key_le (x y : Z * Z * Z) : Prop :=
  let '(a, b, c) := x in let '(a', b', c') := y in
  a < a' ∨ (a = a' ∧ (b < b' ∨ (b = b' ∧ c <= c'))).

Lemma f32_lt_key a b :
  f32_lt a b = true ↔ is_nan a = false ∧ is_nan b = false ∧ key_lt (f32_key a) (f32_key b).
Proof.
  unfold f32_lt, SFltb, SFcompare, key_lt, f32_key.
  destruct a as [[]|[]| |[] ma ea], b as [[]|[]| |[] mb eb]; simpl;
    try (split; [intros ?|intros (?&?&?)]; (done || lia || (repeat split; lia)));
    destruct (Z.compare_spec ea eb); simpl;
    try (change (Pos.compare_cont Eq ma mb) with (Pos.compare ma mb);
         destruct (Pos.compare_spec ma mb); simpl);
    split; intros H'; try done; try (repeat split; lia); destruct H' as (_&_&H'); lia.
Qed.

Lemma f32_le_key a b :
  f32_le a b = true ↔ is_nan a = false ∧ is_nan b = false ∧ key_le (f32_key a) (f32_key b).
Proof.
  unfold f32_le, SFleb, SFcompare, key_le, f32_key.
  destruct a as [[]|[]| |[] ma ea], b as [[]|[]| |[] mb eb]; simpl;
    try (split; [intros ?|intros (?&?&?)]; (done || lia || (repeat split; lia)));
    destruct (Z.compare_spec ea eb); simpl;
    try (change (Pos.compare_cont Eq ma mb) with (Pos.compare ma mb);
         destruct (Pos.compare_spec ma mb); simpl);
    split; intros H'; try done; try (repeat split; lia); destruct H' as (_&_&H'); lia.
Qed.

Ltac f32_solve :=
  unfold f32_gt, f32_ge in *;
  repeat match goal with
  | |- context [SFltb ?a ?b] => change (SFltb a b) with (f32_lt a b) in *
  | |- context [SFleb ?a ?b] => change (SFleb a b) with (f32_le a b) in *
  | H : context [SFltb ?a ?b] |- _ => change (SFltb a b) with (f32_lt a b) in *
  | H : context [SFleb ?a ?b] |- _ => change (SFleb a b) with (f32_le a b) in *
  end;
  rewrite ?f32_lt_key, ?f32_le_key in *;
  unfold key_lt, key_le in *;
  repeat match goal with |- context [f32_key ?a] => destruct (f32_key a) as [[? ?] ?] in *
                    | H : context [f32_key ?a] |- _ => destruct (f32_key a) as [[? ?] ?] in * end;
  intuition lia.

Section order.
Implicit Types a b c : float32.

Lemma f32_gt_irrefl a : f32_gt a a = false.
Proof. apply not_true_iff_false. f32_solve. Qed.

Lemma f32_gt_trans a b c : f32_gt a b = true → f32_gt b c = true → f32_gt a c = true.
Proof. f32_solve. Qed.

(** A value that [b] does not exceed still is not exceeded by what exceeds less. *)
Lemma f32_gt_ge_trans a b c : f32_gt a b = true → f32_ge b c = true → f32_gt a c = true.
Proof. f32_solve. Qed.

Lemma f32_ge_gt_trans a b c : f32_ge a b = true → f32_gt b c = true → f32_gt a c = true.
Proof. f32_solve. Qed.

Lemma f32_ge_trans a b c : f32_ge a b = true → f32_ge b c = true → f32_ge a c = true.
Proof. f32_solve. Qed.

Lemma f32_gt_ge a b : f32_gt a b = true → f32_ge a b = true.
Proof. f32_solve. Qed.

(** The operators decide between them unless a NaN is involved. *)
Lemma f32_not_gt a b :
  is_nan a = false → is_nan b = false → f32_gt a b = false ↔ f32_ge b a = true.
Proof.
  intros Ha Hb. unfold f32_gt, f32_ge. fold (f32_lt b a) (f32_le a b).
  rewrite <- not_true_iff_false, f32_lt_key, f32_le_key, Ha, Hb. unfold key_lt, key_le.
  destruct (f32_key a) as [[??]?], (f32_key b) as [[??]?]. intuition lia.
Qed.

Lemma f32_nan a b : f32_gt a b = true → is_nan a = false ∧ is_nan b = false.
Proof. f32_solve. Qed.
End order.
