(* ===== verification/Options.v ===== *)
(** * Options.v: options of clients, requests, servers and streams

    [client.go], [request.go], [server.go], [stream.go] and the functions that apply
    options: [pkg/client/options.go], [pkg/server/options.go] and
    [internal/stream/options.go].  An option is a function on the record of options,
    as in the code; records are passed by value, where the code updates one in place
    through a pointer it does not share.  Hooks and interceptors are opaque here: the
    files that run them instantiate their types. *)
From S2P Require Import Prelude Errors Bus Info Interceptors Float32.

(** ** Requests *)

Section options.
Context `{GrpcApi}.

Record Claim : Type := MkClaim { cl_ServerID : string; cl_Affinity : float32 }.

Record SelectionOpts : Type := MkSelectionOpts {
  MinimumAffinity : float32;
  MaximumAffinity : float32;
  AcceptFirstAvailable : bool;
  AffinityTimeout : Z;
  ShortCircuitTimeout : Z;
  SelectionFunc : option (list Claim → string * option error)
}.

Definition zero_SelectionOpts : SelectionOpts :=
  MkSelectionOpts f32_zero f32_zero false 0 0 None.

End options.

(** A value of the types of [RequestInterceptor], or of another type, in an [any]. *)
Inductive any_interceptor (R M S : Type) : Type :=
| IRpc (i : R)
| IMulti (i : M)
| IStream (i : S)
| IOther.
Arguments IRpc {R M S} i.
Arguments IMulti {R M S} i.
Arguments IStream {R M S} i.
Arguments IOther {R M S}.

(** The types a request option or a client option carries: interceptors of single
    rpcs, of multi rpcs and of streams, and the two kinds of hooks. *)
Record carried : Type := Carried {
  ClientRPCInterceptor : Type;
  ClientMultiRPCInterceptor : Type;
  StreamInterceptor : Type;
  ClientRequestHook : Type;
  ClientResponseHook : Type
}.

(** Nothing carried, for examples. *)
Definition no_carried : carried := Carried unit unit unit unit unit.

Section client_options.
Context `{GrpcApi} {T : carried}.

Abbreviation any := (any_interceptor (ClientRPCInterceptor T)
  (ClientMultiRPCInterceptor T) (StreamInterceptor T)).

Record RequestOpts : Type := MkRequestOpts {
  ro_Timeout : Z;
  ro_SelectionOpts : SelectionOpts;
  ro_Interceptors : list any
}.

Definition RequestOption : Type := RequestOpts → RequestOpts.

Definition zero_RequestOpts : RequestOpts := MkRequestOpts 0 zero_SelectionOpts [].

Definition WithRequestTimeout (timeout : Z) : RequestOption := λ o,
  MkRequestOpts timeout (ro_SelectionOpts o) (ro_Interceptors o).

Definition WithSelectionOpts (opts : SelectionOpts) : RequestOption := λ o,
  MkRequestOpts (ro_Timeout o) opts (ro_Interceptors o).

(** [inject] puts an interceptor of the type parameter in an [any]. *)
Definition WithRequestInterceptors {I} (inject : I → any) (interceptors : list I)
    : RequestOption := λ o,
  MkRequestOpts (ro_Timeout o) (ro_SelectionOpts o)
    (ro_Interceptors o ++ (inject <$> interceptors)).

(** ** Clients *)

Definition DefaultClientTimeout : Z := Second * 3.
Definition DefaultAffinityTimeout : Z := Second.
Definition DefaultAffinityShortCircuit : Z := Millisecond * 200.

Record ClientOpts : Type := MkClientOpts {
  co_ClientID : string;
  co_Timeout : Z;
  co_SelectionTimeout : Z;
  co_ChannelSize : Z;
  co_EnableStreams : bool;
  co_RequestHooks : list (ClientRequestHook T);
  co_ResponseHooks : list (ClientResponseHook T);
  co_RpcInterceptors : list (ClientRPCInterceptor T);
  co_MultiRPCInterceptors : list (ClientMultiRPCInterceptor T);
  co_StreamInterceptors : list (StreamInterceptor T)
}.

Definition ClientOption : Type := ClientOpts → ClientOpts.

Definition WithClientID (id : string) : ClientOption := λ o,
  MkClientOpts id (co_Timeout o) (co_SelectionTimeout o) (co_ChannelSize o)
    (co_EnableStreams o) (co_RequestHooks o) (co_ResponseHooks o)
    (co_RpcInterceptors o) (co_MultiRPCInterceptors o) (co_StreamInterceptors o).

Definition WithClientTimeout (timeout : Z) : ClientOption := λ o,
  MkClientOpts (co_ClientID o) timeout (co_SelectionTimeout o) (co_ChannelSize o)
    (co_EnableStreams o) (co_RequestHooks o) (co_ResponseHooks o)
    (co_RpcInterceptors o) (co_MultiRPCInterceptors o) (co_StreamInterceptors o).

Definition WithClientSelectTimeout (timeout : Z) : ClientOption := λ o,
  MkClientOpts (co_ClientID o) (co_Timeout o) timeout (co_ChannelSize o)
    (co_EnableStreams o) (co_RequestHooks o) (co_ResponseHooks o)
    (co_RpcInterceptors o) (co_MultiRPCInterceptors o) (co_StreamInterceptors o).

Definition WithClientChannelSize (size : Z) : ClientOption := λ o,
  MkClientOpts (co_ClientID o) (co_Timeout o) (co_SelectionTimeout o) size
    (co_EnableStreams o) (co_RequestHooks o) (co_ResponseHooks o)
    (co_RpcInterceptors o) (co_MultiRPCInterceptors o) (co_StreamInterceptors o).

Definition WithClientRequestHooks (hooks : list (ClientRequestHook T)) : ClientOption := λ o,
  MkClientOpts (co_ClientID o) (co_Timeout o) (co_SelectionTimeout o) (co_ChannelSize o)
    (co_EnableStreams o) (co_RequestHooks o ++ hooks) (co_ResponseHooks o)
    (co_RpcInterceptors o) (co_MultiRPCInterceptors o) (co_StreamInterceptors o).

Definition WithClientResponseHooks (hooks : list (ClientResponseHook T)) : ClientOption := λ o,
  MkClientOpts (co_ClientID o) (co_Timeout o) (co_SelectionTimeout o) (co_ChannelSize o)
    (co_EnableStreams o) (co_RequestHooks o) (co_ResponseHooks o ++ hooks)
    (co_RpcInterceptors o) (co_MultiRPCInterceptors o) (co_StreamInterceptors o).

Definition WithClientRPCInterceptors (ics : list (ClientRPCInterceptor T)) : ClientOption := λ o,
  MkClientOpts (co_ClientID o) (co_Timeout o) (co_SelectionTimeout o) (co_ChannelSize o)
    (co_EnableStreams o) (co_RequestHooks o) (co_ResponseHooks o)
    (co_RpcInterceptors o ++ ics) (co_MultiRPCInterceptors o) (co_StreamInterceptors o).

Definition WithClientMultiRPCInterceptors (ics : list (ClientMultiRPCInterceptor T))
    : ClientOption := λ o,
  MkClientOpts (co_ClientID o) (co_Timeout o) (co_SelectionTimeout o) (co_ChannelSize o)
    (co_EnableStreams o) (co_RequestHooks o) (co_ResponseHooks o)
    (co_RpcInterceptors o) (co_MultiRPCInterceptors o ++ ics) (co_StreamInterceptors o).

Definition WithClientStreamInterceptors (ics : list (StreamInterceptor T)) : ClientOption := λ o,
  MkClientOpts (co_ClientID o) (co_Timeout o) (co_SelectionTimeout o) (co_ChannelSize o)
    (co_EnableStreams o) (co_RequestHooks o) (co_ResponseHooks o)
    (co_RpcInterceptors o) (co_MultiRPCInterceptors o) (co_StreamInterceptors o ++ ics).

(** Applies options in order. *)
Definition apply_opts {O} (opts : list (O → O)) (o : O) : O := foldl (λ o opt, opt o) o opts.

Definition WithClientOptions (opts : list ClientOption) : ClientOption := apply_opts opts.

Definition withStreams : ClientOption := λ o,
  MkClientOpts (co_ClientID o) (co_Timeout o) (co_SelectionTimeout o) (co_ChannelSize o)
    true (co_RequestHooks o) (co_ResponseHooks o)
    (co_RpcInterceptors o) (co_MultiRPCInterceptors o) (co_StreamInterceptors o).

Definition getClientOpts (opts : list ClientOption) : ClientOpts :=
  apply_opts opts (MkClientOpts "" 0 DefaultAffinityTimeout DefaultChannelSize false
    [] [] [] [] []).

(** ** What a request runs with *)

(** [deadline] is that of the request's context, [now] is [time.Now()]. *)
Definition getRequestOpts (deadline : option Z) (now : Z) (i : RequestInfo)
    (options : ClientOpts) (opts : list RequestOption) : RequestOpts :=
  let timeout := co_Timeout options in
  let timeout :=
    match deadline with
    | Some d => let dt := time_Sub d now in
        if (timeout =? 0) || (timeout >? dt) then dt else timeout
    | None => timeout
    end in
  let timeout := if timeout =? 0 then DefaultClientTimeout else timeout in
  let sel :=
    if ri_AffinityEnabled i then
      MkSelectionOpts f32_zero f32_zero false (co_SelectionTimeout options)
        DefaultAffinityShortCircuit None
    else
      MkSelectionOpts f32_zero f32_zero true (co_SelectionTimeout options) 0 None in
  apply_opts opts (MkRequestOpts timeout sel []).

(** [getRequestInterceptors]: [cast] is the type assertion [a.(T)]; [None] is the
    panic on an interceptor of another type. *)
Definition getRequestInterceptors {I} (cast : any → option I) (base : list I)
    (as_ : list any) : option (list I) :=
  ics ← mapM cast as_; Some (base ++ ics).

Definition as_rpc (a : any) : option (ClientRPCInterceptor T) :=
  match a with IRpc i => Some i | _ => None end.
Definition as_multi (a : any) : option (ClientMultiRPCInterceptor T) :=
  match a with IMulti i => Some i | _ => None end.
Definition as_stream (a : any) : option (StreamInterceptor T) :=
  match a with IStream i => Some i | _ => None end.
End client_options.
Arguments RequestOpts {_} T.
Arguments RequestOption {_} T.
Arguments ClientOpts T : clear implicits.
Arguments ClientOption T : clear implicits.

(** ** Servers *)

Section server_options.

(** Requests, results, world and actions of server interceptors, as in
    [Interceptors]; stream interceptors and the observer are opaque. *)
Context {Req Res W A B : Type} {SI RequestObserver : Type} (act : A → W → W * B).

Definition DefaultServerTimeout : Z := Second * 3.

(** An interceptor, given the info of the rpc. *)
Definition ServerRPCInterceptor : Type := RPCInfo → interceptor Req Res A B.

(** [ChainedInterceptor] is given the info first, [None] being nil. *)
Record ServerOpts : Type := MkServerOpts {
  so_ServerID : string;
  so_Timeout : Z;
  so_ChannelSize : Z;
  so_Interceptors : list ServerRPCInterceptor;
  so_StreamInterceptors : list SI;
  so_ChainedInterceptor :
    RPCInfo → option (Req → (Req → W → W * Res) → W → option (W * Res));
  so_RequestObserver : option RequestObserver
}.

Definition ServerOption : Type := ServerOpts → ServerOpts.

Definition WithServerSkipClaim (enabled : unit → bool) : ServerOption := λ o, o.

Definition WithServerID (id : string) : ServerOption := λ o,
  MkServerOpts id (so_Timeout o) (so_ChannelSize o) (so_Interceptors o)
    (so_StreamInterceptors o) (so_ChainedInterceptor o) (so_RequestObserver o).

Definition WithServerTimeout (timeout : Z) : ServerOption := λ o,
  MkServerOpts (so_ServerID o) timeout (so_ChannelSize o) (so_Interceptors o)
    (so_StreamInterceptors o) (so_ChainedInterceptor o) (so_RequestObserver o).

Definition WithServerChannelSize (size : Z) : ServerOption := λ o,
  if size >? 0 then
    MkServerOpts (so_ServerID o) (so_Timeout o) size (so_Interceptors o)
      (so_StreamInterceptors o) (so_ChainedInterceptor o) (so_RequestObserver o)
  else o.

(** [None] is a nil interceptor, left out. *)
Definition WithServerRPCInterceptors (ics : list (option ServerRPCInterceptor))
    : ServerOption := λ o,
  MkServerOpts (so_ServerID o) (so_Timeout o) (so_ChannelSize o)
    (so_Interceptors o ++ omap id ics)
    (so_StreamInterceptors o) (so_ChainedInterceptor o) (so_RequestObserver o).

Definition WithServerStreamInterceptors (ics : list SI) : ServerOption := λ o,
  MkServerOpts (so_ServerID o) (so_Timeout o) (so_ChannelSize o) (so_Interceptors o)
    (so_StreamInterceptors o ++ ics) (so_ChainedInterceptor o) (so_RequestObserver o).

Definition WithServerOptions (opts : list ServerOption) : ServerOption := apply_opts opts.

Definition WithServerObserver (observer : option RequestObserver) : ServerOption := λ o,
  MkServerOpts (so_ServerID o) (so_Timeout o) (so_ChannelSize o) (so_Interceptors o)
    (so_StreamInterceptors o) (so_ChainedInterceptor o) observer.

Definition getServerOpts (opts : list ServerOption) : ServerOpts :=
  let o := apply_opts opts
    (MkServerOpts "" DefaultServerTimeout DefaultChannelSize [] [] (λ _, None) None) in
  MkServerOpts (so_ServerID o) (so_Timeout o) (so_ChannelSize o) (so_Interceptors o)
    (so_StreamInterceptors o)
    (λ info, ChainServerInterceptors act ((λ ic, ic info) <$> so_Interceptors o))
    (so_RequestObserver o).
End server_options.

(** The outcomes an observer is told of. *)
Inductive ClaimOutcome : Type :=
| ClaimGranted
| ClaimLostToPeer
| ClaimTimedOut
| ClaimSkipped.

#[export] Instance ClaimOutcome_eq_dec : EqDecision ClaimOutcome.
Proof. solve_decision. Defined.

(** [ClaimOutcome.String]: [n] is the value of the [int] type. *)
Definition ClaimOutcome_value (o : ClaimOutcome) : Z :=
  match o with ClaimGranted => 0 | ClaimLostToPeer => 1 | ClaimTimedOut => 2 | ClaimSkipped => 3 end.

Definition ClaimOutcome_String (n : Z) : string :=
  switch n
    [([ClaimOutcome_value ClaimGranted], "granted");
     ([ClaimOutcome_value ClaimLostToPeer], "lost_to_peer");
     ([ClaimOutcome_value ClaimTimedOut], "timed_out");
     ([ClaimOutcome_value ClaimSkipped], "skipped")]
    "invalid".

(** ** Streams *)

Record StreamOpts : Type := MkStreamOpts { sto_Timeout : Z }.

Definition StreamOption : Type := StreamOpts → StreamOpts.

Definition WithTimeout (timeout : Z) : StreamOption := λ o, MkStreamOpts timeout.

Definition getStreamOpts (options : StreamOpts) (opts : list StreamOption) : StreamOpts :=
  apply_opts opts (MkStreamOpts (sto_Timeout options)).

(** ** Lemmas *)

Section option_lemmas.
Context {O : Type}.
Implicit Types (opts : list (O → O)) (o : O).

Lemma apply_opts_app opts1 opts2 o :
  apply_opts (opts1 ++ opts2) o = apply_opts opts2 (apply_opts opts1 o).
Proof. unfold apply_opts. by rewrite foldl_app. Qed.

Lemma apply_opts_nested opts1 opts2 opts3 o :
  apply_opts (opts1 ++ [apply_opts opts2] ++ opts3) o = apply_opts (opts1 ++ opts2 ++ opts3) o.
Proof. by rewrite !apply_opts_app. Qed.

(** What no option changes is left alone. *)
Lemma apply_opts_keeps {B} (f : O → B) opts o :
  Forall (λ opt, ∀ o, f (opt o) = f o) opts → f (apply_opts opts o) = f o.
Proof.
  intros Hall. revert o. induction Hall as [|opt opts Hopt _ IH]; intros o; [done|].
  unfold apply_opts in *. simpl. by rewrite IH, Hopt.
Qed.

Lemma apply_opts_invariant (P : O → Prop) opts o :
  Forall (λ opt, ∀ o, P o → P (opt o)) opts → P o → P (apply_opts opts o).
Proof.
  intros Hall. revert o. induction Hall as [|opt opts Hopt _ IH]; intros o Ho; [done|].
  unfold apply_opts in *. simpl. auto.
Qed.
End option_lemmas.

(** ** Properties *)

(** A request made with a deadline still ahead, by a client whose timeout is not
    negative, waits for the smaller of the client's timeout (when it has one) and the
    time left, never for the default instead; without either it waits for the
    default.  Request options that do not set the timeout leave it so, and a
    [WithRequestTimeout] after them wins over everything. *)
Theorem request_timeout_spec `{GrpcApi} {T : carried} (i : RequestInfo)
    (options : ClientOpts T) (opts : list (RequestOption T)) (deadline : option Z) (now t : Z)
    (Hopts : Forall (λ opt, ∀ o, ro_Timeout (opt o) = ro_Timeout o) opts)
    (Hclient : 0 <= co_Timeout options < 2 ^ 63)
    (Hahead : from_option (λ d, now < d) True deadline) :
  let timeout := ro_Timeout (getRequestOpts deadline now i options opts) in
  0 < timeout ∧
  match deadline with
  | None => timeout = (if co_Timeout options =? 0 then DefaultClientTimeout else co_Timeout options)
  | Some d =>
      timeout <= d - now ∧
      (co_Timeout options = 0 → timeout = Z.min (2 ^ 63 - 1) (d - now)) ∧
      (0 < co_Timeout options → timeout = Z.min (co_Timeout options) (d - now))
  end ∧
  ro_Timeout (getRequestOpts deadline now i options (opts ++ [WithRequestTimeout t])) = t.
Proof.
  cbn zeta. unfold getRequestOpts, RequestOption in *. rewrite apply_opts_app.
  rewrite !(apply_opts_keeps ro_Timeout) by done. simpl.
  unfold DefaultClientTimeout, Second, time_Sub in *. destruct deadline as [d|]; simpl in *.
  - destruct (Z.eqb_spec (co_Timeout options) 0); simpl;
      [|destruct (Z.gtb_spec (co_Timeout options) (Z.max (- 2 ^ 63) (Z.min (2 ^ 63 - 1) (d - now))))];
      match goal with |- context [?x =? 0] => destruct (Z.eqb_spec x 0) end; split_and!; lia.
  - destruct (Z.eqb_spec (co_Timeout options) 0); simpl; split_and!; lia.
Qed.

Lemma request_timeout_spec_witness :
  ro_Timeout (getRequestOpts (H := grpc_numbers) (T := no_carried) (Some 9) 4
    (MkRequestInfo (MkRPCInfo "svc" "m" [] false) true true false)
    (getClientOpts [WithClientTimeout Second]) [WithSelectionOpts zero_SelectionOpts]) = 5.
Proof.
  refine (proj2 (proj2 (proj1 (proj2
    (@request_timeout_spec grpc_numbers no_carried
      (MkRequestInfo (MkRPCInfo "svc" "m" [] false) true true false)
      (getClientOpts [WithClientTimeout Second]) [WithSelectionOpts zero_SelectionOpts]
      (Some 9) 4 0 _ _ _)))) _).
  - repeat constructor.
  - vm_compute. split; [discriminate|reflexivity].
  - reflexivity.
  - reflexivity.
Defined.

(** Options passed in any grouping act in the order they are written, and the
    channels of a server always have room: the size is positive whatever the options
    are, as long as those outside the package leave it positive. *)
Theorem server_opts_spec {Req Res W A B SI RO : Type} (act : A → W → W * B)
    (opts1 opts2 opts3 : list (ServerOption (Req := Req) (Res := Res) (W := W) (A := A)
       (B := B) (SI := SI) (RequestObserver := RO)))
    (sizes : list Z)
    (Hpos : Forall (λ opt, ∀ o, 0 < so_ChannelSize o → 0 < so_ChannelSize (opt o))
              (opts1 ++ opts2 ++ opts3)) :
  getServerOpts act (opts1 ++ [WithServerOptions opts2] ++ opts3)
    = getServerOpts act (opts1 ++ opts2 ++ opts3) ∧
  0 < so_ChannelSize (getServerOpts act
        (opts1 ++ [WithServerOptions opts2] ++ opts3 ++ (WithServerChannelSize <$> sizes))).
Proof.
  unfold getServerOpts, WithServerOptions, ServerOption in *. split; [by rewrite apply_opts_nested|].
  cbn [so_ChannelSize]. rewrite apply_opts_nested.
  apply (apply_opts_invariant (λ o, 0 < so_ChannelSize o)); [|simpl; unfold DefaultChannelSize; lia].
  rewrite !app_assoc. apply Forall_app. split; [by rewrite <- app_assoc|].
  apply Forall_fmap, Forall_true. intros n o Ho. simpl. unfold WithServerChannelSize.
  destruct (Z.gtb_spec n 0); simpl; lia.
Qed.

Lemma server_opts_spec_witness :
  0 < so_ChannelSize (getServerOpts (Req := unit) (Res := unit) (W := unit) (A := unit)
        (B := unit) (SI := unit) (RequestObserver := unit) (λ _ w, (w, tt))
        ([WithServerID "ND"] ++ [WithServerOptions [WithServerTimeout 0]] ++
         [] ++ (WithServerChannelSize <$> [-1; 0]))).
Proof.
  apply (server_opts_spec (λ _ w, (w, tt)) [WithServerID "ND"] [WithServerTimeout 0] [] [-1; 0]).
  repeat constructor; intros o Ho; exact Ho.
Defined.
