(* ===== verification/Retry.v ===== *)
(** * Retry.v: retries and panics ([src/pkg/middleware/retry.go], [recovery.go])

    The retry loop, the parameters it uses by default and the client interceptor
    around it.  The world is a type [W] that calls, waits and clock readings act on;
    the loop runs on fuel, one unit per attempt, because a configuration may make it
    run for ever.  [retry_default_total] bounds it for a positive [MaxAttempts]. *)
From S2P Require Import Prelude Errors Bus Info Interceptors Float32 Options.

Section retry.
Context `{StatusApi} {W : Type}.

(** [GetRetryParameters] is code of the caller's: it may act on the world. *)
Record RetryOptions : Type := MkRetryOptions {
  MaxAttempts : Z;
  Timeout : Z;
  Backoff : Z;
  IsRecoverable : option (error → bool);
  GetRetryParameters : option (error → Z → W → W * (bool * Z * Z))
}.

(** [done], the clock and sleeping.  [wait (Some d)] is the [select] between [done]
    and [time.After(d)], [wait None] the one with a [default]; both answer whether
    [done] was taken. *)
Record Env : Type := MkEnv {
  Now : W → Z;
  wait : option Z → W → W * bool
}.

Definition isTimeout (err : error) : bool :=
  let '(code, ok) := GetErrorCode (Some err) in
  if negb ok then true
  else bool_decide (code = DeadlineExceeded) || bool_decide (code = Unavailable).

(** [opt.IsRecoverable] once [retry] has put in the default. *)
Definition isRecoverable (opt : RetryOptions) : error → bool := default isTimeout (IsRecoverable opt).

(** [getRetryWithBackoffParameters]: the closure's variable [timeout] is its first
    argument and first result. *)
Definition getRetryWithBackoffParameters (opt : RetryOptions)
    (timeout : Z) (err : error) (attempt : Z) : Z * (bool * Z * Z) :=
  if negb (isRecoverable opt err) || (attempt =? MaxAttempts opt) then (timeout, (false, 0, 0))
  else let timeout := int64 (timeout + Backoff opt) in (timeout, (true, timeout, 0)).

(** [opt.GetRetryParameters(err, attempt)], with the variable of the default one. *)
Definition parameters (opt : RetryOptions) (captured : Z) (err : error) (attempt : Z) (w : W)
    : W * Z * (bool * Z * Z) :=
  match GetRetryParameters opt with
  | Some f => let '(w, p) := f err attempt w in (w, captured, p)
  | None =>
      let '(captured, p) := getRetryWithBackoffParameters opt captured err attempt in
      (w, captured, p)
  end.

(** The wait before the next attempt. *)
Definition pause (err : error) (elapsed waitTime : Z) : Z :=
  match as_NoSubscriber err with
  | Some nseWait => Z.max waitTime (int64 (nseWait - elapsed))
  | None => waitTime
  end.

(** The loop of [retry].  [None]: out of fuel, or an attempt that does not return. *)
Fixpoint retry_loop (fuel : nat) (opt : RetryOptions) (env : Env)
    (fn : Z → W → option (W * option error)) (captured timeout attempt : Z) (w : W)
    : option (W * option error) :=
  match fuel with
  | O => None
  | S fuel =>
      let start := Now env w in
      '(w, err) ← fn timeout w;
      match err with
      | None => Some (w, None)
      | Some err =>
          let elapsed := time_Sub (Now env w) start in
          let '(w, captured, (retry, timeout, waitTime)) :=
            parameters opt captured err attempt w in
          if negb retry then Some (w, Some err)
          else
            let waitTime := pause err elapsed waitTime in
            let attempt := int64 (attempt + 1) in
            let '(w, done) := wait env (if waitTime >? 0 then Some waitTime else None) w in
            if done then Some (w, Some ErrRequestCanceled)
            else retry_loop fuel opt env fn captured timeout attempt w
      end
  end.

Definition retry (fuel : nat) (opt : RetryOptions) (env : Env)
    (fn : Z → W → option (W * option error)) (w : W) : option (W * option error) :=
  retry_loop fuel opt env fn (Timeout opt) (Timeout opt) 1 w.

(** ** Reference: at most [n] further attempts *)

(** What the default parameters promise: the attempts one after another, the timeout
    a backoff longer each time, ended by a success, by an error that is not
    recoverable, by the end of the attempts or by the caller. *)
Fixpoint attempts (n : nat) (opt : RetryOptions) (env : Env)
    (fn : Z → W → option (W * option error)) (timeout : Z) (w : W)
    : option (W * option error) :=
  let start := Now env w in
  '(w, err) ← fn timeout w;
  match err with
  | None => Some (w, None)
  | Some err =>
      if negb (isRecoverable opt err) then Some (w, Some err)
      else
        match n with
        | O => Some (w, Some err)
        | S n =>
            let d := pause err (time_Sub (Now env w) start) 0 in
            let '(w, done) := wait env (if d >? 0 then Some d else None) w in
            if done then Some (w, Some ErrRequestCanceled)
            else attempts n opt env fn (int64 (timeout + Backoff opt)) w
        end
  end.
End retry.
Arguments RetryOptions {_} W.
Arguments Env W : clear implicits.

(** ** The client interceptor *)

Section interceptor.
Context `{StatusApi} {T : carried} {W message : Type}.

(** A context: the value under [callerTimeoutKey], and the rest of it. *)
Record rctx (C : Type) : Type := MkCtx { callerTimeoutKey : option Z; rest : C }.
Arguments MkCtx {C} _ _.
Arguments callerTimeoutKey {C} _.
Arguments rest {C} _.

(** [ClientRPCHandler]: [None] is a call that does not return; the response may be nil. *)
Definition ClientRPCHandler (C : Type) : Type :=
  rctx C → message → list (RequestOption T) → W →
  option (W * (option message * option error)).

Definition requestTimeout (opts : list (RequestOption T)) : Z :=
  ro_Timeout (apply_opts opts zero_RequestOpts).

(** The options of one attempt. *)
Definition attemptOpts (opts : list (RequestOption T)) (callerTimeout timeout : Z)
    : list (RequestOption T) :=
  if (timeout >? 0) && (callerTimeout =? 0)
  then opts ++ [WithRequestTimeout timeout] else opts.

(** The state of the closure given to [retry] is the world and the result [res]. *)
Definition NewRPCRetryInterceptor {C} (fuel : nat)
    (opt : RetryOptions (W * option message)) (env : C → Env (W * option message))
    (rpcInfo : RPCInfo) (next : ClientRPCHandler C) : ClientRPCHandler C :=
  λ ctx req opts w,
    let callerTimeout := default (requestTimeout opts) (callerTimeoutKey ctx) in
    let ctx := MkCtx (Some callerTimeout) (rest ctx) in
    '(w, res, err) ← retry fuel opt (env (rest ctx))
      (λ timeout '(w, _),
        '(w, (res, err)) ← next ctx req (attemptOpts opts callerTimeout timeout) w;
        Some ((w, res), err))
      (w, None);
    Some (w, (res, err)).
End interceptor.
Arguments MkCtx {C} _ _.
Arguments callerTimeoutKey {C} _.
Arguments rest {C} _.

(** ** The stream interceptor *)

Section stream_interceptor.
Context `{StatusApi} {W message : Type}.

(** [streamRetryInterceptor.Send]: [send] is the next handler's; [done] is nil, so
    only the timer ends a wait. *)
Definition streamRetryInterceptor_Send (fuel : nat) (opt : RetryOptions W) (env : Env W)
    (send : message → list StreamOption → W → option (W * option error))
    (msg : message) (opts : list StreamOption) (w : W) : option (W * option error) :=
  let env := MkEnv (Now env) (λ d w, ((wait env d w).1, false)) in
  retry fuel opt env
    (λ timeout w, send msg (if timeout >? 0 then WithTimeout timeout :: opts else opts) w) w.

(** [WithServerRecovery]: a handler panics ([Err]) or returns; [stack] is the trace. *)
Definition WithServerRecovery (stack : string) (panicking : result unit (option message * option error))
    : option message * option error :=
  match panicking with
  | Ok (resp, err) => (resp, err)
  | Err _ => (None, Some (NewErrorf Internal ("Caught server panic. Stack trace:
" +:+ stack)))
  end.
End stream_interceptor.

(** ** Lemmas *)

Section retry_lemmas.
Context `{StatusApi} {W : Type}.
Implicit Types (opt : RetryOptions W) (env : Env W)
  (fn : Z → W → option (W * option error)) (w : W).

Lemma retry_loop_attempts opt env fn n fuel timeout attempt w :
  GetRetryParameters opt = None →
  MaxAttempts opt = attempt + Z.of_nat n → 0 < attempt → in_int64 (MaxAttempts opt) →
  (n < fuel)%nat →
  retry_loop fuel opt env fn timeout timeout attempt w = attempts n opt env fn timeout w.
Proof.
  intros Hdef Hmax Hpos Hin. revert fuel timeout attempt w Hmax Hpos.
  induction n as [|n IH]; intros [|fuel] timeout attempt w Hmax Hpos Hfuel; try lia; simpl;
    destruct (fn timeout w) as [[w1 [err|]]|]; simpl; try done;
    unfold parameters, getRetryWithBackoffParameters; rewrite Hdef;
    destruct (isRecoverable opt err); simpl; try done.
  - by rewrite (proj2 (Z.eqb_eq _ _)) by lia.
  - rewrite (proj2 (Z.eqb_neq _ _)) by lia. simpl.
    destruct (wait env _ w1) as [w2 []]; [done|].
    unfold in_int64 in Hin. rewrite (int64_id (attempt + 1)) by (unfold in_int64; lia).
    apply IH; lia.
Qed.

(** A predicate on the world that survives what the loop does holds at its end. *)
Lemma retry_loop_invariant (P : W → Prop) fuel opt env fn captured timeout attempt w w' r :
  (∀ t w w' e, P w → fn t w = Some (w', e) → P w') →
  (∀ d w, P w → P (wait env d w).1) →
  (∀ f err k w, GetRetryParameters opt = Some f → P w → P (f err k w).1) →
  P w → retry_loop fuel opt env fn captured timeout attempt w = Some (w', r) → P w'.
Proof.
  intros Hfn Hwait Hget. revert captured timeout attempt w.
  induction fuel as [|fuel IH]; intros captured timeout attempt w Hw; simpl; [done|].
  destruct (fn timeout w) as [[w1 [err|]]|] eqn:Hcall; simpl; [|naive_solver..].
  assert (Hp : P (parameters opt captured err attempt w1).1.1).
  { unfold parameters. destruct (GetRetryParameters opt) as [f|] eqn:Hf.
    - specialize (Hget f err attempt w1 eq_refl). destruct (f err attempt w1); simpl in *; eauto.
    - destruct (getRetryWithBackoffParameters _ _ _ _); simpl; eauto. }
  destruct (parameters _ _ _ _ _) as [[w2 c] [[again t'] wt]]; simpl in *.
  destruct again; simpl; [|naive_solver].
  match goal with |- context [wait env ?d w2] => specialize (Hwait d w2 Hp);
    destruct (wait env d w2) as [w3 []] end; simpl in *; [naive_solver|eauto].
Qed.

(** Two functions that agree on the worlds the loop can be in give the same loop. *)
Lemma retry_loop_ext fuel opt env fn1 fn2 captured timeout attempt w :
  (∀ t w, fn1 t w = fn2 t w) →
  retry_loop fuel opt env fn1 captured timeout attempt w
  = retry_loop fuel opt env fn2 captured timeout attempt w.
Proof.
  intros Hfn. revert captured timeout attempt w.
  induction fuel as [|fuel IH]; intros captured timeout attempt w; simpl; [done|].
  rewrite Hfn. destruct (fn2 timeout w) as [[w1 [err|]]|]; simpl; try done.
  destruct (parameters _ _ _ _ _) as [[w2 c] [[[] t'] wt]]; simpl; [|done].
  match goal with |- context [wait env ?d w2] => destruct (wait env d w2) as [w3 []] end; auto.
Qed.

(** The timeouts of the first [k] attempts. *)
Definition schedule opt (timeout : Z) (k : nat) : list Z :=
  (λ j, int64 (timeout + Z.of_nat j * Backoff opt)) <$> seq 0 k.

Lemma int64_add_l a b : int64 (int64 a + b) = int64 (a + b).
Proof.
  unfold int64. f_equal.
  replace ((a + 2 ^ 63) mod 2 ^ 64 - 2 ^ 63 + b + 2 ^ 63) with ((a + 2 ^ 63) mod 2 ^ 64 + b) by lia.
  rewrite Zplus_mod_idemp_l. f_equal. lia.
Qed.

Lemma schedule_S opt timeout k :
  in_int64 timeout →
  schedule opt timeout (S k) = timeout :: schedule opt (int64 (timeout + Backoff opt)) k.
Proof.
  intros Ht. unfold schedule. simpl. f_equal.
  - rewrite Z.add_0_r. by apply int64_id.
  - rewrite <- (fmap_S_seq 0 k), <- list_fmap_compose. apply list_fmap_ext. intros j x _. simpl.
    rewrite int64_add_l. f_equal. lia.
Qed.

Lemma attempts_schedule (log : W → list Z) opt env fn n timeout w w' r :
  (∀ t w w' e, fn t w = Some (w', e) → log w' = log w ++ [t]) →
  (∀ d w, log (wait env d w).1 = log w) →
  in_int64 timeout →
  attempts n opt env fn timeout w = Some (w', r) →
  ∃ k, (1 <= k <= S n)%nat ∧ log w' = log w ++ schedule opt timeout k ∧
    ((∀ d w, (wait env d w).2 = false) → from_option (isRecoverable opt) false r = true → k = S n).
Proof.
  intros Hfn Hwait. revert timeout w.
  induction n as [|n IH]; intros timeout w Ht; simpl;
    destruct (fn timeout w) as [[w1 [err|]]|] eqn:Hcall; simpl; try done;
    apply Hfn in Hcall.
  - assert (Hone : log w1 = log w ++ schedule opt timeout 1) by (rewrite schedule_S; done).
    destruct (isRecoverable opt err) eqn:?; simpl; intros [= -> <-]; exists 1%nat; split_and!; auto; lia.
  - intros [= -> <-]. exists 1%nat. rewrite schedule_S by done. split_and!; auto; lia.
  - assert (Hone : log w1 = log w ++ schedule opt timeout 1) by (rewrite schedule_S; done).
    destruct (isRecoverable opt err) eqn:Hrec; simpl.
    2:{ intros [= -> <-]; exists 1%nat; split_and!; [lia|lia|done|]. simpl. congruence. }
    match goal with |- context [wait env ?d w1] =>
      pose proof (Hwait d w1) as Hlog; destruct (wait env d w1) as [w2 []] eqn:Hd end; simpl in *.
    { intros [= -> <-]. exists 1%nat. split_and!; [lia|lia|by rewrite Hlog, Hone|].
      intros Hnot. match type of Hd with wait env ?d ?w = _ => specialize (Hnot d w) end.
      by rewrite Hd in Hnot. }
    intros (k & Hk & Hlog' & Hlast)%IH; [|apply int64_range].
    exists (S k). split_and!; [lia|lia| |intros ??; f_equal; auto].
    rewrite Hlog', Hlog, Hcall, schedule_S, <- app_assoc by done. done.
  - intros [= -> <-]. exists 1%nat. rewrite schedule_S by done. split_and!; auto; try lia. simpl. done.
Qed.
End retry_lemmas.

Section pacing.
Context `{StatusApi} {W : Type}.

(** Calls made one after the other: when each began and what it returned. *)
Abbreviation calls := (list (Z * option error)).
Implicit Types (l : calls).

(** What an attempt ended by the broker leaves to wait. *)
Definition owed (e : option error) : option Z := e ≫= as_NoSubscriber.

Definition due l (t : Z) : Prop :=
  ∀ s e d, last l = Some (s, e) → owed e = Some d → s + d <= t.

(** No call begins before the wait the one before it was cut short of is over. *)
Definition paced l : Prop :=
  ∀ i s1 e1 s2 e2 d, l !! i = Some (s1, e1) → l !! (S i) = Some (s2, e2) →
    owed e1 = Some d → s1 + d <= s2.

Lemma paced_snoc l t e : paced l → due l t → paced (l ++ [(t, e)]).
Proof.
  intros Hp Hd i s1 e1 s2 e2 d H1 H2 Ho.
  apply lookup_app_Some in H2 as [H2|[Hle H2]].
  - rewrite lookup_app_l in H1 by (apply lookup_lt_Some in H2; lia). by eapply Hp.
  - apply list_lookup_singleton_Some in H2 as [Hi [= <- <-]].
    rewrite lookup_app_l in H1 by lia. eapply Hd; [|done].
    rewrite last_lookup. by replace (pred (length l)) with i by lia.
Qed.

Lemma due_snoc l s e t : (∀ d, owed e = Some d → s + d <= t) → due (l ++ [(s, e)]) t.
Proof. intros Ht s' e' d. rewrite last_snoc. intros [= <- <-]. apply Ht. Qed.

(** Hypotheses under which the pacing is observed: calls record themselves, clocks
    advance, [time.After] is not early, and waits announced by the broker are
    durations that are not negative. *)
Record observed (opt : RetryOptions W) (env : Env W) (fn : Z → W → option (W * option error))
    (log : W → calls) : Prop := {
  obs_fn : ∀ t w w' e, fn t w = Some (w', e) →
    log w' = log w ++ [(Now env w, e)] ∧ Now env w <= Now env w';
  obs_owed : ∀ t w w' e d, fn t w = Some (w', e) → owed e = Some d → 0 <= d < 2 ^ 63;
  obs_wait : ∀ d w, log (wait env d w).1 = log w ∧ Now env w <= Now env (wait env d w).1;
  obs_after : ∀ d w, (wait env (Some d) w).2 = false → Now env w + d <= Now env (wait env (Some d) w).1;
  obs_get : ∀ f err k w, GetRetryParameters opt = Some f →
    log (f err k w).1 = log w ∧ Now env w <= Now env (f err k w).1
}.

Lemma pause_covers err elapsed waitTime d :
  as_NoSubscriber err = Some d → 0 <= d < 2 ^ 63 → 0 <= elapsed < 2 ^ 63 →
  d - elapsed <= pause err elapsed waitTime.
Proof.
  intros Herr Hd He. unfold pause. rewrite Herr, int64_id by (unfold in_int64; lia). lia.
Qed.

(** After the pause nothing is owed any more. *)
Lemma pause_due opt env fn (log : W → calls) timeout w w1 err waitTime t :
  observed opt env fn log →
  fn timeout w = Some (w1, Some err) →
  Now env w1 + Z.max 0 (pause err (time_Sub (Now env w1) (Now env w)) waitTime) <= t →
  due (log w1) t.
Proof.
  intros Hobs Hcall Ht.
  destruct (obs_fn _ _ _ _ Hobs _ _ _ _ Hcall) as [-> Ht1].
  apply due_snoc. simpl. intros d Hd.
  pose proof (obs_owed _ _ _ _ Hobs _ _ _ _ _ Hcall Hd) as Hr.
  assert (He : 0 <= time_Sub (Now env w1) (Now env w) < 2 ^ 63) by (unfold time_Sub; lia).
  pose proof (pause_covers err _ waitTime d Hd Hr He). unfold time_Sub in *. lia.
Qed.

Lemma retry_loop_paced fuel opt env fn (log : W → calls) captured timeout attempt w w' r :
  observed opt env fn log →
  paced (log w) → due (log w) (Now env w) →
  retry_loop fuel opt env fn captured timeout attempt w = Some (w', r) → paced (log w').
Proof.
  intros Hobs. revert captured timeout attempt w.
  induction fuel as [|fuel IH]; intros captured timeout attempt w Hp Hdue; simpl; [done|].
  destruct (fn timeout w) as [[w1 e]|] eqn:Hcall; simpl; [|done].
  assert (Hp1 : paced (log w1)).
  { destruct (obs_fn _ _ _ _ Hobs _ _ _ _ Hcall) as [-> _]. by apply paced_snoc. }
  destruct e as [err|]; [|naive_solver].
  assert (Hget : log (parameters opt captured err attempt w1).1.1 = log w1 ∧
                 Now env w1 <= Now env (parameters opt captured err attempt w1).1.1).
  { unfold parameters. destruct (GetRetryParameters opt) as [f|] eqn:Hf.
    - pose proof (obs_get _ _ _ _ Hobs f err attempt w1 Hf). by destruct (f err attempt w1).
    - destruct (getRetryWithBackoffParameters _ _ _ _); simpl; auto with lia. }
  destruct (parameters _ _ _ _ _) as [[w2 c] [[again t'] wt]]; simpl in *.
  destruct Hget as [Hlog2 Ht2]. rewrite <- Hlog2 in Hp1.
  destruct again; simpl; [|naive_solver].
  pose proof (pause_due opt env fn log timeout w w1 err wt) as Hpd.
  set (d := pause _ _ _) in *.
  pose proof (obs_wait _ _ _ _ Hobs (if d >? 0 then Some d else None) w2) as [Hlog3 Ht3].
  pose proof (obs_after _ _ _ _ Hobs d w2) as Hafter.
  assert (Hdone : (wait env (if d >? 0 then Some d else None) w2).2 = false →
    Now env w1 + Z.max 0 d <= Now env (wait env (if d >? 0 then Some d else None) w2).1).
  { destruct (Z.gtb_spec d 0); [intros ?%Hafter|]; lia. }
  destruct (wait env _ w2) as [w3 []]; simpl in *.
  - intros [= <- <-]. by rewrite Hlog3.
  - apply IH; rewrite Hlog3; [done|]. rewrite Hlog2. apply Hpd; auto.
Qed.
End pacing.

Section interceptor_lemmas.
Context `{StatusApi} {T : carried} {W message : Type} {C : Type}.
Abbreviation handler := (ClientRPCHandler (T := T) (W := W) (message := message) C).

(** One retry interceptor: its fuel, options and environment. *)
Record retrier : Type := MkRetrier {
  rt_fuel : nat;
  rt_opt : RetryOptions (W * option message);
  rt_env : C → Env (W * option message)
}.

Definition interceptor_of (r : retrier) : RPCInfo → handler → handler :=
  NewRPCRetryInterceptor (rt_fuel r) (rt_opt r) (rt_env r).

(** The caller's options, followed by timeouts only when the caller set none. *)
Definition extends (opts opts' : list (RequestOption T)) : Prop :=
  ∃ ts, opts' = opts ++ (WithRequestTimeout <$> ts) ∧ (requestTimeout opts ≠ 0 → ts = []).

(** [h1] and [h2] act alike on calls whose options extend [opts], made below a
    retry interceptor of a request with those options, or outside of all. *)
Definition agree (opts : list (RequestOption T)) (h1 h2 : handler) : Prop :=
  ∀ ctx req opts' w, from_option (λ t, t = requestTimeout opts) (opts' = opts) (callerTimeoutKey ctx) →
    extends opts opts' → h1 ctx req opts' w = h2 ctx req opts' w.

Lemma attemptOpts_extends opts opts' t :
  extends opts opts' → extends opts (attemptOpts opts' (requestTimeout opts) t).
Proof.
  intros (ts & -> & Hts). unfold attemptOpts.
  destruct (t >? 0), (Z.eqb_spec (requestTimeout opts) 0); simpl; try by exists ts.
  exists (ts ++ [t]). rewrite fmap_app, <- app_assoc. split; [done|]. intros Hne. by destruct Hne.
Qed.

Lemma retry_agree opts r info (h1 h2 : handler) :
  agree opts h1 h2 → agree opts (interceptor_of r info h1) (interceptor_of r info h2).
Proof.
  intros Hag ctx req opts' w Hctx Hext. unfold interceptor_of, NewRPCRetryInterceptor.
  assert (Ht : default (requestTimeout opts') (callerTimeoutKey ctx) = requestTimeout opts).
  { by destruct (callerTimeoutKey ctx); simpl in *; subst. }
  rewrite Ht. unfold retry.
  rewrite (retry_loop_ext (rt_fuel r) _ _ _
    (λ timeout '(w, _), '(w, (res, err)) ← h2 (MkCtx (Some (requestTimeout opts)) (rest ctx)) req
        (attemptOpts opts' (requestTimeout opts) timeout) w; Some ((w, res), err))); [done|].
  intros t [w1 res1]. rewrite Hag; [done|done|]. by apply attemptOpts_extends.
Qed.
End interceptor_lemmas.

(** ** Examples *)

Module RetryExample.
#[local] Existing Instances grpc_numbers example_status.


(** A clock and a log of calls. *)
Definition world : Type := Z * list (Z * option (error (H := grpc_numbers))).

Definition timeouts : Type := list Z.

Definition env : Env world :=
  MkEnv fst (λ d w, ((fst w + Z.max 0 (default 0 d), snd w), false)).

(** Every attempt takes 2 and finds no subscriber for a wait of 10. *)
Definition fn (timeout : Z) (w : world) : option (world * option (error (H := grpc_numbers))) :=
  let e := Some (NewNoSubscriberError (H := grpc_numbers) 10) in
  Some ((fst w + 2, snd w ++ [(fst w, e)]), e).

Definition opt : RetryOptions (H := grpc_numbers) world := MkRetryOptions 3 5 1 None None.

Definition log_env : Env timeouts := MkEnv (λ _, 0) (λ _ w, (w, false)).

Definition log_opt : RetryOptions (H := grpc_numbers) timeouts := MkRetryOptions 3 5 1 None None.

Definition log_fn (timeout : Z) (w : timeouts) : option (timeouts * option (error (H := grpc_numbers))) :=
  Some (w ++ [timeout], Some (ErrRequestTimedOut (H := grpc_numbers))).
End RetryExample.

(** ** Properties *)

(** C38: with the default parameters and a positive [MaxAttempts], [retry] is exactly
    the sequence of at most [MaxAttempts] attempts, and that much fuel runs it to its
    end: it never runs for ever by itself. *)
Theorem retry_default_total `{StatusApi} {W} (opt : RetryOptions W) (env : Env W)
    (fn : Z → W → option (W * option error)) (fuel : nat) (w : W)
    (Hdefault : GetRetryParameters opt = None)
    (Hmax : 1 <= MaxAttempts opt < 2 ^ 63) (Hfuel : MaxAttempts opt <= Z.of_nat fuel) :
  retry fuel opt env fn w
  = attempts (Z.to_nat (MaxAttempts opt - 1)) opt env fn (Timeout opt) w.
Proof. apply retry_loop_attempts; unfold in_int64; try done; lia. Qed.

(** With the default parameters, the attempts are made with the timeouts
    [Timeout], [Timeout + Backoff], [Timeout + 2 Backoff] and so on, each once, at
    least one and at most [MaxAttempts] of them; and [retry] hands back a recoverable
    error only after all of them, unless the caller gave up in between. *)
Theorem retry_attempt_timeouts `{StatusApi} {W} (opt : RetryOptions W) (env : Env W)
    (fn : Z → W → option (W * option error)) (log : W → list Z) (fuel : nat) (w w' : W)
    (r : option error)
    (Hfn : ∀ t w w' e, fn t w = Some (w', e) → log w' = log w ++ [t])
    (Hwait : ∀ d w, log (wait env d w).1 = log w)
    (Hdefault : GetRetryParameters opt = None) (Htimeout : in_int64 (Timeout opt))
    (Hmax : 1 <= MaxAttempts opt < 2 ^ 63) (Hfuel : MaxAttempts opt <= Z.of_nat fuel)
    (Hrun : retry fuel opt env fn w = Some (w', r)) :
  ∃ k, 1 <= Z.of_nat k <= MaxAttempts opt ∧
    log w' = log w ++ schedule opt (Timeout opt) k ∧
    ((∀ d w, (wait env d w).2 = false) → from_option (isRecoverable opt) false r = true →
     Z.of_nat k = MaxAttempts opt).
Proof.
  unfold retry in Hrun.
  erewrite (retry_loop_attempts _ _ _ (Z.to_nat (MaxAttempts opt - 1))) in Hrun
    by (unfold in_int64; first [done | lia]).
  destruct (attempts_schedule log _ _ _ _ _ _ _ _ Hfn Hwait Htimeout Hrun) as (k & Hk & Hlog & Hlast).
  exists k. split_and!; [lia|lia|done|]. intros H1 H2. specialize (Hlast H1 H2). lia.
Qed.

(** Retries are paced: whatever the retry parameters, when an attempt ends in a
    [NoSubscriberError], the next one begins no earlier than [Wait] after that attempt
    began, as if the broker had let it wait. *)
Theorem retry_no_subscriber_paced `{StatusApi} {W} (opt : RetryOptions W) (env : Env W)
    (fn : Z → W → option (W * option error)) (log : W → list (Z * option error))
    (fuel : nat) (w w' : W) (r : option error)
    (Hobs : observed opt env fn log) (Hlog : log w = [])
    (Hrun : retry fuel opt env fn w = Some (w', r)) :
  ∀ i s1 e1 s2 e2 d, log w' !! i = Some (s1, Some e1) → log w' !! (S i) = Some (s2, e2) →
    as_NoSubscriber e1 = Some d → s1 + d <= s2.
Proof.
  intros i s1 e1 s2 e2 d H1 H2 Hd.
  refine (retry_loop_paced _ _ _ _ _ _ _ _ _ _ _ Hobs _ _ Hrun i _ _ _ _ _ H1 H2 Hd);
    rewrite Hlog; [intros ???????; by rewrite lookup_nil|intros ???; done].
Qed.

(** A timeout the caller sets wins over every retry interceptor of a stack: the
    innermost handler is only ever called with the caller's options as they are; when
    the caller sets none, with the caller's options followed by timeouts and nothing
    else, so that its selection and its interceptors are those of the caller.
    (Handlers that agree on such calls make stacks that agree.) *)
Theorem retry_stack_options `{StatusApi} {T : carried} {W message C : Type}
    (stack : list (retrier (W := W) (message := message) (C := C))) (i : RequestInfo)
    (opts : list (RequestOption T)) (h1 h2 : ClientRPCHandler (T := T) C)
    (Hagree : agree opts h1 h2) (c : C) (req : message) (w : W) :
  ChainClientInterceptors (interceptor_of <$> stack) i h1 (MkCtx None c) req opts w
  = ChainClientInterceptors (interceptor_of <$> stack) i h2 (MkCtx None c) req opts w.
Proof.
  assert (Hchain : agree opts (ChainClientInterceptors (interceptor_of <$> stack) i h1)
                              (ChainClientInterceptors (interceptor_of <$> stack) i h2)).
  { unfold ChainClientInterceptors. rewrite <- fmap_reverse. revert h1 h2 Hagree.
    induction (reverse stack) as [|r rs IH]; intros h1 h2 Hagree; simpl; [done|].
    apply IH, retry_agree, Hagree. }
  apply Hchain; [done|]. exists []. rewrite app_nil_r. done.
Qed.

Section retry_witnesses.
#[local] Existing Instances grpc_numbers example_status.

Lemma retry_default_total_witness :
  retry 3 RetryExample.opt RetryExample.env RetryExample.fn (0, [])
  = attempts 2 RetryExample.opt RetryExample.env RetryExample.fn 5 (0, []).
Proof.
  apply (@retry_default_total grpc_numbers example_status); [reflexivity|vm_compute; split; congruence|].
  vm_compute. congruence.
Defined.

Lemma retry_attempt_timeouts_witness : ∃ k, 1 <= Z.of_nat k <= 3 ∧
  ([5; 6; 7] : list Z) = [] ++ schedule RetryExample.log_opt 5 k.
Proof.
  destruct (@retry_attempt_timeouts grpc_numbers example_status RetryExample.timeouts
    RetryExample.log_opt RetryExample.log_env RetryExample.log_fn (λ w, w) 3 [] [5; 6; 7]
    (Some (ErrRequestTimedOut (H := grpc_numbers)))) as (k & Hk & Hlog & _).
  - intros t w w' e. unfold RetryExample.log_fn. intros Heq. injection Heq as <- _. reflexivity.
  - reflexivity.
  - reflexivity.
  - unfold in_int64. simpl. lia.
  - simpl. lia.
  - simpl. lia.
  - reflexivity.
  - exists k. split; [exact Hk|exact Hlog].
Defined.

Lemma retry_no_subscriber_paced_witness : ∃ w' r,
  retry 3 RetryExample.opt RetryExample.env RetryExample.fn (0, []) = Some (w', r) ∧ 0 + 10 <= 10.
Proof.
  eexists _, _. split; [reflexivity|].
  refine (@retry_no_subscriber_paced grpc_numbers example_status RetryExample.world
    RetryExample.opt RetryExample.env RetryExample.fn snd 3 (0, []) _ _ _ _ _
    0%nat 0 (NewNoSubscriberError (H := grpc_numbers) 10) 10 _ 10 _ _ _).
  - constructor.
    + intros t [c l] w' e Heq. injection Heq as <- <-. simpl. split; [reflexivity|lia].
    + intros t [c l] w' e d Heq. injection Heq as <- <-. simpl. intros Hd. injection Hd as <-. lia.
    + intros d [c l]. simpl. split; [reflexivity|lia].
    + intros d [c l] _. simpl. lia.
    + intros f err k w Hf. discriminate Hf.
  - reflexivity.
  - vm_compute. reflexivity.
  - vm_compute. reflexivity.
  - vm_compute. reflexivity.
  - reflexivity.
Defined.

Lemma retry_stack_options_witness :
  let h1 : ClientRPCHandler (T := no_carried) (message := unit) unit := λ ctx req opts w,
    Some (w ++ [requestTimeout opts], (None, Some ErrRequestTimedOut)) in
  let h2 : ClientRPCHandler (T := no_carried) (message := unit) unit := λ ctx req opts w,
    Some (w ++ [7], (None, Some ErrRequestTimedOut)) in
  let r := MkRetrier (C := unit) 3 (MkRetryOptions 3 5 1 None None)
    (λ _, MkEnv (λ _, 0) (λ _ w, (w, false))) in
  let i := MkRequestInfo (MkRPCInfo "svc" "m" [] false) true true false in
  ChainClientInterceptors (interceptor_of <$> [r; r]) i h1 (MkCtx None tt) tt [WithRequestTimeout 7] []
  = ChainClientInterceptors (interceptor_of <$> [r; r]) i h2 (MkCtx None tt) tt [WithRequestTimeout 7] [].
Proof.
  intros h1 h2 r i. apply retry_stack_options.
  intros ctx req opts' w _ (ts & -> & Hts). rewrite (Hts ltac:(discriminate)). reflexivity.
Defined.
End retry_witnesses.
