(* ===== verification/Messages.v ===== *)
(** * Messages.v: the messages of the protocol ([src/internal/internal.proto])

    The Go types generated from it, as records; deprecated fields that nothing reads
    are left out. *)
From S2P Require Import Prelude Errors Bus Float32.

Record Request : Type := MkRequest {
  rq_RequestId : string;
  rq_ClientId : string;
  rq_SentAt : Z;
  rq_Expiry : Z;
  rq_Multi : bool;
  rq_Metadata : option (gmap string string);
  rq_RawRequest : bytes;
  rq_NoClaim : bool;
  rq_PerRequestReply : bool
}.

Record ClaimRequest : Type := MkClaimRequest {
  cq_RequestId : string;
  cq_ServerId : string;
  cq_Affinity : float32
}.

Record ClaimResponse : Type := MkClaimResponse {
  cr_RequestId : string;
  cr_ServerId : string
}.

#[export] Instance ClaimResponse_eq_dec : EqDecision ClaimResponse.
Proof. solve_decision. Defined.

Section with_any.
Context `{GrpcApi}.

Record Response : Type := MkResponse {
  rs_RequestId : string;
  rs_ServerId : string;
  rs_SentAt : Z;
  rs_Error : string;
  rs_Code : string;
  rs_RawResponse : bytes;
  rs_ErrorDetails : list Any
}.
End with_any.

Inductive Stream_body : Type :=
| Stream_Open (NodeId : string) (Metadata : gmap string string)
| Stream_Message (RawMessage : bytes)
| Stream_Ack
| Stream_Close (error code : string).

Record StreamMsg : Type := MkStreamMsg {
  sm_StreamId : string;
  sm_RequestId : string;
  sm_SentAt : Z;
  sm_Expiry : Z;
  sm_Body : Stream_body
}.
