(* ===== verification/Selection.v ===== *)
(** * Selection.v: how a client selects a server ([selectServerUntil] of
    [src/pkg/client/rpc.go])

    The loop is a step function on the loop's variables, fed with what the [select]
    statement takes next; a run is a list of such events, each with the time it is
    taken at.  [ctx.Done()] can be taken once the parent context is done or a timer
    armed by the loop has fired, which [scheduled] says. *)
From S2P Require Import Prelude Errors Bus Info Float32 Options Messages.

Section selection.
Context `{StatusApi}.

(** How selection ended: a server to grant, or a response instead of a claim. *)
Record selection : Type := MkSelection {
  sel_serverID : string;
  sel_res : option Response
}.

Definition no_selection : selection := MkSelection "" None.

(** The cases of the [select]. *)
Inductive event : Type :=
| EvClosed
| EvDone
| EvClaim (claim : ClaimRequest)
| EvResponse (res : Response).

(** The variables of the loop, with the times its timers are set for. *)
Record vars : Type := MkVars {
  v_shorted : bool;
  v_serverID : string;
  v_affinity : float32;
  v_claims : list Claim;
  v_claimCount : Z;
  v_resErr : option error;
  v_timers : list Z
}.

(** One turn of the loop: what it returns, or how it goes on. *)
Inductive turn : Type :=
| Return (sel : selection) (err : option error)
| Continue (v : vars).

(** Before the loop, entered at time [now]. *)
Definition init (opts : SelectionOpts) (now : Z) : vars :=
  MkVars false "" f32_zero [] 0 None
    (if AffinityTimeout opts >? 0 then [now + AffinityTimeout opts] else []).

(** The [if] on [MinimumAffinity]. *)
Definition acceptable (opts : SelectionOpts) (affinity : float32) : bool :=
  (f32_gt (MinimumAffinity opts) f32_zero && f32_ge affinity (MinimumAffinity opts))
  || f32_le (MinimumAffinity opts) f32_zero.

(** The [if] on [AcceptFirstAvailable] and [MaximumAffinity]. *)
Definition immediate (opts : SelectionOpts) (affinity : float32) : bool :=
  AcceptFirstAvailable opts
  || (f32_gt (MaximumAffinity opts) f32_zero && f32_ge affinity (MaximumAffinity opts)).

(** [strconv] of the number of claims in the error's text. *)
Context (itoa : Z → string).

Definition on_done (opts : SelectionOpts) (v : vars) : selection * option error :=
  match SelectionFunc opts with
  | Some f => let '(id, err) := f (v_claims v) in (MkSelection id None, err)
  | None =>
      if negb (bool_decide (v_serverID v = "")) then (MkSelection (v_serverID v) None, None)
      else
        match v_resErr v with
        | Some err => (no_selection, Some err)
        | None =>
            if v_claimCount v >? 0 then
              (no_selection, Some (NewErrorf Unavailable
                 ("no servers available (received " +:+ itoa (v_claimCount v) +:+ " responses)")))
            else (no_selection, Some ErrNoResponse)
        end
  end.

Definition on_claim (opts : SelectionOpts) (now : Z) (claim : ClaimRequest) (v : vars) : turn :=
  let count := int64 (v_claimCount v + 1) in
  if acceptable opts (cq_Affinity claim) then
    if immediate opts (cq_Affinity claim) then Return (MkSelection (cq_ServerId claim) None) None
    else
      let '(claims, serverID, affinity) :=
        match SelectionFunc opts with
        | Some _ =>
            (v_claims v ++ [MkClaim (cq_ServerId claim) (cq_Affinity claim)], v_serverID v, v_affinity v)
        | None =>
            if f32_gt (cq_Affinity claim) (v_affinity v)
            then (v_claims v, cq_ServerId claim, cq_Affinity claim)
            else (v_claims v, v_serverID v, v_affinity v)
        end in
      let short := (ShortCircuitTimeout opts >? 0) && negb (v_shorted v) in
      Continue (MkVars (v_shorted v || short) serverID affinity claims count (v_resErr v)
        (v_timers v ++ (if short then [now + ShortCircuitTimeout opts] else [])))
  else
    Continue (MkVars (v_shorted v) (v_serverID v) (v_affinity v) (v_claims v) count
      (v_resErr v) (v_timers v)).

Definition on_response (res : Response) (v : vars) : turn :=
  if bool_decide (rs_Error res = "") then Return (MkSelection "" (Some res)) None
  else Continue (MkVars (v_shorted v) (v_serverID v) (v_affinity v) (v_claims v)
    (v_claimCount v)
    (Some (NewErrorFromResponse (rs_Code res) (rs_Error res) (rs_ErrorDetails res))) (v_timers v)).

Definition turn_of (opts : SelectionOpts) (now : Z) (ev : event) (v : vars) : turn :=
  match ev with
  | EvClosed => Return no_selection (Some ErrClientClosed)
  | EvDone => let '(sel, err) := on_done opts v in Return sel err
  | EvClaim claim => on_claim opts now claim v
  | EvResponse res => on_response res v
  end.

(** The loop on the events it takes; [None] when they run out before it returns. *)
Fixpoint select_loop (opts : SelectionOpts) (evs : list (Z * event)) (v : vars)
    : option (selection * option error) :=
  match evs with
  | [] => None
  | (now, ev) :: evs =>
      match turn_of opts now ev v with
      | Return sel err => Some (sel, err)
      | Continue v => select_loop opts evs v
      end
  end.

Definition selectServerUntil (opts : SelectionOpts) (start : Z) (evs : list (Z * event))
    : option (selection * option error) :=
  select_loop opts evs (init opts start).

(** Events as time allows them: in order, and [ctx.Done()] only once the parent
    context, done at [parent], or a timer of the loop makes it ready. *)
Fixpoint scheduled (opts : SelectionOpts) (parent : option Z) (start : Z)
    (evs : list (Z * event)) (v : vars) : Prop :=
  match evs with
  | [] => True
  | (now, ev) :: evs =>
      start <= now ∧
      (ev = EvDone → from_option (λ t, t <= now) False parent ∨ Exists (λ t, t <= now) (v_timers v)) ∧
      match turn_of opts now ev v with
      | Return _ _ => True
      | Continue v => scheduled opts parent now evs v
      end
  end.

(** ** Reference *)

(** The claims among the events. *)
Definition claims_of (evs : list (Z * event)) : list ClaimRequest :=
  omap (λ e, match e.2 with EvClaim c => Some c | _ => None end) evs.

(** The error of the last response. *)
Definition last_error (evs : list (Z * event)) : option error :=
  last (omap (λ e, match e.2 with
    | EvResponse res =>
        if bool_decide (rs_Error res = "") then None
        else Some (NewErrorFromResponse (rs_Code res) (rs_Error res) (rs_ErrorDetails res))
    | _ => None end) evs).

(** The claims selection may settle on. *)
Definition eligible (opts : SelectionOpts) (c : ClaimRequest) : bool :=
  acceptable opts (cq_Affinity c) && f32_gt (cq_Affinity c) f32_zero.

(** [c] beats every eligible claim before it and is beaten by none after it. *)
Definition best (opts : SelectionOpts) (claims : list ClaimRequest) (c : ClaimRequest) : Prop :=
  ∃ l1 l2, claims = l1 ++ c :: l2 ∧ eligible opts c = true ∧
    (∀ c', c' ∈ l1 → eligible opts c' = true → f32_gt (cq_Affinity c) (cq_Affinity c') = true) ∧
    (∀ c', c' ∈ l2 → eligible opts c' = true → f32_gt (cq_Affinity c') (cq_Affinity c) = false).

(** Events that let the loop go on: claims that do not end it, and errors. *)
Definition goes_on (opts : SelectionOpts) (ev : event) : bool :=
  match ev with
  | EvClaim c => negb (acceptable opts (cq_Affinity c) && immediate opts (cq_Affinity c))
  | EvResponse res => negb (bool_decide (rs_Error res = ""))
  | _ => false
  end.
End selection.

(** ** Lemmas *)

Section selection_lemmas.
Context `{StatusApi} (itoa : Z → string) (opts : SelectionOpts).
Implicit Types (evs : list (Z * event)) (v : vars) (c : ClaimRequest).

(** The variables after events that let the loop go on. *)
Definition advance v (e : Z * event) : vars :=
  match turn_of itoa opts e.1 e.2 v with Continue v => v | Return _ _ => v end.

Lemma turn_goes_on now ev v :
  goes_on opts ev = true → turn_of itoa opts now ev v = Continue (advance v (now, ev)).
Proof.
  unfold advance. destruct ev as [| |c|res]; simpl; try done; unfold on_claim, on_response.
  - destruct (acceptable _ _), (immediate _ _); simpl; try done; intros _;
      destruct (SelectionFunc opts); [done|]; by destruct (f32_gt _ _).
  - by case_bool_decide.
Qed.

Lemma select_loop_app evs rest v :
  Forall (λ e, goes_on opts e.2 = true) evs →
  select_loop itoa opts (evs ++ rest) v = select_loop itoa opts rest (foldl advance v evs).
Proof.
  intros Hall. revert v. induction Hall as [|[now ev] evs Hev _ IH]; intros v; simpl; [done|].
  by rewrite (turn_goes_on now ev v Hev), IH.
Qed.

Lemma claims_of_app evs1 evs2 : claims_of (evs1 ++ evs2) = claims_of evs1 ++ claims_of evs2.
Proof. apply omap_app. Qed.

Lemma last_error_snoc evs now ev :
  goes_on opts ev = true →
  last_error (evs ++ [(now, ev)]) =
    match ev with
    | EvResponse res => Some (NewErrorFromResponse (rs_Code res) (rs_Error res) (rs_ErrorDetails res))
    | _ => last_error evs
    end.
Proof.
  intros Hgo. unfold last_error. rewrite omap_app.
  destruct ev as [| |c|res]; simpl in *; rewrite ?app_nil_r; try done.
  case_bool_decide; [done|]. by rewrite last_snoc.
Qed.

(** The first acceptable claim: when it is taken. *)
Definition first_acceptable evs : option Z :=
  head (omap (λ e, match e.2 with
    | EvClaim c => if acceptable opts (cq_Affinity c) then Some e.1 else None
    | _ => None end) evs).

Lemma first_acceptable_snoc evs now ev :
  first_acceptable (evs ++ [(now, ev)]) =
    match first_acceptable evs, ev with
    | Some t, _ => Some t
    | None, EvClaim c => if acceptable opts (cq_Affinity c) then Some now else None
    | None, _ => None
    end.
Proof.
  unfold first_acceptable. rewrite omap_app. destruct (omap _ evs); simpl; [|done].
  destruct ev; simpl; try done. by destruct (acceptable _ _).
Qed.

Definition short_timer evs : list Z :=
  match first_acceptable evs with
  | Some t => if ShortCircuitTimeout opts >? 0 then [t + ShortCircuitTimeout opts] else []
  | None => []
  end.

(** What the loop's variables hold after [evs], from time [start] on. *)
Record tracks (start : Z) evs v : Prop := {
  tr_count : v_claimCount v = int64 (Z.of_nat (length (claims_of evs)));
  tr_error : v_resErr v = last_error evs;
  tr_claims : v_claims v =
    match SelectionFunc opts with
    | Some _ => (λ c, MkClaim (cq_ServerId c) (cq_Affinity c)) <$>
        filter (λ c, acceptable opts (cq_Affinity c) = true) (claims_of evs)
    | None => []
    end;
  tr_best : SelectionFunc opts = None →
    (∃ c, best opts (claims_of evs) c ∧ v_serverID v = cq_ServerId c ∧ v_affinity v = cq_Affinity c) ∨
    (Forall (λ c, eligible opts c = false) (claims_of evs) ∧ v_serverID v = "" ∧ v_affinity v = f32_zero);
  tr_shorted : v_shorted v = (ShortCircuitTimeout opts >? 0) && bool_decide (is_Some (first_acceptable evs));
  tr_timers : v_timers v = v_timers (init opts start) ++ short_timer evs
}.

Lemma tracks_init start : tracks start [] (init opts start).
Proof.
  constructor; simpl; try done.
  - by destruct (SelectionFunc opts).
  - intros _. right. done.
  - by rewrite andb_false_r.
  - unfold short_timer. simpl. by rewrite app_nil_r.
Qed.

Lemma best_snoc_new claims c c' :
  best opts claims c → eligible opts c' = true → f32_gt (cq_Affinity c') (cq_Affinity c) = true →
  best opts (claims ++ [c']) c'.
Proof.
  intros (l1 & l2 & -> & Hc & Hl1 & Hl2) Hc' Hgt.
  exists (l1 ++ c :: l2), []. split_and!; [done|done| |by intros ? ?%elem_of_nil].
  intros d Hin Hd. apply elem_of_app in Hin as [Hin|[->|Hin]%elem_of_cons]; [|done|].
  - eapply f32_gt_trans; eauto.
  - specialize (Hl2 d Hin Hd). eapply f32_gt_ge_trans; [done|].
    apply f32_not_gt; [| |done].
    + unfold eligible in Hd. apply andb_prop in Hd as [_ Hd]. by destruct (f32_nan _ _ Hd).
    + by destruct (f32_nan _ _ Hgt).
Qed.

Lemma best_snoc_old claims c c' :
  best opts claims c →
  (eligible opts c' = true → f32_gt (cq_Affinity c') (cq_Affinity c) = false) →
  best opts (claims ++ [c']) c.
Proof.
  intros (l1 & l2 & -> & Hc & Hl1 & Hl2) Hc'.
  exists l1, (l2 ++ [c']). split_and!; [by rewrite <- app_assoc|done|done|].
  intros d Hin Hd. apply elem_of_app in Hin as [Hin| ->%list_elem_of_singleton]; auto.
Qed.

Lemma best_snoc_first claims c :
  Forall (λ c, eligible opts c = false) claims → eligible opts c = true →
  best opts (claims ++ [c]) c.
Proof.
  intros Hno Hc. exists claims, []. split_and!; [done|done| |by intros ? ?%elem_of_nil].
  intros d Hin Hd. rewrite Forall_forall in Hno. specialize (Hno d Hin). congruence.
Qed.

Lemma int64_S n : int64 (int64 (Z.of_nat n) + 1) = int64 (Z.of_nat (n + 1)).
Proof.
  unfold int64. f_equal.
  replace ((Z.of_nat n + 2 ^ 63) mod 2 ^ 64 - 2 ^ 63 + 1 + 2 ^ 63)
    with ((Z.of_nat n + 2 ^ 63) mod 2 ^ 64 + 1) by lia.
  rewrite Zplus_mod_idemp_l. f_equal. lia.
Qed.

(** The choice an acceptable claim makes keeps track of the best one. *)
Lemma tracks_choice claims v c :
  acceptable opts (cq_Affinity c) = true →
  (∃ b, best opts claims b ∧ v_serverID v = cq_ServerId b ∧ v_affinity v = cq_Affinity b) ∨
  (Forall (λ c, eligible opts c = false) claims ∧ v_serverID v = "" ∧ v_affinity v = f32_zero) →
  let '(id, aff) := if f32_gt (cq_Affinity c) (v_affinity v)
                    then (cq_ServerId c, cq_Affinity c) else (v_serverID v, v_affinity v) in
  (∃ b, best opts (claims ++ [c]) b ∧ id = cq_ServerId b ∧ aff = cq_Affinity b) ∨
  (Forall (λ c, eligible opts c = false) (claims ++ [c]) ∧ id = "" ∧ aff = f32_zero).
Proof.
  intros Hacc [(b & Hb & Hid & Haff)|(Hno & Hid & Haff)]; rewrite ?Hid, Haff;
    destruct (f32_gt _ _) eqn:Hgt.
  - left. exists c. split_and!; try done. eapply best_snoc_new; [done| |done].
    unfold eligible. rewrite Hacc. simpl. eapply f32_gt_trans; [done|].
    destruct Hb as (? & ? & _ & He & _). unfold eligible in He. by apply andb_prop in He as [_ He].
  - left. exists b. split_and!; try done. by apply best_snoc_old.
  - left. exists c. split_and!; try done. apply best_snoc_first; [done|].
    unfold eligible. by rewrite Hacc.
  - right. split_and!; try done. apply Forall_app. split; [done|].
    constructor; [|done]. unfold eligible. by rewrite Hgt, andb_false_r.
Qed.

Lemma tracks_step start evs v now ev :
  goes_on opts ev = true → tracks start evs v →
  tracks start (evs ++ [(now, ev)]) (advance v (now, ev)).
Proof.
  intros Hgo [Hcount Herr Hclaims Hbest Hshort Htimers].
  pose proof (last_error_snoc evs now ev Hgo) as Hlast. unfold advance. destruct ev as [| |c|res]; simpl in Hgo |- *; try done.
  - assert (Hcl : claims_of (evs ++ [(now, EvClaim c)]) = claims_of evs ++ [c])
      by (by rewrite claims_of_app).
    unfold on_claim. destruct (acceptable opts (cq_Affinity c)) eqn:Hacc.
    + destruct (immediate opts (cq_Affinity c)); [done|].
      pose proof (tracks_choice (claims_of evs) v c Hacc) as Hch.
      assert (Hfirst : is_Some (first_acceptable (evs ++ [(now, EvClaim c)]))).
      { rewrite first_acceptable_snoc, Hacc. destruct (first_acceptable evs); eauto. }
      assert (Hfil : filter (λ c, acceptable opts (cq_Affinity c) = true) (claims_of evs ++ [c])
        = filter (λ c, acceptable opts (cq_Affinity c) = true) (claims_of evs) ++ [c]).
      { by rewrite filter_app, filter_cons_True, filter_nil. }
      destruct (SelectionFunc opts) as [f|] eqn:Hf; rewrite ?Hf in *;
        [|specialize (Hch (Hbest eq_refl)); destruct (f32_gt _ _)];
        (constructor; simpl; rewrite ?Hcl, ?Hf;
         [ by rewrite Hcount, length_app, int64_S
         | by rewrite Hlast
         | by rewrite ?Hfil, ?fmap_app, ?Hclaims
         | intros ?; (done || exact Hch)
         | rewrite (bool_decide_eq_true_2 _ Hfirst), Hshort;
           by destruct (ShortCircuitTimeout opts >? 0), (bool_decide _)
         | rewrite Hshort, Htimers, <- app_assoc; unfold short_timer;
           rewrite first_acceptable_snoc, Hacc;
           destruct (first_acceptable evs), (ShortCircuitTimeout opts >? 0); simpl;
           by rewrite ?app_nil_r]).
    + assert (Hsame : first_acceptable (evs ++ [(now, EvClaim c)]) = first_acceptable evs).
      { rewrite first_acceptable_snoc, Hacc. by destruct (first_acceptable evs). }
      constructor; simpl; rewrite ?Hcl, ?Hsame.
      * by rewrite Hcount, length_app, int64_S.
      * by rewrite Hlast.
      * rewrite Hclaims. destruct (SelectionFunc opts); [|done].
        rewrite filter_app, filter_cons_False, filter_nil, app_nil_r; [done|congruence].
      * intros Hf. destruct (Hbest Hf) as [(b & Hb & ?)|(Hno & ?)].
        -- left. exists b. split; [|done]. apply best_snoc_old; [done|].
           unfold eligible. rewrite Hacc. done.
        -- right. split; [|done]. apply Forall_app. split; [done|].
           constructor; [|done]. unfold eligible. by rewrite Hacc.
      * done.
      * unfold short_timer in *. by rewrite Hsame, Htimers.
  - assert (Hcl : claims_of (evs ++ [(now, EvResponse res)]) = claims_of evs)
      by (rewrite claims_of_app; apply app_nil_r).
    assert (Hsame : first_acceptable (evs ++ [(now, EvResponse res)]) = first_acceptable evs).
    { rewrite first_acceptable_snoc. by destruct (first_acceptable evs). }
    apply negb_true_iff in Hgo. unfold on_response. rewrite Hgo.
    constructor; simpl; rewrite ?Hcl, ?Hsame; try done.
    unfold short_timer in *. by rewrite Hsame, Htimers.
Qed.

Lemma tracks_loop start evs :
  Forall (λ e, goes_on opts e.2 = true) evs →
  tracks start evs (foldl advance (init opts start) evs).
Proof.
  induction evs as [|[now ev] evs IH] using rev_ind; intros Hall; [apply tracks_init|].
  apply Forall_app in Hall as [Hall Hev]. rewrite foldl_app. simpl.
  apply tracks_step; [|auto]. by inversion Hev.
Qed.
End selection_lemmas.

Section run_lemmas.
Context `{StatusApi} (itoa : Z → string) (opts : SelectionOpts).
Implicit Types (evs : list (Z * event)) (v : vars).

(** A run up to [ctx.Done()]. *)
Lemma selection_at_done start evs t rest :
  Forall (λ e, goes_on opts e.2 = true) evs →
  ∃ v, tracks opts start evs v ∧
    selectServerUntil itoa opts start (evs ++ (t, EvDone) :: rest) = Some (on_done itoa opts v).
Proof.
  intros Hall. exists (foldl (advance itoa opts) (init opts start) evs).
  split; [by apply tracks_loop|]. unfold selectServerUntil. rewrite select_loop_app by done.
  simpl. by destruct (on_done _ _ _).
Qed.

(** What ends a run, after events that let it go on. *)
Lemma select_loop_inv evs v r :
  select_loop itoa opts evs v = Some r →
  ∃ evs1 now ev rest, evs = evs1 ++ (now, ev) :: rest ∧
    Forall (λ e, goes_on opts e.2 = true) evs1 ∧
    turn_of itoa opts now ev (foldl (advance itoa opts) v evs1) = Return r.1 r.2.
Proof.
  revert v. induction evs as [|[now ev] evs IH]; intros v; simpl; [done|].
  destruct (turn_of itoa opts now ev v) as [sel err|v'] eqn:Hturn.
  - intros [= <-]. by exists [], now, ev, evs.
  - intros (evs1 & now' & ev' & rest & -> & Hall & Hend)%IH.
    exists ((now, ev) :: evs1), now', ev', rest. split_and!; [done| |].
    + constructor; [|done]. simpl. destruct ev as [| |c|res]; simpl in *; try done.
      * by destruct (on_done _ _ _).
      * unfold on_claim in Hturn. destruct (acceptable _ _), (immediate _ _); done.
      * unfold on_response in Hturn. by case_bool_decide.
    + simpl. by rewrite <- Hend; unfold advance at 2; simpl; rewrite Hturn.
Qed.

Lemma scheduled_app parent start evs t v :
  Forall (λ e, goes_on opts e.2 = true) evs →
  scheduled itoa opts parent start (evs ++ [(t, EvDone)]) v ↔
    scheduled itoa opts parent start evs v ∧
    default start (last evs.*1) <= t ∧
    (from_option (λ d, d <= t) False parent ∨
     Exists (λ d, d <= t) (v_timers (foldl (advance itoa opts) v evs))).
Proof.
  intros Hall. revert start v. induction Hall as [|[now ev] evs Hev Hall IH]; intros start v.
  - simpl. destruct (on_done itoa opts v). tauto.
  - assert (Hlast : default start (last ((now, ev) :: evs).*1) = default now (last evs.*1))
      by (rewrite fmap_cons, last_cons; by destruct (last evs.*1)).
    rewrite Hlast. simpl app. simpl scheduled.
    rewrite (turn_goes_on itoa opts now ev v Hev), IH. simpl foldl.
    assert (ev ≠ EvDone) by (by intros ->). tauto.
Qed.
End run_lemmas.

(** ** Properties *)

(** C13: selection by affinity is right: when no claim ends it early and no selection
    function is set, the server granted is the earliest of those with the greatest
    affinity among the acceptable claims above zero; without one, the caller gets the
    last error response, or else an error that says whether any server bid. *)
Theorem select_best `{StatusApi} (itoa : Z → string) (opts : SelectionOpts) (start : Z)
    (evs rest : list (Z * event)) (t : Z)
    (Hall : Forall (λ e, goes_on opts e.2 = true) evs)
    (Hfunc : SelectionFunc opts = None)
    (Hids : Forall (λ c, cq_ServerId c ≠ "") (claims_of evs))
    (Hcount : Z.of_nat (length (claims_of evs)) < 2 ^ 63) :
  ∃ sel err, selectServerUntil itoa opts start (evs ++ (t, EvDone) :: rest) = Some (sel, err) ∧
    ((∃ c, best opts (claims_of evs) c ∧ sel = MkSelection (cq_ServerId c) None ∧ err = None) ∨
     (Forall (λ c, eligible opts c = false) (claims_of evs) ∧ sel = no_selection ∧
      match last_error evs, claims_of evs with
      | Some e, _ => err = Some e
      | None, [] => err = Some ErrNoResponse
      | None, _ :: _ => GetErrorCode err = (Unavailable, true)
      end)).
Proof.
  destruct (selection_at_done itoa opts start evs t rest Hall) as (v & [Hc He _ Hb _ _] & ->).
  unfold on_done. rewrite Hfunc. specialize (Hb Hfunc).
  destruct Hb as [(c & Hbest & -> & _)|(Hno & -> & _)].
  - assert (Hid : cq_ServerId c ≠ "").
    { destruct Hbest as (l1 & l2 & Heq & _). rewrite Heq in Hids.
      rewrite Forall_forall in Hids. apply Hids, elem_of_app. right. left. }
    rewrite bool_decide_eq_false_2 by done. simpl. eexists _, _. split; [done|]. left. by exists c.
  - simpl. rewrite He. destruct (last_error evs) as [e|]; [eexists _, _; split; [done|]; by right|].
    rewrite Hc, int64_id by (unfold in_int64; lia).
    destruct (claims_of evs) as [|c cs]; simpl; eexists _, _; (split; [done|]); by right.
Qed.

(** A claim that is acceptable, and either the first available (when that is what
    the caller asked for) or at the maximum affinity, ends the selection at once: it is
    granted whatever came before and whatever would come after. *)
Theorem select_immediate `{StatusApi} (itoa : Z → string) (opts : SelectionOpts) (start t : Z)
    (evs rest : list (Z * event)) (c : ClaimRequest)
    (Hall : Forall (λ e, goes_on opts e.2 = true) evs)
    (Hacc : acceptable opts (cq_Affinity c) = true)
    (Himm : immediate opts (cq_Affinity c) = true) :
  selectServerUntil itoa opts start (evs ++ (t, EvClaim c) :: rest)
  = Some (MkSelection (cq_ServerId c) None, None).
Proof.
  unfold selectServerUntil. rewrite select_loop_app by done. simpl. unfold on_claim.
  by rewrite Hacc, Himm.
Qed.

(** A selection function is given exactly the acceptable claims, in the order they
    came, when the wait is over, and its answer is the selection. *)
Theorem select_func `{StatusApi} (itoa : Z → string) (opts : SelectionOpts) (start t : Z)
    (evs rest : list (Z * event)) (f : list Claim → string * option error)
    (Hall : Forall (λ e, goes_on opts e.2 = true) evs)
    (Hfunc : SelectionFunc opts = Some f) :
  let claims := (λ c, MkClaim (cq_ServerId c) (cq_Affinity c)) <$>
    filter (λ c, acceptable opts (cq_Affinity c) = true) (claims_of evs) in
  selectServerUntil itoa opts start (evs ++ (t, EvDone) :: rest)
  = Some (MkSelection (f claims).1 None, (f claims).2).
Proof.
  destruct (selection_at_done itoa opts start evs t rest Hall) as (v & [_ _ Hcl _ _ _] & ->).
  unfold on_done. rewrite Hfunc in *. rewrite Hcl. cbn zeta. by destruct (f _).
Qed.

(** A selection is sound: whatever the events and their order, without a selection
    function a run that ends without an error hands back either a response without an
    error that arrived, or the server of an acceptable claim that arrived. *)
Theorem select_sound `{StatusApi} (itoa : Z → string) (opts : SelectionOpts) (start : Z)
    (evs : list (Z * event)) (sel : selection)
    (Hfunc : SelectionFunc opts = None)
    (Hrun : selectServerUntil itoa opts start evs = Some (sel, None)) :
  (∃ t res, (t, EvResponse res) ∈ evs ∧ rs_Error res = "" ∧ sel = MkSelection "" (Some res)) ∨
  (∃ t c, (t, EvClaim c) ∈ evs ∧ acceptable opts (cq_Affinity c) = true ∧
     sel = MkSelection (cq_ServerId c) None).
Proof.
  apply select_loop_inv in Hrun as (evs1 & now & ev & rest & -> & Hall & Hend). simpl in Hend.
  pose proof (tracks_loop itoa opts start evs1 Hall) as [_ _ _ Hb _ _]. specialize (Hb Hfunc).
  set (v := foldl _ _ _) in *. destruct ev as [| |c|res]; simpl in Hend; [done|..].
  - right. unfold on_done in Hend. rewrite Hfunc in Hend.
    destruct Hb as [(c & (l1 & l2 & Heq & Hel & _) & Hid & _)|(_ & Hid & _)]; rewrite Hid in Hend;
      [|simpl in Hend; destruct (v_resErr v), (v_claimCount v >? 0); simpl in Hend; done].
    assert (Hc : c ∈ claims_of evs1) by (rewrite Heq; apply elem_of_app; right; left).
    apply list_elem_of_omap in Hc as ([t ev] & Hin & Hev). destruct ev; simplify_eq/=.
    exists t, c. split; [apply elem_of_app; by left|].
    unfold eligible in Hel. apply andb_prop in Hel as [Hacc _]. split; [done|].
    case_bool_decide; simpl in Hend; [|by injection Hend].
    destruct (v_resErr v), (v_claimCount v >? 0); simpl in Hend; done.
  - right. unfold on_claim in Hend. destruct (acceptable opts (cq_Affinity c)) eqn:Hacc; [|done].
    destruct (immediate opts (cq_Affinity c)); [|rewrite Hfunc in Hend; by destruct (f32_gt _ _)].
    injection Hend as <-. exists now, c. split_and!; [|done|done].
    apply elem_of_app. right. left.
  - left. unfold on_response in Hend. case_bool_decide; [|done]. injection Hend as <-.
    exists now, res. split_and!; [|done|done]. apply elem_of_app. right. left.
Qed.

(** The deadlines of a selection are exactly those asked for: as long as nothing
    else ends it, it can be cut off at [t] when the caller's context is done, when
    [AffinityTimeout] has passed since it began, or when [ShortCircuitTimeout] has
    passed since the first acceptable claim, and at no other time; later claims do not
    move that. *)
Theorem select_deadlines `{StatusApi} (itoa : Z → string) (opts : SelectionOpts)
    (parent : option Z) (start t : Z) (evs : list (Z * event))
    (Hall : Forall (λ e, goes_on opts e.2 = true) evs) :
  scheduled itoa opts parent start (evs ++ [(t, EvDone)]) (init opts start) ↔
    scheduled itoa opts parent start evs (init opts start) ∧
    default start (last evs.*1) <= t ∧
    ((∃ d, parent = Some d ∧ d <= t) ∨
     (0 < AffinityTimeout opts ∧ start + AffinityTimeout opts <= t) ∨
     (∃ t0, first_acceptable opts evs = Some t0 ∧
        0 < ShortCircuitTimeout opts ∧ t0 + ShortCircuitTimeout opts <= t)).
Proof.
  rewrite scheduled_app by done.
  rewrite (tr_timers _ _ _ _ (tracks_loop itoa opts start evs Hall)), Exists_app. unfold short_timer. simpl.
  assert (Ha : Exists (λ d, d <= t)
      (if AffinityTimeout opts >? 0 then [start + AffinityTimeout opts] else [])
      ↔ 0 < AffinityTimeout opts ∧ start + AffinityTimeout opts <= t).
  { destruct (Z.gtb_spec (AffinityTimeout opts) 0); rewrite ?Exists_cons, Exists_nil; lia. }
  assert (Hs : Exists (λ d, d <= t) (match first_acceptable opts evs with
      | Some t0 => if ShortCircuitTimeout opts >? 0 then [t0 + ShortCircuitTimeout opts] else []
      | None => [] end)
      ↔ ∃ t0, first_acceptable opts evs = Some t0 ∧ 0 < ShortCircuitTimeout opts ∧
          t0 + ShortCircuitTimeout opts <= t).
  { destruct (first_acceptable opts evs) as [t0|]; [|rewrite Exists_nil; split; [done|by intros (? & [=] & _)]].
    destruct (Z.gtb_spec (ShortCircuitTimeout opts) 0); rewrite ?Exists_cons, Exists_nil;
      split; [intros [?|[]]; eauto|intros (? & [= <-] & ?); lia|done|intros (? & [= <-] & ?); lia]. }
  assert (Hp : from_option (λ d, d <= t) False parent ↔ ∃ d, parent = Some d ∧ d <= t).
  { destruct parent; simpl; split; [eauto|by intros (? & [= <-] & ?)|done|by intros (? & [=] & _)]. }
  by rewrite Ha, Hs, Hp.
Qed.

(** A bid of zero affinity is taken when the caller accepts the first available
    server and sets no minimum. *)
Theorem zero_affinity_accepted `{StatusApi} (itoa : Z → string) (start t : Z) (id server : string)
    (affinityTimeout short : Z) (rest : list (Z * event)) :
  selectServerUntil itoa (MkSelectionOpts f32_zero f32_zero true affinityTimeout short None) start
    ((t, EvClaim (MkClaimRequest id server f32_zero)) :: rest)
  = Some (MkSelection server None, None).
Proof. done. Qed.

Section selection_witnesses.
#[local] Existing Instances grpc_numbers example_status.

Definition example_opts : SelectionOpts :=
  MkSelectionOpts f32_zero f32_zero false Second (200 * Millisecond) None.

(** Bids of 1, 2 and 2, [b]'s being the first of the two best. *)
Definition f32_two : float32 := SpecFloat.S754_finite false 8388608 (-22).

Definition example_bids : list (Z * event) :=
  [(1, EvClaim (MkClaimRequest "REQ" "a" f32_one));
   (2, EvClaim (MkClaimRequest "REQ" "b" f32_two));
   (3, EvClaim (MkClaimRequest "REQ" "c" f32_two))].

Lemma select_best_witness : ∃ sel err,
  selectServerUntil (λ _, "3") example_opts 0 (example_bids ++ [(200000001, EvDone)]) = Some (sel, err).
Proof.
  destruct (select_best (λ _, "3") example_opts 0 example_bids [] 200000001) as (sel & err & Hsel & _).
  - repeat constructor.
  - reflexivity.
  - repeat constructor; discriminate.
  - reflexivity.
  - exists sel, err. exact Hsel.
Defined.

Lemma select_immediate_witness :
  selectServerUntil (λ _, "")
    (MkSelectionOpts f32_zero f32_two false Second 0 None) 0
    ([(1, EvClaim (MkClaimRequest "REQ" "a" f32_one))] ++
     (2, EvClaim (MkClaimRequest "REQ" "b" f32_two)) :: []) = Some (MkSelection "b" None, None).
Proof.
  refine (select_immediate (λ _, "") _ 0 2 _ [] (MkClaimRequest "REQ" "b" f32_two) _ _ _);
    [repeat constructor|reflexivity|reflexivity].
Defined.

Lemma select_func_witness :
  let f : list Claim → string * option error := λ cs,
    match cs with c :: _ => (cl_ServerID c, None) | [] => ("", Some ErrNoResponse) end in
  selectServerUntil (λ _, "") (MkSelectionOpts f32_two f32_zero false Second 0 (Some f)) 0
    (example_bids ++ (200000001, EvDone) :: []) = Some (MkSelection "b" None, None).
Proof.
  intros f. refine (select_func (λ _, "") _ 0 200000001 example_bids [] f _ _);
    [repeat constructor|reflexivity].
Defined.

Lemma select_sound_witness :
  selectServerUntil (λ _, "") example_opts 0 (example_bids ++ [(200000001, EvDone)])
    = Some (MkSelection "b" None, None) ∧
  ((∃ t res, (t, EvResponse res) ∈ example_bids ++ [(200000001, EvDone)] ∧
      rs_Error res = "" ∧ MkSelection "b" None = MkSelection "" (Some res)) ∨
   (∃ t c, (t, EvClaim c) ∈ example_bids ++ [(200000001, EvDone)] ∧
      acceptable example_opts (cq_Affinity c) = true ∧
      MkSelection "b" None = MkSelection (cq_ServerId c) None)).
Proof.
  split; [reflexivity|]. apply (select_sound (λ _, "") example_opts 0); reflexivity.
Defined.

Lemma select_deadlines_witness :
  scheduled (λ _, "") example_opts None 0 (example_bids ++ [(200000001, EvDone)]) (init example_opts 0).
Proof.
  apply select_deadlines; [repeat constructor|]. split_and!.
  - simpl. repeat split; (lia || discriminate).
  - simpl. lia.
  - right. right. exists 1. split_and!; [reflexivity|reflexivity|]. vm_compute. discriminate.
Defined.
End selection_witnesses.
