(* ===== verification/ClientRPC.v ===== *)
(** * ClientRPC.v: a single request of a client ([newRPC] and [RequestSingle] of
    [src/pkg/client/rpc.go])

    One call of the handler that [newRPC] returns is a machine: [newRPC_prepare] is
    the code up to the registration of the request's channels, [first_wait] the code
    after its publication, and [rpc_step] one turn of the loops that follow, fed with
    what their [select] takes.  [Router] runs such machines next to each other, on
    the channels they share with the client's read loop. *)
From S2P Require Import Prelude Errors Bus Info Interceptors Float32 Options Messages Selection.

(** [unansweredCode] and [unansweredResponse]. *)
Definition unansweredCode : string := "psrpc.unanswered".

Definition unansweredResponse `{GrpcApi} (subject : string) : Response :=
  MkResponse (PerRequestID subject) "" 0 "" unansweredCode [] [].

Section client.
Context `{GrpcApi} `{!StatusApi} `{!Codec} {T : carried}.

(** The part of an [RPCClient] that does not change: [ServiceDefinition] with the
    client's ID in it, the options, and whether the bus is an [InboxBus]. *)
Record RPCClient : Type := MkRPCClient {
  c_sd : ServiceDefinition;
  c_Opts : ClientOpts T;
  c_inbox : bool
}.

(** [NewRPCClient], the part that sets these; subscriptions are in [Router]. *)
Definition NewRPCClient (sd : ServiceDefinition) (inbox : bool) (opts : list (ClientOption T))
    : RPCClient :=
  let o := getClientOpts opts in
  let sd := if bool_decide (co_ClientID o = "") then sd
            else MkServiceDefinition (sd_Name sd) (co_ClientID o) (sd_Methods sd) in
  MkRPCClient sd o inbox.

Definition NewRPCClientWithStreams (sd : ServiceDefinition) (inbox : bool)
    (opts : list (ClientOption T)) : RPCClient :=
  NewRPCClient sd inbox (opts ++ [withStreams]).

(** ** Up to the publication *)

(** What the caller's context holds: its deadline and its outgoing metadata. *)
Record ctx : Type := MkCallerCtx {
  ctx_Deadline : option Z;
  ctx_Outgoing : option (gmap string string)
}.

(** A request under way: its options, its ID, and what the closure computed. *)
Record call : Type := MkCall {
  k_info : RequestInfo;
  k_opts : RequestOpts T;
  k_requestID : string;
  k_unansweredWait : Z;
  k_ResponseType : string
}.

(** The message published, the channel, and the reply channel on an inbox bus. *)
Record publication : Type := MkPublication {
  pb_channel : Channel;
  pb_reply : option Channel;
  pb_request : Request
}.

Definition expiry_of (c : ctx) (now timeout : Z) : Z :=
  match ctx_Deadline c with
  | Some deadline => if deadline <? now + timeout then deadline else now + timeout
  | None => now + timeout
  end.

(** [now0] and [now] are the two readings of the clock; [responseType] is the type
    parameter's full name. *)
Definition newRPC_prepare (c : RPCClient) (i : RequestInfo) (cx : ctx) (now0 now : Z)
    (requestID responseType : string) (request : message) (opts : list (RequestOption T))
    : result error (call * publication) :=
  let o := getRequestOpts (ctx_Deadline cx) now0 i (c_Opts c) opts in
  let so := ro_SelectionOpts o in
  if ri_Queue i &&
     ((match SelectionFunc so with Some _ => true | None => false end)
      || f32_gt (MinimumAffinity so) f32_zero || f32_gt (MaximumAffinity so) f32_zero)
  then Err (NewErrorf InvalidArgument
              (ri_Method i +:+ ": affinity selection is not valid on a queue rpc"))
  else
    match SerializePayload request with
    | Err e => Err (newError MalformedRequest e)
    | Ok b =>
        let expiry := expiry_of cx now (ro_Timeout o) in
        let req := MkRequest requestID (sd_ID (c_sd c)) (int64 now) (int64 expiry) false
                     (ctx_Outgoing cx) b (ri_Queue i) (c_inbox c) in
        let wait := time_Sub expiry now in
        let t := AffinityTimeout so in
        let wait := if ri_RequireClaim i && negb (ri_Queue i) && (t >? 0) && (t <? wait)
                    then t else wait in
        let reply := if c_inbox c
          then Some (GetResponseChannel (sd_Name (c_sd c))
                       (PerRequestClientID (sd_ID (c_sd c)) requestID))
          else None in
        Ok (MkCall i o requestID wait responseType, MkPublication (GetRPCChannel i) reply req)
    end.

(** ** After the publication *)

(** Where the request is: in [selectServerUntil], in the loop after it ([bids] says
    whether the loop still takes one), or returned. *)
Inductive pc : Type :=
| PSelect (v : vars)
| PWait (bids : bool)
| PReturned (res : result error message).

(** What a [select] of the request takes: a case of [selectServerUntil]'s, or the
    end of the request's context in the loop after it, with [ctx.Err()]. *)
Inductive rpc_event : Type :=
| Sel (ev : event)
| CtxDone (err : std_error).

Definition first_wait (k : call) (now : Z) : pc :=
  if ri_RequireClaim (k_info k) && ri_Queue (k_info k) then PWait true
  else if ri_RequireClaim (k_info k) then PSelect (init (ro_SelectionOpts (k_opts k)) now)
  else PWait false.

(** The publication of the request; [err] is what the bus answered. *)
Definition after_publish (k : call) (now : Z) (err : option error) : pc :=
  match err with
  | Some e => PReturned (Err (newError Internal e))
  | None => first_wait k now
  end.

Definition finish (k : call) (res : Response) : result error message :=
  if bool_decide (rs_Code res = unansweredCode) then Err (NewNoSubscriberError (k_unansweredWait k))
  else if negb (bool_decide (rs_Error res = "")) then
    Err (NewErrorFromResponse (rs_Code res) (rs_Error res) (rs_ErrorDetails res))
  else
    match DeserializePayload (k_ResponseType k) (rs_RawResponse res) with
    | Ok m => Ok m
    | Err e => Err (newError MalformedResponse e)
    end.

(** [grant]: the claim response published; [err] is what the bus answers. *)
Definition grant (k : call) (serverID : string) (err : option error)
    : ClaimResponse * option error :=
  (MkClaimResponse (k_requestID k) serverID, newError Internal <$> err).

(** A grant, and the loop after it. *)
Definition grant_then_wait (k : call) (serverID : string) (err : option error)
    : pc * list ClaimResponse :=
  let '(m, e) := grant k serverID err in
  (match e with Some e => PReturned (Err e) | None => PWait false end, [m]).

Definition after_select (k : call) (sel : selection) (selErr pubErr : option error)
    : pc * list ClaimResponse :=
  match selErr with
  | Some e => (PReturned (Err e), [])
  | None =>
      match sel_res sel with
      | Some res => (PReturned (finish k res), [])
      | None => grant_then_wait k (sel_serverID sel) pubErr
      end
  end.

(** The error of a context that ended. *)
Definition ctx_error (e : std_error) : error :=
  let err := EStd e in
  if Is_std ContextCanceled err then ErrRequestCanceled
  else if Is_std ContextDeadlineExceeded err then ErrRequestTimedOut
  else err.

Context (itoa : Z → string).

(** One turn at time [now]; [pubErr] is what the bus answers to a claim response
    published in it.  A case the [select] does not have leaves things as they are. *)
Definition rpc_step (k : call) (now : Z) (ev : rpc_event) (pubErr : option error) (p : pc)
    : pc * list ClaimResponse :=
  match p, ev with
  | PSelect v, Sel ev =>
      match turn_of itoa (ro_SelectionOpts (k_opts k)) now ev v with
      | Return sel err => after_select k sel err pubErr
      | Continue v => (PSelect v, [])
      end
  | PWait _, Sel (EvResponse res) => (PReturned (finish k res), [])
  | PWait true, Sel (EvClaim bid) => grant_then_wait k (cq_ServerId bid) pubErr
  | PWait _, CtxDone e => (PReturned (Err (ctx_error e)), [])
  | PWait _, Sel EvClosed => (PReturned (Err ErrClientClosed), [])
  | _, _ => (p, [])
  end.

(** The turns one after the other, with the claim responses published on the way. *)
Fixpoint rpc_run (k : call) (evs : list (Z * rpc_event * option error)) (p : pc)
    : pc * list ClaimResponse :=
  match evs with
  | [] => (p, [])
  | (now, ev, pubErr) :: evs =>
      let '(p, out) := rpc_step k now ev pubErr p in
      let '(p, outs) := rpc_run k evs p in
      (p, out ++ outs)
  end.
End client.
Arguments RPCClient T : clear implicits.
Arguments call {_} T.

(** ** [RequestSingle] *)

Section single.
Context `{GrpcApi} `{!StatusApi} `{!Codec} {W : Type}.

(** Interceptors and hooks act on a world; a handler that does not return is [None]. *)
Definition handler (R : Type) : Type := message → list R → W → option (W * (option message * option error)).

Context {T : carried}.

(** [run_request] and [run_response] call a hook, [run_rpc] applies an interceptor;
    [newRPC] is the innermost handler. *)
Context (run_request : ClientRequestHook T → message → RPCInfo → W → W)
  (run_response : ClientResponseHook T → message → RPCInfo →
                  option message → option error → W → W)
  (run_rpc : ClientRPCInterceptor T → RPCInfo → handler (RequestOption T) → handler (RequestOption T)).

(** The response asserted to the response type, the nil response when it is not. *)
Definition as_response (responseType : string) (res : option message) : option message :=
  m ← res; if bool_decide (FullName m = responseType) then Some m else None.

(** [None]: a panic, of [GetInfo] or of [getRequestInterceptors], or no return. *)
Definition RequestSingle (c : RPCClient T) (closed : bool) (rpc : string) (topic : list string)
    (deadline : option Z) (now : Z) (responseType : string) (request : message)
    (opts : list (RequestOption T)) (newRPC : RequestInfo → handler (RequestOption T)) (w : W)
    : option (W * (option message * option error)) :=
  if closed then Some (w, (None, Some ErrClientClosed))
  else
    i ← GetInfo (c_sd c) rpc topic;
    let w := foldl (λ w hook, run_request hook request (ri_RPCInfo i) w) w
               (co_RequestHooks (c_Opts c)) in
    reqInterceptors ← getRequestInterceptors as_rpc (co_RpcInterceptors (c_Opts c))
      (ro_Interceptors (getRequestOpts deadline now i (c_Opts c) opts));
    let handler := ChainClientInterceptors (run_rpc <$> reqInterceptors) i (newRPC i) in
    '(w, (res, err)) ← handler request opts w;
    let response := as_response responseType res in
    let w := foldl (λ w hook, run_response hook request (ri_RPCInfo i) response err w) w
               (co_ResponseHooks (c_Opts c)) in
    Some (w, (response, err)).
End single.

(** ** Lemmas *)

Section rpc_lemmas.
Context `{GrpcApi} `{!StatusApi} `{!Codec} {T : carried} (itoa : Z → string).
Implicit Types (k : call T) (p : pc) (evs : list (Z * rpc_event * option error)).

(** The servers whose claims are among the events. *)
Definition bidders evs : list string :=
  omap (λ e, match e.1.2 with Sel (EvClaim c) => Some (cq_ServerId c) | _ => None end) evs.

Lemma rpc_run_app k evs1 evs2 p :
  rpc_run itoa k (evs1 ++ evs2) p =
    let '(p1, out1) := rpc_run itoa k evs1 p in
    let '(p2, out2) := rpc_run itoa k evs2 p1 in (p2, out1 ++ out2).
Proof.
  revert p. induction evs1 as [|[[now ev] e] evs1 IH]; intros p; simpl.
  - by destruct (rpc_run itoa k evs2 p).
  - destruct (rpc_step itoa k now ev e p) as [p1 o1]. rewrite IH.
    destruct (rpc_run itoa k evs1 p1) as [p2 o2], (rpc_run itoa k evs2 p2) as [p3 o3].
    by rewrite app_assoc.
Qed.

(** A selection in progress names nobody, or a bidder. *)
Definition known_server k (seen : list string) p : Prop :=
  match p with
  | PSelect v => v_serverID v = "" ∨ v_serverID v ∈ seen
  | _ => True
  end.

(** No claim response is published once the request has left its selection, except
    for the one bid a queue rpc takes. *)
Definition may_grant k p : bool :=
  match p with PSelect _ | PWait true => true | _ => false end.

Lemma rpc_step_grants k seen now ev e p p' out :
  SelectionFunc (ro_SelectionOpts (k_opts k)) = None →
  known_server k seen p → rpc_step itoa k now ev e p = (p', out) →
  known_server k (seen ++ bidders [(now, ev, e)]) p' ∧
  (out = [] ∨ (may_grant k p = true ∧ may_grant k p' = false ∧ ∃ server,
     out = [MkClaimResponse (k_requestID k) server] ∧ server ∈ seen ++ bidders [(now, ev, e)])).
Proof.
  intros Hf Hk. destruct p as [v|bids|res]; simpl.
  - destruct ev as [ev|err]; [|intros [= <- <-]; simpl; rewrite app_nil_r; auto].
    destruct ev as [| |c|res]; simpl.
    + intros [= <- <-]. split; [done|by left].
    + unfold on_done, after_select. rewrite Hf. simpl in Hk. rewrite app_nil_r.
      destruct (bool_decide_reflect (v_serverID v = "")); simpl;
        [destruct (v_resErr v), (v_claimCount v >? 0); intros [= <- <-]; (split; [done|by left])|].
      destruct Hk as [|Hk]; [done|]. destruct e; intros [= <- <-]; simpl; (split; [done|]);
        right; eauto 10.
    + unfold on_claim. rewrite Hf. simpl in Hk.
      assert (Hin : cq_ServerId c ∈ seen ++ [cq_ServerId c]) by set_solver.
      destruct (acceptable (ro_SelectionOpts (k_opts k)) (cq_Affinity c)),
        (immediate (ro_SelectionOpts (k_opts k)) (cq_Affinity c)),
        (f32_gt (cq_Affinity c) (v_affinity v)), e; simpl;
        intros [= <- <-]; simpl; try (split; [set_solver|by left]);
        (split; [done|]); right; eauto 10.
    + unfold on_response. case_bool_decide; intros [= <- <-]; simpl; rewrite ?app_nil_r; (split; [done|by left]).
  - destruct bids, ev as [[| |c|res]|err]; simpl; try (intros [= <- <-]; split; [done|by left]).
    destruct e; intros [= <- <-]; simpl; (split; [done|]); right; split_and!; try done;
      eexists; split; [done| |done|]; set_solver.
  - intros [= <- <-]. split; [done|by left].
Qed.

Lemma rpc_run_returned k evs res : rpc_run itoa k evs (PReturned res) = (PReturned res, []).
Proof.
  induction evs as [|[[now ev] e] evs IH]; simpl; [done|]. by rewrite IH.
Qed.

Lemma rpc_run_wait_false k evs : ∃ p, rpc_run itoa k evs (PWait false) = (p, []) ∧ may_grant k p = false.
Proof.
  induction evs as [|[[now ev] e] evs IH]; simpl; [by eauto|].
  destruct ev as [[| |c|res]|err]; simpl; rewrite ?rpc_run_returned; eauto;
    destruct IH as (p & -> & Hp); eauto.
Qed.

Lemma rpc_run_grants k evs seen p p' out :
  SelectionFunc (ro_SelectionOpts (k_opts k)) = None →
  known_server k seen p → rpc_run itoa k evs p = (p', out) →
  out = [] ∨ ∃ server, out = [MkClaimResponse (k_requestID k) server] ∧ server ∈ seen ++ bidders evs.
Proof.
  intros Hf. revert seen p p' out.
  induction evs as [|[[now ev] e] evs IH]; intros seen p p' out Hk.
  { intros [= <- <-]. auto. }
  assert (Happ : seen ++ bidders ((now, ev, e) :: evs) = (seen ++ bidders [(now, ev, e)]) ++ bidders evs).
  { rewrite <- app_assoc. f_equal. change ((now, ev, e) :: evs) with ([(now, ev, e)] ++ evs).
    unfold bidders. apply omap_app. }
  rewrite Happ. cbn [rpc_run]. destruct (rpc_step itoa k now ev e p) as [p1 o1] eqn:Hstep.
  destruct (rpc_step_grants k seen now ev e p p1 o1 Hf Hk Hstep) as [Hk1 Ho1].
  destruct Ho1 as [->|(_ & Hno & server & -> & Hin)].
  - destruct (rpc_run itoa k evs p1) as [p2 o2] eqn:Hrun. intros [= <- <-]. by eapply IH.
  - assert (Hnil : (rpc_run itoa k evs p1).2 = []).
    { destruct p1 as [v|[]|res]; simpl in Hno; try done.
      - by destruct (rpc_run_wait_false k evs) as (? & -> & _).
      - by rewrite rpc_run_returned. }
    destruct (rpc_run itoa k evs p1) as [p2 o2]. simpl in Hnil. subst o2. intros [= <- <-].
    right. exists server. split; [done|]. apply elem_of_app. by left.
Qed.

Lemma first_wait_known k now : known_server k [] (first_wait k now).
Proof. unfold first_wait. destruct (ri_RequireClaim _), (ri_Queue _); simpl; auto. Qed.

(** A step that returns without an error took a response that carries it. *)
Lemma rpc_step_success k now ev e p out m :
  rpc_step itoa k now ev e p = (PReturned (Ok m), out) →
  p = PReturned (Ok m) ∨
  ∃ res, ev = Sel (EvResponse res) ∧ out = [] ∧ rs_Error res = "" ∧ rs_Code res ≠ unansweredCode ∧
    DeserializePayload (k_ResponseType k) (rs_RawResponse res) = Ok m.
Proof.
  assert (Hfin : ∀ res, finish k res = Ok m → rs_Error res = "" ∧ rs_Code res ≠ unansweredCode ∧
    DeserializePayload (k_ResponseType k) (rs_RawResponse res) = Ok m).
  { intros res. unfold finish. repeat case_bool_decide; simpl; try done.
    by destruct (DeserializePayload _ _); intros [= ->]. }
  destruct p as [v|bids|r]; simpl.
  - destruct ev as [[| |c|res]|err]; simpl; [done|..|done].
    + unfold on_done, after_select, grant_then_wait. destruct (SelectionFunc _) as [f|].
      * destruct (f _) as [id []]; [done|]. simpl. by destruct e.
      * destruct (negb _), (v_resErr v), (v_claimCount v >? 0); simpl; try done; by destruct e.
    + unfold on_claim, after_select, grant_then_wait.
      destruct (acceptable _ _); [|done]. destruct (immediate _ _); simpl; [by destruct e|].
      destruct (SelectionFunc _); simpl; [done|]. by destruct (f32_gt _ _).
    + unfold on_response. case_bool_decide; simpl; [|done].
      intros [= Hm <-]. right. exists res. destruct (Hfin res Hm) as (?&?&?). done.
  - destruct bids, ev as [[| |c|res]|err]; simpl; unfold grant_then_wait; try done; try (by destruct e);
      intros [= Hm <-]; right; exists res; destruct (Hfin res Hm) as (?&?&?); done.
  - intros [= -> _]. by left.
Qed.

Lemma rpc_unanswered k now subject pubErr p :
  match p with PReturned _ => False | _ => True end →
  rpc_step itoa k now (Sel (EvResponse (unansweredResponse subject))) pubErr p
  = (PReturned (Err (NewNoSubscriberError (k_unansweredWait k))), []).
Proof. by destruct p as [v|[]|r]. Qed.
End rpc_lemmas.

(** ** Properties *)

(** A request grants at most one server, under its own ID, and only a server whose
    bid it took, whatever it receives and whatever the bus answers. *)
Theorem rpc_grants_one_bidder `{GrpcApi} `{!StatusApi} `{!Codec} {T : carried} (itoa : Z → string)
    (k : call T) (now : Z) (pubErr : option error) (evs : list (Z * rpc_event * option error))
    (p : pc) (grants : list ClaimResponse)
    (Hfunc : SelectionFunc (ro_SelectionOpts (k_opts k)) = None)
    (Hrun : rpc_run itoa k evs (after_publish k now pubErr) = (p, grants)) :
  grants = [] ∨
  ∃ server, grants = [MkClaimResponse (k_requestID k) server] ∧ server ∈ bidders evs.
Proof.
  apply (rpc_run_grants itoa k evs [] (after_publish k now pubErr) p grants Hfunc); [|done].
  destruct pubErr; simpl; [done|apply first_wait_known].
Qed.

(** A request succeeds only with what a server answered: the response it took has
    no error, is not the broker's report, and its payload is the message returned. *)
Theorem rpc_success_is_response `{GrpcApi} `{!StatusApi} `{!Codec} {T : carried} (itoa : Z → string)
    (k : call T) (now : Z) (pubErr : option error) (evs : list (Z * rpc_event * option error))
    (m : message) (grants : list ClaimResponse)
    (Hrun : rpc_run itoa k evs (after_publish k now pubErr) = (PReturned (Ok m), grants)) :
  ∃ t res e, (t, Sel (EvResponse res), e) ∈ evs ∧ rs_Error res = "" ∧
    rs_Code res ≠ unansweredCode ∧
    DeserializePayload (k_ResponseType k) (rs_RawResponse res) = Ok m.
Proof.
  assert (Hstart : after_publish k now pubErr ≠ PReturned (Ok m)).
  { unfold after_publish, first_wait. destruct pubErr; [done|]. by destruct (ri_RequireClaim _), (ri_Queue _). }
  revert Hstart grants Hrun. generalize (after_publish k now pubErr) as p.
  induction evs as [|[[t ev] e] evs IH]; intros p Hp grants; simpl.
  - intros [= -> _]. done.
  - destruct (rpc_step itoa k t ev e p) as [p1 o1] eqn:Hstep.
    destruct (rpc_run itoa k evs p1) as [p2 o2] eqn:Hrun. intros [= -> _].
    assert (Hcase : p1 = PReturned (Ok m) ∨ p1 ≠ PReturned (Ok m)).
    { destruct p1; try by right. rewrite rpc_run_returned in Hrun. injection Hrun as -> _. by left. }
    destruct Hcase as [->|Hp1].
    + destruct (rpc_step_success itoa k t ev e p o1 m Hstep) as [|(res & -> & _ & ?)]; [done|].
      exists t, res, e. split; [by left|done].
    + destruct (IH p1 Hp1 o2 Hrun) as (t' & res & e' & Hin & ?).
      exists t', res, e'. split; [by right|done].
Qed.

(** The broker's report of a request that nothing received ends that request: on a
    bus with inboxes, the report made for the reply channel the request was published
    with is routed to its ID, and wherever the request waits it then returns a
    [NoSubscriberError] that finds [ErrNoResponse], and whose [Wait] is not longer than
    the time left to the request's expiry. *)
Theorem unanswered_ends_request `{GrpcApi} `{!StatusApi} `{!Codec} {T : carried} (itoa : Z → string)
    (c : RPCClient T) (i : RequestInfo) (cx : ctx) (now0 now t : Z) (requestID responseType : string)
    (request : message) (opts : list (RequestOption T)) (k : call T) (pub : publication)
    (p : pc) (pubErr : option error)
    (Hinbox : c_inbox c = true) (Hdot : "."%char ∉ bytes_of requestID)
    (Hprep : newRPC_prepare c i cx now0 now requestID responseType request opts = Ok (k, pub))
    (Hwaits : match p with PReturned _ => False | _ => True end) :
  ∃ reply err, pb_reply pub = Some reply ∧
    rs_RequestId (unansweredResponse (ch_Server reply)) = rq_RequestId (pb_request pub) ∧
    rpc_step itoa k t (Sel (EvResponse (unansweredResponse (ch_Server reply)))) pubErr p
      = (PReturned (Err err), []) ∧
    Is PtrNoResponse err = true ∧ as_NoSubscriber err = Some (k_unansweredWait k) ∧
    k_unansweredWait k <= time_Sub (expiry_of cx now (ro_Timeout (k_opts k))) now.
Proof.
  unfold newRPC_prepare in Hprep. destruct (ri_Queue i && _); [done|].
  destruct (SerializePayload request) as [b|e]; [|done]. rewrite Hinbox in Hprep.
  injection Hprep as <- <-. eexists _, _. simpl. split; [done|]. split.
  { by apply PerRequestID_response_channel. }
  rewrite rpc_unanswered by done. split_and!; [done|done|done|].
  cbn [k_unansweredWait k_opts]. match goal with |- (if ?b then _ else _) <= _ => destruct b eqn:Hb end; [|done].
  apply andb_prop in Hb as [_ Hb]. apply Z.ltb_lt in Hb. by apply Z.lt_le_incl.
Qed.

Section rpc_witnesses.
#[local] Existing Instances grpc_numbers example_status.
#[local] Existing Instance Bus.Example.codec.

Definition example_client : RPCClient no_carried :=
  NewRPCClient (MkServiceDefinition "svc" "CLI_1" ∅) true [].

Definition example_rpc : RequestInfo := MkRequestInfo (MkRPCInfo "svc" "m" [] false) false true false.

Definition example_message : message := ("M", []).

Definition example_call : call no_carried :=
  MkCall example_rpc (getRequestOpts None 0 example_rpc (c_Opts example_client) []) "REQ_1" Second "T".

Lemma rpc_grants_one_bidder_witness :
  let evs := [(1, Sel (EvClaim (MkClaimRequest "REQ_1" "SRV_a" f32_one)), None)] in
  let r := rpc_run (λ _, "") example_call evs (after_publish example_call 0 None) in
  r = (PWait false, [MkClaimResponse "REQ_1" "SRV_a"]) ∧
  (r.2 = [] ∨ ∃ server, r.2 = [MkClaimResponse "REQ_1" server] ∧ server ∈ bidders evs).
Proof.
  intros evs r. split; [reflexivity|].
  apply (rpc_grants_one_bidder (λ _, "") example_call 0 None evs r.1); reflexivity.
Defined.

Lemma rpc_success_is_response_witness :
  let res := MkResponse "REQ_1" "SRV_a" 3 "" "" ["x"%char] [] in
  let evs : list (Z * rpc_event * option error) := [(5, Sel (EvResponse res), None)] in
  ∃ t r e, (t, Sel (EvResponse r), e) ∈ evs ∧ rs_Error r = "" ∧
    rs_Code r ≠ unansweredCode ∧
    DeserializePayload (k_ResponseType example_call) (rs_RawResponse r) = Ok ("T", ["x"%char]).
Proof.
  intros res evs.
  refine (rpc_success_is_response (λ _, "") example_call 0 None evs
    ("T", ["x"%char]) [] _). reflexivity.
Defined.

Lemma unanswered_ends_request_witness :
  ∃ k pub reply err,
    newRPC_prepare example_client example_rpc (MkCallerCtx None None) 0 0 "REQ_1" "T" example_message []
      = Ok (k, pub) ∧
    pb_reply pub = Some reply ∧ as_NoSubscriber err = Some (k_unansweredWait k).
Proof.
  eexists _, _.
  refine (match unanswered_ends_request (λ _, "") example_client example_rpc (MkCallerCtx None None)
    0 0 5 "REQ_1" "T" example_message [] _ _ (PWait false) None _ _ _ I with
    | ex_intro _ reply (ex_intro _ err H) => ex_intro _ reply (ex_intro _ err (conj _ (conj (proj1 H) (proj1 (proj2 (proj2 (proj2 (proj2 H)))))))) end).
  - reflexivity.
  - apply (bool_decide_unpack _). vm_compute. exact I.
  - reflexivity.
  - reflexivity.
Defined.
End rpc_witnesses.
