(* ===== verification/MultiRPC.v ===== *)
(** * MultiRPC.v: requests with many responses ([src/pkg/client/multi.go])

    [multiRPC.Send], the goroutine [handleResponses] that takes the responses the
    client's read loop routes to the request and hands them to the caller's channel,
    and its end.  A step is one receive or one send of the goroutine, of the read loop
    or of the caller, so that all interleavings are there. *)
From S2P Require Import Prelude Errors Bus Info Interceptors Float32 Options Messages ClientRPC.

Section multi.
Context `{GrpcApi} `{!StatusApi} `{!Codec} {T : carried}.

(** A [proto.Message] that is not nil: its dynamic type, and the message it points to,
    if it is not a nil pointer of that type. *)
Record proto_value : Type := MkValue { pv_type : string; pv_message : option message }.

(** What [Recv] and the response hooks are called with: a [proto.Message], which may be
    nil, and an error. *)
Record recv_args : Type := MkReceived { rv_msg : option proto_value; rv_err : option error }.

(** [psrpc.Response[ResponseType]]: the result, or a nil pointer, and the error. *)
Record mres : Type := MkMres { mr_Result : option message; mr_Err : option error }.

(** The interceptors' [Recv]: what they pass on for what they are given, [λ r, [r]]
    without any. *)
Context (recv_interceptors : recv_args → list recv_args).

(** What [proto.Unmarshal] leaves in the message when it fails. *)
Context (partial : string → bytes → message).

(** *** Send *)

(** The request [Send] publishes, or its error before it registers anything. *)
Definition multi_request (c : RPCClient T) (i : RequestInfo) (cx : ctx) (now0 now : Z)
    (requestID : string) (req : message) (opts : list (RequestOption T))
    : result error (RequestOpts T * (Channel * Request)) :=
  let o := getRequestOpts (ctx_Deadline cx) now0 i (c_Opts c) opts in
  match SerializePayload req with
  | Err e => Err (newError MalformedRequest e)
  | Ok b =>
      Ok (o, (GetRPCChannel i,
          MkRequest requestID (sd_ID (c_sd c)) (int64 now) (int64 (now + ro_Timeout o)) true
            (ctx_Outgoing cx) b false false))
  end.

(** What [Send] returns for the bus's answer to the publication. *)
Definition multi_sent (err : option error) : option error := newError Internal <$> err.

(** *** Responses *)

(** What a response is for the hooks and for [Recv]: the variable [v] has the type of the
    responses, also where it points to nothing or to what a failed decoding left. *)
Definition multi_response (responseType : string) (res : Response) : recv_args :=
  let v (m : option message) := Some (MkValue responseType m) in
  if bool_decide (rs_Error res = "") then
    match DeserializePayload responseType (rs_RawResponse res) with
    | Ok m => MkReceived (v (Some m)) None
    | Err e => MkReceived (v (Some (partial responseType (rs_RawResponse res)))) (Some (newError MalformedResponse e))
    end
  else MkReceived (v None) (Some (NewErrorFromResponse (rs_Code res) (rs_Error res) (rs_ErrorDetails res))).

(** The response that [Recv] sends: [None] when its assertion [msg.(ResponseType)] panics,
    on a nil interface or a message of another type. *)
Definition as_mres (responseType : string) (r : recv_args) : option mres :=
  v ← rv_msg r;
  if bool_decide (pv_type v = responseType) then Some (MkMres (pv_message v) (rv_err r)) else None.

(** Where [handleResponses] is: at its [select], in [Recv] with what is left to pass
    on, in [Close] before the unregistration or before the closing of the caller's
    channel, or returned. *)
Inductive mpc : Type :=
| MSelect
| MRecv (todo : list recv_args)
| MUnregister
| MCloseChan
| MReturned.

(** [m_in] is the channel registered, [m_out] the caller's.  [m_taken], [m_hooks] and
    [m_got] record what the goroutine took, the hooks were given and the caller got. *)
Record multi : Type := MkMulti {
  m_registered : bool;
  m_in : chan Response;
  m_out : chan mres;
  m_pc : mpc;
  m_closed : bool;
  m_taken : list Response;
  m_hooks : list recv_args;
  m_got : list mres
}.

(** Registered, and [handleResponses] started; both channels have the client's size. *)
Definition multi_start (size : nat) : multi :=
  MkMulti true (make_chan size) (make_chan size) MSelect false [] [] [].

(** A response routed to the request, a response taken, the timer or the context's end,
    the client's end taken by the [select] or by [Recv], a send of [Recv], the rest of
    [Close], the caller's receive, and the closing of the client.  Whichever case of its
    [select] it takes, [Recv] first makes the response. *)
Inductive mlabel : Type :=
| MRoute (res : Response)
| MTake
| MTimeout
| MTakeClosed
| MSend
| MClosing
| MReceive
| MClientClose.

Inductive moutcome : Type :=
| MNext (m : multi)
| MBlocked
| MPanic.

Definition with_mpc (m : multi) (p : mpc) : multi :=
  MkMulti (m_registered m) (m_in m) (m_out m) p (m_closed m) (m_taken m) (m_hooks m) (m_got m).

Definition multi_step (responseType : string) (l : mlabel) (m : multi) : moutcome :=
  match l with
  | MRoute res =>
      match chan_send (m_in m) res with
      | Sent c => MNext (MkMulti (m_registered m) c (m_out m) (m_pc m) (m_closed m)
                           (m_taken m) (m_hooks m) (m_got m))
      | SendBlocks => MBlocked
      | SendPanics => MPanic
      end
  | MTake =>
      match m_pc m, chan_recv (m_in m) with
      | MSelect, Received res c =>
          let r := multi_response responseType res in
          MNext (MkMulti (m_registered m) c (m_out m) (MRecv (recv_interceptors r)) (m_closed m)
            (m_taken m ++ [res]) (m_hooks m ++ [r]) (m_got m))
      | _, _ => MBlocked
      end
  | MTimeout => match m_pc m with MSelect => MNext (with_mpc m MUnregister) | _ => MBlocked end
  | MTakeClosed =>
      if m_closed m then
        match m_pc m with
        | MSelect => MNext (with_mpc m MUnregister)
        | MRecv (r :: todo) =>
            match as_mres responseType r with Some _ => MNext (with_mpc m (MRecv todo)) | None => MPanic end
        | _ => MBlocked
        end
      else MBlocked
  | MSend =>
      match m_pc m with
      | MRecv [] => MNext (with_mpc m MSelect)
      | MRecv (r :: todo) =>
          match as_mres responseType r with
          | None => MPanic
          | Some r =>
              match chan_send (m_out m) r with
              | Sent c => MNext (MkMulti (m_registered m) (m_in m) c (MRecv todo) (m_closed m)
                                   (m_taken m) (m_hooks m) (m_got m))
              | SendBlocks => MBlocked
              | SendPanics => MPanic
              end
          end
      | _ => MBlocked
      end
  | MClosing =>
      match m_pc m with
      | MUnregister =>
          MNext (MkMulti false (m_in m) (m_out m) MCloseChan (m_closed m) (m_taken m) (m_hooks m) (m_got m))
      | MCloseChan =>
          match chan_close (m_out m) with
          | Some c => MNext (MkMulti (m_registered m) (m_in m) c MReturned (m_closed m)
                               (m_taken m) (m_hooks m) (m_got m))
          | None => MPanic
          end
      | _ => MBlocked
      end
  | MReceive =>
      match chan_recv (m_out m) with
      | Received r c => MNext (MkMulti (m_registered m) (m_in m) c (m_pc m) (m_closed m)
                                 (m_taken m) (m_hooks m) (m_got m ++ [r]))
      | RecvClosed => MNext m
      | RecvBlocks => MBlocked
      end
  | MClientClose =>
      MNext (MkMulti (m_registered m) (m_in m) (m_out m) (m_pc m) true (m_taken m) (m_hooks m) (m_got m))
  end.

Fixpoint multi_run (responseType : string) (ls : list mlabel) (m : multi) : option multi :=
  match ls with
  | [] => Some m
  | l :: ls => match multi_step responseType l m with MNext m => multi_run responseType ls m | _ => None end
  end.
End multi.

(** ** [RequestMulti] *)

Section request_multi.
Context `{GrpcApi} `{!StatusApi} `{!Codec} {W : Type} {T : carried}.

(** [psrpc.ClientMultiRPCHandler]; a call that panics or does not return is [None]. *)
Record ClientMultiRPCHandler : Type := MkMultiHandler {
  h_Send : message → list (RequestOption T) → W → option (W * option error);
  h_Recv : option message → option error → W → option W;
  h_Close : W → option W
}.

Context (run_request : ClientRequestHook T → message → RPCInfo → W → W)
  (run_response : ClientResponseHook T → message → RPCInfo → option message → option error → W → W)
  (run_multi : ClientMultiRPCInterceptor T → RPCInfo → ClientMultiRPCHandler → ClientMultiRPCHandler).

(** [multiRPC.Send]: the request's channel is registered and [handleResponses] started
    ([start]) before the request is published, and stay when that fails. *)
Definition multi_Send (c : RPCClient T) (i : RequestInfo) (cx : ctx) (now : Z) (requestID : string)
    (start : RequestOpts T → W → W) (publish : Channel → Request → W → W * option error)
    (req : message) (opts : list (RequestOption T)) (w : W) : W * option error :=
  match multi_request c i cx now now requestID req opts with
  | Err e => (w, Some e)
  | Ok (o, (channel, ir)) =>
      let w := start o w in
      let '(w, err) := publish channel ir w in
      (w, multi_sent err)
  end.

(** The channel ([true]) or the error; [multiRPC] is the innermost handler. *)
Definition RequestMulti (c : RPCClient T) (closed : bool) (rpc : string) (topic : list string)
    (deadline : option Z) (now : Z) (request : message) (opts : list (RequestOption T))
    (multiRPC : RequestInfo → ClientMultiRPCHandler) (w : W) : option (W * result error bool) :=
  if closed then Some (w, Err ErrClientClosed)
  else
    i ← GetInfo (c_sd c) rpc topic;
    let w := foldl (λ w hook, run_request hook request (ri_RPCInfo i) w) w (co_RequestHooks (c_Opts c)) in
    reqInterceptors ← getRequestInterceptors as_multi (co_MultiRPCInterceptors (c_Opts c))
      (ro_Interceptors (getRequestOpts deadline now i (c_Opts c) opts));
    let handler := ChainClientInterceptors (run_multi <$> reqInterceptors) i (multiRPC i) in
    '(w, err) ← h_Send handler request opts w;
    match err with
    | Some e => Some (foldl (λ w hook, run_response hook request (ri_RPCInfo i) None (Some e) w) w (co_ResponseHooks (c_Opts c)), Err e)
    | None => Some (w, Ok true)
    end.

(** A request that returns a channel was sent by the chain of interceptors, after the
    request hooks and without a response hook; one that fails showed its error to each of
    them, once and in order. *)
Lemma RequestMulti_ends (c : RPCClient T) rpc topic deadline now request opts multiRPC w i ics w1 err :
  GetInfo (c_sd c) rpc topic = Some i →
  getRequestInterceptors as_multi (co_MultiRPCInterceptors (c_Opts c))
    (ro_Interceptors (getRequestOpts deadline now i (c_Opts c) opts)) = Some ics →
  h_Send (ChainClientInterceptors (run_multi <$> ics) i (multiRPC i)) request opts
    (foldl (λ w hook, run_request hook request (ri_RPCInfo i) w) w (co_RequestHooks (c_Opts c))) = Some (w1, err) →
  RequestMulti c false rpc topic deadline now request opts multiRPC w =
    Some (match err with
          | None => (w1, Ok true)
          | Some e => (foldl (λ w hook, run_response hook request (ri_RPCInfo i) None (Some e) w) w1 (co_ResponseHooks (c_Opts c)), Err e)
          end).
Proof. intros Hi Hics Hs. unfold RequestMulti. rewrite Hi. simpl. rewrite Hics. simpl. rewrite Hs. by destruct err. Qed.
End request_multi.

(** ** Lemmas *)

Section multi_lemmas.
Context `{GrpcApi} `{!StatusApi} `{!Codec} (recv_interceptors : recv_args → list recv_args)
  (partial : string → bytes → message) (responseType : string).
Implicit Types (m : multi) (l : mlabel).

(** The responses routed to the request. *)
Definition routed (ls : list mlabel) : list Response :=
  omap (λ l, match l with MRoute res => Some res | _ => None end) ls.

(** What the caller is due for the responses taken. *)
Definition due (taken : list Response) : list mres :=
  omap (as_mres responseType) (mjoin (recv_interceptors ∘ multi_response partial responseType <$> taken)).

(** What is on its way to the caller. *)
Definition on_the_way m : list mres :=
  m_got m ++ chan_buf (m_out m) ++ match m_pc m with MRecv todo => omap (as_mres responseType) todo | _ => [] end.

Definition returning m : bool := match m_pc m with MCloseChan | MReturned => true | _ => false end.

Record multi_inv m : Prop := {
  mi_in : chan_closed (m_in m) = false;
  mi_out : chan_closed (m_out m) = match m_pc m with MReturned => true | _ => false end;
  mi_registered : m_registered m = negb (returning m);
  mi_hooks : m_hooks m = multi_response partial responseType <$> m_taken m;
  mi_sublist : on_the_way m `sublist_of` due (m_taken m);
  mi_all : m_closed m = false → on_the_way m = due (m_taken m)
}.

Lemma due_next taken res :
  due (taken ++ [res]) = due taken ++ omap (as_mres responseType) (recv_interceptors (multi_response partial responseType res)).
Proof. unfold due. rewrite fmap_app, join_app, omap_app. simpl. by rewrite app_nil_r. Qed.

(** [Recv] has been given what is not of its response type. *)
Definition ill_typed m : Prop := ∃ r todo, m_pc m = MRecv (r :: todo) ∧ as_mres responseType r = None.

(** A step keeps the invariant; the only panic is that of [Recv]'s assertion. *)
Definition multi_ok m (o : moutcome) : Prop :=
  match o with MNext m' => multi_inv m' | MBlocked => True | MPanic => ill_typed m end.

(** Steps that leave what is on its way, and where the goroutine is, as they were. *)
Lemma multi_inv_same m m' :
  multi_inv m → chan_closed (m_in m') = false →
  chan_closed (m_out m') = (match m_pc m' with MReturned => true | _ => false end) →
  m_registered m' = negb (returning m') → m_hooks m' = m_hooks m → m_taken m' = m_taken m →
  on_the_way m' = on_the_way m → (m_closed m' = false → m_closed m = false) → multi_inv m'.
Proof.
  intros Hm Hin Hout Hreg Hh Ht Hw Hc. destruct Hm.
  split; rewrite ?Hh, ?Ht, ?Hw; auto.
Qed.

Lemma multi_step_ok l m : multi_inv m → multi_ok m (multi_step recv_interceptors partial responseType l m).
Proof.
  intros Hm. pose proof (mi_out m Hm) as Hout. pose proof (mi_registered m Hm) as Hreg.
  destruct l as [res| | | | | | |]; simpl.
  - unfold chan_send. rewrite (mi_in m Hm). destruct (_ <? _)%nat; [|done]. apply (multi_inv_same m); simpl; try done; apply Hm.
  - destruct (m_pc m) eqn:Hp; try done. destruct (chan_recv (m_in m)) as [res c| |] eqn:Hr; [|done..].
    assert (chan_closed c = false) as Hc.
    { pose proof (mi_in m Hm). unfold chan_recv in Hr. destruct (chan_buf (m_in m)); [by destruct (chan_closed (m_in m))|].
      by injection Hr as _ <-. }
    destruct Hm. unfold on_the_way in *. rewrite Hp, app_nil_r in *.
    split; unfold on_the_way; simpl; try done.
    + by rewrite Hreg; unfold returning; rewrite Hp.
    + by rewrite mi_hooks0, fmap_app.
    + rewrite due_next, (assoc_L (++)). by apply sublist_app.
    + intros Hcl. rewrite due_next, (assoc_L (++)). by rewrite mi_all0.
  - destruct (m_pc m) eqn:Hp; try done. apply (multi_inv_same m); simpl; try done; try apply Hm.
    + by rewrite Hreg; unfold returning; rewrite Hp.
    + unfold on_the_way. simpl. by rewrite Hp.
  - destruct (m_closed m) eqn:Hcl; [|done]. destruct (m_pc m) as [|[|r todo]| | |] eqn:Hp; try done.
    + apply (multi_inv_same m); simpl; try done; try apply Hm; [|unfold on_the_way; simpl; by rewrite Hp].
      by rewrite Hreg; unfold returning; rewrite Hp.
    + destruct (as_mres responseType r) as [x|] eqn:Hx; [|by exists r, todo].
      destruct Hm. unfold on_the_way in *. rewrite Hp in *. simpl in mi_sublist0, mi_all0. rewrite Hx in mi_sublist0, mi_all0.
      split; unfold on_the_way; simpl; try done; try congruence.
      * by rewrite Hreg; unfold returning; rewrite Hp.
      * etrans; [|exact mi_sublist0]. apply sublist_app; [done|]. apply sublist_app; [done|]. by apply sublist_cons.
  - destruct (m_pc m) as [|[|r todo]| | |] eqn:Hp; try done.
    + apply (multi_inv_same m); simpl; try done; try apply Hm; [|unfold on_the_way; simpl; by rewrite Hp].
      by rewrite Hreg; unfold returning; rewrite Hp.
    + destruct (as_mres responseType r) as [x|] eqn:Hx; [|by exists r, todo].
      unfold chan_send. rewrite Hout. destruct (_ <? _)%nat; [|done].
      apply (multi_inv_same m); simpl; try done; try apply Hm.
      * by rewrite Hreg; unfold returning; rewrite Hp.
      * unfold on_the_way. simpl. rewrite Hp. simpl. rewrite Hx, <- !(assoc_L (++)). done.
  - destruct (m_pc m) eqn:Hp; try done.
    + apply (multi_inv_same m); simpl; try done; try apply Hm. unfold on_the_way. simpl. by rewrite Hp.
    + unfold chan_close. rewrite Hout. apply (multi_inv_same m); simpl; try done; try apply Hm.
      * by rewrite Hreg; unfold returning; rewrite Hp.
      * unfold on_the_way. simpl. by rewrite Hp.
  - unfold chan_recv. destruct (chan_buf (m_out m)) as [|r rest] eqn:Hb; [by destruct (chan_closed _)|].
    apply (multi_inv_same m); simpl; try done; try apply Hm.
    unfold on_the_way. simpl. by rewrite Hb, <- !(assoc_L (++)).
  - by apply (multi_inv_same m); try apply Hm.
Qed.

Lemma multi_start_inv size : multi_inv (multi_start size).
Proof. by split. Qed.

Lemma multi_run_ok ls m m' :
  multi_inv m → multi_run recv_interceptors partial responseType ls m = Some m' → multi_inv m'.
Proof.
  revert m. induction ls as [|l ls IH]; intros m Hm Hr; simplify_eq/=; [done|].
  pose proof (multi_step_ok l m Hm). destruct (multi_step _ _ _ l m) as [m2| |]; [|done..]. by eapply IH.
Qed.

Lemma multi_step_routed l m m' : multi_step recv_interceptors partial responseType l m = MNext m' →
  m_taken m' ++ chan_buf (m_in m') = m_taken m ++ chan_buf (m_in m) ++ routed [l].
Proof.
  destruct l as [res| | | | | | |]; simpl; rewrite ?app_nil_r.
  - unfold chan_send. destruct (chan_closed _); [done|]. destruct (_ <? _)%nat; [|done]. by intros [= <-].
  - destruct (m_pc m); try done. unfold chan_recv.
    destruct (chan_buf (m_in m)) as [|res rest] eqn:Hb; [by destruct (chan_closed _)|]. intros [= <-]. simpl.
    by rewrite <- (assoc_L (++)).
  - destruct (m_pc m); try done. by intros [= <-].
  - destruct (m_closed m); [|done]. destruct (m_pc m) as [|[|r todo]| | |]; try done; [by intros [= <-]..|].
    destruct (as_mres _ r); [|done]. by intros [= <-].
  - destruct (m_pc m) as [|[|r todo]| | |]; try done; [by intros [= <-]|]. destruct (as_mres _ r); [|done].
    destruct (chan_send _ _); try done. by intros [= <-].
  - destruct (m_pc m); try done; [by intros [= <-]|]. destruct (chan_close _); [|done]. by intros [= <-].
  - destruct (chan_recv _); try done; by intros [= <-].
  - by intros [= <-].
Qed.

Lemma multi_run_routed ls m m' : multi_run recv_interceptors partial responseType ls m = Some m' →
  m_taken m' ++ chan_buf (m_in m') = m_taken m ++ chan_buf (m_in m) ++ routed ls.
Proof.
  revert m. induction ls as [|l ls IH]; intros m Hr; simpl in Hr; [injection Hr as <-; by rewrite app_nil_r|].
  destruct (multi_step _ _ _ l m) as [m2| |] eqn:Hs; [|done..].
  rewrite (IH m2 Hr), (assoc_L (++)), (multi_step_routed l m m2 Hs), <- !(assoc_L (++)).
  unfold routed. by rewrite <- omap_app.
Qed.

(** Interceptors that, given a message of the response type, pass on messages of it. *)
Definition typed_interceptors : Prop := ∀ r x,
  is_Some (as_mres responseType r) → x ∈ recv_interceptors r → is_Some (as_mres responseType x).

Definition typed_todo m : Prop := ∀ todo r, m_pc m = MRecv todo → r ∈ todo → is_Some (as_mres responseType r).

Lemma multi_response_typed res : is_Some (as_mres responseType (multi_response partial responseType res)).
Proof.
  unfold multi_response, as_mres. destruct (bool_decide (rs_Error res = "")); [destruct (DeserializePayload _ _)|];
    simpl; by rewrite bool_decide_eq_true_2.
Qed.

Lemma typed_shorter m r todo : typed_todo m → m_pc m = MRecv (r :: todo) → ∀ x, x ∈ todo → is_Some (as_mres responseType x).
Proof. intros Ht Hp x Hx. apply (Ht _ x Hp). by right. Qed.

Lemma multi_step_typed l m m' : typed_interceptors → typed_todo m → multi_step recv_interceptors partial responseType l m = MNext m' → typed_todo m'.
Proof.
  intros Hi Ht. pose proof (typed_shorter m) as Hshort. destruct l as [res| | | | | | |]; simpl.
  - destruct (chan_send _ _); try done. by intros [= <-].
  - destruct (m_pc m); try done. destruct (chan_recv (m_in m)); try done. intros [= <-] todo x [= <-] Hx.
    eapply Hi; [apply multi_response_typed|exact Hx].
  - destruct (m_pc m); try done. by intros [= <-].
  - destruct (m_closed m); [|done]. destruct (m_pc m) as [|[|r todo]| | |] eqn:Hp; try done; [by intros [= <-]..|].
    destruct (as_mres _ r); [|done]. intros [= <-] todo' x [= <-]. by eapply Hshort.
  - destruct (m_pc m) as [|[|r todo]| | |] eqn:Hp; try done; [by intros [= <-]|]. destruct (as_mres _ r); [|done].
    destruct (chan_send _ _); try done. intros [= <-] todo' x [= <-]. by eapply Hshort.
  - destruct (m_pc m); try done; [by intros [= <-]|]. destruct (chan_close _); [|done]. by intros [= <-].
  - destruct (chan_recv _); try done; by intros [= <-].
  - by intros [= <-].
Qed.

Lemma multi_run_typed ls m m' : typed_interceptors → typed_todo m → multi_run recv_interceptors partial responseType ls m = Some m' → typed_todo m'.
Proof.
  intros Hi. revert m. induction ls as [|l ls IH]; intros m Hm Hr; simplify_eq/=; [done|].
  destruct (multi_step _ _ _ l m) as [m2| |] eqn:Hs; [|done..]. apply (IH m2); [by eapply multi_step_typed|done].
Qed.
End multi_lemmas.

(** ** Properties *)

(** C37: a multi request hands its caller every response it takes, in order and decoded:
    what the caller got and what is on its way is what the interceptors pass on for the
    responses taken, all of it while the client is open; the responses taken are those
    routed to the request, in order, and the hooks saw each once.  The goroutine panics
    only in [Recv], on a message that an interceptor passed on and that is nil or not of
    the response type; so with interceptors that, given one, pass on messages of the
    response type, it never does.  The caller's channel is closed only once the request is
    unregistered. *)
Theorem multi_delivers `{GrpcApi} `{!StatusApi} `{!Codec} (recv_interceptors : recv_args → list recv_args)
    (partial : string → bytes → message) (responseType : string) (size : nat) (ls : list mlabel) (l : mlabel) (m : multi)
    (Hrun : multi_run recv_interceptors partial responseType ls (multi_start size) = Some m) :
  (multi_step recv_interceptors partial responseType l m = MPanic → ill_typed responseType m) ∧
  (typed_interceptors recv_interceptors responseType → multi_step recv_interceptors partial responseType l m ≠ MPanic) ∧
  on_the_way responseType m `sublist_of` due recv_interceptors partial responseType (m_taken m) ∧
  (m_closed m = false → on_the_way responseType m = due recv_interceptors partial responseType (m_taken m)) ∧
  m_hooks m = multi_response partial responseType <$> m_taken m ∧
  m_taken m ++ chan_buf (m_in m) = routed ls ∧
  (chan_closed (m_out m) = true → m_registered m = false).
Proof.
  pose proof (multi_run_ok recv_interceptors partial responseType ls _ m
    (multi_start_inv recv_interceptors partial responseType size) Hrun) as Hm.
  pose proof (multi_step_ok recv_interceptors partial responseType l m Hm) as Hok.
  split_and!; try apply Hm.
  - intros Hp. by rewrite Hp in Hok.
  - intros Hi Hp. rewrite Hp in Hok. destruct Hok as (r & todo & Hpc & Hr).
    destruct (multi_run_typed recv_interceptors partial responseType ls (multi_start size) m Hi) with (todo := r :: todo) (r := r) as [x Hx]; [done|done|done|by left|].
    by rewrite Hr in Hx.
  - by rewrite (multi_run_routed recv_interceptors partial responseType ls _ m Hrun).
  - rewrite (mi_out _ _ _ m Hm), (mi_registered _ _ _ m Hm). unfold returning. by destruct (m_pc m).
Qed.

(** An interceptor that passes on a nil message with an error it makes, as Go code often
    does, ends the process. *)
Lemma multi_nil_message_panics `{GrpcApi} `{!StatusApi} `{!Codec} (partial : string → bytes → message) (responseType : string)
    (res : Response) (e : error) :
  let drop_message := λ r : recv_args, [MkReceived None (Some e)] in
  ∃ m, multi_run drop_message partial responseType [MRoute res; MTake] (multi_start 1) = Some m ∧
    multi_step drop_message partial responseType MSend m = MPanic.
Proof. by eexists. Qed.

(** The timeout does not free a request whose caller does not read: with the caller's
    channel full, the goroutine stays in [Recv], registered, whatever time it is; only
    the caller or the closing of the client lets it go. *)
Theorem multi_waits_for_caller `{GrpcApi} `{!StatusApi} `{!Codec} (partial : string → bytes → message) (responseType : string) (m : multi)
    (r : recv_args) (todo : list recv_args) (l : mlabel) (m' : multi)
    (Hpc : m_pc m = MRecv (r :: todo)) (Hopen : m_closed m = false) (Hout : chan_closed (m_out m) = false)
    (Hfull : (chan_cap (m_out m) <= length (chan_buf (m_out m)))%nat)
    (Hl : l ≠ MReceive) (Hc : l ≠ MClientClose)
    (Hstep : multi_step (λ r, [r]) partial responseType l m = MNext m') :
  m_pc m' = m_pc m ∧ m_registered m' = m_registered m ∧ m_out m' = m_out m.
Proof.
  destruct l as [res| | | | | | |]; simpl in Hstep; rewrite ?Hpc, ?Hopen in Hstep; try done.
  - destruct (chan_send _ _); simplify_eq/=. done.
  - destruct (as_mres _ r); [|done]. unfold chan_send in Hstep. rewrite Hout in Hstep.
    rewrite (proj2 (Nat.ltb_ge _ _)) in Hstep by lia. done.
Qed.

Section multi_witness.
#[local] Existing Instances grpc_numbers example_status.
#[local] Existing Instance Bus.Example.codec.

Definition multi_answer : Response := MkResponse "REQ_1" "SRV_a" 0 "" "" [] [].

(** A message that is reset first and stays so. *)
Definition nothing_left (T : string) (_ : bytes) : message := (T, []).

Definition whole_multi : list mlabel :=
  [MRoute multi_answer; MTake; MSend; MSend; MReceive; MTimeout; MClosing; MClosing].

Lemma whole_multi_runs : ∃ m, multi_run (λ r, [r]) nothing_left "T" whole_multi (multi_start 1) = Some m ∧
  chan_closed (m_out m) = true ∧ m_closed m = false.
Proof.
  assert (from_option (λ m, chan_closed (m_out m) && negb (m_closed m)) false
    (multi_run (λ r, [r]) nothing_left "T" whole_multi (multi_start 1)) = true) as Ho by (vm_compute; reflexivity).
  destruct (multi_run (λ r, [r]) nothing_left "T" whole_multi (multi_start 1)) as [m|]; [|discriminate Ho].
  simpl in Ho. apply andb_prop in Ho as [Ho1 Ho2]. exists m. split; [reflexivity|]. split; [exact Ho1|].
  destruct (m_closed m); [discriminate Ho2|reflexivity].
Qed.

Lemma multi_delivers_witness : ∃ m, multi_run (λ r, [r]) nothing_left "T" whole_multi (multi_start 1) = Some m ∧
  multi_step (λ r, [r]) nothing_left "T" MTake m ≠ MPanic ∧
  on_the_way "T" m = due (λ r, [r]) nothing_left "T" (m_taken m) ∧ m_registered m = false.
Proof.
  destruct whole_multi_runs as (m & Hm & Hout & Hc). exists m. split; [exact Hm|].
  destruct (multi_delivers (λ r, [r]) nothing_left "T" 1 whole_multi MTake m Hm) as (_ & Hno & _ & Hall & _ & _ & Hreg).
  split; [apply Hno; intros r x Hr Hx; apply list_elem_of_singleton in Hx as ->; exact Hr|].
  split; [exact (Hall Hc)|exact (Hreg Hout)].
Defined.
End multi_witness.
