(* ===== verification/Subscription.v ===== *)
(** * Subscription.v: subscriptions of the bus ([src/pkg/bus/subscription.go],
    [empty.go], and [src/pkg/client/subscription.go])

    The goroutine that takes what a transport's reader has for a subscription, decodes
    it, and sends it on the subscription's channel, next to the calls of [Close] and the
    user who takes messages.  The transport's reader is a parameter in the labels: it
    has what was delivered to it, and its [Read] may return false once it was closed or
    its context is done. *)
From S2P Require Import Prelude Errors Bus Info Interceptors Float32 Options Messages Selection ClientRPC.

Section subscription.
Context `{Codec, !Gzip}.

(** Where [forward] is: in [Read], sending a message, in its deferred functions before
    the closing of [c] and of [complete], or over. *)
Inductive forwarder : Type :=
| FRead
| FSend (msg : message)
| FCloseC
| FComplete
| FOver.

(** A [Close]: before [closeOnce], in its function before [done] is closed, before the
    reader's [Close], before [complete], or returned. *)
Inductive closer : Type :=
| KOnce
| KDone
| KReader
| KWait
| KReturned (err : option error).

(** [closeOnce]: not begun, under way, over. *)
Inductive once : Type := ONot | ORunning | OOver.

(** [u_read], [u_taken]: what was read and taken since the start; [u_ended]: whether the
    reader's [Read] may return false. *)
Record subscription : Type := MkSubscription {
  u_queue : list (bytes * string);
  u_ended : bool;
  u_forward : forwarder;
  u_c : chan message;
  u_done : bool;
  u_once : once;
  u_closeErr : option error;
  u_closers : list closer;
  u_read : list (bytes * string);
  u_taken : list message
}.

(** [startSubscription]. *)
Definition startSubscription (size : nat) : subscription :=
  MkSubscription [] false FRead (make_chan size) false ONot None [] [] [].

(** Another [MessageType], its full name, and [unanswered], nil or not. *)
Context (MessageType : string) (unanswered : option (string → message)) (maxSize : Z).

(** What [forward] makes of what it read: [None] when it goes on reading. *)
Definition decode_bytes (b : bytes) : option message :=
  match Deserialize b maxSize with
  | Ok p => if bool_decide (FullName p = MessageType) then Some p else None
  | Err _ => None
  end.

Definition decode (r : bytes * string) : option message :=
  let '(b, subject) := r in
  match unanswered with
  | Some f => if (length b =? 0)%nat && bool_decide (subject ≠ "") then Some (f subject) else decode_bytes b
  | None => decode_bytes b
  end.

(** ** Steps *)

Definition set_forward (s : subscription) (f : forwarder) : subscription :=
  MkSubscription (u_queue s) (u_ended s) f (u_c s) (u_done s) (u_once s) (u_closeErr s) (u_closers s) (u_read s) (u_taken s).

Definition set_c (s : subscription) (c : chan message) : subscription :=
  MkSubscription (u_queue s) (u_ended s) (u_forward s) c (u_done s) (u_once s) (u_closeErr s) (u_closers s) (u_read s) (u_taken s).

Definition set_closer (s : subscription) (n : nat) (k : closer) : subscription :=
  MkSubscription (u_queue s) (u_ended s) (u_forward s) (u_c s) (u_done s) (u_once s) (u_closeErr s)
    (<[n := k]> (u_closers s)) (u_read s) (u_taken s).

(** The transport delivers; its reader's context ends; [forward] reads, finds the reader
    ended, sends, finds [done] closed, or runs a deferred function; a [Close] begins and
    goes on, with what the reader's [Close] returns; the user takes a message. *)
Inductive label : Type :=
| LDeliver (b : bytes) (subject : string)
| LContextDone
| LRead
| LEnd
| LSend
| LDone
| LDefer
| LClose
| LCloser (n : nat) (err : option error)
| LTake.

Inductive outcome : Type :=
| Next (s : subscription)
| Blocked
| Panic.

Definition forward_step (s : subscription) (l : label) : outcome :=
  match l, u_forward s with
  | LRead, FRead =>
      match u_queue s with
      | r :: queue =>
          Next (MkSubscription queue (u_ended s) (match decode r with Some msg => FSend msg | None => FRead end)
                  (u_c s) (u_done s) (u_once s) (u_closeErr s) (u_closers s) (u_read s ++ [r]) (u_taken s))
      | [] => Blocked
      end
  | LEnd, FRead => if u_ended s then Next (set_forward s FCloseC) else Blocked
  | LSend, FSend msg =>
      match chan_send (u_c s) msg with
      | Sent c => Next (set_forward (set_c s c) FRead)
      | SendBlocks => Blocked
      | SendPanics => Panic
      end
  | LDone, FSend _ => if u_done s then Next (set_forward s FCloseC) else Blocked
  | LDefer, FCloseC =>
      match chan_close (u_c s) with Some c => Next (set_forward (set_c s c) FComplete) | None => Panic end
  | LDefer, FComplete => Next (set_forward s FOver)
  | _, _ => Blocked
  end.

Definition closer_step (s : subscription) (n : nat) (k : closer) (err : option error) : outcome :=
  let set once done ended closeErr k :=
    Next (MkSubscription (u_queue s) ended (u_forward s) (u_c s) done once closeErr (<[n := k]> (u_closers s))
            (u_read s) (u_taken s)) in
  match k with
  | KOnce =>
      match u_once s with
      | ONot => set ORunning (u_done s) (u_ended s) (u_closeErr s) KDone
      | ORunning => Blocked
      | OOver => Next (set_closer s n (KReturned (u_closeErr s)))
      end
  | KDone => if u_done s then Panic else set (u_once s) true (u_ended s) (u_closeErr s) KReader
  | KReader => set (u_once s) (u_done s) true err KWait
  | KWait =>
      match u_forward s with
      | FOver => set OOver (u_done s) (u_ended s) (u_closeErr s) (KReturned (u_closeErr s))
      | _ => Blocked
      end
  | KReturned _ => Blocked
  end.

Definition step (l : label) (s : subscription) : outcome :=
  match l with
  | LDeliver b subject =>
      Next (MkSubscription (u_queue s ++ [(b, subject)]) (u_ended s) (u_forward s) (u_c s) (u_done s) (u_once s)
              (u_closeErr s) (u_closers s) (u_read s) (u_taken s))
  | LContextDone =>
      Next (MkSubscription (u_queue s) true (u_forward s) (u_c s) (u_done s) (u_once s) (u_closeErr s) (u_closers s)
              (u_read s) (u_taken s))
  | LRead | LEnd | LSend | LDone | LDefer => forward_step s l
  | LClose =>
      Next (MkSubscription (u_queue s) (u_ended s) (u_forward s) (u_c s) (u_done s) (u_once s) (u_closeErr s)
              (u_closers s ++ [KOnce]) (u_read s) (u_taken s))
  | LCloser n err => match u_closers s !! n with Some k => closer_step s n k err | None => Blocked end
  | LTake =>
      match chan_recv (u_c s) with
      | Received msg c =>
          Next (MkSubscription (u_queue s) (u_ended s) (u_forward s) c (u_done s) (u_once s) (u_closeErr s) (u_closers s)
                  (u_read s) (u_taken s ++ [msg]))
      | RecvClosed => Next s
      | RecvBlocks => Blocked
      end
  end.

Fixpoint run (ls : list label) (s : subscription) : option subscription :=
  match ls with
  | [] => Some s
  | l :: ls => match step l s with Next s => run ls s | _ => None end
  end.

(** ** Invariant *)

(** What the subscription made of what it read, but for the message in hand. *)
Definition forwarded (s : subscription) : list message := u_taken s ++ chan_buf (u_c s).

Definition in_once (k : closer) : Prop := match k with KDone | KReader | KWait => True | _ => False end.

Record sub_inv (s : subscription) : Prop := {
  ui_read : match u_forward s with
            | FRead => forwarded s = omap decode (u_read s)
            | FSend msg => forwarded s ++ [msg] = omap decode (u_read s)
            | _ => forwarded s = omap decode (u_read s) ∨
                   u_done s = true ∧ ∃ msg, forwarded s ++ [msg] = omap decode (u_read s)
            end;
  ui_c : chan_closed (u_c s) = match u_forward s with FComplete | FOver => true | _ => false end;
  ui_once n k : u_closers s !! n = Some k → in_once k → u_once s = ORunning;
  ui_unique n m k k' : u_closers s !! n = Some k → u_closers s !! m = Some k' → in_once k → in_once k' → n = m;
  ui_done : u_done s = true → u_once s ≠ ONot;
  ui_KDone n : u_closers s !! n = Some KDone → u_done s = false;
  ui_KReader n : u_closers s !! n = Some KReader → u_done s = true;
  ui_KWait n : u_closers s !! n = Some KWait → u_done s = true ∧ u_ended s = true;
  ui_over : u_once s = OOver → u_done s = true ∧ u_forward s = FOver;
  ui_returned n err : u_closers s !! n = Some (KReturned err) → u_once s = OOver ∧ err = u_closeErr s
}.

Definition outcome_ok (o : outcome) : Prop := match o with Next s => sub_inv s | Blocked => True | Panic => False end.

(** A step of [forward], of the transport or of the user. *)
Lemma forward_inv s s' :
  sub_inv s → u_closers s' = u_closers s → u_once s' = u_once s → u_done s' = u_done s → u_closeErr s' = u_closeErr s →
  (u_ended s = true → u_ended s' = true) → (u_forward s = FOver → u_forward s' = FOver) →
  match u_forward s' with
  | FRead => forwarded s' = omap decode (u_read s')
  | FSend msg => forwarded s' ++ [msg] = omap decode (u_read s')
  | _ => forwarded s' = omap decode (u_read s') ∨
         u_done s' = true ∧ ∃ msg, forwarded s' ++ [msg] = omap decode (u_read s')
  end →
  chan_closed (u_c s') = match u_forward s' with FComplete | FOver => true | _ => false end → sub_inv s'.
Proof.
  intros Hi Hk Ho Hd He Hen Hf Hr Hc. split; rewrite ?Hk, ?Ho, ?Hd, ?He; try apply Hi; [rewrite Hd in Hr; exact Hr|done| |].
  - intros n Hn. destruct (ui_KWait s Hi n Hn). auto.
  - intros Hov. destruct (ui_over s Hi Hov). auto.
Qed.

Lemma forward_step_inv s l : sub_inv s → outcome_ok (forward_step s l).
Proof.
  intros Hi. pose proof (ui_read s Hi) as Hr. pose proof (ui_c s Hi) as Hc. unfold forward_step.
  destruct l, (u_forward s) as [|msg| | |] eqn:Hf; try done.
  - destruct (u_queue s) as [|r queue]; [done|]. apply (forward_inv s); try done; simpl; [by rewrite Hf| |].
    + unfold forwarded in *. simpl. rewrite omap_app, <- Hr. simpl. destruct (decode r); [done|by rewrite app_nil_r].
    + by destruct (decode r).
  - destruct (u_ended s); [|done]. apply (forward_inv s); try done; simpl; [by rewrite Hf|by left].
  - unfold chan_send. rewrite Hc. destruct (_ <? _)%nat; [|done]. apply (forward_inv s); try done; simpl; [by rewrite Hf|].
    unfold forwarded in *. simpl. by rewrite (assoc_L (++)).
  - destruct (u_done s) eqn:Hd; [|done]. apply (forward_inv s); try done; simpl; [by rewrite Hf|right]. rewrite Hd. split; [done|by exists msg].
  - unfold chan_close. rewrite Hc. apply (forward_inv s); try done; simpl; by rewrite Hf.
  - apply (forward_inv s); try done; simpl.
Qed.

(** A step of a [Close]. *)
Lemma closer_step_inv s n k err : sub_inv s → u_closers s !! n = Some k →
  outcome_ok (closer_step s n k err).
Proof.
  intros Hi Hn. destruct Hi as [I1 I2 I3 I4 I5 I6 I7 I8 I9 I10].
  assert (Hread : ∀ done, (u_done s = true → done = true) → match u_forward s with
    | FRead => forwarded s = omap decode (u_read s)
    | FSend msg => forwarded s ++ [msg] = omap decode (u_read s)
    | _ => forwarded s = omap decode (u_read s) ∨ done = true ∧ ∃ msg, forwarded s ++ [msg] = omap decode (u_read s)
    end) by (intros d Hd; destruct (u_forward s); naive_solver).
  assert (Hother : in_once k → ∀ m k', m ≠ n → u_closers s !! m = Some k' → ¬ in_once k')
    by (intros Hk m k' Hne Hm Hk'; apply Hne; by apply (I4 m n k' k)).
  assert (Hth : ∀ m k' k2, <[n := k2]> (u_closers s) !! m = Some k' → (m = n ∧ k' = k2) ∨ (m ≠ n ∧ u_closers s !! m = Some k'))
    by (intros; by apply list_lookup_insert_cases).
  destruct k as [| | | |e]; simpl; [| | | |done].
  - destruct (u_once s) eqn:Ho; [|done|].
    + assert (Hnone : ∀ m k', u_closers s !! m = Some k' → ¬ in_once k') by (intros m k' Hm Hk'; by specialize (I3 m k' Hm Hk')).
      assert (Hret : ∀ m e, u_closers s !! m ≠ Some (KReturned e)) by (intros m e Hm; by destruct (I10 m e Hm)).
      split; simpl; try done.
      * intros m1 m2 k1 k2 [[-> ->]|[_ Hm1]]%Hth [[-> ->]|[_ Hm2]]%Hth Hi1 Hi2; [done|by destruct (Hnone m2 k2)|by destruct (Hnone m1 k1)|by destruct (Hnone m1 k1)].
      * intros m [[-> _]|[_ Hm]]%Hth; [|by destruct (Hnone m KDone)]. destruct (u_done s); [by specialize (I5 eq_refl)|done].
      * intros m [[_ ?]|[_ Hm]]%Hth; [done|by destruct (Hnone m KReader)].
      * intros m [[_ ?]|[_ Hm]]%Hth; [done|by destruct (Hnone m KWait)].
      * intros m e [[_ ?]|[_ Hm]]%Hth; [done|by destruct (Hret m e)].
    + split; simpl; try done; rewrite ?Ho; try done.
      * intros m k' [[_ ->]|[_ Hm]]%Hth Hk'; [done|by apply (I3 m k')].
      * intros m1 m2 k1 k2 [[-> ->]|[_ Hm1]]%Hth [[-> ->]|[_ Hm2]]%Hth Hi1 Hi2; [done..|by apply (I4 m1 m2 k1 k2)].
      * intros m [[_ ?]|[_ Hm]]%Hth; [done|by apply (I6 m)].
      * intros m [[_ ?]|[_ Hm]]%Hth; [done|by apply (I7 m)].
      * intros m [[_ ?]|[_ Hm]]%Hth; [done|by apply (I8 m)].
      * intros m e [[_ [= <-]]|[_ Hm]]%Hth; [done|]. destruct (I10 m e Hm). done.
  - pose proof (I3 n KDone Hn I) as Ho. rewrite (I6 n Hn). specialize (Hother I). split; simpl; try done.
    + by apply Hread.
    + intros m1 m2 k1 k2 [[-> ->]|[? Hm1]]%Hth [[-> ->]|[? Hm2]]%Hth Hi1 Hi2; [done|by destruct (Hother m2 k2)|by destruct (Hother m1 k1)|by apply (I4 m1 m2 k1 k2)].
    + by rewrite Ho.
    + intros m [[_ ?]|[? Hm]]%Hth; [done|by destruct (Hother m KDone)].
    + intros m [[_ ?]|[? Hm]]%Hth; [done|by destruct (Hother m KWait)].
    + by rewrite Ho.
    + intros m e [[_ ?]|[? Hm]]%Hth; [done|by apply (I10 m e)].
  - pose proof (I3 n KReader Hn I) as Ho. pose proof (I7 n Hn) as Hd. specialize (Hother I). split; simpl; try done.
    + intros m1 m2 k1 k2 [[-> ->]|[? Hm1]]%Hth [[-> ->]|[? Hm2]]%Hth Hi1 Hi2; [done|by destruct (Hother m2 k2)|by destruct (Hother m1 k1)|by apply (I4 m1 m2 k1 k2)].
    + intros m [[_ ?]|[? Hm]]%Hth; [done|by destruct (Hother m KDone)].
    + intros m e [[_ ?]|[? Hm]]%Hth; [done|]. destruct (I10 m e Hm) as [Hov _]. congruence.
  - pose proof (I3 n KWait Hn I) as Ho. destruct (I8 n Hn) as [Hd He]. specialize (Hother I).
    destruct (u_forward s) eqn:Hf; try done. split; simpl; rewrite ?Hf; try done.
    + intros m k' [[_ ->]|[? Hm]]%Hth Hk'; [done|by destruct (Hother m k')].
    + intros m1 m2 k1 k2 [[-> ->]|[? Hm1]]%Hth [[-> ->]|[? Hm2]]%Hth Hi1 Hi2; [done..|by destruct (Hother m1 k1)].
    + intros m [[_ ?]|[? Hm]]%Hth; [done|by destruct (Hother m KDone)].
    + intros m e [[_ [= <-]]|[? Hm]]%Hth; [done|]. destruct (I10 m e Hm) as [Hov _]. congruence.
Qed.

Lemma subscription_start_inv size : sub_inv (startSubscription size).
Proof. by split. Qed.

Lemma step_ok l s : sub_inv s → outcome_ok (step l s).
Proof.
  intros Hi. destruct l as [b subject| | | | | | | |n err|]; cbn [step]; try (by apply forward_step_inv).
  - apply (forward_inv s); try done; apply Hi.
  - apply (forward_inv s); try done; apply Hi.
  - destruct Hi as [I1 I2 I3 I4 I5 I6 I7 I8 I9 I10].
    assert (Hth : ∀ m k, (u_closers s ++ [KOnce]) !! m = Some k → k = KOnce ∨ u_closers s !! m = Some k).
    { intros m k [?|[_ Hm]]%lookup_app_Some; [by right|left]. by apply list_lookup_singleton_Some in Hm as [_ <-]. }
    split; simpl; try done.
    + intros m k [->|Hm]%Hth; [done|by apply (I3 m)].
    + intros m1 m2 k1 k2 [->|Hm1]%Hth [->|Hm2]%Hth Hk1 Hk2; [done..|by apply (I4 m1 m2 k1 k2)].
    + intros m [?|Hm]%Hth; [done|by apply (I6 m)].
    + intros m [?|Hm]%Hth; [done|by apply (I7 m)].
    + intros m [?|Hm]%Hth; [done|by apply (I8 m)].
    + intros m e [?|Hm]%Hth; [done|by apply (I10 m)].
  - destruct (u_closers s !! n) as [k|] eqn:Hn; [|done]. by apply closer_step_inv.
  - pose proof (ui_read s Hi) as Hr. pose proof (ui_c s Hi) as Hc. unfold chan_recv, forwarded in *.
    destruct (chan_buf (u_c s)) as [|msg rest] eqn:Hb; [by destruct (chan_closed (u_c s))|].
    apply (forward_inv s); try done. unfold forwarded. simpl. by rewrite <- (assoc_L (++)).
Qed.

Lemma run_ok ls s s' : sub_inv s → run ls s = Some s' → sub_inv s'.
Proof.
  revert s. induction ls as [|l ls IH]; intros s Hi; simpl; [by intros [= <-]|].
  pose proof (step_ok l s Hi) as Hs. destruct (step l s); [|done..]. by apply IH.
Qed.

(** What the transport delivered is what was read and what is left. *)
Definition delivered (ls : list label) : list (bytes * string) :=
  omap (λ l, match l with LDeliver b subject => Some (b, subject) | _ => None end) ls.

Lemma delivered_cons l ls : delivered (l :: ls) = delivered [l] ++ delivered ls.
Proof. by destruct l. Qed.

Lemma run_delivered ls s s' : run ls s = Some s' →
  u_read s' ++ u_queue s' = (u_read s ++ u_queue s) ++ delivered ls.
Proof.
  revert s. induction ls as [|l ls IH]; intros s; cbn [run]; [intros [= <-]; by rewrite app_nil_r|].
  destruct (step l s) as [s1| |] eqn:Hs; [|done..]. intros Hr. rewrite (IH s1 Hr).
  assert (u_read s1 ++ u_queue s1 = (u_read s ++ u_queue s) ++ delivered [l]) as ->.
  { destruct l as [b subject| | | | | | | |n err|]; simpl in *; rewrite ?app_nil_r.
    - injection Hs as <-. simpl. by rewrite (assoc_L (++)).
    - by injection Hs as <-.
    - destruct (u_forward s); try done. destruct (u_queue s) as [|r queue]; [done|]. injection Hs as <-. simpl.
      by rewrite <- (assoc_L (++)).
    - destruct (u_forward s), (u_ended s); try done; by injection Hs as <-.
    - destruct (u_forward s); try done. destruct (chan_send _ _); try done. by injection Hs as <-.
    - destruct (u_forward s), (u_done s); try done; by injection Hs as <-.
    - destruct (u_forward s); try done; [destruct (chan_close _); try done|]; by injection Hs as <-.
    - by injection Hs as <-.
    - destruct (u_closers s !! n) as [[]|]; try done; simpl in Hs;
        [destruct (u_once s)|destruct (u_done s)| |destruct (u_forward s)]; try done; by injection Hs as <-.
    - destruct (chan_recv _); [| |done]; by injection Hs as <-. }
  by rewrite <- !(assoc_L (++)), (delivered_cons l ls).
Qed.

(** [Close] ends the forwarding: the steps [forward] still needs. *)
Definition ending (f : forwarder) : list label :=
  match f with
  | FRead => [LEnd; LDefer; LDefer]
  | FSend _ => [LDone; LDefer; LDefer]
  | FCloseC => [LDefer; LDefer]
  | FComplete => [LDefer]
  | FOver => []
  end.

Lemma ending_runs s : sub_inv s → u_done s = true → u_ended s = true →
  ∃ s', run (ending (u_forward s)) s = Some s' ∧ u_forward s' = FOver ∧ u_closers s' = u_closers s.
Proof.
  intros Hi Hd He. pose proof (ui_c s Hi) as Hc.
  destruct (u_forward s) eqn:Hf; simpl; unfold forward_step; rewrite ?Hf, ?He, ?Hd; simpl;
    unfold chan_close; simpl; rewrite ?Hc; simpl; by eexists.
Qed.
End subscription.

(** ** Properties *)

(** C32: a subscription hands its user, in order and each once, the messages it makes of
    what its reader reads (what does not decode, or is of another type, is skipped), but
    for at most one that is in hand when the subscription closes; what it reads is, in
    order, what the transport delivered.  It never panics, and its channel is closed only
    once nothing is left to forward. *)
Theorem subscription_forwards `{Codec, !Gzip} (MessageType : string) (unanswered : option (string → message))
    (maxSize : Z) (size : nat) (ls : list label) (l : label) (s : subscription) :
  run MessageType unanswered maxSize ls (startSubscription size) = Some s →
  step MessageType unanswered maxSize l s ≠ Panic ∧
  u_read s ++ u_queue s = delivered ls ∧
  (∃ lost, (length lost ≤ 1)%nat ∧
    omap (decode MessageType unanswered maxSize) (u_read s) = u_taken s ++ chan_buf (u_c s) ++ lost) ∧
  (u_forward s = FRead → omap (decode MessageType unanswered maxSize) (u_read s) = u_taken s ++ chan_buf (u_c s)) ∧
  (chan_closed (u_c s) = true → u_forward s = FComplete ∨ u_forward s = FOver).
Proof.
  intros Hr. pose proof (run_ok MessageType unanswered maxSize ls _ s (subscription_start_inv _ _ _ size) Hr) as Hi.
  pose proof (ui_read _ _ _ s Hi) as Hread. pose proof (ui_c _ _ _ s Hi) as Hc. unfold forwarded in Hread. split_and!.
  - intros Hp. pose proof (step_ok MessageType unanswered maxSize l s Hi) as Hok. by rewrite Hp in Hok.
  - apply (run_delivered MessageType unanswered maxSize ls _ s Hr).
  - assert (Hcase : u_taken s ++ chan_buf (u_c s) = omap (decode MessageType unanswered maxSize) (u_read s) ∨
      ∃ msg, (u_taken s ++ chan_buf (u_c s)) ++ [msg] = omap (decode MessageType unanswered maxSize) (u_read s)).
    { destruct (u_forward s) as [|msg| | |]; [by left|right; by exists msg|..];
        (destruct Hread as [Hread|[_ Hread]]; [by left|by right]). }
    destruct Hcase as [<-|[msg <-]]; [exists []|exists [msg]]; rewrite ?app_nil_r, <- ?(assoc_L (++)); split; done || (simpl; lia).
  - intros Hf. by rewrite Hf in Hread.
  - rewrite Hc. by destruct (u_forward s); auto.
Qed.

(** [Close] returns: once its function has closed the reader, the forwarding ends
    within three steps of its own, with its channel closed and without waiting for the
    user, and the call returns the reader's error; so does every later [Close]. *)
Theorem subscription_close_returns `{Codec, !Gzip} (MessageType : string) (unanswered : option (string → message))
    (maxSize : Z) (size : nat) (ls : list label) (s : subscription) (n : nat) :
  run MessageType unanswered maxSize ls (startSubscription size) = Some s →
  u_closers s !! n = Some KWait →
  ∃ s', run MessageType unanswered maxSize (ending (u_forward s) ++ [LCloser n None]) s = Some s' ∧
    u_closers s' !! n = Some (KReturned (u_closeErr s')) ∧ u_forward s' = FOver ∧ chan_closed (u_c s') = true ∧
    (∀ m err, u_closers s' !! m = Some (KReturned err) → err = u_closeErr s').
Proof.
  intros Hr Hn. pose proof (run_ok MessageType unanswered maxSize ls _ s (subscription_start_inv _ _ _ size) Hr) as Hi.
  destruct (ui_KWait _ _ _ s Hi n Hn) as [Hd He].
  destruct (ending_runs _ _ _ s Hi Hd He) as (s1 & Hr1 & Hf & Hk).
  assert (Hrun : ∃ s', run MessageType unanswered maxSize (ending (u_forward s) ++ [LCloser n None]) s = Some s' ∧
    u_closers s' !! n = Some (KReturned (u_closeErr s')) ∧ u_forward s' = FOver).
  { assert (∀ ls1 ls2 s0, run MessageType unanswered maxSize (ls1 ++ ls2) s0
      = run MessageType unanswered maxSize ls1 s0 ≫= run MessageType unanswered maxSize ls2) as Happ.
    { intros ls1 ls2. induction ls1 as [|l ls1 IH]; intros s0; [done|]. simpl. by destruct (step _ _ _ l s0). }
    rewrite Happ, Hr1. simpl. rewrite Hk, Hn. simpl. rewrite Hf. eexists. split; [done|]. simpl.
    split; [|done]. rewrite list_lookup_insert_eq; [done|]. rewrite Hk. by eapply lookup_lt_Some. }
  destruct Hrun as (s' & Hr' & Hret & Hf'). exists s'. split_and!; [done..| |].
  - pose proof (run_ok MessageType unanswered maxSize _ s s' Hi Hr') as Hi'. by rewrite (ui_c _ _ _ s' Hi'), Hf'.
  - pose proof (run_ok MessageType unanswered maxSize _ s s' Hi Hr') as Hi'.
    intros m err Hm. by destruct (ui_returned _ _ _ s' Hi' m err Hm).
Qed.

(** ** Subscribing *)

Section subscribing.
Context `{Codec, !Gzip} `{!StatusApi} {T : carried}.

(** [Subscribe], [SubscribeQueue] and [SubscribeInbox]: [sub] is what the transport
    answers. *)
Definition Subscribe {Reader : Type} (sub : result error Reader) (channelSize : Z) : result error (Reader * subscription) :=
  match sub with
  | Err e => Err e
  | Ok r => Ok (r, startSubscription (Z.to_nat channelSize))
  end.

(** [Join] and [JoinQueue] of a client, closed or not; the transport's answer is for the
    channel they ask for.  [None]: the panic for a method there is not. *)
Definition Join {Reader : Type} (c : RPCClient T) (closed : bool) (rpc : string) (topic : list string)
    (transport : Channel → result error Reader) : option (result error (Reader * subscription)) :=
  if closed then Some (Err ErrClientClosed)
  else
    i ← GetInfo (c_sd c) rpc topic;
    Some (match Subscribe (transport (GetRPCChannel i)) (co_ChannelSize (c_Opts c)) with
          | Err e => Err (newError Internal e)
          | Ok sub => Ok sub
          end).

(** [RPCServer.Publish]. *)
Definition server_Publish {St} (sd : ServiceDefinition) (b : MessageBus St) (rpc : string) (topic : list string)
    (msg : message) (st : St) : option (St * result error unit) :=
  i ← GetInfo sd rpc topic;
  Some (Publish b (GetRPCChannel i) msg st).
End subscribing.

(** What a bus publishes for a message of the type, and a reader with that cap takes. *)
Definition readable `{Codec, !Gzip} (MessageType : string) (maxSize : Z) (c : option compressor) (channel : string)
    (msg : message) (b : bytes) : Prop :=
  FullName msg = MessageType ∧ registered MessageType = true ∧ maxSize < 2 ^ 63 - 1 ∧
  serialize msg channel c = Ok b ∧ ∃ value, Marshal msg = Ok value ∧ (maxSize <= 0 ∨ len value <= maxSize).

Lemma decode_published `{Codec, !Gzip} {St} (t : Transport St) opts MessageType unanswered maxSize channel msg b :
  readable MessageType maxSize (b_c (base (New t opts))) channel msg b →
  decode MessageType unanswered maxSize (b, "") = Some msg.
Proof.
  intros (Ht & Hreg & Hmax & Hs & value & Hm & Hsz). subst MessageType.
  destruct (serialize_deserialize t opts msg channel maxSize value b Hm Hreg Hmax Hsz Hs) as [Hd _].
  assert (decode_bytes (FullName msg) maxSize b = Some msg) as Hb
    by (unfold decode_bytes; rewrite Hd; by rewrite bool_decide_eq_true_2).
  unfold decode. destruct unanswered; [|done]. rewrite bool_decide_eq_false_2 by (intros Hn; by apply Hn).
  by rewrite andb_false_r.
Qed.

(** C17: publishing and subscribing fit together: if a transport delivers, in order, what
    a bus with any options published for some messages of the subscription's type, then
    once the subscription has read all of it, what its user took and what its channel
    holds for him are those messages, in order. *)
Theorem published_is_received `{Codec, !Gzip} {St} (t : Transport St) (opts : list BusOption)
    (MessageType : string) (unanswered : option (string → message)) (maxSize : Z) (size : nat) (channel : string)
    (msgs : list message) (payloads : list bytes) (ls : list label) (s : subscription) :
  Forall2 (readable MessageType maxSize (b_c (base (New t opts))) channel) msgs payloads →
  delivered ls = (λ b, (b, "")) <$> payloads →
  run MessageType unanswered maxSize ls (startSubscription size) = Some s →
  u_queue s = [] → u_forward s = FRead →
  u_taken s ++ chan_buf (u_c s) = msgs.
Proof.
  intros Hp Hd Hr Hq Hf. pose proof (run_ok MessageType unanswered maxSize ls _ s (subscription_start_inv _ _ _ size) Hr) as Hi.
  pose proof (ui_read _ _ _ s Hi) as Hread. rewrite Hf in Hread. unfold forwarded in Hread. rewrite Hread.
  pose proof (run_delivered MessageType unanswered maxSize ls _ s Hr) as Hdel. rewrite Hq, app_nil_r, Hd in Hdel.
  simpl in Hdel. rewrite Hdel. clear -Hp.
  induction Hp as [|msg b msgs payloads Hb _ IH]; [done|]. rewrite fmap_cons. cbn [omap list_omap].
  rewrite (decode_published t opts MessageType unanswered maxSize channel msg b Hb). f_equal. exact IH.
Qed.

(** A topic's subscribers ask for the channel its publishers use. *)
Lemma join_asks_for_published `{Codec, !Gzip, !StatusApi} {T : carried} {St} (c : RPCClient T) (b : MessageBus St)
    rpc topic msg st :
  (∃ i, GetInfo (c_sd c) rpc topic = Some i ∧
     Join c false rpc topic Ok = Some (Ok (GetRPCChannel i, startSubscription (Z.to_nat (co_ChannelSize (c_Opts c))))) ∧
     server_Publish (c_sd c) b rpc topic msg st = Some (Publish b (GetRPCChannel i) msg st)) ∨
  GetInfo (c_sd c) rpc topic = None.
Proof.
  unfold Join, server_Publish. destruct (GetInfo (c_sd c) rpc topic) as [i|]; [left|by right]. by exists i.
Qed.

(** ** Witnesses *)

Section subscription_witness.
#[local] Existing Instance grpc_numbers.
#[local] Existing Instance Bus.Example.codec.
#[local] Existing Instance Bus.Example.gzip.

Definition T_message (b : bytes) : message := ("T", b).

Definition payload_of (m : message) : bytes := match serialize m "" None with Ok b => b | Err _ => [] end.

(** A message, one of another type, bytes that are no message, and a message while the
    subscription closes. *)
Definition mixed_reads : list label :=
  [LDeliver (payload_of (T_message (bytes_of "x"))) ""; LDeliver (payload_of ("U", [])) ""; LDeliver (bytes_of "?") "";
   LDeliver (payload_of (T_message (bytes_of "y"))) ""; LRead; LSend; LRead; LRead; LRead; LTake;
   LClose; LCloser 0 None; LCloser 0 None; LCloser 0 None].

Lemma subscription_forwards_witness : ∃ s, run "T" None 0 mixed_reads (startSubscription 2) = Some s ∧
  step "T" None 0 LDone s ≠ Panic ∧ u_read s ++ u_queue s = delivered mixed_reads.
Proof.
  assert (from_option (λ _, true) false (run "T" None 0 mixed_reads (startSubscription 2)) = true) as Hr by (vm_compute; reflexivity).
  destruct (run "T" None 0 mixed_reads (startSubscription 2)) as [s|] eqn:Hs; [|discriminate Hr].
  exists s. split; [reflexivity|].
  destruct (subscription_forwards "T" None 0 2 mixed_reads LDone s Hs) as (H1 & H2 & _). split; [exact H1|exact H2].
Defined.

Lemma subscription_close_returns_witness : ∃ s s', run "T" None 0 mixed_reads (startSubscription 2) = Some s ∧
  run "T" None 0 (ending (u_forward s) ++ [LCloser 0 None]) s = Some s' ∧ u_forward s' = FOver.
Proof.
  assert (from_option (λ s, match u_closers s !! 0%nat with Some KWait => true | _ => false end) false
    (run "T" None 0 mixed_reads (startSubscription 2)) = true) as Hr by (vm_compute; reflexivity).
  destruct (run "T" None 0 mixed_reads (startSubscription 2)) as [s|] eqn:Hs; [|discriminate Hr]. simpl in Hr.
  assert (u_closers s !! 0%nat = Some KWait) as Hk by (destruct (u_closers s !! 0%nat) as [[]|]; (reflexivity || discriminate Hr)).
  destruct (subscription_close_returns "T" None 0 2 mixed_reads s 0 Hs Hk) as (s' & Hrun & _ & Hf & _).
  exists s, s'. split; [reflexivity|]. split; [exact Hrun|exact Hf].
Defined.

Definition two_messages : list message := T_message <$> [bytes_of "x"; bytes_of "y"].

Definition two_reads : list label :=
  ((λ m, LDeliver (payload_of m) "") <$> two_messages) ++ [LRead; LSend; LTake; LRead; LSend].

Lemma published_is_received_witness : ∃ s, run "T" None 0 two_reads (startSubscription 1) = Some s ∧
  u_taken s ++ chan_buf (u_c s) = two_messages.
Proof.
  assert (from_option (λ s, match u_queue s, u_forward s with [], FRead => true | _, _ => false end) false
    (run "T" None 0 two_reads (startSubscription 1)) = true) as Hr by (vm_compute; reflexivity).
  destruct (run "T" None 0 two_reads (startSubscription 1)) as [s|] eqn:Hs; [|discriminate Hr]. simpl in Hr.
  exists s. split; [reflexivity|].
  apply (published_is_received drop_transport [WithBusCompression (MkCompressionOpts 1 10000 0)] "T" None 0 1 "" two_messages (payload_of <$> two_messages) two_reads s).
  - repeat constructor; try (vm_compute; reflexivity);
      (eexists; split; [reflexivity|left; reflexivity]).
  - vm_compute. reflexivity.
  - exact Hs.
  - destruct (u_queue s); [reflexivity|discriminate Hr].
  - destruct (u_queue s); [|discriminate Hr]. destruct (u_forward s); (reflexivity || discriminate Hr).
Defined.
End subscription_witness.
