(* ===== verification/Router.v ===== *)
(** * Router.v: the requests of a client and its read loop
    ([src/pkg/client/client.go], with [newRPC] of [rpc.go])

    The read loop takes messages from the client's subscriptions and sends each to
    the channel its request registered, if it is still registered; requests register,
    publish, take messages from their channels, and unregister when they return.  A
    step is one of these acts ([sys_step]); a run is any sequence of them, so that all
    interleavings of the goroutines are there.  Looking a channel up and sending on it
    are two steps, as the lock is released in between.

    A channel is named by the request that made it: request IDs are fresh.  The model
    has channels of a positive size ([ChannelSize] is 100 by default): a channel of
    size zero would hand over without buffering. *)
From S2P Require Import Prelude Errors Bus Info Interceptors Float32 Options Messages Selection ClientRPC.

Section router.
Context `{GrpcApi} `{!StatusApi} `{!Codec} {T : carried} (itoa : Z → string).

(** The goroutine of [NewRPCClient]: at its [select], in the send of [routeClaim] or
    [routeResponse] on the channel of a request, or returned. *)
Inductive reader : Type :=
| RSelect
| RSendClaim (id : string) (claim : ClaimRequest)
| RSendResponse (id : string) (res : Response)
| RReturned.

(** A request's goroutine: publishing, in the loops of [newRPC], or past its deferred
    functions. *)
Inductive thread : Type :=
| TPublishing
| TRunning (p : pc)
| TGone.

(** A client with its requests.  [claimChans] and [responseChans] are the channels
    ever made, [claimRequests] and [responseChannels] the keys of the client's maps,
    each mapped to the channel made under the same name. *)
Record sys : Type := MkSys {
  s_ChannelSize : nat;
  s_closed : bool;
  s_reader : reader;
  s_claimRequests : gset string;
  s_responseChannels : gset string;
  s_claimChans : gmap string (chan ClaimRequest);
  s_responseChans : gmap string (chan Response);
  s_threads : gmap string (call T * thread)
}.

Definition new_sys (size : nat) : sys := MkSys size false RSelect ∅ ∅ ∅ ∅ ∅.

(** The channel a [select] receives from; [ctx.Err()] comes with a context's end. *)
Inductive source : Type :=
| FromClosed
| FromCtx (err : std_error)
| FromClaims
| FromResponses.

Inductive label : Type :=
| LStart (k : call T)
| LPublished (id : string) (now : Z) (err : option error)
| LTurn (id : string) (now : Z) (src : source) (pubErr : option error)
| LDefer (id : string)
| LTakeClaim (claim : ClaimRequest)
| LTakeResponse (res : Response)
| LSend
| LClose
| LReaderReturns.

Definition with_reader (s : sys) (r : reader) : sys :=
  MkSys (s_ChannelSize s) (s_closed s) r (s_claimRequests s) (s_responseChannels s)
    (s_claimChans s) (s_responseChans s) (s_threads s).

Definition with_thread (s : sys) (id : string) (k : call T) (t : thread) : sys :=
  MkSys (s_ChannelSize s) (s_closed s) (s_reader s) (s_claimRequests s) (s_responseChannels s)
    (s_claimChans s) (s_responseChans s) (<[id := (k, t)]> (s_threads s)).

Definition with_claimChan (s : sys) (id : string) (c : chan ClaimRequest) : sys :=
  MkSys (s_ChannelSize s) (s_closed s) (s_reader s) (s_claimRequests s) (s_responseChannels s)
    (<[id := c]> (s_claimChans s)) (s_responseChans s) (s_threads s).

Definition with_responseChan (s : sys) (id : string) (c : chan Response) : sys :=
  MkSys (s_ChannelSize s) (s_closed s) (s_reader s) (s_claimRequests s) (s_responseChannels s)
    (s_claimChans s) (<[id := c]> (s_responseChans s)) (s_threads s).

(** The registration of [newRPC], under the client's lock. *)
Definition register (s : sys) (k : call T) : sys :=
  let id := k_requestID k in
  let claim := ri_RequireClaim (k_info k) in
  MkSys (s_ChannelSize s) (s_closed s) (s_reader s)
    (if claim then {[id]} ∪ s_claimRequests s else s_claimRequests s)
    ({[id]} ∪ s_responseChannels s)
    (if claim then <[id := make_chan (s_ChannelSize s)]> (s_claimChans s) else s_claimChans s)
    (<[id := make_chan 1]> (s_responseChans s))
    (<[id := (k, TPublishing)]> (s_threads s)).

(** The deferred function of [newRPC]. *)
Definition unregister (s : sys) (k : call T) : sys :=
  let id := k_requestID k in
  MkSys (s_ChannelSize s) (s_closed s) (s_reader s)
    (if ri_RequireClaim (k_info k) then s_claimRequests s ∖ {[id]} else s_claimRequests s)
    (s_responseChannels s ∖ {[id]})
    (s_claimChans s) (s_responseChans s) (<[id := (k, TGone)]> (s_threads s)).

(** [routeClaim] and [routeResponse] up to the unlocking. *)
Definition routeClaim (s : sys) (claim : ClaimRequest) : sys :=
  if bool_decide (cq_RequestId claim ∈ s_claimRequests s)
  then with_reader s (RSendClaim (cq_RequestId claim) claim) else s.

Definition routeResponse (s : sys) (res : Response) : sys :=
  if bool_decide (rs_RequestId res ∈ s_responseChannels s)
  then with_reader s (RSendResponse (rs_RequestId res) res) else s.

(** The send that follows; [None] while it blocks. *)
Definition reader_send (s : sys) : option sys :=
  match s_reader s with
  | RSendClaim id claim =>
      c ← s_claimChans s !! id;
      match chan_send c claim with
      | Sent c => Some (with_reader (with_claimChan s id c) RSelect)
      | _ => None
      end
  | RSendResponse id res =>
      c ← s_responseChans s !! id;
      match chan_send c res with
      | Sent c => Some (with_reader (with_responseChan s id c) RSelect)
      | _ => None
      end
  | _ => None
  end.

(** Whether the [select] a request is at takes claims. *)
Definition takes_claims (p : pc) : bool :=
  match p with PSelect _ | PWait true => true | _ => false end.

(** What a [select] receives, and the channels after it; [None] when it cannot. *)
Definition receive (s : sys) (id : string) (p : pc) (src : source) : option (rpc_event * sys) :=
  match src with
  | FromClosed => if s_closed s then Some (Sel EvClosed, s) else None
  | FromCtx err => Some (match p with PSelect _ => Sel EvDone | _ => CtxDone err end, s)
  | FromClaims =>
      if takes_claims p then
        c ← s_claimChans s !! id;
        match chan_recv c with
        | Received claim c => Some (Sel (EvClaim claim), with_claimChan s id c)
        | _ => None
        end
      else None
  | FromResponses =>
      c ← s_responseChans s !! id;
      match chan_recv c with
      | Received res c => Some (Sel (EvResponse res), with_responseChan s id c)
      | _ => None
      end
  end.

(** One step; [None] when it cannot be taken. *)
Definition sys_step (l : label) (s : sys) : option sys :=
  match l with
  | LStart k =>
      match s_threads s !! k_requestID k with
      | None => Some (register s k)
      | Some _ => None
      end
  | LPublished id now err =>
      match s_threads s !! id with
      | Some (k, TPublishing) => Some (with_thread s id k (TRunning (after_publish k now err)))
      | _ => None
      end
  | LTurn id now src pubErr =>
      match s_threads s !! id with
      | Some (k, TRunning (PReturned _)) => None
      | Some (k, TRunning p) =>
          '(ev, s) ← receive s id p src;
          Some (with_thread s id k (TRunning (rpc_step itoa k now ev pubErr p).1))
      | _ => None
      end
  | LDefer id =>
      match s_threads s !! id with
      | Some (k, TRunning (PReturned _)) => Some (unregister s k)
      | _ => None
      end
  | LTakeClaim claim =>
      match s_reader s with RSelect => Some (routeClaim s claim) | _ => None end
  | LTakeResponse res =>
      match s_reader s with RSelect => Some (routeResponse s res) | _ => None end
  | LSend => reader_send s
  | LClose =>
      Some (MkSys (s_ChannelSize s) true (s_reader s) (s_claimRequests s) (s_responseChannels s)
              (s_claimChans s) (s_responseChans s) (s_threads s))
  | LReaderReturns =>
      match s_reader s with
      | RSelect => if s_closed s then Some (with_reader s RReturned) else None
      | _ => None
      end
  end.

Fixpoint sys_run (ls : list label) (s : sys) : option sys :=
  match ls with
  | [] => Some s
  | l :: ls => s ← sys_step l s; sys_run ls s
  end.
End router.
Arguments reader {_}.
Arguments thread {_ _}.
Arguments sys {_ _} T.
Arguments label {_} T.

(** ** Invariant *)

Section invariant.
Context `{GrpcApi} `{!StatusApi} `{!Codec} {T : carried} (itoa : Z → string).
Implicit Types (s : sys T) (l : label T).

(** What the reader is about to send to a request. *)
Definition in_hand_claims s (id : string) : list ClaimRequest :=
  match s_reader s with RSendClaim id' c => if bool_decide (id' = id) then [c] else [] | _ => [] end.

Definition in_hand_responses s (id : string) : list Response :=
  match s_reader s with RSendResponse id' r => if bool_decide (id' = id) then [r] else [] | _ => [] end.

(** What is on the way to a request: queued on its channel, or in the reader's hand. *)
Definition claims_to s (id : string) : list ClaimRequest :=
  from_option chan_buf [] (s_claimChans s !! id) ++ in_hand_claims s id.

Definition responses_to s (id : string) : list Response :=
  from_option chan_buf [] (s_responseChans s !! id) ++ in_hand_responses s id.

(** Everything on the way to a request bears its ID. *)
Definition own_messages s : Prop := ∀ id,
  Forall (λ c, cq_RequestId c = id) (claims_to s id) ∧
  Forall (λ r, rs_RequestId r = id) (responses_to s id).

(** A request still in the client's maps. *)
Definition live (t : thread) : bool := match t with TGone => false | _ => true end.

(** The client's maps hold the requests under way and no others. *)
Record maps_inv s : Prop := {
  inv_id : ∀ id k t, s_threads s !! id = Some (k, t) → k_requestID k = id;
  inv_claims : ∀ id, id ∈ s_claimRequests s ↔
    ∃ k t, s_threads s !! id = Some (k, t) ∧ live t = true ∧ ri_RequireClaim (k_info k) = true;
  inv_responses : ∀ id, id ∈ s_responseChannels s ↔
    ∃ k t, s_threads s !! id = Some (k, t) ∧ live t = true
}.

(** Every channel has the size it was made with and stays open; those of the maps and
    the one in the reader's hand exist. *)
Record chans_inv s : Prop := {
  inv_claimChans : ∀ id c, s_claimChans s !! id = Some c →
    chan_cap c = s_ChannelSize s ∧ chan_closed c = false;
  inv_responseChans : ∀ id c, s_responseChans s !! id = Some c →
    chan_cap c = 1%nat ∧ chan_closed c = false;
  inv_claimRequests : ∀ id, id ∈ s_claimRequests s → is_Some (s_claimChans s !! id);
  inv_responseChannels : ∀ id, id ∈ s_responseChannels s → is_Some (s_responseChans s !! id);
  inv_reader : match s_reader s with
    | RSendClaim id _ => is_Some (s_claimChans s !! id)
    | RSendResponse id _ => is_Some (s_responseChans s !! id)
    | _ => True
    end
}.

(** The ways a step can go, with what it needs. *)
Lemma chan_send_Sent {A} (c c' : chan A) a :
  chan_send c a = Sent c' → c' = Chan (chan_cap c) (chan_buf c ++ [a]) false ∧ chan_closed c = false.
Proof. unfold chan_send. destruct (chan_closed c); [done|]. by case_match; intros [= <-]. Qed.

Lemma chan_recv_Received {A} (c c' : chan A) a :
  chan_recv c = Received a c' → chan_buf c = a :: chan_buf c' ∧
    chan_cap c' = chan_cap c ∧ chan_closed c' = chan_closed c.
Proof.
  unfold chan_recv. destruct (chan_buf c) eqn:?; [by destruct (chan_closed c)|]. by intros [= <- <-].
Qed.

(** A turn, taken apart. *)
Lemma sys_step_turn id now src pubErr s s' :
  sys_step itoa (LTurn id now src pubErr) s = Some s' →
  ∃ k p ev s1, s_threads s !! id = Some (k, TRunning p) ∧
    match p with PReturned _ => False | _ => True end ∧
    receive s id p src = Some (ev, s1) ∧
    s' = with_thread s1 id k (TRunning (rpc_step itoa k now ev pubErr p).1).
Proof.
  simpl. destruct (s_threads s !! id) as [[k [|p|]]|] eqn:Ht; try done.
  destruct p as [v|b|r]; try done; destruct (receive s id _ src) as [[ev s1]|] eqn:Hr;
    simpl; try done; intros [= <-]; eauto 10.
Qed.

(** What a receive does to the system: nothing, or one message less on one channel. *)
Lemma receive_cases s id p src ev s1 :
  receive s id p src = Some (ev, s1) →
  (s1 = s ∧ match ev with Sel (EvClaim _) | Sel (EvResponse _) => False | _ => True end) ∨
  (∃ claim c c', ev = Sel (EvClaim claim) ∧ takes_claims p = true ∧ s_claimChans s !! id = Some c ∧
     chan_buf c = claim :: chan_buf c' ∧ chan_cap c' = chan_cap c ∧ chan_closed c' = chan_closed c ∧
     s1 = with_claimChan s id c') ∨
  (∃ res c c', ev = Sel (EvResponse res) ∧ s_responseChans s !! id = Some c ∧
     chan_buf c = res :: chan_buf c' ∧ chan_cap c' = chan_cap c ∧ chan_closed c' = chan_closed c ∧
     s1 = with_responseChan s id c').
Proof.
  destruct src; simpl.
  - destruct (s_closed s); [|done]. intros [= <- <-]. by left.
  - intros [= <- <-]. left. by destruct p.
  - destruct (takes_claims p); [|done]. destruct (s_claimChans s !! id) as [c|] eqn:Hc; simpl; [|done].
    destruct (chan_recv c) as [claim c'| |] eqn:Hr; [|done..]. intros [= <- <-].
    apply chan_recv_Received in Hr as (?&?&?). right. left. eauto 12.
  - destruct (s_responseChans s !! id) as [c|] eqn:Hc; simpl; [|done].
    destruct (chan_recv c) as [res c'| |] eqn:Hr; [|done..]. intros [= <- <-].
    apply chan_recv_Received in Hr as (?&?&?). right. right. eauto 12.
Qed.

Lemma reader_send_cases s s' :
  reader_send s = Some s' →
  (∃ id claim c, s_reader s = RSendClaim id claim ∧ s_claimChans s !! id = Some c ∧
     s' = with_reader (with_claimChan s id (Chan (chan_cap c) (chan_buf c ++ [claim]) false)) RSelect) ∨
  (∃ id res c, s_reader s = RSendResponse id res ∧ s_responseChans s !! id = Some c ∧
     s' = with_reader (with_responseChan s id (Chan (chan_cap c) (chan_buf c ++ [res]) false)) RSelect).
Proof.
  unfold reader_send. destruct (s_reader s) as [|id claim|id res|] eqn:Hr; try done.
  - destruct (s_claimChans s !! id) as [c|] eqn:Hc; simpl; [|done].
    destruct (chan_send c claim) eqn:Hs; try done. apply chan_send_Sent in Hs as [-> _].
    intros [= <-]. left. eauto 10.
  - destruct (s_responseChans s !! id) as [c|] eqn:Hc; simpl; [|done].
    destruct (chan_send c res) eqn:Hs; try done. apply chan_send_Sent in Hs as [-> _].
    intros [= <-]. right. eauto 10.
Qed.

(** What a step may bring a request. *)
Definition claims_taken l (id : string) : list ClaimRequest :=
  match l with LTakeClaim c => if bool_decide (cq_RequestId c = id) then [c] else [] | _ => [] end.

Definition responses_taken l (id : string) : list Response :=
  match l with LTakeResponse r => if bool_decide (rs_RequestId r = id) then [r] else [] | _ => [] end.

Ltac flow_lookup :=
  repeat match goal with
  | |- context [<[?i := _]> ?m !! ?j] => destruct (decide (i = j)) as [->|];
      [rewrite lookup_insert_eq|rewrite lookup_insert_ne by done]
  end.

(** Messages flow to a request through its channel: a step never brings it more than
    the message the reader takes for it. *)
Lemma claims_flow l s s' id :
  sys_step itoa l s = Some s' → claims_to s' id `sublist_of` claims_to s id ++ claims_taken l id.
Proof.
  destruct l as [k|i now err|i now src pe|i|claim|res| | |]; intros Hstep.
  - simpl in Hstep. destruct (s_threads s !! k_requestID k); [done|]. injection Hstep as <-.
    rewrite app_nil_r. unfold claims_to, in_hand_claims. simpl.
    destruct (ri_RequireClaim (k_info k)); flow_lookup; simpl; try done; by apply sublist_inserts_l.
  - simpl in Hstep. destruct (s_threads s !! i) as [[k []]|]; simplify_eq. by rewrite app_nil_r.
  - apply sys_step_turn in Hstep as (k & p & ev & s1 & _ & _ & Hrecv & ->). rewrite app_nil_r.
    apply receive_cases in Hrecv as [[-> _]|[(claim & c & c' & _ & _ & Hc & Hb & _ & _ & ->)|
      (res & c & c' & _ & Hc & Hb & _ & _ & ->)]]; [done| |done].
    unfold claims_to, in_hand_claims. simpl. flow_lookup; [|done]. rewrite Hc. simpl. rewrite Hb.
    simpl. by apply sublist_cons.
  - simpl in Hstep. destruct (s_threads s !! i) as [[k [|[]|]]|]; simplify_eq. by rewrite app_nil_r.
  - simpl in Hstep. destruct (s_reader s) eqn:Hr; simplify_eq. unfold routeClaim.
    case_bool_decide; [|by apply sublist_inserts_r]. unfold claims_to, in_hand_claims. simpl.
    rewrite Hr, app_nil_r. done.
  - simpl in Hstep. destruct (s_reader s) eqn:Hr; simplify_eq. rewrite app_nil_r. unfold routeResponse.
    case_bool_decide; [|done]. unfold claims_to, in_hand_claims. simpl. by rewrite Hr.
  - simpl in Hstep. rewrite app_nil_r. apply reader_send_cases in Hstep as
      [(i & claim & c & Hr & Hc & ->)|(i & res & c & Hr & Hc & ->)];
      unfold claims_to, in_hand_claims; simpl; rewrite Hr; [|done].
    flow_lookup.
    + rewrite Hc, bool_decide_eq_true_2, app_nil_r by done. done.
    + by rewrite bool_decide_eq_false_2 by done.
  - simpl in Hstep. injection Hstep as <-. by rewrite app_nil_r.
  - simpl in Hstep. destruct (s_reader s) eqn:Hr; simplify_eq. destruct (s_closed s); simplify_eq.
    rewrite app_nil_r. unfold claims_to, in_hand_claims. simpl. by rewrite Hr.
Qed.

Lemma responses_flow l s s' id :
  sys_step itoa l s = Some s' → responses_to s' id `sublist_of` responses_to s id ++ responses_taken l id.
Proof.
  destruct l as [k|i now err|i now src pe|i|claim|res| | |]; intros Hstep.
  - simpl in Hstep. destruct (s_threads s !! k_requestID k); [done|]. injection Hstep as <-.
    rewrite app_nil_r. unfold responses_to, in_hand_responses. simpl.
    flow_lookup; simpl; try done; by apply sublist_inserts_l.
  - simpl in Hstep. destruct (s_threads s !! i) as [[k []]|]; simplify_eq. by rewrite app_nil_r.
  - apply sys_step_turn in Hstep as (k & p & ev & s1 & _ & _ & Hrecv & ->). rewrite app_nil_r.
    apply receive_cases in Hrecv as [[-> _]|[(claim & c & c' & _ & _ & Hc & Hb & _ & _ & ->)|
      (res & c & c' & _ & Hc & Hb & _ & _ & ->)]]; [done|done|].
    unfold responses_to, in_hand_responses. simpl. flow_lookup; [|done]. rewrite Hc. simpl. rewrite Hb.
    simpl. by apply sublist_cons.
  - simpl in Hstep. destruct (s_threads s !! i) as [[k [|[]|]]|]; simplify_eq. by rewrite app_nil_r.
  - simpl in Hstep. destruct (s_reader s) eqn:Hr; simplify_eq. rewrite app_nil_r. unfold routeClaim.
    case_bool_decide; [|done]. unfold responses_to, in_hand_responses. simpl. by rewrite Hr.
  - simpl in Hstep. destruct (s_reader s) eqn:Hr; simplify_eq. unfold routeResponse.
    case_bool_decide; [|by apply sublist_inserts_r]. unfold responses_to, in_hand_responses. simpl.
    rewrite Hr, app_nil_r. done.
  - simpl in Hstep. rewrite app_nil_r. apply reader_send_cases in Hstep as
      [(i & claim & c & Hr & Hc & ->)|(i & res & c & Hr & Hc & ->)];
      unfold responses_to, in_hand_responses; simpl; rewrite Hr; [done|].
    flow_lookup.
    + rewrite Hc, bool_decide_eq_true_2, app_nil_r by done. done.
    + by rewrite bool_decide_eq_false_2 by done.
  - simpl in Hstep. injection Hstep as <-. by rewrite app_nil_r.
  - simpl in Hstep. destruct (s_reader s) eqn:Hr; simplify_eq. destruct (s_closed s); simplify_eq.
    rewrite app_nil_r. unfold responses_to, in_hand_responses. simpl. by rewrite Hr.
Qed.

Lemma own_messages_step l s s' : own_messages s → sys_step itoa l s = Some s' → own_messages s'.
Proof.
  intros Hown Hstep id. destruct (Hown id) as [Hc Hr]. split.
  - eapply sublist_Forall; [by apply claims_flow|]. apply Forall_app. split; [done|].
    unfold claims_taken. destruct l; try done. case_bool_decide; auto.
  - eapply sublist_Forall; [by apply responses_flow|]. apply Forall_app. split; [done|].
    unfold responses_taken. destruct l; try done. case_bool_decide; auto.
Qed.

Lemma maps_inv_ext s s' :
  s_claimRequests s' = s_claimRequests s → s_responseChannels s' = s_responseChannels s →
  s_threads s' = s_threads s → maps_inv s → maps_inv s'.
Proof. intros Hc Hr Ht [I1 I2 I3]. constructor; rewrite ?Hc, ?Hr, Ht; auto. Qed.

Lemma maps_inv_thread s id k t t' :
  s_threads s !! id = Some (k, t) → live t' = live t → maps_inv s →
  maps_inv (with_thread s id k t').
Proof.
  intros Hk Hl [I1 I2 I3]. constructor; simpl.
  - intros id' k' t''. rewrite lookup_insert_Some. intros [[<- [= <- <-]]|[_ ?]]; eauto.
  - intros id'. rewrite I2. destruct (decide (id = id')) as [<-|]; [|by rewrite lookup_insert_ne].
    rewrite lookup_insert_eq, Hk. split; intros (? & ? & [= <- <-] & ? & ?); eexists _, _;
      (split; [done|]); split; congruence.
  - intros id'. rewrite I3. destruct (decide (id = id')) as [<-|]; [|by rewrite lookup_insert_ne].
    rewrite lookup_insert_eq, Hk. split; intros (? & ? & [= <- <-] & ?); eexists _, _;
      (split; [done|]); congruence.
Qed.

Lemma maps_inv_register s k :
  s_threads s !! k_requestID k = None → maps_inv s → maps_inv (register s k).
Proof.
  intros Hk [I1 I2 I3]. constructor; simpl.
  - intros id' k' t'. rewrite lookup_insert_Some. intros [[<- [= <- <-]]|[_ ?]]; eauto.
  - intros id'. destruct (decide (k_requestID k = id')) as [<-|].
    + rewrite lookup_insert_eq. split; [|intros (? & ? & [= <- <-] & _ & ->); set_solver].
      destruct (ri_RequireClaim (k_info k)) eqn:Hc; [eauto 10|].
      intros (? & ? & ? & _)%I2. congruence.
    + rewrite lookup_insert_ne, <- I2 by done. destruct (ri_RequireClaim _); set_solver.
  - intros id'. destruct (decide (k_requestID k = id')) as [<-|].
    + rewrite lookup_insert_eq. split; [eauto|set_solver].
    + rewrite lookup_insert_ne, <- I3 by done. set_solver.
Qed.

Lemma maps_inv_unregister s k t :
  s_threads s !! k_requestID k = Some (k, t) → live t = true → maps_inv s → maps_inv (unregister s k).
Proof.
  intros Hk Hl [I1 I2 I3]. constructor; simpl.
  - intros id' k' t'. rewrite lookup_insert_Some. intros [[<- [= <- <-]]|[_ ?]]; eauto.
  - intros id'. destruct (decide (k_requestID k = id')) as [<-|].
    + rewrite lookup_insert_eq. split; [|intros (? & ? & [= <- <-] & [=] & _)].
      destruct (ri_RequireClaim (k_info k)) eqn:Hc; [set_solver|].
      rewrite I2, Hk. intros (? & ? & [= <- <-] & _ & ?). congruence.
    + rewrite lookup_insert_ne, <- I2 by done. destruct (ri_RequireClaim _); set_solver.
  - intros id'. destruct (decide (k_requestID k = id')) as [<-|].
    + rewrite lookup_insert_eq. split; [set_solver|by intros (? & ? & [= <- <-] & [=])].
    + rewrite lookup_insert_ne, <- I3 by done. set_solver.
Qed.

Lemma maps_inv_step l s s' : maps_inv s → sys_step itoa l s = Some s' → maps_inv s'.
Proof.
  intros Hinv. destruct l as [k|i now err|i now src pe|i|claim|res| | |]; intros Hstep.
  - simpl in Hstep. destruct (s_threads s !! k_requestID k) eqn:?; [done|]. injection Hstep as <-.
    by apply maps_inv_register.
  - simpl in Hstep. destruct (s_threads s !! i) as [[k []]|] eqn:Hk; simplify_eq.
    by eapply maps_inv_thread.
  - apply sys_step_turn in Hstep as (k & p & ev & s1 & Hk & _ & Hrecv & ->).
    assert (Hsame : s_claimRequests s1 = s_claimRequests s ∧
      s_responseChannels s1 = s_responseChannels s ∧ s_threads s1 = s_threads s)
      by (apply receive_cases in Hrecv as [[-> _]|[(?&?&?&_&_&_&_&_&_& ->)|(?&?&?&_&_&_&_&_& ->)]]; done).
    destruct Hsame as (Hc & Hr & Ht).
    apply (maps_inv_thread s1 i k (TRunning p)); [congruence|done|by eapply maps_inv_ext].
  - simpl in Hstep. destruct (s_threads s !! i) as [[k [|[]|]]|] eqn:Hk; simplify_eq.
    pose proof (inv_id s Hinv _ _ _ Hk) as <-. by eapply maps_inv_unregister.
  - simpl in Hstep. destruct (s_reader s); simplify_eq. unfold routeClaim.
    case_bool_decide; [|done]. by apply (maps_inv_ext s).
  - simpl in Hstep. destruct (s_reader s); simplify_eq. unfold routeResponse.
    case_bool_decide; [|done]. by apply (maps_inv_ext s).
  - simpl in Hstep. apply reader_send_cases in Hstep as [(?&?&?&_&_& ->)|(?&?&?&_&_& ->)];
      by apply (maps_inv_ext s).
  - simpl in Hstep. injection Hstep as <-. by apply (maps_inv_ext s).
  - simpl in Hstep. destruct (s_reader s), (s_closed s); simplify_eq. by apply (maps_inv_ext s).
Qed.

Lemma chans_inv_step l s s' : chans_inv s → sys_step itoa l s = Some s' → chans_inv s'.
Proof.
  intros [I1 I2 I3 I4 I5].
  destruct l as [k|i now err|i now src pe|i|claim|res| | |]; intros Hstep.
  - simpl in Hstep. destruct (s_threads s !! k_requestID k) eqn:?; [done|]. injection Hstep as <-.
    constructor; simpl.
    + intros id c. destruct (ri_RequireClaim _); [|apply I1].
      rewrite lookup_insert_Some. intros [[_ <-]|[_ Hc]]; [done|by apply (I1 id)].
    + intros id c. rewrite lookup_insert_Some. intros [[_ <-]|[_ Hc]]; [done|by apply (I2 id)].
    + intros id. destruct (ri_RequireClaim _); [|apply I3]. rewrite lookup_insert_is_Some.
      intros Hin. destruct (decide (k_requestID k = id)); [by left|right]. split; [done|]. set_solver.
    + intros id. rewrite lookup_insert_is_Some.
      intros Hin. destruct (decide (k_requestID k = id)); [by left|right]. split; [done|]. set_solver.
    + destruct (s_reader s); try done; [destruct (ri_RequireClaim _); [|done]|];
        apply lookup_insert_is_Some'; by right.
  - simpl in Hstep. destruct (s_threads s !! i) as [[k []]|] eqn:Hk; simplify_eq. by constructor.
  - apply sys_step_turn in Hstep as (k & p & ev & s1 & Hk & _ & Hrecv & ->).
    apply receive_cases in Hrecv as [[-> _]|[(claim & c & c' & _ & _ & Hc & _ & Hcap & Hcl & ->)|
      (res & c & c' & _ & Hc & _ & Hcap & Hcl & ->)]]; (constructor; simpl; auto).
    + intros id c0. rewrite lookup_insert_Some. intros [[_ <-]|[_ Hc0]]; [|by apply (I1 id)].
      rewrite Hcap, Hcl. by eapply I1.
    + intros id ?%I3. apply lookup_insert_is_Some'; by right.
    + destruct (s_reader s); try done. apply lookup_insert_is_Some'; by right.
    + intros id c0. rewrite lookup_insert_Some. intros [[_ <-]|[_ Hc0]]; [|by apply (I2 id)].
      rewrite Hcap, Hcl. by eapply I2.
    + intros id ?%I4. apply lookup_insert_is_Some'; by right.
    + destruct (s_reader s); try done. apply lookup_insert_is_Some'; by right.
  - simpl in Hstep. destruct (s_threads s !! i) as [[k [|[]|]]|] eqn:Hk; simplify_eq.
    constructor; simpl; auto.
    + intros id Hin. apply I3. destruct (ri_RequireClaim _); set_solver.
    + intros id Hin. apply I4. set_solver.
  - simpl in Hstep. destruct (s_reader s) eqn:Hr; simplify_eq. unfold routeClaim.
    case_bool_decide; constructor; simpl; rewrite ?Hr; auto.
  - simpl in Hstep. destruct (s_reader s) eqn:Hr; simplify_eq. unfold routeResponse.
    case_bool_decide; constructor; simpl; rewrite ?Hr; auto.
  - simpl in Hstep. apply reader_send_cases in Hstep as
      [(id & claim & c & _ & Hc & ->)|(id & res & c & _ & Hc & ->)]; (constructor; simpl; auto).
    + intros id' c0. rewrite lookup_insert_Some. intros [[_ <-]|[_ Hc0]]; [|by apply (I1 id')].
      by destruct (I1 _ _ Hc).
    + intros id' ?%I3. apply lookup_insert_is_Some'; by right.
    + intros id' c0. rewrite lookup_insert_Some. intros [[_ <-]|[_ Hc0]]; [|by apply (I2 id')].
      by destruct (I2 _ _ Hc).
    + intros id' ?%I4. apply lookup_insert_is_Some'; by right.
  - simpl in Hstep. injection Hstep as <-. by constructor.
  - simpl in Hstep. destruct (s_reader s), (s_closed s); simplify_eq. by constructor.
Qed.

(** *** Runs from a new client *)

Lemma sys_step_size l s s' : sys_step itoa l s = Some s' → s_ChannelSize s' = s_ChannelSize s.
Proof.
  destruct l as [k|i now err|i now src pe|i|claim|res| | |]; intros Hstep.
  - simpl in Hstep. by destruct (s_threads s !! k_requestID k); simplify_eq.
  - simpl in Hstep. by destruct (s_threads s !! i) as [[k []]|]; simplify_eq.
  - apply sys_step_turn in Hstep as (k & p & ev & s1 & _ & _ & Hrecv & ->).
    by apply receive_cases in Hrecv as [[-> _]|[(?&?&?&_&_&_&_&_&_& ->)|(?&?&?&_&_&_&_&_& ->)]].
  - simpl in Hstep. by destruct (s_threads s !! i) as [[k [|[]|]]|]; simplify_eq.
  - simpl in Hstep. destruct (s_reader s); simplify_eq. unfold routeClaim. by case_bool_decide.
  - simpl in Hstep. destruct (s_reader s); simplify_eq. unfold routeResponse. by case_bool_decide.
  - simpl in Hstep. by apply reader_send_cases in Hstep as [(?&?&?&_&_& ->)|(?&?&?&_&_& ->)].
  - simpl in Hstep. by injection Hstep as <-.
  - simpl in Hstep. by destruct (s_reader s), (s_closed s); simplify_eq.
Qed.

(** The messages the reader took for a request in a run. *)
Definition claims_in (ls : list (label T)) (id : string) : list ClaimRequest :=
  ls ≫= λ l, claims_taken l id.
Definition responses_in (ls : list (label T)) (id : string) : list Response :=
  ls ≫= λ l, responses_taken l id.

Lemma sys_run_invariants ls s s' :
  own_messages s → maps_inv s → chans_inv s → sys_run itoa ls s = Some s' →
  own_messages s' ∧ maps_inv s' ∧ chans_inv s' ∧ s_ChannelSize s' = s_ChannelSize s ∧
  ∀ id, (length (claims_to s' id) <= length (claims_to s id) + length (claims_in ls id))%nat ∧
        (length (responses_to s' id) <= length (responses_to s id) + length (responses_in ls id))%nat.
Proof.
  revert s. induction ls as [|l ls IH]; intros s Ho Hm Hc; simpl.
  - intros [= <-]. split_and!; try done. intros id. simpl. lia.
  - destruct (sys_step itoa l s) as [s1|] eqn:Hl; simpl; [|done]. intros Hrun.
    destruct (IH s1) as (?&?&?&Hsize&Hlen); eauto using own_messages_step, maps_inv_step, chans_inv_step.
    split_and!; try done; [by rewrite Hsize, (sys_step_size l s s1)|].
    intros id. specialize (Hlen id).
    pose proof (sublist_length _ _ (claims_flow l s s1 id Hl)) as Hfc.
    pose proof (sublist_length _ _ (responses_flow l s s1 id Hl)) as Hfr.
    unfold claims_in, responses_in in *. simpl. rewrite !length_app in *. lia.
Qed.

Lemma new_sys_invariants size :
  own_messages (new_sys size) ∧ maps_inv (new_sys size) ∧ chans_inv (new_sys size).
Proof.
  split_and!.
  - intros id. split; constructor.
  - constructor; simpl; intros id; try (intros k t); rewrite ?lookup_empty;
      [done|split; [set_solver|by intros (?&?&[=]&_)]..].
  - constructor; simpl; try done; set_solver.
Qed.

Lemma new_sys_empty size id : claims_to (new_sys size) id = [] ∧ responses_to (new_sys size) id = [].
Proof. unfold claims_to, responses_to. simpl. by rewrite !lookup_empty. Qed.

(** *** A reader that cannot send *)

(** The reader holds a claim for a request that takes no more of them, and its channel
    is full. *)
Definition wedged s (id : string) (claim : ClaimRequest) : Prop :=
  s_reader s = RSendClaim id claim ∧
  (∃ c, s_claimChans s !! id = Some c ∧ chan_closed c = false ∧
     (chan_cap c <= length (chan_buf c))%nat) ∧
  (∃ k t, s_threads s !! id = Some (k, t) ∧ k_requestID k = id ∧
     match t with TPublishing => False | TRunning p => takes_claims p = false | TGone => True end).

Lemma rpc_step_takes_no_claims (k : call T) now ev e p :
  takes_claims p = false → takes_claims (rpc_step itoa k now ev e p).1 = false.
Proof. destruct p as [v|[]|r]; [done|done| |done]. by destruct ev as [[]|]. Qed.

Lemma wedged_no_send s id claim : wedged s id claim → reader_send s = None.
Proof.
  intros (Hr & (c & Hc & Hcl & Hfull) & _). unfold reader_send. rewrite Hr, Hc. simpl.
  unfold chan_send. by rewrite Hcl, (proj2 (Nat.ltb_ge _ _)).
Qed.

Lemma wedged_step l s s' id claim :
  maps_inv s → wedged s id claim → sys_step itoa l s = Some s' → wedged s' id claim.
Proof.
  intros Hm Hw Hstep. pose proof (wedged_no_send _ _ _ Hw) as Hns.
  destruct Hw as (Hr & (c & Hc & Hcl & Hfull) & (k & t & Hk & Hid & Ht)).
  destruct l as [k'|i now err|i now src pe|i|claim'|res| | |].
  - simpl in Hstep. destruct (s_threads s !! k_requestID k') eqn:Hnew; [done|]. injection Hstep as <-.
    assert (k_requestID k' ≠ id) by (intros Heq; by rewrite Heq, Hk in Hnew). split_and!; [done| |].
    + exists c. simpl. destruct (ri_RequireClaim _); [|done]. by rewrite lookup_insert_ne.
    + exists k, t. simpl. by rewrite lookup_insert_ne.
  - simpl in Hstep. destruct (s_threads s !! i) as [[k' []]|] eqn:Hi; simplify_eq.
    split_and!; [done|by exists c|]. exists k, t. simpl.
    rewrite lookup_insert_ne; [done|]. intros ->. rewrite Hi in Hk. by simplify_eq.
  - apply sys_step_turn in Hstep as (k' & p & ev & s1 & Hi & _ & Hrecv & ->).
    assert (Hs1 : s_reader s1 = s_reader s ∧ s_threads s1 = s_threads s ∧
      s_claimChans s1 !! id = s_claimChans s !! id).
    { apply receive_cases in Hrecv as [[-> _]|[(?&?&?&_&Htake&_&_&_&_& ->)|(?&?&?&_&_&_&_&_& ->)]];
        [done| |done]. split_and!; [done|done|]. simpl. apply lookup_insert_ne. intros ->.
      rewrite Hi in Hk. simplify_eq. congruence. }
    destruct Hs1 as (Hr1 & Ht1 & Hc1). split_and!; [simpl; congruence|exists c; simpl; by rewrite Hc1|].
    simpl. rewrite Ht1. destruct (decide (i = id)) as [->|].
    + rewrite Hi in Hk. simplify_eq. eexists k, _. rewrite lookup_insert_eq.
      split_and!; [done|done|]. by apply rpc_step_takes_no_claims.
    + exists k, t. by rewrite lookup_insert_ne.
  - simpl in Hstep. destruct (s_threads s !! i) as [[k' [|[]|]]|] eqn:Hi; simplify_eq.
    pose proof (inv_id s Hm _ _ _ Hi) as <-. split_and!; [done|by exists c|]. simpl.
    destruct (decide (k_requestID k' = k_requestID k)) as [Heq|].
    + rewrite Heq in *. rewrite Hi in Hk. simplify_eq. exists k, TGone. by rewrite lookup_insert_eq.
    + exists k, t. by rewrite lookup_insert_ne.
  - simpl in Hstep. by rewrite Hr in Hstep.
  - simpl in Hstep. by rewrite Hr in Hstep.
  - simpl in Hstep. congruence.
  - simpl in Hstep. injection Hstep as <-. split_and!; [done|by exists c|by exists k, t].
  - simpl in Hstep. by rewrite Hr in Hstep.
Qed.

Lemma wedged_run ls s s' id claim :
  maps_inv s → wedged s id claim → sys_run itoa ls s = Some s' → wedged s' id claim.
Proof.
  revert s. induction ls as [|l ls IH]; intros s Hm Hw; simpl; [by intros [= <-]|].
  destruct (sys_step itoa l s) as [s1|] eqn:Hl; simpl; [|done].
  eauto using maps_inv_step, wedged_step.
Qed.
End invariant.

(** ** A client whose channels hold one claim *)

Module SmallClient.
Section with_api.
Context `{GrpcApi} `{!StatusApi} `{!Codec} {T : carried}.

(** A request for the first server available. *)
Definition first_available : call T :=
  MkCall (MkRequestInfo (MkRPCInfo "svc" "m" [] false) true true false)
    (MkRequestOpts Second (MkSelectionOpts f32_zero f32_zero true Second 0 None) [])
    "REQ_1" Second "T".

Definition bid (server : string) : ClaimRequest := MkClaimRequest "REQ_1" server f32_one.

(** Three servers bid; the first is granted, the second's bid stays queued. *)
Definition three_bids : list (label T) :=
  [LStart first_available; LPublished "REQ_1" 0 None;
   LTakeClaim (bid "SRV_a"); LSend; LTurn "REQ_1" 1 FromClaims None;
   LTakeClaim (bid "SRV_b"); LSend; LTakeClaim (bid "SRV_c")].
End with_api.
End SmallClient.

(** ** Properties *)

(** C4: requests are kept apart and leave nothing behind, whatever the interleaving of
    the requests and of the client's read loop, and whatever the client receives: what
    a request takes from its channels bears its own ID; the client's map of response
    channels has the requests under way and no others, its map of claims those of them
    whose method requires a claim and no others, so both are empty once every request
    returned. *)
Theorem requests_isolated `{GrpcApi} `{!StatusApi} `{!Codec} {T : carried} (itoa : Z → string)
    (size : nat) (ls : list (label T)) (s : sys T)
    (Hrun : sys_run itoa ls (new_sys size) = Some s) :
  (∀ id p src ev s', receive s id p src = Some (ev, s') →
     match ev with
     | Sel (EvClaim c) => cq_RequestId c = id
     | Sel (EvResponse r) => rs_RequestId r = id
     | _ => True
     end) ∧
  (∀ id, id ∈ s_responseChannels s ↔
     ∃ k t, s_threads s !! id = Some (k, t) ∧ k_requestID k = id ∧ live t = true) ∧
  (∀ id, id ∈ s_claimRequests s ↔
     ∃ k t, s_threads s !! id = Some (k, t) ∧ k_requestID k = id ∧ live t = true ∧
       ri_RequireClaim (k_info k) = true) ∧
  ((∀ id k t, s_threads s !! id = Some (k, t) → t = TGone) →
     s_claimRequests s = ∅ ∧ s_responseChannels s = ∅).
Proof.
  destruct (new_sys_invariants (T := T) size) as (Ho & Hm & Hc).
  destruct (sys_run_invariants itoa ls _ s Ho Hm Hc Hrun) as (Ho' & [Hid Hcl Hre] & _). split_and!.
  - intros id p src ev s' Hrecv. destruct (Ho' id) as [Hoc Hor].
    apply receive_cases in Hrecv as [[_ ?]|[(claim & c & c' & -> & _ & Hlk & Hb & _)|
      (res & c & c' & -> & Hlk & Hb & _)]]; [by destruct ev as [[]|]|..].
    + unfold claims_to in Hoc. rewrite Hlk in Hoc. simpl in Hoc. rewrite Hb in Hoc. by inversion Hoc.
    + unfold responses_to in Hor. rewrite Hlk in Hor. simpl in Hor. rewrite Hb in Hor. by inversion Hor.
  - intros id. rewrite Hre. split; intros (k & t & Hk & ?); [|naive_solver].
    exists k, t. split_and!; [done|by eapply Hid|done].
  - intros id. rewrite Hcl. split; intros (k & t & Hk & ?); [|naive_solver].
    exists k, t. split_and!; [done|by eapply Hid|naive_solver..].
  - intros Hgone. split; apply set_eq; intros id; (split; [|set_solver]).
    + intros (k & t & ->%Hgone & [=] & _)%Hcl.
    + intros (k & t & ->%Hgone & [=])%Hre.
Qed.

(** The read loop never blocks on a request as long as the request gets at most one
    response and no more bids than its channel holds: the send it is at can be made. *)
Theorem reader_never_blocks `{GrpcApi} `{!StatusApi} `{!Codec} {T : carried} (itoa : Z → string)
    (size : nat) (ls : list (label T)) (s : sys T)
    (Hrun : sys_run itoa ls (new_sys size) = Some s)
    (Hclaims : ∀ id, (length (claims_in ls id) <= size)%nat)
    (Hresponses : ∀ id, (length (responses_in ls id) <= 1)%nat) :
  (∃ id c, s_reader s = RSendClaim id c) ∨ (∃ id r, s_reader s = RSendResponse id r) →
  is_Some (sys_step itoa LSend s).
Proof.
  destruct (new_sys_invariants (T := T) size) as (Ho & Hm & Hc).
  destruct (sys_run_invariants itoa ls _ s Ho Hm Hc Hrun) as (_ & _ & [Ic Ir _ _ Irdr] & Hsize & Hlen).
  intros [(id & c & Hr)|(id & r & Hr)]; simpl; unfold reader_send; rewrite Hr in *;
    destruct Irdr as [ch Hch]; rewrite Hch; simpl; unfold chan_send; destruct (Hlen id) as [Hlc Hlr];
    destruct (new_sys_empty (T := T) size id) as [He1 He2]; rewrite He1 in Hlc; rewrite He2 in Hlr.
  - destruct (Ic id ch Hch) as [Hcap ->]. unfold claims_to, in_hand_claims in Hlc. rewrite Hch, Hr in Hlc.
    simpl in Hlc. rewrite bool_decide_eq_true_2, length_app in Hlc by done. simpl in Hlc, Hsize.
    specialize (Hclaims id). rewrite (proj2 (Nat.ltb_lt _ _)) by lia. eauto.
  - destruct (Ir id ch Hch) as [Hcap ->]. unfold responses_to, in_hand_responses in Hlr.
    rewrite Hch, Hr in Hlr. simpl in Hlr. rewrite bool_decide_eq_true_2, length_app in Hlr by done.
    simpl in Hlr. specialize (Hresponses id). rewrite (proj2 (Nat.ltb_lt _ _)) by lia. eauto.
Qed.

(** With more bids than that the read loop can stop for good: with a channel of one
    claim and three bids for a request that takes the first server available, it
    reaches the send of the third bid and stays there, whatever happens next: the
    request ending and the client being closed included.  No request of the client
    gets any message from then on. *)
Theorem reader_wedges `{GrpcApi} `{!StatusApi} `{!Codec} {T : carried} (itoa : Z → string) :
  ∃ s, sys_run itoa SmallClient.three_bids (new_sys (T := T) 1) = Some s ∧
    s_reader s = RSendClaim "REQ_1" (SmallClient.bid "SRV_c") ∧
    ∀ ls s', sys_run itoa ls s = Some s' →
      s_reader s' = s_reader s ∧ sys_step itoa LSend s' = None.
Proof.
  destruct (sys_run itoa SmallClient.three_bids (new_sys (T := T) 1)) as [s0|] eqn:Hrun0.
  2:{ exfalso. vm_compute in Hrun0. discriminate Hrun0. }
  assert (Hw : wedged s0 "REQ_1" (SmallClient.bid "SRV_c")).
  { vm_compute in Hrun0. injection Hrun0 as <-.
    split_and!; [done|eexists; split_and!; [reflexivity|done|simpl; lia]|].
    eexists _, _. split_and!; reflexivity. }
  destruct (new_sys_invariants (T := T) 1) as (Ho & Hm & Hc).
  destruct (sys_run_invariants itoa _ _ s0 Ho Hm Hc Hrun0) as (_ & Hm0 & _).
  exists s0. split; [done|]. split; [apply Hw|]. intros ls s' Hrun.
  pose proof (wedged_run itoa ls s0 s' _ _ Hm0 Hw Hrun) as Hw'.
  split; [by rewrite (proj1 Hw'), (proj1 Hw)|]. simpl. by eapply wedged_no_send.
Qed.

(** ** Examples *)

Section example_runs.
Context `{GrpcApi} `{!StatusApi} `{!Codec} {T : carried} (itoa : Z → string).

Definition one_response : list (label T) :=
  [LStart SmallClient.first_available; LPublished "REQ_1" 0 None;
   LTakeClaim (SmallClient.bid "SRV_a"); LSend; LTurn "REQ_1" 1 FromClaims None;
   LTakeResponse (MkResponse "REQ_1" "SRV_a" 2 "" "" [] [])].

Definition whole_request : list (label T) :=
  one_response ++ [LSend; LTurn "REQ_1" 3 FromResponses None; LDefer "REQ_1"].

Lemma one_response_runs : ∃ s, sys_run itoa one_response (new_sys 100) = Some s ∧
  s_reader s = RSendResponse "REQ_1" (MkResponse "REQ_1" "SRV_a" 2 "" "" [] []).
Proof.
  destruct (sys_run itoa one_response (new_sys 100)) as [s|] eqn:Hrun; vm_compute in Hrun; [|discriminate].
  exists s. split; [done|]. by injection Hrun as <-.
Qed.

Lemma whole_request_runs : ∃ s, sys_run itoa whole_request (new_sys 100) = Some s ∧
  s_threads s = {["REQ_1" := (SmallClient.first_available, TGone)]}.
Proof.
  destruct (sys_run itoa whole_request (new_sys 100)) as [s|] eqn:Hrun; vm_compute in Hrun; [|discriminate].
  exists s. split; [done|]. by injection Hrun as <-.
Qed.
End example_runs.

Section router_witnesses.
#[local] Existing Instances grpc_numbers example_status.
#[local] Existing Instance Bus.Example.codec.

Lemma requests_isolated_witness : ∃ s,
  sys_run (λ _, "") (whole_request (T := no_carried)) (new_sys 100) = Some s ∧
  s_claimRequests s = ∅ ∧ s_responseChannels s = ∅.
Proof.
  destruct (whole_request_runs (T := no_carried) (λ _, "")) as (s & Hrun & Hth).
  exists s. split; [exact Hrun|]. apply (requests_isolated (λ _, "") 100 whole_request s Hrun).
  rewrite Hth. intros id k t Hk. apply lookup_singleton_Some in Hk as [_ Hk]. congruence.
Defined.

Lemma reader_never_blocks_witness : ∃ s,
  sys_run (λ _, "") (one_response (T := no_carried)) (new_sys 100) = Some s ∧
  is_Some (sys_step (λ _, "") LSend s).
Proof.
  destruct (one_response_runs (T := no_carried) (λ _, "")) as (s & Hrun & Hr).
  exists s. split; [exact Hrun|]. apply (reader_never_blocks (λ _, "") 100 one_response s Hrun).
  - intros id. simpl. case_bool_decide; simpl; lia.
  - intros id. simpl. case_bool_decide; simpl; lia.
  - right. eauto.
Defined.
End router_witnesses.
