(* ===== verification/ServerRPC.v ===== *)
(** * ServerRPC.v: how a server handles a request ([src/pkg/server/rpc.go])

    [handleRequest] and what it calls, as a machine: [handle] is the code up to the
    wait for the client's decision, [decide_claim] the code after it.  What the server
    does on the way (bids, responses, observations, the run of the handler) is the
    list of [act]s it returns.  Times are read from arguments, and what the bus
    answers to a bid is one. *)
From S2P Require Import Prelude Errors Bus Info Metadata Interceptors Float32 Options Messages.

Section server_rpc.
Context `{GrpcApi} `{!StatusApi} `{!Codec} {W : Type}.

(** What [handleRequest] hands the handler: the incoming metadata and the deadline. *)
Record hctx : Type := MkHCtx { hc_md : md_context; hc_Deadline : Z }.

(** What a handler returns; a nil response is [None]. *)
Definition outcome : Type := option message * option error.

(** The service implementation, and the handler around it. *)
Definition svc : Type := hctx → message → W → W * outcome.

(** The fields of a handler that its requests read.  [None] as affinity function is
    nil. *)
Record rpcHandlerImpl : Type := MkHandler {
  h_i : RequestInfo;
  h_RequestType : string;
  h_handler : svc;
  h_affinityFunc : option (hctx → message → float32)
}.

(** The fields of the server they read. *)
Record server : Type := MkServer { sv_Name : string; sv_ID : string }.

(** [newRPCHandler], the checks and the wrapping of the implementation; [interceptor]
    is the chained one, applied to the rpc's info.  A request the interceptor passes
    on does not replace the one received.  [panics] is what an interceptor that does
    not return leaves. *)
Definition newRPCHandler (i : RequestInfo) (requestType : string) (svcImpl : svc)
    (interceptor : option (hctx * message → (hctx * message → W → W * outcome) → W →
                           option (W * outcome)))
    (affinityFunc : option (hctx → message → float32)) (panics : W → W * outcome)
    : result error rpcHandlerImpl :=
  if ri_Queue i && (match affinityFunc with Some _ => true | None => false end) then
    Err (NewErrorf InvalidArgument (ri_Method i +:+ ": affinity function is not valid on a queue rpc"))
  else
    let handler : svc :=
      match interceptor with
      | None => svcImpl
      | Some ic => λ ctx req w,
          default (panics w) (ic (ctx, req) (λ '(ctx, _), svcImpl ctx req) w)
      end in
    Ok (MkHandler i requestType handler affinityFunc).

(** ** Answers *)

Definition answerChannel (service : string) (ir : Request) (shared : string → string → Channel)
    : Channel :=
  if rq_PerRequestReply ir
  then GetResponseChannel service (PerRequestClientID (rq_ClientId ir) (rq_RequestId ir))
  else shared service (rq_ClientId ir).

(** The response [sendResponse] publishes.  A nil response of the response type is a
    message without fields: it marshals to nothing. *)
Definition response_of (s : server) (ir : Request) (now : Z) (response : option message)
    (err : option error) : Response :=
  let res error code raw details :=
    MkResponse (rq_RequestId ir) (sv_ID s) now error code raw details in
  match err with
  | Some err =>
      match as_Error err with
      | Some e => res (Error (view_Error e)) (view_Code e) [] (view_Details e)
      | None =>
          match FromError err with
          | Some st =>
              if bool_decide (st_Code st = codes_OK) then res (Error err) Unknown [] []
              else res (st_Message st) (ErrorCodeFromGRPC (st_Code st)) [] (st_Details st)
          | None => res (Error err) Unknown [] []
          end
      end
  | None =>
      match response with
      | Some m =>
          match SerializePayload m with
          | Err e => res (Error e) MalformedResponse [] []
          | Ok b => res "" OK b []
          end
      | None => res "" OK [] []
      end
  end.

(** ** Handling one request *)

(** What the server does, in order; [AClaim] is told to the observer, if there is one. *)
Inductive act : Type :=
| ABid (ch : Channel) (bid : ClaimRequest)
| AClaim (outcome : ClaimOutcome)
| AHandle (req : message)
| ARespond (ch : Channel) (res : Response).

(** Where the handling is: waiting for the client's decision on the request decoded,
    or over. *)
Inductive hstate : Type :=
| HWaiting (req : message)
| HDone.

Definition respond (s : server) (ir : Request) (now : Z) (response : option message)
    (err : option error) : act :=
  ARespond (answerChannel (sv_Name s) ir GetResponseChannel) (response_of s ir now response err).

(** The context of the request's handler. *)
Definition hctx_of (ir : Request) : hctx :=
  MkHCtx (NewContextWithIncomingHeader background
            (MkHeader (rq_ClientId ir) (rq_SentAt ir) (rq_Metadata ir)))
         (rq_Expiry ir).

(** The end of [handleRequest]: the handler and its response. *)
Definition call_handler (s : server) (h : rpcHandlerImpl) (ir : Request) (now : Z)
    (req : message) (w : W) : W * hstate * list act :=
  let '(w, (response, err)) := h_handler h (hctx_of ir) req w in
  (w, HDone, [AHandle req; respond s ir now response err]).

(** The affinity of [claimRequest]. *)
Definition affinity_of (h : rpcHandlerImpl) (ir : Request) (req : message) : float32 :=
  match h_affinityFunc h with Some f => f (hctx_of ir) req | None => f32_one end.

(** [handleRequest] up to the [select] of [claimRequest].  [pubErr] is what the bus
    answers to the bid. *)
Definition handle (s : server) (h : rpcHandlerImpl) (ir : Request) (now : Z)
    (pubErr : option error) (w : W) : W * hstate * list act :=
  match DeserializePayload (h_RequestType h) (rq_RawRequest ir) with
  | Err e => (w, HDone, [respond s ir now None (Some (newError MalformedRequest e))])
  | Ok req =>
      if ri_RequireClaim (h_i h) then
        if ri_Queue (h_i h) && rq_NoClaim ir then
          let '(w, st, acts) := call_handler s h ir now req w in
          (w, st, AClaim ClaimSkipped :: acts)
        else if f32_lt (affinity_of h ir req) f32_zero then (w, HDone, [])
        else
          let bid := MkClaimRequest (rq_RequestId ir) (sv_ID s) (affinity_of h ir req) in
          (w, match pubErr with Some _ => HDone | None => HWaiting req end,
           [ABid (answerChannel (sv_Name s) ir GetClaimRequestChannel) bid])
      else call_handler s h ir now req w
  end.

(** What ends the wait of [claimRequest]: a decision, or the request's expiry. *)
Inductive decision : Type :=
| Decided (claim : ClaimResponse)
| TimedOut.

Definition decide_claim (s : server) (h : rpcHandlerImpl) (ir : Request) (now : Z)
    (d : decision) (req : message) (w : W) : W * hstate * list act :=
  match d with
  | Decided claim =>
      if bool_decide (cr_ServerId claim = sv_ID s) then
        let '(w, st, acts) := call_handler s h ir now req w in
        (w, st, AClaim ClaimGranted :: acts)
      else (w, HDone, [AClaim ClaimLostToPeer])
  | TimedOut => (w, HDone, [AClaim ClaimTimedOut])
  end.

(** The whole of [handleRequest]: [decided] is what the wait ends with, looked at only
    when there is one, [now'] the time then. *)
Definition handleRequest (s : server) (h : rpcHandlerImpl) (ir : Request) (now : Z)
    (pubErr : option error) (decided : decision) (now' : Z) (w : W) : W * list act :=
  let '(w, st, acts) := handle s h ir now pubErr w in
  match st with
  | HDone => (w, acts)
  | HWaiting req =>
      let '(w, _, acts') := decide_claim s h ir now' decided req w in
      (w, acts ++ acts')
  end.
End server_rpc.

(** ** Lemmas *)

Section server_lemmas.
Context `{GrpcApi} `{!StatusApi} `{!Codec} {W : Type}.
Implicit Types (s : server) (h : rpcHandlerImpl (W := W)) (ir : Request) (w : W).

(** Whether a list of acts runs the handler. *)
Definition handles (acts : list act) : bool :=
  existsb (λ a, match a with AHandle _ => true | _ => false end) acts.

(** The text and the code an error reaches the caller with. *)
Definition error_text (err : error) : string :=
  match as_Error err with
  | Some e => Error (view_Error e)
  | None =>
      match FromError err with
      | Some st => if bool_decide (st_Code st = codes_OK) then Error err else st_Message st
      | None => Error err
      end
  end.

Definition caller_code (err : error) : ErrorCode :=
  let code := (GetErrorCode (Some err)).1 in if bool_decide (code = "") then Unknown else code.

Lemma response_of_error s ir now response err :
  let res := response_of s ir now response (Some err) in
  rs_Error res = error_text err ∧
  (if bool_decide (rs_Code res = "") then Unknown else rs_Code res) = caller_code err.
Proof.
  unfold response_of, error_text, caller_code, GetErrorCode. simpl.
  destruct (as_Error err) as [e|]; [done|].
  destruct (FromError err) as [st|]; [|done]. simpl.
  destruct (bool_decide_reflect (st_Code st = codes_OK)) as [->|]; [|done]. simpl.
  split; [done|].
  assert (Hok : ErrorCodeFromGRPC codes_OK = OK).
  { unfold ErrorCodeFromGRPC. cbn [switch].
    by rewrite (bool_decide_eq_true_2 (codes_OK ∈ [codes_OK])) by apply list_elem_of_here. }
  by rewrite Hok.
Qed.

Lemma call_handler_acts s h ir now req w :
  ∃ response err, (h_handler h (hctx_of ir) req w).2 = (response, err) ∧
    call_handler s h ir now req w
    = ((h_handler h (hctx_of ir) req w).1, HDone, [AHandle req; respond s ir now response err]).
Proof.
  unfold call_handler. destruct (h_handler h (hctx_of ir) req w) as [w' [response err]]. eauto.
Qed.

(** A handler that needs a claim runs on a grant, or without one on a queue. *)
Lemma handles_needs_grant s h ir now pubErr decided now' w :
  handles (handleRequest s h ir now pubErr decided now' w).2 = true →
  (ri_RequireClaim (h_i h) = false ∨ (ri_Queue (h_i h) = true ∧ rq_NoClaim ir = true)) ∨
  ∃ claim, decided = Decided claim ∧ cr_ServerId claim = sv_ID s.
Proof.
  unfold handleRequest, handle. destruct (DeserializePayload _ _) as [req|e]; [|done].
  destruct (ri_RequireClaim (h_i h)); [|by left; left].
  destruct (ri_Queue (h_i h) && rq_NoClaim ir) eqn:Hq.
  { apply andb_prop in Hq. by left; right. }
  destruct (f32_lt _ _), pubErr; try done. destruct decided as [claim|]; simpl; [|done].
  destruct (bool_decide_reflect (cr_ServerId claim = sv_ID s)); [|done]. eauto.
Qed.
End server_lemmas.

(** ** Properties *)

(** C14: the handler runs exactly when it may: the request decodes, and either the rpc
    needs no claim, or the queue chose the server for a caller that needs none, or the
    server did not decline, its bid went out and the decision it waited for granted
    it.  It runs once, its answer is published after it, on the caller's channel, and
    nothing follows. *)
Theorem handler_runs_iff `{GrpcApi} `{!StatusApi} `{!Codec} {W} (s : server)
    (h : rpcHandlerImpl (W := W)) (ir : Request) (now now' : Z) (pubErr : option error)
    (decided : decision) (w : W) :
  let acts := (handleRequest s h ir now pubErr decided now' w).2 in
  (handles acts = true ↔ ∃ req, DeserializePayload (h_RequestType h) (rq_RawRequest ir) = Ok req ∧
     (ri_RequireClaim (h_i h) = true →
      (ri_Queue (h_i h) = true ∧ rq_NoClaim ir = true) ∨
      (f32_lt (affinity_of h ir req) f32_zero = false ∧ pubErr = None ∧
       ∃ claim, decided = Decided claim ∧ cr_ServerId claim = sv_ID s))) ∧
  (handles acts = true → ∃ before req t response err,
     acts = before ++ [AHandle req; respond s ir t response err] ∧ handles before = false ∧
     ∃ w0, (h_handler h (hctx_of ir) req w0).2 = (response, err)).
Proof.
  cbn zeta. unfold handleRequest, handle.
  destruct (DeserializePayload _ _) as [req|e]; simpl; [|split; [split; [done|naive_solver]|done]].
  assert (Hcall : ∀ pre t, handles pre = false →
    let acts := pre ++ (call_handler s h ir t req w).2 in
    handles acts = true ∧ ∃ before req t response err,
     acts = before ++ [AHandle req; respond s ir t response err] ∧ handles before = false ∧
     ∃ w0, (h_handler h (hctx_of ir) req w0).2 = (response, err)).
  { intros pre t Hpre. destruct (call_handler_acts s h ir t req w) as (response & err & Hh & ->). simpl.
    split; [unfold handles; rewrite existsb_app; by apply orb_true_r|].
    exists pre, req, t, response, err. eauto. }
  destruct (ri_RequireClaim (h_i h)) eqn:Hc; simpl.
  2:{ specialize (Hcall [] now eq_refl). destruct (call_handler_acts s h ir now req w) as (r & e & Hh & Heq).
      rewrite Heq in *. simpl in *. split; [split; [intros _; exists req; by split|done]|]. naive_solver. }
  destruct (ri_Queue (h_i h) && rq_NoClaim ir) eqn:Hq.
  { specialize (Hcall [AClaim ClaimSkipped] now eq_refl).
    destruct (call_handler_acts s h ir now req w) as (r & e & Hh & Heq). rewrite Heq in *. simpl in *.
    apply andb_prop in Hq. split; [|naive_solver]. split; [|done].
    intros _. exists req. split; [done|]. intros _. by left. }
  assert (Hq' : ¬ (ri_Queue (h_i h) = true ∧ rq_NoClaim ir = true))
    by (intros [H1' H2']; by rewrite H1', H2' in Hq).
  destruct (f32_lt _ _) eqn:Haff; simpl.
  { split; [|done]. split; [done|]. intros (? & [= <-] & Hg). naive_solver congruence. }
  destruct pubErr as [pe|]; simpl.
  { split; [|done]. split; [done|]. intros (? & [= <-] & Hg). naive_solver. }
  destruct decided as [claim|]; simpl;
    [|split; [|done]; split; [done|]; intros (? & [= <-] & Hg); naive_solver].
  destruct (bool_decide_reflect (cr_ServerId claim = sv_ID s)) as [Hid|Hid]; simpl;
    [|split; [|done]; split; [done|]; intros (? & [= <-] & Hg); naive_solver].
  set (bid := ABid _ _). specialize (Hcall [bid; AClaim ClaimGranted] now' eq_refl).
  destruct (call_handler_acts s h ir now' req w) as (r & e & Hh & Heq). rewrite Heq in *. simpl in *.
  split; [|naive_solver]. split; [|done]. intros _. exists req. eauto 10.
Qed.
