(* ===== verification/ServerRun.v ===== *)
(** * ServerRun.v: the goroutines of a handler ([src/pkg/server/rpc.go])

    [run]'s loop, the goroutines of the requests it takes, and [close], in all their
    interleavings.  A request's goroutine goes through the code [ServerRPC] has as one
    function, in the steps between which others may come in; [goroutine_handles] says
    that alone it does what that function says.

    The handler's subscriptions are their channels: what the bus delivers is sent on
    them, and closing one closes its channel, after which what it still holds is read
    ([src/pkg/bus/subscription.go]).  The channels have a positive size. *)
From S2P Require Import Prelude Errors Bus Info Metadata Interceptors Float32 Options Messages ServerRPC.

Section server_run.
Context `{GrpcApi} `{!StatusApi} `{!Codec} {W : Type}.
Context (s : server) (h : rpcHandlerImpl (W := W)).

(** ** A request's goroutine *)

(** Where it is: before the decoding, about to publish its bid with its channel in
    [h.claims], in the [select], about to leave [h.claims] with what was decided,
    about to call the handler, before [handling.Done], or over. *)
Inductive task : Type :=
| TStarted
| TBidding (req : message)
| TWaiting (req : message)
| TLeaving (granted : option message)
| TCalling (req : message)
| TReturning
| TOver.

(** What a step of it takes from outside: the time, the bus's answer to the bid, and
    what its [select] takes. *)
Record input : Type := MkInput {
  in_now : Z;
  in_pubErr : option error;
  in_decision : decision
}.

(** The start of [handleRequest] and [claimRequest], up to the registration. *)
Definition begin (ir : Request) (now : Z) : task * list act :=
  match DeserializePayload (h_RequestType h) (rq_RawRequest ir) with
  | Err e => (TReturning, [respond s ir now None (Some (newError MalformedRequest e))])
  | Ok req =>
      if ri_RequireClaim (h_i h) then
        if ri_Queue (h_i h) && rq_NoClaim ir then (TCalling req, [AClaim ClaimSkipped])
        else if f32_lt (affinity_of h ir req) f32_zero then (TReturning, [])
        else (TBidding req, [])
      else (TCalling req, [])
  end.

(** The [select] of [claimRequest]. *)
Definition decide_step (req : message) (d : decision) : task * list act :=
  match d with
  | Decided claim =>
      if bool_decide (cr_ServerId claim = sv_ID s) then (TLeaving (Some req), [AClaim ClaimGranted])
      else (TLeaving None, [AClaim ClaimLostToPeer])
  | TimedOut => (TLeaving None, [AClaim ClaimTimedOut])
  end.

Definition task_step (ir : Request) (t : task) (inp : input) (w : W) : task * W * list act :=
  match t with
  | TStarted => let '(t, acts) := begin ir (in_now inp) in (t, w, acts)
  | TBidding req =>
      (match in_pubErr inp with Some _ => TLeaving None | None => TWaiting req end, w,
       [ABid (answerChannel (sv_Name s) ir GetClaimRequestChannel)
          (MkClaimRequest (rq_RequestId ir) (sv_ID s) (affinity_of h ir req))])
  | TWaiting req => let '(t, acts) := decide_step req (in_decision inp) in (t, w, acts)
  | TLeaving granted =>
      (match granted with Some req => TCalling req | None => TReturning end, w, [])
  | TCalling req =>
      let '(w, _, acts) := call_handler s h ir (in_now inp) req w in (TReturning, w, acts)
  | TReturning => (TOver, w, [])
  | TOver => (TOver, w, [])
  end.

(** The goroutine run alone, step after step. *)
Fixpoint task_run (ir : Request) (t : task) (inps : list input) (w : W) : task * W * list act :=
  match inps with
  | [] => (t, w, [])
  | inp :: inps =>
      let '(t, w, acts) := task_step ir t inp w in
      let '(t, w, acts') := task_run ir t inps w in
      (t, w, acts ++ acts')
  end.

(** ** The handler *)

(** A goroutine with its request and the channel [claimRequest] makes, of size one. *)
Record goroutine : Type := MkGoroutine {
  g_ir : Request;
  g_task : task;
  g_claims : chan ClaimResponse
}.

(** The loop: at its [select], in the send on a claim channel, or returned. *)
Inductive loop : Type :=
| LoopSelect
| LoopSend (n : nat) (claim : ClaimResponse)
| LoopReturned.

(** [close], run once: before each of its statements. *)
Inductive closing : Type :=
| KRequests (force : bool)
| KDrained
| KWait
| KClaims
| KCompleted
| KComplete
| KReturned.

#[export] Instance closing_eq_dec : EqDecision closing.
Proof. solve_decision. Defined.

(** [r_requestsNil] and [r_claimsNil]: the loop's variables are nil.  [r_handling],
    [r_drained] and [r_complete] are the wait group and the closed channels,
    [r_completed] counts the calls of [onCompleted].  [r_expired] are the requests
    taken too late, [r_acts] what the goroutines did. *)
Record sys : Type := MkSys {
  r_requests : chan Request;
  r_claimSub : chan ClaimResponse;
  r_requestsNil : bool;
  r_claimsNil : bool;
  r_loop : loop;
  r_claims : gmap string nat;
  r_goroutines : list goroutine;
  r_handling : nat;
  r_drained : bool;
  r_complete : bool;
  r_closing : option closing;
  r_completed : nat;
  r_expired : list Request;
  r_acts : list (nat * act);
  r_world : W
}.

(** A handler [run] was just called on; without claims the channel is nil
    ([EmptySubscription]). *)
Definition start (size : nat) (w : W) : sys :=
  MkSys (make_chan size) (make_chan size) false (negb (ri_RequireClaim (h_i h))) LoopSelect ∅ [] 0
    false false None 0 [] [] w.

Inductive outcome : Type :=
| Next (x : sys)
| Blocked
| Panic.

(** ** The loop *)

Definition set_loop (x : sys) (l : loop) : sys :=
  MkSys (r_requests x) (r_claimSub x) (r_requestsNil x) (r_claimsNil x) l (r_claims x)
    (r_goroutines x) (r_handling x) (r_drained x) (r_complete x) (r_closing x) (r_completed x)
    (r_expired x) (r_acts x) (r_world x).

Definition set_requests (x : sys) (c : chan Request) : sys :=
  MkSys c (r_claimSub x) (r_requestsNil x) (r_claimsNil x) (r_loop x) (r_claims x)
    (r_goroutines x) (r_handling x) (r_drained x) (r_complete x) (r_closing x) (r_completed x)
    (r_expired x) (r_acts x) (r_world x).

Definition set_claimSub (x : sys) (c : chan ClaimResponse) : sys :=
  MkSys (r_requests x) c (r_requestsNil x) (r_claimsNil x) (r_loop x) (r_claims x)
    (r_goroutines x) (r_handling x) (r_drained x) (r_complete x) (r_closing x) (r_completed x)
    (r_expired x) (r_acts x) (r_world x).

(** [case ir, ok := <-requests]. *)
Definition take_request (x : sys) (now : Z) : outcome :=
  if r_requestsNil x then Blocked
  else
    match chan_recv (r_requests x) with
    | RecvBlocks => Blocked
    | RecvClosed =>
        if r_drained x then Panic
        else Next (MkSys (r_requests x) (r_claimSub x) true (r_claimsNil x) (r_loop x) (r_claims x)
               (r_goroutines x) (r_handling x) true (r_complete x) (r_closing x) (r_completed x)
               (r_expired x) (r_acts x) (r_world x))
    | Received ir c =>
        let x := set_requests x c in
        if now <? rq_Expiry ir then
          Next (MkSys (r_requests x) (r_claimSub x) (r_requestsNil x) (r_claimsNil x) (r_loop x) (r_claims x)
            (r_goroutines x ++ [MkGoroutine ir TStarted (make_chan 1)]) (S (r_handling x))
            (r_drained x) (r_complete x) (r_closing x) (r_completed x) (r_expired x) (r_acts x) (r_world x))
        else
          Next (MkSys (r_requests x) (r_claimSub x) (r_requestsNil x) (r_claimsNil x) (r_loop x) (r_claims x)
            (r_goroutines x) (r_handling x) (r_drained x) (r_complete x) (r_closing x) (r_completed x)
            (r_expired x ++ [ir]) (r_acts x) (r_world x))
    end.

(** [case claim, ok := <-claims], up to the send. *)
Definition take_claim (x : sys) : outcome :=
  if r_claimsNil x then Blocked
  else
    match chan_recv (r_claimSub x) with
    | RecvBlocks => Blocked
    | RecvClosed =>
        Next (MkSys (r_requests x) (r_claimSub x) (r_requestsNil x) true (r_loop x) (r_claims x)
          (r_goroutines x) (r_handling x) (r_drained x) (r_complete x) (r_closing x) (r_completed x)
          (r_expired x) (r_acts x) (r_world x))
    | Received claim c =>
        let x := set_claimSub x c in
        Next match r_claims x !! cr_RequestId claim with
             | Some n => set_loop x (LoopSend n claim)
             | None => x
             end
    end.

(** [claimChan <- claim]. *)
Definition send_claim (x : sys) (n : nat) (claim : ClaimResponse) : outcome :=
  match r_goroutines x !! n with
  | None => Panic
  | Some g =>
      match chan_send (g_claims g) claim with
      | SendPanics => Panic
      | SendBlocks => Blocked
      | Sent c =>
          Next (MkSys (r_requests x) (r_claimSub x) (r_requestsNil x) (r_claimsNil x) LoopSelect (r_claims x)
            (<[n := MkGoroutine (g_ir g) (g_task g) c]> (r_goroutines x)) (r_handling x)
            (r_drained x) (r_complete x) (r_closing x) (r_completed x) (r_expired x) (r_acts x) (r_world x))
      end
  end.

(** ** The goroutines *)

(** The map [h.claims] when goroutine [n] goes from a point to the next: it is entered
    before the bid and left by the deferred function. *)
Definition claims_after (x : sys) (n : nat) (ir : Request) (t t' : task) : gmap string nat :=
  match t, t' with
  | TStarted, TBidding _ => <[rq_RequestId ir := n]> (r_claims x)
  | TLeaving _, _ => delete (rq_RequestId ir) (r_claims x)
  | _, _ => r_claims x
  end.

(** A step of goroutine [n]; a decision it takes is one its channel holds. *)
Definition goroutine_step (x : sys) (n : nat) (inp : input) : outcome :=
  match r_goroutines x !! n with
  | None => Blocked
  | Some g =>
      let ir := g_ir g in
      let go (c : chan ClaimResponse) : outcome :=
        let '(t', w, acts) := task_step ir (g_task g) inp (r_world x) in
        let handling := match g_task g with TReturning => pred (r_handling x) | _ => r_handling x end in
        Next (MkSys (r_requests x) (r_claimSub x) (r_requestsNil x) (r_claimsNil x) (r_loop x)
          (claims_after x n ir (g_task g) t') (<[n := MkGoroutine ir t' c]> (r_goroutines x)) handling
          (r_drained x) (r_complete x) (r_closing x) (r_completed x) (r_expired x)
          (r_acts x ++ ((λ a, (n, a)) <$> acts)) w) in
      match g_task g with
      | TOver => Blocked
      | TReturning => if (r_handling x =? 0)%nat then Panic else go (g_claims g)
      | TWaiting _ =>
          match in_decision inp with
          | Decided claim =>
              match chan_recv (g_claims g) with
              | Received claim' c => if bool_decide (claim' = claim) then go c else Blocked
              | _ => Blocked
              end
          | TimedOut => go (g_claims g)
          end
      | _ => go (g_claims g)
      end
  end.

(** ** [close] *)

Definition set_closing (x : sys) (k : closing) : sys :=
  MkSys (r_requests x) (r_claimSub x) (r_requestsNil x) (r_claimsNil x) (r_loop x) (r_claims x)
    (r_goroutines x) (r_handling x) (r_drained x) (r_complete x) (Some k) (r_completed x)
    (r_expired x) (r_acts x) (r_world x).

Definition close_step (x : sys) (k : closing) : outcome :=
  match k with
  | KRequests force =>
      match chan_close (r_requests x) with
      | None => Panic
      | Some c => Next (set_closing (set_requests x c) (if force then KClaims else KDrained))
      end
  | KDrained => if r_drained x then Next (set_closing x KWait) else Blocked
  | KWait => if (r_handling x =? 0)%nat then Next (set_closing x KClaims) else Blocked
  | KClaims =>
      match chan_close (r_claimSub x) with
      | None => Panic
      | Some c => Next (set_closing (set_claimSub x c) KCompleted)
      end
  | KCompleted =>
      Next (MkSys (r_requests x) (r_claimSub x) (r_requestsNil x) (r_claimsNil x) (r_loop x) (r_claims x)
        (r_goroutines x) (r_handling x) (r_drained x) (r_complete x) (Some KComplete)
        (S (r_completed x)) (r_expired x) (r_acts x) (r_world x))
  | KComplete =>
      if r_complete x then Panic
      else Next (MkSys (r_requests x) (r_claimSub x) (r_requestsNil x) (r_claimsNil x) (r_loop x) (r_claims x)
             (r_goroutines x) (r_handling x) (r_drained x) true (Some KReturned)
             (r_completed x) (r_expired x) (r_acts x) (r_world x))
  | KReturned => Blocked
  end.

(** What happens: a delivery by the bus, a case of the loop's [select], its send, a step
    of a goroutine, [close] (which [closeOnce] runs once) and its next step. *)
Inductive label : Type :=
| LDeliver (ir : Request)
| LDeliverClaim (claim : ClaimResponse)
| LTakeRequest (now : Z)
| LTakeClaim
| LSend
| LReturn
| LGoroutine (n : nat) (inp : input)
| LClose (force : bool)
| LClosing.

Definition step (l : label) (x : sys) : outcome :=
  match l with
  | LDeliver ir =>
      match chan_send (r_requests x) ir with Sent c => Next (set_requests x c) | _ => Blocked end
  | LDeliverClaim claim =>
      match chan_send (r_claimSub x) claim with Sent c => Next (set_claimSub x c) | _ => Blocked end
  | LTakeRequest now => match r_loop x with LoopSelect => take_request x now | _ => Blocked end
  | LTakeClaim => match r_loop x with LoopSelect => take_claim x | _ => Blocked end
  | LSend => match r_loop x with LoopSend n claim => send_claim x n claim | _ => Blocked end
  | LReturn =>
      match r_loop x with
      | LoopSelect => if r_complete x then Next (set_loop x LoopReturned) else Blocked
      | _ => Blocked
      end
  | LGoroutine n inp => goroutine_step x n inp
  | LClose force => match r_closing x with None => Next (set_closing x (KRequests force)) | Some _ => Blocked end
  | LClosing => match r_closing x with Some k => close_step x k | None => Blocked end
  end.

Fixpoint run (ls : list label) (x : sys) : option sys :=
  match ls with
  | [] => Some x
  | l :: ls => match step l x with Next x => run ls x | _ => None end
  end.
End server_run.

(** ** Invariant *)

Section run_lemmas.
Context `{GrpcApi} `{!StatusApi} `{!Codec} {W : Type}.
Context (s : server) (h : rpcHandlerImpl (W := W)).
Implicit Types (x : sys (W := W)) (l : label).

(** How far [close] has come. *)
Definition past_requests (k : option closing) : bool :=
  match k with None | Some (KRequests _) => false | Some _ => true end.
Definition past_claims (k : option closing) : bool :=
  match k with Some KCompleted | Some KComplete | Some KReturned => true | _ => false end.
Definition past_completed (k : option closing) : bool :=
  match k with Some KComplete | Some KReturned => true | _ => false end.
Definition past_complete (k : option closing) : bool :=
  match k with Some KReturned => true | _ => false end.

(** What the wait group counts. *)
Definition pending (g : goroutine) : nat := match g_task g with TOver => 0 | _ => 1 end.

Record inv x : Prop := {
  i_map id n : r_claims x !! id = Some n →
    ∃ g, r_goroutines x !! n = Some g ∧ rq_RequestId (g_ir g) = id;
  i_send n claim : r_loop x = LoopSend n claim →
    ∃ g, r_goroutines x !! n = Some g ∧ rq_RequestId (g_ir g) = cr_RequestId claim;
  i_chans n g : r_goroutines x !! n = Some g →
    chan_closed (g_claims g) = false ∧ chan_cap (g_claims g) = 1%nat;
  i_handling : r_handling x = sum_list_with pending (r_goroutines x);
  i_drained : r_drained x = r_requestsNil x;
  i_nil : r_requestsNil x = true → chan_buf (r_requests x) = [] ∧ chan_closed (r_requests x) = true;
  i_requests : chan_closed (r_requests x) = past_requests (r_closing x);
  i_claims : chan_closed (r_claimSub x) = past_claims (r_closing x);
  i_completed : r_completed x = if past_completed (r_closing x) then 1%nat else 0%nat;
  i_complete : r_complete x = past_complete (r_closing x);
  i_returned : r_loop x = LoopReturned → r_complete x = true
}.

Lemma start_inv size w : inv (start h size w).
Proof. by split. Qed.

Definition step_ok (o : outcome (W := W)) : Prop :=
  match o with Next x => inv x | Blocked => True | Panic => False end.

(** *** The loop *)

Lemma take_request_ok x now : inv x → r_loop x = LoopSelect → step_ok (take_request x now).
Proof.
  intros Hinv Hl. unfold take_request. destruct (r_requestsNil x) eqn:Hnil; [done|].
  destruct (chan_recv (r_requests x)) as [ir c| |] eqn:Hr; [| |done].
  - apply chan_recv_closed in Hr as (Hc & _ & _). destruct Hinv.
    assert (Hnew : ∀ m g', (r_goroutines x ++ [MkGoroutine ir TStarted (make_chan 1)]) !! m = Some g' →
      r_goroutines x !! m = Some g' ∨ g' = MkGoroutine ir TStarted (make_chan 1)).
    { intros m g' [?|[_ Hz]]%lookup_app_Some; [by left|right].
      apply list_lookup_singleton_Some in Hz as [_ <-]. done. }
    destruct (now <? rq_Expiry ir); split; simpl; try done; try congruence.
    + intros id n Hid. destruct (i_map0 id n Hid) as (g & Hg & ?). exists g. by rewrite (lookup_app_l_Some _ _ _ _ Hg).
    + intros n g [Hg| ->]%Hnew; [by eapply i_chans0|done].
    + rewrite sum_list_with_app, i_handling0. simpl. lia.
  - apply chan_recv_end in Hr as [Hb Hc]. destruct Hinv. rewrite i_drained0, Hnil.
    by split; simpl; try done; try congruence.
Qed.

Lemma take_claim_ok x : inv x → r_loop x = LoopSelect → step_ok (take_claim x).
Proof.
  intros Hinv Hl. unfold take_claim. destruct (r_claimsNil x); [done|].
  destruct (chan_recv (r_claimSub x)) as [claim c| |] eqn:Hr; [| |done]; [|by destruct Hinv; split].
  apply chan_recv_closed in Hr as (Hc & _ & _). simpl.
  destruct (r_claims x !! cr_RequestId claim) as [n|] eqn:Hn; destruct Hinv; split; simpl; try done; try congruence.
  intros n' claim' [= <- <-]. by apply i_map0.
Qed.

Lemma send_claim_ok x n claim : inv x → r_loop x = LoopSend n claim → step_ok (send_claim x n claim).
Proof.
  intros Hinv Hl. unfold send_claim. destruct (i_send x Hinv n claim Hl) as (g & Hg & _). rewrite Hg.
  destruct (i_chans x Hinv n g Hg) as [Hopen Hcap].
  destruct (chan_send (g_claims g) claim) as [c| |] eqn:Hs; [|done|unfold chan_send in Hs; rewrite Hopen in Hs; by destruct (_ <? _)%nat].
  apply chan_send_sent in Hs as (_ & Hc' & Hcap' & _). destruct Hinv. split; simpl; try done.
  - intros id m Hid. destruct (i_map0 id m Hid) as (g' & Hg' & ?). destruct (decide (m = n)) as [->|].
    + eexists. rewrite list_lookup_insert_eq by (by eapply lookup_lt_Some). split; [done|]. by simplify_eq.
    + exists g'. by rewrite list_lookup_insert_ne.
  - intros m g' [[-> ->]|[_ Hg']]%list_lookup_insert_cases; [simpl; split; [done|congruence]|by eapply i_chans0].
  - rewrite i_handling0.
    pose proof (sum_list_with_insert pending _ n _ (MkGoroutine (g_ir g) (g_task g) c) Hg) as Hsum.
    unfold pending in Hsum at 2 4. simpl in Hsum. lia.
Qed.

(** *** The goroutines *)

(** Goroutine [n] goes from [t] to [t']. *)
Lemma goroutine_go_ok x n g t' c handling acts w :
  inv x → r_goroutines x !! n = Some g → chan_closed c = false → chan_cap c = 1%nat →
  (handling + pending g = r_handling x + pending (MkGoroutine (g_ir g) t' c))%nat →
  inv (MkSys (r_requests x) (r_claimSub x) (r_requestsNil x) (r_claimsNil x) (r_loop x)
    (claims_after x n (g_ir g) (g_task g) t') (<[n := MkGoroutine (g_ir g) t' c]> (r_goroutines x)) handling
    (r_drained x) (r_complete x) (r_closing x) (r_completed x) (r_expired x) acts w).
Proof.
  intros Hinv Hg Hc Hcap Hh. destruct Hinv.
  assert (Hkeep : ∀ m g', r_goroutines x !! m = Some g' → ∃ g2,
    <[n := MkGoroutine (g_ir g) t' c]> (r_goroutines x) !! m = Some g2 ∧ g_ir g2 = g_ir g').
  { intros m g' Hg'. destruct (decide (m = n)) as [->|].
    - eexists. rewrite list_lookup_insert_eq by (by eapply lookup_lt_Some). split; [done|]. by simplify_eq.
    - exists g'. by rewrite list_lookup_insert_ne. }
  split; simpl; try done.
  - intros id m Hid.
    assert (r_claims x !! id = Some m ∨ (id = rq_RequestId (g_ir g) ∧ m = n)) as [Hm|[-> ->]].
    { destruct (g_task g), t'; simpl in Hid;
        try (by left); try (by left; apply lookup_delete_Some in Hid as [_ ?]).
      apply lookup_insert_Some in Hid as [[<- <-]|[_ ?]]; [by right|by left]. }
    + destruct (i_map0 id m Hm) as (g' & Hg' & <-). destruct (Hkeep m g' Hg') as (g2 & ? & Heq). exists g2.
      by rewrite Heq.
    + destruct (Hkeep n g Hg) as (g2 & ? & Heq). exists g2. by rewrite Heq.
  - intros m claim Hl. destruct (i_send0 m claim Hl) as (g' & Hg' & <-).
    destruct (Hkeep m g' Hg') as (g2 & ? & Heq). exists g2. by rewrite Heq.
  - intros m g' [[-> ->]|[_ Hg']]%list_lookup_insert_cases; [done|by eapply i_chans0].
  - pose proof (sum_list_with_insert pending _ n _ (MkGoroutine (g_ir g) t' c) Hg) as Hsum. lia.
Qed.

(** A goroutine that is over stays so, and no other step ends one. *)
Lemma task_step_over ir t inp w : t ≠ TOver →
  ((task_step s h ir t inp w).1.1 = TOver ↔ t = TReturning).
Proof.
  intros Ht. destruct t; simpl; try done.
  - unfold begin. repeat case_match; simplify_eq/=; done.
  - by destruct (in_pubErr inp).
  - unfold decide_step. repeat case_match; simplify_eq/=; done.
  - by destruct granted.
  - unfold call_handler. by destruct (h_handler _ _ _ _) as [? [? ?]].
Qed.

Lemma goroutine_step_ok x n inp : inv x → step_ok (goroutine_step s h x n inp).
Proof.
  intros Hinv. unfold goroutine_step. destruct (r_goroutines x !! n) as [g|] eqn:Hg; [|done].
  destruct (i_chans x Hinv n g Hg) as [Hopen Hcap].
  pose proof (sum_list_with_lookup pending _ _ _ Hg) as Hle. rewrite <- (i_handling x Hinv) in Hle.
  assert (Hgo : ∀ c, chan_closed c = false → chan_cap c = 1%nat → g_task g ≠ TOver → step_ok
    (let '(t', w, acts) := task_step s h (g_ir g) (g_task g) inp (r_world x) in
     Next (MkSys (r_requests x) (r_claimSub x) (r_requestsNil x) (r_claimsNil x) (r_loop x)
          (claims_after x n (g_ir g) (g_task g) t') (<[n := MkGoroutine (g_ir g) t' c]> (r_goroutines x))
          (match g_task g with TReturning => pred (r_handling x) | _ => r_handling x end)
          (r_drained x) (r_complete x) (r_closing x) (r_completed x) (r_expired x)
          (r_acts x ++ ((λ a, (n, a)) <$> acts)) w))).
  { intros c Hc Hcc Hover. pose proof (task_step_over (g_ir g) (g_task g) inp (r_world x) Hover) as Hiff.
    destruct (task_step s h (g_ir g) (g_task g) inp (r_world x)) as [[t' w] acts]. simpl in *.
    apply (goroutine_go_ok x n g t' c); [done..|].
    unfold pending in *. simpl. destruct (g_task g), t'; simpl in *; try lia; naive_solver lia. }
  destruct (g_task g) eqn:Ht; try (by apply Hgo); [|..|done].
  - destruct (in_decision inp) as [claim|]; [|by apply Hgo].
    destruct (chan_recv (g_claims g)) as [claim' c| |] eqn:Hr; [|done..].
    destruct (bool_decide _); [|done]. apply chan_recv_closed in Hr as (Hc & Hc2 & _). apply Hgo; congruence.
  - destruct (r_handling x =? 0)%nat eqn:Hz; [|by apply Hgo]. apply Nat.eqb_eq in Hz.
    unfold pending in Hle. rewrite Ht in Hle. lia.
Qed.

Lemma close_step_ok x k : inv x → r_closing x = Some k → step_ok (close_step x k).
Proof.
  intros Hinv Hk. pose proof (i_requests x Hinv) as Hr. pose proof (i_claims x Hinv) as Hc.
  pose proof (i_complete x Hinv) as Hcp. rewrite Hk in *.
  destruct k as [force| | | | | |]; simpl in *; try done.
  - unfold chan_close. rewrite Hr. simpl. destruct Hinv. rewrite Hk in *.
    split; simpl; try done; try (by destruct force); try congruence. intros Hn. by destruct (i_nil0 Hn).
  - destruct (r_drained x); [|done]. destruct Hinv. rewrite Hk in *. by split.
  - destruct (_ =? _)%nat; [|done]. destruct Hinv. rewrite Hk in *. by split.
  - unfold chan_close. rewrite Hc. simpl. destruct Hinv. rewrite Hk in *. by split.
  - destruct Hinv. rewrite Hk in *. split; simpl in *; try done. congruence.
  - rewrite Hcp. destruct Hinv. rewrite Hk in *. by split.
Qed.

Lemma server_step_inv l x : inv x → step_ok (step s h l x).
Proof.
  intros Hinv. destruct l as [ir|claim|now| | | |n inp|force|]; simpl.
  - destruct (chan_send _ _) as [c| |] eqn:Hs; [|done..]. apply chan_send_sent in Hs as (Hc & Hc' & _).
    destruct Hinv. split; simpl; try done; try congruence. intros Hn. destruct (i_nil0 Hn). congruence.
  - destruct (chan_send _ _) as [c| |] eqn:Hs; [|done..]. apply chan_send_sent in Hs as (Hc & Hc' & _).
    destruct Hinv. split; simpl; try done; try congruence.
  - destruct (r_loop x) eqn:Hl; [|done..]. by apply take_request_ok.
  - destruct (r_loop x) eqn:Hl; [|done..]. by apply take_claim_ok.
  - destruct (r_loop x) eqn:Hl; [done| |done]. by apply send_claim_ok.
  - destruct (r_loop x); [|done..]. destruct (r_complete x) eqn:Hc; [|done]. destruct Hinv. by split.
  - by apply goroutine_step_ok.
  - destruct (r_closing x) eqn:Hk; [done|]. destruct Hinv. rewrite Hk in *. by split.
  - destruct (r_closing x) as [k|] eqn:Hk; [|done]. by apply close_step_ok.
Qed.

Lemma server_run_inv ls x x' : inv x → run s h ls x = Some x' → inv x'.
Proof.
  revert x. induction ls as [|l ls IH]; intros x Hinv Hr; simplify_eq/=; [done|].
  pose proof (server_step_inv l x Hinv). destruct (step s h l x) as [x2| |]; [|done..]. by eapply IH.
Qed.
End run_lemmas.
