(* ===== verification/ServerClose.v ===== *)
(** * ServerClose.v: what the goroutines of a handler guarantee

    On [ServerRun]'s interleavings: each request's goroutine does what [ServerRPC]'s
    [handleRequest] says, with a decision the bus delivered; the loop does not get
    stuck; a graceful [close] waits for every request it took, and returns. *)
From S2P Require Import Prelude Errors Bus Info Metadata Interceptors Float32 Options Messages ServerRPC ServerRun.

Section server_close.
Context `{GrpcApi} `{!StatusApi} `{!Codec} {W : Type}.
Context (s : server) (h : rpcHandlerImpl (W := W)).
Implicit Types (x : sys (W := W)) (l : label) (D : list ClaimResponse) (ir : Request).

(** ** What came in *)

Definition claims_delivered (ls : list label) : list ClaimResponse :=
  omap (λ l, match l with LDeliverClaim claim => Some claim | _ => None end) ls.

Definition requests_delivered (ls : list label) : list Request :=
  omap (λ l, match l with LDeliver ir => Some ir | _ => None end) ls.

(** What goroutine [n] did, in order. *)
Definition acts_of x (n : nat) : list act :=
  omap (λ p, if decide (p.1 = n) then Some p.2 else None) (r_acts x).

(** The claims on their way: in the subscription, in the loop's hand, in the goroutines'
    channels. *)
Definition in_hand x : list ClaimResponse :=
  match r_loop x with LoopSend _ claim => [claim] | _ => [] end.

Definition waiting_claims (gs : list goroutine) : list ClaimResponse :=
  mjoin ((λ g, chan_buf (g_claims g)) <$> gs).

Definition in_flight x : list ClaimResponse :=
  chan_buf (r_claimSub x) ++ in_hand x ++ waiting_claims (r_goroutines x).

(** ** A goroutine does what [handleRequest] says *)

(** A decision the bus delivered for the request. *)
Definition known D ir (d : decision) : Prop :=
  match d with
  | Decided claim => claim ∈ D ∧ cr_RequestId claim = rq_RequestId ir
  | TimedOut => True
  end.

Definition bid_of ir (req : message) : act :=
  ABid (answerChannel (sv_Name s) ir GetClaimRequestChannel)
    (MkClaimRequest (rq_RequestId ir) (sv_ID s) (affinity_of h ir req)).

(** The request is one the server bids for. *)
Definition bids ir (req : message) : Prop :=
  DeserializePayload (h_RequestType h) (rq_RawRequest ir) = Ok req ∧
  ri_RequireClaim (h_i h) = true ∧ ri_Queue (h_i h) && rq_NoClaim ir = false ∧
  f32_lt (affinity_of h ir req) f32_zero = false.

(** What a goroutine did by a point is the beginning of what [handleRequest] does. *)
Definition task_acts D ir (t : task) (acts : list act) : Prop :=
  match t with
  | TStarted => acts = []
  | TBidding req => bids ir req ∧ acts = []
  | TWaiting req => bids ir req ∧ acts = [bid_of ir req]
  | TLeaving granted => ∃ req (pubErr : option error) d, bids ir req ∧ known D ir d ∧
      match pubErr with
      | Some _ => acts = [bid_of ir req] ∧ granted = None
      | None => decide_step s req d = (TLeaving granted, drop 1 acts) ∧ take 1 acts = [bid_of ir req]
      end
  | TCalling req => ∀ now w, ∃ now0 pubErr d now1, known D ir d ∧
      (handleRequest s h ir now0 pubErr d now1 w).2 = acts ++ (call_handler s h ir now req w).2
  | TReturning | TOver => ∃ now0 pubErr d now1 w, known D ir d ∧
      (handleRequest s h ir now0 pubErr d now1 w).2 = acts
  end.

Lemma handle_bids ir req now pubErr w : bids ir req →
  handle s h ir now pubErr w
  = (w, match pubErr with Some _ => HDone | None => HWaiting req end, [bid_of ir req]).
Proof. intros (Hd & Hc & Hq & Ha). unfold handle. by rewrite Hd, Hc, Hq, Ha. Qed.

Lemma known_mono D D' ir d : D ⊆ D' → known D ir d → known D' ir d.
Proof. destruct d; simpl; [|done]. intros Hs [? ?]. auto. Qed.

Lemma task_acts_mono D D' ir t acts : D ⊆ D' → task_acts D ir t acts → task_acts D' ir t acts.
Proof.
  intros Hs. destruct t; simpl; try done.
  - intros (req & pubErr & d & Hb & Hk & Hm). exists req, pubErr, d. eauto using known_mono.
  - intros Hall now w. destruct (Hall now w) as (now0 & pubErr & d & now1 & Hk & Heq).
    exists now0, pubErr, d, now1. eauto using known_mono.
  - intros (now0 & pubErr & d & now1 & w & Hk & Heq). exists now0, pubErr, d, now1, w. eauto using known_mono.
  - intros (now0 & pubErr & d & now1 & w & Hk & Heq). exists now0, pubErr, d, now1, w. eauto using known_mono.
Qed.

Lemma begin_acts D ir now t acts (w : W) : begin s h ir now = (t, acts) → task_acts D ir t acts.
Proof.
  unfold begin. destruct (DeserializePayload _ _) as [req|e] eqn:Hd.
  - destruct (ri_RequireClaim (h_i h)) eqn:Hc; [destruct (_ && _) eqn:Hq|].
    + intros [= <- <-] now2 w2. exists now2, None, TimedOut, now2. split; [done|].
      unfold handleRequest, handle. rewrite Hd, Hc, Hq. unfold call_handler.
      by destruct (h_handler _ _ _ _) as [? [? ?]].
    + destruct (f32_lt _ _) eqn:Ha; intros [= <- <-]; [|done].
      exists now, None, TimedOut, now, w. split; [done|]. unfold handleRequest, handle. by rewrite Hd, Hc, Hq, Ha.
    + intros [= <- <-] now2 w2. exists now2, None, TimedOut, now2. split; [done|].
      unfold handleRequest, handle. rewrite Hd, Hc. unfold call_handler.
      by destruct (h_handler _ _ _ _) as [? [? ?]].
  - intros [= <- <-]. exists now, None, TimedOut, now, w. split; [done|]. unfold handleRequest, handle. by rewrite Hd.
Qed.

(** A step goes on with it; the decision taken is one delivered for the request. *)
Lemma task_step_acts D ir t acts inp w :
  t ≠ TOver → task_acts D ir t acts →
  (∀ req, t = TWaiting req → known D ir (in_decision inp)) →
  task_acts D ir (task_step s h ir t inp w).1.1 (acts ++ (task_step s h ir t inp w).2).
Proof.
  intros Hover Hacts Hknown. destruct t as [|req|req|granted|req| |]; simpl in Hacts |- *; [| | | | | |done].
  - subst acts. destruct (begin s h ir (in_now inp)) as [t' acts'] eqn:Hb. simpl. by eapply begin_acts.
  - destruct Hacts as [Hb ->]. destruct (in_pubErr inp) as [e|]; simpl; [|done].
    exists req, (Some e), TimedOut. done.
  - destruct Hacts as [Hb ->]. specialize (Hknown req eq_refl).
    assert (∃ granted, (decide_step s req (in_decision inp)).1 = TLeaving granted) as [granted Hg].
    { unfold decide_step. destruct (in_decision inp); [case_bool_decide|]; by eexists. }
    destruct (decide_step s req (in_decision inp)) as [t' acts'] eqn:Hd. simpl in *. subst t'.
    exists req, None, (in_decision inp). by rewrite Hd.
  - destruct Hacts as (req & pubErr & d & Hb & Hk & Hm). destruct pubErr as [e|].
    + destruct Hm as [-> ->]. simpl. exists (in_now inp), (Some e), d, (in_now inp), w. split; [done|].
      unfold handleRequest. by rewrite (handle_bids ir req).
    + destruct Hm as [Hd Ht]. rewrite app_nil_r.
      assert (acts = bid_of ir req :: drop 1 acts) as Hcons by (rewrite <- (take_drop 1 acts) at 1; by rewrite Ht).
      destruct granted as [req2|]; simpl.
      * intros now2 w2. exists now2, None, d, now2. split; [done|].
        unfold handleRequest. rewrite (handle_bids ir req) by done. rewrite Hcons.
        unfold decide_step in Hd. destruct d as [claim|]; simpl; [|done]. simpl in Hd.
        case_bool_decide; [|done]. injection Hd as <- Hd. rewrite <- Hd. unfold call_handler.
        by destruct (h_handler _ _ _ _) as [? [? ?]].
      * exists (in_now inp), None, d, (in_now inp), w. split; [done|].
        unfold handleRequest. rewrite (handle_bids ir req) by done. rewrite Hcons.
        unfold decide_step in Hd. destruct d as [claim|]; simpl in *.
        -- case_bool_decide; [done|]. injection Hd as Hd. by rewrite <- Hd.
        -- injection Hd as Hd. by rewrite <- Hd.
  - destruct (Hacts (in_now inp) w) as (now0 & pubErr & d & now1 & Hk & Heq).
    destruct (call_handler s h ir (in_now inp) req w) as [[w' st] acts'] eqn:Hc. simpl in *.
    exists now0, pubErr, d, now1, w. done.
  - rewrite app_nil_r. done.
Qed.

(** ** Claims in flight *)

Lemma waiting_claims_insert gs n g g' : gs !! n = Some g →
  waiting_claims (<[n := g']> gs) ++ chan_buf (g_claims g) ≡ₚ waiting_claims gs ++ chan_buf (g_claims g').
Proof.
  unfold waiting_claims. revert n. induction gs as [|g0 gs IH]; intros [|n] Hn; simplify_eq/=.
  - rewrite <- !(assoc_L (++)), (comm (++) (mjoin _) (chan_buf (g_claims g))).
    rewrite (comm (++) (mjoin _) (chan_buf (g_claims g'))), !(assoc_L (++)).
    by rewrite (comm (++) (chan_buf (g_claims g'))).
  - rewrite <- !(assoc_L (++)). by rewrite (IH n Hn).
Qed.

Lemma waiting_claims_elem gs claim :
  claim ∈ waiting_claims gs ↔ ∃ n g, gs !! n = Some g ∧ claim ∈ chan_buf (g_claims g).
Proof.
  unfold waiting_claims. rewrite list_elem_of_join. split.
  - intros (l & Hc & Hl). apply list_elem_of_fmap in Hl as (g & -> & [n Hn]%list_elem_of_lookup_1). eauto.
  - intros (n & g & Hn & Hc). exists (chan_buf (g_claims g)). split; [done|].
    apply list_elem_of_fmap. exists g. split; [done|]. by eapply list_elem_of_lookup_2.
Qed.

(** What a step does to a goroutine: the task goes on, and the channel keeps the rest. *)
Lemma goroutine_step_inv x x' n inp : goroutine_step s h x n inp = Next x' →
  ∃ g c, r_goroutines x !! n = Some g ∧ g_task g ≠ TOver ∧
    r_goroutines x' = <[n := MkGoroutine (g_ir g) (task_step s h (g_ir g) (g_task g) inp (r_world x)).1.1 c]> (r_goroutines x) ∧
    r_acts x' = r_acts x ++ ((λ a, (n, a)) <$> (task_step s h (g_ir g) (g_task g) inp (r_world x)).2) ∧
    r_claimSub x' = r_claimSub x ∧ r_loop x' = r_loop x ∧ r_requests x' = r_requests x ∧
    r_expired x' = r_expired x ∧ r_drained x' = r_drained x ∧ r_closing x' = r_closing x ∧
    r_requestsNil x' = r_requestsNil x ∧ r_claimsNil x' = r_claimsNil x ∧
    (c = g_claims g ∨ ∃ claim, in_decision inp = Decided claim ∧ chan_recv (g_claims g) = Received claim c) ∧
    (∀ req claim, g_task g = TWaiting req → in_decision inp = Decided claim →
       chan_recv (g_claims g) = Received claim c).
Proof.
  unfold goroutine_step. destruct (r_goroutines x !! n) as [g|] eqn:Hg; [|done].
  destruct (task_step s h (g_ir g) (g_task g) inp (r_world x)) as [[t' w] acts] eqn:Hts.
  destruct (g_task g) eqn:Ht; [| | | | | |done].
  1,2,4,5: intros [= <-]; exists g, (g_claims g); rewrite Ht, Hts; split_and!; try done; by left.
  - destruct (in_decision inp) as [claim|] eqn:Hd.
    + destruct (chan_recv (g_claims g)) as [claim' c| |] eqn:Hr; [|done..].
      case_bool_decide as Heq; [|done]. subst claim'. intros [= <-]. exists g, c. rewrite Ht, Hts, Hr.
      split_and!; try done; [by right; eexists|]. intros req2 claim2 _ [= <-]. done.
    + intros [= <-]. exists g, (g_claims g). rewrite Ht, Hts. split_and!; try done; by left.
  - destruct (r_handling x =? 0)%nat; [done|]. intros [= <-]. exists g, (g_claims g).
    rewrite Ht, Hts. split_and!; try done; by left.
Qed.

Lemma step_flow l x x' : step s h l x = Next x' →
  in_flight x' ⊆+ in_flight x ++ claims_delivered [l].
Proof.
  unfold in_flight, in_hand. destruct l as [ir|claim|now| | | |n inp|force|]; simpl; rewrite ?app_nil_r.
  - destruct (chan_send _ _); [|done..]. by intros [= <-].
  - destruct (chan_send _ _) as [c| |] eqn:Hs; [|done..]. apply chan_send_sent in Hs as (_ & _ & _ & Hb).
    intros [= <-]. simpl. rewrite Hb, <- !(assoc_L (++)). apply submseteq_skips_l.
    by rewrite (comm (++) [claim]), (assoc_L (++)).
  - destruct (r_loop x) eqn:Hl; [|done..]. unfold take_request. destruct (r_requestsNil x); [done|].
    destruct (chan_recv _); [|destruct (r_drained x); [done|]; intros [= <-]; simpl; by rewrite Hl|done].
    destruct (_ <? _); intros [= <-]; simpl; rewrite Hl; [|done].
    unfold waiting_claims. rewrite fmap_app, join_app. simpl. by rewrite !app_nil_r.
  - destruct (r_loop x) eqn:Hl; [|done..]. unfold take_claim. destruct (r_claimsNil x); [done|].
    destruct (chan_recv _) as [claim c| |] eqn:Hr; [|intros [= <-]; simpl; by rewrite Hl|done].
    apply chan_recv_closed in Hr as (_ & _ & Hb). intros [= <-]. rewrite Hb. simpl.
    destruct (r_claims x !! _); simpl.
    + by rewrite <- Permutation_middle.
    + rewrite Hl. simpl. by apply submseteq_cons.
  - destruct (r_loop x) as [|n claim|] eqn:Hl; [done| |done]. unfold send_claim.
    destruct (r_goroutines x !! n) as [g|] eqn:Hg; [|done].
    destruct (chan_send _ _) as [c| |] eqn:Hs; [|done..]. apply chan_send_sent in Hs as (_ & _ & _ & Hb).
    intros [= <-]. simpl. apply submseteq_skips_l.
    pose proof (waiting_claims_insert _ n g (MkGoroutine (g_ir g) (g_task g) c) Hg) as Hp. simpl in Hp.
    rewrite Hb, (assoc_L (++)), (comm (++) (_ ++ _) [claim]) in Hp. simpl in Hp.
    assert (waiting_claims (<[n := MkGoroutine (g_ir g) (g_task g) c]> (r_goroutines x))
      ≡ₚ claim :: waiting_claims (r_goroutines x)) as ->; [|done].
    apply (Permutation_app_inv_r (chan_buf (g_claims g))). by rewrite Hp.
  - destruct (r_loop x) eqn:Hl; [|done..]. destruct (r_complete x); [|done]. intros [= <-]. simpl. by rewrite ?Hl.
  - intros (g & c & Hg & _ & Hgs & _ & -> & -> & _ & _ & _ & _ & _ & _ & Hc & _)%goroutine_step_inv.
    apply submseteq_skips_l, submseteq_skips_l. rewrite Hgs.
    set (g' := MkGoroutine _ _ c). pose proof (waiting_claims_insert _ n g g' Hg) as Hp.
    assert (chan_buf c `sublist_of` chan_buf (g_claims g)) as Hsub.
    { destruct Hc as [->|(claim & _ & Hr)]; [done|].
      apply chan_recv_closed in Hr as (_ & _ & ->). by apply sublist_cons. }
    apply sublist_submseteq, submseteq_Permutation in Hsub as [k Hk].
    rewrite Hk in Hp. simpl in Hp.
    rewrite (comm (++) (chan_buf c) k), (assoc_L (++)) in Hp. apply Permutation_app_inv_r in Hp.
    rewrite <- Hp. by apply submseteq_inserts_r.
  - destruct (r_closing x); [done|]. by intros [= <-].
  - destruct (r_closing x) as [k|]; [|done]. destruct k; simpl.
    + destruct (chan_close _); [|done]. by intros [= <-].
    + destruct (r_drained x); [|done]. by intros [= <-].
    + destruct (_ =? _)%nat; [|done]. by intros [= <-].
    + unfold chan_close. destruct (chan_closed _); [done|]. by intros [= <-].
    + by intros [= <-].
    + destruct (r_complete x); [done|]. by intros [= <-].
    + done.
Qed.

(** ** What each goroutine did *)

(** Claims are routed to a goroutine of their request, and what a goroutine did fits. *)
Record goes_on D x : Prop := {
  go_own n g claim : r_goroutines x !! n = Some g → claim ∈ chan_buf (g_claims g) →
    cr_RequestId claim = rq_RequestId (g_ir g);
  go_flow : in_flight x ⊆+ D;
  go_acts n g : r_goroutines x !! n = Some g → task_acts D (g_ir g) (g_task g) (acts_of x n);
  go_none n : (length (r_goroutines x) <= n)%nat → acts_of x n = []
}.

Lemma acts_of_app n m (acts : list act) (before : list (nat * act)) :
  omap (λ p, if decide (p.1 = n) then Some p.2 else None) (before ++ ((λ a, (m, a)) <$> acts))
  = omap (λ p, if decide (p.1 = n) then Some p.2 else None) before ++ if decide (m = n) then acts else [].
Proof.
  rewrite omap_app. f_equal. induction acts as [|a acts IH]; simpl; [by destruct (decide _)|].
  destruct (decide (m = n)); [f_equal; exact IH|exact IH].
Qed.

(** Steps that leave the goroutines, what they did and their channels alone. *)
Lemma goes_on_same D x x' : goes_on D x → r_goroutines x' = r_goroutines x → r_acts x' = r_acts x →
  in_flight x' ⊆+ D → goes_on D x'.
Proof.
  intros [Ho Hf Ha Hn] Hg Hac Hf'. split; rewrite ?Hg; [done|done| |].
  - intros n g Hgn. unfold acts_of. rewrite Hac. by apply Ha.
  - intros n Hlen. unfold acts_of. rewrite Hac. by apply Hn.
Qed.

Lemma goes_on_mono D D' x : goes_on D x → D ⊆+ D' → goes_on D' x.
Proof.
  intros [Ho Hf Ha Hn] Hs. split; [done|by etrans| |done].
  intros n g Hg. eapply task_acts_mono; [|by apply Ha]. intros claim Hin. by eapply elem_of_submseteq.
Qed.

Lemma step_goes_on D l x x' :
  inv x → goes_on D x → step s h l x = Next x' → goes_on (D ++ claims_delivered [l]) x'.
Proof.
  intros Hinv Hgo Hs. pose proof (step_flow l x x' Hs) as Hflow.
  assert (in_flight x' ⊆+ D ++ claims_delivered [l]) as Hf.
  { etrans; [exact Hflow|]. apply submseteq_skips_r, Hgo. }
  apply (goes_on_mono D (D ++ claims_delivered [l])) in Hgo; [|by apply submseteq_inserts_r].
  set (D' := D ++ claims_delivered [l]) in *.
  destruct l as [ir|claim|now| | | |n inp|force|]; simpl in Hs.
  - destruct (chan_send _ _); simplify_eq/=. by eapply goes_on_same.
  - destruct (chan_send _ _); simplify_eq/=. by eapply goes_on_same.
  - destruct (r_loop x); [|done..]. unfold take_request in Hs. destruct (r_requestsNil x); [done|].
    destruct (chan_recv _) as [ir c| |]; [|destruct (r_drained x); [done|]; simplify_eq/=; by eapply goes_on_same|done].
    destruct (_ <? _); simplify_eq/=; [|by eapply goes_on_same].
    assert (Hlast : ∀ m g, (r_goroutines x ++ [MkGoroutine ir TStarted (make_chan 1)]) !! m = Some g →
      r_goroutines x !! m = Some g ∨ (m = length (r_goroutines x) ∧ g = MkGoroutine ir TStarted (make_chan 1))).
    { intros m g [?|[Hge Hz]]%lookup_app_Some; [by left|right].
      apply list_lookup_singleton_Some in Hz as [Hz <-]. split; [lia|done]. }
    split; simpl.
    + intros m g claim [Hg|[_ ->]]%Hlast Hin; [by eapply (go_own _ _ Hgo)|by apply elem_of_nil in Hin].
    + exact Hf.
    + intros m g [Hg|[-> ->]]%Hlast; [by apply (go_acts _ _ Hgo)|]. simpl. by apply (go_none _ _ Hgo).
    + intros m Hm. rewrite length_app in Hm. simpl in Hm. apply (go_none _ _ Hgo). lia.
  - destruct (r_loop x); [|done..]. unfold take_claim in Hs. destruct (r_claimsNil x); [done|].
    destruct (chan_recv _) as [claim c| |]; [|simplify_eq/=; by eapply goes_on_same|done]. simplify_eq/=.
    eapply goes_on_same; [done|..|done]; by destruct (r_claims x !! _).
  - destruct (r_loop x) as [|n claim|] eqn:Hl; [done| |done]. unfold send_claim in Hs.
    destruct (i_send x Hinv n claim Hl) as (g0 & Hg0 & Hid). rewrite Hg0 in Hs.
    destruct (chan_send _ _) as [c| |] eqn:Hsend; [|done..]. apply chan_send_sent in Hsend as (_ & _ & _ & Hb).
    simplify_eq/=. split; simpl; [|exact Hf| |].
    + intros m g claim2 [[-> ->]|[_ Hg]]%list_lookup_insert_cases Hin; [|by eapply (go_own _ _ Hgo)].
      simpl in *. rewrite Hb in Hin. apply elem_of_app in Hin as [Hin|Heq%list_elem_of_singleton]; [|by subst].
      by eapply (go_own _ _ Hgo).
    + intros m g [[-> ->]|[_ Hg]]%list_lookup_insert_cases; [|by apply (go_acts _ _ Hgo)].
      exact (go_acts _ _ Hgo n g0 Hg0).
    + intros m Hm. rewrite length_insert in Hm. by apply (go_none _ _ Hgo).
  - destruct (r_loop x); [|done..]. destruct (r_complete x); simplify_eq/=. by eapply goes_on_same.
  - apply goroutine_step_inv in Hs as (g & c & Hg & Hover & Hgs & Hac & _ & _ & _ & _ & _ & _ & _ & _ & Hc & Hdec).
    assert (Hsub : ∀ claim, claim ∈ chan_buf c → claim ∈ chan_buf (g_claims g)).
    { intros claim Hin. destruct Hc as [->|(claim2 & _ & Hr)]; [done|].
      apply chan_recv_closed in Hr as (_ & _ & ->). by right. }
    split; rewrite ?Hgs; [|exact Hf| |].
    + intros m g2 claim [[-> ->]|[_ Hg2]]%list_lookup_insert_cases Hin; [|by eapply (go_own _ _ Hgo)].
      simpl in *. by eapply (go_own _ _ Hgo n g); [|apply Hsub].
    + intros m g2 Hm. unfold acts_of. rewrite Hac, acts_of_app.
      apply list_lookup_insert_cases in Hm as [[-> ->]|[Hne Hg2]].
      * rewrite decide_True by done. simpl. apply task_step_acts; [done|by apply (go_acts _ _ Hgo)|].
        intros req Ht. destruct (in_decision inp) as [claim|] eqn:Hd; [|done]. simpl.
        pose proof (Hdec req claim Ht eq_refl) as Hr. apply chan_recv_closed in Hr as (_ & _ & Hb).
        assert (claim ∈ chan_buf (g_claims g)) as Hin by (rewrite Hb; left).
        split; [|by eapply (go_own _ _ Hgo)]. eapply elem_of_submseteq; [|apply (go_flow _ _ Hgo)].
        unfold in_flight. apply elem_of_app. right. apply elem_of_app. right. apply waiting_claims_elem. eauto.
      * rewrite decide_False by done. rewrite app_nil_r. by apply (go_acts _ _ Hgo).
    + intros m Hm. rewrite length_insert in Hm. unfold acts_of. rewrite Hac, acts_of_app.
      rewrite decide_False by (apply lookup_lt_Some in Hg; lia). rewrite app_nil_r. by apply (go_none _ _ Hgo).
  - destruct (r_closing x); simplify_eq/=. by eapply goes_on_same.
  - destruct (r_closing x) as [k|]; [|done]. destruct k; simpl in Hs;
      repeat (case_match; try done); simplify_eq/=; by eapply goes_on_same.
Qed.

Lemma start_goes_on size w : goes_on [] (start h size w).
Proof. by split. Qed.

Lemma claims_delivered_cons l ls : claims_delivered (l :: ls) = claims_delivered [l] ++ claims_delivered ls.
Proof. unfold claims_delivered. by rewrite <- omap_app. Qed.

Lemma run_goes_on D ls x x' :
  inv x → goes_on D x → run s h ls x = Some x' → goes_on (D ++ claims_delivered ls) x'.
Proof.
  revert D x. induction ls as [|l ls IH]; intros D x Hinv Hgo Hr.
  - simpl in Hr. injection Hr as <-. by rewrite app_nil_r.
  - simpl in Hr. destruct (step s h l x) as [x2| |] eqn:Hs; [|done..].
    rewrite claims_delivered_cons, (assoc_L (++)). eapply IH; [|by eapply step_goes_on|done].
    pose proof (server_step_inv s h l x Hinv) as Hok. by rewrite Hs in Hok.
Qed.

(** ** Requests *)

Definition taken x : list Request := (g_ir <$> r_goroutines x) ++ r_expired x.

Lemma step_requests l x x' : step s h l x = Next x' →
  taken x' ++ chan_buf (r_requests x') ≡ₚ taken x ++ chan_buf (r_requests x) ++ requests_delivered [l].
Proof.
  unfold taken. destruct l as [ir|claim|now| | | |n inp|force|]; simpl; rewrite ?app_nil_r.
  - destruct (chan_send _ _) as [c| |] eqn:Hs; [|done..]. apply chan_send_sent in Hs as (_ & _ & _ & Hb).
    intros [= <-]. simpl. by rewrite Hb.
  - destruct (chan_send _ _); [|done..]. by intros [= <-].
  - destruct (r_loop x); [|done..]. unfold take_request. destruct (r_requestsNil x); [done|].
    destruct (chan_recv _) as [ir c| |] eqn:Hr; [|destruct (r_drained x); [done|]; by intros [= <-]|done].
    apply chan_recv_closed in Hr as (_ & _ & Hb). destruct (_ <? _); intros [= <-]; simpl; rewrite Hb.
    + rewrite fmap_app. simpl. rewrite <- !(assoc_L (++)). f_equiv. simpl.
      by rewrite <- Permutation_middle.
    + by rewrite <- !(assoc_L (++)).
  - destruct (r_loop x); [|done..]. unfold take_claim. destruct (r_claimsNil x); [done|].
    destruct (chan_recv _); [|by intros [= <-]|done]. intros [= <-]. by destruct (r_claims x !! _).
  - destruct (r_loop x); [done| |done]. unfold send_claim. destruct (r_goroutines x !! n) as [g|] eqn:Hg; [|done].
    destruct (chan_send _ _); [|done..]. intros [= <-]. simpl. rewrite list_fmap_insert. simpl.
    rewrite list_insert_id; [done|]. by rewrite list_lookup_fmap, Hg.
  - destruct (r_loop x); [|done..]. destruct (r_complete x); [|done]. by intros [= <-].
  - intros (g & c & Hg & _ & -> & _ & _ & _ & -> & -> & _)%goroutine_step_inv.
    rewrite list_fmap_insert. simpl. rewrite list_insert_id; [done|]. by rewrite list_lookup_fmap, Hg.
  - destruct (r_closing x); [done|]. by intros [= <-].
  - destruct (r_closing x) as [k|]; [|done]. destruct k; simpl.
    + unfold chan_close. destruct (chan_closed _); [done|]. by intros [= <-].
    + destruct (r_drained x); [|done]. by intros [= <-].
    + destruct (_ =? _)%nat; [|done]. by intros [= <-].
    + destruct (chan_close _); [|done]. by intros [= <-].
    + by intros [= <-].
    + destruct (r_complete x); [done|]. by intros [= <-].
    + done.
Qed.

Lemma run_requests ls x x' : run s h ls x = Some x' →
  taken x' ++ chan_buf (r_requests x') ≡ₚ taken x ++ chan_buf (r_requests x) ++ requests_delivered ls.
Proof.
  revert x. induction ls as [|l ls IH]; intros x Hr; simpl in Hr.
  - injection Hr as <-. by rewrite app_nil_r.
  - destruct (step s h l x) as [x2| |] eqn:Hs; [|done..].
    rewrite (IH x2 Hr), (assoc_L (++)), (step_requests l x x2 Hs), <- !(assoc_L (++)). unfold requests_delivered.
    rewrite <- omap_app. done.
Qed.

(** ** Closing *)

(** What holds at each point of a [close] that is not forced. *)
Definition graceful x : Prop :=
  match r_closing x with
  | None | Some KDrained => True
  | Some (KRequests force) => force = false
  | Some KWait => r_drained x = true
  | Some _ => r_drained x = true ∧ r_handling x = 0%nat
  end.

Lemma step_graceful l x x' : inv x → graceful x → l ≠ LClose true → step s h l x = Next x' → graceful x'.
Proof.
  intros Hinv Hg Hl Hs.
  assert (Hsame : r_closing x' = r_closing x → (r_drained x = true → r_drained x' = true ∧
    (r_handling x = 0%nat → r_handling x' = 0%nat)) → graceful x').
  { unfold graceful in *. intros -> Hd. destruct (r_closing x) as [[]|]; naive_solver. }
  destruct l as [ir|claim|now| | | |n inp|force|]; simpl in Hs.
  - destruct (chan_send _ _); simplify_eq/=. by apply Hsame.
  - destruct (chan_send _ _); simplify_eq/=. by apply Hsame.
  - destruct (r_loop x); [|done..]. unfold take_request in Hs. destruct (r_requestsNil x) eqn:Hn; [done|].
    pose proof (i_drained x Hinv) as Hd. rewrite Hn in Hd.
    destruct (chan_recv _); [destruct (_ <? _)| |done]; rewrite ?Hd in Hs; simplify_eq/=;
      (apply Hsame; [done|]); intros ?; simpl in *; congruence.
  - destruct (r_loop x); [|done..]. unfold take_claim in Hs. destruct (r_claimsNil x); [done|].
    destruct (chan_recv _); [| |done]; simplify_eq/=; apply Hsame; try done; by destruct (r_claims x !! _).
  - destruct (r_loop x); [done| |done]. unfold send_claim in Hs.
    destruct (r_goroutines x !! n); [|done]. destruct (chan_send _ _); simplify_eq/=. by apply Hsame.
  - destruct (r_loop x); [|done..]. destruct (r_complete x); simplify_eq/=. by apply Hsame.
  - pose proof (server_step_inv s h (LGoroutine n inp) x Hinv) as Hok. simpl in Hok. rewrite Hs in Hok.
    apply goroutine_step_inv in Hs as (g & c & Hgn & Hover & _ & _ & _ & _ & _ & _ & Hdr & Hcl & _).
    apply Hsame; [done|]. intros Hd. split; [congruence|]. intros Hz. exfalso.
    pose proof (sum_list_with_lookup pending _ _ _ Hgn) as Hle. rewrite <- (i_handling x Hinv), Hz in Hle.
    unfold pending in Hle. destruct (g_task g); try lia. done.
  - destruct (r_closing x); simplify_eq/=. unfold graceful. simpl. by destruct force.
  - destruct (r_closing x) as [k|] eqn:Hk; [|done]. unfold graceful in *. rewrite Hk in Hg. destruct k; simpl in *.
    + destruct (chan_close _); simplify_eq/=. done.
    + destruct (r_drained x) eqn:Hd; simplify_eq/=. done.
    + destruct (_ =? _)%nat eqn:Hz; simplify_eq/=. by apply Nat.eqb_eq in Hz.
    + destruct (chan_close _); simplify_eq/=. done.
    + simplify_eq/=. done.
    + destruct (r_complete x); simplify_eq/=. done.
    + done.
Qed.

Lemma run_graceful ls x x' :
  inv x → graceful x → LClose true ∉ ls → run s h ls x = Some x' → graceful x'.
Proof.
  revert x. induction ls as [|l ls IH]; intros x Hinv Hg Hl Hr; simpl in Hr; [by simplify_eq|].
  apply not_elem_of_cons in Hl as [Hl1 Hl2].
  pose proof (server_step_inv s h l x Hinv) as Hok. destruct (step s h l x) as [x2| |] eqn:Hs; [|done..].
  apply (IH x2); [done| |done|done]. by apply (step_graceful l x x2 Hinv Hg); [intros ->|].
Qed.

(** *** Termination *)

(** The steps of the handler's own goroutines. *)
Definition internal l : bool :=
  match l with LDeliver _ | LDeliverClaim _ | LClose _ => false | _ => true end.

Definition task_weight (g : goroutine) : nat :=
  match g_task g with
  | TStarted => 6 | TBidding _ => 5 | TWaiting _ => 4 | TLeaving _ => 3 | TCalling _ => 2
  | TReturning => 1 | TOver => 0
  end.

Definition closing_weight (k : option closing) : nat :=
  match k with
  | Some (KRequests _) => 6 | Some KDrained => 5 | Some KWait => 4 | Some KClaims => 3
  | Some KCompleted => 2 | Some KComplete => 1 | Some KReturned | None => 0
  end.

Definition loop_weight (lp : loop) : nat :=
  match lp with LoopSelect => 1 | LoopSend _ _ => 2 | LoopReturned => 0 end.

(** A bound on the steps left, when nothing more is delivered. *)
Definition measure x : nat :=
  8 * length (chan_buf (r_requests x)) + 2 * length (chan_buf (r_claimSub x)) + loop_weight (r_loop x)
  + (if r_requestsNil x then 0 else 1) + (if r_claimsNil x then 0 else 1)
  + sum_list_with task_weight (r_goroutines x) + closing_weight (r_closing x).

Lemma task_step_weight ir t inp w c c' : t ≠ TOver →
  (task_weight (MkGoroutine ir (task_step s h ir t inp w).1.1 c) < task_weight (MkGoroutine ir t c'))%nat.
Proof.
  intros Ht. unfold task_weight. simpl. destruct t; simpl; try done.
  - unfold begin. repeat case_match; simplify_eq/=; lia.
  - destruct (in_pubErr inp); simpl; lia.
  - unfold decide_step. repeat case_match; simplify_eq/=; lia.
  - destruct granted; simpl; lia.
  - unfold call_handler. destruct (h_handler _ _ _ _) as [? [? ?]]; simpl; lia.
  - lia.
Qed.

Lemma step_measure l x x' : internal l = true → step s h l x = Next x' → (measure x' < measure x)%nat.
Proof.
  unfold measure. destruct l as [ir|claim|now| | | |n inp|force|]; simpl; try done; intros _.
  - destruct (r_loop x) eqn:Hl; [|done..]. unfold take_request. destruct (r_requestsNil x) eqn:Hn; [done|].
    destruct (chan_recv _) as [ir c| |] eqn:Hr; [|destruct (r_drained x); [done|]; intros [= <-]; simpl; rewrite Hl; simpl; lia|done].
    apply chan_recv_closed in Hr as (_ & _ & Hb). rewrite Hb.
    destruct (_ <? _); intros [= <-]; simpl; rewrite ?sum_list_with_app, ?Hn, Hl; simpl; lia.
  - destruct (r_loop x) eqn:Hl; [|done..]. unfold take_claim. destruct (r_claimsNil x) eqn:Hn; [done|].
    destruct (chan_recv _) as [claim c| |] eqn:Hr; [|intros [= <-]; simpl; rewrite Hl; simpl; lia|done].
    apply chan_recv_closed in Hr as (_ & _ & Hb). intros [= <-]. rewrite Hb.
    destruct (r_claims x !! _); simpl; rewrite ?Hn, ?Hl; simpl; lia.
  - destruct (r_loop x) eqn:Hl; [done| |done]. unfold send_claim. destruct (r_goroutines x !! n) as [g|] eqn:Hg; [|done].
    destruct (chan_send _ _) as [c| |]; [|done..]. intros [= <-]. simpl.
    pose proof (sum_list_with_insert task_weight _ n _ (MkGoroutine (g_ir g) (g_task g) c) Hg) as Hsum.
    assert (task_weight (MkGoroutine (g_ir g) (g_task g) c) = task_weight g) as Heq by done. lia.
  - destruct (r_loop x) eqn:Hl; [|done..]. destruct (r_complete x); [|done]. intros [= <-]. simpl. lia.
  - intros (g & c & Hg & Hover & -> & _ & -> & -> & -> & _ & _ & -> & -> & -> & _)%goroutine_step_inv.
    set (g' := MkGoroutine _ _ c). pose proof (sum_list_with_insert task_weight _ n _ g' Hg) as Hsum.
    pose proof (task_step_weight (g_ir g) (g_task g) inp (r_world x) c (g_claims g) Hover) as Hlt.
    assert (task_weight (MkGoroutine (g_ir g) (g_task g) (g_claims g)) = task_weight g) as Heq by done.
    fold g' in Hlt. rewrite Heq in Hlt. lia.
  - destruct (r_closing x) as [k|] eqn:Hk; [|done]. destruct k; simpl.
    + unfold chan_close. destruct (chan_closed _); [done|]. intros [= <-]. simpl. destruct force; simpl; lia.
    + destruct (r_drained x); [|done]. intros [= <-]. simpl. lia.
    + destruct (_ =? _)%nat; [|done]. intros [= <-]. simpl. lia.
    + unfold chan_close. destruct (chan_closed _); [done|]. intros [= <-]. simpl. lia.
    + intros [= <-]. simpl. lia.
    + destruct (r_complete x); [done|]. intros [= <-]. simpl. lia.
    + done.
Qed.

(** *** Progress *)

(** A claim channel has room for the one claim of its request. *)
Lemma send_not_blocked D x n claim :
  inv x → goes_on D x → NoDup (cr_RequestId <$> D) → r_loop x = LoopSend n claim →
  ∃ x', step s h LSend x = Next x'.
Proof.
  intros Hinv Hgo Hnd Hl. simpl. rewrite Hl. unfold send_claim.
  destruct (i_send x Hinv n claim Hl) as (g & Hg & Hid). rewrite Hg.
  destruct (i_chans x Hinv n g Hg) as [Hopen Hcap]. unfold chan_send. rewrite Hopen, Hcap.
  destruct (chan_buf (g_claims g)) as [|c2 rest] eqn:Hb; [by eexists|]. exfalso.
  assert (cr_RequestId c2 = rq_RequestId (g_ir g)) as Hc2 by (eapply (go_own D x Hgo n); [done|rewrite Hb; left]).
  pose proof (go_flow D x Hgo) as Hf. apply submseteq_Permutation in Hf as [k Hk]. rewrite Hk in Hnd.
  unfold in_flight, in_hand in Hnd. rewrite Hl, !fmap_app in Hnd.
  apply NoDup_app in Hnd as (Hnd & _ & _). apply NoDup_app in Hnd as (_ & _ & Hnd). simpl in Hnd.
  apply NoDup_cons in Hnd as [Hni _]. apply Hni. apply list_elem_of_fmap. exists c2. split; [congruence|].
  apply waiting_claims_elem. exists n, g. split; [done|]. rewrite Hb. left.
Qed.

Lemma pending_goroutine (gs : list goroutine) :
  sum_list_with pending gs ≠ 0%nat → ∃ n g, gs !! n = Some g ∧ g_task g ≠ TOver.
Proof.
  intros (n & g & Hg & Hp)%sum_list_with_pos. exists n, g. split; [done|]. intros Ht. apply Hp. unfold pending. by rewrite Ht.
Qed.

Lemma close_progress D x k :
  inv x → goes_on D x → NoDup (cr_RequestId <$> D) → r_closing x = Some k → k ≠ KReturned →
  ∃ l x', internal l = true ∧ step s h l x = Next x'.
Proof.
  intros Hinv Hgo Hnd Hk Hne.
  assert (Hcl : ∀ x', close_step x k = Next x' → ∃ l x', internal l = true ∧ step s h l x = Next x').
  { intros x' Hx'. exists LClosing, x'. simpl. by rewrite Hk. }
  pose proof (i_requests x Hinv) as Hr. pose proof (i_claims x Hinv) as Hc.
  pose proof (i_complete x Hinv) as Hcp. rewrite Hk in Hr, Hc, Hcp.
  destruct k as [force| | | | | |]; simpl in Hr, Hc, Hcp; [| | | | | |done].
  - eapply Hcl. simpl. unfold chan_close. by rewrite Hr.
  - destruct (r_drained x) eqn:Hd; [eapply Hcl; simpl; by rewrite Hd|].
    pose proof (i_drained x Hinv) as Hnil. rewrite Hd in Hnil.
    destruct (r_loop x) as [|n claim|] eqn:Hl.
    + exists (LTakeRequest 0). simpl. rewrite Hl. unfold take_request. rewrite <- Hnil, Hd.
      unfold chan_recv. destruct (chan_buf (r_requests x)) as [|ir rest]; [rewrite Hr; by eexists|].
      destruct (_ <? _); by eexists.
    + destruct (send_not_blocked D x n claim) as [x' Hx']; [done..|]. by exists LSend, x'.
    + pose proof (i_returned x Hinv Hl). congruence.
  - destruct (r_handling x =? 0)%nat eqn:Hz; [eapply Hcl; simpl; by rewrite Hz|].
    pose proof Hz as Hz2. apply Nat.eqb_neq in Hz2. rewrite (i_handling x Hinv) in Hz2.
    apply pending_goroutine in Hz2 as (n & g & Hg & Hover).
    exists (LGoroutine n (MkInput 0 None TimedOut)). simpl. unfold goroutine_step. rewrite Hg, Hz. simpl.
    destruct (task_step s h (g_ir g) (g_task g) _ (r_world x)) as [[t' w] acts].
    destruct (g_task g); (done || by eexists).
  - eapply Hcl. simpl. unfold chan_close. by rewrite Hc.
  - by eapply Hcl.
  - eapply Hcl. simpl. by rewrite Hcp.
Qed.

Lemma internal_delivers ls : Forall (λ l, internal l = true) ls → claims_delivered ls = [].
Proof. induction 1 as [|l ls Hl _ IH]; [done|]. rewrite claims_delivered_cons, IH. by destruct l. Qed.

Lemma run_measure ls x x' :
  Forall (λ l, internal l = true) ls → run s h ls x = Some x' → (length ls + measure x' <= measure x)%nat.
Proof.
  intros Hi. revert x. induction Hi as [|l ls Hl _ IH]; intros x Hr; simpl in Hr; [simplify_eq/=; lia|].
  destruct (step s h l x) as [x2| |] eqn:Hs; [|done..]. pose proof (step_measure l x x2 Hl Hs).
  specialize (IH x2 Hr). simpl. lia.
Qed.

Lemma run_closing ls x x' :
  Forall (λ l, internal l = true) ls → run s h ls x = Some x' →
  is_Some (r_closing x) → is_Some (r_closing x').
Proof.
  intros Hi. revert x. induction Hi as [|l ls Hl _ IH]; intros x Hr Hk; simpl in Hr; [by simplify_eq|].
  destruct (step s h l x) as [x2| |] eqn:Hs; [|done..]. apply (IH x2 Hr).
  destruct l as [ir|claim|now| | | |n inp|force|]; simpl in Hs, Hl; try done.
  - destruct (r_loop x); [|done..]. unfold take_request in Hs. destruct (r_requestsNil x); [done|].
    destruct (chan_recv _); [destruct (_ <? _)|destruct (r_drained x); [done|]|done]; by simplify_eq/=.
  - destruct (r_loop x); [|done..]. unfold take_claim in Hs. destruct (r_claimsNil x); [done|].
    destruct (chan_recv _); [| |done]; simplify_eq/=; try done. by destruct (r_claims x !! _).
  - destruct (r_loop x); [done| |done]. unfold send_claim in Hs.
    destruct (r_goroutines x !! n); [|done]. destruct (chan_send _ _); by simplify_eq/=.
  - destruct (r_loop x); [|done..]. destruct (r_complete x); by simplify_eq/=.
  - apply goroutine_step_inv in Hs as (g & c & _ & _ & _ & _ & _ & _ & _ & _ & _ & -> & _). done.
  - destruct (r_closing x) as [k|]; [|done].
    destruct k; simpl in Hs; repeat (case_match; try done); by simplify_eq/=.
Qed.
End server_close.

(** ** Properties *)

(** C22: a handler's goroutines never panic: [drained] and [complete] are closed once, the
    subscriptions too, nothing is sent on a closed channel, the wait group does not go
    below zero; and [onCompleted] is called at most once. *)
Theorem server_never_panics `{GrpcApi} `{!StatusApi} `{!Codec} {W} (s : server)
    (h : rpcHandlerImpl (W := W)) (size : nat) (w : W) (ls : list label) (l : label) (x : sys)
    (Hrun : run s h ls (start h size w) = Some x) :
  step s h l x ≠ Panic ∧ (r_completed x <= 1)%nat.
Proof.
  pose proof (server_run_inv s h ls _ x (start_inv h size w) Hrun) as Hinv. split.
  - intros Hp. pose proof (server_step_inv s h l x Hinv) as Hok. by rewrite Hp in Hok.
  - rewrite (i_completed x Hinv). destruct (past_completed _); lia.
Qed.

(** C7: the goroutines refine [handleRequest]: in any interleaving, what the goroutine of
    a request did once it is over is what the function [handleRequest] does, with the
    decision it got being a claim response the bus delivered for that request, or none in
    time. *)
Theorem goroutines_refine_handleRequest `{GrpcApi} `{!StatusApi} `{!Codec} {W} (s : server)
    (h : rpcHandlerImpl (W := W)) (size : nat) (w : W) (ls : list label) (x : sys) (n : nat)
    (g : goroutine) (Hrun : run s h ls (start h size w) = Some x)
    (Hg : r_goroutines x !! n = Some g) (Hover : g_task g = TOver) :
  ∃ now pubErr d now' w', known (claims_delivered ls) (g_ir g) d ∧
    acts_of x n = (handleRequest s h (g_ir g) now pubErr d now' w').2.
Proof.
  pose proof (run_goes_on s h [] ls _ x (start_inv h size w) (start_goes_on s h size w) Hrun) as Hgo.
  pose proof (go_acts s h _ x Hgo n g Hg) as Hacts. rewrite Hover in Hacts.
  destruct Hacts as (now & pubErr & d & now' & w' & Hk & Heq). exists now, pubErr, d, now', w'. done.
Qed.

(** C9: a graceful close loses no request: when it calls [onCompleted], every request the
    bus ever delivered to the handler had expired when it was taken, or was handled to its
    end. *)
Theorem close_drains `{GrpcApi} `{!StatusApi} `{!Codec} {W} (s : server)
    (h : rpcHandlerImpl (W := W)) (size : nat) (w : W) (ls : list label) (x : sys)
    (Hrun : run s h ls (start h size w) = Some x)
    (Hgraceful : LClose true ∉ ls) (Hcompleted : r_completed x ≠ 0%nat) :
  (∀ n g, r_goroutines x !! n = Some g → g_task g = TOver) ∧
  requests_delivered ls ≡ₚ (g_ir <$> r_goroutines x) ++ r_expired x.
Proof.
  pose proof (server_run_inv s h ls _ x (start_inv h size w) Hrun) as Hinv.
  assert (graceful x) as Hgr by (by apply (run_graceful s h ls (start h size w)); [apply start_inv|..]).
  assert (r_drained x = true ∧ r_handling x = 0%nat) as [Hd Hh].
  { rewrite (i_completed x Hinv) in Hcompleted. unfold graceful in Hgr.
    destruct (r_closing x) as [[]|]; simpl in Hcompleted; done. }
  split.
  - intros n g Hg. pose proof (sum_list_with_lookup pending _ _ _ Hg) as Hle.
    rewrite <- (i_handling x Hinv), Hh in Hle. unfold pending in Hle. destruct (g_task g); try lia. done.
  - pose proof (run_requests s h ls _ x Hrun) as Hreq. simpl in Hreq.
    rewrite (i_drained x Hinv) in Hd. destruct (i_nil x Hinv Hd) as [Hb _].
    rewrite Hb, app_nil_r in Hreq. by rewrite <- Hreq.
Qed.

(** C19: [close] returns: once it was called, and with at most one claim response per
    request delivered, whatever the handler's goroutines do next they can go on until it
    has returned, and they stop after at most [measure] steps. *)
Theorem close_terminates `{GrpcApi} `{!StatusApi} `{!Codec} {W} (s : server)
    (h : rpcHandlerImpl (W := W)) (size : nat) (w : W) (ls ls' : list label) (x x' : sys)
    (Hrun : run s h ls (start h size w) = Some x)
    (Honce : NoDup (cr_RequestId <$> claims_delivered ls)) (Hclosing : is_Some (r_closing x))
    (Hinternal : Forall (λ l, internal l = true) ls') (Hrun' : run s h ls' x = Some x') :
  (length ls' <= measure x)%nat ∧
  (r_closing x' = Some KReturned ∨ ∃ l x2, internal l = true ∧ step s h l x' = Next x2).
Proof.
  pose proof (server_run_inv s h ls _ x (start_inv h size w) Hrun) as Hinv.
  pose proof (run_goes_on s h [] ls _ x (start_inv h size w) (start_goes_on s h size w) Hrun) as Hgo.
  pose proof (run_goes_on s h _ ls' x x' Hinv Hgo Hrun') as Hgo'.
  rewrite (internal_delivers ls' Hinternal), app_nil_r in Hgo'. simpl in Hgo'.
  split; [pose proof (run_measure s h ls' x x' Hinternal Hrun'); lia|].
  destruct (run_closing s h ls' x x' Hinternal Hrun' Hclosing) as [k Hk]. rewrite Hk.
  destruct (decide (k = KReturned)) as [->|Hne]; [by left|right].
  eapply (close_progress s h (claims_delivered ls)); [|done..]. by eapply server_run_inv.
Qed.

Section server_close_witnesses.
#[local] Existing Instances grpc_numbers example_status.
#[local] Existing Instance Bus.Example.codec.

(** A handler that answers every request with an empty message, after a claim. *)
Definition claiming_rpc : RequestInfo := MkRequestInfo (MkRPCInfo "svc" "m" [] false) false true false.

Definition answering : rpcHandlerImpl (W := unit) :=
  MkHandler claiming_rpc "M" (λ _ _ w, (w, (Some (("T", []) : message), None))) None.

Definition answering_server : server := MkServer "svc" "SRV_a".

Definition a_request : Request := MkRequest "REQ_1" "CLI_1" 0 Second false None [] false true.

Definition a_grant : ClaimResponse := MkClaimResponse "REQ_1" "SRV_a".

Definition an_input : input := MkInput 1 None (Decided a_grant).

(** A request handled, and a close while it is. *)
Definition one_request : list label :=
  [LDeliver a_request; LTakeRequest 1; LGoroutine 0 an_input; LGoroutine 0 an_input; LClose false; LClosing;
   LDeliverClaim a_grant; LTakeClaim; LSend; LGoroutine 0 an_input; LGoroutine 0 an_input;
   LGoroutine 0 an_input; LGoroutine 0 an_input].

Definition to_the_end : list label :=
  [LTakeRequest 2; LClosing; LClosing; LClosing; LClosing; LClosing].

Definition closed_up (x : sys (W := unit)) : bool :=
  match r_closing x with Some KReturned => true | _ => false end && (r_completed x =? 1)%nat.

Definition first_over (x : sys (W := unit)) : bool :=
  match r_goroutines x !! 0%nat with
  | Some g => match g_task g with TOver => true | _ => false end
  | None => false
  end && match r_closing x with Some _ => true | None => false end.

Lemma running_over : ∃ x, run answering_server answering one_request (start answering 1 tt) = Some x ∧ first_over x = true.
Proof.
  assert (from_option first_over false (run answering_server answering one_request (start answering 1 tt)) = true) as Ho by (vm_compute; reflexivity).
  destruct (run answering_server answering one_request (start answering 1 tt)) as [x|];
    [|discriminate Ho]. exists x. split; [reflexivity|exact Ho].
Qed.

Lemma run_and_closed_up : ∃ x, run answering_server answering (one_request ++ to_the_end) (start answering 1 tt) = Some x ∧ closed_up x = true.
Proof.
  assert (from_option closed_up false (run answering_server answering (one_request ++ to_the_end) (start answering 1 tt)) = true) as Ho by (vm_compute; reflexivity).
  destruct (run answering_server answering (one_request ++ to_the_end) (start answering 1 tt)) as [x|];
    [|discriminate Ho]. exists x. split; [reflexivity|exact Ho].
Qed.

Lemma server_never_panics_witness : ∃ x, run answering_server answering one_request (start answering 1 tt) = Some x ∧
  step answering_server answering LClosing x ≠ Panic.
Proof.
  destruct running_over as (x & Hx & _). exists x. split; [exact Hx|].
  exact (proj1 (server_never_panics answering_server answering 1 tt one_request LClosing x Hx)).
Defined.

Lemma goroutines_refine_handleRequest_witness :
  ∃ x g now pubErr d now' w', run answering_server answering one_request (start answering 1 tt) = Some x ∧
    r_goroutines x !! 0%nat = Some g ∧
    acts_of x 0 = (handleRequest answering_server answering (g_ir g) now pubErr d now' w').2.
Proof.
  destruct running_over as (x & Hx & Ho). unfold first_over in Ho.
  destruct (r_goroutines x !! 0%nat) as [g|] eqn:Hg; [|discriminate Ho].
  destruct (g_task g) eqn:Ht; try discriminate Ho.
  destruct (goroutines_refine_handleRequest answering_server answering 1 tt one_request x 0 g Hx Hg Ht)
    as (now & pubErr & d & now' & w' & _ & Heq).
  exists x, g, now, pubErr, d, now', w'. split; [exact Hx|]. split; [exact Hg|exact Heq].
Defined.

Lemma server_run_app ls1 ls2 (x : sys (W := unit)) :
  run answering_server answering (ls1 ++ ls2) x
  = y ← run answering_server answering ls1 x; run answering_server answering ls2 y.
Proof.
  revert x. induction ls1 as [|l ls1 IH]; intros x; simpl; [done|].
  by destruct (step answering_server answering l x).
Qed.

Lemma close_drains_witness :
  ∃ x, run answering_server answering (one_request ++ to_the_end) (start answering 1 tt) = Some x ∧
    requests_delivered (one_request ++ to_the_end) ≡ₚ (g_ir <$> r_goroutines x) ++ r_expired x.
Proof.
  destruct run_and_closed_up as (x & Hx & Hc). exists x. split; [exact Hx|].
  refine (proj2 (close_drains answering_server answering 1 tt (one_request ++ to_the_end) x Hx _ _)).
  - intros Hin. repeat (apply elem_of_cons in Hin as [Heq|Hin]; [discriminate Heq|]). by apply elem_of_nil in Hin.
  - unfold closed_up in Hc. apply andb_prop in Hc as [_ Hc]. apply Nat.eqb_eq in Hc. rewrite Hc. discriminate.
Defined.

Lemma close_terminates_witness :
  ∃ x x', run answering_server answering one_request (start answering 1 tt) = Some x ∧ run answering_server answering to_the_end x = Some x' ∧
    (6 <= measure x)%nat ∧ closed_up x' = true.
Proof.
  destruct running_over as (x & Hx & Ho). destruct run_and_closed_up as (x' & Hx' & Hc).
  rewrite server_run_app, Hx in Hx'. simpl in Hx'.
  exists x, x'. split; [exact Hx|]. split; [exact Hx'|]. split; [|exact Hc].
  refine (proj1 (close_terminates answering_server answering 1 tt one_request to_the_end x x' Hx _ _ _ Hx')).
  - apply NoDup_singleton.
  - unfold first_over in Ho. apply andb_prop in Ho as [_ Ho]. destruct (r_closing x); [eexists; reflexivity|discriminate Ho].
  - repeat constructor.
Defined.
End server_close_witnesses.
