(* ===== verification/Registry.v ===== *)
(** * Registry.v: a server's handlers ([src/pkg/server/server.go])

    [RegisterHandler], [RegisterStreamHandler], [DeregisterHandler] and [Close] as
    interleaved steps on the server's table.  Of a handler, [rpcHandler], there is here what
    its [close] ([src/pkg/server/rpc.go], [src/pkg/server/stream.go]) waits for: whether
    its loop runs and has drained, and how many requests or streams it has; [ServerClose]
    and [ServerStreamClose] have the goroutines that do this. *)
From S2P Require Import Prelude Errors Bus Info.

(** ** State *)

(** A handler: open; in [close] before [onCompleted]; in [onCompleted] after
    [active.Done]; closed. *)
Inductive hstate : Type := HOpen | HClosing | HDone | HClosed.

#[export] Instance hstate_eq_dec : EqDecision hstate.
Proof. solve_decision. Defined.

(** [h_stream] is the kind, [h_running] whether [run] was called, [h_force] what the
    [close] that came first was called with.  [h_drained] is whether the loop of an RPC's
    handler closed [drained]; [h_handling] counts its requests under way, or the streams of
    a stream's handler, and once its [close] began those that it waits for. *)
Record handler : Type := MkHandler {
  h_key : string;
  h_stream : bool;
  h_running : bool;
  h_state : hstate;
  h_force : bool;
  h_drained : bool;
  h_handling : nat
}.

Definition new_handler (key : string) (stream : bool) : handler := MkHandler key stream false HOpen false false 0.

(** What a registration returns. *)
Inductive registered : Type :=
| Registered
| RServerClosed
| RAlreadyExists
| RCreateFailed.

(** The calls under way: a registration before its test of [shutdown], before the
    lookup, before the creation, before the table is written, before [run]; a
    deregistration before its lookup and in the handler's [close]; a [Close] before its
    [Once], before the snapshot, waiting for the handlers' goroutines, and waiting for
    [active]; the calls that returned. *)
Inductive call : Type :=
| RShutdown (stream : bool) (key : string)
| RLookup (stream : bool) (key : string)
| RCreate (stream : bool) (key : string)
| RStore (o : nat)
| RRun (o : nat)
| RReturned (r : registered)
| DLookup (key : string)
| DClose (o : nat)
| DReturned
| COnce (force : bool)
| CSnapshot (force : bool)
| CWait (force : bool) (os : list nat)
| CActive (force : bool)
| CReturned.

(** [shutdown]'s [Once]: not begun, under way, over. *)
Inductive once : Type := Unbroken | Breaking | Broken.

#[export] Instance once_eq_dec : EqDecision once.
Proof. solve_decision. Defined.

Record RPCServer : Type := MkRPCServer {
  s_handlers : gmap string nat;
  s_all : list handler;
  s_active : nat;
  s_shutdown : once;
  s_calls : list call
}.

Definition NewRPCServer : RPCServer := MkRPCServer ∅ [] 0 Unbroken [].

Inductive outcome : Type :=
| Next (s : RPCServer)
| Blocked
| Panic.

(** ** Steps *)

Definition set_call (s : RPCServer) (n : nat) (c : call) : RPCServer :=
  MkRPCServer (s_handlers s) (s_all s) (s_active s) (s_shutdown s) (<[n := c]> (s_calls s)).

Definition set_handler (s : RPCServer) (o : nat) (h : handler) : RPCServer :=
  MkRPCServer (s_handlers s) (<[o := h]> (s_all s)) (s_active s) (s_shutdown s) (s_calls s).

Definition set_shutdown (s : RPCServer) (x : once) : RPCServer :=
  MkRPCServer (s_handlers s) (s_all s) (s_active s) x (s_calls s).

Definition set_state (h : handler) (x : hstate) : handler :=
  MkHandler (h_key h) (h_stream h) (h_running h) x (h_force h) (h_drained h) (h_handling h).

Definition set_running (h : handler) : handler :=
  MkHandler (h_key h) (h_stream h) true (h_state h) (h_force h) (h_drained h) (h_handling h).

Definition set_force (h : handler) (force : bool) : handler :=
  MkHandler (h_key h) (h_stream h) (h_running h) (h_state h) force (h_drained h) (h_handling h).

Definition set_work (h : handler) (drained : bool) (handling : nat) : handler :=
  MkHandler (h_key h) (h_stream h) (h_running h) (h_state h) (h_force h) drained handling.

(** A goroutine enters a handler's [close]: [closeOnce] lets the first one do it, with its
    own [force]. *)
Definition enter_close (s : RPCServer) (o : nat) (force : bool) : outcome :=
  match s_all s !! o with
  | Some h =>
      match h_state h with
      | HOpen => Next (set_handler s o (set_force (set_state h HClosing) force))
      | _ => Blocked
      end
  | None => Panic
  end.

(** What [close] waits for before [onCompleted]: a stream's handler for its streams to be
    closed, whatever [force] is; an RPC's, if not forced, for its loop to have drained and
    for its requests. *)
Definition ready (h : handler) : bool :=
  if h_stream h then (h_handling h =? 0)%nat
  else h_force h || (h_drained h && (h_handling h =? 0)%nat).

(** A handler's [close] goes on: with [active.Done] of its [onCompleted], then the rest. *)
Definition handler_step (s : RPCServer) (o : nat) : outcome :=
  match s_all s !! o with
  | Some h =>
      match h_state h with
      | HClosing =>
          if ready h then
            match s_active s with
            | O => Panic
            | S n => Next (MkRPCServer (s_handlers s) (<[o := set_state h HDone]> (s_all s)) n (s_shutdown s) (s_calls s))
            end
          else Blocked
      | HDone =>
          Next (MkRPCServer (delete (h_key h) (s_handlers s)) (<[o := set_state h HClosed]> (s_all s)) (s_active s)
                  (s_shutdown s) (s_calls s))
      | _ => Blocked
      end
  | None => Blocked
  end.

(** A handler at work: it takes a request or opens a stream; a request is handled or a
    stream closed; the loop finds the subscription, which [close] closed, at its end. *)
Inductive work : Type := WBegin | WEnd | WDrain.

(** An RPC's loop takes requests until it has drained; a stream's handler opens none once
    [draining] is set, or none that its [close] waits for. *)
Definition can_begin (h : handler) : bool :=
  h_running h && if h_stream h then bool_decide (h_state h = HOpen) else negb (h_drained h).

Definition can_drain (h : handler) : bool :=
  negb (h_stream h) && h_running h && negb (h_drained h) && bool_decide (h_state h ≠ HOpen).

Definition work_step (s : RPCServer) (o : nat) (w : work) : outcome :=
  match s_all s !! o with
  | Some h =>
      match w with
      | WBegin => if can_begin h then Next (set_handler s o (set_work h (h_drained h) (S (h_handling h)))) else Blocked
      | WEnd => match h_handling h with O => Blocked | S n => Next (set_handler s o (set_work h (h_drained h) n)) end
      | WDrain => if can_drain h then Next (set_handler s o (set_work h true (h_handling h))) else Blocked
      end
  | None => Blocked
  end.

Definition is_closed (s : RPCServer) (o : nat) : bool :=
  match s_all s !! o with Some h => bool_decide (h_state h = HClosed) | None => false end.

Section steps.
(** Whether the fuse's [Once] breaks it before it runs the function: the fuse is another
    module's code, and nothing below depends on it. *)
Context (break_first : bool).

Definition IsBroken (s : RPCServer) : bool :=
  match s_shutdown s with Unbroken => false | Breaking => break_first | Broken => true end.

(** The next step of a call; [created] is whether the handler's constructor succeeds. *)
Definition call_step (s : RPCServer) (n : nat) (c : call) (created : bool) : outcome :=
  match c with
  | RShutdown stream key => Next (set_call s n (if IsBroken s then RReturned RServerClosed else RLookup stream key))
  | RLookup stream key =>
      Next (set_call s n (if decide (is_Some (s_handlers s !! key)) then RReturned RAlreadyExists else RCreate stream key))
  | RCreate stream key =>
      if created then
        Next (MkRPCServer (s_handlers s) (s_all s ++ [new_handler key stream]) (S (s_active s)) (s_shutdown s)
                (<[n := RStore (length (s_all s))]> (s_calls s)))
      else Next (set_call s n (RReturned RCreateFailed))
  | RStore o =>
      match s_all s !! o with
      | Some h => Next (MkRPCServer (<[h_key h := o]> (s_handlers s)) (s_all s) (s_active s) (s_shutdown s)
                          (<[n := RRun o]> (s_calls s)))
      | None => Panic
      end
  | RRun o =>
      match s_all s !! o with
      | Some h => Next (set_call (set_handler s o (set_running h)) n (RReturned Registered))
      | None => Panic
      end
  | DLookup key =>
      Next (set_call s n (match s_handlers s !! key with Some o => DClose o | None => DReturned end))
  | DClose o => if is_closed s o then Next (set_call s n DReturned) else enter_close s o true
  | COnce force =>
      match s_shutdown s with
      | Unbroken => Next (set_call (set_shutdown s Breaking) n (CSnapshot force))
      | Breaking => Blocked
      | Broken => Next (set_call s n (if force then CReturned else CActive force))
      end
  | CSnapshot force => Next (set_call s n (CWait force (snd <$> map_to_list (s_handlers s))))
  | CWait force os =>
      if forallb (is_closed s) os then
        Next (set_call (set_shutdown s Broken) n (if force then CReturned else CActive force))
      else Blocked
  | CActive force => if (s_active s =? 0)%nat then Next (set_call s n CReturned) else Blocked
  | RReturned _ | DReturned | CReturned => Blocked
  end.

(** A call begins; it goes on; the goroutine [Close] started for a handler enters its
    [close]; a handler's [close] goes on; a handler works.  A key is [GetHandlerKey] of the method's
    [GetInfo], which panics for a method the service does not have. *)
Inductive label : Type :=
| LRegister (stream : bool) (rpc : string) (topic : list string)
| LDeregister (rpc : string) (topic : list string)
| LClose (force : bool)
| LCall (n : nat) (created : bool)
| LCloseOne (n : nat) (o : nat)
| LHandler (o : nat)
| LWork (o : nat) (w : work).

Context (sd : ServiceDefinition).

Definition key_of (rpc : string) (topic : list string) : option string := GetHandlerKey <$> GetInfo sd rpc topic.

Definition add_call (s : RPCServer) (c : call) : RPCServer :=
  MkRPCServer (s_handlers s) (s_all s) (s_active s) (s_shutdown s) (s_calls s ++ [c]).

Definition step (l : label) (s : RPCServer) : outcome :=
  match l with
  | LRegister stream rpc topic => match key_of rpc topic with Some key => Next (add_call s (RShutdown stream key)) | None => Panic end
  | LDeregister rpc topic => match key_of rpc topic with Some key => Next (add_call s (DLookup key)) | None => Panic end
  | LClose force => Next (add_call s (COnce force))
  | LCall n created => match s_calls s !! n with Some c => call_step s n c created | None => Blocked end
  | LCloseOne n o =>
      match s_calls s !! n with
      | Some (CWait force os) => if decide (o ∈ os) then enter_close s o force else Blocked
      | _ => Blocked
      end
  | LHandler o => handler_step s o
  | LWork o w => work_step s o w
  end.

(** ** Orderly runs *)

(** The key of a registration on its way to the table. *)
Definition registering (all : list handler) (c : call) : option string :=
  match c with
  | RShutdown _ key | RLookup _ key | RCreate _ key => Some key
  | RStore o => h_key <$> all !! o
  | _ => None
  end.

(** Registrations of one key do not overlap, and none is on its way when [Close] takes
    its snapshot or begins later. *)
Definition orderly (l : label) (s : RPCServer) : bool :=
  match l with
  | LRegister _ rpc topic =>
      bool_decide (s_shutdown s = Unbroken) &&
      forallb (λ c, negb (bool_decide (registering (s_all s) c = key_of rpc topic))) (s_calls s)
  | LCall n _ =>
      match s_calls s !! n with
      | Some (COnce _) => forallb (λ c, bool_decide (registering (s_all s) c = None)) (s_calls s)
      | _ => true
      end
  | _ => true
  end.

Fixpoint run (ls : list label) (s : RPCServer) : option RPCServer :=
  match ls with
  | [] => Some s
  | l :: ls => match step l s with Next s => run ls s | _ => None end
  end.

Fixpoint orderly_run (ls : list label) (s : RPCServer) : bool :=
  match ls with
  | [] => true
  | l :: ls => orderly l s && match step l s with Next s => orderly_run ls s | _ => true end
  end.
End steps.

(** ** Invariants *)

Lemma sum_list_with_zero {A} (w : A → nat) l : (∀ o h, l !! o = Some h → w h = 0%nat) → sum_list_with w l = 0%nat.
Proof.
  induction l as [|x l IH]; intros Hw; [done|]. simpl. rewrite (Hw 0%nat x eq_refl).
  apply IH. intros o h Ho. by apply (Hw (S o)).
Qed.

(** [active] counts the handlers whose [onCompleted] is still to come. *)
Definition counted (h : handler) : nat := match h_state h with HOpen | HClosing => 1 | _ => 0 end.

Definition refers (c : call) : list nat :=
  match c with RStore o | RRun o | DClose o => [o] | CWait _ os => os | _ => [] end.

Record server_inv (s : RPCServer) : Prop := {
  si_active : s_active s = sum_list_with counted (s_all s);
  si_table k o : s_handlers s !! k = Some o → h_key <$> s_all s !! o = Some k;
  si_calls n c o : s_calls s !! n = Some c → o ∈ refers c → (o < length (s_all s))%nat
}.

(** What a step of a handler's own changes. *)
Lemma set_handler_inv s o h h' :
  server_inv s → s_all s !! o = Some h → h_key h' = h_key h → counted h' = counted h →
  server_inv (set_handler s o h').
Proof.
  intros [Ha Ht Hc] Ho Hk Hw. split; simpl.
  - pose proof (sum_list_with_insert counted _ o h h' Ho). lia.
  - intros k o2 Hs. specialize (Ht k o2 Hs). destruct (decide (o2 = o)) as [->|Hne].
    + rewrite list_lookup_insert_eq by (by eapply lookup_lt_Some). rewrite Ho in Ht. simpl in *. congruence.
    + by rewrite list_lookup_insert_ne.
  - intros n c o2. rewrite length_insert. by apply Hc.
Qed.

Lemma set_call_inv s n c c' :
  server_inv s → s_calls s !! n = Some c → (∀ o, o ∈ refers c' → (o < length (s_all s))%nat) →
  server_inv (set_call s n c').
Proof.
  intros [Ha Ht Hc] Hn Hr. split; simpl; [done..|]. intros m d o Hm Ho.
  apply list_lookup_insert_cases in Hm as [[-> ->]|[_ Hm]]; [by apply Hr|by eapply Hc].
Qed.

Lemma set_shutdown_inv s x : server_inv s → server_inv (set_shutdown s x).
Proof. by intros [Ha Ht Hc]; split. Qed.

Definition outcome_inv (o : outcome) : Prop :=
  match o with Next s => server_inv s | Blocked => True | Panic => False end.

Lemma enter_close_inv s o force : server_inv s → (o < length (s_all s))%nat → outcome_inv (enter_close s o force).
Proof.
  intros Hi [h Ho]%lookup_lt_is_Some. unfold enter_close. rewrite Ho. destruct (h_state h) eqn:Hs; [|done..].
  apply (set_handler_inv s o h); [done..|]. unfold counted. by rewrite Hs.
Qed.

Lemma handler_step_inv s o : server_inv s → outcome_inv (handler_step s o).
Proof.
  intros Hi. unfold handler_step. destruct (s_all s !! o) as [h|] eqn:Ho; [|done].
  pose proof (si_active s Hi) as Ha. destruct (h_state h) eqn:Hs; [done| | |done].
  - pose proof (sum_list_with_lookup counted _ o h Ho) as Hle. unfold counted at 1 in Hle. rewrite Hs in Hle.
    destruct (ready h); [|done]. destruct (s_active s) as [|k] eqn:Hact; [lia|].
    pose proof (sum_list_with_insert counted _ o h (set_state h HDone) Ho) as Ht. unfold counted at 2 4 in Ht.
    rewrite Hs in Ht. simpl in Ht. destruct Hi as [_ H2 H3]. split; simpl; [lia| |].
    + intros k2 o2 Hk. specialize (H2 k2 o2 Hk). destruct (decide (o2 = o)) as [->|Hne].
      * rewrite list_lookup_insert_eq by (by eapply lookup_lt_Some). by rewrite Ho in H2.
      * by rewrite list_lookup_insert_ne.
    + intros n c o2. rewrite length_insert. by apply H3.
  - pose proof (sum_list_with_insert counted _ o h (set_state h HClosed) Ho) as Ht. unfold counted at 2 4 in Ht.
    rewrite Hs in Ht. simpl in Ht. destruct Hi as [_ H2 H3]. split; simpl; [lia| |].
    + intros k2 o2 [_ Hk]%lookup_delete_Some. specialize (H2 k2 o2 Hk). destruct (decide (o2 = o)) as [->|Hne].
      * rewrite list_lookup_insert_eq by (by eapply lookup_lt_Some). by rewrite Ho in H2.
      * by rewrite list_lookup_insert_ne.
    + intros n c o2. rewrite length_insert. by apply H3.
Qed.

(** What work changes of a handler. *)
Lemma work_step_next s o w s' : work_step s o w = Next s' → ∃ h h', s_all s !! o = Some h ∧ s' = set_handler s o h' ∧
  h_key h' = h_key h ∧ h_stream h' = h_stream h ∧ h_running h' = h_running h ∧ h_state h' = h_state h ∧ h_force h' = h_force h.
Proof.
  unfold work_step. destruct (s_all s !! o) as [h|]; [|done]. destruct w.
  - destruct (can_begin h); [|done]. intros [= <-]. by eexists h, _.
  - destruct (h_handling h); [done|]. intros [= <-]. by eexists h, _.
  - destruct (can_drain h); [|done]. intros [= <-]. by eexists h, _.
Qed.

Lemma work_step_inv s o w : server_inv s → outcome_inv (work_step s o w).
Proof.
  intros Hi. destruct (work_step s o w) as [s'| |] eqn:Hw; [|done|].
  - apply work_step_next in Hw as (h & h' & Ho & -> & Hk & _ & _ & Hs & _).
    apply (set_handler_inv s o h); [done..|]. unfold counted. by rewrite Hs.
  - revert Hw. unfold work_step. destruct (s_all s !! o) as [h|]; [|done]. destruct w; [by destruct (can_begin h)|by destruct (h_handling h)|by destruct (can_drain h)].
Qed.

Lemma snapshot_elem (m : gmap string nat) o : o ∈ snd <$> map_to_list m ↔ ∃ k, m !! k = Some o.
Proof.
  rewrite list_elem_of_fmap. split.
  - intros ([k o2] & -> & Hin%elem_of_map_to_list). by exists k.
  - intros [k Hk]. exists (k, o). split; [done|by apply elem_of_map_to_list].
Qed.

Lemma call_step_inv bf s n c created :
  server_inv s → s_calls s !! n = Some c → outcome_inv (call_step bf s n c created).
Proof.
  intros Hi Hn. pose proof (si_calls s Hi n c) as Hr.
  assert (Hset : ∀ c', refers c' ⊆ refers c → server_inv (set_call s n c')).
  { intros c' Hsub. apply (set_call_inv s n c); [done|done|]. intros o Ho. apply (Hr o Hn). by apply Hsub. }
  destruct c as [st k|st k|st k|o|o|r|k|o| |f|f|f os|f|]; simpl in *; try done.
  - apply Hset. by destruct (IsBroken bf s).
  - apply Hset. by destruct (decide _).
  - destruct created; [|by apply Hset]. destruct Hi as [H1 H2 H3]. split; simpl.
    + rewrite sum_list_with_app, H1. simpl. lia.
    + intros k2 o Ho. specialize (H2 k2 o Ho). destruct (s_all s !! o) eqn:Hlo; [|done].
      by rewrite (lookup_app_l_Some _ _ _ _ Hlo).
    + intros m d o Hm Ho. rewrite length_app. simpl.
      apply list_lookup_insert_cases in Hm as [[-> ->]|[_ Hm]]; [apply list_elem_of_singleton in Ho; lia|].
      specialize (H3 m d o Hm Ho). lia.
  - destruct (lookup_lt_is_Some_2 (s_all s) o) as [h Ho]; [apply (Hr o Hn), list_elem_of_singleton; done|].
    rewrite Ho. destruct (Hset (RRun o)) as [H1 H2 H3]; [done|]. split; simpl in *; [done| |done].
    intros k2 o2 [[<- <-]|[_ Hk]]%lookup_insert_Some; [by rewrite Ho|by apply H2].
  - destruct (lookup_lt_is_Some_2 (s_all s) o) as [h Ho]; [apply (Hr o Hn), list_elem_of_singleton; done|].
    rewrite Ho. apply (set_call_inv _ n (RRun o)); [by apply (set_handler_inv s o h)|done|]. by intros o2 ?%elem_of_nil.
  - destruct (s_handlers s !! k) as [o|] eqn:Hk; [|by apply Hset]. apply (set_call_inv s n (DLookup k)); [done..|].
    intros o2 ->%list_elem_of_singleton. pose proof (si_table s Hi k o Hk) as Ht.
    destruct (s_all s !! o) eqn:Hlo; [|done]. by eapply lookup_lt_Some.
  - destruct (is_closed s o); [by apply Hset, list_subseteq_nil|]. apply enter_close_inv; [done|].
    by apply (Hr o Hn), list_elem_of_singleton.
  - destruct (s_shutdown s); [|done|].
    + apply (set_call_inv _ n (COnce f)); [by apply set_shutdown_inv|done|]. by intros o ?%elem_of_nil.
    + apply Hset. by destruct f.
  - apply (set_call_inv s n (CSnapshot f)); [done..|]. intros o [k Hk]%snapshot_elem.
    pose proof (si_table s Hi k o Hk) as Ht. destruct (s_all s !! o) eqn:Hlo; [|done]. by eapply lookup_lt_Some.
  - destruct (forallb _ os); [|done]. apply (set_call_inv _ n (CWait f os)); [by apply set_shutdown_inv|done|].
    by destruct f; intros o ?%elem_of_nil.
  - destruct (s_active s =? 0)%nat; [|done]. by apply Hset.
Qed.

Lemma registry_step_inv bf sd l s : server_inv s → (∀ st rpc topic, l = LRegister st rpc topic ∨ l = LDeregister rpc topic → is_Some (key_of sd rpc topic)) →
  outcome_inv (step bf sd l s).
Proof.
  intros Hi Hk.
  assert (Hadd : ∀ c, refers c = [] → server_inv (add_call s c)).
  { intros c Hc. destruct Hi as [H1 H2 H3]. split; simpl; [done..|]. intros n d o Hn Ho.
    apply lookup_app_Some in Hn as [Hn|[_ Hn]]; [by eapply H3|].
    apply list_lookup_singleton_Some in Hn as [_ <-]. rewrite Hc in Ho. by apply elem_of_nil in Ho. }
  destruct l as [st rpc topic|rpc topic|force|n created|n o|o|o w]; simpl.
  - destruct (Hk st rpc topic) as [k ->]; [by left|]. by apply Hadd.
  - destruct (Hk true rpc topic) as [k ->]; [by right|]. by apply Hadd.
  - by apply Hadd.
  - destruct (s_calls s !! n) as [c|] eqn:Hn; [|done]. by apply call_step_inv.
  - destruct (s_calls s !! n) as [[]|] eqn:Hn; try done. destruct (decide _) as [Ho|]; [|done].
    apply enter_close_inv; [done|]. by eapply (si_calls s Hi n).
  - by apply handler_step_inv.
  - by apply work_step_inv.
Qed.

(** *** What orderly runs keep *)

Definition begun (s : RPCServer) (c : call) : Prop :=
  match c with
  | CSnapshot _ => s_shutdown s ≠ Unbroken
  | CWait _ os => s_shutdown s ≠ Unbroken ∧ ∀ o h, s_all s !! o = Some h → h_state h ≠ HClosed → o ∈ os
  | CActive _ | CReturned => s_shutdown s = Broken
  | RCreate _ key => s_handlers s !! key = None
  | RStore o => ∃ h, s_all s !! o = Some h ∧ h_state h = HOpen ∧ s_handlers s !! h_key h = None
  | _ => True
  end.

(** The table and the handlers that are not closed are the same, but for a handler that
    its registration is about to enter. *)
Record orderly_inv (s : RPCServer) : Prop := {
  oi_open o h : s_all s !! o = Some h → h_state h ≠ HClosed →
    s_handlers s !! h_key h = Some o ∨ ∃ n, s_calls s !! n = Some (RStore o);
  oi_live k o : s_handlers s !! k = Some o → ∃ h, s_all s !! o = Some h ∧ h_key h = k ∧ h_state h ≠ HClosed;
  oi_begun n c : s_calls s !! n = Some c → begun s c;
  oi_unique n m c c' k : s_calls s !! n = Some c → s_calls s !! m = Some c' →
    registering (s_all s) c = Some k → registering (s_all s) c' = Some k → n = m;
  oi_quiet n c : s_shutdown s ≠ Unbroken → s_calls s !! n = Some c → registering (s_all s) c = None;
  oi_broken o h : s_shutdown s = Broken → s_all s !! o = Some h → h_state h = HClosed
}.

(** A call goes on, with its key or without one. *)
Lemma set_call_orderly s n c c' :
  orderly_inv s → s_calls s !! n = Some c → (∀ o, c ≠ RStore o) →
  (registering (s_all s) c' = None ∨ registering (s_all s) c' = registering (s_all s) c) →
  begun s c' → orderly_inv (set_call s n c').
Proof.
  intros [H1 H2 H3 H4 H5 H6] Hn Hns Hr Hb.
  assert (Hlt : (n < length (s_calls s))%nat) by (by eapply lookup_lt_Some).
  split; simpl; [|done| | | |done].
  - intros o h Ho Hs. destruct (H1 o h Ho Hs) as [?|[m Hm]]; [by left|right]. exists m.
    rewrite list_lookup_insert_ne; [done|]. intros ->. rewrite Hn in Hm. injection Hm as ->. by destruct (Hns o).
  - intros m d [[-> ->]|[_ Hm]]%list_lookup_insert_cases; [exact Hb|exact (H3 m d Hm)].
  - intros m1 m2 d1 d2 k Hm1 Hm2 Hk1 Hk2.
    apply list_lookup_insert_cases in Hm1 as [[-> ->]|[Hne1 Hm1]], Hm2 as [[-> ->]|[Hne2 Hm2]];
      [done| | |by eapply H4].
    + destruct Hr as [Hr|Hr]; rewrite Hr in Hk1; [done|]. by apply (H4 n m2 c d2 k).
    + destruct Hr as [Hr|Hr]; rewrite Hr in Hk2; [done|]. by apply (H4 m1 n d1 c k).
  - intros m d Hsh [[-> ->]|[_ Hm]]%list_lookup_insert_cases; [|by eapply H5].
    destruct Hr as [->| ->]; [done|by eapply H5].
Qed.

(** A handler goes on, and it is closed if and only if it was. *)
Lemma set_handler_orderly s o h h' :
  orderly_inv s → s_all s !! o = Some h → h_key h' = h_key h → (h_state h' = HClosed ↔ h_state h = HClosed) →
  (h_state h' = h_state h ∨ ∀ n, s_calls s !! n ≠ Some (RStore o)) → orderly_inv (set_handler s o h').
Proof.
  intros [H1 H2 H3 H4 H5 H6] Ho Hk Hc Hs.
  assert (Hlt : (o < length (s_all s))%nat) by (by eapply lookup_lt_Some).
  assert (Hall : ∀ o2 h2, <[o := h']> (s_all s) !! o2 = Some h2 →
    ∃ h1, s_all s !! o2 = Some h1 ∧ h_key h2 = h_key h1 ∧ (h_state h2 = HClosed ↔ h_state h1 = HClosed)).
  { intros o2 h2 [[-> ->]|[_ Ho2]]%list_lookup_insert_cases; [by exists h|by exists h2]. }
  assert (Hreg : ∀ c, registering (<[o := h']> (s_all s)) c = registering (s_all s) c).
  { intros [st k|st k|st k|o2|o2|r|k|o2| |f|f|f os|f|]; try done. simpl. destruct (decide (o2 = o)) as [->|Hne].
    - rewrite list_lookup_insert_eq, Ho by done. simpl. by rewrite Hk.
    - by rewrite list_lookup_insert_ne. }
  split; simpl.
  - intros o2 h2 (h1 & Ho1 & -> & Hcl)%Hall Hst. apply H1; [done|tauto].
  - intros k o2 Hko. destruct (H2 k o2 Hko) as (h2 & Ho2 & Hk2 & Hst). destruct (decide (o2 = o)) as [->|Hne].
    + rewrite list_lookup_insert_eq by done. rewrite Ho in Ho2. injection Ho2 as <-. exists h'. split_and!; [done|congruence|tauto].
    + rewrite list_lookup_insert_ne by done. by exists h2.
  - intros n c Hn. specialize (H3 n c Hn). destruct c as [st k|st k|st k|o2|o2|r|k|o2| |f|f|f os|f|]; simpl in *; try done.
    + destruct H3 as (h2 & Ho2 & Hst & Ht). destruct (decide (o2 = o)) as [->|Hne].
      * rewrite list_lookup_insert_eq by done. exists h'. rewrite Ho in Ho2. injection Ho2 as <-.
        destruct Hs as [Hs|Hs]; [|by destruct (Hs n)]. rewrite Hk, Hs. done.
      * rewrite list_lookup_insert_ne by done. by exists h2.
    + destruct H3 as [? Hall2]. split; [done|]. intros o2 h2 (h1 & Ho1 & _ & Hcl)%Hall Hst.
      apply (Hall2 o2 h1); [done|tauto].
  - intros n m c c' k Hn Hm. rewrite !Hreg. by apply H4.
  - intros n c Hsh Hn. rewrite Hreg. by apply (H5 n).
  - intros o2 h2 Hsh (h1 & Ho1 & _ & Hcl)%Hall. apply Hcl. by apply (H6 o2).
Qed.

Lemma store_orderly s n o h :
  orderly_inv s → s_calls s !! n = Some (RStore o) → s_all s !! o = Some h →
  orderly_inv (MkRPCServer (<[h_key h := o]> (s_handlers s)) (s_all s) (s_active s) (s_shutdown s)
                 (<[n := RRun o]> (s_calls s))).
Proof.
  intros [H1 H2 H3 H4 H5 H6] Hn Ho. destruct (H3 n _ Hn) as (h0 & Ho0 & Hst & Hfree). rewrite Ho in Ho0. injection Ho0 as <-.
  assert (Hkn : registering (s_all s) (RStore o) = Some (h_key h)) by (simpl; by rewrite Ho).
  assert (Hother : ∀ m c, m ≠ n → s_calls s !! m = Some c → registering (s_all s) c ≠ Some (h_key h)).
  { intros m c Hne Hm Hk. apply Hne. by apply (H4 m n c (RStore o) (h_key h)). }
  assert (Hth : ∀ m c, <[n := RRun o]> (s_calls s) !! m = Some c → (c = RRun o ∧ m = n) ∨ (m ≠ n ∧ s_calls s !! m = Some c)).
  { intros m c [[-> ->]|[? ?]]%list_lookup_insert_cases; [by left|by right]. }
  split; simpl.
  - intros o2 h2 Ho2 Hs2. destruct (decide (o2 = o)) as [->|Hne].
    { left. rewrite Ho in Ho2. injection Ho2 as <-. by rewrite lookup_insert_eq. }
    destruct (H1 o2 h2 Ho2 Hs2) as [Hk|[m Hm]].
    + left. rewrite lookup_insert_ne; [done|]. intros Heq. rewrite <- Heq in Hk. congruence.
    + right. exists m. rewrite list_lookup_insert_ne; [done|]. intros ->. rewrite Hn in Hm. by injection Hm as ->.
  - intros k o2 [[<- <-]|[_ Hk]]%lookup_insert_Some; [exists h; split_and!; [done|done|by rewrite Hst]|by apply H2].
  - intros m c [[-> _]|[Hne Hm]]%Hth; [done|]. specialize (H3 m c Hm). pose proof (Hother m c Hne Hm) as Hoth.
    destruct c as [st k|st k|st k|o2|o2|r|k|o2| |f|f|f os|f|]; simpl in *; try done.
    + rewrite lookup_insert_ne; [done|congruence].
    + destruct H3 as (h2 & Ho2 & ? & ?). exists h2. rewrite Ho2 in Hoth. simpl in Hoth.
      rewrite lookup_insert_ne; [done|congruence].
  - intros m1 m2 c1 c2 k [[-> ->]|[? Hm1]]%Hth [[-> ->]|[? Hm2]]%Hth; try done. by eapply H4.
  - intros m c Hsh [[-> ->]|[? Hm]]%Hth; [done|by apply (H5 m)].
  - exact H6.
Qed.

Lemma create_orderly s n st k :
  server_inv s → orderly_inv s → s_calls s !! n = Some (RCreate st k) →
  orderly_inv (MkRPCServer (s_handlers s) (s_all s ++ [new_handler k st]) (S (s_active s)) (s_shutdown s)
                 (<[n := RStore (length (s_all s))]> (s_calls s))).
Proof.
  intros Hi [H1 H2 H3 H4 H5 H6] Hn. set (o := length (s_all s)). set (h := new_handler k st).
  pose proof (lookup_lt_Some _ _ _ Hn) as Hlt.
  assert (Hsh : s_shutdown s = Unbroken).
  { destruct (decide (s_shutdown s = Unbroken)) as [|Hne]; [done|]. by specialize (H5 n _ Hne Hn). }
  assert (Hnew : (s_all s ++ [h]) !! o = Some h) by (unfold o; by rewrite lookup_app_r, Nat.sub_diag by lia).
  assert (Hold : ∀ o2 h2, s_all s !! o2 = Some h2 → (s_all s ++ [h]) !! o2 = Some h2) by (intros; by apply lookup_app_l_Some).
  assert (Hall : ∀ o2 h2, (s_all s ++ [h]) !! o2 = Some h2 → (o2 = o ∧ h2 = h) ∨ s_all s !! o2 = Some h2).
  { intros o2 h2 [?|[Hle Hz]]%lookup_app_Some; [by right|left]. apply list_lookup_singleton_Some in Hz as [Hz <-].
    split; [unfold o; lia|done]. }
  assert (Hreg : ∀ m c, s_calls s !! m = Some c → registering (s_all s ++ [h]) c = registering (s_all s) c).
  { intros m c Hm. destruct c as [| | |o2| | | | | | | | | |]; try done. simpl.
    destruct (H3 m _ Hm) as (h2 & Ho2 & _). rewrite Ho2. by rewrite (Hold o2 h2 Ho2). }
  split; simpl.
  - intros o2 h2 [[-> ->]|Ho2]%Hall Hs2; [right; exists n; by rewrite list_lookup_insert_eq|].
    destruct (H1 o2 h2 Ho2 Hs2) as [?|[m Hm]]; [by left|right]. exists m. rewrite list_lookup_insert_ne; [done|].
    intros ->. by rewrite Hn in Hm.
  - intros k2 o2 Hk. destruct (H2 k2 o2 Hk) as (h2 & Ho2 & ?). exists h2. split; [by apply Hold|done].
  - intros m c [[-> ->]|[Hne Hm]]%list_lookup_insert_cases.
    + simpl. exists h. split_and!; [done|done|]. exact (H3 n _ Hn).
    + specialize (H3 m c Hm). destruct c as [| | |o2| | | | | | |f|f os|f|]; simpl in *; try done.
      * destruct H3 as (h2 & Ho2 & ?). exists h2. split; [by apply Hold|done].
      * by destruct H3.
  - assert (Hregn : registering (s_all s ++ [h]) (RStore o) = registering (s_all s) (RCreate st k)) by (simpl; by rewrite Hnew).
    intros m1 m2 c1 c2 k2 Hm1 Hm2 Hk1 Hk2.
    apply list_lookup_insert_cases in Hm1 as [[-> ->]|[Hne1 Hm1]], Hm2 as [[-> ->]|[Hne2 Hm2]]; [done| | |].
    + rewrite Hregn in Hk1. rewrite (Hreg m2) in Hk2 by done. by apply (H4 n m2 (RCreate st k) c2 k2).
    + rewrite Hregn in Hk2. rewrite (Hreg m1) in Hk1 by done. by apply (H4 m1 n c1 (RCreate st k) k2).
    + rewrite (Hreg m1) in Hk1 by done. rewrite (Hreg m2) in Hk2 by done. by apply (H4 m1 m2 c1 c2 k2).
  - intros m c Hne. by rewrite Hsh in Hne.
  - intros o2 h2 Hbr. by rewrite Hsh in Hbr.
Qed.

(** A handler that leaves the table leaves its own entry. *)
Lemma close_orderly s o h :
  orderly_inv s → s_all s !! o = Some h → h_state h = HDone →
  orderly_inv (MkRPCServer (delete (h_key h) (s_handlers s)) (<[o := set_state h HClosed]> (s_all s)) (s_active s)
                 (s_shutdown s) (s_calls s)).
Proof.
  intros [H1 H2 H3 H4 H5 H6] Ho Hst. pose proof (lookup_lt_Some _ _ _ Ho) as Hlt.
  assert (Hns : ∀ n, s_calls s !! n ≠ Some (RStore o)).
  { intros n Hn. destruct (H3 n _ Hn) as (h2 & Ho2 & Hop & _). rewrite Ho in Ho2. injection Ho2 as <-. congruence. }
  assert (Hk : s_handlers s !! h_key h = Some o).
  { destruct (H1 o h Ho) as [?|[n Hn]]; [by rewrite Hst|done|by destruct (Hns n)]. }
  assert (Hall : ∀ o2 h2, <[o := set_state h HClosed]> (s_all s) !! o2 = Some h2 →
    (o2 = o ∧ h_state h2 = HClosed ∧ h_key h2 = h_key h) ∨ (o2 ≠ o ∧ s_all s !! o2 = Some h2)).
  { intros o2 h2 [[-> ->]|[? ?]]%list_lookup_insert_cases; [by left|by right]. }
  assert (Hreg : ∀ c, registering (<[o := set_state h HClosed]> (s_all s)) c = registering (s_all s) c).
  { intros [st k|st k|st k|o2|o2|r|k|o2| |f|f|f os|f|]; try done. simpl. destruct (decide (o2 = o)) as [->|Hne].
    - by rewrite list_lookup_insert_eq, Ho.
    - by rewrite list_lookup_insert_ne. }
  split; simpl.
  - intros o2 h2 [(-> & Hcl & _)|[Hne Ho2]]%Hall Hs2; [done|].
    destruct (H1 o2 h2 Ho2 Hs2) as [Hk2|?]; [left|by right].
    rewrite lookup_delete_ne; [done|]. intros Heq. rewrite <- Heq in Hk2. congruence.
  - intros k o2 [Hne Hk2]%lookup_delete_Some. destruct (H2 k o2 Hk2) as (h2 & Ho2 & Hkk & ?). exists h2.
    rewrite list_lookup_insert_ne; [done|]. intros ->. rewrite Ho in Ho2. injection Ho2 as <-. congruence.
  - intros n c Hn. specialize (H3 n c Hn). destruct c as [st k|st k|st k|o2|o2|r|k|o2| |f|f|f os|f|]; simpl in *; try done.
    + by apply lookup_delete_None; right.
    + destruct H3 as (h2 & Ho2 & ? & ?). exists h2. split_and!; [|done|by apply lookup_delete_None; right].
      rewrite list_lookup_insert_ne; [done|]. intros ->. by destruct (Hns n).
    + destruct H3 as [? Hos]. split; [done|]. intros o2 h2 [(-> & Hcl & _)|[Hne Ho2]]%Hall Hs2; [done|by apply (Hos o2 h2)].
  - intros n m c c' k Hn Hm. rewrite !Hreg. by apply H4.
  - intros n c Hsh Hn. rewrite Hreg. by apply (H5 n).
  - intros o2 h2 Hsh [(-> & ? & _)|[_ Ho2]]%Hall; [done|by apply (H6 o2)].
Qed.

(** [Once] begins, with no registration on its way, and ends, with the handlers closed. *)
Lemma breaking_orderly s n force :
  orderly_inv s → s_calls s !! n = Some (COnce force) →
  (∀ m c, s_calls s !! m = Some c → registering (s_all s) c = None) → s_shutdown s = Unbroken →
  orderly_inv (set_call (set_shutdown s Breaking) n (CSnapshot force)).
Proof.
  intros [H1 H2 H3 H4 H5 H6] Hn Hq Hsh.
  apply (set_call_orderly _ n (COnce force)); [|done|done|by left|done]. split; simpl; try done.
  - intros m c Hm. specialize (H3 m c Hm). destruct c; simpl in *; try done; rewrite Hsh in H3; try done.
    by destruct H3.
  - intros m c _. by apply Hq.
Qed.

Lemma broken_orderly s n force os :
  orderly_inv s → s_calls s !! n = Some (CWait force os) → forallb (is_closed s) os = true →
  orderly_inv (set_call (set_shutdown s Broken) n (if force then CReturned else CActive force)).
Proof.
  intros [H1 H2 H3 H4 H5 H6] Hn Hc. destruct (H3 n _ Hn) as [Hsh Hos].
  apply (set_call_orderly _ n (CWait force os)); [|done|done|by left; destruct force|by destruct force]. split; simpl; try done.
  - intros m c Hm. specialize (H3 m c Hm). destruct c; simpl in *; try done. destruct H3 as [_ H3]. by split.
  - intros m c _. by apply H5.
  - intros o h _ Ho. destruct (decide (h_state h = HClosed)) as [|Hne]; [done|].
    specialize (Hos o h Ho Hne). apply list_elem_of_lookup_1 in Hos as [i Hi].
    pose proof (forallb_lookup _ _ i o Hc Hi) as Hcl. unfold is_closed in Hcl. rewrite Ho in Hcl.
    by apply bool_decide_eq_true in Hcl.
Qed.

Lemma enter_close_orderly s o force s' : orderly_inv s → (∀ n, s_calls s !! n ≠ Some (RStore o)) →
  enter_close s o force = Next s' → orderly_inv s'.
Proof.
  intros Hi Hns. unfold enter_close. destruct (s_all s !! o) as [h|] eqn:Ho; [|done].
  destruct (h_state h) eqn:Hs; [|done..]. intros [= <-].
  apply (set_handler_orderly s o h); [done..| |by right]. by rewrite Hs.
Qed.

Lemma handler_step_orderly s o s' : orderly_inv s → handler_step s o = Next s' → orderly_inv s'.
Proof.
  intros Hi. unfold handler_step. destruct (s_all s !! o) as [h|] eqn:Ho; [|done].
  assert (Hns : h_state h ≠ HOpen → ∀ n, s_calls s !! n ≠ Some (RStore o)).
  { intros Hne n Hn. destruct (oi_begun s Hi n _ Hn) as (h2 & Ho2 & Hop & _). congruence. }
  destruct (h_state h) eqn:Hs; [done| | |done].
  - destruct (ready h); [|done]. destruct (s_active s) as [|k]; [done|]. intros [= <-].
    assert (orderly_inv (set_handler s o (set_state h HDone))) as [? ? ? ? ? ?].
    { apply (set_handler_orderly s o h); [done..| |right; by apply Hns]. by rewrite Hs. }
    by split.
  - intros [= <-]. by apply close_orderly.
Qed.

Lemma work_step_orderly s o w s' : orderly_inv s → work_step s o w = Next s' → orderly_inv s'.
Proof.
  intros Hi (h & h' & Ho & -> & Hk & _ & _ & Hs & _)%work_step_next.
  apply (set_handler_orderly s o h); [done..| |by left]. by rewrite Hs.
Qed.

Lemma add_call_orderly s c : orderly_inv s → (∀ o, c ≠ RStore o) → begun s c →
  (∀ k, registering (s_all s) c = Some k → s_shutdown s = Unbroken ∧
     ∀ n c', s_calls s !! n = Some c' → registering (s_all s) c' ≠ Some k) →
  orderly_inv (add_call s c).
Proof.
  intros [H1 H2 H3 H4 H5 H6] Hns Hb Hr.
  assert (Hth : ∀ m d, (s_calls s ++ [c]) !! m = Some d → (d = c ∧ m = length (s_calls s)) ∨ s_calls s !! m = Some d).
  { intros m d [?|[Hle Hm]]%lookup_app_Some; [by right|left]. apply list_lookup_singleton_Some in Hm as [? <-]. split; [done|lia]. }
  split; simpl; [|done| | | |done].
  - intros o h Ho Hs. destruct (H1 o h Ho Hs) as [?|[n Hn]]; [by left|right]. exists n. by apply lookup_app_l_Some.
  - intros n d [[-> ->]|Hn]%Hth; [exact Hb|exact (H3 n d Hn)].
  - intros n m d d' k [[-> ->]|Hn]%Hth [[-> ->]|Hm]%Hth Hk Hk'; [done| | |by eapply H4].
    + destruct (Hr k Hk) as [_ Hno]. by destruct (Hno m d' Hm).
    + destruct (Hr k Hk') as [_ Hno]. by destruct (Hno n d Hn).
  - intros n d Hsh [[-> ->]|Hn]%Hth; [|by eapply H5].
    destruct (registering (s_all s) c) as [k|] eqn:Hk; [|done]. by destruct (Hr k eq_refl).
Qed.

Lemma in_table_not_storing s k o : orderly_inv s → s_handlers s !! k = Some o → ∀ n, s_calls s !! n ≠ Some (RStore o).
Proof.
  intros Hi Hk n Hn. destruct (oi_begun s Hi n _ Hn) as (h & Ho & _ & Hno).
  destruct (oi_live s Hi k o Hk) as (h2 & Ho2 & Hkk & _). congruence.
Qed.

Lemma call_step_orderly bf s n c created s' :
  server_inv s → orderly_inv s → s_calls s !! n = Some c →
  (∀ force, c = COnce force → ∀ m d, s_calls s !! m = Some d → registering (s_all s) d = None) →
  (∀ o, o ∈ refers c → (∀ m, s_calls s !! m ≠ Some (RStore o)) ∨ c = RStore o) →
  call_step bf s n c created = Next s' → orderly_inv s'.
Proof.
  intros Hi Ho Hn Hq Hns Hstep. pose proof (oi_begun s Ho n c Hn) as Hb.
  assert (Hset : ∀ c', (∀ o, c ≠ RStore o) → (registering (s_all s) c' = None ∨ registering (s_all s) c' = registering (s_all s) c) →
    begun s c' → orderly_inv (set_call s n c')) by (intros; by apply (set_call_orderly s n c)).
  destruct c as [st k|st k|st k|o|o|r|k|o| |f|f|f os|f|]; simpl in Hstep; try done.
  - injection Hstep as <-. destruct (IsBroken bf s); (apply Hset; [done|(by left) || (by right)|done]).
  - injection Hstep as <-. destruct (decide _) as [|Hno]; (apply Hset; [done|(by left) || (by right)|]); [done|].
    by apply eq_None_not_Some in Hno.
  - destruct created; injection Hstep as <-; [by apply create_orderly|]. (apply Hset; [done|(by left) || (by right)|done]).
  - destruct (s_all s !! o) as [h|] eqn:Hlo; [|done]. injection Hstep as <-. by apply store_orderly.
  - destruct (s_all s !! o) as [h|] eqn:Hlo; [|done]. injection Hstep as <-.
    apply (set_call_orderly _ n (RRun o)); [|done|done|by left|done].
    apply (set_handler_orderly s o h); [done..|by left].
  - injection Hstep as <-. destruct (s_handlers s !! k) as [o|] eqn:Hk; (apply Hset; [done|(by left) || (by right)|done]).
  - destruct (is_closed s o); [injection Hstep as <-; (apply Hset; [done|(by left) || (by right)|done])|].
    apply (enter_close_orderly s o true); [done| |done].
    destruct (Hns o) as [?|?]; [by left|done|done].
  - destruct (s_shutdown s) eqn:Hsh; [|done|]; injection Hstep as <-.
    + apply breaking_orderly; [done..| |done]. by eapply Hq.
    + destruct f; (apply Hset; [done|(by left) || (by right)|done]).
  - injection Hstep as <-. apply Hset; [done|by left|]. split; [done|]. intros o h Hlo Hst.
    apply snapshot_elem. exists (h_key h). destruct (oi_open s Ho o h Hlo Hst) as [?|[m Hm]]; [done|].
    pose proof (oi_quiet s Ho m _ Hb Hm) as Hno. simpl in Hno. by rewrite Hlo in Hno.
  - destruct (forallb _ os) eqn:Hc; [|done]. injection Hstep as <-. by apply (broken_orderly s n f os).
  - destruct (s_active s =? 0)%nat; [|done]. injection Hstep as <-. (apply Hset; [done|(by left) || (by right)|done]).
Qed.

(** A handler that a call other than its registration has is in the table, or was. *)
Definition refs_inv (s : RPCServer) : Prop :=
  ∀ n m c o, s_calls s !! n = Some c → o ∈ refers c → s_calls s !! m = Some (RStore o) → c = RStore o.

Lemma set_call_refs s s' n c' : refs_inv s → s_calls s' = <[n := c']> (s_calls s) →
  (∀ o, o ∈ refers c' → ∀ m, m ≠ n → s_calls s !! m ≠ Some (RStore o)) →
  (∀ o, c' = RStore o → ∀ m d, m ≠ n → s_calls s !! m = Some d → o ∉ refers d) → refs_inv s'.
Proof.
  intros Hr Hs Hc Hst m1 m2 d o. rewrite Hs. intros Hm1 Hin Hm2.
  apply list_lookup_insert_cases in Hm1 as [[-> ->]|[Hne1 Hm1]], Hm2 as [[-> Heq]|[Hne2 Hm2]].
  - done.
  - by destruct (Hc o Hin m2 Hne2).
  - by destruct (Hst o (eq_sym Heq) m1 d Hne1 Hm1).
  - by apply (Hr m1 m2 d o).
Qed.

Lemma call_step_refs bf s n c created s' :
  server_inv s → orderly_inv s → refs_inv s → s_calls s !! n = Some c → call_step bf s n c created = Next s' → refs_inv s'.
Proof.
  intros Hi Ho Hr Hn Hstep.
  assert (Hsub : ∀ s1 c', s_calls s1 = <[n := c']> (s_calls s) → (∀ o, c' ≠ RStore o) → refers c' ⊆ refers c →
    (∀ o, c ≠ RStore o) → refs_inv s1).
  { intros s1 c' Hs1 Hns Hsub Hns2. apply (set_call_refs s s1 n c'); [done|done| |by intros o ->; destruct (Hns o)].
    intros o Hin m _ Hm. apply (Hns2 o). by apply (Hr n m c o Hn (Hsub o Hin)). }
  destruct c as [st k|st k|st k|o|o|r|k|o| |f|f|f os|f|]; simpl in Hstep; try done.
  - injection Hstep as <-. eapply Hsub; [reflexivity|by destruct (IsBroken _ _)|by destruct (IsBroken _ _)|done].
  - injection Hstep as <-. eapply Hsub; [reflexivity|by destruct (decide _)|by destruct (decide _)|done].
  - destruct created; injection Hstep as <-; [|by eapply Hsub].
    eapply (set_call_refs s); [done|reflexivity| |].
    + intros o ->%list_elem_of_singleton m _ Hm.
      pose proof (si_calls s Hi m _ (length (s_all s)) Hm ltac:(by apply list_elem_of_singleton)). lia.
    + intros o Heq m d _ Hm Hin. injection Heq as <-. pose proof (si_calls s Hi m d _ Hm Hin). lia.
  - destruct (s_all s !! o) as [h|] eqn:Hlo; [|done]. injection Hstep as <-.
    eapply (set_call_refs s); [done|reflexivity| |done].
    intros o2 ->%list_elem_of_singleton m Hne Hm. apply Hne.
    apply (oi_unique s Ho m n (RStore o) (RStore o) (h_key h)); simpl; [done|done|by rewrite Hlo|by rewrite Hlo].
  - destruct (s_all s !! o) as [h|] eqn:Hlo; [|done]. injection Hstep as <-.
    eapply Hsub; [reflexivity|done|by apply list_subseteq_nil|done].
  - injection Hstep as <-. eapply (set_call_refs s); [done|reflexivity| |by destruct (s_handlers s !! k)].
    intros o Hin m _. destruct (s_handlers s !! k) as [o2|] eqn:Hk; [|by apply elem_of_nil in Hin].
    apply list_elem_of_singleton in Hin as ->. by apply (in_table_not_storing s k).
  - destruct (is_closed s o); [injection Hstep as <-; eapply Hsub; [reflexivity|done|by apply list_subseteq_nil|done]|].
    unfold enter_close in Hstep. destruct (s_all s !! o) as [h|]; [|done]. destruct (h_state h); [|done..].
    injection Hstep as <-. exact Hr.
  - destruct (s_shutdown s) eqn:Hsh; [|done|]; injection Hstep as <-.
    + by eapply Hsub.
    + eapply Hsub; [reflexivity|by destruct f|by destruct f|done].
  - injection Hstep as <-. eapply (set_call_refs s); [done|reflexivity| |done].
    intros o [k Hk]%snapshot_elem m _. by apply (in_table_not_storing s k).
  - destruct (forallb _ os) eqn:Hc; [|done]. injection Hstep as <-.
    eapply Hsub; [reflexivity|by destruct f|by destruct f; apply list_subseteq_nil|done].
  - destruct (s_active s =? 0)%nat; [|done]. injection Hstep as <-. by eapply Hsub.
Qed.

(** ** Runs *)

Record wf (s : RPCServer) : Prop := { wf_server : server_inv s; wf_orderly : orderly_inv s; wf_refs : refs_inv s }.

Lemma NewRPCServer_wf : wf NewRPCServer.
Proof. by split; [split|split|]. Qed.

Lemma step_wf bf sd l s s' : wf s → orderly sd l s = true → step bf sd l s = Next s' → wf s'.
Proof.
  intros [Hi Ho Hr] Hord Hstep.
  assert (Hserver : server_inv s').
  { assert (outcome_inv (step bf sd l s)) as Hok; [|by rewrite Hstep in Hok].
    apply registry_step_inv; [done|]. intros st rpc topic [-> | ->]; simpl in Hstep; by destruct (key_of sd rpc topic). }
  assert (Hadd : ∀ c, (∀ n, c ≠ RStore n) → refers c = [] → refs_inv (add_call s c)).
  { intros c Hns Hc n m d o Hn Hin Hm. simpl in *.
    apply lookup_app_Some in Hn as [Hn|[_ Hn]]; [|apply list_lookup_singleton_Some in Hn as [_ <-]; rewrite Hc in Hin; by apply elem_of_nil in Hin].
    apply lookup_app_Some in Hm as [Hm|[_ Hm]]; [by apply (Hr n m d o)|].
    apply list_lookup_singleton_Some in Hm as [_ Hm]. by destruct (Hns o). }
  assert (Hclose : ∀ o n c, s_calls s !! n = Some c → o ∈ refers c → (∀ o, c ≠ RStore o) → ∀ m, s_calls s !! m ≠ Some (RStore o)).
  { intros o n c Hn Hin Hns m Hm. apply (Hns o). by apply (Hr n m c o). }
  destruct l as [st rpc topic|rpc topic|force|n created|n o|o|o w]; simpl in Hstep, Hord.
  - destruct (key_of sd rpc topic) as [k|] eqn:Hk; [|done]. injection Hstep as <-. split; [done| |by apply Hadd].
    apply andb_prop in Hord as [Hsh%bool_decide_eq_true Hf].
    apply add_call_orderly; [done..|]. intros k2 [= <-]. split; [done|]. intros m c' Hm.
    pose proof (forallb_lookup _ _ m c' Hf Hm) as Hne. by apply negb_true_iff, bool_decide_eq_false in Hne.
  - destruct (key_of sd rpc topic) as [k|]; [|done]. injection Hstep as <-.
    split; [done|by apply add_call_orderly|by apply Hadd].
  - injection Hstep as <-. split; [done|by apply add_call_orderly|by apply Hadd].
  - destruct (s_calls s !! n) as [c|] eqn:Hn; [|done]. split; [done| |by apply (call_step_refs bf s n c created)].
    apply (call_step_orderly bf s n c created); [done..| | |done].
    + intros force -> m d Hm. pose proof (forallb_lookup _ _ m d Hord Hm) as Hd. by apply bool_decide_eq_true in Hd.
    + intros o Hin. destruct c as [| | |o2| | | | | | | | | |]; try (left; by apply (Hclose o n _ Hn Hin)).
      right. apply list_elem_of_singleton in Hin. by subst.
  - destruct (s_calls s !! n) as [[]|] eqn:Hn; try done. destruct (decide _) as [Hin|]; [|done].
    split; [done| |].
    + apply (enter_close_orderly s o force); [done| |done]. by apply (Hclose o n _ Hn).
    + unfold enter_close in Hstep. destruct (s_all s !! o) as [h|]; [|done]. destruct (h_state h); [|done..].
      injection Hstep as <-. exact Hr.
  - split; [done|by apply (handler_step_orderly s o)|].
    unfold handler_step in Hstep. destruct (s_all s !! o) as [h|]; [|done]. destruct (h_state h); [done| | |done].
    + destruct (ready h); [|done]. destruct (s_active s); [done|]. injection Hstep as <-. exact Hr.
    + injection Hstep as <-. exact Hr.
  - split; [done|by apply (work_step_orderly s o w)|]. apply work_step_next in Hstep as (h & h' & _ & -> & _). exact Hr.
Qed.

Lemma run_wf bf sd ls s s' : wf s → orderly_run bf sd ls s = true → run bf sd ls s = Some s' → wf s'.
Proof.
  revert s. induction ls as [|l ls IH]; intros s Hw; cbn [run orderly_run]; [by intros _ [= <-]|].
  intros [Ho Hr]%andb_prop. destruct (step bf sd l s) as [s1| |] eqn:Hs; [|done..].
  apply IH; [by eapply step_wf|done].
Qed.

Lemma run_server bf sd ls s s' : server_inv s → run bf sd ls s = Some s' → server_inv s'.
Proof.
  revert s. induction ls as [|l ls IH]; intros s Hw; cbn [run]; [by intros [= <-]|].
  destruct (step bf sd l s) as [s1| |] eqn:Hs; [|done..]. apply IH.
  assert (outcome_inv (step bf sd l s)) as Hok; [|by rewrite Hs in Hok].
  apply registry_step_inv; [done|]. intros st rpc topic [-> | ->]; simpl in Hs; by destruct (key_of sd rpc topic).
Qed.

(** ** What [close] waited for *)

(** A handler past what its [close] waits for has nothing of it left. *)
Definition settled (h : handler) : Prop :=
  h_state h = HDone ∨ h_state h = HClosed → h_stream h = true ∨ h_force h = false →
  h_handling h = 0%nat ∧ (h_stream h = true ∨ h_drained h = true).

(** The calls within [shutdown]'s [Once]. *)
Definition in_once (c : call) : option bool := match c with CSnapshot f | CWait f _ => Some f | _ => None end.

Definition one_in_once (calls : list call) : Prop := ∀ n m c c',
  calls !! n = Some c → calls !! m = Some c' → is_Some (in_once c) → is_Some (in_once c') → n = m.

Lemma once_insert calls n c : one_in_once calls → in_once c = None → one_in_once (<[n := c]> calls).
Proof.
  intros H1 Hc m1 m2 d1 d2 [[-> ->]|[_ Hm1]]%list_lookup_insert_cases [[-> ->]|[_ Hm2]]%list_lookup_insert_cases Hd1 Hd2;
    [done|rewrite Hc in Hd1; by destruct Hd1|rewrite Hc in Hd2; by destruct Hd2|by eapply H1].
Qed.

(** A handler that does not run has its registration before [run]; one call is in the
    [Once]; and a handler that closes without force does it for a [Close] without force. *)
Record close_inv (s : RPCServer) : Prop := {
  ci_settled o h : s_all s !! o = Some h → settled h;
  ci_run o h : s_all s !! o = Some h → h_running h = false → ∃ n, s_calls s !! n = Some (RStore o) ∨ s_calls s !! n = Some (RRun o);
  ci_once : one_in_once (s_calls s);
  ci_force o h : s_all s !! o = Some h → h_state h = HClosing → h_force h = false →
    ∃ n os, s_calls s !! n = Some (CWait false os) ∧ o ∈ os
}.

Lemma close_inv_same s s' : close_inv s → s_all s' = s_all s → s_calls s' = s_calls s → close_inv s'.
Proof. intros [H1 H2 H3 H4] Ha Hc. by split; rewrite ?Ha, ?Hc. Qed.

Lemma set_handler_close s o h h' : close_inv s → s_all s !! o = Some h → settled h' →
  (h_running h' = false → h_running h = false) →
  (h_state h' = HClosing → h_force h' = false → ∃ n os, s_calls s !! n = Some (CWait false os) ∧ o ∈ os) →
  close_inv (set_handler s o h').
Proof.
  intros [H1 H2 H3 H4] Ho Hs Hr Hf. split; simpl; [| |done|].
  - intros o2 h2 [[-> ->]|[_ Ho2]]%list_lookup_insert_cases; [done|by eapply H1].
  - intros o2 h2 [[-> ->]|[_ Ho2]]%list_lookup_insert_cases; [intros ?; eapply H2; [done|by apply Hr]|by eapply H2].
  - intros o2 h2 [[-> ->]|[_ Ho2]]%list_lookup_insert_cases; [done|by eapply H4].
Qed.

Lemma set_call_close s n c c' : close_inv s → s_calls s !! n = Some c → (∀ o, c ≠ RStore o ∧ c ≠ RRun o) →
  (is_Some (in_once c') → is_Some (in_once c) ∨ ∀ m d, s_calls s !! m = Some d → in_once d = None) →
  (∀ os, c = CWait false os → forallb (is_closed s) os = true) → close_inv (set_call s n c').
Proof.
  intros [H1 H2 H3 H4] Hn Hr Ho Hw. split; simpl; [done| | |].
  - intros o h Hlo Hrun. destruct (H2 o h Hlo Hrun) as [m Hm]. exists m. rewrite list_lookup_insert_ne; [done|].
    intros ->. destruct (Hr o). destruct Hm; congruence.
  - intros m1 m2 d1 d2 [[-> ->]|[Hne1 Hm1]]%list_lookup_insert_cases [[-> ->]|[Hne2 Hm2]]%list_lookup_insert_cases Hd1 Hd2; [done| | |by eapply H3].
    + destruct (Ho Hd1) as [?|Hno]; [by eapply (H3 n m2)|]. rewrite (Hno _ _ Hm2) in Hd2. by destruct Hd2.
    + destruct (Ho Hd2) as [?|Hno]; [by eapply (H3 m1 n)|]. rewrite (Hno _ _ Hm1) in Hd1. by destruct Hd1.
  - intros o h Hlo Hst Hf. destruct (H4 o h Hlo Hst Hf) as (m & os & Hm & Hin). exists m, os. split; [|done].
    rewrite list_lookup_insert_ne; [done|]. intros ->. rewrite Hn in Hm. injection Hm as ->.
    apply list_elem_of_lookup in Hin as [i Hi]. pose proof (forallb_lookup _ _ i o (Hw os eq_refl) Hi) as Hcl.
    unfold is_closed in Hcl. rewrite Hlo in Hcl. apply bool_decide_eq_true in Hcl. congruence.
Qed.

Lemma open_settled h : h_state h ≠ HDone → h_state h ≠ HClosed → settled h.
Proof. intros H1 H2 [?|?]; done. Qed.

Lemma enter_close_close s o force s' : close_inv s → enter_close s o force = Next s' →
  (force = false → ∃ n os, s_calls s !! n = Some (CWait false os) ∧ o ∈ os) → close_inv s'.
Proof.
  intros Hc. unfold enter_close. destruct (s_all s !! o) as [h|] eqn:Ho; [|done]. destruct (h_state h); [|done..].
  intros [= <-] Hf. apply (set_handler_close s o h); [done|done|by apply open_settled|done|]. intros _. exact Hf.
Qed.

(** What [close] waited for is over when it goes on. *)
Lemma ready_settled h : ready h = true → settled (set_state h HDone).
Proof.
  unfold ready, settled. simpl. destruct (h_stream h); [intros ?%Nat.eqb_eq; by split; [|left]|].
  intros Hr _ [?|Hf]; [done|]. rewrite Hf in Hr. simpl in Hr. apply andb_prop in Hr as [Hd Hh%Nat.eqb_eq]. by split; [|right].
Qed.

Lemma handler_step_close s o s' : close_inv s → handler_step s o = Next s' → close_inv s'.
Proof.
  intros Hc. unfold handler_step. destruct (s_all s !! o) as [h|] eqn:Ho; [|done]. destruct (h_state h) eqn:Hs; [done| | |done].
  - destruct (ready h) eqn:Hr; [|done]. destruct (s_active s) as [|k]; [done|]. intros [= <-].
    eapply close_inv_same; [apply (set_handler_close s o h (set_state h HDone)); [done|done|by apply ready_settled|done|done]|done|done].
  - intros [= <-]. eapply close_inv_same; [apply (set_handler_close s o h (set_state h HClosed)); [done|done| |done|done]|done|done].
    pose proof (ci_settled s Hc o h Ho) as Hset. intros _. apply Hset. by left.
Qed.

Lemma work_step_close s o w s' : close_inv s → work_step s o w = Next s' → close_inv s'.
Proof.
  intros Hc Hw. pose proof Hw as (h & h' & Ho & -> & _ & Hst & Hr & Hs & Hf)%work_step_next.
  apply (set_handler_close s o h); [done|done| |by rewrite Hr|rewrite Hs, Hf; by apply (ci_force s Hc)].
  pose proof (ci_settled s Hc o h Ho) as Hset. unfold settled in *. rewrite Hs, Hst, Hf. intros Hd Hk.
  destruct (Hset Hd Hk) as [Hh Hdr]. revert Hw. unfold work_step. rewrite Ho. destruct w.
  - destruct (can_begin h) eqn:Hb; [|done]. exfalso. unfold can_begin in Hb. apply andb_prop in Hb as [_ Hb].
    destruct (h_stream h); [apply bool_decide_eq_true in Hb; destruct Hd; congruence|].
    destruct Hdr as [?|Hdr]; [done|]. by rewrite Hdr in Hb.
  - by rewrite Hh.
  - destruct (can_drain h); [|done]. intros [= Heq]. apply (f_equal (.!! o)) in Heq.
    rewrite !list_lookup_insert_eq in Heq by (by eapply lookup_lt_Some). injection Heq as <-. split; [done|by right].
Qed.

Lemma call_step_close bf s n c created s' : server_inv s → orderly_inv s → close_inv s → s_calls s !! n = Some c →
  call_step bf s n c created = Next s' → close_inv s'.
Proof.
  intros Hi Ho Hc Hn Hstep. pose proof (oi_begun s Ho n c Hn) as Hb.
  assert (Hset : ∀ c', (∀ o, c ≠ RStore o ∧ c ≠ RRun o) → (is_Some (in_once c') → is_Some (in_once c)) → (∀ os, c ≠ CWait false os) → close_inv (set_call s n c')).
  { intros c' H1 H2 H3. apply (set_call_close s n c); [done..|by left; apply H2|]. intros os Heq. by destruct (H3 os). }
  destruct c as [st k|st k|st k|o|o|r|k|o| |f|f|f os|f|]; simpl in Hstep; try done.
  - injection Hstep as <-. apply Hset; [done| |done]. destruct (IsBroken bf s); by intros [].
  - injection Hstep as <-. apply Hset; [done| |done]. destruct (decide _); by intros [].
  - destruct created; injection Hstep as <-; [|by apply Hset; [done|intros []|done]]. destruct Hc as [H1 H2 H3 H4].
    assert (Hlt : (n < length (s_calls s))%nat) by (by eapply lookup_lt_Some). split; simpl.
    + intros o h [Hlo|[_ Hl]]%lookup_app_Some; [by eapply H1|]. apply list_lookup_singleton_Some in Hl as [_ <-]. by apply open_settled.
    + intros o h [Hlo|[Hle Hl]]%lookup_app_Some Hr.
      * destruct (H2 o h Hlo Hr) as [m Hm]. exists m. rewrite list_lookup_insert_ne; [done|]. intros ->. rewrite Hn in Hm. by destruct Hm.
      * apply list_lookup_singleton_Some in Hl as [Hz _]. exists n. left. rewrite list_lookup_insert_eq by done. do 2 f_equal. lia.
    + by apply once_insert.
    + intros o h [Hlo|[_ Hl]]%lookup_app_Some Hs; [|apply list_lookup_singleton_Some in Hl as [_ <-]; done].
      intros Hf. destruct (H4 o h Hlo Hs Hf) as (m & os & Hm & Hin). exists m, os. split; [|done].
      rewrite list_lookup_insert_ne; [done|]. intros ->. by rewrite Hn in Hm.
  - destruct (s_all s !! o) as [h|] eqn:Hlo; [|done]. injection Hstep as <-. destruct Hc as [H1 H2 H3 H4].
    assert (Hlt : (n < length (s_calls s))%nat) by (by eapply lookup_lt_Some). split; simpl; [done| | |].
    + intros o2 h2 Hlo2 Hr. destruct (decide (o2 = o)) as [->|Hne]; [exists n; right; by rewrite list_lookup_insert_eq|].
      destruct (H2 o2 h2 Hlo2 Hr) as [m Hm]. exists m. rewrite list_lookup_insert_ne; [done|]. intros ->. rewrite Hn in Hm. destruct Hm; congruence.
    + by apply once_insert.
    + intros o2 h2 Hlo2 Hs Hf. destruct (H4 o2 h2 Hlo2 Hs Hf) as (m & os & Hm & Hin). exists m, os. split; [|done].
      rewrite list_lookup_insert_ne; [done|]. intros ->. by rewrite Hn in Hm.
  - destruct (s_all s !! o) as [h|] eqn:Hlo; [|done]. injection Hstep as <-. destruct Hc as [H1 H2 H3 H4].
    split; simpl.
    + intros o2 h2 [[-> ->]|[_ Hlo2]]%list_lookup_insert_cases; [|by eapply H1]. exact (H1 _ _ Hlo).
    + intros o2 h2 [[-> ->]|[Hne Hlo2]]%list_lookup_insert_cases Hr; [done|]. destruct (H2 o2 h2 Hlo2 Hr) as [m Hm]. exists m.
      rewrite list_lookup_insert_ne; [done|]. intros ->. rewrite Hn in Hm. destruct Hm; congruence.
    + by apply once_insert.
    + intros o2 h2 Hlo2 Hs Hf. assert (∃ m os, s_calls s !! m = Some (CWait false os) ∧ o2 ∈ os) as (m & os & Hm & Hin).
      { apply list_lookup_insert_cases in Hlo2 as [[-> ->]|[_ Hlo2]]; [exact (H4 _ _ Hlo Hs Hf)|by eapply H4]. }
      exists m, os. split; [|done]. rewrite list_lookup_insert_ne; [done|]. intros ->. by rewrite Hn in Hm.
  - injection Hstep as <-. apply Hset; [done| |done]. destruct (s_handlers s !! k); by intros [].
  - destruct (is_closed s o); [injection Hstep as <-; by apply Hset; [done|intros []|done]|]. by eapply enter_close_close.
  - destruct (s_shutdown s) eqn:Hsh; [|done|]; injection Hstep as <-.
    + eapply close_inv_same; [apply (set_call_close s n (COnce f) (CSnapshot f)); [done..| |done]|done|done]. intros _. right.
      intros m d Hm. pose proof (oi_begun s Ho m d Hm) as Hbd. destruct d; simpl in *; try done; rewrite Hsh in Hbd; by destruct Hbd.
    + apply Hset; [done|destruct f; by intros []|done].
  - injection Hstep as <-. by apply Hset.
  - destruct (forallb _ os) eqn:Hcl; [|done]. injection Hstep as <-.
    eapply close_inv_same; [apply (set_call_close s n (CWait f os) (if f then CReturned else CActive f)); [done|done|done|by destruct f; intros []|]|done|done].
    by intros os' [= _ <-].
  - destruct (s_active s =? 0)%nat; [|done]. injection Hstep as <-. by apply Hset; [done|intros []|done].
Qed.

Lemma step_close bf sd l s s' : wf s → close_inv s → step bf sd l s = Next s' → close_inv s'.
Proof.
  intros [Hi Ho _] Hc Hstep. assert (Hadd : ∀ c, in_once c = None → close_inv (add_call s c)).
  { intros c Hc'. destruct Hc as [H1 H2 H3 H4]. split; simpl; [done| | |].
    - intros o h Hlo Hr. destruct (H2 o h Hlo Hr) as [m Hm]. exists m. destruct Hm as [Hm|Hm]; [left|right]; by apply lookup_app_l_Some.
    - intros n m d d' Hn Hm Hd Hd'. apply lookup_app_Some in Hn as [Hn|[_ Hn]];
        [|apply list_lookup_singleton_Some in Hn as [_ <-]; rewrite Hc' in Hd; by destruct Hd].
      apply lookup_app_Some in Hm as [Hm|[_ Hm]]; [by eapply H3|].
      apply list_lookup_singleton_Some in Hm as [_ <-]. rewrite Hc' in Hd'. by destruct Hd'.
    - intros o h Hlo Hs Hf. destruct (H4 o h Hlo Hs Hf) as (m & os & Hm & Hin). exists m, os. split; [by apply lookup_app_l_Some|done]. }
  destruct l as [st rpc topic|rpc topic|force|n created|n o|o|o w]; simpl in Hstep.
  - destruct (key_of sd rpc topic); [|done]. injection Hstep as <-. by apply Hadd.
  - destruct (key_of sd rpc topic); [|done]. injection Hstep as <-. by apply Hadd.
  - injection Hstep as <-. by apply Hadd.
  - destruct (s_calls s !! n) as [c|] eqn:Hn; [|done]. by eapply call_step_close.
  - destruct (s_calls s !! n) as [[| | | | | | | | | | |force os| |]|] eqn:Hn; try done. destruct (decide _) as [Hin|]; [|done].
    eapply enter_close_close; [done..|]. intros ->. by exists n, os.
  - by eapply handler_step_close.
  - by eapply work_step_close.
Qed.

Lemma New_close : close_inv NewRPCServer.
Proof. by split. Qed.

Lemma run_close bf sd ls s s' : wf s → close_inv s → orderly_run bf sd ls s = true → run bf sd ls s = Some s' → close_inv s'.
Proof.
  revert s. induction ls as [|l ls IH]; intros s Hw Hc; cbn [run orderly_run]; [by intros _ [= <-]|].
  intros [Ho Hr]%andb_prop. destruct (step bf sd l s) as [s1| |] eqn:Hs; [|done..].
  apply IH; [by eapply step_wf|by eapply step_close|done].
Qed.

(** *** [Close] returns *)

(** How far a handler is from closed, with what its [close] may wait for. *)
Definition open_weight (h : handler) : nat :=
  match h_state h with HOpen => 3 | HClosing => 2 | HDone => 1 | HClosed => 0 end +
  h_handling h + (if h_drained h then 0 else 1) + (if h_running h then 0 else 1).

Definition weight (s : RPCServer) : nat := sum_list_with open_weight (s_all s).

(** The steps that a [Close] waits for: its own, its goroutines', those of the handlers'
    [close] and, of a stream's handler, the closing of its streams; without force also the
    handling of the requests, the draining, and the [run] of a registration that is at it. *)
Definition closing_label (s : RPCServer) (n : nat) (force : bool) (l : label) : bool :=
  match l with
  | LCall m _ => (m =? n)%nat || (negb force && match s_calls s !! m with Some (RRun _) => true | _ => false end)
  | LCloseOne m _ => (m =? n)%nat
  | LHandler _ => true
  | LWork o WEnd => negb force || from_option h_stream false (s_all s !! o)
  | LWork o WDrain => negb force
  | _ => false
  end.

(** The same steps later. *)
Definition closing_later (s s' : RPCServer) : Prop :=
  (∀ m o, s_calls s' !! m = Some (RRun o) → s_calls s !! m = Some (RRun o)) ∧ h_stream <$> s_all s' = h_stream <$> s_all s.

Lemma closing_label_later s s' n force l : closing_later s s' → closing_label s' n force l = true → closing_label s n force l = true.
Proof.
  intros [Hc Ha]. destruct l as [| | |m ?|?|?|o []]; try done; simpl.
  - intros [->|[-> Hm]%andb_prop]%orb_prop; [done|]. destruct (s_calls s' !! m) as [[]|] eqn:Hm'; try done.
    rewrite (Hc _ _ Hm'). by rewrite orb_true_r.
  - assert (h_stream <$> s_all s' !! o = h_stream <$> s_all s !! o) as He by (by rewrite <- !list_lookup_fmap, Ha).
    by destruct (s_all s' !! o), (s_all s !! o); simplify_eq/=; rewrite ?He.
Qed.

(** A step of a handler alone. *)
Lemma handler_later s s' o h h' : s_all s !! o = Some h → s_all s' = <[o := h']> (s_all s) → s_calls s' = s_calls s →
  h_stream h' = h_stream h → (open_weight h' < open_weight h)%nat →
  closing_later s s' ∧ (weight s' < weight s)%nat ∧ ∀ c n, s_calls s !! n = Some c → s_calls s' !! n = Some c.
Proof.
  intros Ho Ha Hc Hs Hw. split_and!.
  - split; rewrite ?Hc, ?Ha; [done|]. rewrite list_fmap_insert, Hs. apply list_insert_id. by rewrite list_lookup_fmap, Ho.
  - unfold weight. rewrite Ha. pose proof (sum_list_with_insert open_weight _ o h h' Ho). lia.
  - intros c n. by rewrite Hc.
Qed.

(** A handler that is not closed goes on: its goroutine enters [close], its [close]
    proceeds, or what that waits for does. *)
Lemma handler_advances bf sd s n force os o h :
  wf s → close_inv s → s_calls s !! n = Some (CWait force os) → o ∈ os → s_all s !! o = Some h → h_state h ≠ HClosed →
  ∃ l s', closing_label s n force l = true ∧ step bf sd l s = Next s' ∧ s_calls s' !! n = Some (CWait force os) ∧
    closing_later s s' ∧ (weight s' < weight s)%nat.
Proof.
  intros [Hi Hord _] Hc Hn Hin Ho Hne.
  assert (Hone : ∀ l s' h', closing_label s n force l = true → step bf sd l s = Next s' → s_all s' = <[o := h']> (s_all s) →
    s_calls s' = s_calls s → h_stream h' = h_stream h → (open_weight h' < open_weight h)%nat →
    ∃ l s', closing_label s n force l = true ∧ step bf sd l s = Next s' ∧ s_calls s' !! n = Some (CWait force os) ∧
      closing_later s s' ∧ (weight s' < weight s)%nat).
  { intros l s' h' Hl Hst Ha Hcalls Hs Hw. destruct (handler_later s s' o h h' Ho Ha Hcalls Hs Hw) as (? & ? & Hcn).
    exists l, s'. split_and!; [done|done|by apply Hcn|done|done]. }
  destruct (h_state h) eqn:Hs; [| | |done].
  - apply (Hone (LCloseOne n o) (set_handler s o (set_force (set_state h HClosing) force)) (set_force (set_state h HClosing) force)); [simpl; by rewrite Nat.eqb_refl| |reflexivity|reflexivity|reflexivity|].
    + simpl. rewrite Hn, decide_True by done. unfold enter_close. by rewrite Ho, Hs.
    + unfold open_weight. rewrite Hs. simpl. lia.
  - destruct (ready h) eqn:Hr.
    { pose proof (si_active s Hi) as Ha. pose proof (sum_list_with_lookup counted _ o h Ho) as Hle.
      unfold counted at 1 in Hle. rewrite Hs in Hle. destruct (s_active s) as [|k] eqn:Hact; [lia|].
      apply (Hone (LHandler o) (MkRPCServer (s_handlers s) (<[o := set_state h HDone]> (s_all s)) k (s_shutdown s) (s_calls s)) (set_state h HDone)); [done| |reflexivity|reflexivity|reflexivity|].
      - simpl. unfold handler_step. by rewrite Ho, Hs, Hr, Hact.
      - unfold open_weight. rewrite Hs. simpl. lia. }
    assert (Hforce : h_stream h = false → force = false).
    { intros Hst. unfold ready in Hr. rewrite Hst in Hr. apply orb_false_elim in Hr as [Hf _].
      destruct (ci_force s Hc o h Ho Hs Hf) as (m & os' & Hm & _).
      assert (m = n) as -> by (by eapply (ci_once s Hc)). rewrite Hn in Hm. by injection Hm as -> _. }
    destruct (h_handling h) as [|k] eqn:Hh.
    + unfold ready in Hr. rewrite Hh in Hr. destruct (h_stream h) eqn:Hst; [done|]. specialize (Hforce eq_refl) as ->.
      rewrite andb_true_r in Hr. apply orb_false_elim in Hr as [_ Hd]. destruct (h_running h) eqn:Hrun.
      * apply (Hone (LWork o WDrain) (set_handler s o (set_work h true (h_handling h))) (set_work h true (h_handling h))); [done| |reflexivity|reflexivity|done|].
        -- simpl. unfold work_step, can_drain. rewrite Ho, Hst, Hrun, Hd, Hs. by rewrite bool_decide_eq_true_2.
        -- unfold open_weight. simpl. rewrite Hd. lia.
      * destruct (ci_run s Hc o h Ho Hrun) as (m & [Hm|Hm]).
        { destruct (oi_begun s Hord n _ Hn) as [Hsh _]. pose proof (oi_quiet s Hord m _ Hsh Hm) as Hq. simpl in Hq. by rewrite Ho in Hq. }
        assert (Hmn : m ≠ n) by (intros ->; by rewrite Hn in Hm).
        exists (LCall m true). eexists. split_and!; [simpl; rewrite Hm; by rewrite orb_true_r|simpl; rewrite Hm; simpl; by rewrite Ho| | |].
        -- simpl. by rewrite list_lookup_insert_ne.
        -- split; simpl.
           ++ intros m2 o2 [[-> ?]|[_ ?]]%list_lookup_insert_cases; done.
           ++ rewrite list_fmap_insert. apply list_insert_id. by rewrite list_lookup_fmap, Ho.
        -- unfold weight. simpl. pose proof (sum_list_with_insert open_weight _ o h (set_running h) Ho) as Hw.
           unfold open_weight at 2 4 in Hw. simpl in Hw. rewrite Hrun in Hw. lia.
    + apply (Hone (LWork o WEnd) (set_handler s o (set_work h (h_drained h) k)) (set_work h (h_drained h) k)); [|simpl; unfold work_step; by rewrite Ho, Hh|reflexivity|reflexivity|reflexivity|].
      * simpl. rewrite Ho. simpl. destruct (h_stream h); [by rewrite orb_true_r|by rewrite Hforce].
      * unfold open_weight. simpl. lia.
  - apply (Hone (LHandler o) (MkRPCServer (delete (h_key h) (s_handlers s)) (<[o := set_state h HClosed]> (s_all s)) (s_active s) (s_shutdown s) (s_calls s))
      (set_state h HClosed)); [done| |reflexivity|reflexivity|reflexivity|].
    + simpl. unfold handler_step. by rewrite Ho, Hs.
    + unfold open_weight. rewrite Hs. simpl. lia.
Qed.

Lemma closing_orderly sd s n force os l : s_calls s !! n = Some (CWait force os) → closing_label s n force l = true → orderly sd l s = true.
Proof.
  intros Hn Hl. destruct l as [| | |m ?| | |]; simpl in *; try done. destruct (s_calls s !! m) as [[]|] eqn:Hm; try done.
  rewrite andb_false_r, orb_false_r in Hl. apply Nat.eqb_eq in Hl as ->. by rewrite Hn in Hm.
Qed.

Lemma all_closed_inactive s : wf s → s_shutdown s = Broken →
  s_active s = 0%nat ∧ s_handlers s = ∅ ∧ ∀ o h, s_all s !! o = Some h → h_state h = HClosed.
Proof.
  intros [Hi Ho _] Hb. pose proof (oi_broken s Ho) as Hcl. split_and!; [| |by intros o h; apply Hcl].
  - rewrite (si_active s Hi). apply sum_list_with_zero. intros o h Hlo. unfold counted. by rewrite (Hcl o h Hb Hlo).
  - apply map_eq. intros k. rewrite lookup_empty. destruct (s_handlers s !! k) as [o|] eqn:Hk; [|done].
    destruct (oi_live s Ho k o Hk) as (h & Hlo & _ & Hne). by rewrite (Hcl o h Hb Hlo) in Hne.
Qed.

Lemma forallb_refutes {A} (f : A → bool) l : forallb f l = false → ∃ x, x ∈ l ∧ f x = false.
Proof.
  induction l as [|x l IH]; [done|]. simpl. destruct (f x) eqn:Hx; [|by exists x; split; [left|]].
  intros [y [? ?]]%IH. exists y. split; [by right|done].
Qed.

(** With the handlers closed, [Close] returns. *)
Lemma last_steps bf sd s n force os : wf s → s_calls s !! n = Some (CWait force os) → forallb (is_closed s) os = true →
  ∃ ls s', (length ls ≤ 2)%nat ∧ forallb (closing_label s n force) ls = true ∧ run bf sd ls s = Some s' ∧
    s_calls s' !! n = Some CReturned.
Proof.
  intros Hwf Hn Hc. set (s1 := set_call (set_shutdown s Broken) n (if force then CReturned else CActive force)).
  assert (Hst : step bf sd (LCall n true) s = Next s1) by (simpl; rewrite Hn; simpl; by rewrite Hc).
  assert (Hwf1 : wf s1) by (apply (step_wf bf sd (LCall n true) s); [done|simpl; by rewrite Hn|done]).
  assert (Hlt : (n < length (s_calls s))%nat) by (by eapply lookup_lt_Some).
  assert (Hn1 : s_calls s1 !! n = Some (if force then CReturned else CActive force))
    by (unfold s1; simpl; by rewrite list_lookup_insert_eq).
  destruct force.
  - exists [LCall n true], s1. split_and!; [simpl; lia|simpl; by rewrite Nat.eqb_refl| |done].
    cbn [run]. by rewrite Hst.
  - destruct (all_closed_inactive s1 Hwf1 eq_refl) as [Ha _].
    exists [LCall n true; LCall n true], (set_call s1 n CReturned). split_and!.
    + simpl. lia.
    + simpl. by rewrite Nat.eqb_refl.
    + cbn [run]. rewrite Hst. cbn [step]. rewrite Hn1. simpl in *. by rewrite Ha.
    + simpl. rewrite list_lookup_insert_eq; [done|]. by rewrite length_insert.
Qed.

Lemma wait_returns bf sd w s n force os : (weight s ≤ w)%nat → wf s → close_inv s → s_calls s !! n = Some (CWait force os) →
  ∃ ls s', (length ls ≤ w + 2)%nat ∧ forallb (closing_label s n force) ls = true ∧ run bf sd ls s = Some s' ∧
    s_calls s' !! n = Some CReturned.
Proof.
  revert s. induction w as [w IH] using lt_wf_ind. intros s Hw Hwf Hci Hn. destruct (forallb (is_closed s) os) eqn:Hc.
  { destruct (last_steps bf sd s n force os Hwf Hn Hc) as (ls & s' & ? & ? & ? & ?). exists ls, s'. split_and!; [lia|done..]. }
  apply forallb_refutes in Hc as (o & Hin & Hcl). pose proof (si_calls s (wf_server s Hwf) n _ o Hn Hin) as [h Ho]%lookup_lt_is_Some.
  unfold is_closed in Hcl. rewrite Ho in Hcl. apply bool_decide_eq_false in Hcl.
  destruct (handler_advances bf sd s n force os o h Hwf Hci Hn Hin Ho Hcl) as (l & s1 & Hl & Hst & Hn1 & Hlater & Hlt).
  destruct (IH (weight s1)) with (s := s1) as (ls & s' & Hlen & Hls & Hrun & Hret); [lia|lia| |by eapply step_close|done|].
  { apply (step_wf bf sd l s); [done| |done]. by eapply closing_orderly. }
  exists (l :: ls), s'. split_and!; [simpl; lia| |cbn [run]; by rewrite Hst|done]. cbn [forallb]. rewrite Hl. simpl.
  rewrite forallb_forall in *. intros l' Hl'. by eapply closing_label_later, Hls.
Qed.

(** ** Properties *)

(** C21: the table of a server's handlers is well-formed after every orderly run
    (registrations of one key do not overlap, and none overlaps a [Close]): an entry is
    a handler of its key that is not closed, a handler that is not closed is in the
    table or about to be entered, the entries under different keys are different
    handlers, and [active] counts the handlers whose [onCompleted] is to come. *)
Theorem registry_well_formed bf sd ls s :
  orderly_run bf sd ls NewRPCServer = true → run bf sd ls NewRPCServer = Some s →
  (∀ k o, s_handlers s !! k = Some o → ∃ h, s_all s !! o = Some h ∧ h_key h = k ∧ h_state h ≠ HClosed) ∧
  (∀ o h, s_all s !! o = Some h → h_state h ≠ HClosed →
    s_handlers s !! h_key h = Some o ∨ ∃ n, s_calls s !! n = Some (RStore o)) ∧
  (∀ k k' o, s_handlers s !! k = Some o → s_handlers s !! k' = Some o → k = k') ∧
  s_active s = sum_list_with counted (s_all s).
Proof.
  intros Hord Hrun. destruct (run_wf bf sd ls _ s NewRPCServer_wf Hord Hrun) as [Hi Ho Hr].
  split_and!; [apply (oi_live s Ho)|apply (oi_open s Ho)| |apply (si_active s Hi)].
  intros k k' o Hk Hk'. destruct (oi_live s Ho k o Hk) as (h & Hlo & <- & _).
  destruct (oi_live s Ho k' o Hk') as (h' & Hlo' & <- & _). congruence.
Qed.

(** Whatever registrations, deregistrations and closes overlap, the server never
    panics: [active] is never negative, although a handler may leave the table by more
    ways than it entered. *)
Theorem registry_never_panics bf sd ls s l :
  run bf sd ls NewRPCServer = Some s →
  (∀ st rpc topic, l = LRegister st rpc topic ∨ l = LDeregister rpc topic → is_Some (key_of sd rpc topic)) →
  step bf sd l s ≠ Panic.
Proof.
  intros Hrun Hk Hp. assert (outcome_inv (step bf sd l s)) as Hok; [|by rewrite Hp in Hok].
  apply registry_step_inv; [|done]. apply (run_server bf sd ls NewRPCServer s); [|done]. apply NewRPCServer_wf.
Qed.

(** C12: of an orderly server (registrations of one key do not overlap, and none overlaps a
    [Close]; see [registration_after_close] for one that does): once [Close] returned,
    graceful or not, every handler ever registered is closed, the table is empty, nothing
    is active, no stream's handler has a stream left that it was to close, and no RPC's
    handler that was closed without force handles a request or will take one.  And a
    [Close] that waits for its handlers returns after boundedly many steps: with force, of
    its own goroutines, of the handlers' [close] and of the streams that they close;
    without, also of the requests under way, which have to end, of the handlers' loops, and
    of registrations that are about to call [run]. *)
Theorem server_close_stops_all bf sd ls s n :
  orderly_run bf sd ls NewRPCServer = true → run bf sd ls NewRPCServer = Some s →
  (s_calls s !! n = Some CReturned →
    s_active s = 0%nat ∧ s_handlers s = ∅ ∧ ∀ o h, s_all s !! o = Some h → h_state h = HClosed ∧
      (h_stream h = true ∨ h_force h = false → h_handling h = 0%nat ∧ (h_stream h = true ∨ h_drained h = true))) ∧
  (∀ force os, s_calls s !! n = Some (CWait force os) →
    ∃ ls' s', (length ls' ≤ weight s + 2)%nat ∧ forallb (closing_label s n force) ls' = true ∧
      run bf sd ls' s = Some s' ∧ s_calls s' !! n = Some CReturned).
Proof.
  intros Hord Hrun. pose proof (run_wf bf sd ls _ s NewRPCServer_wf Hord Hrun) as Hwf.
  pose proof (run_close bf sd ls _ s NewRPCServer_wf New_close Hord Hrun) as Hci. split.
  - intros Hn. destruct (all_closed_inactive s Hwf (oi_begun s (wf_orderly s Hwf) n _ Hn)) as (Ha & Ht & Hall).
    split_and!; [done..|]. intros o h Ho. split; [by eapply Hall|]. apply (ci_settled s Hci o h Ho). right. by eapply Hall.
  - intros force os Hn. by apply (wait_returns bf sd (weight s) s n force os).
Qed.

(** Without force, the [close] of an RPC's handler is stuck while the handler handles a
    request or has not drained, so in particular before its registration called [run]. *)
Theorem graceful_close_waits s o h : s_all s !! o = Some h → h_state h = HClosing → h_stream h = false → h_force h = false →
  h_handling h ≠ 0%nat ∨ h_drained h = false → handler_step s o = Blocked.
Proof.
  intros Ho Hs Hst Hf Hb. unfold handler_step, ready. rewrite Ho, Hs, Hst, Hf. simpl.
  destruct Hb as [Hh%Nat.eqb_neq|Hd]; [by rewrite Hh, andb_false_r|by rewrite Hd].
Qed.

(** What [RegisterHandler] answers when no other call comes in between. *)
Definition register_result (bf : bool) (s : RPCServer) (key : string) (created : bool) : registered :=
  if IsBroken bf s then RServerClosed
  else if decide (is_Some (s_handlers s !! key)) then RAlreadyExists
  else if created then Registered else RCreateFailed.

(** A registration with no other call in between answers that the server is closed,
    else that the key is taken, else that the handler could not be made, and then
    changes nothing; or else it succeeds: the table has the new handler, open and
    running, under its key, the others as they were, and one handler more is active. *)
Theorem register_answers bf sd s n st key created :
  server_inv s → s_calls s !! n = Some (RShutdown st key) →
  ∃ k s', (k ≤ 5)%nat ∧ run bf sd (replicate k (LCall n created)) s = Some s' ∧
    s_calls s' !! n = Some (RReturned (register_result bf s key created)) ∧
    match register_result bf s key created with
    | Registered =>
        s_handlers s' = <[key := length (s_all s)]> (s_handlers s) ∧
        s_all s' = s_all s ++ [MkHandler key st true HOpen false false 0] ∧ s_active s' = S (s_active s)
    | _ => s_handlers s' = s_handlers s ∧ s_all s' = s_all s ∧ s_active s' = s_active s
    end.
Proof.
  intros Hi Hn. pose proof (lookup_lt_Some _ _ _ Hn) as Hlt.
  assert (Hnth : ∀ (l : list call) c, length l = length (s_calls s) → <[n := c]> l !! n = Some c)
    by (intros; apply list_lookup_insert_eq; lia).
  assert (Hone : ∀ s1 s2 c k, s_calls s1 !! n = Some c → call_step bf s1 n c created = Next s2 →
    run bf sd (replicate (S k) (LCall n created)) s1 = run bf sd (replicate k (LCall n created)) s2).
  { intros s1 s2 c k H1 H2. cbn [replicate run step]. by rewrite H1, H2. }
  unfold register_result. destruct (IsBroken bf s) eqn:Hb.
  { exists 1%nat. eexists. rewrite (Hone s _ _ 0%nat Hn eq_refl). rewrite Hb. split_and!; [lia|done|simpl; by apply Hnth|done..]. }
  assert (H1 : call_step bf s n (RShutdown st key) created = Next (set_call s n (RLookup st key))) by (simpl; by rewrite Hb).
  set (s1 := set_call s n (RLookup st key)) in *.
  assert (Hn1 : s_calls s1 !! n = Some (RLookup st key)) by (by apply Hnth).
  destruct (decide (is_Some (s_handlers s !! key))) as [Hk|Hk].
  { exists 2%nat. eexists. rewrite (Hone _ _ _ _ Hn H1), (Hone s1 _ _ 0%nat Hn1 eq_refl). simpl.
    rewrite decide_True by done. split_and!; [lia|done|simpl; apply Hnth; by rewrite length_insert|done..]. }
  set (s2 := set_call s1 n (RCreate st key)).
  assert (H2 : call_step bf s1 n (RLookup st key) created = Next s2) by (simpl; by rewrite decide_False).
  assert (Hn2 : s_calls s2 !! n = Some (RCreate st key)) by (apply Hnth; simpl; by rewrite length_insert).
  destruct created.
  - set (o := length (s_all s)). set (h := new_handler key st).
    assert (Ho : (s_all s ++ [h]) !! o = Some h) by (unfold o; rewrite lookup_app_r by lia; by rewrite Nat.sub_diag).
    exists 5%nat. eexists. rewrite (Hone _ _ _ _ Hn H1), (Hone _ _ _ _ Hn1 H2), (Hone s2 _ _ 2%nat Hn2 eq_refl).
    set (s3 := MkRPCServer _ _ _ _ _).
    set (s4 := MkRPCServer (<[key := o]> (s_handlers s)) (s_all s ++ [h]) (S (s_active s)) (s_shutdown s) (<[n := RRun o]> (s_calls s3))).
    assert (H3 : call_step bf s3 n (RStore o) true = Next s4) by (cbn [call_step]; change (s_all s3) with (s_all s ++ [h]); by rewrite Ho).
    assert (Hn3 : s_calls s3 !! n = Some (RStore o)) by (apply Hnth; simpl; by rewrite !length_insert).
    assert (Hn4 : s_calls s4 !! n = Some (RRun o)) by (apply Hnth; simpl; by rewrite !length_insert).
    rewrite (Hone _ _ _ _ Hn3 H3). erewrite (Hone s4 _ _ 0%nat Hn4); [|cbn [call_step]; change (s_all s4) with (s_all s ++ [h]); rewrite Ho; reflexivity].
    split_and!; [lia|done|simpl; apply Hnth; by rewrite !length_insert|done| |done].
    simpl. unfold o. rewrite insert_app_r_alt by lia. by rewrite Nat.sub_diag.
  - exists 3%nat. eexists. rewrite (Hone _ _ _ _ Hn H1), (Hone _ _ _ _ Hn1 H2), (Hone s2 _ _ 0%nat Hn2 eq_refl).
    split_and!; [lia|done|simpl; apply Hnth; by rewrite !length_insert|done..].
Qed.

(** ** Witnesses *)

Definition registry_sd : ServiceDefinition :=
  MkServiceDefinition "Svc" "SRV_1" (<["A" := MkMethodInfo false false true false]> {["B" := MkMethodInfo true false true false]}).

Definition steps_of (n k : nat) : list label := replicate k (LCall n true).

(** Two handlers, one with a request under way; the other is deregistered while the server
    closes. *)
Definition orderly_close : list label :=
  [LRegister false "A" []; LRegister false "B" []] ++ steps_of 0 5 ++ steps_of 1 5 ++
  [LWork 1 WBegin; LClose false; LDeregister "A" []] ++ steps_of 2 1 ++ steps_of 3 2 ++ steps_of 2 1.

Lemma registry_well_formed_witness : ∃ s, run true registry_sd orderly_close NewRPCServer = Some s ∧
  s_active s = sum_list_with counted (s_all s).
Proof.
  assert (orderly_run true registry_sd orderly_close NewRPCServer = true) as Ho by (vm_compute; reflexivity).
  assert (from_option (λ _, true) false (run true registry_sd orderly_close NewRPCServer) = true) as Hr by (vm_compute; reflexivity).
  destruct (run true registry_sd orderly_close NewRPCServer) as [s|] eqn:Hs; [|discriminate Hr].
  exists s. split; [reflexivity|]. exact (proj2 (proj2 (proj2 (registry_well_formed true registry_sd orderly_close s Ho Hs)))).
Defined.

Lemma registry_never_panics_witness : ∃ s, run true registry_sd orderly_close NewRPCServer = Some s ∧
  step true registry_sd (LHandler 0) s ≠ Panic.
Proof.
  assert (from_option (λ _, true) false (run true registry_sd orderly_close NewRPCServer) = true) as Hr by (vm_compute; reflexivity).
  destruct (run true registry_sd orderly_close NewRPCServer) as [s|] eqn:Hs; [|discriminate Hr].
  exists s. split; [reflexivity|]. apply (registry_never_panics true registry_sd orderly_close s (LHandler 0) Hs).
  intros st rpc topic [Heq|Heq]; discriminate Heq.
Defined.

Lemma server_close_stops_all_witness : ∃ s os, run true registry_sd orderly_close NewRPCServer = Some s ∧
  s_calls s !! 2%nat = Some (CWait false os) ∧
  ∃ ls s', run true registry_sd ls s = Some s' ∧ s_calls s' !! 2%nat = Some CReturned.
Proof.
  assert (orderly_run true registry_sd orderly_close NewRPCServer = true) as Ho by (vm_compute; reflexivity).
  assert (from_option (λ s, match s_calls s !! 2%nat with Some (CWait false _) => true | _ => false end) false
    (run true registry_sd orderly_close NewRPCServer) = true) as Hr by (vm_compute; reflexivity).
  destruct (run true registry_sd orderly_close NewRPCServer) as [s|] eqn:Hs; [|discriminate Hr]. simpl in Hr.
  destruct (s_calls s !! 2%nat) as [[| | | | | | | | | | |[] os| |]|] eqn:Hc; try discriminate Hr.
  exists s, os. split; [reflexivity|]. split; [exact Hc|].
  destruct (server_close_stops_all true registry_sd orderly_close s 2%nat Ho Hs) as [_ Hw].
  destruct (Hw false os Hc) as (ls & s' & _ & _ & Hrun & Hret). exists ls, s'. split; [exact Hrun|exact Hret].
Defined.

Lemma register_answers_witness :
  ∃ k s', run true registry_sd (replicate k (LCall 0 true)) (add_call NewRPCServer (RShutdown false "A")) = Some s' ∧
    s_calls s' !! 0%nat = Some (RReturned Registered).
Proof.
  destruct (register_answers true registry_sd (add_call NewRPCServer (RShutdown false "A")) 0%nat false "A" true)
    as (k & s' & _ & Hr & Hret & _).
  - split; [reflexivity|intros k o Hk; discriminate Hk|]. intros n c o Hn Ho. destruct n as [|[|n]]; [|discriminate Hn..].
    injection Hn as <-. by apply elem_of_nil in Ho.
  - reflexivity.
  - exists k, s'. split; [exact Hr|exact Hret].
Defined.

(** ** Overlapping calls *)

(** Two registrations of one key that both look it up before either is in the table both
    succeed; the table has one of their handlers, and [Close] without force, with that
    one closed, waits for the other, which nothing will close. *)
Theorem overlapping_registrations :
  (λ s, (s_calls s, s_all s, s_active s, s_handlers s !! "A.")) <$>
  run true registry_sd
    ([LRegister false "A" []; LRegister false "A" []] ++ steps_of 0 2 ++ steps_of 1 2 ++ steps_of 0 3 ++ steps_of 1 3 ++
     [LClose false] ++ steps_of 2 2 ++ [LCloseOne 2 1; LWork 1 WDrain; LHandler 1; LHandler 1] ++ steps_of 2 1) NewRPCServer
  = Some ([RReturned Registered; RReturned Registered; CActive false],
          [MkHandler "A." false true HOpen false false 0; MkHandler "A." false true HClosed false true 0], 1%nat, None).
Proof. vm_compute. reflexivity. Qed.

(** A registration that found the server open enters its handler after [Close] took its
    snapshot: [Close] returned, and the handler serves on. *)
Theorem registration_after_close :
  (λ s, (s_calls s, s_all s, s_shutdown s)) <$>
  run true registry_sd
    ([LRegister false "A" []] ++ steps_of 0 2 ++ [LClose false] ++ steps_of 1 4 ++ steps_of 0 3) NewRPCServer
  = Some ([RReturned Registered; CReturned], [MkHandler "A." false true HOpen false false 0], Broken).
Proof. vm_compute. reflexivity. Qed.
