(* ===== verification/Registration.v ===== *)
(** * Registration.v: the handlers of a topic together ([src/pkg/server/registration.go])

    [RegistererSlice], which generated code uses to register and deregister all methods
    of a group.  What a registerer's functions, called through [reflect], do to the
    world [W] is a parameter. *)
From S2P Require Import Prelude Errors.

Section registration.
Context {E P W : Type}.

Record Registerer : Type := MkRegisterer {
  register : P → W → option E * W;
  deregister : P → W → W
}.

Definition NewRegisterer (register : P → W → option E * W) (deregister : P → W → W) : Registerer :=
  MkRegisterer register deregister.

Definition Deregister (rs : list Registerer) (params : P) (w : W) : W :=
  foldl (λ w r, deregister r params w) w rs.

(** The loop of [Register], with [rs[:i]] in [earlier]. *)
Fixpoint register_loop (earlier rs : list Registerer) (params : P) (w : W) : option E * W :=
  match rs with
  | [] => (None, w)
  | r :: rs =>
      match register r params w with
      | (Some e, w) => (Some e, Deregister earlier params w)
      | (None, w) => register_loop (earlier ++ [r]) rs params w
      end
  end.

Definition Register (rs : list Registerer) (params : P) (w : W) : option E * W := register_loop [] rs params w.

(** What [RegisterHandler] and [DeregisterHandler] promise: [holds] are the keys of a
    server's handlers. *)
Record registers (holds : W → gset string) (key : Registerer → string) (params : P) (r : Registerer) : Prop := {
  rg_ok w w' : register r params w = (None, w') → (key r ∉ holds w) ∧ holds w' = {[key r]} ∪ holds w;
  rg_err w e w' : register r params w = (Some e, w') → holds w' = holds w;
  rg_deregister w : holds (deregister r params w) = holds w ∖ {[key r]}
}.

Context (holds : W → gset string) (key : Registerer → string) (params : P).

Lemma deregister_holds rs w : Forall (registers holds key params) rs →
  holds (Deregister rs params w) = holds w ∖ list_to_set (key <$> rs).
Proof.
  revert w. induction rs as [|r rs IH]; intros w Hrs; simpl; [set_solver|].
  apply Forall_cons in Hrs as [Hr Hrs]. unfold Deregister in *. simpl. rewrite IH by done.
  rewrite (rg_deregister _ _ _ _ Hr). set_solver.
Qed.

Lemma register_loop_holds earlier rs w0 w : Forall (registers holds key params) (earlier ++ rs) →
  list_to_set (key <$> earlier) ## holds w0 → holds w = list_to_set (key <$> earlier) ∪ holds w0 →
  match register_loop earlier rs params w with
  | (None, w') => list_to_set (key <$> rs) ## holds w0 ∧ holds w' = list_to_set (key <$> earlier ++ rs) ∪ holds w0
  | (Some e, w') => holds w' = holds w0
  end.
Proof.
  revert earlier w. induction rs as [|r rs IH]; intros earlier w Hall Hd Hw; cbn [register_loop].
  { rewrite app_nil_r. split; [apply disjoint_empty_l|done]. }
  assert (registers holds key params r) as Hr by (by apply Forall_app in Hall as [_ [? _]%Forall_cons]).
  destruct (register r params w) as [[e|] w1] eqn:Hreg.
  - rewrite deregister_holds by (by apply Forall_app in Hall as [? _]). rewrite (rg_err _ _ _ _ Hr _ _ _ Hreg), Hw. clear -Hd. set_solver.
  - destruct (rg_ok _ _ _ _ Hr _ _ Hreg) as [Hfresh Hw1].
    specialize (IH (earlier ++ [r]) w1). rewrite <- (assoc_L (++)) in IH.
    assert (Hkeys : list_to_set (C := gset string) (key <$> earlier ++ [r]) = {[key r]} ∪ list_to_set (key <$> earlier))
      by (rewrite fmap_app, list_to_set_app_L; set_solver).
    rewrite Hkeys in IH. revert Hd Hw IH. generalize (list_to_set (C := gset string) (key <$> earlier)). intros X Hd Hw IH.
    assert ({[key r]} ∪ X ## holds w0) as Hd1 by (clear -Hd Hfresh Hw; set_solver).
    assert (holds w1 = {[key r]} ∪ X ∪ holds w0) as Hw2 by (rewrite Hw1, Hw; clear; set_solver).
    specialize (IH Hall Hd1 Hw2). destruct (register_loop _ _ _ _) as [[e|] w']; [exact IH|].
    destruct IH as [Hd2 Hw']. split; [|exact Hw']. rewrite fmap_cons, list_to_set_cons. clear -Hd2 Hd1. set_solver.
Qed.

(** Registering a group is all or nothing: if every handler is taken all their keys
    are held, none of which was before, and if one is refused the keys held are those
    held before the call. *)
Theorem register_all_or_nothing rs w :
  Forall (registers holds key params) rs →
  match Register rs params w with
  | (None, w') => list_to_set (key <$> rs) ## holds w ∧ holds w' = list_to_set (key <$> rs) ∪ holds w
  | (Some e, w') => holds w' = holds w
  end.
Proof. intros Hrs. apply (register_loop_holds [] rs w w); [done|apply disjoint_empty_l|simpl; by rewrite (left_id_L ∅ (∪))]. Qed.
End registration.

(** A server as the set of its keys. *)
Definition set_registerer (k : string) : Registerer (E := string) (P := ()) (W := gset string) :=
  NewRegisterer (λ _ w, if decide (k ∈ w) then (Some "handler already exists", w) else (None, {[k]} ∪ w))
    (λ _ w, w ∖ {[k]}).

Lemma register_all_or_nothing_witness :
  Register (set_registerer <$> ["a"; "b"; "c"]) () {["c"]} = (Some "handler already exists", {["c"]}) ∧
  (Register (set_registerer <$> ["a"; "b"]) () {["c"]}).2 = {["a"; "b"; "c"]} ∧
  match Register [set_registerer "a"] () ∅ with (None, w) => w = {["a"]} ∪ ∅ ∪ ∅ | (Some _, w) => w = ∅ end.
Proof.
  split; [vm_compute; reflexivity|]. split; [vm_compute; reflexivity|].
  assert (Forall (registers (λ w, w) (λ _, "a") ()) [set_registerer "a"]) as Hr.
  { constructor; [|constructor]. split; simpl; [|..]; intros *; [destruct (decide _) as [|Hn]|destruct (decide _)|]; intros; simplify_eq.
    - split; [done|reflexivity].
    - done.
    - done. }
  pose proof (register_all_or_nothing (λ w, w) (λ _, "a") () [set_registerer "a"] ∅ Hr) as H.
  destruct (Register _ _ _) as [[e|] w]; [exact H|]. destruct H as [_ H]. exact H.
Defined.
