(* ===== verification/Protocol.v ===== *)
(** * Protocol.v: a single rpc between a client and its servers

    The client's machine ([ClientRPC]) and the servers' ([ServerRPC]) put together
    through the messages they publish: a request, bids, the grant, responses.  What a
    bus may do to them (lose, delay, reorder) is left open: a server decides on claim
    responses among those the client published, and the client takes what it takes. *)
From S2P Require Import Prelude Errors Bus Info Metadata Interceptors Float32 Options Messages Selection ClientRPC ServerRPC.

Section protocol.
Context `{GrpcApi} `{!StatusApi} `{!Codec} {T : carried} {W : Type}.

(** A server's part in one rpc: its handler, what it met, and the world it ran in. *)
Record participant : Type := MkParticipant {
  pt_server : server;
  pt_handler : rpcHandlerImpl (W := W);
  pt_now : Z;
  pt_pubErr : option error;
  pt_decided : decision;
  pt_now' : Z;
  pt_world : W
}.

Definition acts_of (ir : Request) (p : participant) : list act :=
  (handleRequest (pt_server p) (pt_handler p) ir (pt_now p) (pt_pubErr p) (pt_decided p)
     (pt_now' p) (pt_world p)).2.

(** The server decides on a claim response the client published, or on none. *)
Definition decides_from (grants : list ClaimResponse) (p : participant) : Prop :=
  match pt_decided p with Decided claim => claim ∈ grants | TimedOut => True end.

(** The channel a caller listens on for a kind of answer. *)
Definition listens_on (c : RPCClient T) (pub : publication) (shared : string → string → Channel) : Channel :=
  match pb_reply pub with
  | Some reply => reply
  | None => shared (sd_Name (c_sd c)) (sd_ID (c_sd c))
  end.

(** What a call returns when the server's answer to its request is what arrives. *)
Definition outcome_of (k : call T) (s : server) (ir : Request) (now : Z) (response : option message)
    (err : option error) : result error message :=
  finish k (response_of s ir now response err).

(** *** Lemmas *)

Lemma newRPC_prepare_request (c : RPCClient T) i cx now0 now requestID ty request opts k pub :
  newRPC_prepare c i cx now0 now requestID ty request opts = Ok (k, pub) →
  SerializePayload request = Ok (rq_RawRequest (pb_request pub)) ∧
  rq_RequestId (pb_request pub) = requestID ∧ rq_ClientId (pb_request pub) = sd_ID (c_sd c) ∧
  rq_NoClaim (pb_request pub) = ri_Queue i ∧ rq_PerRequestReply (pb_request pub) = c_inbox c ∧
  k_info k = i ∧ k_requestID k = requestID ∧ k_ResponseType k = ty ∧
  k_opts k = getRequestOpts (ctx_Deadline cx) now0 i (c_Opts c) opts ∧
  pb_reply pub = (if c_inbox c then Some (GetResponseChannel (sd_Name (c_sd c))
     (PerRequestClientID (sd_ID (c_sd c)) requestID)) else None).
Proof.
  unfold newRPC_prepare. destruct (ri_Queue i && _); [done|].
  destruct (SerializePayload request); [|done]. by intros [= <- <-].
Qed.

(** The caller listens where the server answers. *)
Lemma answer_reaches (c : RPCClient T) i cx now0 now requestID ty request opts k pub name shared :
  newRPC_prepare c i cx now0 now requestID ty request opts = Ok (k, pub) →
  name = sd_Name (c_sd c) →
  answerChannel name (pb_request pub) shared = listens_on c pub shared.
Proof.
  intros Hp ->. apply newRPC_prepare_request in Hp as (_&Hr&Hc&_&Hrep&_&_&_&_&Hpb).
  unfold answerChannel, listens_on. rewrite Hpb, Hrep, Hr, Hc. by destruct (c_inbox c).
Qed.

Lemma finish_response (k : call T) s ir now m b :
  Marshal m = Ok b → FullName m = k_ResponseType k →
  finish k (response_of s ir now (Some m) None) = Ok m.
Proof.
  intros Hm Hty. unfold finish, response_of, SerializePayload, DeserializePayload. rewrite Hm. simpl.
  by rewrite <- Hty, (Unmarshal_Marshal m b Hm).
Qed.
End protocol.

(** ** Properties *)

(** At most one server runs the handler of a claimed rpc: of any servers that
    received the request, whatever they and the client met and whatever was lost or
    late, two that ran the handler bear the same ID, and that server had bid. *)
Theorem one_server_handles `{GrpcApi} `{!StatusApi} `{!Codec} {T : carried} {W} (itoa : Z → string)
    (k : call T) (now : Z) (pubErr : option error) (evs : list (Z * rpc_event * option error))
    (pc : ClientRPC.pc) (grants : list ClaimResponse) (ir : Request) (p1 p2 : participant (W := W))
    (Hfunc : SelectionFunc (ro_SelectionOpts (k_opts k)) = None)
    (Hrun : rpc_run itoa k evs (after_publish k now pubErr) = (pc, grants))
    (Hclaim : ∀ p, p = p1 ∨ p = p2 → ri_RequireClaim (h_i (pt_handler p)) = true ∧
       ri_Queue (h_i (pt_handler p)) = false ∧ decides_from grants p) :
  handles (acts_of ir p1) = true → handles (acts_of ir p2) = true →
  sv_ID (pt_server p1) = sv_ID (pt_server p2) ∧ sv_ID (pt_server p1) ∈ bidders evs.
Proof.
  assert (Hgranted : ∀ p, p = p1 ∨ p = p2 → handles (acts_of ir p) = true →
    ∃ claim, claim ∈ grants ∧ cr_ServerId claim = sv_ID (pt_server p)).
  { intros p Hp Hh. destruct (Hclaim p Hp) as (Hc & Hq & Hd).
    assert (Hg : ∃ claim, pt_decided p = Decided claim ∧ cr_ServerId claim = sv_ID (pt_server p)).
    { apply handles_needs_grant in Hh as [[Hr|[Hr _]]|Hg]; [congruence..|done]. }
    destruct Hg as (claim & Hdec & Hid). exists claim. unfold decides_from in Hd. by rewrite Hdec in Hd. }
  assert (Hone : grants = [] ∨ ∃ server, grants = [MkClaimResponse (k_requestID k) server] ∧
    server ∈ [] ++ bidders evs).
  { eapply (rpc_run_grants itoa k evs [] _ pc); [done| |done].
    destruct pubErr; simpl; [done|apply first_wait_known]. }
  intros (c1 & Hc1 & <-)%Hgranted (c2 & Hc2 & <-)%Hgranted; auto.
  destruct Hone as [->|(server & -> & Hin)]; [by apply elem_of_nil in Hc1|].
  apply list_elem_of_singleton in Hc1 as ->, Hc2 as ->. done.
Qed.

(** C3: an rpc that meets no obstacle works: from the request the client publishes, a
    server whose bid is taken at once handles it, and its answer, published where the
    caller listens, is what the call returns.  Between them go exactly a bid, a grant
    and a response, each under the request's ID, the first two naming the server. *)
Theorem rpc_end_to_end `{GrpcApi} `{!StatusApi} `{!Codec} {T : carried} {W} (itoa : Z → string)
    (c : RPCClient T) (i : RequestInfo) (cx : ctx) (now0 now t1 t2 t3 t4 t5 : Z)
    (requestID responseType : string) (request : message) (opts : list (RequestOption T))
    (k : call T) (pub : publication) (s : server) (h : rpcHandlerImpl (W := W)) (w w' : W)
    (v : vars) (m : message) (b : bytes)
    (Hprep : newRPC_prepare c i cx now0 now requestID responseType request opts = Ok (k, pub))
    (Hname : sv_Name s = sd_Name (c_sd c)) (Hi : h_i h = i)
    (Hreq : h_RequestType h = FullName request)
    (Hclaim : ri_RequireClaim i = true) (Hqueue : ri_Queue i = false)
    (Hdeclines : f32_lt (affinity_of h (pb_request pub) request) f32_zero = false)
    (Hacc : acceptable (ro_SelectionOpts (k_opts k)) (affinity_of h (pb_request pub) request) = true)
    (Himm : immediate (ro_SelectionOpts (k_opts k)) (affinity_of h (pb_request pub) request) = true)
    (Hsvc : h_handler h (hctx_of (pb_request pub)) request w = (w', (Some m, None)))
    (Hm : Marshal m = Ok b) (Htype : FullName m = responseType) :
  let bid := MkClaimRequest requestID (sv_ID s) (affinity_of h (pb_request pub) request) in
  let claim := MkClaimResponse requestID (sv_ID s) in
  let res := response_of s (pb_request pub) t3 (Some m) None in
  handleRequest s h (pb_request pub) t1 None (Decided claim) t3 w
    = (w', [ABid (listens_on c pub GetClaimRequestChannel) bid; AClaim ClaimGranted;
            AHandle request; ARespond (listens_on c pub GetResponseChannel) res]) ∧
  rpc_step itoa k t2 (Sel (EvClaim bid)) None (PSelect v) = (PWait false, [claim]) ∧
  rpc_step itoa k t4 (Sel (EvResponse res)) None (PWait false) = (PReturned (Ok m), []) ∧
  rs_RequestId res = requestID.
Proof.
  pose proof (newRPC_prepare_request _ _ _ _ _ _ _ _ _ _ _ Hprep)
    as (Hraw & Hid & _ & _ & _ & _ & Hkid & Hkty & _ & _).
  pose proof (answer_reaches c i cx now0 now requestID responseType request opts k pub (sv_Name s)
    GetClaimRequestChannel Hprep Hname) as Hch1.
  pose proof (answer_reaches c i cx now0 now requestID responseType request opts k pub (sv_Name s)
    GetResponseChannel Hprep Hname) as Hch2.
  cbn zeta. split_and!.
  - unfold handleRequest, handle, DeserializePayload. rewrite Hreq.
    rewrite (Unmarshal_Marshal request _ Hraw), Hi, Hclaim, Hqueue. simpl. rewrite Hdeclines.
    unfold decide_claim. simpl.
    rewrite (bool_decide_eq_true_2 (sv_ID s = sv_ID s)) by done. unfold call_handler. rewrite Hsvc.
    simpl. unfold respond, response_of. by rewrite Hch1, Hch2, Hid.
  - simpl. unfold on_claim. simpl. rewrite Hacc, Himm. simpl. unfold grant_then_wait. simpl. by rewrite Hkid.
  - cbn [rpc_step]. rewrite (finish_response k s (pb_request pub) t3 m b Hm); [done|congruence].
  - unfold response_of. simpl. by destruct (SerializePayload m).
Qed.

(** C36: an error a handler returns reaches the caller with its code and its text: wrapped
    or not, a psrpc error, a gRPC status or any other; unless its text is empty or its
    code the client's own mark. *)
Theorem error_reaches_caller `{GrpcApi} `{!StatusApi} `{!Codec} {T : carried} (k : call T)
    (s : server) (ir : Request) (now : Z) (response : option message) (err : error)
    (Htext : error_text err ≠ "") (Hcode : caller_code err ≠ unansweredCode) :
  ∃ err', outcome_of k s ir now response (Some err) = Err err' ∧
    Error err' = error_text err ∧ GetErrorCode (Some err') = (caller_code err, true).
Proof.
  destruct (response_of_error s ir now response err) as [Ht Hc]. unfold outcome_of.
  set (res := response_of s ir now response (Some err)) in *. unfold finish.
  rewrite bool_decide_eq_false_2 by (intros Heq; rewrite Heq in Hc; done).
  rewrite Ht, bool_decide_eq_false_2 by done. simpl. eexists. split_and!; [done|done|].
  unfold GetErrorCode, NewErrorFromResponse. simpl. by rewrite Hc.
Qed.

(** An error without a text is lost: the caller gets an empty response and no error,
    whatever the code. *)
Theorem empty_error_is_success `{GrpcApi} `{!StatusApi} `{!Codec} {T : carried} (k : call T)
    (s : server) (ir : Request) (now : Z) (response : option message) (code : ErrorCode) (m : message)
    (Hcode : code ≠ unansweredCode) (Hempty : Unmarshal (k_ResponseType k) [] = Ok m) :
  outcome_of k s ir now response (Some (NewErrorf code "")) = Ok m.
Proof.
  unfold outcome_of, finish, response_of. simpl. rewrite bool_decide_eq_false_2 by done. simpl.
  unfold DeserializePayload. by rewrite Hempty.
Qed.

Section protocol_witnesses.
#[local] Existing Instances grpc_numbers example_status.
#[local] Existing Instance Bus.Example.codec.

Definition example_server (id : string) : server := MkServer "svc" id.

(** A handler that answers every request with an empty message. *)
Definition example_handler : rpcHandlerImpl (W := unit) :=
  MkHandler example_rpc "M" (λ _ _ w, (w, (Some (("T", []) : message), None))) None.

Definition example_ir : Request := MkRequest "REQ_1" "CLI_1" 0 Second false None [] false true.

Definition example_grant : ClaimResponse := MkClaimResponse "REQ_1" "SRV_a".

Definition example_participant (id : string) : participant (W := unit) :=
  MkParticipant (example_server id) example_handler 1 None (Decided example_grant) 2 tt.

Lemma one_server_handles_witness :
  handles (acts_of example_ir (example_participant "SRV_a")) = true ∧
  handles (acts_of example_ir (example_participant "SRV_b")) = false ∧
  "SRV_a" ∈ bidders [(1, Sel (EvClaim (MkClaimRequest "REQ_1" "SRV_a" f32_one)), (None : option error))].
Proof.
  split; [reflexivity|]. split; [reflexivity|].
  refine (proj2 (one_server_handles (λ _, "") example_call 0 None
    [(1, Sel (EvClaim (MkClaimRequest "REQ_1" "SRV_a" f32_one)), None)] (PWait false) [example_grant]
    example_ir (example_participant "SRV_a") (example_participant "SRV_a") _ _ _ _ _));
    [reflexivity|reflexivity| |reflexivity|reflexivity].
  intros p Hp. assert (p = example_participant "SRV_a") as -> by (destruct Hp; assumption).
  split; [reflexivity|]. split; [reflexivity|]. apply list_elem_of_singleton. reflexivity.
Defined.

Lemma rpc_end_to_end_witness : ∃ k pub,
  newRPC_prepare example_client example_rpc (MkCallerCtx None None) 0 0 "REQ_1" "T"
    (("M", []) : message) [] = Ok (k, pub) ∧
  rpc_step (λ _, "") k 5
    (Sel (EvResponse (response_of (example_server "SRV_a") (pb_request pub) 4 (Some ("T", [])) None)))
    None (PWait false) = (PReturned (Ok ("T", [])), []).
Proof.
  eexists _, _. split; [reflexivity|].
  refine (proj1 (proj2 (proj2 (rpc_end_to_end (λ _, "") example_client example_rpc (MkCallerCtx None None)
    0 0 1 2 4 5 6 "REQ_1" "T" (("M", []) : message) [] _ _ (example_server "SRV_a") example_handler tt tt
    (init zero_SelectionOpts 0) ("T", []) [] _ _ _ _ _ _ _ _ _ _ _ _)))); reflexivity.
Defined.

Lemma error_reaches_caller_witness :
  let err := EWrap "outer: no such room" (NewErrorf NotFound "no such room") in
  error_text err = "no such room" ∧
  ∃ err', outcome_of example_call (example_server "SRV_a") example_ir 3 None (Some err) = Err err' ∧
    Error err' = error_text err ∧ GetErrorCode (Some err') = (NotFound, true).
Proof.
  intros err. split; [reflexivity|].
  apply (error_reaches_caller example_call (example_server "SRV_a") example_ir 3 None err); discriminate.
Defined.

Lemma empty_error_is_success_witness :
  outcome_of example_call (example_server "SRV_a") example_ir 3 None
    (Some (NewErrorf NotFound "")) = Ok (("T", []) : message).
Proof.
  exact (empty_error_is_success example_call (example_server "SRV_a") example_ir 3 None NotFound
    (("T", []) : message) ltac:(discriminate) eq_refl).
Defined.
End protocol_witnesses.
