(* ===== verification/StreamCore.v ===== *)
(** * StreamCore.v: one end of a stream ([src/internal/stream/stream.go])

    [streamBase] and [stream], without interceptors: the goroutines that send, handle
    what the peer sent and close, on the state they share.  A step is what one
    goroutine does between two points where another may come in: a section under the
    lock, a channel operation, a call of the adapter.  A step that would panic (a send
    on a closed channel, a second [close], a negative wait group) is [Panic].

    [HandleStream] is called by one goroutine at a time (the run loop of a server's
    handler, [runClientStream] of a client): one call is under way at most. *)
From S2P Require Import Prelude Errors Bus Info Float32 Interceptors Options Messages.

Section stream.
Context `{GrpcApi} `{!StatusApi} `{!Codec}.

(** The channels of [acks] are named by the request they are for; one is closed once
    the request is in [b_acked]. *)
Record base : Type := MkBase {
  b_acks : gset string;
  b_acked : gset string;
  b_closed : bool;
  b_err : option error;
  b_pending : nat;
  b_hijacked : bool;
  b_recvChan : chan message;
  b_canceled : bool;
  b_adapterClosed : bool
}.

(** A goroutine in [Send]: before [acks] has its channel, publishing (both with what it is
    to publish under its request ID), waiting for the acknowledgement, in the deferred
    functions, or returned. *)
Inductive sender : Type :=
| SRegister (id : string) (raw : bytes)
| SPublish (id : string) (raw : bytes)
| SWait (id : string)
| SDeferred (id : string) (err : option error)
| SReturned (id : string) (err : option error).

(** A goroutine in [Close], from [setClosed] on. *)
Inductive closer : Type :=
| CStart (cause : option error)
| CSend
| CWaitPending
| CAdapter
| CCancel
| CRecvChan
| CReturned.

(** The call of [HandleStream] under way. *)
Inductive handling : Type :=
| HRecv (m : message)
| HAck
| HDeferred
| HAdapter
| HCancel
| HRecvChan.

Record st : Type := MkSt {
  st_base : base;
  st_senders : list sender;
  st_closers : list closer;
  st_handling : option handling;
  st_responseType : string
}.

(** Making a stream: [NewStream], with the acknowledgements expected already. *)
Definition NewStream (acks : gset string) (size : nat) (recvType : string) : st :=
  MkSt (MkBase acks ∅ false None 0 false (make_chan size) false false) [] [] None recvType.

(** ** Sections under the lock *)

(** [addPending]; a nil result is [None]. *)
Definition addPending (b : base) : base * option error :=
  (if b_closed b then b
   else MkBase (b_acks b) (b_acked b) (b_closed b) (b_err b) (S (b_pending b)) (b_hijacked b)
          (b_recvChan b) (b_canceled b) (b_adapterClosed b),
   b_err b).

(** [setClosed]: [None] when the stream was not closed yet, else what it returns. *)
Definition setClosed (b : base) (cause : error) : base * option (option error) :=
  if b_closed b then (b, Some (b_err b))
  else (MkBase (b_acks b) (b_acked b) true (Some cause) (b_pending b) (b_hijacked b)
          (b_recvChan b) (b_canceled b) (b_adapterClosed b), None).

(** [s.pending.Done()]: [None] is the panic of a negative counter. *)
Definition pending_Done (b : base) : option base :=
  match b_pending b with
  | O => None
  | S n => Some (MkBase (b_acks b) (b_acked b) (b_closed b) (b_err b) n (b_hijacked b)
                   (b_recvChan b) (b_canceled b) (b_adapterClosed b))
  end.

Definition set_acks (b : base) (acks acked : gset string) : base :=
  MkBase acks acked (b_closed b) (b_err b) (b_pending b) (b_hijacked b)
    (b_recvChan b) (b_canceled b) (b_adapterClosed b).

Definition set_recvChan (b : base) (c : chan message) : base :=
  MkBase (b_acks b) (b_acked b) (b_closed b) (b_err b) (b_pending b) (b_hijacked b)
    c (b_canceled b) (b_adapterClosed b).

(** [s.cancel()]. *)
Definition cancel (b : base) : base :=
  MkBase (b_acks b) (b_acked b) (b_closed b) (b_err b) (b_pending b) (b_hijacked b)
    (b_recvChan b) true (b_adapterClosed b).

(** [s.adapter.Close]: the client's closes a channel, so that a second call panics. *)
Definition adapter_Close (b : base) : option base :=
  if b_adapterClosed b then None
  else Some (MkBase (b_acks b) (b_acked b) (b_closed b) (b_err b) (b_pending b) (b_hijacked b)
               (b_recvChan b) (b_canceled b) true).

(** [close(s.recvChan)]. *)
Definition close_recvChan (b : base) : option base := set_recvChan b <$> chan_close (b_recvChan b).

Definition Hijack (b : base) : base :=
  MkBase (b_acks b) (b_acked b) (b_closed b) (b_err b) (b_pending b) true
    (b_recvChan b) (b_canceled b) (b_adapterClosed b).

Definition Hijacked (b : base) : bool := b_hijacked b.
Definition Err (b : base) : option error := b_err b.

(** [streamBase.Recv]: [None] is the panic of a send on a closed channel. *)
Definition Recv (b : base) (m : message) : option (base * option error) :=
  match chan_send (b_recvChan b) m with
  | Sent c => Some (set_recvChan b c, None)
  | SendBlocks => Some (b, Some ErrSlowConsumer)
  | SendPanics => None
  end.

(** The message [Close] sends for a cause. *)
Definition close_message (cause : error) : Stream_body :=
  match as_Error cause with
  | Some e => Stream_Close (Error (view_Error e)) (view_Code e)
  | None => Stream_Close (Error cause) Unknown
  end.

(** ** Steps *)

(** What a goroutine does next.  [LSend], with the message to send, and [LClose] start one,
    the others name one by its place; [adapterErr] is what the adapter answers.  [LReceive] is the user taking a message. *)
Inductive label : Type :=
| LSend (id : string) (m : message)
| LSender (n : nat) (adapterErr : option error)
| LAckTaken (n : nat)
| LCtxDone (n : nat)
| LClose (cause : option error)
| LCloser (n : nat)
| LHandle (msg : StreamMsg)
| LHandling (adapterErr : option error)
| LReceive
| LParentDone
| LHijack.

Inductive outcome : Type :=
| Next (s : st)
| Blocked
| Panic.

Definition with_base (s : st) (b : base) : st :=
  MkSt b (st_senders s) (st_closers s) (st_handling s) (st_responseType s).
Definition with_sender (s : st) (n : nat) (t : sender) : st :=
  MkSt (st_base s) (<[n := t]> (st_senders s)) (st_closers s) (st_handling s) (st_responseType s).
Definition with_closer (s : st) (n : nat) (t : closer) : st :=
  MkSt (st_base s) (st_senders s) (<[n := t]> (st_closers s)) (st_handling s) (st_responseType s).
Definition add_sender (s : st) (t : sender) : st :=
  MkSt (st_base s) (st_senders s ++ [t]) (st_closers s) (st_handling s) (st_responseType s).
Definition add_closer (s : st) (t : closer) : st :=
  MkSt (st_base s) (st_senders s) (st_closers s ++ [t]) (st_handling s) (st_responseType s).
Definition with_handling (s : st) (h : option handling) : st :=
  MkSt (st_base s) (st_senders s) (st_closers s) h (st_responseType s).

Definition or_panic (o : option base) (k : base → st) : outcome :=
  match o with Some b => Next (k b) | None => Panic end.

(** [Send] up to the registration.  IDs are fresh: never seen before. *)
Definition start_send (s : st) (id : string) (m : message) : outcome :=
  let '(b, err) := addPending (st_base s) in
  let s := with_base s b in
  match err with
  | Some e => Next (add_sender s (SReturned id (Some e)))
  | None =>
      match SerializePayload m with
      | Prelude.Err e => Next (add_sender s (SDeferred id (Some (newError MalformedRequest e))))
      | Ok raw => Next (add_sender s (SRegister id raw))
      end
  end.

Definition step_sender (s : st) (n : nat) (t : sender) (adapterErr : option error) : outcome :=
  let b := st_base s in
  match t with
  | SRegister id raw => Next (with_sender (with_base s (set_acks b ({[id]} ∪ b_acks b) (b_acked b))) n (SPublish id raw))
  | SPublish id raw =>
      Next (with_sender s n (match adapterErr with Some e => SDeferred id (Some e) | None => SWait id end))
  | SDeferred id err =>
      let b := set_acks b (b_acks b ∖ {[id]}) (b_acked b) in
      or_panic (pending_Done b) (λ b, with_sender (with_base s b) n (SReturned id err))
  | SWait _ | SReturned _ _ => Blocked
  end.

Definition step_closer (s : st) (n : nat) (t : closer) : outcome :=
  let b := st_base s in
  match t with
  | CStart cause =>
      match setClosed b (default ErrStreamClosed cause) with
      | (b, Some _) => Next (with_closer s n CReturned)
      | (b, None) => Next (with_closer (with_base s b) n CSend)
      end
  | CSend => Next (with_closer s n CWaitPending)
  | CWaitPending => if (b_pending b =? 0)%nat then Next (with_closer s n CAdapter) else Blocked
  | CAdapter => or_panic (adapter_Close b) (λ b, with_closer (with_base s b) n CCancel)
  | CCancel => Next (with_closer (with_base s (cancel b)) n CRecvChan)
  | CRecvChan => or_panic (close_recvChan b) (λ b, with_closer (with_base s b) n CReturned)
  | CReturned => Blocked
  end.

(** [HandleStream] up to the first point where another goroutine may come in. *)
Definition start_handle (s : st) (msg : StreamMsg) : outcome :=
  let b := st_base s in
  match sm_Body msg with
  | Stream_Ack =>
      let ok := bool_decide (sm_RequestId msg ∈ b_acks b) in
      let b := set_acks b (b_acks b ∖ {[sm_RequestId msg]}) (b_acked b) in
      if ok then
        if bool_decide (sm_RequestId msg ∈ b_acked b) then Panic
        else Next (with_base s (set_acks b (b_acks b) ({[sm_RequestId msg]} ∪ b_acked b)))
      else Next (with_base s b)
  | Stream_Message raw =>
      match addPending b with
      | (b, Some e) => Next (with_base s b)
      | (b, None) =>
          match DeserializePayload (st_responseType s) raw with
          | Prelude.Err e =>
              Next (with_handling (add_closer (with_base s b) (CStart (Some (newError MalformedRequest e))))
                      (Some HDeferred))
          | Ok m => Next (with_handling (with_base s b) (Some (HRecv m)))
          end
      end
  | Stream_Close error code =>
      match setClosed b (NewErrorFromResponse code error []) with
      | (b, Some _) => Next (with_base s b)
      | (b, None) => Next (with_handling (with_base s b) (Some HAdapter))
      end
  | Stream_Open _ _ => Next s
  end.

Definition step_handling (s : st) (h : handling) : outcome :=
  let b := st_base s in
  match h with
  | HRecv m =>
      match Recv b m with
      | None => Panic
      | Some (b, None) => Next (with_handling (with_base s b) (Some HAck))
      | Some (b, Some e) => Next (with_handling (with_base s b) (Some HDeferred))
      end
  | HAck => Next (with_handling s (Some HDeferred))
  | HDeferred => or_panic (pending_Done b) (λ b, with_handling (with_base s b) None)
  | HAdapter => or_panic (adapter_Close b) (λ b, with_handling (with_base s b) (Some HCancel))
  | HCancel => Next (with_handling (with_base s (cancel b)) (Some HRecvChan))
  | HRecvChan => or_panic (close_recvChan b) (λ b, with_handling (with_base s b) None)
  end.

(** The error [Send] returns when its context is done. *)
Definition ctx_done_error (b : base) : option error :=
  if b_canceled b then b_err b else Some ErrRequestTimedOut.

Definition step (l : label) (s : st) : outcome :=
  match l with
  | LSend id m => start_send s id m
  | LSender n adapterErr =>
      match st_senders s !! n with Some t => step_sender s n t adapterErr | None => Blocked end
  | LAckTaken n =>
      match st_senders s !! n with
      | Some (SWait id) =>
          if bool_decide (id ∈ b_acked (st_base s)) then Next (with_sender s n (SDeferred id None))
          else Blocked
      | _ => Blocked
      end
  | LCtxDone n =>
      match st_senders s !! n with
      | Some (SWait id) => Next (with_sender s n (SDeferred id (ctx_done_error (st_base s))))
      | _ => Blocked
      end
  | LClose cause => Next (add_closer s (CStart cause))
  | LCloser n =>
      match st_closers s !! n with Some t => step_closer s n t | None => Blocked end
  | LHandle msg => match st_handling s with None => start_handle s msg | Some _ => Blocked end
  | LHandling _ => match st_handling s with Some h => step_handling s h | None => Blocked end
  | LReceive =>
      match chan_recv (b_recvChan (st_base s)) with
      | Received _ c => Next (with_base s (set_recvChan (st_base s) c))
      | _ => Blocked
      end
  | LParentDone => Next (with_base s (cancel (st_base s)))
  | LHijack => Next (with_base s (Hijack (st_base s)))
  end.
End stream.

(** ** Invariant *)

Section stream_invariant.
Context `{GrpcApi} `{!StatusApi} `{!Codec}.
Implicit Types (s : st) (b : base) (init : gset string).

(** What the wait group counts. *)
Definition sender_pending (t : sender) : nat := match t with SReturned _ _ => 0 | _ => 1 end.
Definition handling_pending (h : option handling) : nat :=
  match h with Some (HRecv _ | HAck | HDeferred) => 1 | _ => 0 end.

(** The goroutine that ends the stream, after its [setClosed]. *)
Definition closer_active (t : closer) : nat := match t with CStart _ | CReturned => 0 | _ => 1 end.
Definition handling_active (h : option handling) : nat :=
  match h with Some (HAdapter | HCancel | HRecvChan) => 1 | _ => 0 end.

Definition recv_closed b : bool := chan_closed (b_recvChan b).

Definition closer_ok b (t : closer) : Prop :=
  match t with
  | CStart _ | CReturned => True
  | CSend | CWaitPending => b_adapterClosed b = false
  | CAdapter => b_adapterClosed b = false ∧ b_pending b = 0%nat
  | CCancel | CRecvChan => b_adapterClosed b = true ∧ b_pending b = 0%nat
  end.

Definition handling_ok b (h : option handling) : Prop :=
  match h with
  | Some (HRecv _ | HAck) => recv_closed b = false
  | Some HAdapter => b_adapterClosed b = false
  | Some (HCancel | HRecvChan) => b_adapterClosed b = true
  | Some HDeferred | None => True
  end.

Definition sender_id (t : sender) : string :=
  match t with
  | SRegister id _ | SPublish id _ | SWait id | SDeferred id _ | SReturned id _ => id
  end.

Definition registered_sender (t : sender) : bool := match t with SRegister _ _ => false | _ => true end.

Record stream_inv (init : gset string) s : Prop := {
  iv_err : b_closed (st_base s) = true ↔ is_Some (b_err (st_base s));
  iv_pending : b_pending (st_base s) =
    (sum_list_with sender_pending (st_senders s) + handling_pending (st_handling s))%nat;
  iv_active : (sum_list_with closer_active (st_closers s) + handling_active (st_handling s) =
    if b_closed (st_base s) && negb (recv_closed (st_base s)) then 1 else 0)%nat;
  iv_open : b_closed (st_base s) = false →
    b_adapterClosed (st_base s) = false ∧ recv_closed (st_base s) = false;
  iv_closers : ∀ n t, st_closers s !! n = Some t → closer_ok (st_base s) t;
  iv_handling : handling_ok (st_base s) (st_handling s);
  iv_ids : NoDup (sender_id <$> st_senders s) ∧
    (∀ n t, st_senders s !! n = Some t → sender_id t ∉ init) ∧
    (∀ id, id ∈ b_acks (st_base s) ∪ b_acked (st_base s) → id ∈ init ∨
       ∃ n t, st_senders s !! n = Some t ∧ sender_id t = id ∧ registered_sender t = true);
  iv_acks : b_acks (st_base s) ## b_acked (st_base s)
}.

Lemma NewStream_inv acks size ty : stream_inv acks (NewStream acks size ty).
Proof.
  constructor; simpl; try done.
  split_and!; [constructor|intros n t; by rewrite lookup_nil|]. intros id Hid. left. set_solver.
Qed.

(** The invariant looks at the base through these. *)
Lemma stream_inv_base init s b :
  b_acks b = b_acks (st_base s) → b_acked b = b_acked (st_base s) →
  b_closed b = b_closed (st_base s) → b_err b = b_err (st_base s) →
  b_pending b = b_pending (st_base s) → recv_closed b = recv_closed (st_base s) →
  b_adapterClosed b = b_adapterClosed (st_base s) →
  stream_inv init s → stream_inv init (with_base s b).
Proof.
  intros E1 E2 E3 E4 E5 E6 E7 [I1 I2 I3 I4 I5 I6 I7 I8].
  constructor; simpl; rewrite ?E1, ?E2, ?E3, ?E4, ?E5, ?E6, ?E7; try done.
  - intros n t Ht. specialize (I5 n t Ht). destruct t; simpl in *; rewrite ?E5, ?E7; done.
  - destruct (st_handling s) as [[]|]; simpl in *; rewrite ?E6, ?E7; done.
Qed.

(** *** Senders *)

Lemma sender_ids_insert (l : list sender) n t t' :
  l !! n = Some t → sender_id t' = sender_id t → sender_id <$> <[n := t']> l = sender_id <$> l.
Proof.
  intros Hn Hid. rewrite list_fmap_insert, Hid. apply list_insert_id. by rewrite list_lookup_fmap, Hn.
Qed.

(** The senders that account for the acknowledgements, after one went on. *)
Lemma ids_with_sender init (l : list sender) (ids : gset string) n t t' :
  l !! n = Some t → sender_id t' = sender_id t → (registered_sender t = true → registered_sender t' = true) →
  NoDup (sender_id <$> l) ∧ (∀ n t, l !! n = Some t → sender_id t ∉ init) ∧
    (∀ id, id ∈ ids → id ∈ init ∨ ∃ n t, l !! n = Some t ∧ sender_id t = id ∧ registered_sender t = true) →
  NoDup (sender_id <$> <[n := t']> l) ∧ (∀ m x, <[n := t']> l !! m = Some x → sender_id x ∉ init) ∧
    (∀ id, id ∈ ids → id ∈ init ∨
       ∃ m x, <[n := t']> l !! m = Some x ∧ sender_id x = id ∧ registered_sender x = true).
Proof.
  intros Hn Hid Hreg (J1 & J2 & J3). split_and!.
  - by rewrite (sender_ids_insert l n t).
  - intros m x. destruct (decide (n = m)) as [<-|].
    + rewrite list_lookup_insert_eq by (by eapply lookup_lt_Some). intros [= <-].
      rewrite Hid. by eapply J2.
    + rewrite list_lookup_insert_ne by done. apply J2.
  - intros id Hin. destruct (J3 id Hin) as [|(m & x & Hm & Hx & Hr)]; [by left|right].
    destruct (decide (n = m)) as [<-|].
    + exists n, t'. rewrite list_lookup_insert_eq by (by eapply lookup_lt_Some).
      simplify_eq. split_and!; [done|done|auto].
    + exists m, x. by rewrite list_lookup_insert_ne.
Qed.

Lemma inv_with_sender init s n t t' :
  st_senders s !! n = Some t → sender_id t' = sender_id t → sender_pending t' = sender_pending t →
  (registered_sender t = true → registered_sender t' = true) →
  stream_inv init s → stream_inv init (with_sender s n t').
Proof.
  intros Hn Hid Hp Hreg [I1 I2 I3 I4 I5 I6 I7 I8]. constructor; simpl; try done.
  - pose proof (sum_list_with_insert sender_pending _ n t t' Hn). lia.
  - by eapply ids_with_sender.
Qed.

Lemma inv_returned init s n id err b :
  st_senders s !! n = Some (SDeferred id err) → stream_inv init s →
  pending_Done (set_acks (st_base s) (b_acks (st_base s) ∖ {[id]}) (b_acked (st_base s))) = Some b →
  stream_inv init (with_sender (with_base s b) n (SReturned id err)).
Proof.
  intros Hn [I1 I2 I3 I4 I5 I6 I7 I8] Hb.
  unfold pending_Done in Hb. simpl in Hb. destruct (b_pending (st_base s)) as [|p] eqn:Hp; [done|].
  injection Hb as <-. constructor; simpl; try done.
  - pose proof (sum_list_with_insert sender_pending _ n _ (SReturned id err) Hn) as Hs. simpl in Hs. lia.
  - intros m x Hm. specialize (I5 m x Hm). destruct x; simpl in *; naive_solver lia.
  - destruct (ids_with_sender init _ (b_acks (st_base s) ∪ b_acked (st_base s)) n _ (SReturned id err)
      Hn eq_refl ltac:(done) I7) as (J1 & J2 & J3).
    split_and!; [done|done|]. intros id' Hin. apply J3. set_solver.
  - set_solver.
Qed.

(** A sender that still counts keeps the wait group positive. *)
Lemma pending_Done_sender init s n t ids ids' :
  stream_inv init s → st_senders s !! n = Some t → sender_pending t = 1%nat →
  is_Some (pending_Done (set_acks (st_base s) ids ids')).
Proof.
  intros Hinv Hn Ht. pose proof (iv_pending init s Hinv) as Hp.
  pose proof (sum_list_with_lookup sender_pending _ n t Hn). unfold pending_Done. simpl.
  destruct (b_pending (st_base s)); [lia|eauto].
Qed.

Lemma inv_register init s n id raw :
  st_senders s !! n = Some (SRegister id raw) → stream_inv init s →
  stream_inv init (with_sender (with_base s (set_acks (st_base s) ({[id]} ∪ b_acks (st_base s))
    (b_acked (st_base s)))) n (SPublish id raw)).
Proof.
  intros Hn Hinv.
  assert (Hfresh : id ∉ b_acked (st_base s)).
  { destruct (iv_ids init s Hinv) as (J1 & J2 & J3). intros Hin.
    destruct (J3 id ltac:(set_solver)) as [Hi|(m & x & Hm & Hx & Hr)]; [by apply (J2 n _ Hn)|].
    assert (n = m) as <-; [|rewrite Hn in Hm; injection Hm as <-; discriminate Hr].
    apply (NoDup_lookup (sender_id <$> st_senders s) n m id J1);
      rewrite list_lookup_fmap, ?Hn, ?Hm; simpl; congruence. }
  assert (Hw : stream_inv init (with_sender s n (SPublish id raw))) by (by eapply inv_with_sender).
  assert (Hsome : st_senders (with_sender s n (SPublish id raw)) !! n = Some (SPublish id raw))
    by (apply list_lookup_insert_eq; by eapply lookup_lt_Some).
  destruct Hw as [I1 I2 I3 I4 I5 I6 (J1 & J2 & J3) I8]. constructor; simpl in *; try done.
  - split_and!; [done|done|]. intros id' Hin.
    destruct (decide (id' = id)) as [->|]; [right; exists n, (SPublish id raw); done|].
    apply J3. set_solver.
  - set_solver.
Qed.

Definition step_ok init (o : outcome) : Prop :=
  match o with Next s => stream_inv init s | Blocked => True | Panic => False end.

Lemma step_sender_ok init s n t e :
  stream_inv init s → st_senders s !! n = Some t → step_ok init (step_sender s n t e).
Proof.
  intros Hinv Hn. destruct t as [id raw|id raw|id|id err|id err]; simpl; try done.
  - by apply inv_register.
  - destruct e; by eapply inv_with_sender.
  - destruct (pending_Done_sender init s n _ (b_acks (st_base s) ∖ {[id]}) (b_acked (st_base s)) Hinv Hn eq_refl)
      as [b Hb]. rewrite Hb. simpl. by apply inv_returned.
Qed.

Lemma inv_add_sender init s t b :
  sender_id t ∉ sender_id <$> st_senders s → sender_id t ∉ init →
  b_pending b = (b_pending (st_base s) + sender_pending t)%nat →
  b_acks b = b_acks (st_base s) → b_acked b = b_acked (st_base s) →
  b_closed b = b_closed (st_base s) → b_err b = b_err (st_base s) →
  recv_closed b = recv_closed (st_base s) → b_adapterClosed b = b_adapterClosed (st_base s) →
  (b_closed (st_base s) = true → sender_pending t = 0%nat) →
  stream_inv init s → stream_inv init (add_sender (with_base s b) t).
Proof.
  intros Hid Hinit Ep E1 E2 E3 E4 E6 E7 Hcl [I1 I2 I3 I4 I5 I6 (J1 & J2 & J3) I8].
  constructor; simpl; rewrite ?E1, ?E2, ?E3, ?E4, ?E6, ?E7; try done.
  - rewrite Ep, sum_list_with_app. simpl. lia.
  - intros n x Hx. specialize (I5 n x Hx).
    assert (Hact : closer_active x = 1%nat → sender_pending t = 0%nat).
    { intros Ha. apply Hcl. pose proof (sum_list_with_lookup closer_active _ n x Hx).
      destruct (b_closed (st_base s)); [done|]. simpl in I3. lia. }
    destruct x; simpl in *; rewrite ?E7, ?Ep; try done; destruct I5; (split; [done|]);
      rewrite Hact by done; lia.
  - destruct (st_handling s) as [[]|]; simpl in *; rewrite ?E6, ?E7; done.
  - rewrite fmap_app. split_and!.
    + apply NoDup_app. split_and!; [done|set_solver|apply NoDup_singleton].
    + intros n x [Hx|[_ Hx]]%lookup_app_Some; [by eapply J2|].
      apply list_lookup_singleton_Some in Hx as [_ <-]. done.
    + intros id Hin. destruct (J3 id Hin) as [|(n & x & Hx & ?)]; [by left|right].
      exists n, x. split; [|done]. by apply lookup_app_l_Some.
Qed.

Lemma start_send_ok init s id m :
  stream_inv init s → id ∉ sender_id <$> st_senders s → id ∉ init →
  step_ok init (start_send s id m).
Proof.
  intros Hinv Hid Hinit. pose proof (iv_err init s Hinv) as Herr. unfold start_send, addPending.
  destruct (b_closed (st_base s)) eqn:Hc; destruct (b_err (st_base s)) as [e|] eqn:He; simpl;
    try (destruct (proj1 Herr eq_refl); discriminate);
    try (destruct (proj2 Herr (mk_is_Some _ _ eq_refl)); discriminate).
  - apply inv_add_sender; simpl; rewrite ?Hc, ?He; auto with lia.
  - assert (false = true) by (apply Herr; eauto). done.
  - destruct (SerializePayload m); apply inv_add_sender; simpl; rewrite ?Hc, ?He; try done; lia.
Qed.

(** *** Closers *)

(** The goroutine that ends the stream is alone: while one is active the others are not,
    the stream is closed and its channel is still open. *)
Lemma active_alone init s n t :
  stream_inv init s → st_closers s !! n = Some t → closer_active t = 1%nat →
  b_closed (st_base s) = true ∧ recv_closed (st_base s) = false ∧
  handling_active (st_handling s) = 0%nat ∧
  (∀ m x, st_closers s !! m = Some x → m ≠ n → closer_active x = 0%nat) ∧
  (sum_list_with closer_active (st_closers s) = 1)%nat.
Proof.
  intros [I1 I2 I3 I4 I5 I6 I7 I8] Hn Ht.
  pose proof (sum_list_with_lookup closer_active _ n t Hn) as Hle.
  destruct (b_closed (st_base s)), (recv_closed (st_base s)); simpl in I3; try lia.
  split_and!; [done|done|lia| |lia]. intros m x Hm Hne.
  eapply (sum_list_with_others closer_active); [exact Hn|lia|exact Hm|done].
Qed.

Lemma handling_alone init s :
  stream_inv init s → handling_active (st_handling s) = 1%nat →
  b_closed (st_base s) = true ∧ recv_closed (st_base s) = false ∧
  (∀ m x, st_closers s !! m = Some x → closer_active x = 0%nat) ∧
  (sum_list_with closer_active (st_closers s) = 0)%nat.
Proof.
  intros [I1 I2 I3 I4 I5 I6 I7 I8] Ht. rewrite Ht in I3.
  destruct (b_closed (st_base s)), (recv_closed (st_base s)); simpl in I3; try lia.
  split_and!; [done|done| |lia]. intros m x Hm.
  pose proof (sum_list_with_lookup closer_active _ m x Hm). lia.
Qed.

Lemma inactive_ok b t : closer_active t = 0%nat → closer_ok b t.
Proof. by destruct t. Qed.

Lemma closer_active_01 t : closer_active t = 0%nat ∨ closer_active t = 1%nat.
Proof. destruct t; auto. Qed.

(** A closer that goes on, with what it changes of the base. *)
Lemma inv_with_closer init s n t t' b :
  st_closers s !! n = Some t → stream_inv init s →
  b_acks b = b_acks (st_base s) → b_acked b = b_acked (st_base s) →
  b_pending b = b_pending (st_base s) →
  (b_closed b = true ↔ is_Some (b_err b)) →
  (b_closed b = false → b_adapterClosed b = false ∧ recv_closed b = false) →
  (sum_list_with closer_active (st_closers s) + closer_active t' + handling_active (st_handling s) =
     closer_active t + if b_closed b && negb (recv_closed b) then 1 else 0)%nat →
  closer_ok b t' →
  (∀ m x, m ≠ n → st_closers s !! m = Some x → closer_ok b x) →
  handling_ok b (st_handling s) →
  stream_inv init (with_closer (with_base s b) n t').
Proof.
  intros Hn [I1 I2 I3 I4 I5 I6 I7 I8] E1 E2 E5 J1 J4 J3 J5 J5' J6.
  pose proof (sum_list_with_insert closer_active _ n t t' Hn) as Hs.
  constructor; simpl; rewrite ?E1, ?E2, ?E5; try done; [lia|].
  intros m x. destruct (decide (n = m)) as [<-|Hne].
  - rewrite list_lookup_insert_eq by (by eapply lookup_lt_Some). by intros [= <-].
  - rewrite list_lookup_insert_ne by done. by apply J5'.
Qed.

Lemma inv_with_closer_only init s n t t' :
  st_closers s !! n = Some t → stream_inv init s →
  (closer_active t' = closer_active t)%nat → closer_ok (st_base s) t' →
  stream_inv init (with_closer s n t').
Proof.
  intros Hn Hinv Ha Hok. refine (inv_with_closer init s n t t' (st_base s) Hn Hinv _ _ _ _ _ _ _ _ _);
    try done; [apply Hinv|apply Hinv|pose proof (iv_active init s Hinv); lia| |apply Hinv].
  intros m x _. apply Hinv.
Qed.

Lemma step_closer_ok init s n t :
  stream_inv init s → st_closers s !! n = Some t → step_ok init (step_closer s n t).
Proof.
  intros Hinv Hn.
  assert (Hother : ∀ b m x, closer_active t = 1%nat → m ≠ n → st_closers s !! m = Some x → closer_ok b x).
  { intros b m x Ha Hne Hm. apply inactive_ok.
    destruct (active_alone init s n t Hinv Hn Ha) as (_&_&_&Ho&_). eauto. }
  assert (Hal := active_alone init s n t Hinv Hn).
  pose proof (iv_closers init s Hinv n t Hn) as Hok. pose proof (iv_handling init s Hinv) as Hh.
  pose proof (iv_pending init s Hinv) as Hp. pose proof (iv_active init s Hinv) as Ha.
  pose proof (iv_err init s Hinv) as He. pose proof (iv_open init s Hinv) as Ho.
  assert (Hmsg : b_pending (st_base s) = 0%nat → handling_active (st_handling s) = 0%nat →
    ∀ b, handling_ok b (st_handling s)).
  { intros Hz Hz' b. rewrite Hz in Hp. destruct (st_handling s) as [[]|]; simpl in *; try done; lia. }
  destruct t as [cause| | | | | |]; simpl in Hal; simpl; try (specialize (Hal eq_refl) as (Hc&Hr&Hha&_&Hs)).
  - unfold setClosed. destruct (b_closed (st_base s)) eqn:Hc; simpl.
    + by eapply inv_with_closer_only.
    + destruct (Ho eq_refl) as [Had Hrc]. rewrite Hrc in Ha. simpl in Ha.
      refine (inv_with_closer init s n _ _ _ Hn Hinv _ _ _ _ _ _ _ _ _); simpl; [done|done|done|..].
      * split; eauto.
      * done.
      * unfold recv_closed in *. simpl. rewrite Hrc. simpl. lia.
      * done.
      * intros m x _ Hm. apply inactive_ok. pose proof (sum_list_with_lookup closer_active _ m x Hm). lia.
      * destruct (st_handling s) as [[]|]; simpl in *; try done; lia.
  - by eapply inv_with_closer_only.
  - destruct (Nat.eqb_spec (b_pending (st_base s)) 0); simpl; [|done].
    by eapply inv_with_closer_only.
  - destruct Hok as [Hok Hz]. unfold adapter_Close. rewrite Hok. simpl.
    refine (inv_with_closer init s n _ _ _ Hn Hinv _ _ _ _ _ _ _ _ _); simpl;
      [done|done|done|done|by rewrite Hc| |done|eauto|eauto].
    unfold recv_closed in *. simpl. rewrite Hc, Hr. simpl. lia.
  - destruct Hok as [Hok Hz].
    refine (inv_with_closer init s n _ _ _ Hn Hinv _ _ _ _ _ _ _ _ _); simpl;
      [done|done|done|done|by rewrite Hc| |done|eauto|eauto].
    unfold recv_closed in *. simpl. rewrite Hc, Hr. simpl. lia.
  - destruct Hok as [Hok Hz]. unfold close_recvChan, chan_close. unfold recv_closed in Hr. rewrite Hr. simpl.
    refine (inv_with_closer init s n _ _ _ Hn Hinv _ _ _ _ _ _ _ _ _); simpl;
      [done|done|done|done|by rewrite Hc| |done|eauto|eauto].
    unfold recv_closed. simpl. rewrite andb_false_r. lia.
  - done.
Qed.

(** *** [HandleStream] *)

Lemma inv_with_handling init s h b :
  stream_inv init s →
  b_acks b = b_acks (st_base s) → b_acked b = b_acked (st_base s) →
  b_pending b = (sum_list_with sender_pending (st_senders s) + handling_pending h)%nat →
  (b_closed b = true ↔ is_Some (b_err b)) →
  (b_closed b = false → b_adapterClosed b = false ∧ recv_closed b = false) →
  (sum_list_with closer_active (st_closers s) + handling_active h =
     if b_closed b && negb (recv_closed b) then 1 else 0)%nat →
  (∀ m x, st_closers s !! m = Some x → closer_ok b x) →
  handling_ok b h →
  stream_inv init (with_handling (with_base s b) h).
Proof.
  intros [I1 I2 I3 I4 I5 I6 I7 I8] E1 E2 J2 J1 J4 J3 J5 J6.
  constructor; simpl; rewrite ?E1, ?E2; done.
Qed.

Lemma inv_handling_only init s h :
  stream_inv init s → handling_pending h = handling_pending (st_handling s) →
  handling_active h = handling_active (st_handling s) → handling_ok (st_base s) h →
  stream_inv init (with_handling s h).
Proof.
  intros Hinv Hp Ha Hok. refine (inv_with_handling init s h (st_base s) Hinv _ _ _ _ _ _ _ _); try done.
  - rewrite Hp. apply Hinv.
  - apply Hinv.
  - apply Hinv.
  - rewrite Ha. apply Hinv.
  - apply Hinv.
Qed.

Lemma inv_add_closer init s cause : stream_inv init s → stream_inv init (add_closer s (CStart cause)).
Proof.
  intros [I1 I2 I3 I4 I5 I6 I7 I8]. constructor; simpl; try done.
  - rewrite sum_list_with_app. simpl. lia.
  - intros n x [Hx|[_ Hx]]%lookup_app_Some; [eauto|].
    apply list_lookup_singleton_Some in Hx as [_ <-]. done.
Qed.

(** A closer that waited out the wait group sees it stay at zero. *)
Lemma closer_ok_pending_Done init s n x b :
  stream_inv init s → st_closers s !! n = Some x →
  b_adapterClosed b = b_adapterClosed (st_base s) → (b_pending b <= b_pending (st_base s))%nat →
  closer_ok b x.
Proof.
  intros Hinv Hx Ea Ep. pose proof (iv_closers init s Hinv n x Hx) as Hok.
  destruct x; simpl in *; rewrite ?Ea; try done; destruct Hok; (split; [done|lia]).
Qed.

Lemma inv_ack init s id :
  stream_inv init s → id ∈ b_acks (st_base s) →
  stream_inv init (with_base s (set_acks (st_base s) (b_acks (st_base s) ∖ {[id]}) ({[id]} ∪ b_acked (st_base s)))).
Proof.
  intros [I1 I2 I3 I4 I5 I6 (J1 & J2 & J3) I8] Hid. constructor; simpl; try done.
  - split_and!; [done|done|]. intros id' Hin. apply J3. set_solver.
  - set_solver.
Qed.

Lemma inv_unack init s id :
  stream_inv init s →
  stream_inv init (with_base s (set_acks (st_base s) (b_acks (st_base s) ∖ {[id]}) (b_acked (st_base s)))).
Proof.
  intros [I1 I2 I3 I4 I5 I6 (J1 & J2 & J3) I8]. constructor; simpl; try done.
  - split_and!; [done|done|]. intros id' Hin. apply J3. set_solver.
  - set_solver.
Qed.

(** A message taken on while the stream is open. *)
Lemma inv_message init s h b :
  stream_inv init s → st_handling s = None → b_closed (st_base s) = false →
  addPending (st_base s) = (b, None) → handling_pending h = 1%nat → handling_active h = 0%nat →
  stream_inv init (with_handling (with_base s b) h).
Proof.
  intros Hinv Hh Hc Hadd Hp Ha.
  pose proof (iv_pending init s Hinv) as Ip. pose proof (iv_active init s Hinv) as Iact.
  destruct (iv_open init s Hinv Hc) as [Had Hrc]. rewrite Hh in Ip, Iact. simpl in Ip, Iact.
  unfold addPending in Hadd. rewrite Hc in Hadd. injection Hadd as <- _.
  pose proof (iv_err init s Hinv) as Ie. rewrite Hc in Ie, Iact. simpl in Iact.
  refine (inv_with_handling init s h _ Hinv _ _ _ _ _ _ _ _); simpl; try done; try lia.
  - intros m x Hm. apply inactive_ok. pose proof (sum_list_with_lookup closer_active _ m x Hm). lia.
  - destruct h as [[]|]; simpl in *; try done; lia.
Qed.

Lemma start_handle_ok init s msg :
  stream_inv init s → st_handling s = None → step_ok init (start_handle s msg).
Proof.
  intros Hinv Hh. unfold start_handle. destruct (sm_Body msg) as [node md|raw| |error code].
  - done.
  - destruct (addPending (st_base s)) as [b [e|]] eqn:Hadd; simpl.
    + assert (b = st_base s) as ->; [|by destruct s].
      unfold addPending in Hadd. destruct (b_closed (st_base s)) eqn:Hc; [by simplify_eq|].
      injection Hadd as _ He. assert (b_closed (st_base s) = true) by (apply Hinv; rewrite He; eauto). congruence.
    + assert (Hc : b_closed (st_base s) = false).
      { destruct (b_closed (st_base s)) eqn:Hc; [|done]. unfold addPending in Hadd.
        injection Hadd as _ He. pose proof (proj1 (iv_err init s Hinv) Hc) as [e ?]. congruence. }
      destruct (DeserializePayload _ _); simpl; [by apply inv_message|].
      by apply (inv_add_closer init (with_handling (with_base s b) (Some HDeferred))), inv_message.
  - destruct (bool_decide_reflect (sm_RequestId msg ∈ b_acks (st_base s))) as [Hin|Hin].
    + simpl. rewrite bool_decide_eq_false_2.
      * by apply inv_ack.
      * pose proof (iv_acks init s Hinv). set_solver.
    + by apply inv_unack.
  - unfold setClosed. destruct (b_closed (st_base s)) eqn:Hc; simpl; [by destruct s|].
    pose proof (iv_active init s Hinv) as Iact. pose proof (iv_pending init s Hinv) as Ip.
    destruct (iv_open init s Hinv Hc) as [Had Hrc]. rewrite Hh, Hc in *. simpl in *.
    refine (inv_with_handling init s _ _ Hinv _ _ _ _ _ _ _ _); simpl; try done.
    + unfold recv_closed in *. simpl. rewrite Hrc. simpl. lia.
    + intros m x Hm. apply inactive_ok. pose proof (sum_list_with_lookup closer_active _ m x Hm). lia.
Qed.

Lemma step_handling_ok init s h :
  stream_inv init s → st_handling s = Some h → step_ok init (step_handling s h).
Proof.
  intros Hinv Hh. pose proof (iv_pending init s Hinv) as Ip. pose proof (iv_active init s Hinv) as Iact.
  pose proof (iv_handling init s Hinv) as Ih. pose proof (handling_alone init s Hinv) as Hal.
  rewrite Hh in *.
  destruct h as [m| | | | |]; simpl in *;
    try (destruct (Hal eq_refl) as (Hc & Hr & Ho & Hs)).
  - unfold Recv, chan_send. unfold recv_closed in Ih. rewrite Ih.
    destruct (length _ <? _)%nat; simpl; [|by apply (inv_handling_only init s); rewrite ?Hh].
    refine (inv_with_handling init s _ _ Hinv _ _ _ _ _ _ _ _); simpl; try done; try apply Hinv.
    all: first [ intros Hf; by destruct (iv_open init s Hinv Hf)
               | rewrite Iact; unfold recv_closed; simpl; by rewrite Ih
               | intros n x Hx; by eapply closer_ok_pending_Done ].
  - by apply (inv_handling_only init s); rewrite ?Hh.
  - unfold pending_Done. destruct (b_pending (st_base s)) as [|p] eqn:Hp; [lia|]. simpl.
    refine (inv_with_handling init s _ _ Hinv _ _ _ _ _ _ _ _); simpl; try done; try apply Hinv; try lia.
    all: first [ exact Iact
               | intros n x Hx; eapply closer_ok_pending_Done; [done|done|done|]; simpl; lia ].
  - unfold adapter_Close. rewrite Ih. simpl.
    refine (inv_with_handling init s _ _ Hinv _ _ _ _ _ _ _ _); simpl; try done; try apply Hinv; try lia.
    all: first [ by rewrite Hc
               | unfold recv_closed in *; simpl; rewrite Hc, Hr; simpl; lia
               | intros n x Hx; apply inactive_ok; by eauto ].
  - refine (inv_with_handling init s _ _ Hinv _ _ _ _ _ _ _ _); simpl; try done; try apply Hinv; try lia.
    all: first [ unfold recv_closed in *; simpl; rewrite Hc, Hr; simpl; lia
               | intros n x Hx; apply inactive_ok; by eauto ].
  - unfold close_recvChan, chan_close. unfold recv_closed in Hr. rewrite Hr. simpl.
    refine (inv_with_handling init s _ _ Hinv _ _ _ _ _ _ _ _); simpl; try done; try apply Hinv; try lia.
    all: first [ by rewrite Hc
               | unfold recv_closed; simpl; rewrite andb_false_r; lia
               | intros n x Hx; apply inactive_ok; by eauto ].
Qed.

(** *** Runs *)

Fixpoint run (ls : list label) s : option st :=
  match ls with
  | [] => Some s
  | l :: ls => match step l s with Next s => run ls s | _ => None end
  end.

(** The IDs of the requests a run begins to send. *)
Definition send_ids (ls : list label) : list string :=
  omap (λ l, match l with LSend id _ => Some id | _ => None end) ls.

Lemma step_inv init l s :
  stream_inv init s →
  (∀ id, id ∈ send_ids [l] → (id ∉ (sender_id <$> st_senders s)) ∧ id ∉ init) →
  step_ok init (step l s).
Proof.
  intros Hinv Hfresh. destruct l as [id x|n e|n|n|cause|n|msg|e| | |]; simpl.
  - destruct (Hfresh id ltac:(left)). by apply start_send_ok.
  - destruct (st_senders s !! n) eqn:Hn; [|done]. by apply step_sender_ok.
  - destruct (st_senders s !! n) as [[]|] eqn:Hn; try done. case_bool_decide; simpl; [|done].
    by eapply inv_with_sender.
  - destruct (st_senders s !! n) as [[]|] eqn:Hn; try done. by eapply inv_with_sender.
  - by apply inv_add_closer.
  - destruct (st_closers s !! n) eqn:Hn; [|done]. by apply step_closer_ok.
  - destruct (st_handling s) eqn:Hh; [done|]. by apply start_handle_ok.
  - destruct (st_handling s) eqn:Hh; [|done]. by apply step_handling_ok.
  - destruct (chan_recv _) as [m c| |] eqn:Hr; simpl; try done.
    apply stream_inv_base; try done. unfold recv_closed. simpl. unfold chan_recv in Hr.
    destruct (chan_buf _); [by destruct (chan_closed _)|]. by injection Hr as _ <-.
  - by apply stream_inv_base.
  - by apply stream_inv_base.
Qed.

(** The senders of a state are those of the state before and the one that begins. *)
Lemma step_sender_ids l s s' :
  step l s = Next s' → sender_id <$> st_senders s' = (sender_id <$> st_senders s) ++ send_ids [l].
Proof.
  assert (Hins : ∀ n t t', st_senders s !! n = Some t → sender_id t' = sender_id t →
    sender_id <$> <[n := t']> (st_senders s) = (sender_id <$> st_senders s) ++ []).
  { intros. rewrite app_nil_r. by eapply sender_ids_insert. }
  destruct l as [id x|n e|n|n|cause|n|msg|e| | |]; simpl; intros Hstep.
  - unfold start_send in Hstep. destruct (addPending _) as [b [e|]]; [|destruct (SerializePayload x)];
      injection Hstep as <-; simpl; by rewrite fmap_app.
  - destruct (st_senders s !! n) as [t|] eqn:Hn; [|done].
    destruct t; simpl in Hstep; try done; [injection Hstep as <-; by eapply Hins|
      injection Hstep as <-; destruct e; by eapply Hins|].
    unfold or_panic in Hstep. destruct (pending_Done _); [|done]. injection Hstep as <-. by eapply Hins.
  - destruct (st_senders s !! n) as [[]|] eqn:Hn; try done. case_bool_decide; [|done].
    injection Hstep as <-. by eapply Hins.
  - destruct (st_senders s !! n) as [[]|] eqn:Hn; try done. injection Hstep as <-. by eapply Hins.
  - injection Hstep as <-. by rewrite app_nil_r.
  - rewrite app_nil_r. destruct (st_closers s !! n) as [t|]; [|done].
    destruct t; simpl in Hstep; unfold or_panic in Hstep; repeat case_match; by simplify_eq.
  - rewrite app_nil_r. destruct (st_handling s); [done|]. unfold start_handle in Hstep.
    repeat case_match; by simplify_eq.
  - rewrite app_nil_r. destruct (st_handling s) as [[]|]; simpl in Hstep; unfold or_panic in Hstep;
      repeat case_match; by simplify_eq.
  - rewrite app_nil_r. destruct (chan_recv _); by simplify_eq.
  - injection Hstep as <-. by rewrite app_nil_r.
  - injection Hstep as <-. by rewrite app_nil_r.
Qed.

Lemma send_ids_app ls1 ls2 : send_ids (ls1 ++ ls2) = send_ids ls1 ++ send_ids ls2.
Proof. apply omap_app. Qed.

(** Runs that use fresh IDs keep the invariant. *)
Lemma run_inv init ls s s' :
  stream_inv init s → NoDup ((sender_id <$> st_senders s) ++ send_ids ls) →
  (∀ id, id ∈ send_ids ls → id ∉ init) → run ls s = Some s' →
  stream_inv init s' ∧ sender_id <$> st_senders s' = (sender_id <$> st_senders s) ++ send_ids ls.
Proof.
  revert s. induction ls as [|l ls IH]; intros s Hinv Hnd Hinit; cbn [run].
  { intros [= <-]. by rewrite app_nil_r. }
  assert (Hcons : send_ids (l :: ls) = send_ids [l] ++ send_ids ls) by apply (send_ids_app [l]).
  rewrite Hcons in *. rewrite app_assoc in Hnd.
  pose proof (step_inv init l s Hinv) as Hok.
  destruct (step l s) as [s1| |] eqn:Hstep; try done.
  rewrite <- (step_sender_ids l s s1 Hstep) in Hnd. intros Hrun.
  destruct (IH s1) as [? Hids]; try done.
  - apply Hok. intros id Hid. split; [|apply Hinit; set_solver].
    rewrite (step_sender_ids l s s1 Hstep), <- app_assoc in Hnd.
    apply NoDup_app in Hnd as (_ & Hd & _). intros Hin. apply (Hd id Hin). set_solver.
  - intros id Hid. apply Hinit. set_solver.
  - split; [done|]. by rewrite Hids, (step_sender_ids l s s1 Hstep), app_assoc.
Qed.

(** What has ended stays ended. *)
Lemma step_adapterClosed l s s' :
  step l s = Next s' → b_adapterClosed (st_base s) = true → b_adapterClosed (st_base s') = true.
Proof.
  destruct l as [id x|n e|n|n|cause|n|msg|e| | |]; simpl; intros Hstep Ha;
    unfold start_send, start_handle, step_sender, step_closer, step_handling, addPending, setClosed, pending_Done,
      adapter_Close, close_recvChan, Recv, or_panic in Hstep;
    repeat case_match; simplify_eq/=; try done; by destruct (chan_close _); simplify_eq/=.
Qed.

Lemma step_closed l s s' :
  step l s = Next s' → b_closed (st_base s) = true → b_closed (st_base s') = true.
Proof.
  destruct l as [id x|n e|n|n|cause|n|msg|e| | |]; simpl; intros Hstep Ha;
    unfold start_send, start_handle, step_sender, step_closer, step_handling, addPending, setClosed, pending_Done,
      adapter_Close, close_recvChan, Recv, or_panic in Hstep;
    repeat case_match; simplify_eq/=; try done; by destruct (chan_close _); simplify_eq/=.
Qed.

(** *** Acknowledgements *)

Definition sent_ok (t : sender) : option string :=
  match t with SDeferred id None | SReturned id None => Some id | _ => None end.

(** What was acknowledged was acknowledged by a message of [ls]; a [Send] without an
    error was acknowledged; a stream canceled has an error. *)
Record acks_inv (ls : list label) s : Prop := {
  ai_acked : ∀ id, id ∈ b_acked (st_base s) →
    ∃ msg, LHandle msg ∈ ls ∧ sm_Body msg = Stream_Ack ∧ sm_RequestId msg = id;
  ai_sent : ∀ n t id, st_senders s !! n = Some t → sent_ok t = Some id → id ∈ b_acked (st_base s);
  ai_canceled : b_canceled (st_base s) = true → is_Some (b_err (st_base s))
}.

Lemma acks_inv_sender ls l s n t t' :
  acks_inv ls s → st_senders s !! n = Some t →
  (∀ id, sent_ok t' = Some id → id ∈ b_acked (st_base s)) → acks_inv (ls ++ [l]) (with_sender s n t').
Proof.
  intros [A1 A2 A3] Hn Ht. constructor; simpl; [| |done].
  - intros id (msg & ? & ?)%A1. exists msg. set_solver.
  - intros m x id. destruct (decide (n = m)) as [<-|].
    + rewrite list_lookup_insert_eq by (by eapply lookup_lt_Some). intros [= <-]. apply Ht.
    + rewrite list_lookup_insert_ne by done. apply A2.
Qed.

(** The rest of a step leaves what this is about alone, or only adds to it. *)
Lemma acks_inv_mono ls l s s' :
  acks_inv ls s → st_senders s' = st_senders s → b_acked (st_base s') = b_acked (st_base s) →
  (b_canceled (st_base s') = true → is_Some (b_err (st_base s'))) → acks_inv (ls ++ [l]) s'.
Proof.
  intros [A1 A2 A3] Hs Ha Hc. constructor; rewrite ?Hs, ?Ha; [| |done].
  - intros id (msg & ? & ?)%A1. exists msg. set_solver.
  - apply A2.
Qed.

Lemma acks_inv_add ls l s b t :
  acks_inv ls s → sent_ok t = None → b_acked b = b_acked (st_base s) →
  b_canceled b = b_canceled (st_base s) → b_err b = b_err (st_base s) →
  acks_inv (ls ++ [l]) (add_sender (with_base s b) t).
Proof.
  intros [A1 A2 A3] Ht Ha Hc He. constructor; simpl; rewrite ?Ha, ?Hc, ?He; [| |done].
  - intros id (msg & ? & ?)%A1. exists msg. set_solver.
  - intros n x id [Hx|[_ Hx]]%lookup_app_Some; [by eapply A2|].
    apply list_lookup_singleton_Some in Hx as [_ <-]. by rewrite Ht.
Qed.

Lemma acks_inv_step init ls l s s' :
  l ≠ LParentDone → stream_inv init s → acks_inv ls s → step l s = Next s' → acks_inv (ls ++ [l]) s'.
Proof.
  intros Hl Hinv HA Hstep. pose proof HA as [A1 A2 A3].
  destruct l as [id x|n e|n|n|cause|n|msg|e| | |]; simpl in Hstep; [..|done|].
  - unfold start_send, addPending in Hstep.
    destruct (b_closed _) eqn:Hc; destruct (b_err _) as [e|] eqn:He; try destruct (SerializePayload x);
      injection Hstep as <-; apply acks_inv_add; simpl; rewrite ?Hc, ?He; done.
  - destruct (st_senders s !! n) as [t|] eqn:Hn; [|done]. destruct t as [id raw|id raw|id|id err|id err]; simpl in Hstep; try done.
    + injection Hstep as <-.
      eapply (acks_inv_sender ls _ (with_base s (set_acks (st_base s) _ _))); [|exact Hn|done]. by constructor.
    + injection Hstep as <-. eapply acks_inv_sender; [done|done|]. by destruct e.
    + unfold or_panic, pending_Done in Hstep. simpl in Hstep. destruct (b_pending (st_base s)) as [|p]; [done|].
      injection Hstep as <-.
      eapply (acks_inv_sender ls _ (with_base s (MkBase _ _ _ _ p _ _ _ _))); [|exact Hn|].
      * by constructor.
      * intros id'. simpl. intros Hid. eapply A2; [exact Hn|]. by destruct err.
  - destruct (st_senders s !! n) as [[]|] eqn:Hn; try done. case_bool_decide; [|done].
    injection Hstep as <-. eapply acks_inv_sender; [done|done|]. by intros ? [= <-].
  - destruct (st_senders s !! n) as [[]|] eqn:Hn; try done. injection Hstep as <-.
    eapply acks_inv_sender; [done|done|]. unfold ctx_done_error. simpl.
    destruct (b_canceled (st_base s)); [|done]. by destruct (A3 eq_refl) as [e ->].
  - injection Hstep as <-. by apply (acks_inv_mono ls _ s).
  - destruct (st_closers s !! n) as [t|] eqn:Hn; [|done].
    pose proof (active_alone init s n t Hinv Hn) as Hal.
    destruct t as [c| | | | | |]; simpl in Hstep, Hal; unfold or_panic, setClosed, adapter_Close, close_recvChan in Hstep;
      try (destruct (Hal eq_refl) as (Hc & _); apply Hinv in Hc);
      repeat case_match; simplify_eq; try done;
      try (destruct (chan_close _) in *; simplify_eq/=); (apply (acks_inv_mono ls _ s); simpl; eauto).
  - destruct (st_handling s); [done|]. unfold start_handle in Hstep.
    destruct (sm_Body msg) eqn:Hb.
    + injection Hstep as <-. by apply (acks_inv_mono ls _ s).
    + unfold addPending in Hstep.
      destruct (b_closed (st_base s)), (b_err (st_base s)) as [e|] eqn:He; simpl in Hstep;
        try destruct (DeserializePayload _ _); injection Hstep as <-;
        apply (acks_inv_mono ls _ s); simpl; rewrite ?He; done.
    + destruct (bool_decide_reflect (sm_RequestId msg ∈ b_acks (st_base s))); [case_bool_decide; [done|]|];
        injection Hstep as <-; constructor; simpl; try done.
      * intros id [->%elem_of_singleton|Hin]%elem_of_union; [exists msg; set_solver|].
        destruct (A1 id Hin) as (m & ? & ?). exists m. set_solver.
      * intros m t id Hm Ht. specialize (A2 m t id Hm Ht). set_solver.
      * intros id (m & ? & ?)%A1. exists m. set_solver.
    + unfold setClosed in Hstep. repeat case_match; simplify_eq; apply (acks_inv_mono ls _ s); simpl; eauto.
  - destruct (st_handling s) as [h|] eqn:Hh; [|done].
    pose proof (handling_alone init s Hinv) as Hal. rewrite Hh in Hal.
    destruct h as [m| | | | |]; simpl in Hstep, Hal; unfold or_panic, Recv, pending_Done, adapter_Close, close_recvChan in Hstep;
      try (destruct (Hal eq_refl) as (Hc & _); apply Hinv in Hc);
      repeat case_match; simplify_eq; try done;
      try (destruct (chan_close _) in *; simplify_eq/=); (apply (acks_inv_mono ls _ s); simpl; eauto).
  - destruct (chan_recv _); simplify_eq. by apply (acks_inv_mono ls _ s).
  - injection Hstep as <-. by apply (acks_inv_mono ls _ s).
Qed.

Lemma run_app ls1 ls2 s : run (ls1 ++ ls2) s = run ls1 s ≫= run ls2.
Proof. revert s. induction ls1 as [|l ls1 IH]; intros s; simpl; [done|]. by destruct (step l s). Qed.

Lemma run_acks init ls s :
  NoDup (send_ids ls) → (∀ id, id ∈ send_ids ls → id ∉ init) → LParentDone ∉ ls →
  ∀ size ty, run ls (NewStream init size ty) = Some s → acks_inv ls s.
Proof.
  intros Hnd Hinit Hno size ty. revert s Hnd Hinit Hno.
  induction ls as [|l ls IH] using rev_ind; intros s Hnd Hinit Hno; [by intros [= <-]; constructor|].
  rewrite run_app. destruct (run ls _) as [s1|] eqn:Hrun; simpl; [|done].
  destruct (step l s1) as [s2| |] eqn:Hstep; [|done..]. intros [= <-].
  rewrite send_ids_app in Hnd, Hinit. apply NoDup_app in Hnd as (Hnd & _ & _).
  eapply (acks_inv_step init); [set_solver| | |exact Hstep].
  - eapply (run_inv init ls); [apply NewStream_inv|done| |exact Hrun]. set_solver.
  - apply IH; [done|set_solver|set_solver|done].
Qed.
End stream_invariant.

(** ** Closers *)

Section closers.
Context `{GrpcApi} `{!StatusApi} `{!Codec}.
Implicit Types (ss : st) (lc : label).

(** A goroutine past the start of [Close] has found or left the stream closed. *)
Definition closers_closed ss : Prop :=
  ∀ c t, st_closers ss !! c = Some t → (∃ cause, t = CStart cause) ∨ b_closed (st_base ss) = true.

Lemma closers_closed_keep ss ss' :
  closers_closed ss → (b_closed (st_base ss) = true → b_closed (st_base ss') = true) →
  (∀ c t, st_closers ss' !! c = Some t → st_closers ss !! c = Some t ∨ (∃ cause, t = CStart cause) ∨ b_closed (st_base ss') = true) →
  closers_closed ss'.
Proof. intros Hc Hb Hs c t Ht. destruct (Hs c t Ht) as [Ho|?]; [|done]. destruct (Hc c t Ho); auto. Qed.

Lemma step_closers_closed lc ss ss' :
  step lc ss = Next ss' → closers_closed ss → closers_closed ss'.
Proof.
  intros Hstep Hc. apply (closers_closed_keep ss); [done|by eapply step_closed|].
  assert (Hadd : ∀ cause c t, (st_closers ss ++ [CStart cause]) !! c = Some t →
    st_closers ss !! c = Some t ∨ (∃ cause, t = CStart cause) ∨ b_closed (st_base ss') = true).
  { intros cause c t [?|[_ Ht]]%lookup_app_Some; [by left|right; left].
    apply list_lookup_singleton_Some in Ht as [_ <-]. eauto. }
  destruct lc as [id payload|n e|n|n|cause|n|msg|e| | |]; simpl in Hstep.
  - unfold start_send in Hstep. repeat case_match; simplify_eq; intros ? ? ?; by left.
  - unfold step_sender, or_panic in Hstep. repeat case_match; simplify_eq; intros ? ? ?; by left.
  - repeat case_match; simplify_eq; intros ? ? ?; by left.
  - repeat case_match; simplify_eq; intros ? ? ?; by left.
  - injection Hstep as <-. apply Hadd.
  - destruct (st_closers ss !! n) as [t0|] eqn:Hn; [|done]. specialize (Hc n t0 Hn).
    assert (Hins : ∀ t', b_closed (st_base ss') = true → ∀ c t, <[n := t']> (st_closers ss) !! c = Some t →
      st_closers ss !! c = Some t ∨ (∃ cause, t = CStart cause) ∨ b_closed (st_base ss') = true).
    { intros t1 Hb c1 t2 [[-> ->]|[_ ?]]%list_lookup_insert_cases; [by right; right|by left]. }
    pose proof (step_closed (LCloser n) ss ss') as Hmono. simpl in Hmono. rewrite Hn in Hmono. specialize (Hmono Hstep).
    assert (b_closed (st_base ss') = true) as Hb.
    { destruct Hc as [[cause ->]|Hb]; [|by apply Hmono]. simpl in Hstep. unfold setClosed in Hstep.
      destruct (b_closed (st_base ss)); [by apply Hmono|]. by injection Hstep as <-. }
    specialize (λ t', Hins t' Hb).
    destruct t0; simpl in Hstep; unfold or_panic in Hstep; repeat case_match; simplify_eq; apply Hins.
  - repeat case_match; try done. unfold start_handle in Hstep.
    repeat case_match; simplify_eq/=; first [apply Hadd|intros ? ? ?; by left].
  - unfold step_handling, or_panic in Hstep. repeat case_match; simplify_eq/=; intros ? ? ?; by left.
  - repeat case_match; simplify_eq; intros ? ? ?; by left.
  - injection Hstep as <-. intros ? ? ?; by left.
  - injection Hstep as <-. intros ? ? ?; by left.
Qed.

Lemma run_closers_closed ls ss ss' : closers_closed ss → run ls ss = Some ss' → closers_closed ss'.
Proof.
  revert ss. induction ls as [|lc ls IH]; intros ss Hc Hr; simpl in Hr; [by simplify_eq|].
  destruct (step lc ss) as [ss1| |] eqn:Hs; [|done..]. eapply IH; [|done]. by eapply step_closers_closed.
Qed.

(** The goroutines of [Close] are kept. *)
Lemma step_closers_length lc ss ss' :
  step lc ss = Next ss' → (length (st_closers ss) <= length (st_closers ss'))%nat.
Proof.
  destruct lc as [id payload|n e|n|n|cause|n|msg|e| | |]; simpl; intros Hstep;
    unfold start_send, start_handle, step_sender, step_closer, step_handling, or_panic in Hstep;
    repeat case_match; simplify_eq/=; rewrite ?length_insert, ?length_app; simpl; lia.
Qed.
End closers.

(** *** What was acknowledged *)

(** It stays so, and is new only by a message of the peer. *)
Lemma step_acked `{GrpcApi} `{!StatusApi} `{!Codec} l s s' : step l s = Next s' →
  b_acked (st_base s) ⊆ b_acked (st_base s') ∧
  ∀ id, id ∈ b_acked (st_base s') → id ∈ b_acked (st_base s) ∨
    ∃ msg, l = LHandle msg ∧ sm_Body msg = Stream_Ack ∧ sm_RequestId msg = id.
Proof.
  intros Hstep. assert (Hsame : b_acked (st_base s') = b_acked (st_base s) →
    b_acked (st_base s) ⊆ b_acked (st_base s') ∧ ∀ id, id ∈ b_acked (st_base s') → id ∈ b_acked (st_base s) ∨
    ∃ msg, l = LHandle msg ∧ sm_Body msg = Stream_Ack ∧ sm_RequestId msg = id) by (intros ->; split; [done|by left]).
  destruct l as [id x|n e|n|n|cause|n|msg|e| | |]; simpl in Hstep.
  - apply Hsame. unfold start_send, addPending in Hstep. repeat case_match; by simplify_eq/=.
  - apply Hsame. unfold step_sender, or_panic, pending_Done in Hstep. repeat case_match; by simplify_eq/=.
  - apply Hsame. repeat case_match; by simplify_eq/=.
  - apply Hsame. repeat case_match; by simplify_eq/=.
  - apply Hsame. by simplify_eq/=.
  - apply Hsame. unfold step_closer, or_panic, setClosed, adapter_Close, close_recvChan in Hstep.
    repeat case_match; simplify_eq/=; try done; by destruct (chan_close _); simplify_eq/=.
  - destruct (st_handling s); [done|]. unfold start_handle in Hstep. destruct (sm_Body msg) eqn:Hb.
    + by apply Hsame; simplify_eq/=.
    + apply Hsame. unfold addPending in Hstep. repeat case_match; by simplify_eq/=.
    + destruct (bool_decide _); [|by apply Hsame; simplify_eq/=]. case_bool_decide; [done|]. injection Hstep as <-. simpl.
      split; [set_solver|]. intros id [->%elem_of_singleton|?]%elem_of_union; [right; by exists msg|by left].
    + apply Hsame. unfold setClosed in Hstep. repeat case_match; by simplify_eq/=.
  - apply Hsame. unfold step_handling, Recv, or_panic, pending_Done, adapter_Close, close_recvChan in Hstep.
    repeat case_match; simplify_eq/=; try done; by destruct (chan_close _); simplify_eq/=.
  - apply Hsame. repeat case_match; by simplify_eq/=.
  - apply Hsame. by simplify_eq/=.
  - apply Hsame. by simplify_eq/=.
Qed.

(** ** Examples *)

Definition ack_of (id : string) : StreamMsg := MkStreamMsg "STR_1" id 0 Second Stream_Ack.

(** A message sent and acknowledged, then the stream closed by this end. *)
Definition send_and_close `{GrpcApi} `{!StatusApi} `{!Codec} (m : message) : list label :=
  [LSend "REQ_1" m; LSender 0 None; LSender 0 None; LHandle (ack_of "REQ_1"); LAckTaken 0;
   LSender 0 None; LClose None; LCloser 0; LCloser 0; LCloser 0; LCloser 0; LCloser 0; LCloser 0].

(** A message sent by a stream whose context then ends. *)
Definition send_and_cancel `{GrpcApi} `{!StatusApi} `{!Codec} (m : message) : list label :=
  [LSend "REQ_1" m; LSender 0 None; LSender 0 None; LParentDone; LCtxDone 0; LSender 0 None].

Lemma send_and_close_runs `{GrpcApi} `{!StatusApi} `{!Codec} (m : message) (raw : bytes) (Hm : SerializePayload m = Ok raw) : ∃ s,
  run (send_and_close m) (NewStream ∅ 4 "T") = Some s ∧
  chan_closed (b_recvChan (st_base s)) = true ∧ st_senders s !! 0%nat = Some (SReturned "REQ_1" None).
Proof. eexists. cbn [send_and_close run step]. unfold start_send. rewrite Hm. split; [vm_compute; reflexivity|done]. Qed.

(** ** Properties *)

(** C5: a stream never panics, whatever its goroutines do and in whatever order: no send
    on the closed receive channel, no second close of it, of an acknowledgement or of
    the adapter, no negative wait group.  Its error is set exactly when it is closed,
    and its channel is closed only then. *)
Theorem stream_never_panics `{GrpcApi} `{!StatusApi} `{!Codec} (acks : gset string) (size : nat)
    (ty : string) (ls : list label) (l : label) (s : st)
    (Hfresh : NoDup (send_ids (ls ++ [l]))) (Hnew : ∀ id, id ∈ send_ids (ls ++ [l]) → id ∉ acks)
    (Hrun : run ls (NewStream acks size ty) = Some s) :
  step l s ≠ Panic ∧
  (b_closed (st_base s) = true ↔ is_Some (Err (st_base s))) ∧
  (chan_closed (b_recvChan (st_base s)) = true → b_closed (st_base s) = true).
Proof.
  rewrite send_ids_app in Hfresh, Hnew.
  destruct (run_inv acks ls _ s (NewStream_inv acks size ty)) as [Hinv Hids]; try done.
  - simpl. by apply NoDup_app in Hfresh as [? _].
  - intros id Hid. apply Hnew. set_solver.
  - assert (Hok : step_ok acks (step l s)).
    { apply step_inv; [done|]. intros id Hid. split; [|apply Hnew; set_solver].
      rewrite Hids. simpl. apply NoDup_app in Hfresh as (_ & Hd & _). intros Hin. by apply (Hd id Hin). }
    split_and!; [by intros Heq; rewrite Heq in Hok|apply Hinv|].
    intros Hc. destruct (b_closed (st_base s)) eqn:Hcl; [done|].
    destruct (iv_open acks s Hinv Hcl) as [_ Ho]. unfold recv_closed in Ho. congruence.
Qed.

(** A [Send] that returns no error was acknowledged: on a stream whose parent context
    does not end, an acknowledgement with its request ID was handled. *)
Theorem send_acknowledged `{GrpcApi} `{!StatusApi} `{!Codec} (acks : gset string) (size : nat)
    (ty : string) (ls : list label) (s : st) (n : nat) (id : string)
    (Hfresh : NoDup (send_ids ls)) (Hnew : ∀ id, id ∈ send_ids ls → id ∉ acks)
    (Hparent : LParentDone ∉ ls)
    (Hrun : run ls (NewStream acks size ty) = Some s)
    (Hsent : st_senders s !! n = Some (SReturned id None)) :
  ∃ msg, LHandle msg ∈ ls ∧ sm_Body msg = Stream_Ack ∧ sm_RequestId msg = id.
Proof.
  destruct (run_acks acks ls s Hfresh Hnew Hparent size ty Hrun) as [A1 A2 A3].
  apply A1. by eapply A2.
Qed.

(** When the context a stream was opened with ends, a [Send] that waits can return no
    error though nothing was acknowledged: it may find the stream canceled before the
    goroutine that closes it has set the stream's error. *)
Theorem send_unacknowledged `{GrpcApi} `{!StatusApi} `{!Codec} (size : nat) (ty : string) (m : message) (raw : bytes) :
  SerializePayload m = Ok raw →
  ∃ s, run (send_and_cancel m) (NewStream ∅ size ty) = Some s ∧
    st_senders s !! 0%nat = Some (SReturned "REQ_1" None) ∧ Err (st_base s) = None ∧
    ∀ msg, LHandle msg ∉ send_and_cancel m.
Proof.
  intros Hm. eexists. split; [cbn [send_and_cancel run step]; unfold start_send; rewrite Hm; reflexivity|].
  split; [reflexivity|]. split; [reflexivity|].
  intros msg Hin. unfold send_and_cancel in Hin.
  repeat (apply elem_of_cons in Hin as [Hin|Hin]; [discriminate Hin|]). by apply elem_of_nil in Hin.
Qed.

Section stream_witnesses.
#[local] Existing Instances grpc_numbers example_status.
#[local] Existing Instance Bus.Example.codec.

Definition a_message : message := ("T", bytes_of "x").

Lemma stream_never_panics_witness : ∃ s, run (send_and_close a_message) (NewStream ∅ 4 "T") = Some s ∧
  chan_closed (b_recvChan (st_base s)) = true ∧ step (LHandle (ack_of "REQ_1")) s ≠ Panic.
Proof.
  destruct (send_and_close_runs a_message _ eq_refl) as (s & Hrun & Hc & _). exists s. split; [exact Hrun|]. split; [exact Hc|].
  refine (proj1 (stream_never_panics ∅ 4 "T" (send_and_close a_message) (LHandle (ack_of "REQ_1")) s _ _ Hrun)).
  - apply NoDup_singleton.
  - intros id _. apply not_elem_of_empty.
Defined.

Lemma send_acknowledged_witness :
  ∃ msg, LHandle msg ∈ send_and_close a_message ∧ sm_Body msg = Stream_Ack ∧ sm_RequestId msg = "REQ_1".
Proof.
  destruct (send_and_close_runs a_message _ eq_refl) as (s & Hrun & _ & Hs).
  refine (send_acknowledged ∅ 4 "T" (send_and_close a_message) s 0 "REQ_1" _ _ _ Hrun Hs).
  - apply NoDup_singleton.
  - intros id _. apply not_elem_of_empty.
  - intros Hin. unfold send_and_close in Hin.
    repeat (apply elem_of_cons in Hin as [Hin|Hin]; [discriminate Hin|]). by apply elem_of_nil in Hin.
Defined.
End stream_witnesses.
