(* ===== verification/StreamOpen.v ===== *)
(** * StreamOpen.v: opening a stream ([OpenStream] of [src/pkg/client/stream.go],
    [handleOpenRequest] and [claimRequest] of [src/pkg/server/stream.go])

    The client's side is a machine fed with what its [select]s take; the server's is a
    function of what it meets, which returns what it does in order.  The stream that
    each end makes is [StreamCore]'s; closing it is an act here.  Put together, they
    show that a claimed stream is opened by one server. *)
From S2P Require Import Prelude Errors Bus Info Metadata Interceptors Float32 Options Messages Selection ClientRPC ServerRPC StreamCore.

Section client_open.
Context `{GrpcApi} `{!StatusApi} `{!Codec} {T : carried} (itoa : Z → string).

(** The message that asks for a stream.  A nil map and an empty one are the same on the
    wire. *)
Definition open_message (c : RPCClient T) (o : RequestOpts T) (cx : ctx) (now : Z) (streamID requestID : string) : StreamMsg :=
  MkStreamMsg streamID requestID (int64 now) (int64 (now + ro_Timeout o))
    (Stream_Open (sd_ID (c_sd c)) (default ∅ (ctx_Outgoing cx))).

(** An [OpenStream] under way. *)
Record opening : Type := MkOpening {
  op_info : RequestInfo;
  op_opts : RequestOpts T;
  op_requestID : string;
  op_streamID : string
}.

(** [OpenStream] up to its publication: [None] is the panic for a method there is not. *)
Definition OpenStream_prepare (c : RPCClient T) (closed : bool) (rpc : string) (topic : list string) (cx : ctx)
    (now0 now : Z) (streamID requestID : string) (opts : list (RequestOption T))
    : option (result error (opening * (Channel * StreamMsg))) :=
  if closed then Some (Prelude.Err ErrClientClosed)
  else
    i ← GetInfo (c_sd c) rpc topic;
    let o := getRequestOpts (ctx_Deadline cx) now0 i (c_Opts c) opts in
    Some (Ok (MkOpening i o requestID streamID,
              (GetStreamServerChannel i, open_message c o cx now streamID requestID))).

(** Where it is after that: in [selectServerUntil], waiting for the acknowledgement, or
    returned, with the stream or an error. *)
Inductive opc : Type :=
| OSelect (v : vars)
| OAck
| OReturned (err : option error).

(** What its [select]s take. *)
Inductive open_event : Type :=
| OSel (ev : event)
| OAcked
| OCtxDone (err : std_error)
| OClosed.

(** What it does: publishing its decision, and closing the stream. *)
Inductive open_act : Type :=
| OGrant (claim : ClaimResponse)
| OCloseStream (cause : error).

(** A failure closes the stream with [cause] and returns [err]. *)
Definition open_fails (cause err : error) : opc * list open_act := (OReturned (Some err), [OCloseStream cause]).

(** After the publication; [pubErr] is what the bus answered. *)
Definition open_published (k : opening) (now : Z) (pubErr : option error) : opc * list open_act :=
  match pubErr with
  | Some e => open_fails e (newError Internal e)
  | None =>
      (if ri_RequireClaim (op_info k) then OSelect (init (ro_SelectionOpts (op_opts k)) now) else OAck, [])
  end.

Definition open_selected (k : opening) (sel : selection) (selErr pubErr : option error) : opc * list open_act :=
  match selErr with
  | Some e => open_fails e e
  | None =>
      let claim := MkClaimResponse (op_requestID k) (sel_serverID sel) in
      match pubErr with
      | Some e => let '(p, acts) := open_fails e (newError Internal e) in (p, OGrant claim :: acts)
      | None => (OAck, [OGrant claim])
      end
  end.

(** [selectServerUntil] is given no responses. *)
Definition open_step (k : opening) (now : Z) (ev : open_event) (pubErr : option error) (p : opc) : opc * list open_act :=
  match p, ev with
  | OSelect v, OSel (EvResponse _) => (p, [])
  | OSelect v, OSel ev =>
      match turn_of itoa (ro_SelectionOpts (op_opts k)) now ev v with
      | Return sel err => open_selected k sel err pubErr
      | Continue v => (OSelect v, [])
      end
  | OAck, OAcked => (OReturned None, [])
  | OAck, OCtxDone e => open_fails (ctx_error e) (ctx_error e)
  | OAck, OClosed => open_fails ErrClientClosed ErrClientClosed
  | _, _ => (p, [])
  end.

Fixpoint open_loop (k : opening) (evs : list (Z * open_event * option error)) (p : opc) : opc * list open_act :=
  match evs with
  | [] => (p, [])
  | (now, ev, pubErr) :: evs =>
      let '(p, acts) := open_step k now ev pubErr p in
      let '(p, acts') := open_loop k evs p in
      (p, acts ++ acts')
  end.

(** [OpenStream] from its publication on. *)
Definition OpenStream_run (k : opening) (now : Z) (pubErr : option error) (evs : list (Z * open_event * option error))
    : opc * list open_act :=
  let '(p, acts) := open_published k now pubErr in
  let '(p, acts') := open_loop k evs p in
  (p, acts ++ acts').

(** The stream it makes: the acknowledgement of the request is expected. *)
Definition client_stream (c : RPCClient T) (requestID recvType : string) : st :=
  NewStream {[requestID]} (Z.to_nat (co_ChannelSize (c_Opts c))) recvType.

(** The decisions published, and the closing of the stream. *)
Definition grants (acts : list open_act) : list ClaimResponse :=
  omap (λ a, match a with OGrant claim => Some claim | _ => None end) acts.

Definition closings (acts : list open_act) : list error :=
  omap (λ a, match a with OCloseStream cause => Some cause | _ => None end) acts.

Definition open_bidders (evs : list (Z * open_event * option error)) : list string :=
  omap (λ e, match e.1.2 with OSel (EvClaim c) => Some (cq_ServerId c) | _ => None end) evs.
End client_open.

Section server_open.
Context `{GrpcApi} `{!StatusApi} `{!Codec}.

(** The fields of a [streamHandler] an opening reads; [None] is a nil affinity function. *)
Record streamHandler : Type := MkStreamHandler {
  sh_i : RequestInfo;
  sh_affinityFunc : option (hctx → float32)
}.

(** What the server does, in order: a bid, the stream made and entered under its ID, the
    acknowledgement, the run of the handler, the closing of the stream. *)
Inductive sact : Type :=
| SBid (ch : Channel) (bid : ClaimRequest)
| SOpen (streamID : string)
| SAck (ch : Channel) (ack : StreamMsg)
| SHandle
| SClose (cause : option error).

(** The context with the caller's header and the deadline of the opening. *)
Definition octx_of (im : StreamMsg) (nodeID : string) (md : gmap string string) : hctx :=
  MkHCtx (NewContextWithIncomingHeader background
            (MkHeader nodeID (sm_SentAt im) (if decide (md = ∅) then None else Some md)))
         (sm_Expiry im).

Definition stream_affinity (h : streamHandler) (im : StreamMsg) (nodeID : string) (md : gmap string string) : float32 :=
  match sh_affinityFunc h with Some f => f (octx_of im nodeID md) | None => f32_one end.

(** [claimRequest]: whether the stream is this server's, the error, and the bid. *)
Definition stream_claim (s : server) (h : streamHandler) (im : StreamMsg) (nodeID : string) (md : gmap string string)
    (pubErr : option error) (d : decision) : bool * option error * list sact :=
  if f32_lt (stream_affinity h im nodeID md) f32_zero then (false, None, [])
  else
    let bid := SBid (GetClaimRequestChannel (sv_Name s) nodeID)
                 (MkClaimRequest (sm_RequestId im) (sv_ID s) (stream_affinity h im nodeID md)) in
    match pubErr with
    | Some e => (false, Some e, [bid])
    | None =>
        match d with
        | Decided claim => (bool_decide (cr_ServerId claim = sv_ID s), None, [bid])
        | TimedOut => (false, None, [bid])
        end
    end.

(** [stream.Ack] through the server's adapter. *)
Definition ack_of (s : server) (nodeID : string) (im : StreamMsg) : sact :=
  SAck (GetStreamChannel (sv_Name s) nodeID)
    (MkStreamMsg (sm_StreamId im) (sm_RequestId im) (sm_SentAt im) (sm_Expiry im) Stream_Ack).

(** [handleOpenRequest]: [ackErr] is what the bus answers to the acknowledgement,
    [handlerErr] what the handler returns, [hijacked] whether it took the stream over. *)
Definition handleOpenRequest (s : server) (h : streamHandler) (im : StreamMsg) (nodeID : string) (md : gmap string string)
    (pubErr : option error) (d : decision) (ackErr handlerErr : option error) (hijacked : bool)
    : option error * list sact :=
  let '(claimed, err, acts) :=
    if ri_RequireClaim (sh_i h) then stream_claim s h im nodeID md pubErr d else (true, None, []) in
  if negb claimed then (err, acts)
  else
    let acts := acts ++ [SOpen (sm_StreamId im); ack_of s nodeID im] in
    match newError Internal <$> ackErr with
    | Some e => (Some e, acts ++ [SClose (Some e)])
    | None => (None, acts ++ SHandle :: (if hijacked then [] else [SClose handlerErr]))
    end.

Definition runs_handler (acts : list sact) : bool :=
  existsb (λ a, match a with SHandle => true | _ => false end) acts.

(** *** Lemmas *)

Lemma stream_needs_grant s h im nodeID md pubErr d ackErr handlerErr hijacked :
  runs_handler (handleOpenRequest s h im nodeID md pubErr d ackErr handlerErr hijacked).2 = true →
  ri_RequireClaim (sh_i h) = false ∨ ∃ claim, d = Decided claim ∧ cr_ServerId claim = sv_ID s.
Proof.
  unfold handleOpenRequest, stream_claim. destruct (ri_RequireClaim (sh_i h)); [|by left]. intros Hr. right.
  destruct (f32_lt _ _); [done|]. destruct pubErr; [done|]. destruct d as [claim|]; [|done].
  exists claim. split; [done|]. by destruct (bool_decide_reflect (cr_ServerId claim = sv_ID s)).
Qed.
End server_open.

Section open_lemmas.
Context `{GrpcApi} `{!StatusApi} `{!Codec} {T : carried} (itoa : Z → string).
Implicit Types (k : opening (T := T)) (p : opc) (evs : list (Z * open_event * option error)).

Definition claim_of (ev : event) : list string := match ev with EvClaim c => [cq_ServerId c] | _ => [] end.

(** A selection names a bidder. *)
Lemma turn_known opts now ev v seen :
  SelectionFunc opts = None → v_serverID v = "" ∨ v_serverID v ∈ seen → (∀ res, ev ≠ EvResponse res) →
  match turn_of itoa opts now ev v with
  | Return sel None => sel_serverID sel ∈ seen ++ claim_of ev
  | Return _ (Some _) => True
  | Continue v' => v_serverID v' = "" ∨ v_serverID v' ∈ seen ++ claim_of ev
  end.
Proof.
  intros Hf Hk Hres. destruct ev as [| |c|res]; simpl; [done| | |by destruct (Hres res)].
  - unfold on_done. rewrite Hf. destruct (bool_decide_reflect (v_serverID v = "")) as [|Hne]; simpl.
    + destruct (v_resErr v); [done|]. by destruct (v_claimCount v >? 0).
    + rewrite app_nil_r. by destruct Hk.
  - assert (Hin : cq_ServerId c ∈ seen ++ [cq_ServerId c]) by (apply elem_of_app; right; by apply list_elem_of_singleton).
    assert (Hk' : v_serverID v = "" ∨ v_serverID v ∈ seen ++ [cq_ServerId c])
      by (destruct Hk; [by left|right; apply elem_of_app; by left]).
    unfold on_claim. rewrite Hf. destruct (acceptable opts _); [|done]. destruct (immediate opts _); [done|].
    destruct (f32_gt _ _); simpl; [by right|done].
Qed.

(** What has happened by a point. *)
Definition open_inv k (seen : list string) (acked : bool) p (acts : list open_act) : Prop :=
  let granted := if ri_RequireClaim (op_info k)
    then ∃ server, acts = [OGrant (MkClaimResponse (op_requestID k) server)] ∧ server ∈ seen else acts = [] in
  match p with
  | OSelect v => acts = [] ∧ (v_serverID v = "" ∨ v_serverID v ∈ seen)
  | OAck => granted
  | OReturned None => granted ∧ acked = true
  | OReturned (Some err) => ∃ cause, closings acts = [cause] ∧
      (grants acts = [] ∨ ∃ server, grants acts = [MkClaimResponse (op_requestID k) server] ∧ server ∈ seen)
  end.

Lemma open_inv_mono k seen seen' acked acked' p acts : seen ⊆ seen' → (acked = true → acked' = true) →
  open_inv k seen acked p acts → open_inv k seen' acked' p acts.
Proof. intros Hs Ha. destruct p as [v| |[err|]]; simpl; destruct (ri_RequireClaim (op_info k)); naive_solver. Qed.

Definition is_acked (ev : open_event) : bool := match ev with OAcked => true | _ => false end.

Lemma open_fails_inv k seen acked cause err acts : ri_RequireClaim (op_info k) = true ∨ acts = [] →
  (if ri_RequireClaim (op_info k) then ∃ server, acts = [OGrant (MkClaimResponse (op_requestID k) server)] ∧ server ∈ seen
   else acts = []) ∨ acts = [] →
  open_inv k seen acked (open_fails cause err).1 (acts ++ (open_fails cause err).2).
Proof.
  intros _ [Hg| ->]; simpl; [|exists cause; split; [done|by left]]. destruct (ri_RequireClaim (op_info k)).
  - destruct Hg as (server & -> & Hin). exists cause. split; [done|]. right. by exists server.
  - subst acts. exists cause. split; [done|by left].
Qed.

Lemma open_step_inv k seen acked now ev e p p' acts a :
  SelectionFunc (ro_SelectionOpts (op_opts k)) = None → ri_RequireClaim (op_info k) = true ∨ (∀ v, p ≠ OSelect v) →
  open_inv k seen acked p acts → open_step itoa k now ev e p = (p', a) →
  open_inv k (seen ++ open_bidders [(now, ev, e)]) (acked || is_acked ev) p' (acts ++ a) ∧
  (ri_RequireClaim (op_info k) = true ∨ (∀ v, p' ≠ OSelect v)).
Proof.
  intros Hf Hrc Hi.
  assert (Hsame : open_inv k (seen ++ open_bidders [(now, ev, e)]) (acked || is_acked ev) p (acts ++ []) ∧
    (ri_RequireClaim (op_info k) = true ∨ (∀ v, p ≠ OSelect v))).
  { rewrite app_nil_r. split; [|done]. eapply open_inv_mono; [| |exact Hi]; [apply list_subseteq_app_l; done|by intros ->]. }
  destruct p as [v| |[err|]]; [destruct ev as [ev| |er|]| |by intros [= <- <-]|by intros [= <- <-]]; cbn [open_step]; try (by intros [= <- <-]).
  - destruct Hi as [-> Hk]. assert (ri_RequireClaim (op_info k) = true) as Hr by (destruct Hrc as [?|Hno]; [done|by destruct (Hno v)]).
    assert (Hev : (∃ res, ev = EvResponse res) ∨ ∀ res, ev ≠ EvResponse res) by (destruct ev; eauto; right; done).
    destruct Hev as [[res ->]|Hres]; [by intros [= <- <-]|].
    pose proof (turn_known _ now ev v seen Hf Hk Hres) as Ht.
    assert (Hb : open_bidders [(now, OSel ev, e)] = claim_of ev) by (by destruct ev). rewrite Hb.
    assert (Hstep : (match ev with
      | EvResponse _ => (OSelect v, [])
      | _ => match turn_of itoa (ro_SelectionOpts (op_opts k)) now ev v with
             | Return sel err => open_selected k sel err e | Continue v => (OSelect v, []) end end)
      = match turn_of itoa (ro_SelectionOpts (op_opts k)) now ev v with
             | Return sel err => open_selected k sel err e | Continue v => (OSelect v, []) end)
      by (destruct ev; try done; by destruct (Hres res)).
    destruct (turn_of itoa (ro_SelectionOpts (op_opts k)) now ev v) as [sel [er|]|v'].
    + intros Heq. assert ((p', a) = open_fails er er) as [= -> ->] by (destruct ev; try done; by destruct (Hres res)).
      split; [|by left]. simpl. exists er. split; [done|by left].
    + intros Heq. assert ((p', a) = open_selected k sel None e) as Hpa by (destruct ev; try done; by destruct (Hres res)).
      unfold open_selected in Hpa. destruct e as [pe|]; injection Hpa as -> ->; (split; [|by left]); simpl.
      * exists pe. split; [done|]. right. by eexists.
      * rewrite Hr. by eexists.
    + intros Heq. assert ((p', a) = (OSelect v', [])) as [= -> ->] by (destruct ev; try done; by destruct (Hres res)).
      split; [|by left]. done.
  - assert (Hsub : seen ⊆ seen ++ open_bidders [(now, ev, e)]) by (apply list_subseteq_app_l; done).
    assert (Hg : open_inv k (seen ++ open_bidders [(now, ev, e)]) true OAck acts) by (by eapply open_inv_mono; [|done|exact Hi]).
    destruct ev as [ev| |er|]; cbn [open_step].
    + intros [= <- <-]. rewrite (app_nil_r acts). split; [exact Hg|by right].
    + intros [= <- <-]. rewrite (app_nil_r acts). split; [split; [exact Hg|by apply orb_true_r]|by right].
    + intros [= <- <-]. split; [|by right]. apply (open_fails_inv k _ _ (ctx_error er) (ctx_error er)); simpl in Hg;
        [destruct (ri_RequireClaim (op_info k)); [by left|by right]|by left].
    + intros [= <- <-]. split; [|by right]. apply (open_fails_inv k _ _ ErrClientClosed ErrClientClosed); simpl in Hg;
        [destruct (ri_RequireClaim (op_info k)); [by left|by right]|by left].
Qed.

Lemma open_loop_inv k evs seen acked p p' acts a :
  SelectionFunc (ro_SelectionOpts (op_opts k)) = None → ri_RequireClaim (op_info k) = true ∨ (∀ v, p ≠ OSelect v) →
  open_inv k seen acked p acts → open_loop itoa k evs p = (p', a) →
  open_inv k (seen ++ open_bidders evs) (acked || existsb (λ x, is_acked x.1.2) evs) p' (acts ++ a).
Proof.
  intros Hf. revert seen acked p acts a. induction evs as [|[[now ev] e] evs IH]; intros seen acked p acts a Hrc Hi; cbn [open_loop existsb].
  - intros [= <- <-]. unfold open_bidders. simpl. by rewrite orb_false_r, !app_nil_r.
  - destruct (open_step itoa k now ev e p) as [p1 a1] eqn:Hs. destruct (open_loop itoa k evs p1) as [p2 a2] eqn:Hl.
    intros [= <- <-]. destruct (open_step_inv k seen acked now ev e p p1 acts a1 Hf Hrc Hi Hs) as [Hi1 Hrc1].
    specialize (IH _ _ p1 _ a2 Hrc1 Hi1 Hl). rewrite <- !(assoc_L (++)) in IH. rewrite <- orb_assoc in IH.
    assert (Hb : open_bidders ((now, ev, e) :: evs) = open_bidders [(now, ev, e)] ++ open_bidders evs).
    { change ((now, ev, e) :: evs) with ([(now, ev, e)] ++ evs). unfold open_bidders. apply omap_app. }
    rewrite Hb. exact IH.
Qed.

Lemma open_run_inv k now pubErr evs p acts :
  SelectionFunc (ro_SelectionOpts (op_opts k)) = None → OpenStream_run itoa k now pubErr evs = (p, acts) →
  open_inv k (open_bidders evs) (existsb (λ x, is_acked x.1.2) evs) p acts.
Proof.
  intros Hf. unfold OpenStream_run. destruct (open_published k now pubErr) as [p0 a0] eqn:Hp.
  destruct (open_loop itoa k evs p0) as [p1 a1] eqn:Hl. intros [= <- <-].
  assert (open_inv k [] false p0 a0 ∧ (ri_RequireClaim (op_info k) = true ∨ (∀ v, p0 ≠ OSelect v))) as [Hi Hrc].
  { unfold open_published in Hp. destruct pubErr as [e|].
    - injection Hp as <- <-. split; [|by right]. exists e. split; [done|by left].
    - destruct (ri_RequireClaim (op_info k)) eqn:Hr; injection Hp as <- <-; simpl; rewrite ?Hr; split; auto. }
  exact (open_loop_inv k evs [] false p0 p1 a0 a1 Hf Hrc Hi Hl).
Qed.

Lemma open_inv_grants k seen acked p acts : open_inv k seen acked p acts →
  grants acts = [] ∨ ∃ server, grants acts = [MkClaimResponse (op_requestID k) server] ∧ server ∈ seen.
Proof.
  destruct p as [v| |[err|]]; simpl; [intros [-> _]; by left| |by intros (cause & _ & Hg)|intros [Hi _]; revert Hi];
    destruct (ri_RequireClaim (op_info k)); (intros (server & -> & Hin) || intros ->); [right; by exists server|by left|right; by exists server|by left].
Qed.
End open_lemmas.

(** ** Properties *)

(** C35: opening a stream ends in one of two ways.  It returns the stream only when the
    request was acknowledged, and then it has closed nothing, and, if the method needs a
    claim, has published one decision; or it returns an error and has closed the stream
    exactly once.  It never decides for more than one server, nor for one that did not
    bid. *)
Theorem open_stream_outcome `{GrpcApi} `{!StatusApi} `{!Codec} {T : carried} (itoa : Z → string)
    (k : opening (T := T)) (now : Z) (pubErr : option error) (evs : list (Z * open_event * option error))
    (p : opc) (acts : list open_act)
    (Hfunc : SelectionFunc (ro_SelectionOpts (op_opts k)) = None)
    (Hrun : OpenStream_run itoa k now pubErr evs = (p, acts)) :
  (p = OReturned None → closings acts = [] ∧ (∃ t e, (t, OAcked, e) ∈ evs) ∧
     (ri_RequireClaim (op_info k) = true → grants acts ≠ [])) ∧
  (∀ err, p = OReturned (Some err) → ∃ cause, closings acts = [cause]) ∧
  (grants acts = [] ∨ ∃ server, grants acts = [MkClaimResponse (op_requestID k) server] ∧ server ∈ open_bidders evs).
Proof.
  pose proof (open_run_inv itoa k now pubErr evs p acts Hfunc Hrun) as Hi. split_and!.
  - intros ->. simpl in Hi. destruct Hi as [Hg Ha].
    assert (Hack : ∃ t e, (t, OAcked, e) ∈ evs).
    { apply existsb_exists in Ha as ([[t ev] e] & Hin & Hev). destruct ev; try done. exists t, e. by apply list_elem_of_In. }
    destruct (ri_RequireClaim (op_info k)); [destruct Hg as (server & -> & _)|rewrite Hg]; done.
  - intros err ->. destruct Hi as (cause & Hc & _). by exists cause.
  - by eapply open_inv_grants.
Qed.

(** C8: at most one server opens a claimed stream: of any servers that received the
    request, whatever they and the client met and whatever was lost or late, two that
    ran the handler bear the same ID, and that server had bid. *)
Theorem one_server_opens `{GrpcApi} `{!StatusApi} `{!Codec} {T : carried} (itoa : Z → string)
    (k : opening (T := T)) (now : Z) (pubErr : option error) (evs : list (Z * open_event * option error))
    (p : opc) (acts : list open_act) (im : StreamMsg) (nodeID : string) (md : gmap string string)
    (s1 s2 : server) (h1 h2 : streamHandler) (d1 d2 : decision)
    (pubErr1 ackErr1 herr1 pubErr2 ackErr2 herr2 : option error) (hij1 hij2 : bool)
    (Hfunc : SelectionFunc (ro_SelectionOpts (op_opts k)) = None)
    (Hrun : OpenStream_run itoa k now pubErr evs = (p, acts))
    (Hclaim : ri_RequireClaim (sh_i h1) = true ∧ ri_RequireClaim (sh_i h2) = true)
    (Hdec : ∀ claim, d1 = Decided claim ∨ d2 = Decided claim → claim ∈ grants acts) :
  runs_handler (handleOpenRequest s1 h1 im nodeID md pubErr1 d1 ackErr1 herr1 hij1).2 = true →
  runs_handler (handleOpenRequest s2 h2 im nodeID md pubErr2 d2 ackErr2 herr2 hij2).2 = true →
  sv_ID s1 = sv_ID s2 ∧ sv_ID s1 ∈ open_bidders evs.
Proof.
  destruct Hclaim as [Hc1 Hc2].
  intros [?|(c1 & Hd1 & Hid1)]%stream_needs_grant [?|(c2 & Hd2 & Hid2)]%stream_needs_grant; [congruence..|].
  pose proof (Hdec c1 (or_introl Hd1)) as Hin1. pose proof (Hdec c2 (or_intror Hd2)) as Hin2.
  pose proof (open_run_inv itoa k now pubErr evs p acts Hfunc Hrun) as Hi.
  destruct (open_inv_grants k _ _ p acts Hi) as [Hnil|(server & Hg & Hb)].
  - rewrite Hnil in Hin1. by apply elem_of_nil in Hin1.
  - rewrite Hg in Hin1, Hin2. apply list_elem_of_singleton in Hin1 as ->, Hin2 as ->. simpl in *. by subst.
Qed.

(** A server runs a stream's handler exactly when it may: the method needs no claim,
    or the server did not decline, its bid went out and the decision named it; and the
    acknowledgement went out.  The stream is entered before it is acknowledged, it is
    acknowledged on the caller's channel before the handler runs, and it is closed after
    it, unless the handler took it over; a stream whose acknowledgement fails is closed
    without the handler having run. *)
Theorem stream_handler_runs_iff `{GrpcApi} (s : server) (h : streamHandler) (im : StreamMsg)
    (nodeID : string) (md : gmap string string) (pubErr : option error) (d : decision) (ackErr handlerErr : option error)
    (hijacked : bool) :
  let claimed := ri_RequireClaim (sh_i h) = true →
    f32_lt (stream_affinity h im nodeID md) f32_zero = false ∧ pubErr = None ∧
    ∃ claim, d = Decided claim ∧ cr_ServerId claim = sv_ID s in
  let r := handleOpenRequest s h im nodeID md pubErr d ackErr handlerErr hijacked in
  (runs_handler r.2 = true ↔ claimed ∧ ackErr = None) ∧
  (claimed → ∃ bids, runs_handler bids = false ∧
     r.2 = bids ++ [SOpen (sm_StreamId im); ack_of s nodeID im] ++
       match ackErr with
       | Some e => [SClose (Some (newError Internal e))]
       | None => SHandle :: (if hijacked then [] else [SClose handlerErr])
       end).
Proof.
  cbn zeta. unfold handleOpenRequest, stream_claim.
  destruct (ri_RequireClaim (sh_i h)) eqn:Hr.
  2:{ simpl. split; [|intros _; exists []; split; [done|by destruct ackErr]].
      destruct ackErr; simpl; split; try done. by intros [_ ?]. }
  destruct (f32_lt _ _) eqn:Haff; simpl.
  { split; [split; [done|]|]; [intros [Hc _]; by destruct (Hc eq_refl)|]. intros Hc. by destruct (Hc eq_refl). }
  destruct pubErr as [pe|]; simpl.
  { split; [split; [done|]|]; [intros [Hc _]; by destruct (Hc eq_refl) as (_ & ? & _)|]. intros Hc. by destruct (Hc eq_refl) as (_ & ? & _). }
  destruct d as [claim|]; simpl.
  2:{ split; [split; [done|]|]; [intros [Hc _]|intros Hc]; by destruct (Hc eq_refl) as (_ & _ & ? & ? & _). }
  destruct (bool_decide_reflect (cr_ServerId claim = sv_ID s)) as [Hid|Hid]; simpl.
  - split; [|intros _; eexists [_]; split; [|by destruct ackErr]; done].
    destruct ackErr; simpl; [split; [done|by intros [_ ?]]|]. split; [|done]. intros _. split; [|done].
    intros _. split_and!; [done..|]. by exists claim.
  - split; [split; [done|]|]; [intros [Hc _]|intros Hc]; by destruct (Hc eq_refl) as (_ & _ & c & [= <-] & ?).
Qed.

(** C33: a stream that meets no obstacle opens: from the message the client publishes, on
    the channel the servers of the method listen on, a server whose bid is taken at once
    bids on the caller's channel, is decided for, enters the stream, acknowledges it on
    the caller's stream channel and runs its handler; and that acknowledgement, handled
    by the caller's stream, is what [OpenStream] waits for. *)
Theorem stream_open_end_to_end `{GrpcApi} `{!StatusApi} `{!Codec} {T : carried} (itoa : Z → string)
    (c : RPCClient T) (rpc : string) (topic : list string) (cx : ctx) (now0 now t1 t2 : Z)
    (streamID requestID recvType : string) (opts : list (RequestOption T)) (k : opening) (ch : Channel) (im : StreamMsg)
    (s : server) (h : streamHandler) (v : vars) (handlerErr : option error)
    (Hprep : OpenStream_prepare c false rpc topic cx now0 now streamID requestID opts = Some (Ok (k, (ch, im))))
    (Hname : sv_Name s = sd_Name (c_sd c)) (Hi : GetInfo (c_sd c) rpc topic = Some (sh_i h))
    (Hclaim : ri_RequireClaim (sh_i h) = true)
    (Hdeclines : f32_lt (stream_affinity h im (sd_ID (c_sd c)) (default ∅ (ctx_Outgoing cx))) f32_zero = false)
    (Hacc : acceptable (ro_SelectionOpts (op_opts k)) (stream_affinity h im (sd_ID (c_sd c)) (default ∅ (ctx_Outgoing cx))) = true)
    (Himm : immediate (ro_SelectionOpts (op_opts k)) (stream_affinity h im (sd_ID (c_sd c)) (default ∅ (ctx_Outgoing cx))) = true) :
  let nodeID := sd_ID (c_sd c) in
  let md := default ∅ (ctx_Outgoing cx) in
  let bid := MkClaimRequest requestID (sv_ID s) (stream_affinity h im nodeID md) in
  let claim := MkClaimResponse requestID (sv_ID s) in
  let ack := MkStreamMsg streamID requestID (sm_SentAt im) (sm_Expiry im) Stream_Ack in
  sm_Body im = Stream_Open nodeID md ∧ ch = GetStreamServerChannel (sh_i h) ∧
  handleOpenRequest s h im nodeID md None (Decided claim) None handlerErr false
    = (None, [SBid (GetClaimRequestChannel (sd_Name (c_sd c)) nodeID) bid; SOpen streamID;
              SAck (GetStreamChannel (sd_Name (c_sd c)) nodeID) ack; SHandle; SClose handlerErr]) ∧
  open_step itoa k t1 (OSel (EvClaim bid)) None (OSelect v) = (OAck, [OGrant claim]) ∧
  (∃ st, step (LHandle ack) (client_stream c requestID recvType) = Next st ∧ requestID ∈ b_acked (st_base st)) ∧
  open_step itoa k t2 OAcked None OAck = (OReturned None, []).
Proof.
  unfold OpenStream_prepare in Hprep. rewrite Hi in Hprep. cbn in Hprep. injection Hprep as <- <- <-.
  cbn zeta. split_and!; [done|done| | | |done].
  - unfold handleOpenRequest, stream_claim. rewrite Hclaim, Hdeclines. simpl.
    rewrite bool_decide_eq_true_2 by done. simpl. unfold ack_of. simpl. by rewrite Hname.
  - cbn [open_step turn_of]. unfold on_claim. cbn [cq_Affinity op_opts] in *. rewrite Hacc, Himm. simpl. done.
  - eexists. split.
    + simpl. unfold start_handle. simpl. rewrite bool_decide_eq_true_2 by set_solver.
      rewrite bool_decide_eq_false_2 by set_solver. reflexivity.
    + simpl. set_solver.
Qed.

Section open_witnesses.
#[local] Existing Instances grpc_numbers example_status.
#[local] Existing Instance Bus.Example.codec.

Definition stream_client : RPCClient no_carried :=
  NewRPCClientWithStreams (MkServiceDefinition "svc" "CLI_1" {["m" := MkMethodInfo false false true false]}) false [].

Definition stream_info : RequestInfo := MkRequestInfo (MkRPCInfo "svc" "m" [] false) false true false.

Definition example_opening : opening (T := no_carried) :=
  MkOpening stream_info (getRequestOpts None 0 stream_info (c_Opts stream_client) []) "REQ_1" "STR_1".

Definition open_events : list (Z * open_event * option error) :=
  [(1, OSel (EvClaim (MkClaimRequest "REQ_1" "SRV_a" f32_one)), None); (2, OAcked, None)].

Lemma open_stream_outcome_witness :
  OpenStream_run (λ _, "") example_opening 0 None open_events
    = (OReturned None, [OGrant (MkClaimResponse "REQ_1" "SRV_a")]) ∧
  ∃ t e, (t, OAcked, e) ∈ open_events.
Proof.
  assert (OpenStream_run (λ _, "") example_opening 0 None open_events
    = (OReturned None, [OGrant (MkClaimResponse "REQ_1" "SRV_a")])) as Hr by reflexivity.
  split; [exact Hr|].
  exact (proj1 (proj2 (proj1 (open_stream_outcome (λ _, "") example_opening 0 None open_events _ _ eq_refl Hr) eq_refl))).
Defined.

Definition open_im : StreamMsg := MkStreamMsg "STR_1" "REQ_1" 0 Second (Stream_Open "CLI_1" ∅).

Definition open_handler : streamHandler := MkStreamHandler stream_info None.

Lemma one_server_opens_witness :
  let open id := handleOpenRequest (MkServer "svc" id) open_handler open_im "CLI_1" ∅ None
                   (Decided (MkClaimResponse "REQ_1" "SRV_a")) None None false in
  runs_handler (open "SRV_a").2 = true ∧ runs_handler (open "SRV_b").2 = false ∧
  "SRV_a" ∈ open_bidders open_events.
Proof.
  intros open. split; [reflexivity|]. split; [reflexivity|].
  refine (proj2 (one_server_opens (λ _, "") example_opening 0 None open_events (OReturned None)
    [OGrant (MkClaimResponse "REQ_1" "SRV_a")] open_im "CLI_1" ∅ (MkServer "svc" "SRV_a") (MkServer "svc" "SRV_a")
    open_handler open_handler (Decided (MkClaimResponse "REQ_1" "SRV_a")) (Decided (MkClaimResponse "REQ_1" "SRV_a"))
    None None None None None None false false _ _ _ _ _ _)); try reflexivity.
  - split; reflexivity.
  - intros claim [[= <-]|[= <-]]; apply list_elem_of_singleton; reflexivity.
Defined.

Lemma stream_open_end_to_end_witness : ∃ k ch im,
  OpenStream_prepare stream_client false "m" [] (MkCallerCtx None None) 0 0 "STR_1" "REQ_1" [] = Some (Ok (k, (ch, im))) ∧
  ch = GetStreamServerChannel stream_info ∧
  open_step (λ _, "") k 1 (OSel (EvClaim (MkClaimRequest "REQ_1" "SRV_a" f32_one))) None
    (OSelect (init zero_SelectionOpts 0)) = (OAck, [OGrant (MkClaimResponse "REQ_1" "SRV_a")]).
Proof.
  pose proof (λ k ch im Hp, stream_open_end_to_end (λ _, "") stream_client "m" [] (MkCallerCtx None None) 0 0 1 2
    "STR_1" "REQ_1" "T" [] k ch im (MkServer "svc" "SRV_a") open_handler (init zero_SelectionOpts 0) None Hp
    eq_refl eq_refl eq_refl) as H.
  destruct (H _ _ _ eq_refl eq_refl eq_refl eq_refl) as (_ & Hch & _ & Hstep & _).
  eexists _, _, _. split; [reflexivity|]. split; [exact Hch|exact Hstep].
Defined.
End open_witnesses.
