(* ===== verification/ServerStream.v ===== *)
(** * ServerStream.v: the streams of a server ([src/pkg/server/stream.go])

    [run]'s loop, the goroutines that open streams ([handleOpenRequest]), the streams
    they made with the table they are entered in, and [close], in all their
    interleavings.  A stream is [StreamCore]'s: its steps are steps here, and closing it
    takes it out of the table.  What the goroutine of an opening does is what
    [StreamOpen] has as one function.

    As in [ServerRun], the subscriptions are their channels: what the bus delivers is
    sent on them, and closing one closes its channel. *)
From S2P Require Import Prelude Errors Bus Info Metadata Interceptors Float32 Options Messages ServerRPC StreamCore StreamOpen.

Section server_stream.
Context `{GrpcApi} `{!StatusApi} `{!Codec}.
Context (s : server) (h : streamHandler) (recvType : string) (size : nat).

(** ** An opening's goroutine *)

(** Where it is: before the affinity, about to publish its bid with its channel in
    [h.claims], in the [select], about to leave [h.claims], about to make the stream,
    about to acknowledge, in the handler, in the stream's [Close] (the stream's closer
    [c]), or over. *)
Inductive task : Type :=
| TStarted
| TBidding
| TWaiting
| TLeaving (granted : bool)
| TMaking
| TAcking
| TCalling
| TClosing (c : nat)
| TOver.

(** A goroutine, with the message that opens the stream, the channel [claimRequest]
    makes, and the stream it made. *)
Record opener : Type := MkOpener {
  o_msg : StreamMsg;
  o_nodeID : string;
  o_metadata : gmap string string;
  o_task : task;
  o_claims : chan ClaimResponse;
  o_stream : option st
}.

(** What a step of it takes from outside: the bus's answer, what its [select] takes,
    and what the handler returns. *)
Record input : Type := MkInput {
  in_pubErr : option error;
  in_decision : decision;
  in_handlerErr : option error
}.

(** The loop: at its [select], in the send on a claim channel, about to call the
    [HandleStream] of the stream it found, in it, or returned. *)
Inductive loop : Type :=
| LoopSelect
| LoopSend (n : nat) (claim : ClaimResponse)
| LoopFound (n : nat) (msg : StreamMsg)
| LoopHandling (n : nat)
| LoopReturned.

(** [close], run once: before each of its statements.  [KWait] names the goroutines it
    started, each by its stream and its place there. *)
Inductive closing : Type :=
| KDraining
| KSnapshot
| KWait (ws : list (nat * nat))
| KStreamSub
| KClaimSub
| KCompleted
| KComplete
| KReturned.

(** [x_requestsNil] and [x_claimsNil]: the loop's variables are nil.  [x_completed]
    counts the calls of [onCompleted], [x_acts] is what the openings did, [x_snapshot]
    the streams [close] found. *)
Record sys : Type := MkSys {
  x_requests : chan StreamMsg;
  x_claimSub : chan ClaimResponse;
  x_requestsNil : bool;
  x_claimsNil : bool;
  x_loop : loop;
  x_streams : gmap string nat;
  x_claims : gmap string nat;
  x_openers : list opener;
  x_draining : bool;
  x_complete : bool;
  x_closing : option closing;
  x_completed : nat;
  x_acts : list (nat * sact);
  x_snapshot : list nat
}.

(** A handler [run] was just called on; without claims the channel is nil
    ([EmptySubscription]). *)
Definition start : sys :=
  MkSys (make_chan size) (make_chan size) false (negb (ri_RequireClaim (sh_i h))) LoopSelect
    ∅ ∅ [] false false None 0 [] [].

(** The subscriptions [newStreamRPCHandler] makes and closes. *)
Inductive sub_act : Type :=
| SubOpen (ch : Channel)
| SubClose (ch : Channel).

(** [newStreamRPCHandler]; [streamErr] and [claimErr] are what the bus answers. *)
Definition newStreamRPCHandler (streamErr claimErr : option error) : list sub_act * result error sys :=
  let streams := GetStreamServerChannel (sh_i h) in
  match streamErr with
  | Some e => ([], Prelude.Err e)
  | None =>
      if ri_RequireClaim (sh_i h) then
        match claimErr with
        | Some e => ([SubOpen streams; SubClose streams], Prelude.Err e)
        | None => ([SubOpen streams; SubOpen (GetClaimResponseChannel (sh_i h))], Ok start)
        end
      else ([SubOpen streams], Ok start)
  end.

Definition opened (acts : list sub_act) : list Channel :=
  omap (λ a, match a with SubOpen ch => Some ch | SubClose _ => None end) acts.
Definition closed (acts : list sub_act) : list Channel :=
  omap (λ a, match a with SubClose ch => Some ch | SubOpen _ => None end) acts.

(** A handler that is not made leaves no subscription. *)
Lemma newStreamRPCHandler_error streamErr claimErr acts e :
  newStreamRPCHandler streamErr claimErr = (acts, Prelude.Err e) →
  opened acts = closed acts ∧ (streamErr = Some e ∨ claimErr = Some e).
Proof.
  unfold newStreamRPCHandler. destruct streamErr as [e1|]; [intros [= <- <-]; auto|].
  destruct (ri_RequireClaim _); [|done]. destruct claimErr as [e2|]; [intros [= <- <-]; auto|done].
Qed.

Inductive outcome : Type :=
| Next (x : sys)
| Blocked
| Panic.

Definition set_loop (x : sys) (l : loop) : sys :=
  MkSys (x_requests x) (x_claimSub x) (x_requestsNil x) (x_claimsNil x) l (x_streams x) (x_claims x)
    (x_openers x) (x_draining x) (x_complete x) (x_closing x) (x_completed x) (x_acts x) (x_snapshot x).

Definition set_requests (x : sys) (c : chan StreamMsg) (isNil : bool) : sys :=
  MkSys c (x_claimSub x) isNil (x_claimsNil x) (x_loop x) (x_streams x) (x_claims x)
    (x_openers x) (x_draining x) (x_complete x) (x_closing x) (x_completed x) (x_acts x) (x_snapshot x).

Definition set_claimSub (x : sys) (c : chan ClaimResponse) (isNil : bool) : sys :=
  MkSys (x_requests x) c (x_requestsNil x) isNil (x_loop x) (x_streams x) (x_claims x)
    (x_openers x) (x_draining x) (x_complete x) (x_closing x) (x_completed x) (x_acts x) (x_snapshot x).

Definition set_openers (x : sys) (streams claims : gmap string nat) (os : list opener) (acts : list (nat * sact)) : sys :=
  MkSys (x_requests x) (x_claimSub x) (x_requestsNil x) (x_claimsNil x) (x_loop x) streams claims
    os (x_draining x) (x_complete x) (x_closing x) (x_completed x) (x_acts x ++ acts) (x_snapshot x).

Definition set_closing (x : sys) (k : closing) : sys :=
  MkSys (x_requests x) (x_claimSub x) (x_requestsNil x) (x_claimsNil x) (x_loop x) (x_streams x) (x_claims x)
    (x_openers x) (x_draining x) (x_complete x) (Some k) (x_completed x) (x_acts x) (x_snapshot x).

Definition with_stream (o : opener) (ss : st) : opener :=
  MkOpener (o_msg o) (o_nodeID o) (o_metadata o) (o_task o) (o_claims o) (Some ss).
Definition with_task (o : opener) (t : task) : opener :=
  MkOpener (o_msg o) (o_nodeID o) (o_metadata o) t (o_claims o) (o_stream o).
Definition with_claims (o : opener) (c : chan ClaimResponse) : opener :=
  MkOpener (o_msg o) (o_nodeID o) (o_metadata o) (o_task o) c (o_stream o).

(** ** The streams *)

(** The table after a step of a stream: [serverStream.Close] takes it out. *)
Definition streams_after (x : sys) (o : opener) (ss ss' : st) : gmap string nat :=
  if b_adapterClosed (st_base ss') && negb (b_adapterClosed (st_base ss))
  then delete (sm_StreamId (o_msg o)) (x_streams x) else x_streams x.

Definition stream_at (os : list opener) (n : nat) : option st := os !! n ≫= o_stream.

(** A step of the stream of opening [n], after which the loop is at [after]. *)
Definition on_stream (x : sys) (n : nat) (l : StreamCore.label) (after : st → loop) : outcome :=
  match x_openers x !! n with
  | Some o =>
      match o_stream o with
      | Some ss =>
          match StreamCore.step l ss with
          | StreamCore.Next ss' =>
              Next (set_loop (set_openers x (streams_after x o ss ss') (x_claims x)
                (<[n := with_stream o ss']> (x_openers x)) []) (after ss'))
          | StreamCore.Blocked => Blocked
          | StreamCore.Panic => Panic
          end
      | None => Blocked
      end
  | None => Blocked
  end.

(** The steps of a stream that are the loop's, and the end of its parent context, which
    has no end: it is made from [context.Background]. *)
Definition of_others (l : StreamCore.label) : bool :=
  match l with LHandle _ | LHandling _ | LParentDone => false | _ => true end.

(** ** The loop *)

(** [handleRequest], up to the call of [HandleStream]. *)
Definition handleRequest (x : sys) (im : StreamMsg) : sys :=
  match sm_Body im with
  | Stream_Open nodeID md =>
      if x_draining x then x
      else set_openers x (x_streams x) (x_claims x)
             (x_openers x ++ [MkOpener im nodeID md TStarted (make_chan 1) None]) []
  | _ =>
      match x_streams x !! sm_StreamId im with
      | Some n => set_loop x (LoopFound n im)
      | None => x
      end
  end.

(** [case is, ok := <-requests]. *)
Definition take_request (x : sys) (now : Z) : outcome :=
  if x_requestsNil x then Blocked
  else
    match chan_recv (x_requests x) with
    | RecvBlocks => Blocked
    | RecvClosed => Next (set_requests x (x_requests x) true)
    | Received im c =>
        let x := set_requests x c false in
        Next (if now <? sm_Expiry im then handleRequest x im else x)
    end.

(** [case claim, ok := <-claims], up to the send. *)
Definition take_claim (x : sys) : outcome :=
  if x_claimsNil x then Blocked
  else
    match chan_recv (x_claimSub x) with
    | RecvBlocks => Blocked
    | RecvClosed => Next (set_claimSub x (x_claimSub x) true)
    | Received claim c =>
        let x := set_claimSub x c false in
        Next match x_claims x !! cr_RequestId claim with
             | Some n => set_loop x (LoopSend n claim)
             | None => x
             end
    end.

(** [claimChan <- claim]. *)
Definition send_claim (x : sys) (n : nat) (claim : ClaimResponse) : outcome :=
  match x_openers x !! n with
  | None => Panic
  | Some o =>
      match chan_send (o_claims o) claim with
      | SendPanics => Panic
      | SendBlocks => Blocked
      | Sent c =>
          Next (set_loop (set_openers x (x_streams x) (x_claims x) (<[n := with_claims o c]> (x_openers x)) []) LoopSelect)
      end
  end.

(** Where the loop is during and after a call of [HandleStream]. *)
Definition loop_handling (n : nat) (ss : st) : loop :=
  match st_handling ss with Some _ => LoopHandling n | None => LoopSelect end.

(** ** [handleOpenRequest] *)

Definition bid_act (o : opener) : sact :=
  SBid (GetClaimRequestChannel (sv_Name s) (o_nodeID o))
    (MkClaimRequest (sm_RequestId (o_msg o)) (sv_ID s) (stream_affinity h (o_msg o) (o_nodeID o) (o_metadata o))).

(** Goroutine [n] goes on as [o], having done [acts]. *)
Definition opener_next (x : sys) (n : nat) (o : opener) (acts : list sact) : sys :=
  set_openers x (x_streams x) (x_claims x) (<[n := o]> (x_openers x)) ((λ a, (n, a)) <$> acts).

(** [ss.Close(cause)], as a goroutine of the stream the opening waits for. *)
Definition opener_closes (x : sys) (n : nat) (o : opener) (ss : st) (cause : option error) (acts : list sact) : outcome :=
  match StreamCore.step (LClose cause) ss with
  | StreamCore.Next ss' =>
      Next (opener_next x n (with_task (with_stream o ss') (TClosing (length (st_closers ss)))) (acts ++ [SClose cause]))
  | StreamCore.Blocked => Blocked
  | StreamCore.Panic => Panic
  end.

Definition opener_step (x : sys) (n : nat) (inp : input) : outcome :=
  match x_openers x !! n with
  | None => Blocked
  | Some o =>
      let im := o_msg o in
      match o_task o, o_stream o with
      | TStarted, _ =>
          if ri_RequireClaim (sh_i h) then
            if f32_lt (stream_affinity h im (o_nodeID o) (o_metadata o)) f32_zero
            then Next (opener_next x n (with_task o TOver) [])
            else Next (set_openers x (x_streams x) (<[sm_RequestId im := n]> (x_claims x))
                         (<[n := with_task o TBidding]> (x_openers x)) [])
          else Next (opener_next x n (with_task o TMaking) [])
      | TBidding, _ =>
          Next (opener_next x n
            (with_task o match in_pubErr inp with Some _ => TLeaving false | None => TWaiting end) [bid_act o])
      | TWaiting, _ =>
          match in_decision inp with
          | Decided claim =>
              match chan_recv (o_claims o) with
              | Received claim' c =>
                  if bool_decide (claim' = claim)
                  then Next (opener_next x n
                         (with_task (with_claims o c) (TLeaving (bool_decide (cr_ServerId claim = sv_ID s)))) [])
                  else Blocked
              | _ => Blocked
              end
          | TimedOut => Next (opener_next x n (with_task o (TLeaving false)) [])
          end
      | TLeaving granted, _ =>
          Next (set_openers x (x_streams x) (delete (sm_RequestId im) (x_claims x))
                  (<[n := with_task o (if granted then TMaking else TOver)]> (x_openers x)) [])
      | TMaking, _ =>
          Next (set_openers x (<[sm_StreamId im := n]> (x_streams x)) (x_claims x)
                  (<[n := with_task (with_stream o (NewStream ∅ size recvType)) TAcking]> (x_openers x))
                  [(n, SOpen (sm_StreamId im))])
      | TAcking, Some ss =>
          let ack := StreamOpen.ack_of s (o_nodeID o) im in
          match newError Internal <$> in_pubErr inp with
          | Some e => opener_closes x n o ss (Some e) [ack]
          | None => Next (opener_next x n (with_task o TCalling) [ack; SHandle])
          end
      | TCalling, Some ss =>
          if Hijacked (st_base ss) then Next (opener_next x n (with_task o TOver) [])
          else opener_closes x n o ss (in_handlerErr inp) []
      | TClosing c, Some ss =>
          match st_closers ss !! c with
          | Some CReturned => Next (opener_next x n (with_task o TOver) [])
          | _ => Blocked
          end
      | TAcking, None | TCalling, None | TClosing _, None | TOver, _ => Blocked
      end
  end.

(** ** [close] *)

(** The goroutine [close] starts for a stream it found. *)
Definition spawn (ns : list nat) (n : nat) (o : opener) : opener :=
  match o_stream o with
  | Some ss =>
      if bool_decide (n ∈ ns) then with_stream o (add_closer ss (CStart (Some ErrStreamEOF))) else o
  | None => o
  end.

Definition spawned (os : list opener) (n : nat) : nat * nat :=
  (n, from_option (λ ss, length (st_closers ss)) 0%nat (stream_at os n)).

Definition closer_returned (os : list opener) (w : nat * nat) : bool :=
  match stream_at os w.1 with
  | Some ss => match st_closers ss !! w.2 with Some CReturned => true | _ => false end
  | None => false
  end.

Definition close_step (x : sys) (k : closing) : outcome :=
  match k with
  | KDraining =>
      Next (MkSys (x_requests x) (x_claimSub x) (x_requestsNil x) (x_claimsNil x) (x_loop x) (x_streams x) (x_claims x)
        (x_openers x) true (x_complete x) (Some KSnapshot) (x_completed x) (x_acts x) (x_snapshot x))
  | KSnapshot =>
      let ns := (map_to_list (x_streams x)).*2 in
      Next (MkSys (x_requests x) (x_claimSub x) (x_requestsNil x) (x_claimsNil x) (x_loop x) (x_streams x) (x_claims x)
        (imap (spawn ns) (x_openers x)) (x_draining x) (x_complete x)
        (Some (KWait (spawned (x_openers x) <$> ns))) (x_completed x) (x_acts x) ns)
  | KWait ws => if forallb (closer_returned (x_openers x)) ws then Next (set_closing x KStreamSub) else Blocked
  | KStreamSub =>
      match chan_close (x_requests x) with
      | Some c => Next (set_closing (set_requests x c (x_requestsNil x)) KClaimSub)
      | None => Panic
      end
  | KClaimSub =>
      match chan_close (x_claimSub x) with
      | Some c => Next (set_closing (set_claimSub x c (x_claimsNil x)) KCompleted)
      | None => Panic
      end
  | KCompleted =>
      Next (MkSys (x_requests x) (x_claimSub x) (x_requestsNil x) (x_claimsNil x) (x_loop x) (x_streams x) (x_claims x)
        (x_openers x) (x_draining x) (x_complete x) (Some KComplete) (S (x_completed x)) (x_acts x) (x_snapshot x))
  | KComplete =>
      if x_complete x then Panic
      else
        Next (MkSys (x_requests x) (x_claimSub x) (x_requestsNil x) (x_claimsNil x) (x_loop x) (x_streams x) (x_claims x)
          (x_openers x) (x_draining x) true (Some KReturned) (x_completed x) (x_acts x) (x_snapshot x))
  | KReturned => Blocked
  end.

(** ** Steps *)

(** What happens: a delivery by the bus, a case of the loop's [select], its send, the
    call of [HandleStream] it makes and a step of that, its return, a step of an
    opening's goroutine, a step of another goroutine of a stream, [close] and its next
    step. *)
Inductive label : Type :=
| XDeliver (im : StreamMsg)
| XDeliverClaim (claim : ClaimResponse)
| XTakeRequest (now : Z)
| XTakeClaim
| XSendClaim
| XHandle
| XHandling (adapterErr : option error)
| XReturn
| XOpener (n : nat) (inp : input)
| XStream (n : nat) (l : StreamCore.label)
| XClose
| XClosing.

Definition step (l : label) (x : sys) : outcome :=
  match l with
  | XDeliver im =>
      match chan_send (x_requests x) im with Sent c => Next (set_requests x c (x_requestsNil x)) | _ => Blocked end
  | XDeliverClaim claim =>
      match chan_send (x_claimSub x) claim with Sent c => Next (set_claimSub x c (x_claimsNil x)) | _ => Blocked end
  | XTakeRequest now => match x_loop x with LoopSelect => take_request x now | _ => Blocked end
  | XTakeClaim => match x_loop x with LoopSelect => take_claim x | _ => Blocked end
  | XSendClaim => match x_loop x with LoopSend n claim => send_claim x n claim | _ => Blocked end
  | XHandle =>
      match x_loop x with LoopFound n msg => on_stream x n (LHandle msg) (loop_handling n) | _ => Blocked end
  | XHandling adapterErr =>
      match x_loop x with LoopHandling n => on_stream x n (LHandling adapterErr) (loop_handling n) | _ => Blocked end
  | XReturn =>
      match x_loop x with
      | LoopSelect => if x_complete x then Next (set_loop x LoopReturned) else Blocked
      | _ => Blocked
      end
  | XOpener n inp => opener_step x n inp
  | XStream n l => if of_others l then on_stream x n l (λ _, x_loop x) else Blocked
  | XClose => match x_closing x with None => Next (set_closing x KDraining) | Some _ => Blocked end
  | XClosing => match x_closing x with Some k => close_step x k | None => Blocked end
  end.

Fixpoint run (ls : list label) (x : sys) : option sys :=
  match ls with
  | [] => Some x
  | l :: ls => match step l x with Next x => run ls x | _ => None end
  end.

(** The IDs of the messages the streams begin to send. *)
Definition sent_ids (ls : list label) : list string :=
  omap (λ l, match l with XStream _ (LSend id _) => Some id | _ => None end) ls.
End server_stream.

(** ** Invariant *)

Section stream_run_lemmas.
Context `{GrpcApi} `{!StatusApi} `{!Codec}.
Context (s : server) (h : streamHandler) (recvType : string) (size : nat).
Implicit Types (x : sys) (l : label) (U : list string) (ss : st) (o : opener).

(** How far [close] has come. *)
Definition past_draining (k : option closing) : bool :=
  match k with None | Some KDraining => false | Some _ => true end.
Definition past_snapshot (k : option closing) : bool :=
  match k with None | Some KDraining | Some KSnapshot => false | Some _ => true end.
Definition past_streamSub (k : option closing) : bool :=
  match k with Some KClaimSub | Some KCompleted | Some KComplete | Some KReturned => true | _ => false end.
Definition past_claimSub (k : option closing) : bool :=
  match k with Some KCompleted | Some KComplete | Some KReturned => true | _ => false end.
Definition past_completed (k : option closing) : bool :=
  match k with Some KComplete | Some KReturned => true | _ => false end.
Definition past_complete (k : option closing) : bool :=
  match k with Some KReturned => true | _ => false end.

(** A state a new stream comes to by a run that sends under fresh IDs, of [U]. *)
Definition reached U ss : Prop :=
  ∃ ls, StreamCore.run ls (NewStream ∅ size recvType) = Some ss ∧
    (LParentDone ∉ ls) ∧ NoDup (send_ids ls) ∧ send_ids ls ⊆ U.

Lemma reached_new U : reached U (NewStream ∅ size recvType).
Proof. exists []. split_and!; [done|by intros ?%elem_of_nil|apply NoDup_nil_2|intros ? ?%elem_of_nil; done]. Qed.

Lemma reached_inv U ss : reached U ss → stream_inv ∅ ss.
Proof.
  intros (ls & Hr & _ & Hnd & _). eapply (StreamCore.run_inv ∅ ls); [apply NewStream_inv|done| |exact Hr].
  intros id _. apply not_elem_of_empty.
Qed.

Lemma reached_mono U U' ss : U ⊆ U' → reached U ss → reached U' ss.
Proof. intros Hs (ls & ? & ? & ? & ?). exists ls. split_and!; [done..|]. by etrans. Qed.

(** A step of a stream, with a fresh ID if it sends, does not panic and leads to such a
    state again. *)
Lemma reached_step U lc ss :
  reached U ss → (∀ id, id ∈ send_ids [lc] → id ∉ U) → lc ≠ LParentDone →
  match StreamCore.step lc ss with
  | StreamCore.Next ss' => reached (U ++ send_ids [lc]) ss'
  | StreamCore.Blocked => True
  | StreamCore.Panic => False
  end.
Proof.
  intros Hr Hfresh Hlc. pose proof (reached_inv U ss Hr) as Hinv. destruct Hr as (ls & Hr & Hp & Hnd & Hsub).
  assert (Hids : sender_id <$> st_senders ss = send_ids ls).
  { apply (StreamCore.run_inv ∅ ls (NewStream ∅ size recvType)); [apply NewStream_inv|done| |exact Hr].
    intros id _. apply not_elem_of_empty. }
  assert (Hok : StreamCore.step_ok ∅ (StreamCore.step lc ss)).
  { apply StreamCore.step_inv; [done|]. intros id Hid. rewrite Hids. split; [|apply not_elem_of_empty].
    intros Hin. by apply (Hfresh id Hid), Hsub. }
  destruct (StreamCore.step lc ss) as [ss'| |] eqn:Hs; [|done|done]. exists (ls ++ [lc]). rewrite StreamCore.run_app, Hr.
  simpl. rewrite Hs, send_ids_app. split_and!; [done| | |].
  - intros [?|Heq%list_elem_of_singleton]%elem_of_app; [done|]. by apply Hlc.
  - apply NoDup_app. split_and!; [done| |by destruct lc; simpl; repeat constructor; intros ?%elem_of_nil].
    intros id Hin Hin2. by apply (Hfresh id Hin2), Hsub.
  - by apply list_subseteq_app_iff_l; split; [apply list_subseteq_app_l|apply list_subseteq_app_r].
Qed.

(** What the loop holds is there, and the stream whose call it is in is the only one with
    a call of [HandleStream] under way. *)
Definition loop_ok (os : list opener) (l : loop) : Prop :=
  match l with
  | LoopSend n _ => is_Some (os !! n)
  | LoopFound n _ => is_Some (stream_at os n)
  | LoopHandling n => ∃ ss, stream_at os n = Some ss ∧ is_Some (st_handling ss)
  | LoopSelect | LoopReturned => True
  end ∧ ∀ n ss, stream_at os n = Some ss → is_Some (st_handling ss) → l = LoopHandling n.

(** An opening has its stream from the table's section on. *)
Definition made_ok o : Prop :=
  match o_task o with
  | TStarted | TBidding | TWaiting | TLeaving _ | TMaking => o_stream o = None
  | TAcking | TCalling | TClosing _ => is_Some (o_stream o)
  | TOver => True
  end.

Record inv U x : Prop := {
  i_streams id n : x_streams x !! id = Some n →
    ∃ o ss, x_openers x !! n = Some o ∧ o_stream o = Some ss ∧ sm_StreamId (o_msg o) = id ∧
      b_adapterClosed (st_base ss) = false;
  i_claims id n : x_claims x !! id = Some n →
    ∃ o, x_openers x !! n = Some o ∧ sm_RequestId (o_msg o) = id;
  i_chans n o : x_openers x !! n = Some o → chan_closed (o_claims o) = false ∧ chan_cap (o_claims o) = 1%nat;
  i_made n o : x_openers x !! n = Some o → made_ok o;
  i_reached n o ss : x_openers x !! n = Some o → o_stream o = Some ss → reached U ss;
  i_loop : loop_ok (x_openers x) (x_loop x);
  i_draining : x_draining x = past_draining (x_closing x);
  i_streamSub : chan_closed (x_requests x) = past_streamSub (x_closing x);
  i_claimSub : chan_closed (x_claimSub x) = past_claimSub (x_closing x);
  i_completed : x_completed x = if past_completed (x_closing x) then 1%nat else 0%nat;
  i_complete : x_complete x = past_complete (x_closing x)
}.

Lemma stream_start_inv U : inv U (start h size).
Proof. by split. Qed.

Lemma stream_at_Some os n ss : stream_at os n = Some ss ↔ ∃ o, os !! n = Some o ∧ o_stream o = Some ss.
Proof. unfold stream_at. rewrite bind_Some. naive_solver. Qed.

Lemma stream_at_insert os n o o' m ss :
  os !! n = Some o → stream_at (<[n := o']> os) m = Some ss →
  (m = n ∧ o_stream o' = Some ss) ∨ (m ≠ n ∧ stream_at os m = Some ss).
Proof.
  intros Hn (o2 & Ho & Hs)%stream_at_Some. apply list_lookup_insert_cases in Ho as [[-> ->]|[Hne Ho]]; [by left|right].
  split; [done|]. apply stream_at_Some. eauto.
Qed.

Lemma stream_at_insert_eq os n o o' : os !! n = Some o → stream_at (<[n := o']> os) n = o_stream o'.
Proof. intros Hn. unfold stream_at. by rewrite list_lookup_insert_eq by (by eapply lookup_lt_Some). Qed.

Lemma stream_at_insert_ne os n m o' : m ≠ n → stream_at (<[n := o']> os) m = stream_at os m.
Proof. intros Hne. unfold stream_at. by rewrite list_lookup_insert_ne. Qed.

(** An opening goes on, its stream handling what it did. *)
Lemma loop_ok_insert os lp n o o' :
  os !! n = Some o → loop_ok os lp →
  ((o_stream o ≫= st_handling) = (o_stream o' ≫= st_handling)) → (is_Some (o_stream o) → is_Some (o_stream o')) →
  loop_ok (<[n := o']> os) lp.
Proof.
  intros Hn [Hl Hu] Hh Hs. split.
  - destruct lp as [|m claim|m msg|m|]; try done.
    + by apply list_lookup_insert_is_Some.
    + destruct (decide (m = n)) as [->|Hne]; [|by rewrite stream_at_insert_ne].
      rewrite (stream_at_insert_eq os n o) by done. apply Hs. unfold stream_at in Hl. by rewrite Hn in Hl.
    + destruct Hl as (ss & Hss & Hsh). destruct (decide (m = n)) as [->|Hne].
      * rewrite (stream_at_insert_eq os n o) by done. unfold stream_at in Hss. rewrite Hn in Hss. simpl in Hss.
        rewrite Hss in Hh. simpl in Hh. destruct (o_stream o') as [ss'|]; simpl in Hh; [|by rewrite Hh in Hsh; destruct Hsh].
        exists ss'. split; [done|]. by rewrite <- Hh.
      * exists ss. by rewrite stream_at_insert_ne.
  - intros m ss [[-> Hss]|[Hne Hss]]%(stream_at_insert os n o o' m ss Hn); [|by apply Hu].
    rewrite Hss in Hh. simpl in Hh. intros Hsh. destruct (o_stream o) as [ss0|] eqn:Ho; simpl in Hh;
      [|by rewrite <- Hh in Hsh; destruct Hsh].
    apply (Hu n ss0); [apply stream_at_Some; eauto|by rewrite Hh].
Qed.

(** An opening goes on: the tables may gain it, or lose entries. *)
Lemma inv_opener U U' x n o o' streams claims acts lp :
  inv U x → U ⊆ U' → x_openers x !! n = Some o → o_msg o' = o_msg o → made_ok o' →
  chan_closed (o_claims o') = false → chan_cap (o_claims o') = 1%nat →
  (∀ ss, o_stream o' = Some ss → reached U' ss) →
  (∀ id m, streams !! id = Some m → m ≠ n → x_streams x !! id = Some m) →
  (∀ id, streams !! id = Some n →
     id = sm_StreamId (o_msg o) ∧ ∃ ss, o_stream o' = Some ss ∧ b_adapterClosed (st_base ss) = false) →
  (∀ id m, claims !! id = Some m → x_claims x !! id = Some m ∨ (m = n ∧ id = sm_RequestId (o_msg o))) →
  loop_ok (<[n := o']> (x_openers x)) lp →
  inv U' (set_loop (set_openers x streams claims (<[n := o']> (x_openers x)) acts) lp).
Proof.
  intros Hinv HU Hn Hmsg Hmade Hc Hcap Hr Hst1 Hst2 Hcl Hlp. destruct Hinv.
  assert (Hlt : (n < length (x_openers x))%nat) by (by eapply lookup_lt_Some).
  split; simpl; try done.
  - intros id m Hid. destruct (decide (m = n)) as [->|Hne].
    + destruct (Hst2 id Hid) as [-> (ss & Hss & Ha)]. exists o', ss. rewrite list_lookup_insert_eq by done. by rewrite Hmsg.
    + rewrite list_lookup_insert_ne by done. apply i_streams0. by apply Hst1.
  - intros id m Hid. destruct (Hcl id m Hid) as [Hm|[-> ->]].
    + destruct (i_claims0 id m Hm) as (o2 & Ho2 & Hid2). destruct (decide (m = n)) as [->|Hne].
      * exists o'. rewrite list_lookup_insert_eq by done. split; [done|]. rewrite Hmsg. by simplify_eq.
      * exists o2. by rewrite list_lookup_insert_ne.
    + exists o'. rewrite list_lookup_insert_eq by done. by rewrite Hmsg.
  - intros m o2 [[-> ->]|[_ Ho2]]%list_lookup_insert_cases; [done|by eapply i_chans0].
  - intros m o2 [[-> ->]|[_ Ho2]]%list_lookup_insert_cases; [done|by eapply i_made0].
  - intros m o2 ss [[-> ->]|[_ Ho2]]%list_lookup_insert_cases Hss; [by apply Hr|].
    eapply reached_mono; [done|]. by eapply i_reached0.
Qed.

Definition step_ok U (oc : outcome) : Prop :=
  match oc with Next x => inv U x | Blocked => True | Panic => False end.

(** *** Streams *)

Lemma step_others_handling lc ss ss' :
  of_others lc = true → StreamCore.step lc ss = StreamCore.Next ss' → st_handling ss' = st_handling ss.
Proof.
  destruct lc as [id payload|n e|n|n|cause|n|msg|e| | |]; simpl; intros Ho Hstep; try done;
    unfold start_send, step_sender, step_closer, or_panic in Hstep; repeat case_match; simplify_eq/=; done.
Qed.

Lemma on_stream_ok U x n lc after :
  inv U x → (∀ id, id ∈ send_ids [lc] → id ∉ U) → lc ≠ LParentDone →
  (∀ o ss ss', x_openers x !! n = Some o → o_stream o = Some ss → StreamCore.step lc ss = StreamCore.Next ss' →
     loop_ok (<[n := with_stream o ss']> (x_openers x)) (after ss')) →
  step_ok (U ++ send_ids [lc]) (on_stream x n lc after).
Proof.
  intros Hinv Hfresh Hlc Hloop. unfold on_stream. destruct (x_openers x !! n) as [o|] eqn:Hn; [|done].
  destruct (o_stream o) as [ss|] eqn:Hss; [|done].
  pose proof (reached_step U lc ss (i_reached U x Hinv n o ss Hn Hss) Hfresh Hlc) as Hr.
  destruct (StreamCore.step lc ss) as [ss'| |] eqn:Hstep; [|done|done]. simpl.
  destruct (i_chans U x Hinv n o Hn) as [Hc Hcap].
  apply (inv_opener U _ x n o); simpl; [done|by apply list_subseteq_app_l|done|done| |done|done| | | | |by eapply Hloop].
  - pose proof (i_made U x Hinv n o Hn) as Hm. unfold made_ok in *. simpl. destruct (o_task o); congruence || done.
  - by intros ? [= <-].
  - intros id m. unfold streams_after. destruct (_ && _); [|done]. by intros [_ ?]%lookup_delete_Some.
  - intros id Hid. unfold streams_after in Hid.
    destruct (b_adapterClosed (st_base ss') && negb (b_adapterClosed (st_base ss))) eqn:Hb.
    + apply lookup_delete_Some in Hid as [Hne Hid]. destruct (i_streams U x Hinv id n Hid) as (o2 & ss2 & Ho2 & _ & Heq & _).
      simplify_eq.
    + destruct (i_streams U x Hinv id n Hid) as (o2 & ss2 & Ho2 & Hss2 & Heq & Ha). simplify_eq.
      split; [done|]. exists ss'. split; [done|]. rewrite Ha in Hb. simpl in Hb. by rewrite andb_true_r in Hb.
  - intros id m Hid. by left.
Qed.

(** *** The loop *)

Lemma inv_io U x c1 n1 c2 n2 lp :
  inv U x → chan_closed c1 = chan_closed (x_requests x) → chan_closed c2 = chan_closed (x_claimSub x) →
  loop_ok (x_openers x) lp → inv U (set_loop (set_claimSub (set_requests x c1 n1) c2 n2) lp).
Proof. intros Hinv Hc1 Hc2 Hl. destruct Hinv. split; simpl; try done; congruence. Qed.

(** The loop holds something else, while no call of [HandleStream] is under way. *)
Lemma loop_ok_idle os lp lp' :
  loop_ok os lp → (∀ n, lp ≠ LoopHandling n) →
  match lp' with
  | LoopSend n _ => is_Some (os !! n)
  | LoopFound n _ => is_Some (stream_at os n)
  | LoopHandling _ => False
  | LoopSelect | LoopReturned => True
  end → loop_ok os lp'.
Proof.
  intros [_ Hu] Hno Hl. split; [by destruct lp'|]. intros n ss Hn Hh. by destruct (Hno n (Hu n ss Hn Hh)).
Qed.

Lemma streams_made U x id n : inv U x → x_streams x !! id = Some n → is_Some (stream_at (x_openers x) n).
Proof.
  intros Hinv Hid. destruct (i_streams U x Hinv id n Hid) as (o & ss & Ho & Hs & _). exists ss.
  apply stream_at_Some. eauto.
Qed.

Lemma inv_new_opener U x o :
  inv U x → o_stream o = None → o_claims o = make_chan 1 → made_ok o →
  inv U (set_openers x (x_streams x) (x_claims x) (x_openers x ++ [o]) []).
Proof.
  intros Hinv Hs Hc Hmd. destruct Hinv.
  assert (Hnew : ∀ m o', (x_openers x ++ [o]) !! m = Some o' → x_openers x !! m = Some o' ∨ o' = o).
  { intros m o' [?|[_ Hz]]%lookup_app_Some; [by left|right]. by apply list_lookup_singleton_Some in Hz as [_ <-]. }
  assert (Hat : ∀ m ss, stream_at (x_openers x ++ [o]) m = Some ss ↔ stream_at (x_openers x) m = Some ss).
  { intros m ss. rewrite !stream_at_Some. split.
    - intros (o' & [?| ->]%Hnew & ?); [by eauto|congruence].
    - intros (o' & Ho' & ?). exists o'. split; [by apply lookup_app_l_Some|done]. }
  split; simpl; try done.
  - intros id n Hid. destruct (i_streams0 id n Hid) as (o' & ss & Ho' & ?). exists o', ss. split; [by apply lookup_app_l_Some|done].
  - intros id n Hid. destruct (i_claims0 id n Hid) as (o' & Ho' & ?). exists o'. split; [by apply lookup_app_l_Some|done].
  - intros n o' [Ho'| ->]%Hnew; [by eapply i_chans0|by rewrite Hc].
  - intros n o' [Ho'| ->]%Hnew; [by eapply i_made0|done].
  - intros n o' ss [Ho'| ->]%Hnew; [by eapply i_reached0|congruence].
  - destruct i_loop0 as [Hl Hu]. split.
    + destruct (x_loop x) as [|n claim|n msg|n|]; try done.
      * destruct Hl as [o' Ho']. exists o'. by apply lookup_app_l_Some.
      * destruct Hl as [ss Hss]. exists ss. by apply Hat.
      * destruct Hl as (ss & Hss & ?). exists ss. split; [by apply Hat|done].
    + intros n ss Hss. apply Hu. by apply Hat.
Qed.

Lemma stream_take_request_ok U x now : inv U x → x_loop x = LoopSelect → step_ok U (take_request x now).
Proof.
  intros Hinv Hl. unfold take_request. destruct (x_requestsNil x); [done|].
  pose proof (i_loop U x Hinv) as Hlp. rewrite Hl in Hlp.
  destruct (chan_recv (x_requests x)) as [im c| |] eqn:Hr; [| |done]; simpl.
  - apply chan_recv_closed in Hr as (Hc & _ & _).
    assert (Hx : ∀ lp, loop_ok (x_openers x) lp → inv U (set_loop (set_requests x c false) lp)).
    { intros lp Hlp'. by apply (inv_io U x c false (x_claimSub x) (x_claimsNil x)). }
    assert (Hi : inv U (set_requests x c false)) by (apply (Hx (x_loop x)); by rewrite Hl).
    destruct (now <? sm_Expiry im); [|done]. unfold handleRequest. simpl.
    assert (Hfound : inv U (match x_streams x !! sm_StreamId im with
      | Some n => set_loop (set_requests x c false) (LoopFound n im) | None => set_requests x c false end)).
    { destruct (x_streams x !! sm_StreamId im) as [n|] eqn:Hn; [|done]. apply Hx.
      apply (loop_ok_idle _ _ _ Hlp); [done|]. by eapply streams_made. }
    destruct (sm_Body im); [|done..]. destruct (x_draining x); [done|]. by apply (inv_new_opener U (set_requests x c false)).
  - apply chan_recv_end in Hr as [_ Hc].
    apply (inv_io U x (x_requests x) true (x_claimSub x) (x_claimsNil x) (x_loop x)); [done..|by rewrite Hl].
Qed.

Lemma stream_take_claim_ok U x : inv U x → x_loop x = LoopSelect → step_ok U (take_claim x).
Proof.
  intros Hinv Hl. unfold take_claim. destruct (x_claimsNil x); [done|].
  pose proof (i_loop U x Hinv) as Hlp. rewrite Hl in Hlp.
  destruct (chan_recv (x_claimSub x)) as [claim c| |] eqn:Hr; [| |done]; simpl.
  - apply chan_recv_closed in Hr as (Hc & _ & _).
    destruct (x_claims x !! cr_RequestId claim) as [n|] eqn:Hn.
    + apply (inv_io U x (x_requests x) (x_requestsNil x) c false); [done..|]. apply (loop_ok_idle _ _ _ Hlp); [done|].
      destruct (i_claims U x Hinv _ n Hn) as (o & Ho & _). by exists o.
    + apply (inv_io U x (x_requests x) (x_requestsNil x) c false (x_loop x)); [done..|by rewrite Hl].
  - apply (inv_io U x (x_requests x) (x_requestsNil x) (x_claimSub x) true (x_loop x)); [done..|by rewrite Hl].
Qed.

Lemma stream_send_claim_ok U x n claim : inv U x → x_loop x = LoopSend n claim → step_ok U (send_claim x n claim).
Proof.
  intros Hinv Hl. pose proof (i_loop U x Hinv) as Hlp. rewrite Hl in Hlp. pose proof Hlp as [[o Ho] _].
  unfold send_claim. rewrite Ho. destruct (i_chans U x Hinv n o Ho) as [Hopen Hcap].
  destruct (chan_send (o_claims o) claim) as [c| |] eqn:Hs;
    [|done|unfold chan_send in Hs; rewrite Hopen in Hs; by destruct (_ <? _)%nat].
  apply chan_send_sent in Hs as (_ & Hc' & Hcap' & _). simpl.
  apply (inv_opener U U x n o); simpl; [done|done|done|done|by apply (i_made U x Hinv n o)|done|congruence| |done| |by left|].
  - intros ss Hss. by eapply i_reached.
  - intros id Hid. destruct (i_streams U x Hinv id n Hid) as (o2 & ss & Ho2 & Hss & <- & Ha). simplify_eq. eauto.
  - apply (loop_ok_insert _ _ n o); [done| |done|done]. by apply (loop_ok_idle _ _ _ Hlp).
Qed.

(** *** The openings *)

(** An opening goes on, the loop where it was. *)
Lemma inv_opener_only U x n o o' streams claims acts :
  inv U x → x_openers x !! n = Some o → o_msg o' = o_msg o → made_ok o' →
  chan_closed (o_claims o') = false → chan_cap (o_claims o') = 1%nat →
  (∀ ss, o_stream o' = Some ss → reached U ss) →
  (∀ id m, streams !! id = Some m → m ≠ n → x_streams x !! id = Some m) →
  (∀ id, streams !! id = Some n →
     id = sm_StreamId (o_msg o) ∧ ∃ ss, o_stream o' = Some ss ∧ b_adapterClosed (st_base ss) = false) →
  (∀ id m, claims !! id = Some m → x_claims x !! id = Some m ∨ (m = n ∧ id = sm_RequestId (o_msg o))) →
  ((o_stream o ≫= st_handling) = (o_stream o' ≫= st_handling)) → (is_Some (o_stream o) → is_Some (o_stream o')) →
  inv U (set_openers x streams claims (<[n := o']> (x_openers x)) acts).
Proof.
  intros Hinv Hn **. apply (inv_opener U U x n o o' streams claims acts (x_loop x)); try done.
  apply (loop_ok_insert _ _ n o); [done|apply Hinv|done..].
Qed.

(** An opening goes on with the stream it has, the table as it is. *)
Lemma opener_next_ok U x n o o' claims acts :
  inv U x → x_openers x !! n = Some o → o_msg o' = o_msg o → made_ok o' →
  chan_closed (o_claims o') = false → chan_cap (o_claims o') = 1%nat → o_stream o' = o_stream o →
  (∀ id m, claims !! id = Some m → x_claims x !! id = Some m ∨ (m = n ∧ id = sm_RequestId (o_msg o))) →
  inv U (set_openers x (x_streams x) claims (<[n := o']> (x_openers x)) acts).
Proof.
  intros Hinv Hn Hmsg Hmd Hc Hcap Hs Hcl.
  apply (inv_opener_only U x n o); rewrite ?Hs; try done.
  - intros ss Hss. by eapply i_reached.
  - intros id Hid. destruct (i_streams U x Hinv id n Hid) as (o2 & ss & Ho2 & Hss & <- & Ha). simplify_eq.
    split; [done|]. by exists ss.
Qed.

Lemma opener_closes_ok U x n o ss cause acts :
  inv U x → x_openers x !! n = Some o → o_stream o = Some ss → step_ok U (opener_closes x n o ss cause acts).
Proof.
  intros Hinv Hn Hss. unfold opener_closes. simpl. destruct (i_chans U x Hinv n o Hn) as [Hc Hcap].
  apply (inv_opener_only U x n o); simpl; try done.
  - by eexists.
  - intros ss' [= <-]. pose proof (reached_step U (LClose cause) ss (i_reached U x Hinv n o ss Hn Hss)) as Hr.
    simpl in Hr. rewrite app_nil_r in Hr. apply Hr; [by intros ? ?%elem_of_nil|done].
  - intros id Hid. destruct (i_streams U x Hinv id n Hid) as (o2 & ss2 & Ho2 & Hss2 & <- & Ha). simplify_eq.
    split; [done|]. by eexists.
  - by left.
  - by rewrite Hss.
Qed.

Lemma opener_step_ok U x n inp : inv U x → step_ok U (opener_step s h recvType size x n inp).
Proof.
  intros Hinv. unfold opener_step. destruct (x_openers x !! n) as [o|] eqn:Hn; [|done].
  destruct (i_chans U x Hinv n o Hn) as [Hc Hcap]. pose proof (i_made U x Hinv n o Hn) as Hmd. unfold made_ok in Hmd.
  assert (Hkeep : ∀ t acts, made_ok (with_task o t) → inv U (opener_next x n (with_task o t) acts)).
  { intros t acts Hm. by apply (opener_next_ok U x n o); [..|left]. }
  destruct (o_task o) eqn:Ht; cbv zeta; try done.
  - destruct (ri_RequireClaim (sh_i h)); [|by apply Hkeep]. destruct (f32_lt _ _); [by apply Hkeep|].
    apply (opener_next_ok U x n o); try done. intros id m [[<- <-]|[_ ?]]%lookup_insert_Some; [by right|by left].
  - apply Hkeep. by destruct (in_pubErr inp).
  - destruct (in_decision inp) as [claim|]; [|by apply Hkeep].
    destruct (chan_recv (o_claims o)) as [claim' c| |] eqn:Hr; [|done|done]. destruct (bool_decide _); [|done].
    apply chan_recv_closed in Hr as (Hrc & Hrcap & _). apply (opener_next_ok U x n o); simpl; try done; try congruence.
    by left.
  - apply (opener_next_ok U x n o); try done; [by destruct granted|]. intros id m [_ ?]%lookup_delete_Some. by left.
  - apply (inv_opener_only U x n o); try done.
    + by eexists.
    + intros ss [= <-]. apply reached_new.
    + intros id m Hid Hne. by apply lookup_insert_Some in Hid as [[_ <-]|[_ ?]].
    + intros id [[<- _]|[Hne Hid]]%lookup_insert_Some; [split; [done|by eexists]|].
      destruct (i_streams U x Hinv id n Hid) as (o2 & ss2 & Ho2 & Hss2 & <- & Ha). simplify_eq.
    + by left.
    + by rewrite Hmd.
  - destruct (o_stream o) as [ss|] eqn:Hss; [|done].
    destruct (newError Internal <$> in_pubErr inp); [by apply opener_closes_ok|apply Hkeep; by rewrite <- Hss in Hmd].
  - destruct (o_stream o) as [ss|] eqn:Hss; [|done].
    destruct (Hijacked (st_base ss)); [by apply Hkeep|by apply opener_closes_ok].
  - destruct (o_stream o) as [ss|] eqn:Hss; [|done]. destruct (st_closers ss !! c) as [[]|]; try done. by apply Hkeep.
Qed.

(** *** [close] *)

Lemma lookup_spawn ns os n o' :
  imap (spawn ns) os !! n = Some o' → ∃ o, os !! n = Some o ∧ o' = spawn ns n o.
Proof. rewrite list_lookup_imap. destruct (os !! n) as [o|]; simpl; [|done]. intros [= <-]. eauto. Qed.

Lemma lookup_spawn_Some ns os n o : os !! n = Some o → imap (spawn ns) os !! n = Some (spawn ns n o).
Proof. intros Hn. by rewrite list_lookup_imap, Hn. Qed.

(** The stream after [spawn]: with one more closer, or the same. *)
Lemma spawn_stream ns n o :
  o_stream (spawn ns n o) = (λ ss, if bool_decide (n ∈ ns) then add_closer ss (CStart (Some ErrStreamEOF)) else ss) <$> o_stream o.
Proof. unfold spawn. destruct (o_stream o) eqn:Hs; simpl; [|done]. case_bool_decide; simpl; by rewrite ?Hs. Qed.

Lemma spawn_keeps ns n o : o_msg (spawn ns n o) = o_msg o ∧ o_task (spawn ns n o) = o_task o ∧ o_claims (spawn ns n o) = o_claims o.
Proof. unfold spawn. destruct (o_stream o); [|done]. by case_bool_decide. Qed.

Lemma stream_at_spawn ns os n :
  stream_at (imap (spawn ns) os) n
  = (λ ss, if bool_decide (n ∈ ns) then add_closer ss (CStart (Some ErrStreamEOF)) else ss) <$> stream_at os n.
Proof.
  unfold stream_at. rewrite list_lookup_imap. destruct (os !! n) as [o|]; simpl; [|done]. apply spawn_stream.
Qed.

Lemma snapshot_ok U x : inv U x → x_closing x = Some KSnapshot → step_ok U (close_step x KSnapshot).
Proof.
  intros Hinv Hk. simpl. set (ns := (map_to_list (x_streams x)).*2). destruct Hinv. rewrite Hk in *.
  assert (Hh : ∀ n ss, stream_at (imap (spawn ns) (x_openers x)) n = Some ss →
    ∃ ss0, stream_at (x_openers x) n = Some ss0 ∧ st_handling ss = st_handling ss0).
  { intros n ss. rewrite stream_at_spawn. destruct (stream_at (x_openers x) n) as [ss0|]; simpl; [|done].
    intros [= <-]. exists ss0. split; [done|]. by case_bool_decide. }
  split; simpl; try done.
  - intros id n Hid. destruct (i_streams0 id n Hid) as (o & ss & Ho & Hss & Heq & Ha).
    exists (spawn ns n o). eexists. rewrite (lookup_spawn_Some ns _ n o Ho), spawn_stream, Hss. simpl.
    destruct (spawn_keeps ns n o) as (-> & _). split_and!; [done|done|done|]. by case_bool_decide.
  - intros id n Hid. destruct (i_claims0 id n Hid) as (o & Ho & <-). exists (spawn ns n o).
    rewrite (lookup_spawn_Some ns _ n o Ho). by destruct (spawn_keeps ns n o) as (-> & _).
  - intros n o' (o & Ho & ->)%lookup_spawn. destruct (spawn_keeps ns n o) as (_ & _ & ->). by eapply i_chans0.
  - intros n o' (o & Ho & ->)%lookup_spawn. specialize (i_made0 n o Ho). unfold made_ok in *.
    destruct (spawn_keeps ns n o) as (_ & -> & _). rewrite spawn_stream.
    destruct (o_task o); rewrite ?fmap_is_Some, ?fmap_None; done.
  - intros n o' ss (o & Ho & ->)%lookup_spawn. rewrite spawn_stream. destruct (o_stream o) as [ss0|] eqn:Hs; simpl; [|done].
    intros [= <-]. case_bool_decide; [|by eapply i_reached0].
    pose proof (reached_step U (LClose (Some ErrStreamEOF)) ss0 (i_reached0 n o ss0 Ho Hs)) as Hr. simpl in Hr.
    rewrite app_nil_r in Hr. apply Hr; [by intros ? ?%elem_of_nil|done].
  - destruct i_loop0 as [Hl Hu]. split.
    + destruct (x_loop x) as [|n claim|n msg|n|]; try done.
      * destruct Hl as [o Ho]. exists (spawn ns n o). by apply lookup_spawn_Some.
      * destruct Hl as [ss Hss]. rewrite stream_at_spawn, Hss. by eexists.
      * destruct Hl as (ss & Hss & Hsh). rewrite stream_at_spawn, Hss. eexists. split; [done|]. by case_bool_decide.
    + intros n ss Hss Hsh. destruct (Hh n ss Hss) as (ss0 & Hss0 & Heq). apply (Hu n ss0); [done|]. by rewrite <- Heq.
Qed.

Lemma stream_close_step_ok U x k : inv U x → x_closing x = Some k → step_ok U (close_step x k).
Proof.
  intros Hinv Hk. pose proof (i_streamSub U x Hinv) as Hr. pose proof (i_claimSub U x Hinv) as Hc.
  pose proof (i_complete U x Hinv) as Hcp. rewrite Hk in *.
  destruct k as [| |ws| | | | |]; simpl in *; [|by apply snapshot_ok| | | | | |done].
  - destruct Hinv. rewrite Hk in *. by split.
  - destruct (forallb _ _); [|done]. destruct Hinv. rewrite Hk in *. by split.
  - unfold chan_close. rewrite Hr. simpl. destruct Hinv. rewrite Hk in *. by split.
  - unfold chan_close. rewrite Hc. simpl. destruct Hinv. rewrite Hk in *. by split.
  - destruct Hinv. rewrite Hk in *. split; simpl in *; try done. congruence.
  - rewrite Hcp. destruct Hinv. rewrite Hk in *. by split.
Qed.

(** The loop calls [HandleStream], or goes on in it. *)
Lemma loop_ok_handling os lp n o ss' :
  os !! n = Some o → loop_ok os lp → (∀ m, lp = LoopHandling m → m = n) →
  loop_ok (<[n := with_stream o ss']> os) (loop_handling n ss').
Proof.
  intros Hn [_ Hu] Hlp. split.
  - unfold loop_handling. destruct (st_handling ss') as [hd|] eqn:Hh; [|done]. exists ss'.
    rewrite (stream_at_insert_eq os n o) by done. split; [done|]. rewrite Hh. by eexists.
  - intros m ss2 [[-> [= <-]]|[Hne Hss]]%(stream_at_insert os n o _ m ss2 Hn) Hh.
    + unfold loop_handling. by destruct Hh as [hd ->].
    + by destruct (Hne (Hlp m (Hu m ss2 Hss Hh))).
Qed.

Lemma sent_ids_stream n lc : sent_ids [XStream n lc] = send_ids [lc].
Proof. by destruct lc. Qed.

Lemma stream_step_inv U l x :
  inv U x → (∀ id, id ∈ sent_ids [l] → id ∉ U) → step_ok (U ++ sent_ids [l]) (step s h recvType size l x).
Proof.
  intros Hinv Hfresh. pose proof (i_loop U x Hinv) as Hlp.
  destruct l as [im|claim|now| | | |e| |n inp|n lc| |]; cbn [step]; try (change (sent_ids _) with (@nil string); rewrite app_nil_r).
  - destruct (chan_send _ _) as [c| |] eqn:Hs; [|done..]. apply chan_send_sent in Hs as (Hc & Hc' & _).
    apply (inv_io U x c (x_requestsNil x) (x_claimSub x) (x_claimsNil x) (x_loop x)); [done|congruence|done..].
  - destruct (chan_send _ _) as [c| |] eqn:Hs; [|done..]. apply chan_send_sent in Hs as (Hc & Hc' & _).
    apply (inv_io U x (x_requests x) (x_requestsNil x) c (x_claimsNil x) (x_loop x)); [done..|congruence|done].
  - destruct (x_loop x) eqn:Hl; [|done..]. by apply stream_take_request_ok.
  - destruct (x_loop x) eqn:Hl; [|done..]. by apply stream_take_claim_ok.
  - destruct (x_loop x) eqn:Hl; [done| |done..]. by apply stream_send_claim_ok.
  - destruct (x_loop x) as [|m cl|n msg|n|] eqn:Hl; try done.
    rewrite <- (app_nil_r U). apply (on_stream_ok U x n (LHandle msg)); [done|by intros ? ?%elem_of_nil|done|].
    intros o ss ss' Hn Hss Hstep. eapply loop_ok_handling; [exact Hn|exact Hlp|by intros m [= ->]].
  - destruct (x_loop x) as [|m cl|n msg|n|] eqn:Hl; try done.
    rewrite <- (app_nil_r U). apply (on_stream_ok U x n (LHandling e)); [done|by intros ? ?%elem_of_nil|done|].
    intros o ss ss' Hn Hss Hstep. eapply loop_ok_handling; [exact Hn|exact Hlp|by intros m [= ->]].
  - destruct (x_loop x) eqn:Hl; [|done..]. destruct (x_complete x) eqn:Hc; [|done].
    destruct Hinv. rewrite Hl in *. split; simpl; try done. by apply (loop_ok_idle _ LoopSelect).
  - by apply opener_step_ok.
  - destruct (of_others lc) eqn:Ho; [|done].
    rewrite (sent_ids_stream n lc) in *.
    apply on_stream_ok; [done|done|by destruct lc|]. intros o ss ss' Hn Hss Hstep.
    apply (loop_ok_insert _ _ n o); [done|done| |done]. rewrite Hss. simpl. by rewrite (step_others_handling lc ss ss').
  - destruct (x_closing x) eqn:Hk; [done|]. destruct Hinv. rewrite Hk in *. by split.
  - destruct (x_closing x) as [k|] eqn:Hk; [|done]. by apply stream_close_step_ok.
Qed.

Lemma sent_ids_app ls1 ls2 : sent_ids (ls1 ++ ls2) = sent_ids ls1 ++ sent_ids ls2.
Proof. apply omap_app. Qed.

Lemma sent_ids_cons l ls : sent_ids (l :: ls) = sent_ids [l] ++ sent_ids ls.
Proof. apply (sent_ids_app [l] ls). Qed.

Lemma stream_run_inv U ls x x' :
  inv U x → NoDup (U ++ sent_ids ls) → run s h recvType size ls x = Some x' → inv (U ++ sent_ids ls) x'.
Proof.
  revert U x. induction ls as [|l ls IH]; intros U x Hinv Hnd Hr; simpl in Hr.
  { simplify_eq. by rewrite app_nil_r. }
  rewrite sent_ids_cons, (assoc_L (++)) in *.
  assert (∀ id, id ∈ sent_ids [l] → id ∉ U) as Hfresh.
  { apply NoDup_app in Hnd as (Hnd & _ & _). apply NoDup_app in Hnd as (_ & Hd & _). intros id ? ?. by apply (Hd id). }
  pose proof (stream_step_inv U l x Hinv Hfresh) as Hok.
  destruct (step s h recvType size l x) as [x2| |]; [|done..]. by apply (IH _ x2).
Qed.

(** *** How the openings change *)

Inductive moved x x' : Prop :=
| moved_none : x_openers x' = x_openers x → x_streams x' = x_streams x → moved x x'
| moved_new o : o_stream o = None → x_openers x' = x_openers x ++ [o] → x_streams x' = x_streams x → moved x x'
| moved_task n o o' : x_openers x !! n = Some o → o_msg o' = o_msg o → o_stream o' = o_stream o →
    x_openers x' = <[n := o']> (x_openers x) → x_streams x' = x_streams x → moved x x'
| moved_made n o o' : x_openers x !! n = Some o → o_msg o' = o_msg o → o_task o = TMaking →
    o_stream o' = Some (NewStream ∅ size recvType) → x_openers x' = <[n := o']> (x_openers x) →
    x_streams x' = <[sm_StreamId (o_msg o) := n]> (x_streams x) → moved x x'
| moved_stream n o o' lc ss ss' : x_openers x !! n = Some o → o_msg o' = o_msg o → o_stream o = Some ss →
    StreamCore.step lc ss = StreamCore.Next ss' → o_stream o' = Some ss' →
    x_openers x' = <[n := o']> (x_openers x) → x_streams x' = streams_after x o ss ss' → moved x x'
| moved_spawn : x_closing x = Some KSnapshot → x_openers x' = imap (spawn (map_to_list (x_streams x)).*2) (x_openers x) →
    x_streams x' = x_streams x → moved x x'.

Lemma on_stream_moved x n lc after x' : on_stream x n lc after = Next x' → moved x x'.
Proof.
  unfold on_stream. destruct (x_openers x !! n) as [o|] eqn:Hn; [|done]. destruct (o_stream o) as [ss|] eqn:Hs; [|done].
  destruct (StreamCore.step lc ss) as [ss'| |] eqn:Hst; [|done..]. intros [= <-].
  by eapply (moved_stream _ _ n o (with_stream o ss') lc ss ss').
Qed.

Lemma opener_closes_moved x n o ss cause acts x' :
  x_openers x !! n = Some o → o_stream o = Some ss → opener_closes x n o ss cause acts = Next x' → moved x x'.
Proof.
  intros Hn Hs. unfold opener_closes. simpl. intros [= <-].
  apply (moved_stream _ _ n o (with_task (with_stream o (add_closer ss (CStart cause))) (TClosing (length (st_closers ss))))
    (LClose cause) ss (add_closer ss (CStart cause))); try done.
  unfold streams_after. simpl. by rewrite andb_negb_r.
Qed.

Lemma opener_step_moved x n inp x' : opener_step s h recvType size x n inp = Next x' → moved x x'.
Proof.
  unfold opener_step. destruct (x_openers x !! n) as [o|] eqn:Hn; [|done].
  assert (Hkeep : ∀ t claims acts, moved x (set_openers x (x_streams x) claims (<[n := with_task o t]> (x_openers x)) acts)).
  { intros t claims acts. by eapply (moved_task _ _ n o (with_task o t)). }
  destruct (o_task o) eqn:Ht; cbv zeta.
  - destruct (ri_RequireClaim _); [destruct (f32_lt _ _)|]; intros [= <-]; apply Hkeep.
  - intros [= <-]. apply Hkeep.
  - destruct (in_decision inp) as [claim|]; [|intros [= <-]; apply Hkeep].
    destruct (chan_recv _) as [claim' c| |]; [|done..]. destruct (bool_decide _); [|done]. intros [= <-].
    by apply (moved_task _ _ n o (with_task (with_claims o c) (TLeaving (bool_decide (cr_ServerId claim = sv_ID s))))).
  - intros [= <-]. apply Hkeep.
  - intros [= <-]. by apply (moved_made _ _ n o (with_task (with_stream o (NewStream ∅ size recvType)) TAcking)).
  - destruct (o_stream o) as [ss|] eqn:Hs; [|done]. destruct (newError Internal <$> in_pubErr inp).
    + by apply opener_closes_moved.
    + intros [= <-]. apply Hkeep.
  - destruct (o_stream o) as [ss|] eqn:Hs; [|done]. destruct (Hijacked _); [intros [= <-]; apply Hkeep|].
    by apply opener_closes_moved.
  - destruct (o_stream o) as [ss|] eqn:Hs; [|done]. destruct (st_closers ss !! c) as [[]|]; try done.
    intros [= <-]. apply Hkeep.
  - done.
Qed.

Lemma stream_step_moved l x x' : step s h recvType size l x = Next x' → moved x x'.
Proof.
  destruct l as [im|claim|now| | | |e| |n inp|n lc| |]; cbn [step]; intros Hst.
  - destruct (chan_send _ _); [|done..]. injection Hst as <-. by apply moved_none.
  - destruct (chan_send _ _); [|done..]. injection Hst as <-. by apply moved_none.
  - destruct (x_loop x); try done. unfold take_request in Hst. destruct (x_requestsNil x); [done|].
    destruct (chan_recv _) as [im c| |]; [|injection Hst as <-; by apply moved_none|done].
    destruct (now <? _); injection Hst as <-; [|by apply moved_none]. unfold handleRequest. simpl.
    destruct (sm_Body im) as [node md|raw| |er code]; [destruct (x_draining x); [by apply moved_none|by apply (moved_new _ _ (MkOpener im node md TStarted (make_chan 1) None))]|..];
      destruct (x_streams x !! _); by apply moved_none.
  - destruct (x_loop x); try done. unfold take_claim in Hst. destruct (x_claimsNil x); [done|].
    destruct (chan_recv _) as [claim c| |]; [|injection Hst as <-; by apply moved_none|done].
    injection Hst as <-. destruct (_ !! _); by apply moved_none.
  - destruct (x_loop x) as [|n claim| | |]; try done. unfold send_claim in Hst. destruct (x_openers x !! n) as [o|] eqn:Hn; [|done].
    destruct (chan_send _ _) as [c| |]; [|done..]. injection Hst as <-. by eapply (moved_task _ _ n o (with_claims o c)).
  - destruct (x_loop x); try done. by eapply on_stream_moved.
  - destruct (x_loop x); try done. by eapply on_stream_moved.
  - destruct (x_loop x); try done. destruct (x_complete x); [|done]. injection Hst as <-. by apply moved_none.
  - by eapply opener_step_moved.
  - destruct (of_others lc); [|done]. by eapply on_stream_moved.
  - destruct (x_closing x); [done|]. injection Hst as <-. by apply moved_none.
  - destruct (x_closing x) as [[]|] eqn:Hk; simpl in Hst; repeat (case_match; try done); simplify_eq;
      first [by apply moved_none|by apply moved_spawn].
Qed.

(** The openings stay, with the messages they came with. *)
Definition stream_ids x : list string := (λ o, sm_StreamId (o_msg o)) <$> x_openers x.

Lemma moved_stream_ids x x' : moved x x' → stream_ids x `prefix_of` stream_ids x'.
Proof.
  assert (Hins : ∀ n o o', x_openers x !! n = Some o → o_msg o' = o_msg o →
    stream_ids x `prefix_of` ((λ o, sm_StreamId (o_msg o)) <$> <[n := o']> (x_openers x))).
  { intros n o o' Hn Hm. rewrite list_fmap_insert, list_insert_id; [done|]. by rewrite list_lookup_fmap, Hn, Hm. }
  unfold stream_ids in *. intros [He _|o _ He _|n o o' Hn Hm _ He _|n o o' Hn Hm _ _ He _|n o o' lc ss ss' Hn Hm _ _ _ He _|_ He _];
    rewrite He; try (by eapply Hins); [done| |].
  - rewrite fmap_app. by apply prefix_app_r.
  - apply reflexive_eq. apply list_eq. intros i. rewrite !list_lookup_fmap, list_lookup_imap.
    destruct (x_openers x !! i) as [o|]; simpl; [|done]. by rewrite (proj1 (spawn_keeps _ i o)).
Qed.

Lemma run_stream_ids ls x x' : run s h recvType size ls x = Some x' → stream_ids x `prefix_of` stream_ids x'.
Proof.
  revert x. induction ls as [|l ls IH]; intros x Hr; simplify_eq/=; [done|].
  destruct (step s h recvType size l x) as [x2| |] eqn:Hs; [|done..].
  etrans; [by eapply moved_stream_ids, stream_step_moved|by apply IH].
Qed.

(** The table has every stream that is there, when no two openings share an ID. *)
Definition table_full x : Prop := ∀ n o ss, x_openers x !! n = Some o → o_stream o = Some ss →
  b_adapterClosed (st_base ss) = false → x_streams x !! sm_StreamId (o_msg o) = Some n.

Lemma stream_ids_inj x n m o o' :
  NoDup (stream_ids x) → x_openers x !! n = Some o → x_openers x !! m = Some o' →
  sm_StreamId (o_msg o) = sm_StreamId (o_msg o') → n = m.
Proof.
  intros Hnd Hn Hm Heq. apply (NoDup_lookup (stream_ids x) n m (sm_StreamId (o_msg o)) Hnd);
    unfold stream_ids; rewrite list_lookup_fmap; [by rewrite Hn|by rewrite Hm, Heq].
Qed.

Lemma moved_table_full x x' : NoDup (stream_ids x) → table_full x → moved x x' → table_full x'.
Proof.
  intros Hnd Hf Hmv m o2 ss2 Hm Hs2 Ha.
  destruct Hmv as [He Hst|o Hno He Hst|n o o' Hn Hmsg Hss He Hst|n o o' Hn Hmsg Ht Hss He Hst
    |n o o' lc ss ss' Hn Hmsg Hss Hstep Hss' He Hst|Hk He Hst]; rewrite He in Hm; rewrite Hst.
  - by eapply Hf.
  - apply lookup_app_Some in Hm as [Hm|[_ Hm]]; [by eapply Hf|].
    apply list_lookup_singleton_Some in Hm as [_ <-]. congruence.
  - apply list_lookup_insert_cases in Hm as [[-> ->]|[_ Hm]]; [|by eapply Hf]. rewrite Hmsg. eapply Hf; [done| |done]. congruence.
  - apply list_lookup_insert_cases in Hm as [[-> ->]|[Hne Hm]]; [by rewrite Hmsg, lookup_insert_eq|].
    rewrite lookup_insert_ne; [by eapply Hf|]. intros Heq. by apply Hne, (stream_ids_inj x m n o2 o).
  - apply list_lookup_insert_cases in Hm as [[-> ->]|[Hne Hm]].
    + rewrite Hmsg. simplify_eq. unfold streams_after. rewrite Ha. simpl.
      destruct (b_adapterClosed (st_base ss)) eqn:Ha0; [|by eapply Hf].
      pose proof (step_adapterClosed lc ss _ Hstep Ha0). congruence.
    + unfold streams_after. destruct (_ && _); [|by eapply Hf].
      rewrite lookup_delete_ne; [by eapply Hf|]. intros Heq. by apply Hne, (stream_ids_inj x m n o2 o).
  - apply lookup_spawn in Hm as (o & Hm & ->). rewrite (proj1 (spawn_keeps _ m o)). rewrite spawn_stream in Hs2.
    destruct (o_stream o) as [ss|] eqn:Hss; [|done]. simpl in Hs2. injection Hs2 as <-. eapply Hf; [done|done|].
    by case_bool_decide.
Qed.

Lemma run_table_full ls x x' :
  NoDup (stream_ids x') → table_full x → run s h recvType size ls x = Some x' → table_full x'.
Proof.
  revert x. induction ls as [|l ls IH]; intros x Hnd Hf Hr; simpl in Hr; [by simplify_eq|].
  destruct (step s h recvType size l x) as [x2| |] eqn:Hs; [|done..]. apply stream_step_moved in Hs as Hmv.
  apply (IH x2 Hnd); [|done]. apply (moved_table_full x); [|done..].
  assert (stream_ids x `prefix_of` stream_ids x') as [k Hk]; [|rewrite Hk in Hnd; by apply NoDup_app in Hnd as [? _]].
  etrans; [by eapply moved_stream_ids|by eapply run_stream_ids].
Qed.
End stream_run_lemmas.

(** ** Properties *)

(** The goroutines of a server's streams never panic, whatever its loop, the goroutines
    that open streams, the streams' users and [close] do, and in whatever order: the
    subscriptions and [complete] are closed once, nothing is sent on a closed channel, no
    stream of the table panics; and [onCompleted] is called at most once. *)
Theorem server_streams_never_panic `{GrpcApi} `{!StatusApi} `{!Codec} (s : server) (h : streamHandler)
    (recvType : string) (size : nat) (ls : list label) (l : label) (x : sys)
    (Hfresh : NoDup (sent_ids (ls ++ [l]))) (Hrun : run s h recvType size ls (start h size) = Some x) :
  step s h recvType size l x ≠ Panic ∧ (x_completed x <= 1)%nat.
Proof.
  rewrite sent_ids_app in Hfresh. apply NoDup_app in Hfresh as (Hnd & Hd & _).
  pose proof (stream_run_inv s h recvType size [] ls _ x (stream_start_inv h recvType size []) Hnd Hrun) as Hinv. split.
  - intros Hp. assert (step_ok recvType size (sent_ids ls ++ sent_ids [l]) (step s h recvType size l x)) as Hok.
    { apply stream_step_inv; [done|]. intros id Hin Hin2. by apply (Hd id). }
    by rewrite Hp in Hok.
  - rewrite (i_completed _ _ _ x Hinv). destruct (past_completed _); lia.
Qed.

(** C34: the table of streams is exact: as long as no two openings share a stream ID, an
    entry leads to the stream opened under that ID, a stream is entered from the moment it
    is made until it ends, so that what comes in for a stream reaches it and no other, and
    what is entered can still be closed. *)
Theorem stream_table_exact `{GrpcApi} `{!StatusApi} `{!Codec} (s : server) (h : streamHandler)
    (recvType : string) (size : nat) (ls : list label) (x : sys) (n : nat) (o : opener) (id : string)
    (Hfresh : NoDup (sent_ids ls)) (Hrun : run s h recvType size ls (start h size) = Some x)
    (Hids : NoDup (stream_ids x)) (Ho : x_openers x !! n = Some o) :
  x_streams x !! id = Some n ↔
  sm_StreamId (o_msg o) = id ∧ ∃ ss, o_stream o = Some ss ∧ b_adapterClosed (st_base ss) = false.
Proof.
  pose proof (stream_run_inv s h recvType size [] ls _ x (stream_start_inv h recvType size []) Hfresh Hrun) as Hinv. split.
  - intros Hn. destruct (i_streams _ _ _ x Hinv id n Hn) as (o2 & ss & Ho2 & Hs & Hid & Ha). simplify_eq. eauto.
  - intros (<- & ss & Hs & Ha). eapply (run_table_full s h recvType size ls (start h size)); try done.
Qed.

Section server_stream_witnesses.
#[local] Existing Instances grpc_numbers example_status.
#[local] Existing Instance Bus.Example.codec.

Definition stream_server : server := MkServer "svc" "SRV_a".

Definition stream_grant : ClaimResponse := MkClaimResponse "REQ_1" "SRV_a".

Definition stream_input : input := MkInput None (Decided stream_grant) None.

(** A stream claimed, made, acknowledged and handed over, over which a message is sent. *)
Definition one_stream : list label :=
  [XDeliver open_im; XTakeRequest 1; XOpener 0 stream_input; XOpener 0 stream_input; XDeliverClaim stream_grant;
   XTakeClaim; XSendClaim; XOpener 0 stream_input; XOpener 0 stream_input; XOpener 0 stream_input;
   XOpener 0 stream_input; XStream 0 (LSend "REQ_2" a_message); XStream 0 (LSender 0 None); XStream 0 (LSender 0 None)].

Definition first_open (x : sys) : bool :=
  match stream_at (x_openers x) 0 with
  | Some ss => negb (b_adapterClosed (st_base ss))
  | None => false
  end && bool_decide (stream_ids x = ["STR_1"]).

Lemma one_stream_runs :
  ∃ x, run stream_server open_handler "T" 4 one_stream (start open_handler 4) = Some x ∧ first_open x = true.
Proof.
  assert (from_option first_open false (run stream_server open_handler "T" 4 one_stream (start open_handler 4)) = true)
    as Ho by (vm_compute; reflexivity).
  destruct (run stream_server open_handler "T" 4 one_stream (start open_handler 4)) as [x|]; [|discriminate Ho].
  exists x. split; [reflexivity|exact Ho].
Qed.

Lemma server_streams_never_panic_witness :
  ∃ x, run stream_server open_handler "T" 4 one_stream (start open_handler 4) = Some x ∧
    step stream_server open_handler "T" 4 XClose x ≠ Panic.
Proof.
  destruct one_stream_runs as (x & Hx & _). exists x. split; [exact Hx|].
  refine (proj1 (server_streams_never_panic stream_server open_handler "T" 4 one_stream XClose x _ Hx)).
  apply NoDup_singleton.
Defined.

Lemma stream_table_exact_witness :
  ∃ x, run stream_server open_handler "T" 4 one_stream (start open_handler 4) = Some x ∧
    x_streams x !! "STR_1" = Some 0%nat.
Proof.
  destruct one_stream_runs as (x & Hx & Ho). exists x. split; [exact Hx|].
  unfold first_open in Ho. apply andb_prop in Ho as [Ho Hids]. apply bool_decide_eq_true in Hids.
  destruct (x_openers x !! 0%nat) as [o|] eqn:Hn; [|unfold stream_at in Ho; rewrite Hn in Ho; discriminate Ho].
  unfold stream_at in Ho. rewrite Hn in Ho. simpl in Ho. destruct (o_stream o) as [ss|] eqn:Hs; [|discriminate Ho].
  refine (proj2 (stream_table_exact stream_server open_handler "T" 4 one_stream x 0 o "STR_1" _ Hx _ Hn) _).
  - apply NoDup_singleton.
  - rewrite Hids. apply NoDup_singleton.
  - split.
    + assert (stream_ids x !! 0%nat = Some (sm_StreamId (o_msg o))) as Heq by (unfold stream_ids; rewrite list_lookup_fmap, Hn; reflexivity).
      rewrite Hids in Heq. injection Heq as <-. reflexivity.
    + exists ss. split; [exact Hs|]. apply negb_true_iff in Ho. exact Ho.
Defined.
End server_stream_witnesses.
