(* ===== verification/ServerStreamClose.v ===== *)
(** * ServerStreamClose.v: what the goroutines of a server's streams guarantee

    On [ServerStream]'s interleavings: each opening's goroutine does what [StreamOpen]'s
    [handleOpenRequest] says, with a decision the bus delivered; [close] ends the streams
    it finds, and returns; a stream whose opening was under way may escape it. *)
From S2P Require Import Prelude Errors Bus Info Metadata Interceptors Float32 Options Messages ServerRPC StreamCore StreamOpen ServerStream.

(** ** [close] ends the streams it finds *)

Section closing_streams.
Context `{GrpcApi} `{!StatusApi} `{!Codec}.
Context (s : server) (h : streamHandler) (recvType : string) (size : nat).
Implicit Types (x : sys) (l : label) (U : list string) (ss : st) (o : opener).

Lemma returned_closed U ss c :
  reached recvType size U ss → st_closers ss !! c = Some CReturned → b_closed (st_base ss) = true.
Proof.
  intros (ls & Hr & _) Hc. assert (closers_closed ss) as Hcl.
  { eapply run_closers_closed; [|exact Hr]. by intros n t. }
  by destruct (Hcl c _ Hc) as [[? ?]|].
Qed.

(** A stream that has left the table is closed. *)
Lemma adapterClosed_closed U ss :
  reached recvType size U ss → b_adapterClosed (st_base ss) = true → b_closed (st_base ss) = true.
Proof.
  intros Hr Ha. pose proof (reached_inv recvType size U ss Hr) as Hinv.
  destruct (b_closed (st_base ss)) eqn:Hc; [done|]. destruct (iv_open ∅ ss Hinv Hc). congruence.
Qed.

(** Streams stay, and so do what is closed and the goroutines of [Close]. *)
Definition outlives ss ss' : Prop :=
  (b_closed (st_base ss) = true → b_closed (st_base ss') = true) ∧
  (length (st_closers ss) <= length (st_closers ss'))%nat.

#[local] Instance outlives_preorder : PreOrder outlives.
Proof.
  split; [by intros ss|]. intros ss1 ss2 ss3 [? ?] [? ?]. split; [auto|lia].
Qed.

Lemma moved_outlives U x x' n ss :
  inv recvType size U x → moved recvType size x x' → stream_at (x_openers x) n = Some ss →
  ∃ ss', stream_at (x_openers x') n = Some ss' ∧ outlives ss ss'.
Proof.
  intros Hinv Hmv Hss.
  assert (Hins : ∀ m o o', x_openers x !! m = Some o →
    (∀ ss0, o_stream o = Some ss0 → ∃ ss1, o_stream o' = Some ss1 ∧ outlives ss0 ss1) →
    ∃ ss', stream_at (<[m := o']> (x_openers x)) n = Some ss' ∧ outlives ss ss').
  { intros m o o' Hm Hs. destruct (decide (n = m)) as [->|Hne].
    - rewrite (stream_at_insert_eq _ _ o) by done. apply Hs. unfold stream_at in Hss. by rewrite Hm in Hss.
    - rewrite stream_at_insert_ne by done. by exists ss. }
  destruct Hmv as [He _|o _ He _|m o o' Hm _ Hso He _|m o o' Hm _ Ht _ He _|m o o' lc ss0 ss1 Hm _ Hso Hst Hso' He _|_ He _];
    rewrite He.
  - by exists ss.
  - exists ss. split; [|done]. apply stream_at_Some in Hss as (o2 & Ho2 & ?). apply stream_at_Some.
    exists o2. split; [by apply lookup_app_l_Some|done].
  - apply (Hins m o o' Hm). rewrite Hso. intros ss0 ->. by exists ss0.
  - apply (Hins m o o' Hm). intros ss0 Hs. pose proof (i_made _ _ U x Hinv m o Hm) as Hmd. unfold made_ok in Hmd.
    rewrite Ht in Hmd. congruence.
  - apply (Hins m o o' Hm). intros ss2 Hs2. simplify_eq. exists ss1. split; [done|].
    split; [by eapply step_closed|by eapply step_closers_length].
  - rewrite stream_at_spawn, Hss. eexists. split; [done|]. case_bool_decide; [|done].
    split; [done|]. simpl. rewrite length_app. lia.
Qed.

Lemma close_label l : l = XClose ∨ l = XClosing ∨ (l ≠ XClose ∧ l ≠ XClosing).
Proof. destruct l; (by left) || (by right; left) || (by right; right). Qed.

(** [close] moves by its own steps only. *)
Lemma step_closing l x x' :
  step s h recvType size l x = Next x' → l ≠ XClose → l ≠ XClosing →
  x_closing x' = x_closing x ∧ x_snapshot x' = x_snapshot x.
Proof.
  intros Hst Hl1 Hl2. destruct l as [im|claim|now| | | |e| |n inp|n lc| |]; cbn [step] in Hst; try done.
  - by repeat case_match; simplify_eq.
  - by repeat case_match; simplify_eq.
  - unfold take_request, handleRequest in Hst. by repeat case_match; simplify_eq.
  - unfold take_claim in Hst. by repeat case_match; simplify_eq.
  - unfold send_claim in Hst. by repeat case_match; simplify_eq.
  - unfold on_stream in Hst. by repeat case_match; simplify_eq.
  - unfold on_stream in Hst. by repeat case_match; simplify_eq.
  - by repeat case_match; simplify_eq.
  - unfold opener_step, opener_closes, opener_next in Hst. by repeat case_match; simplify_eq.
  - unfold on_stream in Hst. by repeat case_match; simplify_eq.
Qed.

(** Of the streams [close] found, each is closed, or [close] waits for a goroutine of it. *)
Definition snapshot_inv x : Prop :=
  (past_snapshot (x_closing x) = true → ∀ n, n ∈ x_snapshot x →
     ∃ ss, stream_at (x_openers x) n = Some ss ∧
       (b_closed (st_base ss) = true ∨ ∃ ws c, x_closing x = Some (KWait ws) ∧ (n, c) ∈ ws)) ∧
  (∀ ws n c, x_closing x = Some (KWait ws) → (n, c) ∈ ws →
     ∃ ss, stream_at (x_openers x) n = Some ss ∧ (c < length (st_closers ss))%nat).

Lemma snapshot_inv_step U l x x' :
  inv recvType size U x → snapshot_inv x → step s h recvType size l x = Next x' → snapshot_inv x'.
Proof.
  intros Hinv [Hs Hw] Hst. pose proof (stream_step_moved s h recvType size l x x' Hst) as Hmv.
  assert (Hsame : x_closing x' = x_closing x → x_snapshot x' = x_snapshot x → snapshot_inv x').
  { intros Hk Hsn. unfold snapshot_inv. rewrite Hk, Hsn. split.
    - intros Hp n Hn. destruct (Hs Hp n Hn) as (ss & Hss & Hor).
      destruct (moved_outlives U x x' n ss Hinv Hmv Hss) as (ss' & Hss' & Hb & _). exists ss'. split; [done|].
      destruct Hor as [?|?]; [left; auto|by right].
    - intros ws n c Hk2 Hin. destruct (Hw ws n c Hk2 Hin) as (ss & Hss & Hc).
      destruct (moved_outlives U x x' n ss Hinv Hmv Hss) as (ss' & Hss' & _ & Hle). exists ss'. split; [done|lia]. }
  destruct (close_label l) as [->|[->|[Hl1 Hl2]]].
  { simpl in Hst. destruct (x_closing x); [done|]. injection Hst as <-. split; [done|]. by intros ? ? ? [=]. }
  2:{ destruct (step_closing l x x' Hst Hl1 Hl2). by apply Hsame. }
  simpl in Hst. destruct (x_closing x) as [k|] eqn:Hk; [|done].
  assert (Hpast : ∀ x2, past_snapshot (Some k) = true → (∀ ws, k ≠ KWait ws) → (∀ ws, x_closing x2 ≠ Some (KWait ws)) →
    x_openers x2 = x_openers x → x_snapshot x2 = x_snapshot x → snapshot_inv x2).
  { intros x2 Hp Hno Hno2 Ho Hsn. split; [|by intros ws n c Hk2; destruct (Hno2 ws)].
    rewrite Ho, Hsn. intros _ n Hn. destruct (Hs Hp n Hn) as (ss & Hss & [?|(ws & c & [= ->] & _)]); [eauto|by destruct (Hno ws)]. }
  destruct k as [| |ws| | | | |]; simpl in Hst.
  - injection Hst as <-. split; [done|]. by intros ? ? ? [=].
  - injection Hst as <-. split; simpl.
    + intros _ n Hn. apply list_elem_of_fmap in Hn as ([id m] & -> & Hin). simpl.
      apply elem_of_map_to_list in Hin as Hid. destruct (i_streams _ _ U x Hinv id m Hid) as (o & ss & Ho & Hss & _).
      rewrite stream_at_spawn. unfold stream_at. rewrite Ho. simpl. rewrite Hss. eexists. split; [done|]. right.
      eexists _, _. split; [done|]. apply list_elem_of_fmap. exists m. split; [done|].
      apply list_elem_of_fmap. by exists (id, m).
    + intros ws n c [= <-] Hin. apply list_elem_of_fmap in Hin as (m & [= -> ->] & Hin).
      apply list_elem_of_fmap in Hin as Hin2. destruct Hin2 as ([id m2] & -> & Hid). simpl in *.
      apply elem_of_map_to_list in Hid. destruct (i_streams _ _ U x Hinv id m2 Hid) as (o & ss & Ho & Hss & _).
      assert (stream_at (x_openers x) m2 = Some ss) as Hat by (apply stream_at_Some; eauto).
      rewrite stream_at_spawn, Hat. simpl. eexists. split; [done|]. rewrite bool_decide_eq_true_2 by done.
      simpl. rewrite length_app. simpl. lia.
  - destruct (forallb _ ws) eqn:Hall; [|done]. injection Hst as <-. split; simpl; [|by intros ? ? ? [=]].
    intros _ n Hn. destruct (Hs eq_refl n Hn) as (ss & Hss & Hor). exists ss. split; [done|]. left.
    destruct Hor as [?|(ws2 & c & [= <-] & Hin)]; [done|]. rewrite forallb_forall in Hall.
    specialize (Hall (n, c) ltac:(by apply list_elem_of_In)). unfold closer_returned in Hall. simpl in Hall. rewrite Hss in Hall.
    destruct (st_closers ss !! c) as [[]|] eqn:Hc; try done. apply stream_at_Some in Hss as (o & Ho & Hso).
    by eapply returned_closed; [eapply i_reached|].
  - destruct (chan_close _); [|done]. injection Hst as <-. by apply Hpast.
  - destruct (chan_close _); [|done]. injection Hst as <-. by apply Hpast.
  - injection Hst as <-. by apply Hpast.
  - destruct (x_complete x); [done|]. injection Hst as <-. by apply Hpast.
  - done.
Qed.

Lemma stream_run_cons U l ls x x2 :
  inv recvType size U x → NoDup (U ++ sent_ids (l :: ls)) → step s h recvType size l x = Next x2 →
  inv recvType size (U ++ sent_ids [l]) x2 ∧ NoDup ((U ++ sent_ids [l]) ++ sent_ids ls).
Proof.
  intros Hinv Hnd Hs. rewrite sent_ids_cons, (assoc_L (++)) in Hnd. split; [|done].
  apply NoDup_app in Hnd as (Hnd & _ & _). apply (stream_run_inv s h recvType size U [l] x); [done|done|].
  cbn [run]. by rewrite Hs.
Qed.

Lemma snapshot_run U ls x x' n ss :
  inv recvType size U x → snapshot_inv x → NoDup (U ++ sent_ids ls) → run s h recvType size ls x = Some x' →
  snapshot_inv x' ∧
  (stream_at (x_openers x) n = Some ss → ∃ ss', stream_at (x_openers x') n = Some ss' ∧ outlives ss ss').
Proof.
  revert U x ss. induction ls as [|l ls IH]; intros U x ss Hinv Hsn Hnd Hr; simpl in Hr.
  { simplify_eq. split; [done|]. by exists ss. }
  destruct (step s h recvType size l x) as [x2| |] eqn:Hs; [|done..].
  destruct (stream_run_cons U l ls x x2 Hinv Hnd Hs) as [Hinv2 Hnd2].
  assert (snapshot_inv x2) as Hsn2 by exact (snapshot_inv_step U l x x2 Hinv Hsn Hs).
  split; [exact (proj1 (IH _ x2 ss Hinv2 Hsn2 Hnd2 Hr))|]. intros Hss.
  destruct (moved_outlives U x x2 n ss Hinv (stream_step_moved _ _ _ _ l x x2 Hs) Hss) as (ss2 & Hss2 & Ho).
  destruct (proj2 (IH _ x2 ss2 Hinv2 Hsn2 Hnd2 Hr) Hss2) as (ss' & ? & ?). exists ss'. split; [done|]. by trans ss2.
Qed.

(** What the snapshot misses had left the table. *)
Lemma snapshot_complete x x' n ss o :
  table_full x → step s h recvType size XClosing x = Next x' → x_closing x = Some KSnapshot →
  x_openers x !! n = Some o → o_stream o = Some ss → b_adapterClosed (st_base ss) = false → n ∈ x_snapshot x'.
Proof.
  intros Hf Hst Hk Ho Hs Ha. simpl in Hst. rewrite Hk in Hst. simpl in Hst. injection Hst as <-. simpl.
  apply list_elem_of_fmap. exists (sm_StreamId (o_msg o), n). split; [done|]. apply elem_of_map_to_list. by eapply Hf.
Qed.

Lemma snapshot_stays U ls x x' :
  inv recvType size U x → NoDup (U ++ sent_ids ls) → run s h recvType size ls x = Some x' →
  past_snapshot (x_closing x) = true → x_snapshot x' = x_snapshot x.
Proof.
  revert U x. induction ls as [|l ls IH]; intros U x Hinv Hnd Hr Hp; simpl in Hr; [by simplify_eq|].
  destruct (step s h recvType size l x) as [x2| |] eqn:Hs; [|done..].
  destruct (stream_run_cons U l ls x x2 Hinv Hnd Hs) as [Hinv2 Hnd2].
  assert (x_snapshot x2 = x_snapshot x ∧ past_snapshot (x_closing x2) = true) as [<- Hp2]; [|by eapply IH].
  destruct (close_label l) as [->|[->|[Hl1 Hl2]]].
  - simpl in Hs. destruct (x_closing x); [done|]. done.
  - simpl in Hs. destruct (x_closing x) as [k|]; [|done].
    destruct k; simpl in Hs; try done; repeat case_match; by simplify_eq.
  - destruct (step_closing l x x2 Hs Hl1 Hl2) as [-> ->]. done.
Qed.
End closing_streams.

(** ** An opening does what [handleOpenRequest] says *)

Section openings.
Context `{GrpcApi} `{!StatusApi} `{!Codec}.
Context (s : server) (h : streamHandler) (recvType : string) (size : nat).
Implicit Types (x : sys) (l : label) (o : opener) (D : list ClaimResponse).

Definition claims_delivered (ls : list label) : list ClaimResponse :=
  omap (λ l, match l with XDeliverClaim claim => Some claim | _ => None end) ls.

(** What opening [n] did, in order. *)
Definition acts_of x (n : nat) : list sact :=
  omap (λ p, if decide (p.1 = n) then Some p.2 else None) (x_acts x).

(** A decision the bus delivered for the opening. *)
Definition known D o (d : decision) : Prop :=
  match d with
  | Decided claim => claim ∈ D ∧ cr_RequestId claim = sm_RequestId (o_msg o)
  | TimedOut => True
  end.

Definition opens o pubErr d ackErr handlerErr hijacked : list sact :=
  (handleOpenRequest s h (o_msg o) (o_nodeID o) (o_metadata o) pubErr d ackErr handlerErr hijacked).2.

(** How the claim went, if there is one. *)
Definition claimed o pubErr d : bool * list sact :=
  if ri_RequireClaim (sh_i h) then
    let '(c, _, acts) := stream_claim s h (o_msg o) (o_nodeID o) (o_metadata o) pubErr d in (c, acts)
  else (true, []).

Lemma opens_claimed o pubErr d ackErr handlerErr hijacked :
  opens o pubErr d ackErr handlerErr hijacked =
  let '(c, acts) := claimed o pubErr d in
  if c then
    acts ++ SOpen (sm_StreamId (o_msg o)) :: StreamOpen.ack_of s (o_nodeID o) (o_msg o) ::
      match newError Internal <$> ackErr with
      | Some e => [SClose (Some e)]
      | None => SHandle :: (if hijacked then [] else [SClose handlerErr])
      end
  else acts.
Proof.
  unfold opens, handleOpenRequest, claimed. destruct (ri_RequireClaim (sh_i h)).
  - destruct (stream_claim _ _ _ _ _ _ _) as [[[] err] acts]; simpl; [|done].
    destruct ackErr; simpl; by rewrite <- (assoc_L (++)).
  - simpl. by destruct ackErr.
Qed.

Definition bids o : Prop :=
  ri_RequireClaim (sh_i h) = true ∧ f32_lt (stream_affinity h (o_msg o) (o_nodeID o) (o_metadata o)) f32_zero = false.

(** What an opening did by a point is the beginning of what [handleOpenRequest] does. *)
Definition task_acts D o (acts : list sact) : Prop :=
  match o_task o with
  | TStarted => acts = []
  | TBidding => bids o ∧ acts = []
  | TWaiting => bids o ∧ acts = [bid_act s h o]
  | TLeaving granted => ∃ pubErr d, known D o d ∧ claimed o pubErr d = (granted, acts)
  | TMaking => ∃ pubErr d, known D o d ∧ claimed o pubErr d = (true, acts)
  | TAcking => ∃ pubErr d acts0, known D o d ∧ claimed o pubErr d = (true, acts0) ∧
      acts = acts0 ++ [SOpen (sm_StreamId (o_msg o))]
  | TCalling => ∃ pubErr d acts0, known D o d ∧ claimed o pubErr d = (true, acts0) ∧
      acts = acts0 ++ [SOpen (sm_StreamId (o_msg o)); StreamOpen.ack_of s (o_nodeID o) (o_msg o); SHandle]
  | TClosing _ | TOver => ∃ pubErr d ackErr handlerErr hijacked, known D o d ∧
      acts = opens o pubErr d ackErr handlerErr hijacked
  end.

(** Nothing of this reads the channel of claims or the stream. *)
Lemma task_acts_same D D' o o' acts :
  D ⊆ D' → o_msg o' = o_msg o → o_nodeID o' = o_nodeID o → o_metadata o' = o_metadata o → o_task o' = o_task o →
  task_acts D o acts → task_acts D' o' acts.
Proof.
  intros HD E1 E2 E3 E4.
  assert (Hk : ∀ d, known D o d → known D' o' d).
  { intros [claim|]; simpl; [|done]. rewrite E1. intros [? ?]. auto. }
  unfold task_acts, opens, claimed, bids, bid_act in *. rewrite E1, E2, E3, E4.
  destruct (o_task o); naive_solver.
Qed.

Record opens_inv D x : Prop := {
  v_acts n o : x_openers x !! n = Some o → task_acts D o (acts_of x n);
  v_none n : (length (x_openers x) <= n)%nat → acts_of x n = [];
  v_own n o claim : x_openers x !! n = Some o → claim ∈ chan_buf (o_claims o) →
    claim ∈ D ∧ cr_RequestId claim = sm_RequestId (o_msg o);
  v_sub claim : claim ∈ chan_buf (x_claimSub x) → claim ∈ D;
  v_send n claim : x_loop x = LoopSend n claim →
    claim ∈ D ∧ ∃ o, x_openers x !! n = Some o ∧ sm_RequestId (o_msg o) = cr_RequestId claim
}.

Lemma start_opens_inv : opens_inv [] (start h size).
Proof. by split. Qed.

Lemma opening_acts_app x streams claims os lp n acts m :
  acts_of (set_loop (set_openers x streams claims os ((λ a, (n, a)) <$> acts)) lp) m
  = acts_of x m ++ (if decide (n = m) then acts else []).
Proof.
  unfold acts_of. simpl. rewrite omap_app. f_equal. destruct (decide (n = m)) as [->|Hne].
  - induction acts as [|a acts IH]; simpl; [done|]. rewrite decide_True by done. by f_equal.
  - induction acts as [|a acts IH]; simpl; [done|]. by rewrite decide_False by done.
Qed.

(** An opening goes on. *)
Lemma opens_inv_update D x n o o' streams claims acts lp :
  opens_inv D x → x_openers x !! n = Some o → o_msg o' = o_msg o → task_acts D o' (acts_of x n ++ acts) →
  (∀ claim, claim ∈ chan_buf (o_claims o') → claim ∈ D ∧ cr_RequestId claim = sm_RequestId (o_msg o)) →
  (∀ m claim, lp = LoopSend m claim → x_loop x = lp) →
  opens_inv D (set_loop (set_openers x streams claims (<[n := o']> (x_openers x)) ((λ a, (n, a)) <$> acts)) lp).
Proof.
  intros [V1 V2 V3 V4 V5] Hn Hmsg Ht Hc Hl. split.
  - intros m o2. rewrite opening_acts_app. simpl. intros [[-> ->]|[Hne Hm]]%list_lookup_insert_cases.
    + by rewrite decide_True.
    + rewrite decide_False by done. rewrite app_nil_r. by apply V1.
  - intros m. rewrite opening_acts_app. simpl. rewrite length_insert. intros Hm.
    rewrite decide_False, app_nil_r; [by apply V2|]. intros ->. apply lookup_lt_Some in Hn. lia.
  - intros m o2 claim. simpl. intros [[-> ->]|[Hne Hm]]%list_lookup_insert_cases; [rewrite Hmsg; apply Hc|by eapply V3].
  - done.
  - intros m claim. simpl. intros ->. destruct (V5 m claim (Hl m claim eq_refl)) as (HD & o2 & Ho2 & Heq). split; [done|].
    destruct (decide (m = n)) as [->|Hne].
    + exists o'. rewrite list_lookup_insert_eq by (by eapply lookup_lt_Some). split; [done|]. rewrite Hmsg. by simplify_eq.
    + exists o2. by rewrite list_lookup_insert_ne.
Qed.

(** An opening keeps its place, while its stream or its channel changes. *)
Lemma opens_inv_aside D x n o o' streams claims lp :
  opens_inv D x → x_openers x !! n = Some o →
  o_msg o' = o_msg o → o_nodeID o' = o_nodeID o → o_metadata o' = o_metadata o → o_task o' = o_task o →
  (∀ claim, claim ∈ chan_buf (o_claims o') → claim ∈ D ∧ cr_RequestId claim = sm_RequestId (o_msg o)) →
  (∀ m claim, lp = LoopSend m claim → x_loop x = lp) →
  opens_inv D (set_loop (set_openers x streams claims (<[n := o']> (x_openers x)) []) lp).
Proof.
  intros Hv Hn E1 E2 E3 E4 Hc Hl. apply (opens_inv_update D x n o o' streams claims [] lp); try done.
  rewrite app_nil_r. apply (task_acts_same D D o); try done. by apply Hv.
Qed.

Lemma on_stream_opens D x n lc after x' :
  opens_inv D x → (∀ ss m claim, after ss = LoopSend m claim → x_loop x = after ss) →
  on_stream x n lc after = Next x' → opens_inv D x'.
Proof.
  intros Hv Hl. unfold on_stream. destruct (x_openers x !! n) as [o|] eqn:Hn; [|done]. destruct (o_stream o); [|done].
  destruct (StreamCore.step _ _); [|done..]. intros [= <-]. apply (opens_inv_aside D x n o); try done; [|by apply Hl].
  intros claim. simpl. by eapply v_own.
Qed.

Lemma opener_closes_opens D x n o ss cause acts x' :
  opens_inv D x → x_openers x !! n = Some o →
  (∃ pubErr d ackErr handlerErr hijacked, known D o d ∧
     acts_of x n ++ acts ++ [SClose cause] = opens o pubErr d ackErr handlerErr hijacked) →
  opener_closes x n o ss cause acts = Next x' → opens_inv D x'.
Proof.
  intros Hv Hn Ha. unfold opener_closes. simpl. intros [= <-].
  apply (opens_inv_update D x n o _ (x_streams x) (x_claims x) (acts ++ [SClose cause]) (x_loop x)); try done.
  intros claim. simpl. by eapply v_own.
Qed.

Lemma opener_step_opens D x n inp x' :
  opens_inv D x → opener_step s h recvType size x n inp = Next x' → opens_inv D x'.
Proof.
  intros Hv. unfold opener_step. destruct (x_openers x !! n) as [o|] eqn:Hn; [|done].
  pose proof (v_acts D x Hv n o Hn) as Ha. pose proof (v_own D x Hv n o) as Hown.
  assert (Hgo : ∀ o' streams claims acts, o_msg o' = o_msg o →
    (∀ claim, claim ∈ chan_buf (o_claims o') → claim ∈ chan_buf (o_claims o)) →
    task_acts D o' (acts_of x n ++ acts) →
    opens_inv D (set_openers x streams claims (<[n := o']> (x_openers x)) ((λ a, (n, a)) <$> acts))).
  { intros o' streams claims acts Hm Hc Ht. apply (opens_inv_update D x n o o' streams claims acts (x_loop x)); try done.
    intros claim Hin. by apply Hown; [|apply Hc]. }
  unfold task_acts in Ha. destruct (o_task o) eqn:Ht; cbv zeta.
  - destruct (ri_RequireClaim (sh_i h)) eqn:Hr; [destruct (f32_lt _ _) eqn:Haff|]; intros [= <-].
    + apply (Hgo _ _ _ []); [done..|]. rewrite app_nil_r, Ha. exists None, TimedOut, None, None, false.
      split; [done|]. rewrite opens_claimed. unfold claimed, stream_claim. simpl. by rewrite Hr, Haff.
    + apply (Hgo _ _ _ []); [done..|]. by rewrite app_nil_r, Ha.
    + apply (Hgo _ _ _ []); [done..|]. rewrite app_nil_r, Ha. exists None, TimedOut. split; [done|].
      unfold claimed. by rewrite Hr.
  - destruct Ha as [[Hr Haff] Ha]. intros [= <-]. apply (Hgo _ _ _ [bid_act s h o]); [done..|]. rewrite Ha.
    destruct (in_pubErr inp) as [e|]; [|done]. exists (Some e), TimedOut. split; [done|].
    unfold claimed, stream_claim. simpl. by rewrite Hr, Haff.
  - destruct Ha as [[Hr Haff] Ha]. destruct (in_decision inp) as [claim|].
    + destruct (chan_recv (o_claims o)) as [claim' c| |] eqn:Hc; [|done..].
      destruct (bool_decide_reflect (claim' = claim)) as [->|]; [|done]. intros [= <-].
      apply chan_recv_closed in Hc as (_ & _ & Hb). apply (Hgo _ _ _ []); [done| |].
      * intros claim2 Hin. rewrite Hb. by right.
      * rewrite app_nil_r, Ha. exists None, (Decided claim). split; [apply Hown; [done|]; rewrite Hb; by left|].
        unfold claimed, stream_claim. simpl. by rewrite Hr, Haff.
    + intros [= <-]. apply (Hgo _ _ _ []); [done..|]. rewrite app_nil_r, Ha. exists None, TimedOut. split; [done|].
      unfold claimed, stream_claim. simpl. by rewrite Hr, Haff.
  - destruct Ha as (pubErr & d & Hk & Ha). intros [= <-]. apply (Hgo _ _ _ []); [done..|]. rewrite app_nil_r.
    destruct granted; [by exists pubErr, d|]. exists pubErr, d, None, None, false. split; [done|].
    rewrite opens_claimed. change (claimed _ pubErr d) with (claimed o pubErr d). by rewrite Ha.
  - destruct Ha as (pubErr & d & Hk & Ha). intros [= <-]. apply (Hgo _ _ _ [SOpen (sm_StreamId (o_msg o))]); [done..|].
    by exists pubErr, d, (acts_of x n).
  - destruct Ha as (pubErr & d & acts0 & Hk & Hcl & Ha). destruct (o_stream o) as [ss|]; [|done].
    destruct (newError Internal <$> in_pubErr inp) as [e|] eqn:He.
    + apply opener_closes_opens; [done..|]. exists pubErr, d, (in_pubErr inp), None, false. split; [done|].
      rewrite opens_claimed, Hcl, He, Ha. by rewrite <- (assoc_L (++)).
    + intros [= <-]. apply (Hgo _ _ _ [StreamOpen.ack_of s (o_nodeID o) (o_msg o); SHandle]); [done..|].
      exists pubErr, d, acts0. split_and!; [done..|]. rewrite Ha. by rewrite <- (assoc_L (++)).
  - destruct Ha as (pubErr & d & acts0 & Hk & Hcl & Ha). destruct (o_stream o) as [ss|]; [|done].
    destruct (Hijacked (st_base ss)).
    + intros [= <-]. apply (Hgo _ _ _ []); [done..|]. rewrite app_nil_r. exists pubErr, d, None, None, true.
      split; [done|]. rewrite opens_claimed. change (claimed _ pubErr d) with (claimed o pubErr d). by rewrite Ha, Hcl.
    + apply opener_closes_opens; [done..|]. exists pubErr, d, None, (in_handlerErr inp), false. split; [done|].
      rewrite opens_claimed, Hcl, Ha. simpl. by rewrite <- (assoc_L (++)).
  - destruct (o_stream o) as [ss|]; [|done]. destruct (st_closers ss !! c) as [[]|]; try done.
    intros [= <-]. apply (Hgo _ _ _ []); [done..|]. by rewrite app_nil_r.
  - done.
Qed.

Lemma opens_inv_new D x o streams claims :
  opens_inv D x → o_task o = TStarted → o_claims o = make_chan 1 →
  opens_inv D (set_openers x streams claims (x_openers x ++ [o]) []).
Proof.
  intros [V1 V2 V3 V4 V5] Ht Hc.
  assert (Hnew : ∀ n o', (x_openers x ++ [o]) !! n = Some o' →
    x_openers x !! n = Some o' ∨ (n = length (x_openers x) ∧ o' = o)).
  { intros n o' [?|[Hle Hz]]%lookup_app_Some; [by left|right].
    apply list_lookup_singleton_Some in Hz as [? <-]. split; [lia|done]. }
  split; unfold acts_of; simpl; rewrite ?app_nil_r.
  - intros n o' [Hn|[-> ->]]%Hnew; [by apply V1|]. unfold task_acts. rewrite Ht. by apply V2.
  - intros n. rewrite length_app. intros Hn. apply V2. lia.
  - intros n o' claim [Hn|[-> ->]]%Hnew; [by eapply V3|]. rewrite Hc. by intros ?%elem_of_nil.
  - done.
  - intros n claim Hl. destruct (V5 n claim Hl) as (HD & o' & Ho' & Heq). split; [done|]. exists o'.
    split; [by apply lookup_app_l_Some|done].
Qed.

Lemma opens_inv_spawn D x ns k :
  opens_inv D x →
  opens_inv D (MkSys (x_requests x) (x_claimSub x) (x_requestsNil x) (x_claimsNil x) (x_loop x) (x_streams x) (x_claims x)
    (imap (spawn ns) (x_openers x)) (x_draining x) (x_complete x) k (x_completed x) (x_acts x) ns).
Proof.
  intros [V1 V2 V3 V4 V5].
  assert (Hsp : ∀ n o, o_nodeID (spawn ns n o) = o_nodeID o ∧ o_metadata (spawn ns n o) = o_metadata o).
  { intros n o. unfold spawn. destruct (o_stream o); [|done]. by case_bool_decide. }
  split; simpl.
  - intros n o' (o & Ho & ->)%lookup_spawn. destruct (spawn_keeps ns n o) as (? & ? & ?), (Hsp n o).
    apply (task_acts_same D D o); try done. by apply V1.
  - intros n. rewrite length_imap. apply V2.
  - intros n o' claim (o & Ho & ->)%lookup_spawn. destruct (spawn_keeps ns n o) as (-> & _ & ->). by eapply V3.
  - done.
  - intros n claim Hl. destruct (V5 n claim Hl) as (HD & o & Ho & Heq). split; [done|]. exists (spawn ns n o).
    split; [by apply lookup_spawn_Some|]. by rewrite (proj1 (spawn_keeps ns n o)).
Qed.

Lemma stream_step_opens U D l x x' :
  inv recvType size U x → opens_inv D x → step s h recvType size l x = Next x' →
  opens_inv (D ++ claims_delivered [l]) x'.
Proof.
  intros Hinv Hv. assert (Hsame : ∀ x2, x_openers x2 = x_openers x → x_acts x2 = x_acts x →
    (∀ claim, claim ∈ chan_buf (x_claimSub x2) → claim ∈ chan_buf (x_claimSub x) ∨ claim ∈ claims_delivered [l]) →
    (∀ n claim, x_loop x2 = LoopSend n claim → x_loop x = LoopSend n claim ∨
       (claim ∈ chan_buf (x_claimSub x) ∧ x_claims x !! cr_RequestId claim = Some n)) →
    opens_inv (D ++ claims_delivered [l]) x2).
  { destruct Hv as [V1 V2 V3 V4 V5]. intros x2 Ho Ha Hb Hl. split; unfold acts_of; rewrite ?Ho, ?Ha.
    - intros n o Hn. apply (task_acts_same D _ o); [by apply list_subseteq_app_l|done..|by apply V1].
    - apply V2.
    - intros n o claim Hn Hin. destruct (V3 n o claim Hn Hin). split; [apply elem_of_app; by left|done].
    - intros claim Hin. apply elem_of_app. destruct (Hb claim Hin) as [?|?]; [left; auto|by right].
    - intros n claim Hlp. destruct (Hl n claim Hlp) as [Hlp'|[Hin Hcl]].
      + destruct (V5 n claim Hlp') as [? ?]. split; [apply elem_of_app; by left|done].
      + split; [apply elem_of_app; left; auto|]. by destruct (i_claims _ _ U x Hinv _ n Hcl) as (o & ? & ?); eauto. }
  assert (Hnil : claims_delivered [l] = [] → ∀ x2, opens_inv D x2 → opens_inv (D ++ claims_delivered [l]) x2).
  { intros -> x2. by rewrite app_nil_r. }
  destruct l as [im|claim|now| | | |e| |n inp|n lc| |]; cbn [step]; intros Hst.
  - destruct (chan_send _ _) as [c| |]; [|done..]. injection Hst as <-. by apply Hsame; simpl; rewrite ?Hl; auto.
  - destruct (chan_send _ _) as [c| |] eqn:Hc; [|done..]. injection Hst as <-. apply chan_send_sent in Hc as (_ & _ & _ & Hb).
    apply Hsame; simpl; auto. intros claim2. rewrite Hb. intros [?|?]%elem_of_app; auto.
  - destruct (x_loop x) eqn:Hl; try done. unfold take_request in Hst. destruct (x_requestsNil x); [done|].
    destruct (chan_recv _) as [im c| |]; [|injection Hst as <-; by apply Hsame; simpl; rewrite ?Hl; auto|done].
    assert (opens_inv (D ++ claims_delivered [XTakeRequest now]) (set_requests x c false)) as Hv0
      by (by apply Hsame; simpl; rewrite ?Hl; auto).
    destruct (now <? _); injection Hst as <-; [|done]. unfold handleRequest. simpl.
    destruct (sm_Body im) as [node md|raw| |er code];
      [destruct (x_draining x); [done|by apply (opens_inv_new _ (set_requests x c false))]|..];
      (destruct (x_streams x !! _); [|done]); by apply Hsame; simpl; auto.
  - destruct (x_loop x) eqn:Hl; try done. unfold take_claim in Hst. destruct (x_claimsNil x); [done|].
    destruct (chan_recv _) as [claim c| |] eqn:Hc; [|injection Hst as <-; by apply Hsame; simpl; rewrite ?Hl; auto|done].
    apply chan_recv_closed in Hc as (_ & _ & Hb). injection Hst as <-.
    destruct (x_claims x !! cr_RequestId claim) as [m|] eqn:Hm; apply Hsame; simpl; try done; rewrite ?Hb, ?Hl.
    + intros claim2 Hin. left. by right.
    + intros n claim2 [= <- <-]. right. split; [by left|done].
    + intros claim2 Hin. left. by right.
    + by intros n claim2 [=].
  - destruct (x_loop x) as [|n claim| | |] eqn:Hl; try done. unfold send_claim in Hst.
    destruct (x_openers x !! n) as [o|] eqn:Hn; [|done]. destruct (chan_send _ _) as [c| |] eqn:Hc; [|done..].
    apply chan_send_sent in Hc as (_ & _ & _ & Hb). injection Hst as <-. apply Hnil; [done|].
    apply (opens_inv_aside D x n o); try done. intros claim2. simpl. rewrite Hb.
    destruct (v_send D x Hv n claim Hl) as (HD & o2 & Ho2 & Heq). simplify_eq.
    intros [Hin| ->%list_elem_of_singleton]%elem_of_app; [by eapply v_own|done].
  - destruct (x_loop x); try done. apply Hnil; [done|]. eapply on_stream_opens; [done| |done].
    intros ss m claim. unfold loop_handling. by destruct (st_handling ss).
  - destruct (x_loop x); try done. apply Hnil; [done|]. eapply on_stream_opens; [done| |done].
    intros ss m claim. unfold loop_handling. by destruct (st_handling ss).
  - destruct (x_loop x) eqn:Hl; try done. destruct (x_complete x); [|done]. injection Hst as <-. by apply Hsame; simpl; rewrite ?Hl; auto.
  - apply Hnil; [done|]. by eapply opener_step_opens.
  - destruct (of_others lc); [|done]. apply Hnil; [done|]. by eapply on_stream_opens.
  - destruct (x_closing x); [done|]. injection Hst as <-. by apply Hsame; simpl; rewrite ?Hl; auto.
  - destruct (x_closing x) as [[]|] eqn:Hk; simpl in Hst; repeat (case_match; try done); simplify_eq;
      try (by apply Hsame; simpl; rewrite ?Hl; auto).
    + apply Hnil; [done|]. by apply opens_inv_spawn.
    + unfold chan_close in *. case_match; [done|]. simplify_eq. by apply Hsame; simpl; auto.
Qed.

Lemma opening_claims_cons l ls : claims_delivered (l :: ls) = claims_delivered [l] ++ claims_delivered ls.
Proof. apply (omap_app _ [l] ls). Qed.

Lemma stream_run_opens U D ls x x' :
  inv recvType size U x → opens_inv D x → NoDup (U ++ sent_ids ls) → run s h recvType size ls x = Some x' →
  opens_inv (D ++ claims_delivered ls) x'.
Proof.
  revert U D x. induction ls as [|l ls IH]; intros U D x Hinv Hv Hnd Hr; simpl in Hr.
  { simplify_eq. by rewrite app_nil_r. }
  destruct (step s h recvType size l x) as [x2| |] eqn:Hs; [|done..].
  destruct (stream_run_cons s h recvType size U l ls x x2 Hinv Hnd Hs) as [Hinv2 Hnd2].
  rewrite opening_claims_cons, (assoc_L (++)). eapply (IH _ _ x2); [exact Hinv2|exact (stream_step_opens U D l x x2 Hinv Hv Hs)|exact Hnd2|exact Hr].
Qed.
End openings.

(** ** [close] returns *)

Section returning.
Context `{GrpcApi} `{!StatusApi} `{!Codec}.
Context (s : server) (h : streamHandler) (recvType : string) (size : nat).
Implicit Types (x : sys) (l : label) (U : list string) (ss : st) (o : opener).

(** What happens without the bus delivering or a user calling. *)
Definition internal (l : label) : bool :=
  match l with
  | XTakeRequest _ | XTakeClaim | XSendClaim | XHandle | XHandling _ | XReturn | XOpener _ _ | XClosing => true
  | XStream _ (LSender _ _ | LAckTaken _ | LCtxDone _ | LCloser _) => true
  | XDeliver _ | XDeliverClaim _ | XStream _ _ | XClose => false
  end.

(** The steps left of a goroutine that sends, of one that closes, of a call of
    [HandleStream]. *)
#[local] Open Scope nat_scope.

Definition sender_left (t : sender) : nat :=
  match t with SRegister _ _ => 4 | SPublish _ _ => 3 | SWait _ => 2 | SDeferred _ _ => 1 | SReturned _ _ => 0 end.
Definition closer_left (t : closer) : nat :=
  match t with
  | CStart _ => 6 | CSend => 5 | CWaitPending => 4 | CAdapter => 3 | CCancel => 2 | CRecvChan => 1 | CReturned => 0
  end.
Definition handling_left (hd : option handling) : nat :=
  match hd with
  | Some (HRecv _ | HAdapter) => 3 | Some (HAck | HCancel) => 2 | Some (HDeferred | HRecvChan) => 1 | None => 0
  end.

Definition stream_left ss : nat :=
  sum_list_with sender_left (st_senders ss) + sum_list_with closer_left (st_closers ss) + handling_left (st_handling ss).

Definition task_left (t : task) : nat :=
  match t with
  | TStarted => 15 | TBidding => 14 | TWaiting => 13 | TLeaving _ => 12 | TMaking => 11 | TAcking => 10 | TCalling => 9
  | TClosing _ => 1 | TOver => 0
  end.

(** What [close] may still start for an opening. *)
Definition spare (k : option closing) : nat := if past_snapshot k then 0 else 6.

Definition opener_left (k : option closing) o : nat :=
  task_left (o_task o) + from_option stream_left 0 (o_stream o) + spare k.

Definition loop_left (lp : loop) : nat :=
  match lp with LoopSelect => 1 | LoopSend _ _ => 2 | LoopFound _ _ => 12 | LoopHandling _ => 2 | LoopReturned => 0 end.

Definition closing_left (k : option closing) : nat :=
  match k with
  | None => 9 | Some KDraining => 8 | Some KSnapshot => 7 | Some (KWait _) => 6 | Some KStreamSub => 5
  | Some KClaimSub => 4 | Some KCompleted => 3 | Some KComplete => 2 | Some KReturned => 0
  end.

Definition measure x : nat :=
  length (chan_buf (x_requests x)) * (17 + spare (x_closing x)) + (if x_requestsNil x then 0 else 1) +
  length (chan_buf (x_claimSub x)) * 3 + (if x_claimsNil x then 0 else 1) +
  loop_left (x_loop x) + sum_list_with (opener_left (x_closing x)) (x_openers x) + closing_left (x_closing x).

#[local] Close Scope nat_scope.

(** A step of a stream other than a call leaves it less to do. *)
Lemma stream_step_left lc ss ss' :
  (match lc with LSender _ _ | LAckTaken _ | LCtxDone _ | LCloser _ | LHandling _ => True | _ => False end) →
  StreamCore.step lc ss = StreamCore.Next ss' → (stream_left ss' < stream_left ss)%nat.
Proof.
  assert (Hs : ∀ n t t', st_senders ss !! n = Some t → (sender_left t' < sender_left t)%nat →
    (sum_list_with sender_left (<[n := t']> (st_senders ss)) < sum_list_with sender_left (st_senders ss))%nat).
  { intros n t t' Hn Hlt. pose proof (sum_list_with_insert sender_left _ n t t' Hn). lia. }
  assert (Hc : ∀ n t t', st_closers ss !! n = Some t → (closer_left t' < closer_left t)%nat →
    (sum_list_with closer_left (<[n := t']> (st_closers ss)) < sum_list_with closer_left (st_closers ss))%nat).
  { intros n t t' Hn Hlt. pose proof (sum_list_with_insert closer_left _ n t t' Hn). lia. }
  intros Hl. unfold stream_left. destruct lc as [|n e|n|n| |n| |e| | |]; try done; simpl; intros Hst.
  - destruct (st_senders ss !! n) as [t|] eqn:Hn; [|done]. specialize (λ t', Hs n t t' Hn).
    destruct t; simpl in Hst; unfold or_panic in Hst; repeat case_match; simplify_eq/=;
      match goal with |- context [<[n := ?t']> _] => specialize (Hs t') end; simpl in Hs; lia.
  - destruct (st_senders ss !! n) as [t|] eqn:Hn; [|done]. specialize (λ t', Hs n t t' Hn).
    destruct t; try done. case_bool_decide; [|done]. simplify_eq/=.
    match goal with |- context [<[n := ?t']> _] => specialize (Hs t') end; simpl in Hs; lia.
  - destruct (st_senders ss !! n) as [t|] eqn:Hn; [|done]. specialize (λ t', Hs n t t' Hn).
    destruct t; try done. simplify_eq/=.
    match goal with |- context [<[n := ?t']> _] => specialize (Hs t') end; simpl in Hs; lia.
  - destruct (st_closers ss !! n) as [t|] eqn:Hn; [|done]. specialize (λ t', Hc n t t' Hn).
    destruct t; simpl in Hst; unfold or_panic in Hst; repeat case_match; simplify_eq/=;
      match goal with |- context [<[n := ?t']> _] => specialize (Hc t') end; simpl in Hc; lia.
  - destruct (st_handling ss) as [hd|] eqn:Hh; [|done].
    destruct hd; simpl in Hst; unfold or_panic in Hst; repeat case_match; simplify_eq/=; rewrite ?Hh; simpl; lia.
Qed.

Lemma handle_left msg ss ss' :
  StreamCore.step (LHandle msg) ss = StreamCore.Next ss' → (stream_left ss' <= stream_left ss + 9)%nat.
Proof.
  simpl. destruct (st_handling ss) eqn:Hh; [done|]. unfold start_handle, stream_left.
  intros Hst. repeat case_match; simplify_eq/=; rewrite ?Hh, ?sum_list_with_app; simpl; lia.
Qed.

Lemma openers_left_same k k' os :
  spare k = spare k' → sum_list_with (opener_left k) os = sum_list_with (opener_left k') os.
Proof. intros Hk. induction os as [|o os IH]; simpl; [done|]. unfold opener_left at 1 3. by rewrite IH, Hk. Qed.

Lemma spawn_left ns n o : (opener_left (Some (KWait [])) (spawn ns n o) <= opener_left (Some KSnapshot) o)%nat.
Proof.
  unfold opener_left, spawn, spare. destruct (o_stream o) as [ss|] eqn:Hs; simpl; [|rewrite Hs; simpl; lia].
  case_bool_decide; simpl; [|rewrite Hs; simpl; lia]. unfold stream_left. simpl. rewrite sum_list_with_app. simpl. lia.
Qed.

Lemma spawn_openers_left ns os :
  (sum_list_with (opener_left (Some (KWait []))) (imap (spawn ns) os) <= sum_list_with (opener_left (Some KSnapshot)) os)%nat.
Proof.
  assert (∀ i, (sum_list_with (opener_left (Some (KWait []))) (imap (λ n, spawn ns (i + n)) os)
    <= sum_list_with (opener_left (Some KSnapshot)) os)%nat) as Hi; [|exact (Hi 0%nat)].
  induction os as [|o os IH]; intros i; simpl; [lia|]. pose proof (spawn_left ns (i + 0) o). specialize (IH (S i)).
  rewrite (imap_ext _ (λ n, spawn ns (S i + n))); [lia|]. intros m o' _. simpl. f_equal. lia.
Qed.

Lemma on_stream_left x n lc after x' d :
  (∀ ss ss', StreamCore.step lc ss = StreamCore.Next ss' →
     (stream_left ss' + loop_left (after ss') + d <= stream_left ss + loop_left (x_loop x))%nat) →
  on_stream x n lc after = Next x' → (measure x' + d <= measure x)%nat.
Proof.
  intros Hd. unfold on_stream. destruct (x_openers x !! n) as [o|] eqn:Hn; [|done]. destruct (o_stream o) as [ss|] eqn:Hs; [|done].
  destruct (StreamCore.step lc ss) as [ss'| |] eqn:Hst; [|done..]. intros [= <-]. specialize (Hd ss ss' Hst). unfold measure. simpl.
  pose proof (sum_list_with_insert (opener_left (x_closing x)) _ n o (with_stream o ss') Hn) as Hsum.
  unfold opener_left in Hsum at 2 4. rewrite Hs in Hsum. simpl in Hsum. lia.
Qed.

Lemma opener_step_left x n inp x' :
  opener_step s h recvType size x n inp = Next x' → (measure x' < measure x)%nat.
Proof.
  unfold opener_step. destruct (x_openers x !! n) as [o|] eqn:Hn; [|done].
  assert (Hgo : ∀ o' streams claims acts,
    (task_left (o_task o') + from_option stream_left 0 (o_stream o') < task_left (o_task o) + from_option stream_left 0 (o_stream o))%nat →
    (measure (set_openers x streams claims (<[n := o']> (x_openers x)) acts) < measure x)%nat).
  { intros o' streams claims acts Hlt. unfold measure. simpl.
    pose proof (sum_list_with_insert (opener_left (x_closing x)) _ n o o' Hn) as Hsum.
    unfold opener_left in Hsum at 2 4. lia. }
  assert (Hclose : ∀ ss cause acts, o_stream o = Some ss → (7 < task_left (o_task o))%nat →
    opener_closes x n o ss cause acts = Next x' → (measure x' < measure x)%nat).
  { intros ss cause acts Hs Ht. unfold opener_closes. simpl. intros [= <-]. apply Hgo. rewrite Hs. simpl.
    unfold stream_left. simpl. rewrite sum_list_with_app. simpl. lia. }
  destruct (o_task o) eqn:Ht; cbv zeta.
  - destruct (ri_RequireClaim _); [destruct (f32_lt _ _)|]; intros [= <-]; apply Hgo; simpl; lia.
  - intros [= <-]. apply Hgo. destruct (in_pubErr inp); simpl; lia.
  - destruct (in_decision inp) as [claim|]; [|intros [= <-]; apply Hgo; simpl; lia].
    destruct (chan_recv _); [|done..]. destruct (bool_decide _); [|done]. intros [= <-]. apply Hgo. simpl. lia.
  - intros [= <-]. apply Hgo. destruct granted; simpl; lia.
  - intros [= <-]. apply Hgo. simpl. unfold stream_left. simpl. lia.
  - destruct (o_stream o) as [ss|] eqn:Hs; [|done]. destruct (newError Internal <$> in_pubErr inp).
    + apply Hclose; [done|simpl; lia].
    + intros [= <-]. apply Hgo. simpl. rewrite Hs. simpl. lia.
  - destruct (o_stream o) as [ss|] eqn:Hs; [|done]. destruct (Hijacked _).
    + intros [= <-]. apply Hgo. simpl. rewrite Hs. simpl. lia.
    + apply Hclose; [done|simpl; lia].
  - destruct (o_stream o) as [ss|] eqn:Hs; [|done]. destruct (st_closers ss !! c) as [[]|]; try done.
    intros [= <-]. apply Hgo. simpl. rewrite Hs. simpl. lia.
  - done.
Qed.

Lemma stream_step_measure l x x' :
  internal l = true → step s h recvType size l x = Next x' → (measure x' < measure x)%nat.
Proof.
  destruct l as [im|claim|now| | | |e| |n inp|n lc| |]; cbn [step internal]; try done; intros Hi Hst.
  - destruct (x_loop x) eqn:Hl; try done. unfold take_request in Hst. destruct (x_requestsNil x) eqn:Hnil; [done|].
    destruct (chan_recv _) as [im c| |] eqn:Hr; [|injection Hst as <-; unfold measure; simpl; rewrite Hl, Hnil; lia|done].
    apply chan_recv_closed in Hr as (_ & _ & Hb).
    assert (measure (set_requests x c false) + 17 + spare (x_closing x) = measure x)%nat as Hm.
    { unfold measure. simpl. rewrite Hb, Hnil. simpl. lia. }
    destruct (now <? _); injection Hst as <-; [|lia]. unfold handleRequest. simpl.
    assert (Hfound : ∀ n, (measure (set_loop (set_requests x c false) (LoopFound n im)) = measure (set_requests x c false) + 11)%nat).
    { intros n. unfold measure. simpl. rewrite Hl. simpl. lia. }
    destruct (sm_Body im) as [node md|raw| |er code];
      [|by destruct (x_streams x !! _); [rewrite Hfound|]; lia..].
    destruct (x_draining x); [lia|]. unfold measure in *. simpl in *. rewrite sum_list_with_app. simpl.
    assert (opener_left (x_closing x) (MkOpener im node md TStarted (make_chan 1) None) = 15 + spare (x_closing x))%nat by done.
    lia.
  - destruct (x_loop x) eqn:Hl; try done. unfold take_claim in Hst. destruct (x_claimsNil x) eqn:Hnil; [done|].
    destruct (chan_recv _) as [claim c| |] eqn:Hr; [|injection Hst as <-; unfold measure; simpl; rewrite Hl, Hnil; lia|done].
    apply chan_recv_closed in Hr as (_ & _ & Hb). injection Hst as <-.
    destruct (x_claims x !! _); unfold measure; simpl; rewrite Hl, Hnil, Hb; simpl; lia.
  - destruct (x_loop x) as [|n claim| | |] eqn:Hl; try done. unfold send_claim in Hst.
    destruct (x_openers x !! n) as [o|] eqn:Hn; [|done]. destruct (chan_send _ _) as [c| |]; [|done..].
    injection Hst as <-. unfold measure. simpl. rewrite Hl. simpl.
    pose proof (sum_list_with_insert (opener_left (x_closing x)) _ n o (with_claims o c) Hn) as Hsum.
    unfold opener_left in Hsum at 2 4. simpl in Hsum. lia.
  - destruct (x_loop x) as [| |n msg| |] eqn:Hl; try done.
    pose proof (on_stream_left x n (LHandle msg) (loop_handling n) x' 1) as Hd. rewrite Hl in Hd. simpl loop_left in Hd.
    enough (measure x' + 1 <= measure x)%nat by lia. apply Hd; [|done]. intros ss ss' Hs. apply handle_left in Hs.
    unfold loop_handling. destruct (st_handling ss'); simpl; lia.
  - destruct (x_loop x) as [| | |n|] eqn:Hl; try done.
    pose proof (on_stream_left x n (LHandling e) (loop_handling n) x' 1) as Hd. rewrite Hl in Hd. simpl loop_left in Hd.
    enough (measure x' + 1 <= measure x)%nat by lia. apply Hd; [|done]. intros ss ss' Hs. apply stream_step_left in Hs; [|done].
    unfold loop_handling. destruct (st_handling ss'); simpl; lia.
  - destruct (x_loop x) eqn:Hl; try done. destruct (x_complete x); [|done]. injection Hst as <-. unfold measure. simpl. rewrite Hl. simpl. lia.
  - by eapply opener_step_left.
  - destruct (of_others lc) eqn:Ho; [|done].
    pose proof (on_stream_left x n lc (λ _, x_loop x) x' 1) as Hd.
    enough (measure x' + 1 <= measure x)%nat by lia. apply Hd; [|done]. intros ss ss' Hs.
    apply stream_step_left in Hs; [lia|]. by destruct lc.
  - destruct (x_closing x) as [k|] eqn:Hk; [|done]. destruct k as [| |ws| | | | |]; simpl in Hst.
    + injection Hst as <-. unfold measure. simpl. rewrite Hk.
      pose proof (openers_left_same (Some KDraining) (Some KSnapshot) (x_openers x) eq_refl). unfold spare. simpl. lia.
    + injection Hst as <-. unfold measure. cbn [x_requests x_requestsNil x_claimSub x_claimsNil x_loop x_openers x_closing].
      rewrite Hk. match goal with |- context [opener_left (Some (KWait ?ws))] =>
        rewrite (openers_left_same (Some (KWait ws)) (Some (KWait [])) _ eq_refl) end.
      pose proof (spawn_openers_left (map_to_list (x_streams x)).*2 (x_openers x)). unfold spare. simpl in *. lia.
    + destruct (forallb _ _); [|done]. injection Hst as <-. unfold measure. simpl. rewrite Hk.
      pose proof (openers_left_same (Some (KWait ws)) (Some KStreamSub) (x_openers x) eq_refl). unfold spare. simpl. lia.
    + unfold chan_close in Hst. destruct (chan_closed _); [done|]. injection Hst as <-. unfold measure. simpl. rewrite Hk.
      pose proof (openers_left_same (Some KStreamSub) (Some KClaimSub) (x_openers x) eq_refl). unfold spare. simpl. lia.
    + unfold chan_close in Hst. destruct (chan_closed _); [done|]. injection Hst as <-. unfold measure. simpl. rewrite Hk.
      pose proof (openers_left_same (Some KClaimSub) (Some KCompleted) (x_openers x) eq_refl). unfold spare. simpl. lia.
    + injection Hst as <-. unfold measure. simpl. rewrite Hk.
      pose proof (openers_left_same (Some KCompleted) (Some KComplete) (x_openers x) eq_refl). unfold spare. simpl. lia.
    + destruct (x_complete x); [done|]. injection Hst as <-. unfold measure. simpl. rewrite Hk.
      pose proof (openers_left_same (Some KComplete) (Some KReturned) (x_openers x) eq_refl). unfold spare. simpl. lia.
    + done.
Qed.

(** A step of a stream that can go on is a step. *)
Lemma on_stream_goes x n lc after ss ss' :
  stream_at (x_openers x) n = Some ss → StreamCore.step lc ss = StreamCore.Next ss' → ∃ x', on_stream x n lc after = Next x'.
Proof.
  intros (o & Ho & Hs)%stream_at_Some Hst. unfold on_stream. rewrite Ho, Hs, Hst. by eexists.
Qed.

(** A goroutine in [Close] can go on, or the stream has something it waits for that can. *)
Lemma closer_goes U x n c ss t :
  inv recvType size U x → stream_at (x_openers x) n = Some ss → st_closers ss !! c = Some t → t ≠ CReturned →
  ∃ l x', internal l = true ∧ step s h recvType size l x = Next x'.
Proof.
  intros Hinv Hss Hc Ht. pose proof Hss as (o & Ho & Hs)%stream_at_Some.
  pose proof (reached_inv _ _ U ss (i_reached _ _ U x Hinv n o ss Ho Hs)) as Hi.
  assert (Hgo : ∀ lc ss', internal (XStream n lc) = true → of_others lc = true → StreamCore.step lc ss = StreamCore.Next ss' →
    ∃ l x', internal l = true ∧ step s h recvType size l x = Next x').
  { intros lc ss' Hint Hof Hst. destruct (on_stream_goes x n lc (λ _, x_loop x) ss ss' Hss Hst) as [x' Hx'].
    exists (XStream n lc), x'. split; [done|]. cbn [step]. by rewrite Hof. }
  pose proof (StreamCore.step_inv ∅ (LCloser c) ss Hi) as Hok. simpl in Hok. rewrite Hc in Hok.
  specialize (Hok ltac:(by intros ? ?%elem_of_nil)).
  destruct (step_closer ss c t) as [ss'| |] eqn:Hst; [|  |done].
  { apply (Hgo (LCloser c) ss'); [done..|]. simpl. by rewrite Hc. }
  destruct t; simpl in Hst; try done; unfold or_panic in Hst; repeat (case_match; try done).
  pose proof (iv_pending ∅ ss Hi) as Hp.
  assert (b_pending (st_base ss) ≠ 0%nat) as Hne by (by apply Nat.eqb_neq).
  destruct (decide (sum_list_with sender_pending (st_senders ss) = 0%nat)) as [Hz|Hz].
  - destruct (st_handling ss) as [hd|] eqn:Hh; [|simpl in Hp; lia].
    assert (x_loop x = LoopHandling n) as Hl.
    { apply (i_loop _ _ U x Hinv) with ss; [done|]. rewrite Hh. by eexists. }
    pose proof (StreamCore.step_inv ∅ (LHandling None) ss Hi) as Hok2. simpl in Hok2. rewrite Hh in Hok2.
    specialize (Hok2 ltac:(by intros ? ?%elem_of_nil)).
    assert (∃ ss', StreamCore.step (LHandling None) ss = StreamCore.Next ss') as [ss' Hst'].
    { simpl. rewrite Hh. destruct (step_handling ss hd) eqn:Hsh; [by eexists| |done].
      destruct hd; simpl in Hsh; try done; unfold or_panic in Hsh; repeat (case_match; try done). }
    destruct (on_stream_goes x n (LHandling None) (loop_handling n) ss ss' Hss Hst') as [x' Hx'].
    exists (XHandling None), x'. split; [done|]. cbn [step]. by rewrite Hl.
  - apply sum_list_with_pos in Hz as (m & t & Hm & Htp).
    pose proof (StreamCore.step_inv ∅ (LSender m None) ss Hi) as Hok2. simpl in Hok2. rewrite Hm in Hok2.
    specialize (Hok2 ltac:(by intros ? ?%elem_of_nil)).
    destruct t as [id raw|id raw|id|id err|id err]; simpl in Htp; [| | | |done].
    + eapply (Hgo (LSender m None)); [done..|]. simpl. by rewrite Hm.
    + eapply (Hgo (LSender m None)); [done..|]. simpl. by rewrite Hm.
    + eapply (Hgo (LCtxDone m)); [done..|]. simpl. by rewrite Hm.
    + destruct (step_sender ss m (SDeferred id err) None) as [ss'| |] eqn:Hsd; [|simpl in Hsd; unfold or_panic in Hsd; by case_match|done].
      eapply (Hgo (LSender m None) ss'); [done..|]. simpl. rewrite Hm. done.
Qed.

Lemma stream_close_progress U x k :
  inv recvType size U x → snapshot_inv x → x_closing x = Some k → k ≠ KReturned →
  ∃ l x', internal l = true ∧ step s h recvType size l x = Next x'.
Proof.
  intros Hinv [_ Hw] Hk Hne.
  assert (Hcl : ∀ x', close_step x k = Next x' → ∃ l x', internal l = true ∧ step s h recvType size l x = Next x').
  { intros x' Hx'. exists XClosing, x'. split; [done|]. cbn [step]. by rewrite Hk. }
  pose proof (i_streamSub _ _ U x Hinv) as Hr. pose proof (i_claimSub _ _ U x Hinv) as Hc.
  pose proof (i_complete _ _ U x Hinv) as Hcp. rewrite Hk in Hr, Hc, Hcp.
  destruct k as [| |ws| | | | |]; simpl in Hr, Hc, Hcp; [..|done].
  - by eapply Hcl.
  - by eapply Hcl.
  - destruct (forallb (closer_returned (x_openers x)) ws) eqn:Hall; [eapply Hcl; simpl; by rewrite Hall|].
    apply forallb_false in Hall as ([n c] & Hin & Hret). destruct (Hw ws n c Hk Hin) as (ss & Hss & Hlt).
    apply lookup_lt_is_Some in Hlt as [t Ht]. unfold closer_returned in Hret. simpl in Hret. rewrite Hss, Ht in Hret.
    eapply closer_goes; [done|done|exact Ht|]. by intros ->.
  - eapply Hcl. simpl. unfold chan_close. by rewrite Hr.
  - eapply Hcl. simpl. unfold chan_close. by rewrite Hc.
  - by eapply Hcl.
  - eapply Hcl. simpl. by rewrite Hcp.
Qed.

Lemma internal_sends ls : Forall (λ l, internal l = true) ls → sent_ids ls = [].
Proof. induction 1 as [|l ls Hl _ IH]; [done|]. rewrite sent_ids_cons, IH. by destruct l as [| | | | | | | | |? []| |]. Qed.

Lemma stream_run_measure ls x x' :
  Forall (λ l, internal l = true) ls → run s h recvType size ls x = Some x' → (length ls + measure x' <= measure x)%nat.
Proof.
  intros Hi. revert x. induction Hi as [|l ls Hl _ IH]; intros x Hr; simpl in Hr; [simplify_eq/=; lia|].
  destruct (step s h recvType size l x) as [x2| |] eqn:Hs; [|done..]. pose proof (stream_step_measure l x x2 Hl Hs).
  specialize (IH x2 Hr). simpl. lia.
Qed.

Lemma stream_run_closing ls x x' :
  run s h recvType size ls x = Some x' → is_Some (x_closing x) → is_Some (x_closing x').
Proof.
  revert x. induction ls as [|l ls IH]; intros x Hr Hk; simpl in Hr; [by simplify_eq|].
  destruct (step s h recvType size l x) as [x2| |] eqn:Hs; [|done..]. apply (IH x2 Hr).
  destruct (close_label l) as [->|[->|[Hl1 Hl2]]].
  - simpl in Hs. destruct (x_closing x); [done|by injection Hs as <-].
  - simpl in Hs. destruct (x_closing x) as [k|]; [|done].
    destruct k; simpl in Hs; try done; repeat case_match; by simplify_eq/=.
  - by destruct (step_closing s h recvType size l x x2 Hs Hl1 Hl2) as [-> _].
Qed.
End returning.

(** ** Properties *)

(** C11: the goroutine of an opening does what [handleOpenRequest] says: in any
    interleaving, what it did once it is over is what that function does, with the
    decision it got being a claim response the bus delivered for that opening, or none in
    time; so the server opens a claimed stream, acknowledges it and runs the handler only
    for a decision for it. *)
Theorem openings_refine_handleOpenRequest `{GrpcApi} `{!StatusApi} `{!Codec} (s : server) (h : streamHandler)
    (recvType : string) (size : nat) (ls : list label) (x : sys) (n : nat) (o : opener)
    (Hfresh : NoDup (sent_ids ls)) (Hrun : run s h recvType size ls (start h size) = Some x)
    (Ho : x_openers x !! n = Some o) (Hover : o_task o = TOver) :
  ∃ pubErr d ackErr handlerErr hijacked, known (claims_delivered ls) o d ∧
    acts_of x n = (handleOpenRequest s h (o_msg o) (o_nodeID o) (o_metadata o) pubErr d ackErr handlerErr hijacked).2.
Proof.
  pose proof (stream_run_opens s h recvType size [] [] ls _ x (stream_start_inv h recvType size []) (start_opens_inv s h size) Hfresh Hrun) as Hv.
  pose proof (v_acts s h _ x Hv n o Ho) as Ha. unfold task_acts in Ha. by rewrite Hover in Ha.
Qed.

(** C10: [close] ends every stream there is: a stream made before [close] looks at the table
    is closed, with the error its users get, by the time [close] calls [onCompleted]. *)
Theorem close_ends_streams `{GrpcApi} `{!StatusApi} `{!Codec} (s : server) (h : streamHandler)
    (recvType : string) (size : nat) (ls1 ls2 : list label) (x1 x : sys) (n : nat) (ss : st)
    (Hfresh : NoDup (sent_ids (ls1 ++ XClosing :: ls2)))
    (Hrun1 : run s h recvType size ls1 (start h size) = Some x1) (Hlooks : x_closing x1 = Some KSnapshot)
    (Hrun2 : run s h recvType size (XClosing :: ls2) x1 = Some x) (Hids : NoDup (stream_ids x1))
    (Hdone : x_completed x ≠ 0%nat) (Hss : stream_at (x_openers x1) n = Some ss) :
  ∃ ss', stream_at (x_openers x) n = Some ss' ∧ b_closed (st_base ss') = true ∧ is_Some (StreamCore.Err (st_base ss')).
Proof.
  rewrite sent_ids_app in Hfresh. pose proof Hfresh as Hnd. apply NoDup_app in Hnd as (Hnd & _ & _).
  pose proof (stream_run_inv s h recvType size [] ls1 _ x1 (stream_start_inv h recvType size []) Hnd Hrun1) as Hinv1.
  pose proof (stream_run_inv s h recvType size _ _ x1 x Hinv1 Hfresh Hrun2) as Hinv.
  assert (snapshot_inv (start h size)) as Hsn0 by (split; [done|by intros ? ? ? [=]]).
  pose proof (proj1 (snapshot_run s h recvType size [] ls1 _ x1 n ss (stream_start_inv h recvType size []) Hsn0 Hnd Hrun1)) as Hsn1.
  destruct (snapshot_run s h recvType size _ _ x1 x n ss Hinv1 Hsn1 Hfresh Hrun2) as [Hsn Hkeep].
  destruct (Hkeep Hss) as (ss' & Hss' & Hb & _). exists ss'.
  pose proof Hss' as (o' & Ho' & Hs')%stream_at_Some. pose proof (i_reached _ _ _ x Hinv n o' ss' Ho' Hs') as Hr'.
  assert (b_closed (st_base ss') = true) as Hcl.
  2:{ split_and!; [done..|]. by apply (iv_err ∅ ss' (reached_inv _ _ _ ss' Hr')). }
  pose proof Hss as (o & Ho & Hs)%stream_at_Some.
  destruct (b_adapterClosed (st_base ss)) eqn:Ha.
  { apply Hb. eapply adapterClosed_closed; [|done]. by eapply (i_reached _ _ _ x1 Hinv1). }
  cbn [run] in Hrun2. destruct (step s h recvType size XClosing x1) as [x2| |] eqn:Hst; [|done..].
  assert (n ∈ x_snapshot x2) as Hin.
  { eapply (snapshot_complete s h recvType size x1 x2); [|done..]. eapply run_table_full; [done| |exact Hrun1].
    by intros ? ? ? ?. }
  destruct (stream_run_cons s h recvType size _ XClosing ls2 x1 x2 Hinv1 Hfresh Hst) as [Hinv2 Hnd2].
  assert (past_snapshot (x_closing x2) = true) as Hp.
  { cbn [step] in Hst. rewrite Hlooks in Hst. simpl in Hst. by injection Hst as <-. }
  rewrite <- (snapshot_stays s h recvType size _ ls2 x2 x Hinv2 Hnd2 Hrun2 Hp) in Hin.
  rewrite (i_completed _ _ _ x Hinv) in Hdone.
  destruct (proj1 Hsn ltac:(by destruct (x_closing x) as [[]|]) n Hin) as (ss2 & Hss2 & [Hc|(ws & c & Hk & _)]);
    [congruence|by rewrite Hk in Hdone].
Qed.

(** [close] returns: once it was called, whatever the server's goroutines do next, they
    can go on until it has returned, and they stop after at most [measure] steps: an
    unacknowledged message does not hold it, for its [Send] times out. *)
Theorem stream_close_returns `{GrpcApi} `{!StatusApi} `{!Codec} (s : server) (h : streamHandler)
    (recvType : string) (size : nat) (ls ls' : list label) (x x' : sys)
    (Hfresh : NoDup (sent_ids ls)) (Hrun : run s h recvType size ls (start h size) = Some x)
    (Hclosing : is_Some (x_closing x)) (Hinternal : Forall (λ l, internal l = true) ls')
    (Hrun' : run s h recvType size ls' x = Some x') :
  (length ls' <= measure x)%nat ∧
  (x_closing x' = Some KReturned ∨ ∃ l x2, internal l = true ∧ step s h recvType size l x' = Next x2).
Proof.
  pose proof (stream_run_inv s h recvType size [] ls _ x (stream_start_inv h recvType size []) Hfresh Hrun) as Hinv.
  assert (snapshot_inv (start h size)) as Hsn0 by (split; [done|by intros ? ? ? [=]]).
  pose proof (proj1 (snapshot_run s h recvType size [] ls _ x 0 (NewStream ∅ 0 "") (stream_start_inv h recvType size []) Hsn0 Hfresh Hrun)) as Hsn.
  assert (NoDup (([] ++ sent_ids ls) ++ sent_ids ls')) as Hnd by (by rewrite (internal_sends ls' Hinternal), app_nil_r).
  split; [pose proof (stream_run_measure s h recvType size ls' x x' Hinternal Hrun'); lia|].
  destruct (stream_run_closing s h recvType size ls' x x' Hrun' Hclosing) as [k Hk]. rewrite Hk.
  assert (k = KReturned ∨ k ≠ KReturned) as [->|Hne] by (destruct k; (by left) || (by right)); [by left|right].
  eapply (stream_close_progress s h recvType size _ x' k); [|exact (proj1 (snapshot_run s h recvType size _ ls' x x' 0 (NewStream ∅ 0 "") Hinv Hsn Hnd Hrun'))|done|done].
  exact (stream_run_inv s h recvType size _ ls' x x' Hinv Hnd Hrun').
Qed.

Section close_witnesses.
#[local] Existing Instances grpc_numbers example_status.
#[local] Existing Instance Bus.Example.codec.

(** A close while a message waits for its acknowledgement, which times out. *)
Definition one_stream_closing : list label := one_stream ++ [XClose; XClosing].

Definition closes_it : list label :=
  [XStream 0 (LCloser 0); XStream 0 (LCloser 0); XStream 0 (LCtxDone 0); XStream 0 (LSender 0 None);
   XStream 0 (LCloser 0); XStream 0 (LCloser 0); XStream 0 (LCloser 0); XStream 0 (LCloser 0);
   XClosing; XClosing; XClosing; XClosing; XClosing].

(** The handler returns then. *)
Definition returns_then : list label :=
  [XOpener 0 stream_input; XStream 0 (LCloser 1); XOpener 0 stream_input].

#[local] Abbreviation stream_start := (start open_handler 4).
#[local] Abbreviation stream_run := (run stream_server open_handler "T" 4).

Definition looks (x : sys) : bool :=
  match x_closing x with Some KSnapshot => true | _ => false end &&
  match stream_at (x_openers x) 0 with Some _ => true | None => false end &&
  bool_decide (stream_ids x = ["STR_1"]).

Definition returned (x : sys) : bool :=
  match x_closing x with Some KReturned => true | _ => false end && (x_completed x =? 1)%nat.

Definition opening_over (x : sys) : bool :=
  match x_openers x !! 0%nat with Some o => match o_task o with TOver => true | _ => false end | None => false end.

Lemma closing_runs : ∃ x1 x x2,
  stream_run one_stream_closing stream_start = Some x1 ∧ stream_run (XClosing :: closes_it) x1 = Some x ∧
  stream_run (one_stream_closing ++ (XClosing :: closes_it) ++ returns_then) stream_start = Some x2 ∧
  looks x1 = true ∧ returned x = true ∧ opening_over x2 = true.
Proof.
  assert (from_option (λ x1, looks x1 && from_option returned false (stream_run (XClosing :: closes_it) x1)) false
    (stream_run one_stream_closing stream_start) = true) as Ho by (vm_compute; reflexivity).
  assert (from_option opening_over false
    (stream_run (one_stream_closing ++ (XClosing :: closes_it) ++ returns_then) stream_start) = true) as Ho2 by (vm_compute; reflexivity).
  destruct (stream_run one_stream_closing stream_start) as [x1|]; [|discriminate Ho]. cbn [from_option] in Ho.
  apply andb_prop in Ho as [Hl Ho]. destruct (stream_run (XClosing :: closes_it) x1) as [x|] eqn:Hx; [|discriminate Ho].
  destruct (stream_run (one_stream_closing ++ _) stream_start) as [x2|]; [|discriminate Ho2].
  exists x1, x, x2. split_and!; [reflexivity|exact Hx|reflexivity|exact Hl|exact Ho|exact Ho2].
Qed.

Lemma openings_refine_handleOpenRequest_witness :
  ∃ x o pubErr d ackErr handlerErr hijacked,
    stream_run (one_stream_closing ++ (XClosing :: closes_it) ++ returns_then) stream_start = Some x ∧
    x_openers x !! 0%nat = Some o ∧
    acts_of x 0 = (handleOpenRequest stream_server open_handler (o_msg o) (o_nodeID o) (o_metadata o)
      pubErr d ackErr handlerErr hijacked).2.
Proof.
  destruct closing_runs as (_ & _ & x & _ & _ & Hx & _ & _ & Ho). unfold opening_over in Ho.
  destruct (x_openers x !! 0%nat) as [o|] eqn:Hn; [|discriminate Ho].
  destruct (o_task o) eqn:Ht; try discriminate Ho.
  destruct (openings_refine_handleOpenRequest stream_server open_handler "T" 4
    (one_stream_closing ++ (XClosing :: closes_it) ++ returns_then) x 0 o (NoDup_singleton "REQ_2") Hx Hn Ht)
    as (pubErr & d & ackErr & handlerErr & hijacked & _ & Heq).
  exists x, o, pubErr, d, ackErr, handlerErr, hijacked. split; [exact Hx|]. split; [exact Hn|exact Heq].
Defined.

Lemma close_ends_streams_witness :
  ∃ x1 x ss', stream_run one_stream_closing stream_start = Some x1 ∧
    stream_run (XClosing :: closes_it) x1 = Some x ∧
    stream_at (x_openers x) 0 = Some ss' ∧ b_closed (st_base ss') = true.
Proof.
  destruct closing_runs as (x1 & x & _ & Hx1 & Hx & _ & Hl & Hr & _). unfold looks in Hl.
  apply andb_prop in Hl as [Hl Hids]. apply andb_prop in Hl as [Hk Hs]. apply bool_decide_eq_true in Hids.
  destruct (x_closing x1) as [k|] eqn:Hc; [|discriminate Hk]. destruct k; try discriminate Hk.
  destruct (stream_at (x_openers x1) 0) as [ss|] eqn:Hss; [|discriminate Hs].
  destruct (close_ends_streams stream_server open_handler "T" 4 one_stream_closing closes_it x1 x 0 ss
    (NoDup_singleton "REQ_2") Hx1 Hc Hx) as (ss' & Hss' & Hb & _).
  - rewrite Hids. apply NoDup_singleton.
  - unfold returned in Hr. apply andb_prop in Hr as [_ Hr]. apply Nat.eqb_eq in Hr. rewrite Hr. discriminate.
  - exact Hss.
  - exists x1, x, ss'. split; [exact Hx1|]. split; [exact Hx|]. split; [exact Hss'|exact Hb].
Defined.

Lemma stream_close_returns_witness :
  ∃ x1 x, stream_run one_stream_closing stream_start = Some x1 ∧
    stream_run (XClosing :: closes_it) x1 = Some x ∧ (14 <= measure x1)%nat ∧ returned x = true.
Proof.
  destruct closing_runs as (x1 & x & _ & Hx1 & Hx & _ & Hl & Hr & _). exists x1, x.
  split; [exact Hx1|]. split; [exact Hx|]. split; [|exact Hr].
  refine (proj1 (stream_close_returns stream_server open_handler "T" 4 one_stream_closing (XClosing :: closes_it) x1 x
    (NoDup_singleton "REQ_2") Hx1 _ _ Hx)).
  - unfold looks in Hl. destruct (x_closing x1); [eexists; reflexivity|discriminate Hl].
  - repeat constructor.
Defined.

(** The opening was past the check of [draining] when [close] ran. *)
Definition escaping : list label :=
  [XDeliver open_im; XTakeRequest 1; XClose; XClosing; XClosing; XClosing; XClosing; XClosing; XClosing; XClosing;
   XReturn; XOpener 0 stream_input; XOpener 0 stream_input; XOpener 0 stream_input].

Definition unclaimed_handler : streamHandler :=
  MkStreamHandler (MkRequestInfo (MkRPCInfo "svc" "m" [] false) false false false) None.

Definition escaped (x : sys) : bool :=
  match x_closing x, x_loop x with Some KReturned, LoopReturned => true | _, _ => false end &&
  match x_openers x !! 0%nat with
  | Some o =>
      match o_task o, o_stream o with TCalling, Some ss => negb (b_closed (st_base ss)) | _, _ => false end
  | None => false
  end.

(** A stream whose opening is past the check of [draining] when [close] runs escapes it:
    it is entered in the table after [close] looked, acknowledged and handed to the
    handler after [close] has returned, and nothing reads what the client sends on it. *)
Theorem stream_escapes_close :
  ∃ x, run stream_server unclaimed_handler "T" 4 escaping (start unclaimed_handler 4) = Some x ∧
    x_closing x = Some KReturned ∧ x_loop x = LoopReturned ∧
    ∃ o ss, x_openers x !! 0%nat = Some o ∧ o_task o = TCalling ∧ o_stream o = Some ss ∧ b_closed (st_base ss) = false.
Proof.
  assert (from_option escaped false (run stream_server unclaimed_handler "T" 4 escaping (start unclaimed_handler 4)) = true)
    as He by (vm_compute; reflexivity).
  destruct (run stream_server unclaimed_handler "T" 4 escaping (start unclaimed_handler 4)) as [x|]; [|discriminate He].
  exists x. split; [done|]. simpl in He. unfold escaped in He.
  destruct (x_closing x) as [[]|]; try discriminate He. destruct (x_loop x); try discriminate He.
  destruct (x_openers x !! 0%nat) as [o|]; [|discriminate He].
  destruct (o_task o) eqn:Ht; try discriminate He. destruct (o_stream o) as [ss|] eqn:Hs; [|discriminate He].
  split_and!; [done..|]. exists o, ss. split_and!; [done..|]. by apply negb_true_iff in He.
Qed.
End close_witnesses.
