(* ===== verification/StreamDelivery.v ===== *)
(** * StreamDelivery.v: what the two ends of a stream owe each other

    The runs of [StreamCore] for the two ends, with what an end does observed on the way:
    the messages its [Send]s give the adapter, and, of its [HandleStream], the messages it
    puts in the receive channel and the acknowledgements it sends.  The bus between them
    may lose, delay, reorder and repeat: but the messages that an end handles are ones that
    the other end gave its adapter, and the acknowledgements come from the other end, or
    from the handling of the opening.  A [Send] that succeeds has then delivered. *)
From S2P Require Import Prelude Errors Bus Info Float32 Interceptors Options Messages StreamCore.

Section delivery.
Context `{GrpcApi} `{!StatusApi} `{!Codec}.

(** A message put in the receive channel, and an acknowledgement sent, each under the
    request ID of the message handled. *)
Inductive hact : Type :=
| ARecv (id : string) (m : message)
| AAck (id : string).

(** [o_current] is the request ID of the message [HandleStream] was last called with;
    [o_taken] what the user took. *)
Record observed : Type := MkObserved {
  o_current : string;
  o_acts : list hact;
  o_taken : list message
}.

Definition observe (l : label) (s : st) (o : observed) : observed :=
  match l with
  | LHandle msg => MkObserved (sm_RequestId msg) (o_acts o) (o_taken o)
  | LHandling _ =>
      match st_handling s with
      | Some (HRecv m) =>
          match Recv (st_base s) m with
          | Some (_, None) => MkObserved (o_current o) (o_acts o ++ [ARecv (o_current o) m]) (o_taken o)
          | _ => o
          end
      | Some HAck => MkObserved (o_current o) (o_acts o ++ [AAck (o_current o)]) (o_taken o)
      | _ => o
      end
  | LReceive =>
      match chan_recv (b_recvChan (st_base s)) with
      | Received m _ => MkObserved (o_current o) (o_acts o) (o_taken o ++ [m])
      | _ => o
      end
  | _ => o
  end.

Fixpoint watch (ls : list label) (s : st) (o : observed) : option (st * observed) :=
  match ls with
  | [] => Some (s, o)
  | l :: ls => match step l s with Next s' => watch ls s' (observe l s o) | _ => None end
  end.

Definition nothing : observed := MkObserved "" [] [].

Lemma watch_run ls s o s' o' : watch ls s o = Some (s', o') → run ls s = Some s'.
Proof.
  revert s o. induction ls as [|l ls IH]; intros s o; simpl; [by intros [= -> _]|].
  destruct (step l s); [|done..]. apply IH.
Qed.

Definition recvs (acts : list hact) : list message :=
  omap (λ a, match a with ARecv _ m => Some m | AAck _ => None end) acts.

(** The message with this request ID that the end handled holds [m]. *)
Definition handled (ls : list label) (ty id : string) (m : message) : Prop :=
  ∃ msg raw, LHandle msg ∈ ls ∧ sm_RequestId msg = id ∧ sm_Body msg = Stream_Message raw ∧
    DeserializePayload ty raw = Ok m.

Record watch_inv (ls : list label) (s : st) (o : observed) : Prop := {
  wi_handling :
    match st_handling s with
    | Some (HRecv m) => handled ls (st_responseType s) (o_current o) m
    | Some HAck => ∃ m, handled ls (st_responseType s) (o_current o) m ∧ ARecv (o_current o) m ∈ o_acts o
    | _ => True
    end;
  wi_recv id m : ARecv id m ∈ o_acts o → handled ls (st_responseType s) id m;
  wi_ack id : AAck id ∈ o_acts o → ∃ m, ARecv id m ∈ o_acts o;
  wi_taken : recvs (o_acts o) = o_taken o ++ chan_buf (b_recvChan (st_base s))
}.

Lemma handled_mono ls l ty id m : handled ls ty id m → handled (ls ++ [l]) ty id m.
Proof. intros (msg & raw & Hin & ?). exists msg, raw. split; [apply elem_of_app; by left|done]. Qed.

(** A step that handles nothing, receives nothing and takes nothing. *)
Lemma watch_inv_quiet ls l s s' o :
  watch_inv ls s o → st_responseType s' = st_responseType s →
  (st_handling s' = st_handling s ∨ match st_handling s' with Some (HRecv _) | Some HAck => False | _ => True end) →
  chan_buf (b_recvChan (st_base s')) = chan_buf (b_recvChan (st_base s)) → watch_inv (ls ++ [l]) s' o.
Proof.
  intros [W1 W2 W3 W4] Hty Hh Hb. split; rewrite ?Hty, ?Hb; [| |done|done].
  - destruct Hh as [->|Hh]; [|by destruct (st_handling s') as [[]|]].
    destruct (st_handling s) as [[m| | | | |]|]; try done; [by apply handled_mono|].
    destruct W1 as (m & Hm & Hin). exists m. split; [by apply handled_mono|done].
  - intros id m Hin. by apply handled_mono, W2.
Qed.

Lemma watch_inv_step ls l s s' o : watch_inv ls s o → step l s = Next s' → watch_inv (ls ++ [l]) s' (observe l s o).
Proof.
  intros Hw Hstep. pose proof Hw as [W1 W2 W3 W4].
  destruct l as [id x|n e|n|n|cause|n|msg|e| | |]; simpl in Hstep.
  - unfold start_send, addPending in Hstep. repeat case_match; simplify_eq; apply (watch_inv_quiet ls _ s); by try left.
  - destruct (st_senders s !! n) as [t|]; [|done]. destruct t; simpl in Hstep; unfold or_panic, pending_Done in Hstep;
      repeat case_match; simplify_eq; apply (watch_inv_quiet ls _ s); by try left.
  - destruct (st_senders s !! n) as [[]|]; try done. case_bool_decide; [|done]. injection Hstep as <-.
    apply (watch_inv_quiet ls _ s); by try left.
  - destruct (st_senders s !! n) as [[]|]; try done. injection Hstep as <-. apply (watch_inv_quiet ls _ s); by try left.
  - injection Hstep as <-. apply (watch_inv_quiet ls _ s); by try left.
  - destruct (st_closers s !! n) as [t|]; [|done].
    destruct t; simpl in Hstep; unfold or_panic, setClosed, adapter_Close, close_recvChan, chan_close in Hstep;
      repeat case_match; simplify_eq/=; apply (watch_inv_quiet ls _ s); by try left.
  - destruct (st_handling s) eqn:Hh; [done|].
    assert (Hq : ∀ s2, st_responseType s2 = st_responseType s →
      match st_handling s2 with Some (HRecv _) | Some HAck => False | _ => True end →
      chan_buf (b_recvChan (st_base s2)) = chan_buf (b_recvChan (st_base s)) → watch_inv (ls ++ [LHandle msg]) s2 (observe (LHandle msg) s o)).
    { intros s2 Hty Hn Hb. split; simpl; rewrite ?Hty, ?Hb; [by destruct (st_handling s2) as [[]|]| |done|done].
      intros id m Hin. by apply handled_mono, W2. }
    unfold start_handle in Hstep. destruct (sm_Body msg) as [| raw| |] eqn:Hbody.
    + injection Hstep as <-. apply Hq; simpl; by rewrite ?Hh.
    + unfold addPending in Hstep. destruct (b_err (st_base s)) eqn:He; [destruct (b_closed _); injection Hstep as <-; apply Hq; simpl; by rewrite ?Hh|].
      destruct (DeserializePayload (st_responseType s) raw) as [m|er] eqn:Hd.
      * destruct (b_closed _); injection Hstep as <-; (split; simpl; [|intros id x Hin; by apply handled_mono, W2|done|done]);
          exists msg, raw; (split_and!; [apply elem_of_app; right; by apply list_elem_of_singleton|done..]).
      * destruct (b_closed _); injection Hstep as <-; by apply Hq.
    + repeat case_match; simplify_eq; apply Hq; simpl; by rewrite ?Hh.
    + unfold setClosed in Hstep. repeat case_match; simplify_eq; apply Hq; simpl; by rewrite ?Hh.
  - destruct (st_handling s) as [h|] eqn:Hh; [|done].
    destruct h as [m| | | | |]; simpl in Hstep; unfold observe; rewrite Hh.
    + unfold Recv in *. destruct (chan_send (b_recvChan (st_base s)) m) as [c| |] eqn:Hc; [| |done]; injection Hstep as <-.
      * unfold chan_send in Hc. destruct (chan_closed _); [done|]. destruct (_ <? _)%nat; [|done]. injection Hc as <-.
        split; simpl.
        -- exists m. split; [by apply handled_mono|]. apply elem_of_app. right. by apply list_elem_of_singleton.
        -- intros id x [Hin|[= -> ->]%list_elem_of_singleton]%elem_of_app; [by apply handled_mono, W2|by apply handled_mono].
        -- intros id [Hin|?%list_elem_of_singleton]%elem_of_app; [|done]. destruct (W3 id Hin) as [x Hx]. exists x.
           apply elem_of_app. by left.
        -- unfold recvs in *. rewrite omap_app, W4. simpl. by rewrite (assoc_L (++)).
      * apply (watch_inv_quiet ls _ s); [done|done|by right|done].
    + injection Hstep as <-. destruct W1 as (m & Hm & Hin). split; simpl; [done| | |].
      * intros id x [Hx|?%list_elem_of_singleton]%elem_of_app; [by apply handled_mono, W2|done].
      * intros id [Hx|[= ->]%list_elem_of_singleton]%elem_of_app;
          [destruct (W3 id Hx) as [x ?]; exists x|exists m]; apply elem_of_app; by left.
      * unfold recvs in *. rewrite omap_app, W4. simpl. by rewrite app_nil_r.
    + unfold or_panic, pending_Done in Hstep. destruct (b_pending _); [done|]. injection Hstep as <-.
      apply (watch_inv_quiet ls _ s); [done|done|by right|done].
    + unfold or_panic, adapter_Close in Hstep. destruct (b_adapterClosed _); [done|]. injection Hstep as <-.
      apply (watch_inv_quiet ls _ s); [done|done|by right|done].
    + injection Hstep as <-. apply (watch_inv_quiet ls _ s); [done|done|by right|done].
    + unfold or_panic, close_recvChan, chan_close in Hstep. destruct (chan_closed _); [done|]. injection Hstep as <-.
      apply (watch_inv_quiet ls _ s); [done|done|by right|done].
  - unfold observe. destruct (chan_recv (b_recvChan (st_base s))) as [m c| |] eqn:Hc; [|done..]. injection Hstep as <-.
    unfold chan_recv in Hc. destruct (chan_buf (b_recvChan (st_base s))) as [|x rest] eqn:Hb; [by destruct (chan_closed _)|].
    injection Hc as -> <-. split; simpl.
    + destruct (st_handling s) as [[y| | | | |]|]; try done; [by apply handled_mono|].
      destruct W1 as (y & Hy & Hin). exists y. split; [by apply handled_mono|done].
    + intros id y Hin. by apply handled_mono, W2.
    + done.
    + rewrite W4. by rewrite <- (assoc_L (++)).
  - injection Hstep as <-. apply (watch_inv_quiet ls _ s); by try left.
  - injection Hstep as <-. apply (watch_inv_quiet ls _ s); by try left.
Qed.

Lemma watch_inv_run ls0 ls s o s' o' : watch_inv ls0 s o → watch ls s o = Some (s', o') → watch_inv (ls0 ++ ls) s' o'.
Proof.
  revert ls0 s o. induction ls as [|l ls IH]; intros ls0 s o Hw; simpl.
  - intros [= <- <-]. by rewrite app_nil_r.
  - destruct (step l s) as [s1| |] eqn:Hs; [|done..]. intros Hr. rewrite cons_middle, (assoc_L (++)).
    eapply IH; [|exact Hr]. by apply watch_inv_step.
Qed.

Lemma watch_inv_new acks size ty : watch_inv [] (NewStream acks size ty) nothing.
Proof. split; simpl; [done|by intros ? ? ?%elem_of_nil|by intros ? ?%elem_of_nil|done]. Qed.

(** *** What an end publishes *)

(** What a step gives the adapter, which may answer with an error or not: the request ID
    and the message as it is sent. *)
Definition publishes (l : label) (s : st) : list (string * bytes) :=
  match l with
  | LSender n _ => match st_senders s !! n with Some (SPublish id raw) => [(id, raw)] | _ => [] end
  | _ => []
  end.

Fixpoint published (ls : list label) (s : st) : list (string * bytes) :=
  match ls with
  | [] => []
  | l :: ls => publishes l s ++ match step l s with Next s' => published ls s' | _ => [] end
  end.

(** What a [Send] of the run was given, in the form in which it is sent. *)
Definition given (ls : list label) (id : string) (raw : bytes) : Prop := ∃ m, LSend id m ∈ ls ∧ SerializePayload m = Ok raw.

(** A sender on its way has what its [Send] was given. *)
Definition senders_given (ls : list label) (s : st) : Prop := ∀ n id raw,
  st_senders s !! n = Some (SRegister id raw) ∨ st_senders s !! n = Some (SPublish id raw) → given ls id raw.

Lemma given_mono ls l id raw : given ls id raw → given (ls ++ [l]) id raw.
Proof. intros (m & Hin & Hm). exists m. split; [apply elem_of_app; by left|done]. Qed.

Lemma step_given ls l s s' : senders_given ls s → step l s = Next s' → senders_given (ls ++ [l]) s'.
Proof.
  intros Hg Hstep. assert (Hsame : st_senders s' = st_senders s → senders_given (ls ++ [l]) s').
  { intros Heq n id raw. rewrite Heq. intros Hn. by eapply given_mono, Hg. }
  assert (Hins : ∀ k t, st_senders s' = <[k := t]> (st_senders s) →
    (∀ id raw, t = SRegister id raw ∨ t = SPublish id raw → given ls id raw) → senders_given (ls ++ [l]) s').
  { intros k t Heq Ht n id raw. rewrite Heq. intros Hn. apply given_mono.
    destruct Hn as [[[-> <-]|[_ Hn]]%list_lookup_insert_cases|[[-> <-]|[_ Hn]]%list_lookup_insert_cases].
    - apply Ht. by left.
    - apply (Hg n). by left.
    - apply Ht. by right.
    - apply (Hg n). by right. }
  destruct l as [id m|n e|n|n|cause|n|msg|e| | |]; simpl in Hstep.
  - assert (Hadd : ∀ t, st_senders s' = st_senders s ++ [t] →
      (∀ i raw, t = SRegister i raw ∨ t = SPublish i raw → given (ls ++ [LSend id m]) i raw) → senders_given (ls ++ [LSend id m]) s').
    { intros t Heq Ht n i raw. rewrite Heq. intros [[Hn|[_ Hn]]%lookup_app_Some|[Hn|[_ Hn]]%lookup_app_Some];
        [apply given_mono, (Hg n); by left| |apply given_mono, (Hg n); by right|];
        apply list_lookup_singleton_Some in Hn as [_ Hn]; apply Ht; [by left|by right]. }
    unfold start_send in Hstep. destruct (addPending _) as [b [e|]]; [injection Hstep as <-; eapply Hadd; [done|by intros ?? [?|?]]|].
    destruct (SerializePayload m) as [raw|e] eqn:Hm; injection Hstep as <-; (eapply Hadd; [done|]); [|by intros ?? [?|?]].
    intros i r [[= <- <-]|?]; [|done]. exists m. split; [apply elem_of_app; right; by apply list_elem_of_singleton|done].
  - destruct (st_senders s !! n) as [t|] eqn:Hn; [|done]. destruct t as [id raw|id raw|id|id err|id err]; simpl in Hstep; try done.
    + injection Hstep as <-. eapply Hins; [done|]. intros i r [?|[= <- <-]]; [done|]. apply (Hg n). by left.
    + injection Hstep as <-. eapply Hins; [done|]. intros i r. destruct e; by intros [?|?].
    + unfold or_panic in Hstep. destruct (pending_Done _); [|done]. injection Hstep as <-. eapply Hins; [done|]. by intros i r [?|?].
  - destruct (st_senders s !! n) as [[]|]; try done. case_bool_decide; [|done]. injection Hstep as <-. eapply Hins; [done|]. by intros i r [?|?].
  - destruct (st_senders s !! n) as [[]|]; try done. injection Hstep as <-. eapply Hins; [done|]. by intros i r [?|?].
  - injection Hstep as <-. by apply Hsame.
  - destruct (st_closers s !! n) as [t|]; [|done]. apply Hsame. unfold step_closer, or_panic in Hstep. repeat case_match; by simplify_eq.
  - destruct (st_handling s); [done|]. apply Hsame. unfold start_handle in Hstep. repeat case_match; by simplify_eq.
  - destruct (st_handling s); [|done]. apply Hsame. unfold step_handling, or_panic in Hstep. repeat case_match; by simplify_eq.
  - apply Hsame. destruct (chan_recv _); by simplify_eq.
  - injection Hstep as <-. by apply Hsame.
  - injection Hstep as <-. by apply Hsame.
Qed.

(** What a run publishes under a request ID is the message that the [Send] with this ID
    was given. *)
Lemma published_given ls0 ls s id raw : senders_given ls0 s → (id, raw) ∈ published ls s → given (ls0 ++ ls) id raw.
Proof.
  revert ls0 s. induction ls as [|l ls IH]; intros ls0 s Hg; simpl; [by intros ?%elem_of_nil|].
  rewrite cons_middle, (assoc_L (++)). intros [Hin|Hin]%elem_of_app.
  - assert (given ls0 id raw) as (m & Hm & Hs); [|exists m; split; [rewrite !elem_of_app; tauto|done]].
    destruct l; simpl in Hin; try (by apply elem_of_nil in Hin).
    destruct (st_senders s !! n) as [[]|] eqn:Hn; try (by apply elem_of_nil in Hin).
    apply list_elem_of_singleton in Hin. injection Hin as -> ->. apply (Hg n). by right.
  - destruct (step l s) as [s'| |] eqn:Hstep; [|by apply elem_of_nil in Hin|by apply elem_of_nil in Hin]. eapply IH; [|done]. by eapply step_given.
Qed.
End delivery.

(** A stream keeps its message type. *)
Lemma step_type `{GrpcApi} `{!StatusApi} `{!Codec} l s s' : step l s = Next s' → st_responseType s' = st_responseType s.
Proof.
  destruct l as [id x|n e|n|n|cause|n|msg|e| | |]; simpl; intros Hstep;
    unfold start_send, start_handle, step_sender, step_closer, step_handling, or_panic in Hstep;
    repeat case_match; simplify_eq/=; done.
Qed.

(** ** Properties *)

(** C6: a [Send] that returns no error has delivered the message it was given: the other
    end has put it in its receive channel, where its user took it or can take it; and its
    user gets nothing but messages that this end's [Send] was given.  It holds of both
    ends, whatever their goroutines do and whatever the bus loses, delays, reorders or
    repeats, if the messages the other end handles are ones this end published, and an
    acknowledgement this end handles was sent by the other end for a message it handled, or
    is that of the opening (for which a client's stream waits from the start); and unless
    the context the stream was opened with ends ([send_unacknowledged]). *)
Theorem stream_send_delivered `{GrpcApi} `{!StatusApi} `{!Codec} (acksA acksB : gset string) (sizeA sizeB : nat)
    (tyA tyB : string) (lsA lsB : list label) (sA sB : st) (oB : observed) (n : nat) (id : string)
    (Hfresh : NoDup (send_ids lsA)) (Hnew : ∀ id, id ∈ send_ids lsA → id ∉ acksA) (Hparent : LParentDone ∉ lsA)
    (HrunA : run lsA (NewStream acksA sizeA tyA) = Some sA)
    (HrunB : watch lsB (NewStream acksB sizeB tyB) nothing = Some (sB, oB))
    (Htypes : ∀ id m, LSend id m ∈ lsA → FullName m = tyB)
    (Hacks : ∀ msg, LHandle msg ∈ lsA → sm_Body msg = Stream_Ack → AAck (sm_RequestId msg) ∈ o_acts oB ∨ sm_RequestId msg ∈ acksA)
    (Hmsgs : ∀ msg raw, LHandle msg ∈ lsB → sm_Body msg = Stream_Message raw →
       (sm_RequestId msg, raw) ∈ published lsA (NewStream acksA sizeA tyA)) :
  (st_senders sA !! n = Some (SReturned id None) →
   ∃ m, LSend id m ∈ lsA ∧ m ∈ o_taken oB ++ chan_buf (b_recvChan (st_base sB))) ∧
  (∀ m, m ∈ o_taken oB ++ chan_buf (b_recvChan (st_base sB)) → ∃ id, LSend id m ∈ lsA).
Proof.
  destruct (watch_inv_run [] lsB _ _ sB oB (watch_inv_new acksB sizeB tyB) HrunB) as [_ W2 W3 W4].
  assert (Hty : st_responseType sB = tyB).
  { apply watch_run in HrunB. assert (Hkeep : ∀ ls s s', run ls s = Some s' → st_responseType s' = st_responseType s).
    { intros ls. induction ls as [|l ls IH]; intros s s'; simpl; [by intros [= ->]|].
      destruct (step l s) as [s1| |] eqn:Hs; [|done..]. intros Hr. rewrite (IH s1 s' Hr). by eapply step_type. }
    by rewrite (Hkeep _ _ _ HrunB). }
  rewrite Hty in W2.
  assert (Hsent : ∀ id m, ARecv id m ∈ o_acts oB → LSend id m ∈ lsA).
  { intros id2 m (msg & raw & Hin & <- & Hb & Hd)%W2.
    destruct (published_given [] lsA (NewStream acksA sizeA tyA) _ _ ltac:(by intros ??? [?|?]) (Hmsgs msg raw Hin Hb)) as (m2 & Hs & Hm).
    unfold DeserializePayload in Hd. unfold SerializePayload in Hm. rewrite <- (Htypes _ _ Hs), (Unmarshal_Marshal m2 raw Hm) in Hd.
    by injection Hd as <-. }
  rewrite <- W4. split.
  - intros Hn. destruct (run_acks acksA lsA sA Hfresh Hnew Hparent sizeA tyA HrunA) as [A1 A2 A3].
    destruct (A1 id) as (msg & Hin & Hb & <-); [by eapply A2|].
    destruct (run_inv acksA lsA _ sA (NewStream_inv acksA sizeA tyA) Hfresh Hnew HrunA) as [_ Hids].
    assert (Hid : sm_RequestId msg ∈ send_ids lsA).
    { change (send_ids lsA) with ([] ++ send_ids lsA). simpl in Hids. rewrite <- Hids. apply list_elem_of_fmap.
      exists (SReturned (sm_RequestId msg) None). split; [done|]. by eapply list_elem_of_lookup_2. }
    destruct (Hacks msg Hin Hb) as [Hack|Hack]; [|by destruct (Hnew _ Hid)].
    destruct (W3 _ Hack) as [m Hm]. exists m. split; [by apply Hsent|].
    apply list_elem_of_omap. exists (ARecv (sm_RequestId msg) m). done.
  - intros m ([id2 m2|] & Hin & Heq)%list_elem_of_omap; [|done]. injection Heq as ->. exists id2. by apply Hsent.
Qed.

(** ** Witness *)

Section delivery_witness.
#[local] Existing Instances grpc_numbers example_status.
#[local] Existing Instance Bus.Example.codec.

Definition message_of (id : string) (raw : bytes) : StreamMsg := MkStreamMsg "STR_1" id 0 Second (Stream_Message raw).

(** A client's end, whose opening is acknowledged first. *)
Definition sends_x : list label :=
  [LHandle (ack_of "REQ_0"); LSend "REQ_1" a_message; LSender 0 None; LSender 0 None; LHandle (ack_of "REQ_1"); LAckTaken 0;
   LSender 0 None].

Definition handles_x : list label :=
  [LHandle (message_of "REQ_1" (bytes_of "x")); LHandling None; LHandling None; LHandling None; LReceive].

Lemma stream_send_delivered_witness : ∃ sB oB, watch handles_x (NewStream ∅ 4 "T") nothing = Some (sB, oB) ∧
  ∃ m, LSend "REQ_1" m ∈ sends_x ∧ m ∈ o_taken oB ++ chan_buf (b_recvChan (st_base sB)).
Proof.
  assert (from_option (λ s, match st_senders s !! 0%nat with Some (SReturned id None) => bool_decide (id = "REQ_1") | _ => false end) false
    (run sends_x (NewStream {["REQ_0"]} 4 "T")) = true) as HA by (vm_compute; reflexivity).
  destruct (run sends_x (NewStream {["REQ_0"]} 4 "T")) as [sA|] eqn:HrunA; [|discriminate HA].
  assert (from_option (λ so, match o_acts so.2 with [ARecv _ _; AAck id] => bool_decide (id = "REQ_1") | _ => false end) false
    (watch handles_x (NewStream ∅ 4 "T") nothing) = true) as HB by (vm_compute; reflexivity).
  destruct (watch handles_x (NewStream ∅ 4 "T") nothing) as [[sB oB]|] eqn:HrunB; [|discriminate HB].
  exists sB, oB. split; [reflexivity|]. simpl in HA, HB.
  refine (proj1 (stream_send_delivered {["REQ_0"]} ∅ 4 4 "T" "T" sends_x handles_x sA sB oB 0 "REQ_1"
    _ _ _ HrunA HrunB _ _ _) _).
  - apply NoDup_singleton.
  - intros id Hin. apply list_elem_of_singleton in Hin as ->. intros Hin. by apply elem_of_singleton in Hin.
  - intros Hin. unfold sends_x in Hin.
    repeat (apply elem_of_cons in Hin as [Hin|Hin]; [discriminate Hin|]). by apply elem_of_nil in Hin.
  - intros id m Hin. unfold sends_x in Hin.
    repeat (apply elem_of_cons in Hin as [Hin|Hin]; [try discriminate Hin|]); [|by apply elem_of_nil in Hin].
    injection Hin as _ ->. reflexivity.
  - intros msg Hin _. unfold sends_x in Hin.
    repeat (apply elem_of_cons in Hin as [Hin|Hin]; [try discriminate Hin|]); [| |by apply elem_of_nil in Hin].
    { right. injection Hin as ->. by apply elem_of_singleton. }
    left. injection Hin as ->. destruct (o_acts oB) as [|[i1 m1|i1] [|[i2 m2|i2] [|a rest]]]; try discriminate HB.
    apply bool_decide_eq_true in HB. subst i2. apply elem_of_cons. right. apply list_elem_of_singleton. reflexivity.
  - intros msg raw Hin Hb. unfold handles_x in Hin.
    repeat (apply elem_of_cons in Hin as [Hin|Hin]; [try discriminate Hin|]); [|by apply elem_of_nil in Hin].
    injection Hin as ->. injection Hb as <-.
    assert (published sends_x (NewStream {["REQ_0"]} 4 "T") = [("REQ_1", bytes_of "x")]) as -> by (vm_compute; reflexivity).
    by apply list_elem_of_singleton.
  - destruct (st_senders sA !! 0%nat) as [[| | | |id [e|]]|]; try discriminate HA.
    apply bool_decide_eq_true in HA. subst id. reflexivity.
Defined.
End delivery_witness.
