(* ===== verification/SubList.v ===== *)
(** * SubList.v: the subscribers of a channel of the in-process bus
    ([subList] of [src/pkg/bus/localbus/localbus.go])

    The slice of a list and the cursor of its round robin: where a new subscriber goes,
    how one leaves, and whom a queue's dispatch picks.  [LocalBus] puts locks and
    channels around them. *)
From S2P Require Import Prelude.

Section sub_list.
Context {A : Type}.

(** The index [create] uses: the first hole, or the end. *)
Fixpoint slot (subs : list (option A)) : nat :=
  match subs with
  | [] => 0
  | None :: _ => 0
  | Some _ :: subs => S (slot subs)
  end.

(** The slice after [create]. *)
Definition add_sub (subs : list (option A)) (a : A) : list (option A) :=
  if (slot subs <? length subs)%nat then <[slot subs := Some a]> subs else subs ++ [Some a].

(** The round robin of [dispatch]: [n] more turns of its loop.  [None] is the panic of
    an index out of range, [Some (next, None)] a loop that found nobody. *)
Fixpoint pick_loop (n : nat) (subs : list (option A)) (next : nat) : option (nat * option A) :=
  match n with
  | O => Some (next, None)
  | S n =>
      let next := if (length subs <=? next)%nat then 0%nat else next in
      s ← subs !! next;
      match s with
      | Some a => Some (S next, Some a)
      | None => pick_loop n subs (S next)
      end
  end.

Definition pick (subs : list (option A)) (next : nat) : option (nat * option A) :=
  pick_loop (S (length subs)) subs next.

(** Dispatches one after another, with nobody coming or going. *)
Fixpoint picks (n : nat) (subs : list (option A)) (next : nat) : option (list A) :=
  match n with
  | O => Some []
  | S n =>
      '(next, a) ← pick subs next;
      l ← picks n subs next;
      Some (from_option (λ a, a :: l) l a)
  end.

(** The subscribers in the order of their turns. *)
Definition rotation (subs : list (option A)) (next : nat) : list (option A) :=
  drop next subs ++ take next subs.

Definition turns (subs : list (option A)) (next : nat) : list A := omap id (rotation subs next).
End sub_list.

(** ** Lemmas *)

Section sub_list_lemmas.
Context {A : Type}.
Implicit Types (subs : list (option A)).

Lemma slot_le subs : (slot subs <= length subs)%nat.
Proof. induction subs as [|[?|] subs IH]; simpl; lia. Qed.

Lemma slot_hole subs : (slot subs < length subs)%nat → subs !! slot subs = Some None.
Proof. induction subs as [|[?|] subs IH]; simpl; [lia| |done]. intros. apply IH. lia. Qed.

Lemma slot_free subs a : subs !! slot subs ≠ Some (Some a).
Proof.
  pose proof (slot_le subs). destruct (decide (slot subs < length subs)%nat) as [Hs|Hs].
  - by rewrite slot_hole.
  - by rewrite lookup_ge_None_2 by lia.
Qed.

(** The slice after a subscriber left its place. *)
Lemma omap_leave subs i a :
  subs !! i = Some (Some a) → omap id subs ≡ₚ a :: omap id (<[i := None]> subs).
Proof.
  revert i. induction subs as [|[b|] subs IH]; intros [|i] Hi; simplify_eq/=; [done| |by apply IH].
  rewrite (IH i Hi). constructor.
Qed.

(** The subscriber added is at the slot, and the others are where they were. *)
Lemma lookup_add_sub subs a i :
  add_sub subs a !! i = if bool_decide (i = slot subs) then Some (Some a) else subs !! i.
Proof.
  unfold add_sub. pose proof (slot_le subs). case_bool_decide as Hi.
  - subst. destruct (Nat.ltb_spec (slot subs) (length subs)).
    + by apply list_lookup_insert_eq.
    + rewrite lookup_app_r by lia. by replace (slot subs - length subs)%nat with 0%nat by lia.
  - destruct (Nat.ltb_spec (slot subs) (length subs)).
    + by apply list_lookup_insert_ne.
    + destruct (decide (i < length subs)%nat); [by apply lookup_app_l|].
      rewrite (lookup_ge_None_2 subs i) by lia. apply lookup_ge_None_2. rewrite length_app. simpl. lia.
Qed.

Lemma length_add_sub subs a : (length subs <= length (add_sub subs a))%nat.
Proof. unfold add_sub. destruct (_ <? _)%nat; [by rewrite length_insert|rewrite length_app; lia]. Qed.

Lemma omap_add_sub subs a : omap id (add_sub subs a) ≡ₚ a :: omap id subs.
Proof.
  unfold add_sub. induction subs as [|[b|] subs IH]; simpl; [done| |done].
  destruct (slot subs <? length subs)%nat eqn:Hs.
  - apply Nat.ltb_lt in Hs. replace (S (slot subs) <? S (length subs))%nat with true
      by (symmetry; apply Nat.ltb_lt; lia). simpl. rewrite IH. constructor.
  - apply Nat.ltb_ge in Hs. replace (S (slot subs) <? S (length subs))%nat with false
      by (symmetry; apply Nat.ltb_ge; lia). simpl. rewrite IH. constructor.
Qed.

(** *** Round robin *)

Lemma rotation_step subs next s :
  subs !! next = Some s →
  rotation subs next = s :: drop (S next) subs ++ take next subs ∧
  rotation subs (S next) = (drop (S next) subs ++ take next subs) ++ [s].
Proof.
  intros Hs. unfold rotation. split.
  - by rewrite (drop_S _ _ _ Hs).
  - rewrite (take_S_r _ _ _ Hs). by rewrite (assoc_L (++)).
Qed.

(** The cursor at the end is the cursor at the start. *)
Lemma rotation_wrap subs next :
  (next <= length subs)%nat →
  rotation subs (if (length subs <=? next)%nat then 0%nat else next) = rotation subs next.
Proof.
  intros. destruct (Nat.leb_spec (length subs) next); [|done].
  unfold rotation. rewrite (drop_ge subs next), (take_ge subs next) by lia. apply app_nil_r.
Qed.

Lemma turns_perm subs next : turns subs next ≡ₚ omap id subs.
Proof. unfold turns, rotation. by rewrite (comm (++)), take_drop. Qed.

Lemma pick_loop_turn n subs next :
  (next <= length subs)%nat → subs ≠ [] →
  ∃ s next', subs !! next' = Some s ∧ rotation subs next' = rotation subs next ∧
    pick_loop (S n) subs next
    = match s with Some a => Some (S next', Some a) | None => pick_loop n subs (S next') end.
Proof.
  intros Hnext Hne. pose proof (rotation_wrap subs next Hnext) as Hrot. simpl.
  set (next' := if (length subs <=? next)%nat then 0%nat else next) in *.
  assert (next' < length subs)%nat as [s Hs]%lookup_lt_is_Some.
  { assert (0 < length subs)%nat by (destruct subs; [done|simpl; lia]).
    subst next'. destruct (Nat.leb_spec (length subs) next); lia. }
  exists s, next'. split_and!; [done|done|]. by rewrite Hs.
Qed.

Lemma pick_loop_found n subs next k a r :
  (next <= length subs)%nat → rotation subs next = replicate k None ++ Some a :: r → (k < n)%nat →
  ∃ next', pick_loop n subs next = Some (next', Some a) ∧ (next' <= length subs)%nat ∧
    turns subs next' = omap id r ++ [a].
Proof.
  revert n next r. induction k as [|k IH]; intros [|n] next r Hnext Hrot Hk; try lia;
    (destruct (pick_loop_turn n subs next) as (s & next0 & Hs & Hr0 & ->);
      [done|intros ->; unfold rotation in Hrot; by rewrite drop_nil, take_nil in Hrot|]);
    destruct (rotation_step subs next0 s Hs) as [Hr1 Hr2];
    pose proof (lookup_lt_Some _ _ _ Hs); rewrite Hr0, Hrot in Hr1; simpl in Hr1.
  - injection Hr1 as <- Hr1. exists (S next0). split_and!; [done|lia|].
    unfold turns. rewrite Hr2, <- Hr1, omap_app. done.
  - injection Hr1 as <- Hr1. rewrite <- Hr1 in Hr2.
    destruct (IH n (S next0) (r ++ [None])) as (next' & -> & Hle & Ht); [lia| |lia|].
    + by rewrite Hr2, <- (assoc_L (++)).
    + exists next'. split_and!; [done|done|]. rewrite Ht, omap_app. simpl. by rewrite app_nil_r.
Qed.

Lemma pick_loop_nobody n subs next :
  (next <= length subs)%nat → subs ≠ [] → turns subs next = [] →
  ∃ next', pick_loop n subs next = Some (next', None) ∧ (next' <= length subs)%nat.
Proof.
  revert next. induction n as [|n IH]; intros next Hnext Hne Ht; [by exists next|].
  destruct (pick_loop_turn n subs next) as (s & next0 & Hs & Hr0 & ->); [done..|].
  destruct (rotation_step subs next0 s Hs) as [Hr1 Hr2]. pose proof (lookup_lt_Some _ _ _ Hs).
  unfold turns in *. rewrite <- Hr0, Hr1 in Ht. destruct s as [a|]; [done|].
  apply IH; [lia|done|]. rewrite Hr2, omap_app. change (omap id (drop (S next0) subs ++ take next0 subs) = []) in Ht.
  by rewrite Ht.
Qed.

Lemma first_live (l : list (option A)) a tl :
  omap id l = a :: tl → ∃ k r, l = replicate k None ++ Some a :: r ∧ tl = omap id r ∧ (k < length l)%nat.
Proof.
  induction l as [|[b|] l IH]; intros Hl; simplify_eq/=.
  - exists 0%nat, l. split_and!; [done|done|simpl; lia].
  - destruct (IH Hl) as (k & r & -> & -> & Hk). exists (S k), r. split_and!; [done|done|simpl; lia].
Qed.

(** A dispatch picks the first in turn, who goes to the back; nobody only if there is
    nobody; it never leaves the slice. *)
Lemma pick_spec subs next :
  (next <= length subs)%nat → subs ≠ [] →
  ∃ next', pick subs next = Some (next', head (turns subs next)) ∧ (next' <= length subs)%nat ∧
    match turns subs next with a :: l => turns subs next' = l ++ [a] | [] => True end.
Proof.
  intros Hnext Hne. unfold pick. destruct (turns subs next) as [|a tl] eqn:Ht.
  - destruct (pick_loop_nobody (S (length subs)) subs next) as (next' & -> & Hle); [done..|].
    by exists next'.
  - destruct (first_live _ _ _ Ht) as (k & r & Hr & -> & Hk).
    assert (length (rotation subs next) = length subs) as Hlen.
    { unfold rotation. rewrite length_app, length_drop, length_take. lia. }
    destruct (pick_loop_found (S (length subs)) subs next k a r) as (next' & -> & Hle & Htn); [done|done|lia|].
    by exists next'.
Qed.

Lemma pick_in subs next next' a : pick subs next = Some (next', Some a) → Some a ∈ subs.
Proof.
  unfold pick. generalize (S (length subs)) as n. intros n. revert next.
  induction n as [|n IH]; intros next Hp; simplify_eq/=.
  destruct (subs !! _) as [[b|]|] eqn:Hs; simplify_eq/=; [by eapply list_elem_of_lookup_2|eauto].
Qed.
End sub_list_lemmas.

(** ** Properties *)

(** A queue's messages go round its subscribers: with nobody coming or going, message
    [i] goes to the one whose turn it is, and the turns are each subscriber once, holes
    in the slice or not.  No dispatch leaves the slice. *)
Theorem queue_round_robin {A} (subs : list (option A)) (next n : nat) (Hne : subs ≠ [])
    (Hnext : (next <= length subs)%nat) (Hsome : turns subs next ≠ []) :
  turns subs next ≡ₚ omap id subs ∧
  ∃ l, picks n subs next = Some l ∧ length l = n ∧
    ∀ i, (i < n)%nat → l !! i = turns subs next !! (i mod length (turns subs next))%nat.
Proof.
  split; [apply turns_perm|]. revert next Hnext Hsome.
  induction n as [|n IH]; intros next Hnext Hsome; [exists []; by split_and!; [..|lia]|].
  destruct (pick_spec subs next Hnext Hne) as (next' & Hp & Hle & Hturns).
  destruct (turns subs next) as [|a tl] eqn:Ht; [done|].
  destruct (IH next' Hle) as (l & Hl & Hlen & Hi).
  { rewrite Hturns. by destruct tl. }
  exists (a :: l). split_and!; [simpl; rewrite Hp; simpl; by rewrite Hl|simpl; by f_equal|].
  intros [|i] Hlt.
  - by rewrite Nat.Div0.mod_0_l.
  - change ((a :: l) !! S i) with (l !! i). rewrite Hi by lia. rewrite Hturns, length_app.
    change (length [a]) with 1%nat. change (length (a :: tl)) with (S (length tl)).
    replace (length tl + 1)%nat with (S (length tl)) by lia.
    destruct (decide (S (i mod S (length tl)) < S (length tl))%nat) as [Hm|Hm].
    + replace (S i mod S (length tl))%nat with (S (i mod S (length tl))).
      * rewrite lookup_app_l by lia. done.
      * rewrite <- (Nat.add_1_r i), <- (Nat.Div0.add_mod_idemp_l i 1), Nat.add_1_r.
        by rewrite (Nat.mod_small (S _)).
    + assert (i mod S (length tl) = length tl)%nat as Hmod.
      { pose proof (Nat.mod_upper_bound i (S (length tl))). lia. }
      replace (S i mod S (length tl))%nat with 0%nat.
      * by rewrite Hmod, lookup_app_r, Nat.sub_diag by lia.
      * rewrite <- (Nat.add_1_r i), <- (Nat.Div0.add_mod_idemp_l i 1), Hmod, Nat.add_1_r.
        by rewrite Nat.Div0.mod_same.
Qed.

Section sub_list_witness.
Lemma queue_round_robin_witness :
  ∃ l, picks 5 [Some "a"; None; Some "b"; None] 2 = Some l ∧ l !! 4%nat = Some "b".
Proof.
  destruct (queue_round_robin [Some "a"; None; Some "b"; None] 2 5) as (_ & l & Hl & _ & Hi);
    [discriminate|simpl; lia|discriminate|].
  exists l. split; [exact Hl|]. rewrite (Hi 4%nat) by lia. reflexivity.
Defined.
End sub_list_witness.
