(* ===== verification/LocalBus.v ===== *)
(** * LocalBus.v: the in-process bus ([src/pkg/bus/localbus/localbus.go])

    The transport as its goroutines see it: publishers, subscribers and closers, each
    at a point of its code, and the objects they share.  A step is what a goroutine
    does between two points where another may come in: taking a lock, or one write to
    a subscription's channel.  A lock is held by the goroutines whose point is inside
    its critical section, so that it is free when there is none; Go's locks grant
    fewer interleavings (a waiting writer stops new readers).

    Subscription lists and subscriptions are pointers in the source: here indices of
    the lists of all those ever made. *)
From S2P Require Import Prelude Bus SubList.

(** ** State *)

Record subList : Type := MkSubList {
  sl_channel : string;
  sl_queue : bool;
  sl_subs : list (option nat);
  sl_subCount : Z;
  sl_next : nat
}.

(** [sub_list] and [sub_index] are what [onClose] captures. *)
Record subscription : Type := MkSubscription {
  sub_list : nat;
  sub_index : nat;
  sub_canceled : bool;
  sub_msgChan : chan bytes
}.

(** Where a goroutine is.
    - A publisher: before the lookup, before the dispatches left, in the range of a
      broadcast holding the list's read lock, in the write of a queue's dispatch
      holding its lock, or returned.
    - A subscriber: before [subscribe], in it holding the transport's lock and about to
      create the subscription, or returned.
    - A [Close]: before [cancel], before [onClose], in it holding the transport's
      lock and waiting for the list's, before closing the channel, or returned. *)
Inductive thread : Type :=
| PLookup (channel : string) (b : bytes)
| PDispatch (lists : list nat) (b : bytes)
| PBroadcast (l : nat) (rest : list (option nat)) (lists : list nat) (b : bytes)
| PQueueWrite (l s : nat) (lists : list nat) (b : bytes)
| PDone
| SStart (queue : bool) (channel : string) (size : nat)
| SCreate (l size : nat)
| SDone (s : nat)
| CCancel (s : nat)
| CTransport (s : nat)
| CList (s : nat)
| CCloseChan (s : nat)
| CDone (s : nat).

#[export] Instance thread_eq_dec : EqDecision thread.
Proof. solve_decision. Defined.

Record transport : Type := MkTransport {
  t_subs : gmap string nat;
  t_queues : gmap string nat;
  t_lists : list subList;
  t_all : list subscription;
  t_threads : list thread
}.

Definition New : transport := MkTransport ∅ ∅ [] [] [].

Inductive outcome : Type :=
| Next (s : transport)
| Blocked
| Panic.

(** ** Locks *)

Definition holds_transport (t : thread) : bool :=
  match t with SCreate _ _ | CList _ => true | _ => false end.

Definition reads_list (l : nat) (t : thread) : bool :=
  match t with PBroadcast l' _ _ _ => bool_decide (l' = l) | _ => false end.

Definition writes_list (l : nat) (t : thread) : bool :=
  match t with PQueueWrite l' _ _ _ => bool_decide (l' = l) | _ => false end.

Definition transport_free (s : transport) : bool :=
  forallb (λ t, negb (holds_transport t)) (t_threads s).

(** The list's lock can be taken for writing, or for reading. *)
Definition list_free (s : transport) (l : nat) : bool :=
  forallb (λ t, negb (reads_list l t || writes_list l t)) (t_threads s).

Definition list_readable (s : transport) (l : nat) : bool :=
  forallb (λ t, negb (writes_list l t)) (t_threads s).

(** ** Operations *)

Definition with_thread (s : transport) (n : nat) (t : thread) : transport :=
  MkTransport (t_subs s) (t_queues s) (t_lists s) (t_all s) (<[n := t]> (t_threads s)).

Definition add_thread (s : transport) (t : thread) : transport :=
  MkTransport (t_subs s) (t_queues s) (t_lists s) (t_all s) (t_threads s ++ [t]).

Definition with_list (s : transport) (l : nat) (L : subList) : transport :=
  MkTransport (t_subs s) (t_queues s) (<[l := L]> (t_lists s)) (t_all s) (t_threads s).

Definition with_sub (s : transport) (o : nat) (u : subscription) : transport :=
  MkTransport (t_subs s) (t_queues s) (t_lists s) (<[o := u]> (t_all s)) (t_threads s).

Definition set_msgChan (u : subscription) (c : chan bytes) : subscription :=
  MkSubscription (sub_list u) (sub_index u) (sub_canceled u) c.

Definition set_canceled (u : subscription) : subscription :=
  MkSubscription (sub_list u) (sub_index u) true (sub_msgChan u).

(** [subscription.write]: the [select] takes the context's end when [drop]. *)
Definition write (s : transport) (o : nat) (b : bytes) (drop : bool) : outcome :=
  match t_all s !! o with
  | None => Panic
  | Some u =>
      if drop then if sub_canceled u then Next s else Blocked
      else
        match chan_send (sub_msgChan u) b with
        | Sent c => Next (with_sub s o (set_msgChan u c))
        | SendBlocks => Blocked
        | SendPanics => Panic
        end
  end.

Definition and_then (o : outcome) (k : transport → transport) : outcome :=
  match o with Next s => Next (k s) | Blocked => Blocked | Panic => Panic end.

(** The lists [Publish] looks up. *)
Definition lists_of (s : transport) (channel : string) : list nat :=
  option_list (t_subs s !! channel) ++ option_list (t_queues s !! channel).

(** [subList.dispatch] up to its first write. *)
Definition dispatch (s : transport) (n l : nat) (lists : list nat) (b : bytes) : outcome :=
  match t_lists s !! l with
  | None => Panic
  | Some L =>
      if sl_queue L then
        if list_free s l then
          match pick (sl_subs L) (sl_next L) with
          | None => Panic
          | Some (next, o) =>
              let s := with_list s l (MkSubList (sl_channel L) (sl_queue L) (sl_subs L) (sl_subCount L) next) in
              Next (with_thread s n (match o with Some o => PQueueWrite l o lists b | None => PDispatch lists b end))
          end
        else Blocked
      else if list_readable s l then Next (with_thread s n (PBroadcast l (sl_subs L) lists b))
      else Blocked
  end.

(** [subscribe] up to [create]. *)
Definition subscribe (s : transport) (n : nat) (queue : bool) (channel : string) (size : nat) : outcome :=
  if transport_free s then
    match (if queue then t_queues s else t_subs s) !! channel with
    | Some l => Next (with_thread s n (SCreate l size))
    | None =>
        let l := length (t_lists s) in
        Next (with_thread
          (MkTransport
             (if queue then t_subs s else <[channel := l]> (t_subs s))
             (if queue then <[channel := l]> (t_queues s) else t_queues s)
             (t_lists s ++ [MkSubList channel queue [] 0 0]) (t_all s) (t_threads s))
          n (SCreate l size))
    end
  else Blocked.

(** [subList.create]. *)
Definition create (s : transport) (n l size : nat) : outcome :=
  match t_lists s !! l with
  | None => Panic
  | Some L =>
      if list_free s l then
        let o := length (t_all s) in
        let L' := MkSubList (sl_channel L) (sl_queue L) (add_sub (sl_subs L) o)
                    (sl_subCount L + 1) (sl_next L) in
        let u := MkSubscription l (slot (sl_subs L)) false (make_chan size) in
        Next (with_thread
          (MkTransport (t_subs s) (t_queues s) (<[l := L']> (t_lists s)) (t_all s ++ [u]) (t_threads s))
          n (SDone o))
      else Blocked
  end.

(** [onUnsubscribe] once it holds the transport's lock. *)
Definition onUnsubscribe (s : transport) (n o : nat) : outcome :=
  match t_all s !! o with
  | None => Panic
  | Some u =>
      let l := sub_list u in
      match t_lists s !! l with
      | None => Panic
      | Some L =>
          if list_free s l then
            if (sub_index u <? length (sl_subs L))%nat then
              let count := sl_subCount L - 1 in
              let L' := MkSubList (sl_channel L) (sl_queue L) (<[sub_index u := None]> (sl_subs L))
                          count (sl_next L) in
              let gone := count =? 0 in
              Next (with_thread
                (MkTransport
                   (if gone && negb (sl_queue L) then delete (sl_channel L) (t_subs s) else t_subs s)
                   (if gone && sl_queue L then delete (sl_channel L) (t_queues s) else t_queues s)
                   (<[l := L']> (t_lists s)) (t_all s) (t_threads s))
                n (CCloseChan o))
            else Panic
          else Blocked
      end
  end.

(** What goroutine [n], at [t], does next. *)
Definition thread_step (s : transport) (n : nat) (t : thread) (drop : bool) : outcome :=
  match t with
  | PLookup channel b =>
      if transport_free s then Next (with_thread s n (PDispatch (lists_of s channel) b)) else Blocked
  | PDispatch [] b => Next (with_thread s n PDone)
  | PDispatch (l :: lists) b => dispatch s n l lists b
  | PBroadcast l [] lists b => Next (with_thread s n (PDispatch lists b))
  | PBroadcast l (None :: rest) lists b => Next (with_thread s n (PBroadcast l rest lists b))
  | PBroadcast l (Some o :: rest) lists b =>
      and_then (write s o b drop) (λ s, with_thread s n (PBroadcast l rest lists b))
  | PQueueWrite l o lists b => and_then (write s o b drop) (λ s, with_thread s n (PDispatch lists b))
  | SStart queue channel size => subscribe s n queue channel size
  | SCreate l size => create s n l size
  | CCancel o =>
      match t_all s !! o with
      | None => Panic
      | Some u => Next (with_thread (with_sub s o (set_canceled u)) n (CTransport o))
      end
  | CTransport o => if transport_free s then Next (with_thread s n (CList o)) else Blocked
  | CList o => onUnsubscribe s n o
  | CCloseChan o =>
      match t_all s !! o with
      | None => Panic
      | Some u =>
          match chan_close (sub_msgChan u) with
          | None => Panic
          | Some c => Next (with_thread (with_sub s o (set_msgChan u c)) n (CDone o))
          end
      end
  | PDone | SDone _ | CDone _ => Blocked
  end.

(** The subscription a goroutine closes. *)
Definition closes (t : thread) : option nat :=
  match t with CCancel o | CTransport o | CList o | CCloseChan o | CDone o => Some o | _ => None end.

(** What happens: calls, a goroutine's next step, a subscriber's read, and the end of
    the context a subscription was made with.  A subscription is closed once, as
    [closeOnce] of [src/pkg/bus/subscription.go] sees to. *)
Inductive label : Type :=
| LPublish (channel : string) (b : bytes)
| LSubscribe (queue : bool) (channel : string) (size : nat)
| LClose (o : nat)
| LStep (n : nat) (drop : bool)
| LRead (o : nat)
| LContextDone (o : nat).

Definition step (l : label) (s : transport) : outcome :=
  match l with
  | LPublish channel b => Next (add_thread s (PLookup channel b))
  | LSubscribe queue channel size => Next (add_thread s (SStart queue channel size))
  | LClose o =>
      if bool_decide (o < length (t_all s))%nat
         && forallb (λ t, bool_decide (closes t ≠ Some o)) (t_threads s)
      then Next (add_thread s (CCancel o)) else Blocked
  | LStep n drop => match t_threads s !! n with Some t => thread_step s n t drop | None => Blocked end
  | LRead o =>
      match t_all s !! o with
      | Some u =>
          match chan_recv (sub_msgChan u) with
          | Received _ c => Next (with_sub s o (set_msgChan u c))
          | RecvClosed => Next s
          | RecvBlocks => Blocked
          end
      | None => Blocked
      end
  | LContextDone o =>
      match t_all s !! o with
      | Some u => Next (with_sub s o (set_canceled u))
      | None => Blocked
      end
  end.

Fixpoint run (ls : list label) (s : transport) : option transport :=
  match ls with
  | [] => Some s
  | l :: ls => match step l s with Next s => run ls s | _ => None end
  end.

(** ** Invariant *)

Definition maps (s : transport) (queue : bool) : gmap string nat :=
  if queue then t_queues s else t_subs s.

(** The list is the one a lookup of its channel finds. *)
Definition mapped (s : transport) (l : nat) (L : subList) : Prop :=
  maps s (sl_queue L) !! sl_channel L = Some l.

(** The subscription is in its list's slice. *)
Definition live (s : transport) (o : nat) : Prop :=
  ∃ u L, t_all s !! o = Some u ∧ t_lists s !! sub_list u = Some L ∧
    sl_subs L !! sub_index u = Some (Some o).

(** The list has a slice to dispatch on. *)
Definition valid (s : transport) (l : nat) : Prop :=
  ∃ L, t_lists s !! l = Some L ∧ sl_subs L ≠ [].

Definition open (s : transport) (o : nat) : Prop :=
  ∃ u, t_all s !! o = Some u ∧ chan_closed (sub_msgChan u) = false.

Definition thread_ok (s : transport) (t : thread) : Prop :=
  match t with
  | PDispatch lists _ => Forall (valid s) lists
  | PBroadcast l rest lists _ =>
      Forall (valid s) lists ∧ ∃ L pre, t_lists s !! l = Some L ∧ sl_subs L = pre ++ rest
  | PQueueWrite l o lists _ =>
      Forall (valid s) lists ∧ ∃ L, t_lists s !! l = Some L ∧ Some o ∈ sl_subs L
  | SCreate l _ => ∃ L, t_lists s !! l = Some L ∧ mapped s l L
  | CCancel o | CTransport o | CList o => live s o
  | CCloseChan o => ¬ live s o ∧ open s o
  | _ => True
  end.

(** The lists, the subscriptions and the maps agree. *)
Record core_ok (s : transport) : Prop := {
  co_subs l L i o : t_lists s !! l = Some L → sl_subs L !! i = Some (Some o) →
    ∃ u, t_all s !! o = Some u ∧ sub_list u = l ∧ sub_index u = i ∧
      chan_closed (sub_msgChan u) = false;
  co_all o : (o < length (t_all s))%nat →
    (∀ n t, t_threads s !! n = Some t → closes t ≠ Some o) → live s o;
  co_next l L : t_lists s !! l = Some L → (sl_next L <= length (sl_subs L))%nat;
  co_count l L : t_lists s !! l = Some L → sl_subCount L = Z.of_nat (length (omap id (sl_subs L)));
  co_empty l L : t_lists s !! l = Some L → sl_subs L = [] →
    ∃ n size, t_threads s !! n = Some (SCreate l size);
  co_mapped l L : t_lists s !! l = Some L → omap id (sl_subs L) ≠ [] → mapped s l L;
  co_maps queue channel l : maps s queue !! channel = Some l →
    ∃ L, t_lists s !! l = Some L ∧ sl_channel L = channel ∧ sl_queue L = queue
}.

Record inv (s : transport) : Prop := {
  iv_threads n t : t_threads s !! n = Some t → thread_ok s t;
  iv_transport n m t t' : t_threads s !! n = Some t → t_threads s !! m = Some t' →
    holds_transport t = true → holds_transport t' = true → n = m;
  iv_closers n m t t' o : t_threads s !! n = Some t → t_threads s !! m = Some t' →
    closes t = Some o → closes t' = Some o → n = m;
  iv_core : core_ok s
}.

(** *** Locks *)

Lemma transport_free_none s n t :
  transport_free s = true → t_threads s !! n = Some t → holds_transport t = false.
Proof.
  intros Hf Hn. apply (forallb_lookup _ _ _ _ Hf) in Hn. by destruct (holds_transport t).
Qed.

Lemma list_free_none s l n t :
  list_free s l = true → t_threads s !! n = Some t → reads_list l t || writes_list l t = false.
Proof.
  intros Hf Hn. apply (forallb_lookup _ _ _ _ Hf) in Hn. by destruct (reads_list l t || writes_list l t).
Qed.

Lemma live_lt s o : live s o → (o < length (t_all s))%nat.
Proof. intros (u & _ & Hu & _). by eapply lookup_lt_Some. Qed.

Lemma open_lt s o : open s o → (o < length (t_all s))%nat.
Proof. intros (u & Hu & _). by eapply lookup_lt_Some. Qed.

(** *** Frames *)

(** A goroutine's point stays right under what the others do. *)
Lemma thread_ok_frame s s' t :
  (∀ l, valid s l → valid s' l) →
  (∀ l L, reads_list l t || writes_list l t = true → t_lists s !! l = Some L →
     ∃ L', t_lists s' !! l = Some L' ∧ sl_subs L' = sl_subs L) →
  (∀ l L size, t = SCreate l size → t_lists s !! l = Some L → mapped s l L →
     ∃ L', t_lists s' !! l = Some L' ∧ mapped s' l L') →
  (∀ o, closes t = Some o → (o < length (t_all s))%nat →
     (live s o ↔ live s' o) ∧ (open s o → open s' o)) →
  thread_ok s t → thread_ok s' t.
Proof.
  intros Hv Hb Hm Hc. destruct t; simpl; try done.
  - intros Hl. by eapply Forall_impl.
  - intros [Hl (L & pre & HL & Hp)]. split; [by eapply Forall_impl|].
    destruct (Hb l L) as (L' & HL' & Hs); [simpl; by rewrite bool_decide_eq_true_2|done|].
    exists L', pre. by rewrite Hs.
  - intros [Hl (L & HL & Hp)]. split; [by eapply Forall_impl|].
    destruct (Hb l L) as (L' & HL' & Hs); [simpl; by rewrite bool_decide_eq_true_2|done|].
    exists L'. by rewrite Hs.
  - intros (L & HL & Hp). by eapply Hm.
  - intros Hl. apply Hc; [done|by apply live_lt|done].
  - intros Hl. apply Hc; [done|by apply live_lt|done].
  - intros Hl. apply Hc; [done|by apply live_lt|done].
  - intros [? Ho]. destruct (Hc _ eq_refl (open_lt _ _ Ho)) as [Hlive Hopen].
    split; [by rewrite <- Hlive|auto].
Qed.

(** Steps that leave lists, indices and maps as they are. *)
Record same (s s' : transport) : Prop := {
  sa_maps queue : maps s' queue = maps s queue;
  sa_lists l L : t_lists s !! l = Some L → ∃ L', t_lists s' !! l = Some L' ∧
    sl_channel L' = sl_channel L ∧ sl_queue L' = sl_queue L ∧ sl_subs L' = sl_subs L ∧
    sl_subCount L' = sl_subCount L ∧ (sl_next L <= length (sl_subs L) → sl_next L' <= length (sl_subs L'))%nat;
  sa_llen : length (t_lists s') = length (t_lists s);
  sa_all o u : t_all s !! o = Some u → ∃ u', t_all s' !! o = Some u' ∧
    sub_list u' = sub_list u ∧ sub_index u' = sub_index u;
  sa_alen : length (t_all s') = length (t_all s)
}.

Lemma same_lists s s' l L' : same s s' → t_lists s' !! l = Some L' →
  ∃ L, t_lists s !! l = Some L ∧ sl_channel L' = sl_channel L ∧ sl_queue L' = sl_queue L ∧
    sl_subs L' = sl_subs L ∧ sl_subCount L' = sl_subCount L ∧
    (sl_next L <= length (sl_subs L) → sl_next L' <= length (sl_subs L'))%nat.
Proof.
  intros Hs HL'. assert (l < length (t_lists s))%nat as [L HL]%lookup_lt_is_Some.
  { rewrite <- (sa_llen s s' Hs). by eapply lookup_lt_Some. }
  destruct (sa_lists s s' Hs l L HL) as (L2 & HL2 & ?). exists L.
  rewrite HL' in HL2. injection HL2 as ->. done.
Qed.

Lemma same_all s s' o u' : same s s' → t_all s' !! o = Some u' →
  ∃ u, t_all s !! o = Some u ∧ sub_list u' = sub_list u ∧ sub_index u' = sub_index u.
Proof.
  intros Hs Hu'. assert (o < length (t_all s))%nat as [u Hu]%lookup_lt_is_Some.
  { rewrite <- (sa_alen s s' Hs). by eapply lookup_lt_Some. }
  destruct (sa_all s s' Hs o u Hu) as (u2 & Hu2 & ?). exists u.
  rewrite Hu' in Hu2. injection Hu2 as ->. done.
Qed.

Lemma same_live s s' o : same s s' → live s o ↔ live s' o.
Proof.
  intros Hs. split.
  - intros (u & L & Hu & HL & Hi).
    destruct (sa_all s s' Hs o u Hu) as (u' & Hu' & Hul & Hui).
    destruct (sa_lists s s' Hs _ L HL) as (L' & HL' & _ & _ & Hsub & _).
    exists u', L'. by rewrite Hul, Hui, Hsub.
  - intros (u' & L' & Hu' & HL' & Hi).
    destruct (same_all s s' o u' Hs Hu') as (u & Hu & Hul & Hui).
    destruct (same_lists s s' _ L' Hs HL') as (L & HL & _ & _ & Hsub & _).
    exists u, L. by rewrite <- Hul, <- Hui, <- Hsub.
Qed.

Lemma same_valid s s' l : same s s' → valid s l → valid s' l.
Proof.
  intros Hs (L & HL & Hne). destruct (sa_lists s s' Hs l L HL) as (L' & HL' & _ & _ & Hsub & _).
  exists L'. by rewrite Hsub.
Qed.

Lemma same_mapped s s' l L L' : same s s' →
  sl_channel L' = sl_channel L → sl_queue L' = sl_queue L → mapped s l L → mapped s' l L'.
Proof. unfold mapped. intros Hs -> ->. by rewrite (sa_maps s s' Hs). Qed.

Lemma same_thread_ok s s' t : same s s' →
  (∀ o, closes t = Some o → open s o → open s' o) → thread_ok s t → thread_ok s' t.
Proof.
  intros Hs Ho. apply thread_ok_frame; eauto using same_valid.
  - intros l L _ HL. destruct (sa_lists s s' Hs l L HL) as (L' & HL' & _ & _ & Hsub & _). by exists L'.
  - intros l L size _ HL Hm. destruct (sa_lists s s' Hs l L HL) as (L' & HL' & ? & ? & _).
    exists L'. split; [done|]. by eapply same_mapped.
  - intros o Hc _. split; [by apply same_live|auto].
Qed.

Lemma same_core s s' : same s s' →
  (∀ o, live s o → open s o → open s' o) →
  (∀ n t, t_threads s !! n = Some t → ∃ t', t_threads s' !! n = Some t' ∧
     closes t' = closes t ∧ (∀ l size, t = SCreate l size → t' = t)) →
  core_ok s → core_ok s'.
Proof.
  intros Hs Ho Ht Hc. split.
  - intros l L' i o HL' Hi. destruct (same_lists s s' l L' Hs HL') as (L & HL & _ & _ & Hsub & _).
    rewrite Hsub in Hi. destruct (co_subs s Hc l L i o HL Hi) as (u & Hu & Hul & Hui & Hop).
    assert (live s o) as Hlive by (exists u, L; by subst).
    destruct (Ho o Hlive) as (u2 & Hu2 & Hop2); [by exists u|].
    destruct (sa_all s s' Hs o u Hu) as (u' & Hu' & ? & ?). simplify_eq. exists u2. split_and!; congruence.
  - intros o Hlt Hno. apply (same_live s s' o Hs). apply (co_all s Hc); [by rewrite <- (sa_alen s s' Hs)|].
    intros n t Hn. destruct (Ht n t Hn) as (t' & Hn' & <- & _). eauto.
  - intros l L' HL'. destruct (same_lists s s' l L' Hs HL') as (L & HL & _ & _ & _ & _ & Hnext).
    apply Hnext. by eapply co_next.
  - intros l L' HL'. destruct (same_lists s s' l L' Hs HL') as (L & HL & _ & _ & -> & -> & _).
    by eapply co_count.
  - intros l L' HL'. destruct (same_lists s s' l L' Hs HL') as (L & HL & _ & _ & -> & _ & _). intros Hnil.
    destruct (co_empty s Hc l L HL Hnil) as (n & size & Hn).
    destruct (Ht n _ Hn) as (t' & Hn' & _ & Heq). rewrite (Heq l size eq_refl) in Hn'. eauto.
  - intros l L' HL'. destruct (same_lists s s' l L' Hs HL') as (L & HL & ? & ? & -> & _ & _). intros Hne.
    eapply same_mapped; [done..|]. by eapply co_mapped.
  - intros queue channel l. rewrite (sa_maps s s' Hs). intros Hm.
    destruct (co_maps s Hc queue channel l Hm) as (L & HL & Hch & Hq).
    destruct (sa_lists s s' Hs l L HL) as (L' & HL' & Hch' & Hq' & _). exists L'. split_and!; congruence.
Qed.

Lemma same_refl s : same s s.
Proof. split; [done|intros l L ->; by exists L|done|intros o u ->; by exists u|done]. Qed.

Lemma same_with_thread s s' n t : same s s' → same s (with_thread s' n t).
Proof. by intros []; split. Qed.

Lemma same_with_sub s o u u' : t_all s !! o = Some u →
  sub_list u' = sub_list u → sub_index u' = sub_index u → same s (with_sub s o u').
Proof.
  intros Hu Hl Hi. split; simpl; [done|intros l L ->; by exists L|done| |by rewrite length_insert].
  intros o2 u2 Hu2. destruct (decide (o2 = o)) as [->|Hne].
  - rewrite list_lookup_insert_eq by (by eapply lookup_lt_Some). simplify_eq. by exists u'.
  - rewrite list_lookup_insert_ne by done. by exists u2.
Qed.

Lemma same_with_next s l L next : t_lists s !! l = Some L → (next <= length (sl_subs L))%nat →
  same s (with_list s l (MkSubList (sl_channel L) (sl_queue L) (sl_subs L) (sl_subCount L) next)).
Proof.
  intros HL Hnext. split; simpl; [done| |by rewrite length_insert|intros o u ->; by exists u|done].
  intros l2 L2 HL2. destruct (decide (l2 = l)) as [->|Hne].
  - rewrite list_lookup_insert_eq by (by eapply lookup_lt_Some). simplify_eq. by eexists.
  - rewrite list_lookup_insert_ne by done. by exists L2.
Qed.

Lemma open_with_sub s o u u' o2 : t_all s !! o = Some u →
  (o2 = o → chan_closed (sub_msgChan u) = false → chan_closed (sub_msgChan u') = false) →
  open s o2 → open (with_sub s o u') o2.
Proof.
  intros Hu Hc (u2 & Hu2 & Ho). unfold open. simpl. destruct (decide (o2 = o)) as [->|Hne].
  - rewrite list_lookup_insert_eq by (by eapply lookup_lt_Some). exists u'.
    simplify_eq. split; [done|]. by apply Hc.
  - rewrite list_lookup_insert_ne by done. by exists u2.
Qed.

(** *** What a step keeps *)

Definition step_ok (o : outcome) : Prop :=
  match o with Next s => inv s | Blocked => True | Panic => False end.

(** A goroutine's light step. *)
Lemma inv_same s s' n t t' :
  inv s → t_threads s !! n = Some t → t_threads s' = <[n := t']> (t_threads s) → same s s' →
  closes t' = closes t → (holds_transport t' = true → transport_free s = true) →
  (∀ l size, t ≠ SCreate l size) →
  (∀ o, open s o → open s' o ∨ (closes t = Some o ∧ ¬ live s o)) →
  thread_ok s' t' → inv s'.
Proof.
  intros Hinv Hn Hth Hs Hcl Hhold Hcr Hop Hok.
  pose proof (lookup_lt_Some _ _ _ Hn) as Hlt.
  split; rewrite ?Hth.
  - intros m t2 [[-> ->]|[Hne Hm]]%list_lookup_insert_cases; [done|].
    apply (same_thread_ok s); [done| |by eapply iv_threads].
    intros o Ho Hop0. destruct (Hop o Hop0) as [?|[Ht _]]; [done|].
    by destruct (Hne (iv_closers s Hinv m n t2 t o Hm Hn Ho Ht)).
  - intros m1 m2 t1 t2 [[-> ->]|[Hne1 Hm1]]%list_lookup_insert_cases
      [[-> ->]|[Hne2 Hm2]]%list_lookup_insert_cases Hh1 Hh2; [done| | |by eapply iv_transport].
    + rewrite (transport_free_none s m2 t2) in Hh2; [done|auto|done].
    + rewrite (transport_free_none s m1 t1) in Hh1; [done|auto|done].
  - intros m1 m2 t1 t2 o [[-> ->]|[Hne1 Hm1]]%list_lookup_insert_cases
      [[-> ->]|[Hne2 Hm2]]%list_lookup_insert_cases Ho1 Ho2; [done| | |by eapply iv_closers].
    + rewrite Hcl in Ho1. by eapply (iv_closers s).
    + rewrite Hcl in Ho2. by eapply (iv_closers s).
  - apply (same_core s); [done| | |apply Hinv].
    + intros o Hlive Ho. by destruct (Hop o Ho) as [?|[_ ?]].
    + intros m t2 Hm. rewrite Hth. destruct (decide (m = n)) as [->|Hne].
      * rewrite Hn in Hm. injection Hm as <-. exists t'. rewrite list_lookup_insert_eq by done.
        split_and!; [done|done|]. intros l size Ht. by destruct (Hcr l size).
      * exists t2. by rewrite list_lookup_insert_ne.
Qed.

Lemma in_list_live s l L o : core_ok s → t_lists s !! l = Some L → Some o ∈ sl_subs L → live s o.
Proof.
  intros Hc HL [i Hi]%list_elem_of_lookup_1.
  destruct (co_subs s Hc l L i o HL Hi) as (u & Hu & <- & <- & _). by exists u, L.
Qed.

Lemma live_open s o : core_ok s → live s o → open s o.
Proof.
  intros Hc (u & L & Hu & HL & Hi).
  destruct (co_subs s Hc _ L _ o HL Hi) as (u2 & Hu2 & _ & _ & Ho). by exists u2.
Qed.

(** *** Steps of a publisher *)

Lemma write_ok s n t t' o b drop :
  inv s → t_threads s !! n = Some t → live s o → closes t = None → closes t' = None →
  holds_transport t' = false → (∀ l size, t ≠ SCreate l size) → thread_ok s t' →
  step_ok (and_then (write s o b drop) (λ s, with_thread s n t')).
Proof.
  intros Hinv Hn Hlive Hc Hc' Hh Hcr Hok. pose proof (live_open s o (iv_core s Hinv) Hlive) as (u & Hu & Hop).
  unfold write. rewrite Hu. destruct drop.
  - destruct (sub_canceled u); [|done]. simpl.
    apply (inv_same s _ n t t'); [done..|by apply same_with_thread, same_refl|congruence|congruence|done|by left|].
    apply (same_thread_ok s); [by apply same_with_thread, same_refl|congruence|done].
  - unfold chan_send. rewrite Hop. destruct (_ <? _)%nat; [|done]. simpl.
    assert (same s (with_sub s o (set_msgChan u (Chan (chan_cap (sub_msgChan u))
      (chan_buf (sub_msgChan u) ++ [b]) false)))) as Hs by (by apply (same_with_sub s o u)).
    apply (inv_same s _ n t t'); [done..|by apply same_with_thread|congruence|congruence|done| |].
    + intros o2 Ho2. left. by apply (open_with_sub s o u).
    + apply (same_thread_ok s); [by apply same_with_thread|congruence|done].
Qed.

Lemma dispatch_ok s n l lists b :
  inv s → t_threads s !! n = Some (PDispatch (l :: lists) b) → step_ok (dispatch s n l lists b).
Proof.
  intros Hinv Hn. pose proof (iv_threads s Hinv n _ Hn) as Hok. simpl in Hok.
  apply Forall_cons in Hok as [(L & HL & Hne) Hls]. unfold dispatch. rewrite HL.
  pose proof (co_next s (iv_core s Hinv) l L HL) as Hnext. destruct (sl_queue L) eqn:Hq.
  - destruct (list_free s l); [|done].
    destruct (pick_spec (sl_subs L) (sl_next L) Hnext Hne) as (next' & Hp & Hle & _). rewrite Hp. simpl.
    pose proof (same_with_next s l L next' HL Hle) as Hs. rewrite Hq in Hs.
    eapply (inv_same s _ n _ _ Hinv Hn); [reflexivity|by apply same_with_thread|by destruct (head _)|
      by destruct (head _)|done|by left|].
    apply (same_thread_ok s); [by apply same_with_thread|by destruct (head _)|].
    destruct (head _) eqn:Hhd; simpl; [|done]. split; [done|]. exists L. split; [done|].
    by eapply pick_in.
  - destruct (list_readable s l); [|done]. simpl.
    eapply (inv_same s _ n _ _ Hinv Hn); [reflexivity|by apply same_with_thread, same_refl|done..|by left|].
    simpl. split; [done|]. by exists L, [].
Qed.

(** *** Steps of a subscriber *)

(** Adding a list: nobody knows of it yet. *)
Lemma subscribe_ok s n queue channel size :
  inv s → t_threads s !! n = Some (SStart queue channel size) → step_ok (subscribe s n queue channel size).
Proof.
  intros Hinv Hn. pose proof (iv_core s Hinv) as Hc. unfold subscribe.
  destruct (transport_free s) eqn:Hfree; [|done].
  change (if queue then t_queues s else t_subs s) with (maps s queue).
  destruct (maps s queue !! channel) as [l|] eqn:Hm.
  { destruct (co_maps s Hc queue channel l Hm) as (L & HL & Hch & Hq). simpl.
    eapply (inv_same s _ n _ _ Hinv Hn); [reflexivity|by apply same_with_thread, same_refl|done..|by left|].
    simpl. exists L. split; [done|]. unfold mapped. by rewrite Hch, Hq. }
  set (l := length (t_lists s)). set (s' := MkTransport _ _ _ _ _). simpl.
  assert (Hmaps : ∀ q, maps s' q = if bool_decide (q = queue) then <[channel := l]> (maps s q) else maps s q).
  { intros q. by destruct q, queue. }
  assert (Hlists : ∀ l2 L2, t_lists s' !! l2 = Some L2 →
    t_lists s !! l2 = Some L2 ∨ (l2 = l ∧ L2 = MkSubList channel queue [] 0 0)).
  { intros l2 L2 H2. apply lookup_app_Some in H2 as [?|[Hge H2]]; [by left|right].
    apply list_lookup_singleton_Some in H2 as [Hz <-]. unfold l. split; [lia|done]. }
  assert (Hold : ∀ l2 L2, t_lists s !! l2 = Some L2 → t_lists s' !! l2 = Some L2).
  { intros l2 L2 H2. by apply lookup_app_l_Some. }
  assert (Hnew : t_lists s' !! l = Some (MkSubList channel queue [] 0 0)).
  { simpl. rewrite lookup_app_r by (unfold l; lia). unfold l. by rewrite Nat.sub_diag. }
  assert (Hmapped : ∀ l2 L2, t_lists s !! l2 = Some L2 → mapped s l2 L2 → mapped s' l2 L2).
  { unfold mapped. intros l2 L2 HL2 Hmap. rewrite Hmaps. case_bool_decide as Hq; [|done].
    rewrite lookup_insert_ne; [done|]. intros Heq. rewrite <- Hq, Heq, Hmap in Hm. done. }
  assert (Hlive : ∀ o, live s' o ↔ live s o).
  { intros o. split; intros (u & L & Hu & HL & Hi); exists u, L; simpl in *; [|by auto].
    destruct (Hlists _ L HL) as [?|[_ ->]]; [done|]. by simpl in Hi. }
  pose proof (lookup_lt_Some _ _ _ Hn) as Hlt.
  assert (Hth : ∀ m t, t_threads (with_thread s' n (SCreate l size)) !! m = Some t →
    (m = n ∧ t = SCreate l size) ∨ (m ≠ n ∧ t_threads s !! m = Some t)).
  { intros m t Hmt. by apply list_lookup_insert_cases. }
  split.
  - intros m t [[-> ->]|[Hne Hmt]]%Hth.
    + simpl. eexists. split; [exact Hnew|]. unfold mapped.
      change (maps (with_thread s' n (SCreate l size))) with (maps s'). simpl. rewrite Hmaps.
      rewrite bool_decide_eq_true_2 by done. apply lookup_insert_eq.
    + apply (thread_ok_frame s); [| | | |by eapply iv_threads].
      * intros l2 (L2 & HL2 & ?). exists L2. auto.
      * intros l2 L2 _ HL2. exists L2. auto.
      * intros l2 L2 sz _ HL2 Hmap. exists L2. split; [by apply Hold|by apply Hmapped].
      * intros o _ _. split; [by symmetry; apply Hlive|done].
  - intros m1 m2 t1 t2 [[-> ->]|[Hne1 Hm1]]%Hth [[-> ->]|[Hne2 Hm2]]%Hth Hh1 Hh2; [done| | |].
    + by rewrite (transport_free_none s m2 t2) in Hh2.
    + by rewrite (transport_free_none s m1 t1) in Hh1.
    + by eapply (iv_transport s).
  - intros m1 m2 t1 t2 o [[-> ->]|[Hne1 Hm1]]%Hth [[-> ->]|[Hne2 Hm2]]%Hth Ho1 Ho2; [done..|].
    by eapply (iv_closers s).
  - split.
    + intros l2 L2 i o [HL2|[-> ->]]%Hlists Hi; [by eapply (co_subs s)|done].
    + intros o Hlto Hno. apply Hlive. apply (co_all s Hc); [done|].
      intros m t Hmt. destruct (decide (m = n)) as [->|Hne].
      * rewrite Hn in Hmt. by injection Hmt as <-.
      * apply (Hno m). simpl. by rewrite list_lookup_insert_ne.
    + intros l2 L2 [HL2|[-> ->]]%Hlists; [by eapply (co_next s)|simpl; lia].
    + intros l2 L2 [HL2|[-> ->]]%Hlists; [by eapply (co_count s)|done].
    + intros l2 L2 [HL2|[-> ->]]%Hlists Hnil.
      * destruct (co_empty s Hc l2 L2 HL2 Hnil) as (m & sz & Hmt). exists m, sz.
        simpl. rewrite list_lookup_insert_ne; [done|]. intros <-. congruence.
      * exists n, size. simpl. by rewrite list_lookup_insert_eq.
    + intros l2 L2 [HL2|[-> ->]]%Hlists Hne; [|done]. apply Hmapped; [done|]. by eapply (co_mapped s).
    + intros q ch l2. change (maps (with_thread s' n (SCreate l size))) with (maps s'). rewrite Hmaps.
      intros Hl2. case_bool_decide as Hq.
      * apply lookup_insert_Some in Hl2 as [[<- <-]|[_ Hl2]].
        -- exists (MkSubList channel queue [] 0 0). by subst.
        -- destruct (co_maps s Hc q ch l2 Hl2) as (L2 & ? & ? & ?). exists L2. auto.
      * destruct (co_maps s Hc q ch l2 Hl2) as (L2 & ? & ? & ?). exists L2. auto.
Qed.

Lemma create_ok s n l size :
  inv s → t_threads s !! n = Some (SCreate l size) → step_ok (create s n l size).
Proof.
  intros Hinv Hn. pose proof (iv_core s Hinv) as Hc.
  destruct (iv_threads s Hinv n _ Hn) as (L & HL & Hmap). unfold create. rewrite HL.
  destruct (list_free s l) eqn:Hfree; [|done].
  set (o := length (t_all s)). set (L' := MkSubList _ _ (add_sub _ _) _ _).
  set (u := MkSubscription _ _ _ _). simpl. set (s' := with_thread _ _ _).
  pose proof (lookup_lt_Some _ _ _ HL) as HlL. pose proof (lookup_lt_Some _ _ _ Hn) as Hlt.
  assert (Hlists : ∀ l2 L2, t_lists s' !! l2 = Some L2 →
    (l2 = l ∧ L2 = L') ∨ (l2 ≠ l ∧ t_lists s !! l2 = Some L2)) by (intros; by apply list_lookup_insert_cases).
  assert (Hnew : t_lists s' !! l = Some L') by (simpl; by rewrite list_lookup_insert_eq).
  assert (Hold : ∀ l2 L2, l2 ≠ l → t_lists s !! l2 = Some L2 → t_lists s' !! l2 = Some L2).
  { intros l2 L2 Hne H2. simpl. by rewrite list_lookup_insert_ne. }
  assert (Hall : ∀ o2 u2, t_all s !! o2 = Some u2 → t_all s' !! o2 = Some u2) by (intros; by apply lookup_app_l_Some).
  assert (Hallo : t_all s' !! o = Some u) by (simpl; rewrite lookup_app_r by done; unfold o; by rewrite Nat.sub_diag).
  assert (Hall' : ∀ o2 u2, t_all s' !! o2 = Some u2 → (o2 = o ∧ u2 = u) ∨ t_all s !! o2 = Some u2).
  { intros o2 u2 [?|[Hge H2]]%lookup_app_Some; [by right|left].
    apply list_lookup_singleton_Some in H2 as [Hz <-]. unfold o. split; [lia|done]. }
  assert (Hsubs : ∀ i o2, sl_subs L' !! i = Some (Some o2) →
    (i = slot (sl_subs L) ∧ o2 = o) ∨ sl_subs L !! i = Some (Some o2)).
  { intros i o2. simpl. rewrite lookup_add_sub. case_bool_decide as Hi; [|by right].
    intros [= <-]. by left. }
  assert (Hkeep : ∀ i o2, sl_subs L !! i = Some (Some o2) → sl_subs L' !! i = Some (Some o2)).
  { intros i o2 Hi. simpl. rewrite lookup_add_sub. case_bool_decide as Hs; [|done].
    subst i. by destruct (slot_free (sl_subs L) o2). }
  assert (Hlive : ∀ o2, live s o2 → live s' o2).
  { intros o2 (u2 & L2 & Hu2 & HL2 & Hi). destruct (decide (sub_list u2 = l)) as [Heq|Hne].
    - exists u2, L'. rewrite Heq. assert (L2 = L) as -> by congruence. split_and!; [by apply Hall|done|by apply Hkeep].
    - exists u2, L2. split_and!; [by apply Hall|by apply Hold|done]. }
  assert (Hlive' : ∀ o2, (o2 < o)%nat → live s' o2 → live s o2).
  { intros o2 Hlt2 (u2 & L2 & Hu2 & HL2 & Hi). destruct (Hall' o2 u2 Hu2) as [[-> _]|Hu2']; [lia|].
    destruct (Hlists _ L2 HL2) as [[Heq ->]|[Hne HL2']]; [|by exists u2, L2].
    exists u2, L. rewrite Heq. split_and!; [done|done|].
    destruct (Hsubs _ _ Hi) as [[_ ->]|?]; [lia|done]. }
  assert (Hliveo : live s' o).
  { exists u, L'. split_and!; [done|done|]. simpl. rewrite lookup_add_sub. by rewrite bool_decide_eq_true_2. }
  assert (Hth : ∀ m t, t_threads s' !! m = Some t → (m = n ∧ t = SDone o) ∨ (m ≠ n ∧ t_threads s !! m = Some t))
    by (intros; by apply list_lookup_insert_cases).
  assert (Hneo : sl_subs L' ≠ []).
  { intros Hnil. pose proof (lookup_add_sub (sl_subs L) o (slot (sl_subs L))) as Hs.
    rewrite bool_decide_eq_true_2 in Hs by done. simpl in Hnil. by rewrite Hnil in Hs. }
  split.
  - intros m t [[-> ->]|[Hne Hmt]]%Hth; [done|].
    apply (thread_ok_frame s); [| | | |by eapply iv_threads].
    + intros l2 (L2 & HL2 & Hnil). destruct (decide (l2 = l)) as [->|Hl]; [by exists L'|exists L2; auto].
    + intros l2 L2 Hhold HL2. destruct (decide (l2 = l)) as [->|Hl]; [|exists L2; auto].
      by rewrite (list_free_none s l m t) in Hhold.
    + intros l2 L2 sz -> HL2 Hm2. exfalso. by apply Hne, (iv_transport s Hinv m n _ _ Hmt Hn).
    + intros o2 _ Hlt2. split; [split; auto|]. intros (u2 & Hu2 & Ho2). exists u2. auto.
  - intros m1 m2 t1 t2 [[-> ->]|[Hne1 Hm1]]%Hth [[-> ->]|[Hne2 Hm2]]%Hth Hh1 Hh2; [done..|].
    by eapply (iv_transport s).
  - intros m1 m2 t1 t2 o2 [[-> ->]|[Hne1 Hm1]]%Hth [[-> ->]|[Hne2 Hm2]]%Hth Ho1 Ho2; [done..|].
    by eapply (iv_closers s).
  - split.
    + intros l2 L2 i o2 [[-> ->]|[Hl HL2]]%Hlists Hi.
      * destruct (Hsubs i o2 Hi) as [[-> ->]|Hi2]; [by exists u|].
        destruct (co_subs s Hc l L i o2 HL Hi2) as (u2 & ? & ?). exists u2. auto.
      * destruct (co_subs s Hc l2 L2 i o2 HL2 Hi) as (u2 & ? & ?). exists u2. auto.
    + intros o2 Hlto Hno. simpl in Hlto. rewrite length_app in Hlto. simpl in Hlto.
      destruct (decide (o2 = o)) as [->|Hne2]; [done|]. apply Hlive, (co_all s Hc).
      { unfold o in Hne2. lia. }
      intros m t Hmt. destruct (decide (m = n)) as [->|Hne]; [rewrite Hn in Hmt; by injection Hmt as <-|].
      apply (Hno m). simpl. by rewrite list_lookup_insert_ne.
    + intros l2 L2 [[-> ->]|[Hl HL2]]%Hlists; [|by eapply (co_next s)].
      pose proof (co_next s Hc l L HL). simpl. pose proof (length_add_sub (sl_subs L) o). lia.
    + intros l2 L2 [[-> ->]|[Hl HL2]]%Hlists; [|by eapply (co_count s)].
      change (sl_subCount L') with (sl_subCount L + 1). change (sl_subs L') with (add_sub (sl_subs L) o).
      rewrite (Permutation_length (omap_add_sub (sl_subs L) o)), (co_count s Hc l L HL). simpl length. lia.
    + intros l2 L2 [[-> ->]|[Hl HL2]]%Hlists Hnil; [done|].
      destruct (co_empty s Hc l2 L2 HL2 Hnil) as (m & sz & Hmt). exists m, sz.
      simpl. rewrite list_lookup_insert_ne; [done|]. intros <-. rewrite Hn in Hmt. by injection Hmt as ->.
    + intros l2 L2 [[-> ->]|[Hl HL2]]%Hlists Hne2; [exact Hmap|by eapply (co_mapped s Hc)].
    + intros q ch l2 Hq. destruct (co_maps s Hc q ch l2 Hq) as (L2 & HL2 & ? & ?).
      destruct (decide (l2 = l)) as [->|Hl]; [|exists L2; auto].
      assert (L2 = L) as -> by congruence. by exists L'.
Qed.

(** *** Steps of a close *)

Lemma onUnsubscribe_ok s n o :
  inv s → t_threads s !! n = Some (CList o) → step_ok (onUnsubscribe s n o).
Proof.
  intros Hinv Hn. pose proof (iv_core s Hinv) as Hc.
  destruct (iv_threads s Hinv n _ Hn) as (u & L & Hu & HL & Hi). unfold onUnsubscribe. rewrite Hu, HL.
  destruct (list_free s (sub_list u)) eqn:Hfree; [|done].
  pose proof (lookup_lt_Some _ _ _ Hi) as Hidx. rewrite (proj2 (Nat.ltb_lt _ _) Hidx).
  pose proof (lookup_lt_Some _ _ _ HL) as HlL. pose proof (lookup_lt_Some _ _ _ Hn) as Hlt.
  pose proof (omap_leave _ _ _ Hi) as Hperm.
  pose proof (co_count s Hc _ L HL) as Hcount. rewrite (Permutation_length Hperm) in Hcount. simpl in Hcount.
  assert (Hmap : mapped s (sub_list u) L).
  { apply (co_mapped s Hc); [done|]. intros Hnil. rewrite Hnil in Hperm. by apply Permutation_nil_cons in Hperm. }
  set (l := sub_list u) in *. set (L' := MkSubList _ _ (<[_ := None]> _) _ _).
  set (gone := sl_subCount L - 1 =? 0). simpl. set (s' := with_thread _ _ _).
  assert (Hgone : gone = false ∨ omap id (sl_subs L') = []).
  { subst gone. destruct (Z.eqb_spec (sl_subCount L - 1) 0) as [He|]; [right|by left].
    apply nil_length_inv. simpl. lia. }
  assert (Hmaps : ∀ q ch l2, maps s' q !! ch = Some l2 → maps s q !! ch = Some l2).
  { intros q ch l2. destruct q; simpl; (case_match; [|done]); by intros [_ ?]%lookup_delete_Some. }
  assert (Hmaps' : ∀ q ch l2, maps s q !! ch = Some l2 → l2 ≠ l ∨ gone = false → maps s' q !! ch = Some l2).
  { intros q ch l2 Hq Hne. assert (gone = true → sl_queue L = q → sl_channel L ≠ ch) as Hch.
    { intros Hg HqL <-. destruct Hne as [Hne|]; [|congruence]. apply Hne.
      unfold mapped in Hmap. rewrite HqL in Hmap. congruence. }
    destruct q; simpl; (case_match eqn:Hg; [|done]); apply andb_prop in Hg as [Hg HqL];
      (rewrite lookup_delete_ne; [done|]); apply Hch; [done..| |]; by destruct (sl_queue L). }
  assert (Hlists : ∀ l2 L2, t_lists s' !! l2 = Some L2 →
    (l2 = l ∧ L2 = L') ∨ (l2 ≠ l ∧ t_lists s !! l2 = Some L2)) by (intros; by apply list_lookup_insert_cases).
  assert (Hnew : t_lists s' !! l = Some L') by (simpl; by rewrite list_lookup_insert_eq).
  assert (Hold : ∀ l2 L2, l2 ≠ l → t_lists s !! l2 = Some L2 → t_lists s' !! l2 = Some L2).
  { intros l2 L2 Hne H2. simpl. by rewrite list_lookup_insert_ne. }
  assert (Hsubs : ∀ i o2, sl_subs L' !! i = Some (Some o2) → i ≠ sub_index u ∧ sl_subs L !! i = Some (Some o2)).
  { intros i o2 [[-> ?]|?]%list_lookup_insert_cases; [done|done]. }
  assert (Hkeep : ∀ i o2, sl_subs L !! i = Some (Some o2) → i ≠ sub_index u → sl_subs L' !! i = Some (Some o2)).
  { intros i o2 Hi2 Hne. simpl. by rewrite list_lookup_insert_ne. }
  assert (Hlive : ∀ o2, live s' o2 ↔ live s o2 ∧ o2 ≠ o).
  { intros o2. split.
    - intros (u2 & L2 & Hu2 & HL2 & Hi2). destruct (Hlists _ L2 HL2) as [[Heq ->]|[Hne HL2']].
      + destruct (Hsubs _ _ Hi2) as [Hidx2 Hi3]. split; [exists u2, L; by rewrite Heq|].
        intros ->. simpl in Hu2. congruence.
      + split; [by exists u2, L2|]. intros ->. simpl in Hu2. apply Hne. unfold l. congruence.
    - intros [(u2 & L2 & Hu2 & HL2 & Hi2) Hne]. destruct (decide (sub_list u2 = l)) as [Heq|Hl].
      + exists u2, L'. rewrite Heq. assert (L2 = L) as -> by congruence.
        split_and!; [done|done|]. apply Hkeep; [done|]. intros Hix. rewrite Hix, Hi in Hi2. congruence.
      + exists u2, L2. split_and!; [done|by apply Hold|done]. }
  assert (Hth : ∀ m t, t_threads s' !! m = Some t → (m = n ∧ t = CCloseChan o) ∨ (m ≠ n ∧ t_threads s !! m = Some t))
    by (intros; by apply list_lookup_insert_cases).
  assert (Hlen : length (sl_subs L') = length (sl_subs L)) by (simpl; by rewrite length_insert).
  split.
  - intros m t [[-> ->]|[Hne Hmt]]%Hth.
    + simpl. split; [by intros [_ ?]%Hlive|]. apply (live_open s o Hc). by exists u, L.
    + apply (thread_ok_frame s); [| | | |by eapply iv_threads].
      * intros l2 (L2 & HL2 & Hnil). destruct (decide (l2 = l)) as [->|Hl]; [|exists L2; auto].
        exists L'. split; [done|]. intros Hnil'. rewrite Hnil' in Hlen. simpl in Hlen. lia.
      * intros l2 L2 Hhold HL2. destruct (decide (l2 = l)) as [->|Hl]; [|exists L2; auto].
        by rewrite (list_free_none s l m t) in Hhold.
      * intros l2 L2 sz -> HL2 Hm2. exfalso. by apply Hne, (iv_transport s Hinv m n _ _ Hmt Hn).
      * intros o2 Hc2 _. split; [|done]. rewrite Hlive. split; [|by intros []]. intros ?. split; [done|].
        intros ->. by apply Hne, (iv_closers s Hinv m n t (CList o) o).
  - intros m1 m2 t1 t2 [[-> ->]|[Hne1 Hm1]]%Hth [[-> ->]|[Hne2 Hm2]]%Hth Hh1 Hh2; [done..|].
    by eapply (iv_transport s).
  - intros m1 m2 t1 t2 o2 [[-> ->]|[Hne1 Hm1]]%Hth [[-> ->]|[Hne2 Hm2]]%Hth Ho1 Ho2; [done| | |].
    + by apply (iv_closers s Hinv n m2 (CList o) t2 o2).
    + by apply (iv_closers s Hinv m1 n t1 (CList o) o2).
    + by eapply (iv_closers s).
  - split.
    + intros l2 L2 i o2 [[-> ->]|[Hl HL2]]%Hlists Hi2; [|by apply (co_subs s Hc l2 L2)].
      destruct (Hsubs i o2 Hi2) as [_ Hi3]. by apply (co_subs s Hc l L).
    + intros o2 Hlto Hno. apply Hlive.
      assert (o2 ≠ o) as Hne2.
      { intros ->. apply (Hno n (CCloseChan o)); [|done]. simpl. by rewrite list_lookup_insert_eq. }
      split; [|done]. apply (co_all s Hc); [done|]. intros m t Hmt.
      destruct (decide (m = n)) as [->|Hne]; [rewrite Hn in Hmt; injection Hmt as <-; simpl; congruence|].
      apply (Hno m). simpl. by rewrite list_lookup_insert_ne.
    + intros l2 L2 [[-> ->]|[Hl HL2]]%Hlists; [|by eapply (co_next s)].
      rewrite Hlen. exact (co_next s Hc l L HL).
    + intros l2 L2 [[-> ->]|[Hl HL2]]%Hlists; [|by eapply (co_count s)]. simpl. lia.
    + intros l2 L2 [[-> ->]|[Hl HL2]]%Hlists Hnil.
      * rewrite Hnil in Hlen. simpl in Hlen. lia.
      * destruct (co_empty s Hc l2 L2 HL2 Hnil) as (m & sz & Hmt). exists m, sz.
        simpl. rewrite list_lookup_insert_ne; [done|]. intros <-. congruence.
    + intros l2 L2 [[-> ->]|[Hl HL2]]%Hlists Hne2.
      * apply Hmaps'; [done|]. destruct Hgone; [by right|done].
      * apply Hmaps'; [by apply (co_mapped s Hc)|by left].
    + intros q ch l2 Hq%Hmaps. destruct (co_maps s Hc q ch l2 Hq) as (L2 & HL2 & ? & ?).
      destruct (decide (l2 = l)) as [->|Hl]; [|exists L2; auto].
      assert (L2 = L) as -> by congruence. by exists L'.
Qed.

Lemma close_chan_ok s n o u :
  inv s → t_threads s !! n = Some (CCloseChan o) → t_all s !! o = Some u →
  ∃ c, chan_close (sub_msgChan u) = Some c ∧ inv (with_thread (with_sub s o (set_msgChan u c)) n (CDone o)).
Proof.
  intros Hinv Hn Hu. destruct (iv_threads s Hinv n _ Hn) as [Hlive (u2 & Hu2 & Hop)].
  simplify_eq. unfold chan_close. rewrite Hop. eexists. split; [done|].
  eapply (inv_same s _ n _ _ Hinv Hn); [reflexivity|by apply same_with_thread, (same_with_sub s o u)|done..| |done].
  intros o2 Ho2. destruct (decide (o2 = o)) as [->|Hne]; [by right|left].
  by apply (open_with_sub s o u).
Qed.

Lemma in_lists_of s channel l : l ∈ lists_of s channel → ∃ queue, maps s queue !! channel = Some l.
Proof.
  unfold lists_of. intros [Hl|Hl]%elem_of_app.
  - exists false. simpl. destruct (t_subs s !! channel); simpl in Hl; set_solver.
  - exists true. simpl. destruct (t_queues s !! channel); simpl in Hl; set_solver.
Qed.

Lemma thread_step_ok s n t drop : inv s → t_threads s !! n = Some t → step_ok (thread_step s n t drop).
Proof.
  intros Hinv Hn. pose proof (iv_threads s Hinv n t Hn) as Hok. pose proof (iv_core s Hinv) as Hc.
  assert (Hlight : ∀ t', closes t' = closes t → (holds_transport t' = true → transport_free s = true) →
    (∀ l size, t ≠ SCreate l size) → thread_ok s t' → inv (with_thread s n t')).
  { intros t' ? ? ? ?. eapply (inv_same s _ n t t' Hinv Hn); [reflexivity|by apply same_with_thread, same_refl|done..|by left|].
    by apply (same_thread_ok s); [apply same_with_thread, same_refl|auto|]. }
  destruct t as [channel b|[|l lists] b|l [|[o|] rest] lists b|l o lists b| |queue channel size|l size|o|o|o|o|o|o];
    simpl; try done.
  - destruct (transport_free s) eqn:Hfree; [|done]. apply Hlight; [done..|]. simpl.
    apply Forall_forall. intros l Hl.
    assert (∃ L, t_lists s !! l = Some L) as [L HL].
    { destruct (in_lists_of s channel l Hl) as [q Hq].
      destruct (co_maps s Hc q channel l Hq) as (L & HL & _). by exists L. }
    exists L. split; [done|]. intros Hnil. destruct (co_empty s Hc l L HL Hnil) as (m & size & Hm).
    by pose proof (transport_free_none s m _ Hfree Hm).
  - by apply Hlight.
  - by apply dispatch_ok.
  - destruct Hok as [? _]. by apply Hlight.
  - destruct Hok as [Hls (L & pre & HL & Hp)]. apply (write_ok s n _ _ o b drop Hinv Hn); [|done..|].
    + apply (in_list_live s l L); [done..|]. rewrite Hp. apply elem_of_app. right. left.
    + split; [done|]. exists L, (pre ++ [Some o]). by rewrite <- (assoc_L (++)).
  - destruct Hok as [Hls (L & pre & HL & Hp)]. apply Hlight; [done..|].
    split; [done|]. exists L, (pre ++ [None]). by rewrite <- (assoc_L (++)).
  - destruct Hok as [Hls (L & HL & Hin)]. apply (write_ok s n _ _ o b drop Hinv Hn); [|done..].
    by apply (in_list_live s l L).
  - by apply subscribe_ok.
  - by apply create_ok.
  - destruct Hok as (u & L & Hu & HL & Hi). rewrite Hu. simpl.
    assert (same s (with_sub s o (set_canceled u))) as Hs by (by apply (same_with_sub s o u)).
    eapply (inv_same s _ n _ _ Hinv Hn); [reflexivity|by apply same_with_thread|done..| |].
    + intros o2 Ho2. left. by apply (open_with_sub s o u).
    + simpl. apply (same_live s); [by apply same_with_thread|by exists u, L].
  - destruct (transport_free s) eqn:Hfree; [|done]. by apply Hlight.
  - by apply onUnsubscribe_ok.
  - destruct Hok as [_ (u & Hu & _)]. rewrite Hu.
    by destruct (close_chan_ok s n o u) as (c & -> & ?).
Qed.

(** A call: a goroutine more, that holds nothing. *)
Lemma add_thread_ok s t :
  inv s → holds_transport t = false → thread_ok s t →
  (∀ o, closes t = Some o → ∀ m t2, t_threads s !! m = Some t2 → closes t2 ≠ Some o) →
  inv (add_thread s t).
Proof.
  intros Hinv Hh Hok Hcl. set (n := length (t_threads s)).
  assert (Hth : ∀ m t2, t_threads (add_thread s t) !! m = Some t2 →
    (m = n ∧ t2 = t) ∨ (m ≠ n ∧ t_threads s !! m = Some t2)).
  { intros m t2 Hm. destruct (decide (m < n)%nat) as [Hlt|Hge].
    - right. split; [lia|]. simpl in Hm. by rewrite lookup_app_l in Hm.
    - left. simpl in Hm. rewrite lookup_app_r in Hm by (unfold n in *; lia).
      apply list_lookup_singleton_Some in Hm as [Hz <-]. split; [unfold n in *; lia|done]. }
  split.
  - intros m t2 [[-> ->]|[_ Hm]]%Hth; [by destruct t|]. pose proof (iv_threads s Hinv m t2 Hm) as Hok2. by destruct t2.
  - intros m1 m2 t1 t2 [[-> ->]|[_ Hm1]]%Hth [[-> ->]|[_ Hm2]]%Hth Hh1 Hh2; [done|congruence..|].
    by eapply (iv_transport s).
  - intros m1 m2 t1 t2 o [[-> ->]|[_ Hm1]]%Hth [[-> ->]|[_ Hm2]]%Hth Ho1 Ho2; [done| | |].
    + by destruct (Hcl o Ho1 m2 t2 Hm2).
    + by destruct (Hcl o Ho2 m1 t1 Hm1).
    + by eapply (iv_closers s).
  - apply (same_core s); [by destruct (same_refl s); split|done| |apply Hinv].
    intros m t2 Hm. exists t2. simpl. rewrite lookup_app_l by (by eapply lookup_lt_Some). done.
Qed.

(** A subscription's context or buffer changes. *)
Lemma touch_ok s o u u' :
  inv s → t_all s !! o = Some u → sub_list u' = sub_list u → sub_index u' = sub_index u →
  (chan_closed (sub_msgChan u) = false → chan_closed (sub_msgChan u') = false) → inv (with_sub s o u').
Proof.
  intros Hinv Hu Hl Hi Hc. pose proof (same_with_sub s o u u' Hu Hl Hi) as Hs.
  assert (∀ o2, open s o2 → open (with_sub s o u') o2) as Hop by (intros; by apply (open_with_sub s o u)).
  split; [|apply (iv_transport s Hinv)|apply (iv_closers s Hinv)|].
  - intros m t Hm. apply (same_thread_ok s); [done|auto|by apply (iv_threads s Hinv m)].
  - apply (same_core s); [done|auto| |apply Hinv]. intros m t Hm. by exists t.
Qed.

Lemma bus_step_inv l s : inv s → step_ok (step l s).
Proof.
  intros Hinv. destruct l as [channel b|queue channel size|o|n drop|o|o]; simpl.
  - by apply add_thread_ok.
  - by apply add_thread_ok.
  - case_bool_decide as Ho; [|done]. simpl. destruct (forallb _ _) eqn:Hf; [|done].
    assert (∀ m t2, t_threads s !! m = Some t2 → closes t2 ≠ Some o) as Hno.
    { intros m t2 Hm. apply (forallb_lookup _ _ _ _ Hf) in Hm. by apply bool_decide_eq_true in Hm. }
    apply add_thread_ok; [done|done|by apply (co_all s (iv_core s Hinv))|]. by intros o2 [= <-].
  - destruct (t_threads s !! n) as [t|] eqn:Hn; [by apply thread_step_ok|done].
  - destruct (t_all s !! o) as [u|] eqn:Hu; [|done].
    destruct (chan_recv (sub_msgChan u)) as [b c| |] eqn:Hr; [|done..]. simpl. eapply touch_ok; [done..|].
    unfold chan_recv in Hr. destruct (chan_buf (sub_msgChan u)); [by destruct (chan_closed _)|]. by injection Hr as _ <-.
  - destruct (t_all s !! o) as [u|] eqn:Hu; [|done]. by eapply touch_ok.
Qed.

Lemma inv_New : inv New.
Proof.
  split; [done..|]. split; simpl; try done.
  - intros o Ho. lia.
  - intros [] ? ? ?; simpl in *; by rewrite lookup_empty in *.
Qed.

Lemma bus_run_inv ls s s' : inv s → run ls s = Some s' → inv s'.
Proof.
  revert s. induction ls as [|l ls IH]; intros s Hinv Hr; simplify_eq/=; [done|].
  pose proof (bus_step_inv l s Hinv). destruct (step l s) as [s2| |]; [|done..]. by eapply IH.
Qed.

(** ** Properties *)

(** The in-process bus never panics, whatever its goroutines do and in whatever order:
    nothing is sent on a closed subscription's channel, no channel is closed twice, no
    dispatch leaves its list's slice.  At every point each list's counter is the number of
    its subscriptions, and a list with subscriptions is the one its channel's publishers
    find. *)
Theorem localbus_never_panics (ls : list label) (l : label) (s : transport) (Hrun : run ls New = Some s) :
  step l s ≠ Panic ∧
  ∀ i L, t_lists s !! i = Some L →
    sl_subCount L = Z.of_nat (length (omap id (sl_subs L))) ∧ (omap id (sl_subs L) ≠ [] → mapped s i L).
Proof.
  pose proof (bus_run_inv ls New s inv_New Hrun) as Hinv. split.
  - intros Hp. pose proof (bus_step_inv l s Hinv) as Hok. by rewrite Hp in Hok.
  - intros i L HL. split; [by apply (co_count s (iv_core s Hinv) i)|by apply (co_mapped s (iv_core s Hinv))].
Qed.

(** One reader that does not read stops the bus: with its channel full, a publication to
    it holds its list; a subscription of the same channel then holds the transport, and
    no publication on any channel gets past its lookup. *)
Definition stalled : list label :=
  [LSubscribe false "a" 1; LStep 0 false; LStep 0 false;
   LPublish "a" []; LStep 1 false; LStep 1 false; LStep 1 false; LStep 1 false; LStep 1 false;
   LPublish "a" []; LStep 2 false; LStep 2 false;
   LSubscribe false "a" 1; LStep 3 false;
   LPublish "b" []].

Theorem slow_reader_stops_bus : ∃ s, run stalled New = Some s ∧
  t_threads s !! 1%nat = Some PDone ∧
  (∀ n, n ∈ [2; 3; 4]%nat → step (LStep n false) s = Blocked) ∧
  step (LStep 4 false) s = Blocked ∧ t_threads s !! 4%nat = Some (PLookup "b" []) ∧
  ∃ s1 s2 s3 s4, step (LRead 0) s = Next s1 ∧ step (LStep 2 false) s1 = Next s2 ∧
    step (LStep 2 false) s2 = Next s3 ∧ step (LStep 3 false) s3 = Next s4 ∧ step (LStep 4 false) s4 ≠ Blocked.
Proof.
  eexists. split; [vm_compute; reflexivity|]. split; [reflexivity|]. split.
  - intros n Hn. repeat (apply elem_of_cons in Hn as [->|Hn]; [reflexivity|]). by apply elem_of_nil in Hn.
  - split; [reflexivity|]. split; [reflexivity|]. do 4 eexists.
    split; [vm_compute; reflexivity|]. split; [vm_compute; reflexivity|]. split; [vm_compute; reflexivity|].
    split; [vm_compute; reflexivity|]. vm_compute. discriminate.
Qed.

(** *** Witness *)

(** Two subscribers, one of a queue, and a message. *)
Definition one_message : list label :=
  [LSubscribe false "a" 1; LStep 0 false; LStep 0 false;
   LSubscribe true "a" 1; LStep 1 false; LStep 1 false; LPublish "a" [Ascii.zero]].

Lemma localbus_never_panics_witness :
  ∃ s, run one_message New = Some s ∧ step (LStep 2 false) s ≠ Panic.
Proof.
  destruct (run one_message New) as [s|] eqn:Hs; [|vm_compute in Hs; discriminate].
  exists s. split; [reflexivity|]. exact (proj1 (localbus_never_panics one_message (LStep 2 false) s Hs)).
Defined.
