(* ===== verification/LocalDelivery.v ===== *)
(** * LocalDelivery.v: what the in-process bus delivers

    The writes the publishers of [LocalBus] make in a run, and the reads: a publication
    reaches each subscriber once, and a reader takes what was written in order. *)
From S2P Require Import Prelude Bus SubList LocalBus.

(** ** Writes *)

(** The write a step makes: by whom, to whom, and what. *)
Definition write_of (l : label) (s : transport) : option (nat * nat * bytes) :=
  match l with
  | LStep n false =>
      match t_threads s !! n with
      | Some (PBroadcast _ (Some o :: _) _ b) | Some (PQueueWrite _ o _ b) => Some (n, o, b)
      | _ => None
      end
  | _ => None
  end.

Fixpoint writes (ls : list label) (s : transport) : list (nat * nat * bytes) :=
  match ls with
  | [] => []
  | l :: ls =>
      match step l s with Next s' => option_list (write_of l s) ++ writes ls s' | _ => [] end
  end.

Definition occ {A} `{EqDecision A} (a : A) (l : list A) : nat := length (filter (λ x, x = a) l).

Lemma occ_app {A} `{EqDecision A} (a : A) l1 l2 : occ a (l1 ++ l2) = (occ a l1 + occ a l2)%nat.
Proof. unfold occ. by rewrite filter_app, length_app. Qed.

Lemma occ_nil {A} `{EqDecision A} (a : A) : occ a [] = 0%nat.
Proof. done. Qed.

Lemma occ_cons {A} `{EqDecision A} (a x : A) l :
  occ a (x :: l) = ((if decide (x = a) then 1 else 0) + occ a l)%nat.
Proof. unfold occ. rewrite filter_cons. by destruct (decide (x = a)). Qed.

Lemma occ_none {A} `{EqDecision A} (a : A) l : a ∉ l → occ a l = 0%nat.
Proof.
  induction l as [|x l IH]; intros Hn; [done|]. rewrite occ_cons, IH by set_solver.
  rewrite decide_False; [done|]. set_solver.
Qed.

Lemma occ_once {A} `{EqDecision A} (a : A) l i :
  l !! i = Some a → (∀ j, l !! j = Some a → j = i) → occ a l = 1%nat.
Proof.
  revert i. induction l as [|x l IH]; intros [|i] Hi Hu; simplify_eq/=; rewrite occ_cons.
  - rewrite decide_True by done. rewrite occ_none; [done|].
    intros [j Hj]%list_elem_of_lookup_1. by specialize (Hu (S j) Hj).
  - rewrite decide_False; [|intros ->; by specialize (Hu 0%nat eq_refl)].
    apply (IH i); [done|]. intros j Hj. specialize (Hu (S j) Hj). lia.
Qed.

(** *** What only grows *)

(** Subscriptions and lists keep what they were made with, and a subscription whose
    context is done stays so. *)
Record mono (s s' : transport) : Prop := {
  mo_all o u : t_all s !! o = Some u → ∃ u', t_all s' !! o = Some u' ∧
    sub_list u' = sub_list u ∧ sub_index u' = sub_index u ∧
    (sub_canceled u = true → sub_canceled u' = true);
  mo_lists l L : t_lists s !! l = Some L → ∃ L', t_lists s' !! l = Some L' ∧
    sl_channel L' = sl_channel L ∧ sl_queue L' = sl_queue L
}.

Lemma mono_core s s' :
  t_all s' = t_all s → t_lists s' = t_lists s → mono s s'.
Proof. intros Ha Hl. split; rewrite ?Ha, ?Hl; [intros o u ->; by exists u|intros l L ->; by exists L]. Qed.

Lemma mono_thread s s' n t : mono s s' → mono s (with_thread s' n t).
Proof. by intros []; split. Qed.

Lemma mono_sub s o u u' : t_all s !! o = Some u →
  sub_list u' = sub_list u → sub_index u' = sub_index u →
  (sub_canceled u = true → sub_canceled u' = true) → mono s (with_sub s o u').
Proof.
  intros Hu Hl Hi Hc. split; simpl; [|intros l L ->; by exists L].
  intros o2 u2 Hu2. destruct (decide (o2 = o)) as [->|Hne].
  - rewrite list_lookup_insert_eq by (by eapply lookup_lt_Some). simplify_eq. by exists u'.
  - rewrite list_lookup_insert_ne by done. by exists u2.
Qed.

Lemma mono_lists_all s maps1 maps2 l L L' new :
  t_lists s !! l = Some L → sl_channel L' = sl_channel L → sl_queue L' = sl_queue L →
  mono s (MkTransport maps1 maps2 (<[l := L']> (t_lists s)) (t_all s ++ new) (t_threads s)).
Proof.
  intros HL Hc Hq. split; simpl.
  - intros o u Hu. exists u. by rewrite (lookup_app_l_Some _ _ _ _ Hu).
  - intros l2 L2 HL2. destruct (decide (l2 = l)) as [->|Hne].
    + rewrite list_lookup_insert_eq by (by eapply lookup_lt_Some). simplify_eq. by exists L'.
    + rewrite list_lookup_insert_ne by done. by exists L2.
Qed.

(** Where a goroutine goes from a point. *)
Definition goes (s s' : transport) (drop : bool) (t t' : thread) : Prop :=
  match t with
  | PLookup channel b => t' = PDispatch (lists_of s channel) b ∧ transport_free s = true
  | PDispatch [] b => t' = PDone
  | PDispatch (l :: lists) b => ∃ L, t_lists s !! l = Some L ∧
      if sl_queue L then t' = PDispatch lists b ∨ ∃ o, Some o ∈ sl_subs L ∧ t' = PQueueWrite l o lists b
      else t' = PBroadcast l (sl_subs L) lists b
  | PBroadcast l [] lists b => t' = PDispatch lists b
  | PBroadcast l (x :: rest) lists b => t' = PBroadcast l rest lists b ∧
      (drop = true → ∀ o, x = Some o → ∃ u, t_all s !! o = Some u ∧ sub_canceled u = true)
  | PQueueWrite l o lists b => t' = PDispatch lists b ∧
      (drop = true → ∃ u, t_all s !! o = Some u ∧ sub_canceled u = true)
  | CCancel o => t' = CTransport o ∧ ∃ u, t_all s' !! o = Some u ∧ sub_canceled u = true
  | _ => closes t' = closes t ∧ ∀ o, t' ≠ CCancel o
  end.

Lemma write_effect s s' n t' o b drop :
  and_then (write s o b drop) (λ s, with_thread s n t') = Next s' →
  mono s s' ∧ t_threads s' = <[n := t']> (t_threads s) ∧
  (drop = true → ∃ u, t_all s !! o = Some u ∧ sub_canceled u = true).
Proof.
  unfold write. destruct (t_all s !! o) as [u|] eqn:Hu; [|done]. destruct drop.
  - destruct (sub_canceled u) eqn:Hcan; [|done]. intros [= <-].
    split_and!; [by apply mono_thread, mono_core|done|]. by exists u.
  - destruct (chan_send _ _) as [c| |]; [|done..]. intros [= <-].
    split_and!; [by eapply mono_thread, mono_sub|done|done].
Qed.

Lemma thread_step_effect s s' n t drop :
  t_threads s !! n = Some t → thread_step s n t drop = Next s' →
  mono s s' ∧ ∃ t', t_threads s' = <[n := t']> (t_threads s) ∧ goes s s' drop t t'.
Proof.
  intros Hn. pose proof (lookup_lt_Some _ _ _ Hn) as Hlt.
  destruct t as [channel b|[|l lists] b|l [|[o|] rest] lists b|l o lists b| |queue channel size|l size|o|o|o|o|o|o];
    simpl; try done.
  - destruct (transport_free s); [|done]. intros [= <-]. split; [by apply mono_thread, mono_core|by eexists].
  - intros [= <-]. split; [by apply mono_thread, mono_core|by eexists].
  - unfold dispatch. destruct (t_lists s !! l) as [L|] eqn:HL; [|done]. destruct (sl_queue L) eqn:Hq.
    + destruct (list_free s l); [|done]. destruct (pick _ _) as [[next p]|] eqn:Hp; [|done]. intros [= <-].
      split.
      * apply mono_thread. unfold with_list. rewrite <- (app_nil_r (t_all s)) at 1.
        by eapply mono_lists_all.
      * eexists. split; [done|]. exists L. rewrite Hq. split; [done|].
        destruct p as [o|]; [right; exists o; split; [by eapply pick_in|done]|by left].
    + destruct (list_readable s l); [|done]. intros [= <-]. split; [by apply mono_thread, mono_core|].
      eexists. split; [done|]. exists L. by rewrite Hq.
  - intros [= <-]. split; [by apply mono_thread, mono_core|by eexists].
  - intros (Hm & Ht & Hd)%write_effect. split; [done|]. eexists. split; [done|]. split; [done|].
    intros Hdrop o2 [= <-]. by apply Hd.
  - intros [= <-]. split; [by apply mono_thread, mono_core|by eexists].
  - intros (Hm & Ht & Hd)%write_effect. split; [done|]. by eexists.
  - unfold subscribe. destruct (transport_free s); [|done].
    destruct ((if queue then t_queues s else t_subs s) !! channel); intros [= <-];
      (split; [apply mono_thread|by eexists]); [by apply mono_core|].
    split; simpl; [intros o u ->; by exists u|]. intros l2 L2 HL2. exists L2.
    by rewrite (lookup_app_l_Some _ _ _ _ HL2).
  - unfold create. destruct (t_lists s !! l) as [L|] eqn:HL; [|done]. destruct (list_free s l); [|done].
    intros [= <-]. split; [by eapply mono_thread, mono_lists_all|by eexists].
  - destruct (t_all s !! o) as [u|] eqn:Hu; [|done]. intros [= <-].
    split; [by eapply mono_thread, mono_sub|]. eexists. split; [done|]. split; [done|].
    exists (set_canceled u). simpl. rewrite list_lookup_insert_eq; [done|by eapply lookup_lt_Some].
  - destruct (transport_free s); [|done]. intros [= <-]. split; [by apply mono_thread, mono_core|by eexists].
  - unfold onUnsubscribe. destruct (t_all s !! o) as [u|] eqn:Hu; [|done].
    destruct (t_lists s !! sub_list u) as [L|] eqn:HL; [|done].
    destruct (list_free s _); [|done]. destruct (_ <? _)%nat; [|done]. intros [= <-].
    split; [|by eexists]. apply mono_thread. rewrite <- (app_nil_r (t_all s)) at 1. by eapply mono_lists_all.
  - destruct (t_all s !! o) as [u|] eqn:Hu; [|done]. destruct (chan_close _); [|done]. intros [= <-].
    split; [by eapply mono_thread, mono_sub|by eexists].
Qed.

Lemma step_mono l s s' : step l s = Next s' → mono s s'.
Proof.
  destruct l as [channel b|queue channel size|o|n drop|o|o]; simpl.
  - intros [= <-]. by apply mono_core.
  - intros [= <-]. by apply mono_core.
  - destruct (_ && _); [|done]. intros [= <-]. by apply mono_core.
  - destruct (t_threads s !! n) as [t|] eqn:Hn; [|done]. intros Hs. by eapply thread_step_effect.
  - destruct (t_all s !! o) as [u|] eqn:Hu; [|done].
    destruct (chan_recv _); [|by intros [= <-]; apply mono_core|done]. intros [= <-]. by eapply mono_sub.
  - destruct (t_all s !! o) as [u|] eqn:Hu; [|done]. intros [= <-]. by eapply mono_sub.
Qed.

(** A goroutine that is not the one stepping stays where it is. *)
Lemma step_others l s s' n t :
  step l s = Next s' → (∀ drop, l ≠ LStep n drop) → t_threads s !! n = Some t → t_threads s' !! n = Some t.
Proof.
  destruct l as [channel b|queue channel size|o|m drop|o|o]; simpl; intros Hs Hne Hn.
  - injection Hs as <-. by apply lookup_app_l_Some.
  - injection Hs as <-. by apply lookup_app_l_Some.
  - destruct (_ && _); [|done]. injection Hs as <-. by apply lookup_app_l_Some.
  - destruct (t_threads s !! m) as [t0|] eqn:Hm; [|done].
    destruct (thread_step_effect s s' m t0 drop Hm Hs) as (_ & t' & -> & _).
    rewrite list_lookup_insert_ne; [done|]. intros ->. by apply (Hne drop).
  - destruct (t_all s !! o); [|done]. by destruct (chan_recv _); simplify_eq.
  - destruct (t_all s !! o); [|done]. by injection Hs as <-.
Qed.

Lemma step_new l s s' n t :
  step l s = Next s' → t_threads s' !! n = Some t → t_threads s !! n = None →
  ∀ o, closes t = Some o → t = CCancel o.
Proof.
  intros Hs Hn' Hn.
  assert (Hadd : ∀ t0, (∀ o, closes t0 = Some o → t0 = CCancel o) → s' = add_thread s t0 →
    ∀ o, closes t = Some o → t = CCancel o).
  { intros t0 Ht0 ->. simpl in Hn'. apply lookup_app_Some in Hn' as [?|[_ Hz]]; [congruence|].
    apply list_lookup_singleton_Some in Hz as [_ <-]. exact Ht0. }
  destruct l as [channel b|queue channel size|o|m drop|o|o]; simpl in Hs.
  - injection Hs as <-. by eapply Hadd; [|reflexivity].
  - injection Hs as <-. by eapply Hadd; [|reflexivity].
  - destruct (_ && _); [|done]. injection Hs as <-. eapply Hadd; [|reflexivity]. by intros o2 [= ->].
  - destruct (t_threads s !! m) as [t0|] eqn:Hm; [|done].
    destruct (thread_step_effect s s' m t0 drop Hm Hs) as (_ & t' & Hth & _).
    rewrite Hth in Hn'. apply list_lookup_insert_cases in Hn' as [[-> _]|[_ ?]]; congruence.
  - destruct (t_all s !! o); [|done]. destruct (chan_recv _); simplify_eq/=; congruence.
  - destruct (t_all s !! o); [|done]. injection Hs as <-. simpl in Hn'. congruence.
Qed.

(** A [Close] past its first step has canceled. *)
Definition closers_canceled (s : transport) : Prop :=
  ∀ n t o, t_threads s !! n = Some t → closes t = Some o → t ≠ CCancel o →
    ∃ u, t_all s !! o = Some u ∧ sub_canceled u = true.

Lemma canceled_mono s s' o : mono s s' →
  (∃ u, t_all s !! o = Some u ∧ sub_canceled u = true) →
  ∃ u, t_all s' !! o = Some u ∧ sub_canceled u = true.
Proof. intros Hm (u & Hu & Hc). destruct (mo_all s s' Hm o u Hu) as (u' & ? & _ & _ & ?). exists u'. auto. Qed.

Lemma step_canceled l s s' : step l s = Next s' → closers_canceled s → closers_canceled s'.
Proof.
  intros Hs Hcc n t' o Hn' Hcl Hne. pose proof (step_mono l s s' Hs) as Hm.
  destruct (t_threads s !! n) as [t|] eqn:Hn; [|by rewrite (step_new l s s' n t' Hs Hn' Hn o Hcl) in Hne].
  assert ((∀ drop, l ≠ LStep n drop) ∨ ∃ drop, l = LStep n drop) as [Hl|[drop ->]].
  { destruct l as [| | |m drop| |]; try (by left). destruct (decide (m = n)) as [->|]; [right; by exists drop|left; congruence]. }
  - rewrite (step_others l s s' n t Hs Hl Hn) in Hn'. injection Hn' as ->.
    apply (canceled_mono s s' o Hm). by eapply Hcc.
  - simpl in Hs. rewrite Hn in Hs. destruct (thread_step_effect s s' n t drop Hn Hs) as (_ & t2 & Hth & Hgo).
    rewrite Hth, list_lookup_insert_eq in Hn' by (by eapply lookup_lt_Some). injection Hn' as ->.
    assert (t = CCancel o ∨ (closes t = Some o ∧ t ≠ CCancel o)) as [->|[Hcl0 Hne0]].
    { destruct t as [channel b|[|l lists] b|l [|x rest] lists b|l o' lists b| |queue channel size|l size|o'|o'|o'|o'|o'|o'];
        simpl in Hgo; try (by subst t'); try (by destruct Hgo as [? ?]; subst t');
        try (by destruct Hgo as [Hcl2 _]; rewrite Hcl2 in Hcl; simplify_eq/=; right).
      - destruct Hgo as (L & _ & Hgo). destruct (sl_queue L); [destruct Hgo as [->|(? & _ & ->)]|subst t']; done.
      - destruct Hgo as [-> _]. simpl in Hcl. injection Hcl as ->. by left. }
    + by destruct Hgo as [_ ?].
    + apply (canceled_mono s s' o Hm). by eapply Hcc.
Qed.

(** A subscription whose context is not done is in its list. *)
Lemma not_canceled_live s o u :
  inv s → closers_canceled s → t_all s !! o = Some u → sub_canceled u = false → live s o.
Proof.
  intros Hinv Hcc Hu Hno.
  destruct (decide (Forall (λ t, closes t ≠ Some o) (t_threads s))) as [Hall|Hex].
  - apply (co_all s (iv_core s Hinv)); [by eapply lookup_lt_Some|].
    intros n t Hn. by eapply Forall_lookup in Hn; [|exact Hall].
  - apply not_Forall_Exists in Hex; [|apply _]. apply Exists_exists in Hex as (t & Ht & Hcl).
    apply list_elem_of_lookup_1 in Ht as [n Hn]. apply dec_stable in Hcl.
    destruct (decide (t = CCancel o)) as [->|Hne]; [by apply (iv_threads s Hinv n (CCancel o))|].
    destruct (Hcc n t o Hn Hcl Hne) as (u2 & Hu2 & ?). congruence.
Qed.

(** *** One publish *)

Section one_publish.
Context (n o : nat) (channel : string) (b : bytes).

(** The writes to [o] that publisher [n] has before it at a point, [o] being of list [lo]. *)
Definition owed (lo : nat) (t : thread) : nat :=
  match t with
  | PLookup _ _ => 1
  | PDispatch lists _ => occ lo lists
  | PBroadcast _ rest lists _ => (occ (Some o) rest + occ lo lists)%nat
  | PQueueWrite _ o' lists _ => ((if decide (o' = o) then 1 else 0) + occ lo lists)%nat
  | _ => 0
  end.

(** The point is one of a publication of [b] on [channel]. *)
Definition publishes (t : thread) : Prop :=
  match t with
  | PLookup channel' b' => channel' = channel ∧ b' = b
  | PDispatch _ b' | PBroadcast _ _ _ b' | PQueueWrite _ _ _ b' => b' = b
  | PDone => True
  | _ => False
  end.

(** The subscription is of a list of the channel, not a queue's. *)
Definition subscribed (s : transport) (u : subscription) : Prop :=
  ∃ L, t_lists s !! sub_list u = Some L ∧ sl_channel L = channel ∧ sl_queue L = false.

(** What was written to [o] and what is owed to it make one, unless its context is done. *)
Definition owed_ok (s : transport) (k : nat) : Prop :=
  ∃ u, t_all s !! o = Some u ∧
    (sub_canceled u = true ∨
     subscribed s u ∧ ∃ t, t_threads s !! n = Some t ∧ publishes t ∧ (k + owed (sub_list u) t = 1)%nat).

Lemma occ_broadcast s u L :
  core_ok s → live s o → t_all s !! o = Some u → t_lists s !! sub_list u = Some L →
  occ (Some o) (sl_subs L) = 1%nat.
Proof.
  intros Hc (u2 & L2 & Hu2 & HL2 & Hi) Hu HL. assert (u2 = u) as -> by congruence.
  assert (L2 = L) as -> by congruence. apply (occ_once _ _ (sub_index u)); [done|].
  intros j Hj. destruct (co_subs s Hc _ L j o HL Hj) as (u3 & Hu3 & _ & <- & _). congruence.
Qed.

Lemma occ_other s u l L :
  core_ok s → t_all s !! o = Some u → t_lists s !! l = Some L → l ≠ sub_list u →
  Some o ∉ sl_subs L.
Proof.
  intros Hc Hu HL Hne [i Hi]%list_elem_of_lookup_1.
  destruct (co_subs s Hc l L i o HL Hi) as (u2 & Hu2 & ? & _). congruence.
Qed.

Lemma occ_lookup s u :
  core_ok s → live s o → t_all s !! o = Some u → subscribed s u →
  occ (sub_list u) (lists_of s channel) = 1%nat.
Proof.
  intros Hc (u2 & L2 & Hu2 & HL2 & Hi) Hu (L & HL & <- & Hq). assert (u2 = u) as -> by congruence.
  assert (L2 = L) as -> by congruence. assert (mapped s (sub_list u) L) as Hm.
  { apply (co_mapped s Hc); [done|]. intros Hnil. apply list_elem_of_lookup_2 in Hi.
    assert (o ∈ omap id (sl_subs L)) as Hin by (apply list_elem_of_omap; by exists (Some o)).
    rewrite Hnil in Hin. by apply elem_of_nil in Hin. }
  unfold mapped in Hm. rewrite Hq in Hm. simpl in Hm. unfold lists_of. rewrite Hm. simpl.
  rewrite occ_cons, decide_True by done. rewrite occ_none; [done|].
  destruct (t_queues s !! sl_channel L) as [l|] eqn:Hl; simpl; [|by intros ?%elem_of_nil].
  destruct (co_maps s Hc true _ l Hl) as (L2 & ? & _ & ?). intros Heq%list_elem_of_singleton. congruence.
Qed.

Lemma owed_step l s s' k :
  inv s → closers_canceled s → step l s = Next s' → owed_ok s k →
  owed_ok s' (k + occ (n, o, b) (option_list (write_of l s))).
Proof.
  intros Hinv Hcc Hs (u & Hu & Hor). pose proof (step_mono l s s' Hs) as Hm. pose proof (iv_core s Hinv) as Hc.
  destruct (mo_all s s' Hm o u Hu) as (u' & Hu' & Hul & _ & Hcan). exists u'. split; [done|].
  destruct (sub_canceled u') eqn:Hcan'; [by left|right].
  assert (sub_canceled u = false) as Hno by (destruct (sub_canceled u); [by specialize (Hcan eq_refl)|done]).
  pose proof (not_canceled_live s o u Hinv Hcc Hu Hno) as Hlive.
  destruct Hor as [?|[Hsub (t & Hn & Hpub & Hk)]]; [congruence|].
  split.
  { destruct Hsub as (L & HL & Hch & Hq). destruct (mo_lists s s' Hm _ L HL) as (L' & ? & ? & ?).
    exists L'. rewrite Hul. split_and!; congruence. }
  rewrite Hul.
  assert ((∀ drop, l ≠ LStep n drop) ∨ ∃ drop, l = LStep n drop) as [Hl|[drop ->]].
  { destruct l as [| | |m drop| |]; try (by left). destruct (decide (m = n)) as [->|]; [right; by exists drop|left; congruence]. }
  { exists t. split; [by eapply step_others|]. split; [done|]. rewrite occ_none; [lia|].
    destruct l as [| | |m [|]| |]; simpl; try (by apply not_elem_of_nil).
    repeat case_match; simpl; try (by apply not_elem_of_nil);
      intros [= -> _ _]%list_elem_of_singleton; by apply (Hl false). }
  pose proof Hs as Hs2. simpl in Hs2. rewrite Hn in Hs2.
  destruct (thread_step_effect s s' n t drop Hn Hs2) as (_ & t' & Hth & Hgo).
  exists t'. rewrite Hth, list_lookup_insert_eq by (by eapply lookup_lt_Some). split; [done|].
  destruct t as [ch' b'|[|l lists] b'|l [|x rest] lists b'|l o' lists b'| | | | | | | | |];
    simpl in Hgo, Hpub; try done.
  - destruct Hgo as [-> _], Hpub as [-> ->]. split; [done|].
    replace (occ _ (option_list _)) with 0%nat by (simpl; rewrite Hn; by destruct drop).
    simpl in *. rewrite (occ_lookup s u) by done. lia.
  - subst. split; [done|]. replace (occ _ (option_list _)) with 0%nat by (simpl; rewrite Hn; by destruct drop).
    simpl in *. rewrite occ_nil in Hk. lia.
  - replace (occ _ (option_list _)) with 0%nat by (simpl; rewrite Hn; by destruct drop).
    destruct Hgo as (L & HL & Hgo). simpl in Hk. rewrite occ_cons in Hk.
    destruct (decide (l = sub_list u)) as [->|Hne].
    + destruct Hsub as (L2 & HL2 & _ & Hq2). simplify_eq. rewrite Hq2 in Hgo. subst t'. split; [done|]. simpl.
      rewrite (occ_broadcast s u) by done. lia.
    + destruct (sl_queue L).
      * destruct Hgo as [->|(o' & Hin & ->)]; (split; [done|]); simpl; [lia|].
        rewrite decide_False; [lia|]. intros ->. by eapply occ_other.
      * subst t'. split; [done|]. simpl. rewrite (occ_none (Some o)); [lia|]. by eapply occ_other.
  - subst t'. split; [done|]. replace (occ _ (option_list _)) with 0%nat by (simpl; rewrite Hn; by destruct drop).
    simpl in *. lia.
  - destruct Hgo as [-> Hdrop]. split; [done|]. simpl in Hk. rewrite occ_cons in Hk. subst b'.
    simpl. rewrite Hn. destruct drop.
    + simpl. rewrite occ_nil. destruct (decide (x = Some o)) as [->|_]; [|lia].
      destruct (Hdrop eq_refl o eq_refl) as (u2 & ? & ?). congruence.
    + destruct x as [o'|]; simpl; [|rewrite decide_False in Hk by done; rewrite occ_nil; lia]. rewrite occ_cons.
      rewrite occ_nil.
      destruct (decide (Some o' = Some o)) as [[= ->]|Hne]; [rewrite decide_True by done; lia|].
      rewrite decide_False by congruence. lia.
  - destruct Hgo as [-> Hdrop]. split; [done|]. subst b'. simpl in Hk. simpl. rewrite Hn. destruct drop.
    + simpl. rewrite occ_nil. destruct (decide (o' = o)) as [->|_]; [|lia].
      destruct (Hdrop eq_refl) as (u2 & ? & ?). congruence.
    + simpl. rewrite occ_cons, occ_nil.
      destruct (decide (o' = o)) as [->|Hne]; [rewrite decide_True by done; lia|].
      rewrite decide_False by congruence. lia.
Qed.
End one_publish.

Lemma run_canceled ls s s' : closers_canceled s → run ls s = Some s' → closers_canceled s'.
Proof.
  revert s. induction ls as [|l ls IH]; intros s Hcc Hr; simplify_eq/=; [done|].
  destruct (step l s) as [s2| |] eqn:Hs; [|done..]. apply (IH s2); [|done]. by eapply step_canceled.
Qed.

Lemma run_owed n o channel b ls s s' k :
  inv s → closers_canceled s → run ls s = Some s' → owed_ok n o channel b s k →
  owed_ok n o channel b s' (k + occ (n, o, b) (writes ls s)).
Proof.
  revert s k. induction ls as [|l ls IH]; intros s k Hinv Hcc Hr Hk; simplify_eq/=.
  { by rewrite occ_nil, Nat.add_0_r. }
  destruct (step l s) as [s2| |] eqn:Hs; [|done..]. rewrite occ_app, Nat.add_assoc.
  apply IH; [|by eapply step_canceled|done|by eapply owed_step].
  pose proof (bus_step_inv l s Hinv) as Hok. by rewrite Hs in Hok.
Qed.

(** *** Order *)

Definition buffer (s : transport) (o : nat) : list bytes :=
  from_option (λ u, chan_buf (sub_msgChan u)) [] (t_all s !! o).

(** What was written to a subscription, and what its reader took. *)
Definition written_to (o : nat) (ws : list (nat * nat * bytes)) : list bytes :=
  omap (λ w, if decide (w.1.2 = o) then Some w.2 else None) ws.

Definition read_of (l : label) (s : transport) (o : nat) : list bytes :=
  match l with LRead o' => if decide (o' = o) then take 1 (buffer s o) else [] | _ => [] end.

Fixpoint reads (ls : list label) (s : transport) (o : nat) : list bytes :=
  match ls with
  | [] => []
  | l :: ls => match step l s with Next s' => read_of l s o ++ reads ls s' o | _ => [] end
  end.

Lemma buffer_with_sub s o u u' o2 : t_all s !! o = Some u →
  buffer (with_sub s o u') o2 = if decide (o2 = o) then chan_buf (sub_msgChan u') else buffer s o2.
Proof.
  intros Hu. unfold buffer. simpl. destruct (decide (o2 = o)) as [->|Hne].
  - by rewrite list_lookup_insert_eq by (by eapply lookup_lt_Some).
  - by rewrite list_lookup_insert_ne.
Qed.

Lemma write_buffer s s' n t' o b drop o2 :
  and_then (write s o b drop) (λ s, with_thread s n t') = Next s' →
  buffer s' o2 = buffer s o2 ++ (if drop then [] else if decide (o = o2) then [b] else []).
Proof.
  unfold write. destruct (t_all s !! o) as [u|] eqn:Hu; [|done]. destruct drop.
  - destruct (sub_canceled u); [|done]. intros [= <-]. by rewrite app_nil_r.
  - unfold chan_send. destruct (chan_closed _); [done|]. destruct (_ <? _)%nat; [|done]. intros [= <-].
    change (buffer (with_thread ?s n t')) with (buffer s). rewrite (buffer_with_sub s o u) by done.
    destruct (decide (o2 = o)) as [->|Hne].
    + rewrite decide_True by done. unfold buffer. by rewrite Hu.
    + rewrite decide_False by done. by rewrite app_nil_r.
Qed.

Lemma buffer_same s s' o : t_all s' !! o = t_all s !! o → buffer s' o = buffer s o.
Proof. unfold buffer. by intros ->. Qed.

Lemma thread_step_buffer s s' n t drop o :
  t_threads s !! n = Some t → thread_step s n t drop = Next s' →
  buffer s' o = buffer s o ++ written_to o (option_list (write_of (LStep n drop) s)).
Proof.
  intros Hn.
  destruct t as [channel b|[|l lists] b|l [|[o'|] rest] lists b|l o' lists b| |queue channel size|l size|o'|o'|o'|o'|o'|o'];
    simpl; rewrite Hn;
    try (replace (written_to o (option_list _)) with (@nil bytes) by (by destruct drop); rewrite app_nil_r);
    try done.
  - destruct (transport_free s); [|done]. by intros [= <-].
  - by intros [= <-].
  - unfold dispatch. destruct (t_lists s !! l) as [L|]; [|done]. destruct (sl_queue L).
    + destruct (list_free s l); [|done]. destruct (pick _ _) as [[next p]|]; [|done]. by intros [= <-].
    + destruct (list_readable s l); [|done]. by intros [= <-].
  - by intros [= <-].
  - intros ->%(write_buffer _ _ _ _ _ _ _ o). f_equal. destruct drop; [done|]. unfold written_to. simpl.
    by destruct (decide (o' = o)).
  - by intros [= <-].
  - intros ->%(write_buffer _ _ _ _ _ _ _ o). f_equal. destruct drop; [done|]. unfold written_to. simpl.
    by destruct (decide (o' = o)).
  - unfold subscribe. destruct (transport_free s); [|done].
    by destruct ((if queue then t_queues s else t_subs s) !! channel); intros [= <-].
  - unfold create. destruct (t_lists s !! l); [|done]. destruct (list_free s l); [|done]. intros [= <-].
    unfold buffer. simpl. destruct (t_all s !! o) as [u|] eqn:Hu; [by rewrite (lookup_app_l_Some _ _ _ _ Hu)|].
    rewrite lookup_app_r by (by apply lookup_ge_None). by destruct (_ - _)%nat.
  - destruct (t_all s !! o') as [u|] eqn:Hu; [|done]. intros [= <-].
    change (buffer (with_thread ?s n ?t')) with (buffer s). rewrite (buffer_with_sub s o' u) by done.
    destruct (decide (o = o')) as [->|]; [|done]. unfold buffer. by rewrite Hu.
  - destruct (transport_free s); [|done]. by intros [= <-].
  - unfold onUnsubscribe. destruct (t_all s !! o') as [u|]; [|done]. destruct (t_lists s !! sub_list u); [|done].
    destruct (list_free s _); [|done]. destruct (_ <? _)%nat; [|done]. by intros [= <-].
  - destruct (t_all s !! o') as [u|] eqn:Hu; [|done]. unfold chan_close.
    destruct (chan_closed _); [done|]. intros [= <-].
    change (buffer (with_thread ?s n ?t')) with (buffer s). rewrite (buffer_with_sub s o' u) by done.
    destruct (decide (o = o')) as [->|]; [|done]. unfold buffer. by rewrite Hu.
Qed.

Lemma step_buffer l s s' o :
  step l s = Next s' →
  buffer s o ++ written_to o (option_list (write_of l s)) = read_of l s o ++ buffer s' o.
Proof.
  destruct l as [channel b|queue channel size|o'|n drop|o'|o'].
  - intros [= <-]. by rewrite app_nil_r.
  - intros [= <-]. by rewrite app_nil_r.
  - simpl. destruct (_ && _); [|done]. intros [= <-]. by rewrite app_nil_r.
  - cbn [step read_of app]. destruct (t_threads s !! n) as [t|] eqn:Hn; [|done]. intros Hs.
    by rewrite (thread_step_buffer s s' n t drop o Hn Hs).
  - simpl. rewrite app_nil_r. destruct (t_all s !! o') as [u|] eqn:Hu; [|done]. unfold chan_recv.
    destruct (chan_buf (sub_msgChan u)) as [|b rest] eqn:Hb.
    + destruct (chan_closed _); [|done]. intros [= <-]. destruct (decide (o' = o)) as [->|]; [|done].
      unfold buffer. rewrite Hu. simpl. by rewrite Hb.
    + intros [= <-]. rewrite (buffer_with_sub s o' u) by done. destruct (decide (o' = o)) as [->|Hne].
      * rewrite decide_True by done. unfold buffer. rewrite Hu. simpl. by rewrite Hb.
      * by rewrite decide_False.
  - simpl. rewrite app_nil_r. destruct (t_all s !! o') as [u|] eqn:Hu; [|done]. intros [= <-].
    rewrite (buffer_with_sub s o' u) by done. destruct (decide (o = o')) as [->|]; [|done].
    unfold buffer. by rewrite Hu.
Qed.

Lemma run_buffer ls s s' o :
  run ls s = Some s' →
  buffer s o ++ written_to o (writes ls s) = reads ls s o ++ buffer s' o.
Proof.
  revert s. induction ls as [|l ls IH]; intros s Hr; simplify_eq/=; [by rewrite app_nil_r|].
  destruct (step l s) as [s2| |] eqn:Hs; [|done..].
  pose proof (step_buffer l s s2 o Hs) as Hb. specialize (IH s2 Hr). unfold written_to in *.
  rewrite omap_app, (assoc_L (++)), Hb, <- !(assoc_L (++)). by f_equal.
Qed.

(** ** Properties *)

(** C15: a publication reaches every subscriber: a subscription of the channel there when
    [Publish] is called, its context not done by the time it returns, is written the
    message exactly once, whatever goes on besides. *)
Theorem publish_reaches_subscribers (ls0 ls : list label) (s0 s : transport) (channel : string)
    (b : bytes) (n o : nat) (u u' : subscription) (L : subList)
    (Hrun0 : run ls0 New = Some s0) (Hn : t_threads s0 !! n = Some (PLookup channel b))
    (Hu : t_all s0 !! o = Some u) (HL : t_lists s0 !! sub_list u = Some L)
    (Hchannel : sl_channel L = channel) (Hqueue : sl_queue L = false)
    (Hrun : run ls s0 = Some s) (Hdone : t_threads s !! n = Some PDone)
    (Hu' : t_all s !! o = Some u') (Hcanceled : sub_canceled u' = false) :
  occ (n, o, b) (writes ls s0) = 1%nat.
Proof.
  pose proof (bus_run_inv ls0 New s0 inv_New Hrun0) as Hinv.
  assert (closers_canceled s0) as Hcc by (by apply (run_canceled ls0 New)).
  destruct (run_owed n o channel b ls s0 s 0 Hinv Hcc Hrun) as (u2 & Hu2 & Hor).
  - exists u. split; [done|]. right. split; [by exists L|]. by exists (PLookup channel b).
  - rewrite Hu' in Hu2. injection Hu2 as <-. destruct Hor as [?|[_ (t & Ht & _ & Hk)]]; [congruence|].
    rewrite Hdone in Ht. injection Ht as <-. simpl in Hk. lia.
Qed.

(** A subscription's reader takes what was written to it, each message once and in
    the order of the writes; what it did not take yet is in the channel. *)
Theorem subscription_fifo (ls : list label) (s0 s : transport) (o : nat) (Hrun : run ls s0 = Some s) :
  buffer s0 o ++ written_to o (writes ls s0) = reads ls s0 o ++ buffer s o.
Proof. by apply run_buffer. Qed.

Section localbus_witnesses.
Definition delivery : list label :=
  [LStep 2 false; LStep 2 false; LStep 2 false; LStep 2 false; LStep 2 false; LStep 2 false; LStep 2 false].

Lemma publish_reaches_subscribers_witness :
  ∃ s, run one_message New = Some s ∧ occ (2%nat, 0%nat, [Ascii.zero]) (writes delivery s) = 1%nat.
Proof.
  eexists. split; [vm_compute; reflexivity|].
  eapply (publish_reaches_subscribers one_message delivery _ _ "a" [Ascii.zero] 2 0); vm_compute; reflexivity.
Defined.

Lemma subscription_fifo_witness :
  ∃ s s', run one_message New = Some s ∧ run (delivery ++ [LRead 1]) s = Some s' ∧
    reads (delivery ++ [LRead 1]) s 1 = [[Ascii.zero]] ∧
    buffer s 1 ++ written_to 1 (writes (delivery ++ [LRead 1]) s)
      = reads (delivery ++ [LRead 1]) s 1 ++ buffer s' 1.
Proof.
  destruct (run one_message New) as [s|] eqn:Hs; [|vm_compute in Hs; discriminate].
  destruct (run (delivery ++ [LRead 1]) s) as [s'|] eqn:Hs'.
  - exists s, s'. split; [reflexivity|]. split; [exact Hs'|]. split.
    + vm_compute in Hs. injection Hs as <-. vm_compute. reflexivity.
    + exact (subscription_fifo _ s s' 1 Hs').
  - vm_compute in Hs. injection Hs as <-. vm_compute in Hs'. discriminate.
Defined.
End localbus_witnesses.
