(* ===== verification/RedisBus.v ===== *)
(** * RedisBus.v: the redis bus ([src/pkg/bus/redisbus/redisbus.go])

    The transport's goroutines and what they share: subscribers and closers, the read
    worker that dispatches what redis delivers, and the write worker that keeps
    redis's subscriptions in line with the bus's.  A step is what a goroutine does
    between two points where another may come in; the transport's lock [mu] is held
    over several steps only by the read worker while it dispatches, so that it is free
    when that worker is not dispatching.  [RedisPublish] has the publish queues.

    go-redis is not code of the repository: what its calls answer is part of the label
    of a step, and [t_broker] records the channels redis is subscribed to. *)
From S2P Require Import Prelude Bus.

(** ** State *)

(** [redisSubList], its subscriptions named by their places in [t_all]. *)
Record redisSubList : Type := MkSubList {
  sl_subs : list nat;
  sl_next : nat
}.

Record redisSubscription : Type := MkSubscription {
  sub_channel : string;
  sub_queue : bool;
  sub_canceled : bool;
  sub_msgChan : chan bytes
}.

(** The read worker: in [ReceiveMessage], or dispatching with the lock: with the
    subscriptions left to write to, or in the write of a queue's turn. *)
Inductive reader : Type :=
| RReceive
| RSubs (channel : string) (rest : list nat) (msg : bytes)
| RQueue (o : nat) (msg : bytes).

(** A [Close]: past [cancel] and before [unsubscribe], before closing the channel, or
    returned. *)
Inductive closer : Type :=
| CUnsubscribe (o : nat)
| CCloseChan (o : nat)
| CDone (o : nat).

(** The write worker: waiting for [wakeup], in [drain], in a reconciliation before its
    test, calling redis with what to subscribe to and to unsubscribe from, or about to
    note the outcome. *)
Inductive writer : Type :=
| WWait
| WDrain
| WTest
| WCall (subscribe unsubscribe : gset string)
| WNote (subscribe unsubscribe : gset string) (subscribeErr unsubscribeErr : bool).

Record transport : Type := MkTransport {
  t_subs : gmap string redisSubList;
  t_queues : gmap string redisSubList;
  t_all : list redisSubscription;
  t_reader : reader;
  t_closers : list closer;
  t_wakeup : bool;
  t_ops : nat;
  t_writer : writer;
  t_dirty : gset string;
  t_current : gset string;
  t_broker : gset string
}.

Definition New : transport := MkTransport ∅ ∅ [] RReceive [] false 0 WWait ∅ ∅ ∅.

Inductive outcome : Type :=
| Next (s : transport)
| Blocked
| Panic.

(** ** Operations *)

Definition mu_free (s : transport) : bool :=
  match t_reader s with RReceive => true | _ => false end.

Definition lists (s : transport) (queue : bool) : gmap string redisSubList :=
  if queue then t_queues s else t_subs s.

Definition set_list (s : transport) (queue : bool) (channel : string) (l : option redisSubList) : transport :=
  let set (m : gmap string redisSubList) := match l with Some l => <[channel := l]> m | None => delete channel m end in
  MkTransport (if queue then t_subs s else set (t_subs s)) (if queue then set (t_queues s) else t_queues s)
    (t_all s) (t_reader s) (t_closers s) (t_wakeup s) (t_ops s) (t_writer s) (t_dirty s) (t_current s) (t_broker s).

Definition set_all (s : transport) (all : list redisSubscription) : transport :=
  MkTransport (t_subs s) (t_queues s) all (t_reader s) (t_closers s) (t_wakeup s) (t_ops s) (t_writer s)
    (t_dirty s) (t_current s) (t_broker s).

Definition set_reader (s : transport) (r : reader) : transport :=
  MkTransport (t_subs s) (t_queues s) (t_all s) r (t_closers s) (t_wakeup s) (t_ops s) (t_writer s)
    (t_dirty s) (t_current s) (t_broker s).

Definition set_closers (s : transport) (ks : list closer) : transport :=
  MkTransport (t_subs s) (t_queues s) (t_all s) (t_reader s) ks (t_wakeup s) (t_ops s) (t_writer s)
    (t_dirty s) (t_current s) (t_broker s).

Definition set_writer (s : transport) (w : writer) : transport :=
  MkTransport (t_subs s) (t_queues s) (t_all s) (t_reader s) (t_closers s) (t_wakeup s) (t_ops s) w
    (t_dirty s) (t_current s) (t_broker s).

(** [reconcileSubscriptions] and [enqueueWriteOp]: a full [wakeup] stays as it is. *)
Definition reconcileSubscriptions (s : transport) (channel : string) : transport :=
  MkTransport (t_subs s) (t_queues s) (t_all s) (t_reader s) (t_closers s) true (S (t_ops s)) (t_writer s)
    ({[channel]} ∪ t_dirty s) (t_current s) (t_broker s).

Definition subscribe (s : transport) (channel : string) (size : nat) (queue : bool) : transport :=
  let o := length (t_all s) in
  let s := set_all s (t_all s ++ [MkSubscription channel queue false (make_chan size)]) in
  match lists s queue !! channel with
  | Some l => set_list s queue channel (Some (MkSubList (sl_subs l ++ [o]) (sl_next l)))
  | None => reconcileSubscriptions (set_list s queue channel (Some (MkSubList [o] 0))) channel
  end.

(** [slices.Index] and [slices.Delete]. *)
Fixpoint remove (o : nat) (subs : list nat) : list nat :=
  match subs with
  | [] => []
  | o' :: subs => if decide (o' = o) then subs else o' :: remove o subs
  end.

Definition unsubscribe (s : transport) (channel : string) (queue : bool) (o : nat) : transport :=
  match lists s queue !! channel with
  | None => s
  | Some l =>
      if decide (o ∈ sl_subs l) then
        match remove o (sl_subs l) with
        | [] => reconcileSubscriptions (set_list s queue channel None) channel
        | subs => set_list s queue channel (Some (MkSubList subs (sl_next l)))
        end
      else s
  end.

Definition set_msgChan (u : redisSubscription) (c : chan bytes) : redisSubscription :=
  MkSubscription (sub_channel u) (sub_queue u) (sub_canceled u) c.

Definition set_canceled (u : redisSubscription) : redisSubscription :=
  MkSubscription (sub_channel u) (sub_queue u) true (sub_msgChan u).

(** [redisSubscription.write]: the [select] takes the context's end when [drop]. *)
Definition write (s : transport) (o : nat) (msg : bytes) (drop : bool) : outcome :=
  match t_all s !! o with
  | None => Panic
  | Some u =>
      if drop then if sub_canceled u then Next s else Blocked
      else
        match chan_send (sub_msgChan u) msg with
        | Sent c => Next (set_all s (<[o := set_msgChan u c]> (t_all s)))
        | SendBlocks => Blocked
        | SendPanics => Panic
        end
  end.

Definition and_then (o : outcome) (k : transport → transport) : outcome :=
  match o with Next s => Next (k s) | Blocked => Blocked | Panic => Panic end.

(** [dispatchQueue] up to its write: whose turn it is, and the cursor after it. *)
Definition dispatchQueue (l : redisSubList) : option (nat * redisSubList) :=
  let next := if (length (sl_subs l) <=? sl_next l)%nat then 0%nat else sl_next l in
  o ← sl_subs l !! next;
  Some (o, MkSubList (sl_subs l) (S next)).

(** The read worker with the lock. *)
Definition reader_step (s : transport) (drop : bool) : outcome :=
  match t_reader s with
  | RReceive => Blocked
  | RSubs channel (o :: rest) msg => and_then (write s o msg drop) (λ s, set_reader s (RSubs channel rest msg))
  | RSubs channel [] msg =>
      match t_queues s !! channel with
      | None => Next (set_reader s RReceive)
      | Some l =>
          match dispatchQueue l with
          | None => Panic
          | Some (o, l) => Next (set_reader (set_list s true channel (Some l)) (RQueue o msg))
          end
      end
  | RQueue o msg => and_then (write s o msg drop) (λ s, set_reader s RReceive)
  end.

Definition closer_step (s : transport) (n : nat) (k : closer) : outcome :=
  match k with
  | CUnsubscribe o =>
      match t_all s !! o with
      | None => Panic
      | Some u =>
          if mu_free s then
            let s := unsubscribe s (sub_channel u) (sub_queue u) o in
            Next (set_closers s (<[n := CCloseChan o]> (t_closers s)))
          else Blocked
      end
  | CCloseChan o =>
      match t_all s !! o with
      | None => Panic
      | Some u =>
          match chan_close (sub_msgChan u) with
          | None => Panic
          | Some c => Next (set_closers (set_all s (<[o := set_msgChan u c]> (t_all s))) (<[n := CDone o]> (t_closers s)))
          end
      end
  | CDone _ => Blocked
  end.

(** A channel the bus has subscriptions for. *)
Definition desired (s : transport) (channel : string) : bool :=
  bool_decide (is_Some (t_subs s !! channel)) || bool_decide (is_Some (t_queues s !! channel)).

(** What redis did in a call: all of it, or with an error all or nothing of it. *)
Record answer : Type := MkAnswer { an_err : bool; an_applied : bool }.

(** The write worker; [sub] and [unsub] are redis's answers. *)
Definition writer_step (s : transport) (sub unsub : answer) : outcome :=
  match t_writer s with
  | WWait =>
      if t_wakeup s then
        Next (MkTransport (t_subs s) (t_queues s) (t_all s) (t_reader s) (t_closers s) false (t_ops s) WDrain
                (t_dirty s) (t_current s) (t_broker s))
      else Blocked
  | WDrain =>
      match t_ops s with
      | O => Next (set_writer s WWait)
      | S n =>
          Next (MkTransport (t_subs s) (t_queues s) (t_all s) (t_reader s) (t_closers s) (t_wakeup s) n WTest
                  (t_dirty s) (t_current s) (t_broker s))
      end
  | WTest =>
      if mu_free s then
        if decide (t_dirty s = ∅) then Next (set_writer s WDrain)
        else
          let subscribe := filter (λ c, (c ∉ t_current s) ∧ desired s c = true) (t_dirty s) in
          let unsubscribe := filter (λ c, c ∈ t_current s ∧ desired s c = false) (t_dirty s) in
          Next (MkTransport (t_subs s) (t_queues s) (t_all s) (t_reader s) (t_closers s) (t_wakeup s) (t_ops s)
                  (WCall subscribe unsubscribe) ∅ (t_current s) (t_broker s))
      else Blocked
  | WCall subscribe unsubscribe =>
      let subscribeErr := an_err sub && bool_decide (subscribe ≠ ∅) in
      let unsubscribeErr := an_err unsub && bool_decide (unsubscribe ≠ ∅) in
      let broker := if negb subscribeErr || an_applied sub then subscribe ∪ t_broker s else t_broker s in
      let broker := if negb unsubscribeErr || an_applied unsub then broker ∖ unsubscribe else broker in
      Next (MkTransport (t_subs s) (t_queues s) (t_all s) (t_reader s) (t_closers s) (t_wakeup s) (t_ops s)
              (WNote subscribe unsubscribe subscribeErr unsubscribeErr) (t_dirty s) (t_current s) broker)
  | WNote subscribe unsubscribe subscribeErr unsubscribeErr =>
      if mu_free s then
        let dirty := if subscribeErr then subscribe ∪ t_dirty s else t_dirty s in
        let current := if subscribeErr then t_current s else subscribe ∪ t_current s in
        let dirty := if unsubscribeErr then unsubscribe ∪ dirty else dirty in
        let current := if unsubscribeErr then current else current ∖ unsubscribe in
        Next (MkTransport (t_subs s) (t_queues s) (t_all s) (t_reader s) (t_closers s) (t_wakeup s) (t_ops s)
                WTest dirty current (t_broker s))
      else Blocked
  end.

(** The subscription a [Close] closes. *)
Definition closes (k : closer) : nat :=
  match k with CUnsubscribe o | CCloseChan o | CDone o => o end.

(** What happens: subscribing, closing (once, as [closeOnce] of
    [src/pkg/bus/subscription.go] sees to) and its next step, a message from redis, a
    step of the read worker, one of the write worker, a subscriber taking a message, and
    the end of the context a subscription was made with. *)
Inductive label : Type :=
| LSubscribe (channel : string) (size : nat) (queue : bool)
| LClose (o : nat)
| LCloser (n : nat)
| LMessage (channel : string) (msg : bytes)
| LReader (drop : bool)
| LWriter (sub unsub : answer)
| LRead (o : nat)
| LContextDone (o : nat).

Definition step (l : label) (s : transport) : outcome :=
  match l with
  | LSubscribe channel size queue => if mu_free s then Next (subscribe s channel size queue) else Blocked
  | LClose o =>
      match t_all s !! o with
      | Some u =>
          if forallb (λ k, negb (closes k =? o)%nat) (t_closers s) then
            Next (set_closers (set_all s (<[o := set_canceled u]> (t_all s))) (t_closers s ++ [CUnsubscribe o]))
          else Blocked
      | None => Blocked
      end
  | LCloser n => match t_closers s !! n with Some k => closer_step s n k | None => Blocked end
  | LMessage channel msg =>
      if mu_free s then
        Next (set_reader s (RSubs channel (from_option sl_subs [] (t_subs s !! channel)) msg))
      else Blocked
  | LReader drop => reader_step s drop
  | LWriter sub unsub => writer_step s sub unsub
  | LRead o =>
      match t_all s !! o with
      | Some u =>
          match chan_recv (sub_msgChan u) with
          | Received _ c => Next (set_all s (<[o := set_msgChan u c]> (t_all s)))
          | RecvClosed => Next s
          | RecvBlocks => Blocked
          end
      | None => Blocked
      end
  | LContextDone o =>
      match t_all s !! o with
      | Some u => Next (set_all s (<[o := set_canceled u]> (t_all s)))
      | None => Blocked
      end
  end.

Fixpoint run (ls : list label) (s : transport) : option transport :=
  match ls with
  | [] => Some s
  | l :: ls => match step l s with Next s => run ls s | _ => None end
  end.

(** ** Reconciliation *)

(** What the write worker has in hand. *)
Definition in_hand (s : transport) : gset string :=
  match t_writer s with WCall sub unsub | WNote sub unsub _ _ => sub ∪ unsub | _ => ∅ end.

Definition reconciling (s : transport) : bool :=
  match t_writer s with WTest | WCall _ _ | WNote _ _ _ _ => true | _ => false end.

Record reconcile_inv (s : transport) : Prop := {
  ri_sync c : c ∉ t_dirty s → c ∉ in_hand s → (c ∈ t_current s ↔ desired s c = true);
  ri_hand sub unsub : (t_writer s = WCall sub unsub ∨ ∃ e1 e2, t_writer s = WNote sub unsub e1 e2) →
    (∀ c, c ∈ sub → (c ∉ t_current s) ∧ (c ∉ t_dirty s → desired s c = true)) ∧
    (∀ c, c ∈ unsub → c ∈ t_current s ∧ (c ∉ t_dirty s → desired s c = false));
  ri_work : t_dirty s ≠ ∅ → t_ops s ≠ 0%nat ∨ reconciling s = true;
  ri_wakeup : t_ops s ≠ 0%nat → t_wakeup s = true ∨ t_writer s ≠ WWait
}.

(** Redis knows what the transport takes it to know, if it does not carry out an
    unsubscription it answers with an error. *)
Definition broker_inv (s : transport) : Prop :=
  match t_writer s with
  | WNote sub unsub e1 e2 =>
      (∀ c, c ∈ t_current s → c ∉ unsub ∨ e2 = true → c ∈ t_broker s) ∧
      (e1 = false → ∀ c, c ∈ sub → c ∈ t_broker s)
  | _ => ∀ c, c ∈ t_current s → c ∈ t_broker s
  end.

(** The bus's side of a reconciliation: subscriptions come and go. *)
Lemma reconcile_change s s' (ch : string) (b : bool) :
  reconcile_inv s → t_writer s' = t_writer s → t_current s' = t_current s →
  (∀ c, c ≠ ch ∨ b = false → desired s' c = desired s c) →
  t_dirty s' = (if b then {[ch]} ∪ t_dirty s else t_dirty s) →
  t_ops s' = (if b then S (t_ops s) else t_ops s) →
  t_wakeup s' = (if b then true else t_wakeup s) → reconcile_inv s'.
Proof.
  intros [Hs Hh Hw Hk] Hwr Hc Hd Hdi Hop Hwk.
  assert (Hdes : ∀ c, c ∉ t_dirty s' → desired s' c = desired s c ∧ c ∉ t_dirty s).
  { intros c Hni. rewrite Hdi in Hni. destruct b; [split; [apply Hd; left; set_solver|set_solver]|].
    split; [apply Hd; by right|done]. }
  split.
  - intros c Hni Hnh. destruct (Hdes c Hni) as [-> Hni2]. rewrite Hc. apply Hs; [done|].
    unfold in_hand in *. by rewrite Hwr in Hnh.
  - intros sub unsub Hw2. rewrite Hwr in Hw2. destruct (Hh sub unsub Hw2) as [H1 H2]. rewrite Hc.
    split; intros c Hin; [destruct (H1 c Hin) as [? H3]|destruct (H2 c Hin) as [? H3]];
      (split; [done|]); intros Hni; destruct (Hdes c Hni) as [-> ?]; auto.
  - unfold reconciling. rewrite Hdi, Hop, Hwr. destruct b; [by left|exact Hw].
  - rewrite Hop, Hwk, Hwr. destruct b; [by left|exact Hk].
Qed.

Lemma reconcile_same s s' :
  reconcile_inv s → t_writer s' = t_writer s → t_current s' = t_current s →
  (∀ c, desired s' c = desired s c) → t_dirty s' = t_dirty s → t_ops s' = t_ops s →
  t_wakeup s' = t_wakeup s → reconcile_inv s'.
Proof. intros. apply (reconcile_change s s' "" false); auto. Qed.

Lemma desired_set_list s queue channel l c :
  desired (set_list s queue channel (Some l)) c
  = bool_decide (c = channel) || desired s c.
Proof.
  unfold desired. destruct queue; simpl; destruct (decide (c = channel)) as [->|Hne];
    rewrite ?lookup_insert_eq, ?(lookup_insert_ne _ channel c) by done.
  - rewrite (bool_decide_eq_true_2 (is_Some (Some l))), (bool_decide_eq_true_2 (channel = channel)) by done.
    by rewrite orb_true_r.
  - by rewrite (bool_decide_eq_false_2 (c = channel)).
  - by rewrite (bool_decide_eq_true_2 (is_Some (Some l))), (bool_decide_eq_true_2 (channel = channel)) by done.
  - by rewrite (bool_decide_eq_false_2 (c = channel)).
Qed.

Lemma desired_unset_list s queue channel c : c ≠ channel →
  desired (set_list s queue channel None) c = desired s c.
Proof. intros. unfold desired. destruct queue; simpl; by rewrite lookup_delete_ne. Qed.

Lemma desired_listed s queue channel l : lists s queue !! channel = Some l → desired s channel = true.
Proof.
  unfold desired, lists. destruct queue; intros ->; [rewrite orb_comm|];
    by rewrite bool_decide_eq_true_2.
Qed.

Lemma subscribe_reconcile s channel size queue :
  reconcile_inv s → reconcile_inv (subscribe s channel size queue).
Proof.
  intros Hs. unfold subscribe. set (s0 := set_all s _).
  assert (reconcile_inv s0) as Hs0 by (by apply (reconcile_same s)).
  destruct (lists s0 queue !! channel) as [l|] eqn:Hl.
  - apply (reconcile_same s0); try (by destruct queue). intros c. rewrite desired_set_list.
    case_bool_decide as Hc; [|done]. subst c. by rewrite (desired_listed _ _ _ _ Hl).
  - apply (reconcile_change s0 _ channel true); try (by destruct queue).
    intros c [Hc|?]; [|done].
    change (desired (reconcileSubscriptions ?s1 channel) c) with (desired s1 c).
    rewrite desired_set_list. by rewrite bool_decide_eq_false_2.
Qed.

Lemma unsubscribe_reconcile s channel queue o :
  reconcile_inv s → reconcile_inv (unsubscribe s channel queue o).
Proof.
  intros Hs. unfold unsubscribe. destruct (lists s queue !! channel) as [l|] eqn:Hl; [|done].
  destruct (decide _); [|done]. destruct (remove o (sl_subs l)) as [|o' rest].
  - apply (reconcile_change s _ channel true); try (by destruct queue).
    intros c [Hc|?]; [|done].
    change (desired (reconcileSubscriptions ?s1 channel) c) with (desired s1 c). by apply desired_unset_list.
  - apply (reconcile_same s); try (by destruct queue). intros c. rewrite desired_set_list.
    case_bool_decide as Hc; [|done]. subst c. by rewrite (desired_listed _ _ _ _ Hl).
Qed.

(** A writer with nothing in hand. *)
Lemma reconcile_light s s' :
  reconcile_inv s → in_hand s = ∅ → (∀ sub unsub, t_writer s' ≠ WCall sub unsub) →
  (∀ sub unsub e1 e2, t_writer s' ≠ WNote sub unsub e1 e2) →
  (∀ c, desired s' c = desired s c) → t_current s' = t_current s → t_dirty s' = t_dirty s →
  (t_dirty s' ≠ ∅ → t_ops s' ≠ 0%nat ∨ reconciling s' = true) →
  (t_ops s' ≠ 0%nat → t_wakeup s' = true ∨ t_writer s' ≠ WWait) → reconcile_inv s'.
Proof.
  intros [Hs _ _ _] Hh Hn1 Hn2 Hd Hc Hdi Hw Hk. split; [|intros su un [Heq|(e1 & e2 & Heq)]; [by destruct (Hn1 su un)|by destruct (Hn2 su un e1 e2)]|done|done].
  intros c Hni _. rewrite Hc, Hd. apply Hs; [by rewrite <- Hdi|by rewrite Hh].
Qed.

Lemma writer_reconcile s s' sub unsub :
  reconcile_inv s → writer_step s sub unsub = Next s' → reconcile_inv s'.
Proof.
  intros Hinv Hst. pose proof (ri_work s Hinv) as Hw. pose proof (ri_wakeup s Hinv) as Hk.
  pose proof (ri_sync s Hinv) as Hs. pose proof (ri_hand s Hinv) as Hh.
  unfold writer_step in Hst. unfold in_hand, reconciling in *.
  destruct (t_writer s) as [| | |su un|su un e1 e2] eqn:Hwr; simpl in *.
  - destruct (t_wakeup s); [|done]. injection Hst as <-.
    apply (reconcile_light s); try done; [unfold in_hand; by rewrite Hwr|by right].
  - destruct (t_ops s) as [|n] eqn:Hops; injection Hst as <-; apply (reconcile_light s); try done;
      try (unfold in_hand; by rewrite Hwr); simpl; rewrite ?Hops; try done; by right.
  - destruct (mu_free s); [|done]. destruct (decide (t_dirty s = ∅)) as [Hd|Hd]; injection Hst as <-.
    + apply (reconcile_light s); try done; [unfold in_hand; by rewrite Hwr|by right].
    + split; simpl; [|clear Hs Hw Hk|by right|by right].
      * unfold in_hand. simpl. intros c _ Hn. rewrite not_elem_of_union, !elem_of_filter in Hn.
        change (desired (MkTransport _ _ _ _ _ _ _ _ _ _ _) c) with (desired s c).
        destruct (decide (c ∈ t_dirty s)) as [Hin|Hin]; [|by apply Hs; [|set_solver]].
        destruct Hn as [Hn1 Hn2].
        destruct (desired s c) eqn:Hdc, (decide (c ∈ t_current s)) as [Hcu|Hcu]; [done| | |done].
        -- by destruct Hn1.
        -- by destruct Hn2.
      * intros su un Heq.
        assert (su = filter (λ c, (c ∉ t_current s) ∧ desired s c = true) (t_dirty s) ∧
          un = filter (λ c, c ∈ t_current s ∧ desired s c = false) (t_dirty s)) as [-> ->].
        { destruct Heq as [[= <- <-]|(? & ? & ?)]; done. }
        split; intros c Hc; apply elem_of_filter in Hc as [[? ?] ?]; done.
  - injection Hst as <-. destruct (Hh su un) as [H1 H2]; [by left|]. split; simpl; [exact Hs| |by right|by right].
    intros su' un' Heq. assert (su' = su ∧ un' = un) as [-> ->]; [|done].
    destruct Heq as [?|(? & ? & [= <- <-])]; done.
  - destruct (mu_free s); [|done]. injection Hst as <-.
    destruct (Hh su un) as [H1 H2]; [right; by exists e1, e2|].
    split; simpl; [|intros ? ? [?|(? & ? & ?)]; done|by right|by right].
    unfold in_hand. simpl. intros c Hc _.
    change (desired (MkTransport _ _ _ _ _ _ _ _ _ _ _) c) with (desired s c).
    assert (Hcd : c ∉ t_dirty s)
      by (destruct e1, e2; simpl in Hc; rewrite ?not_elem_of_union in Hc; tauto).
    destruct (decide (c ∈ su)) as [Hsu|Hsu]; [|destruct (decide (c ∈ un)) as [Hun|Hun]].
    + destruct (H1 c Hsu) as [Hnc Hd]. rewrite (Hd Hcd).
      assert (c ∉ un) by (intros Hun; by destruct (H2 c Hun)).
      destruct e1, e2; simpl in *; rewrite ?elem_of_difference, ?elem_of_union;
        rewrite ?not_elem_of_union in Hc; tauto.
    + destruct (H2 c Hun) as [Hcur Hd]. rewrite (Hd Hcd).
      destruct e1, e2; simpl in *; rewrite ?elem_of_difference, ?elem_of_union;
        rewrite ?not_elem_of_union in Hc; split; done || tauto.
    + rewrite <- (Hs c Hcd) by (rewrite not_elem_of_union; tauto).
      destruct e1, e2; simpl in *; rewrite ?elem_of_difference, ?elem_of_union; tauto.
Qed.

Lemma write_core s s' o msg drop : write s o msg drop = Next s' →
  ∃ all, s' = set_all s all.
Proof.
  unfold write. destruct (t_all s !! o) as [u|]; [|done]. destruct drop.
  - destruct (sub_canceled u); [|done]. intros [= <-]. exists (t_all s). by destruct s.
  - destruct (chan_send _ _) as [c| |]; [|done..]. intros [= <-]. by eexists.
Qed.

Lemma step_reconcile l s s' : reconcile_inv s → step l s = Next s' → reconcile_inv s'.
Proof.
  intros Hinv. destruct l as [channel size queue|o|n|channel msg|drop|sub unsub|o|o]; simpl.
  - destruct (mu_free s); [|done]. intros [= <-]. by apply subscribe_reconcile.
  - destruct (t_all s !! o); [|done]. destruct (forallb _ _); [|done]. intros [= <-]. by apply (reconcile_same s).
  - destruct (t_closers s !! n) as [[o|o|o]|]; [| |done|done]; simpl.
    + destruct (t_all s !! o) as [u|]; [|done]. destruct (mu_free s); [|done]. intros [= <-].
      eapply (reconcile_same (unsubscribe s (sub_channel u) (sub_queue u) o)); try done. by apply unsubscribe_reconcile.
    + destruct (t_all s !! o) as [u|]; [|done]. destruct (chan_close _); [|done]. intros [= <-].
      by apply (reconcile_same s).
  - destruct (mu_free s); [|done]. intros [= <-]. by apply (reconcile_same s).
  - unfold reader_step. destruct (t_reader s) as [|channel [|o rest] msg|o msg]; [done| | |].
    + destruct (t_queues s !! channel) as [l|] eqn:Hl.
      * unfold dispatchQueue. destruct (sl_subs l !! _) as [o|]; [|done]. simpl. intros [= <-].
        apply (reconcile_same s); try done. intros c.
        change (desired (set_reader ?s1 ?r) c) with (desired s1 c). rewrite desired_set_list.
        case_bool_decide as Hc; [|done]. subst c. by rewrite (desired_listed s true channel l Hl).
      * intros [= <-]. by apply (reconcile_same s).
    + destruct (write s o msg drop) as [s1| |] eqn:Hw; [|done..]. apply write_core in Hw as [all ->].
      intros [= <-]. by apply (reconcile_same s).
    + destruct (write s o msg drop) as [s1| |] eqn:Hw; [|done..]. apply write_core in Hw as [all ->].
      intros [= <-]. by apply (reconcile_same s).
  - by apply writer_reconcile.
  - destruct (t_all s !! o); [|done]. destruct (chan_recv _); [| |done]; intros [= <-]; by apply (reconcile_same s).
  - destruct (t_all s !! o); [|done]. intros [= <-]. by apply (reconcile_same s).
Qed.

(** An unsubscription answered with an error was not carried out. *)
Definition honest (l : label) : Prop :=
  match l with LWriter _ unsub => an_err unsub = true → an_applied unsub = false | _ => True end.

Lemma step_broker_same l s s' : (∀ sub unsub, l ≠ LWriter sub unsub) → step l s = Next s' →
  t_writer s' = t_writer s ∧ t_current s' = t_current s ∧ t_broker s' = t_broker s.
Proof.
  intros Hl. destruct l as [channel size queue|o|n|channel msg|drop|sub unsub|o|o]; simpl.
  - destruct (mu_free s); [|done]. intros [= <-]. unfold subscribe. by destruct (lists _ queue !! channel), queue.
  - destruct (t_all s !! o); [|done]. destruct (forallb _ _); [|done]. by intros [= <-].
  - destruct (t_closers s !! n) as [[o|o|o]|]; [| |done|done]; simpl.
    + destruct (t_all s !! o) as [u|]; [|done]. destruct (mu_free s); [|done]. intros [= <-].
      unfold unsubscribe. destruct (lists s _ !! _) as [l|]; [|done]. destruct (decide _); [|done].
      by destruct (remove _ _), (sub_queue u).
    + destruct (t_all s !! o) as [u|]; [|done]. destruct (chan_close _); [|done]. by intros [= <-].
  - destruct (mu_free s); [|done]. by intros [= <-].
  - unfold reader_step. destruct (t_reader s) as [|channel [|o rest] msg|o msg]; [done| | |].
    + destruct (t_queues s !! channel) as [l|] eqn:Hlq; [|by intros [= <-]].
      destruct (dispatchQueue l) as [[o l']|]; [|done]. by intros [= <-].
    + destruct (write s o msg drop) as [s1| |] eqn:Hw; [|done..]. apply write_core in Hw as [all ->]. by intros [= <-].
    + destruct (write s o msg drop) as [s1| |] eqn:Hw; [|done..]. apply write_core in Hw as [all ->]. by intros [= <-].
  - by destruct (Hl sub unsub).
  - destruct (t_all s !! o); [|done]. destruct (chan_recv _); [| |done]; by intros [= <-].
  - destruct (t_all s !! o); [|done]. by intros [= <-].
Qed.

Lemma step_broker l s s' : honest l → reconcile_inv s → broker_inv s → step l s = Next s' → broker_inv s'.
Proof.
  intros Hh Hinv Hb Hs.
  assert ((∀ sub unsub, l ≠ LWriter sub unsub) ∨ ∃ sub unsub, l = LWriter sub unsub) as [Hl|(sub & unsub & ->)].
  { destruct l; try (by left). right. by eexists _, _. }
  { destruct (step_broker_same l s s' Hl Hs) as (Hw & Hc & Hbr). unfold broker_inv in *. by rewrite Hw, Hc, Hbr. }
  simpl in Hs, Hh. unfold writer_step in Hs. unfold broker_inv in Hb.
  destruct (t_writer s) as [| | |su un|su un e1 e2] eqn:Hwr.
  - destruct (t_wakeup s); [|done]. by injection Hs as <-.
  - destruct (t_ops s); by injection Hs as <-.
  - destruct (mu_free s); [|done]. destruct (decide _); by injection Hs as <-.
  - injection Hs as <-. unfold broker_inv. cbn [t_writer t_current t_broker].
    set (e1 := an_err sub && _). set (e2 := an_err unsub && _).
    assert (He2 : e2 = true → an_applied unsub = false).
    { subst e2. intros [He _]%andb_prop. by apply Hh. }
    split.
    + intros c Hc Hor. specialize (Hb c Hc).
      assert (c ∈ if negb e1 || an_applied sub then su ∪ t_broker s else t_broker s)
        by (destruct (negb e1 || an_applied sub); [apply elem_of_union; by right|done]).
      destruct e2; simpl; [by rewrite He2|]. destruct Hor as [Hn|?]; [|done]. apply elem_of_difference. done.
    + intros -> c Hc. simpl.
      assert (c ∉ un) as Hn.
      { destruct (ri_hand s Hinv su un) as [Hd1 Hd2]; [by left|]. intros Hun.
        destruct (Hd1 c Hc) as [Hno _]. by destruct (Hd2 c Hun). }
      destruct (negb e2 || an_applied unsub); [apply elem_of_difference; split; [|done]|]; apply elem_of_union; by left.
  - destruct (mu_free s); [|done]. injection Hs as <-. unfold broker_inv. cbn [t_writer t_current t_broker].
    destruct Hb as [Hb1 Hb2]. intros c Hc. destruct e1, e2; simpl in Hc.
    + apply Hb1; [done|by right].
    + apply elem_of_difference in Hc as [? ?]. apply Hb1; [done|by left].
    + apply elem_of_union in Hc as [?|?]; [by apply Hb2|apply Hb1; [done|by right]].
    + apply elem_of_difference in Hc as [Hc Hn]. apply elem_of_union in Hc as [?|?]; [by apply Hb2|apply Hb1; [done|by left]].
Qed.

(** A subscription answered with an error was not carried out. *)
Definition honest_subscribe (l : label) : Prop :=
  match l with LWriter sub _ => an_err sub = true → an_applied sub = false | _ => True end.

(** Redis knows nothing but what the transport takes it to know. *)
Definition broker_only (s : transport) : Prop :=
  match t_writer s with
  | WNote sub unsub e1 e2 => ∀ c, c ∈ t_broker s → (c ∈ t_current s ∨ (e1 = false ∧ c ∈ sub)) ∧ (e2 = false → c ∉ unsub)
  | _ => ∀ c, c ∈ t_broker s → c ∈ t_current s
  end.

Lemma step_broker_only l s s' : honest_subscribe l → broker_only s → step l s = Next s' → broker_only s'.
Proof.
  intros Hh Hb Hs.
  assert ((∀ sub unsub, l ≠ LWriter sub unsub) ∨ ∃ sub unsub, l = LWriter sub unsub) as [Hl|(sub & unsub & ->)].
  { destruct l; try (by left). right. by eexists _, _. }
  { destruct (step_broker_same l s s' Hl Hs) as (Hw & Hc & Hbr). unfold broker_only in *. by rewrite Hw, Hc, Hbr. }
  simpl in Hs, Hh. unfold writer_step in Hs. unfold broker_only in Hb. destruct (t_writer s) as [| | |su un|su un e1 e2] eqn:Hwr.
  - destruct (t_wakeup s); [|done]. by injection Hs as <-.
  - destruct (t_ops s); by injection Hs as <-.
  - destruct (mu_free s); [|done]. destruct (decide _); by injection Hs as <-.
  - injection Hs as <-. unfold broker_only. cbn [t_writer t_current t_broker].
    set (e1 := an_err sub && _). set (e2 := an_err unsub && _). intros c Hc. split.
    + assert (Hc' : c ∈ if negb e1 || an_applied sub then su ∪ t_broker s else t_broker s).
      { destruct (negb e2 || an_applied unsub); [by apply elem_of_difference in Hc as [? _]|done]. }
      destruct e1 eqn:He1; simpl in Hc'; [|apply elem_of_union in Hc' as [?|?]; [by right|left; auto]].
      apply andb_prop in He1 as [He1 _]. rewrite Hh in Hc' by done. left. auto.
    + intros He2. rewrite He2 in Hc. by apply elem_of_difference in Hc as [_ ?].
  - destruct (mu_free s); [|done]. injection Hs as <-. unfold broker_only. cbn [t_writer t_current t_broker].
    intros c Hc. destruct (Hb c Hc) as [Hor Hn]. destruct e1, e2; set_solver.
Qed.

(** ** The subscriptions *)

(** The slice of a list. *)
Definition slice (s : transport) (queue : bool) (channel : string) : option (list nat) :=
  sl_subs <$> lists s queue !! channel.

(** The subscription is in a list. *)
Definition listed (s : transport) (o : nat) : Prop :=
  ∃ queue channel subs, slice s queue channel = Some subs ∧ o ∈ subs.

Definition is_open (s : transport) (o : nat) : Prop :=
  ∃ u, t_all s !! o = Some u ∧ chan_closed (sub_msgChan u) = false.

Definition reader_ok (s : transport) : Prop :=
  match t_reader s with
  | RReceive => True
  | RSubs _ rest _ => ∀ o, o ∈ rest → listed s o
  | RQueue o _ => listed s o
  end.

Definition closer_ok (s : transport) (k : closer) : Prop :=
  match k with
  | CUnsubscribe o => is_open s o
  | CCloseChan o => is_open s o ∧ ¬ listed s o
  | CDone o => ¬ listed s o
  end.

Record bus_inv (s : transport) : Prop := {
  bi_slices queue channel subs : slice s queue channel = Some subs → subs ≠ [] ∧ NoDup subs;
  bi_subs queue channel subs o : slice s queue channel = Some subs → o ∈ subs →
    ∃ u, t_all s !! o = Some u ∧ sub_channel u = channel ∧ sub_queue u = queue ∧
      chan_closed (sub_msgChan u) = false;
  bi_reader : reader_ok s;
  bi_closers n k : t_closers s !! n = Some k → closer_ok s k ∧ (closes k < length (t_all s))%nat;
  bi_unique n m k k' : t_closers s !! n = Some k → t_closers s !! m = Some k' → closes k = closes k' → n = m;
  bi_open o u : t_all s !! o = Some u → (∀ n k, t_closers s !! n = Some k → closes k ≠ o) →
    chan_closed (sub_msgChan u) = false
}.

Definition step_ok (o : outcome) : Prop :=
  match o with Next s => bus_inv s | Blocked => True | Panic => False end.

Lemma listed_open s o : bus_inv s → listed s o → is_open s o.
Proof.
  intros Hb (q & ch & subs & Hs & Hin). destruct (bi_subs s Hb q ch subs o Hs Hin) as (u & ? & _ & _ & ?). by exists u.
Qed.

(** Steps that leave the slices and the subscriptions' places as they are. *)
Record same (s s' : transport) : Prop := {
  sa_slice queue channel : slice s' queue channel = slice s queue channel;
  sa_all o u : t_all s !! o = Some u → ∃ u', t_all s' !! o = Some u' ∧
    sub_channel u' = sub_channel u ∧ sub_queue u' = sub_queue u;
  sa_length : length (t_all s') = length (t_all s)
}.

Lemma same_listed s s' o : same s s' → listed s' o ↔ listed s o.
Proof. intros Hs. unfold listed. by setoid_rewrite (sa_slice s s' Hs). Qed.

Lemma redis_same_core s s' : same s s' → t_all s' = t_all s → ∀ o, is_open s o → is_open s' o.
Proof. unfold is_open. by intros _ ->. Qed.

(** Nobody's subscription but those closed by closer [n] is closed, and the others'
    points stay. *)
Lemma same_bus s s' :
  bus_inv s → same s s' → t_closers s' = t_closers s → (∀ o, is_open s o → is_open s' o) →
  reader_ok s' → bus_inv s'.
Proof.
  intros Hb Hs Hk Ho Hr. split.
  - intros q ch subs. rewrite (sa_slice s s' Hs). apply (bi_slices s Hb).
  - intros q ch subs o Hsl Hin. rewrite (sa_slice s s' Hs) in Hsl.
    destruct (bi_subs s Hb q ch subs o Hsl Hin) as (u & Hu & Hc & Hq & Hcl).
    destruct (sa_all s s' Hs o u Hu) as (u' & Hu' & ? & ?). destruct (Ho o) as (u2 & Hu2 & Hop); [by exists u|].
    exists u'. simplify_eq. split_and!; congruence.
  - done.
  - intros n k. rewrite Hk, (sa_length s s' Hs). intros Hn. destruct (bi_closers s Hb n k Hn) as [Hok ?].
    split; [|done]. destruct k; simpl in *; rewrite ?(same_listed s s') by done; [auto|naive_solver|done].
  - rewrite Hk. apply (bi_unique s Hb).
  - intros o u' Hu' Hno. rewrite Hk in Hno.
    assert (o < length (t_all s))%nat as [u Hu]%lookup_lt_is_Some.
    { rewrite <- (sa_length s s' Hs). by eapply lookup_lt_Some. }
    destruct (Ho o) as (u2 & Hu2 & ?); [|by simplify_eq]. exists u. split; [done|]. by apply (bi_open s Hb o).
Qed.

Lemma redis_same_refl s : same s s.
Proof. split; [done|intros o u ->; by exists u|done]. Qed.

Lemma same_update s o u u' : t_all s !! o = Some u → sub_channel u' = sub_channel u →
  sub_queue u' = sub_queue u → same s (set_all s (<[o := u']> (t_all s))).
Proof.
  intros Hu Hc Hq. split; simpl; [done| |by rewrite length_insert].
  intros o2 u2 Hu2. destruct (decide (o2 = o)) as [->|Hne].
  - rewrite list_lookup_insert_eq by (by eapply lookup_lt_Some). simplify_eq. by exists u'.
  - rewrite list_lookup_insert_ne by done. by exists u2.
Qed.

Lemma open_update s o u u' o2 : t_all s !! o = Some u →
  (o2 = o → chan_closed (sub_msgChan u) = false → chan_closed (sub_msgChan u') = false) →
  is_open s o2 → is_open (set_all s (<[o := u']> (t_all s))) o2.
Proof.
  intros Hu Hc (u2 & Hu2 & Hop). unfold is_open. simpl. destruct (decide (o2 = o)) as [->|Hne].
  - rewrite list_lookup_insert_eq by (by eapply lookup_lt_Some). exists u'. simplify_eq. split; [done|by apply Hc].
  - rewrite list_lookup_insert_ne by done. by exists u2.
Qed.

(** *** The read worker *)

Lemma redis_write_ok s o msg drop (k : transport → transport) :
  bus_inv s → listed s o → (∀ s', bus_inv s' → t_reader s' = t_reader s → (∀ o, listed s' o ↔ listed s o) → bus_inv (k s')) →
  step_ok (and_then (write s o msg drop) k).
Proof.
  intros Hb Hl Hk. destruct (listed_open s o Hb Hl) as (u & Hu & Hop). unfold write. rewrite Hu. destruct drop.
  - destruct (sub_canceled u); [|done]. simpl. by apply Hk.
  - unfold chan_send. rewrite Hop. destruct (_ <? _)%nat; [|done]. simpl.
    set (u' := set_msgChan u _). assert (same s (set_all s (<[o := u']> (t_all s)))) as Hs by (by eapply same_update).
    apply Hk; [|done|intros; by apply same_listed]. apply (same_bus s); [done|done|done| |].
    + intros o2. by apply (open_update s o u).
    + pose proof (bi_reader s Hb) as Hr. unfold reader_ok in *. simpl.
      destruct (t_reader s); [done|intros o2 Hin; apply (same_listed s); auto|by apply (same_listed s)].
Qed.

(** Only the reader's point changes. *)
Lemma bus_set_reader s r : bus_inv s → reader_ok (set_reader s r) → bus_inv (set_reader s r).
Proof.
  intros Hb Hr. apply (same_bus s); [done|by destruct (redis_same_refl s); split|done|by intros|done].
Qed.

Lemma lists_set_list s q ch l q' ch' :
  lists (set_list s q ch l) q' !! ch' = if decide (q' = q ∧ ch' = ch) then l else lists s q' !! ch'.
Proof.
  assert (Hm : ∀ m : gmap string redisSubList,
    match l with Some l => <[ch := l]> m | None => delete ch m end !! ch'
    = if decide (ch' = ch) then l else m !! ch').
  { intros m. destruct l as [l|], (decide (ch' = ch)) as [->|Hne].
    - by rewrite lookup_insert_eq.
    - by rewrite lookup_insert_ne.
    - by rewrite lookup_delete_eq.
    - by rewrite lookup_delete_ne. }
  destruct q, q'; simpl; rewrite ?Hm; repeat case_decide; naive_solver.
Qed.

Lemma reader_step_ok s drop : bus_inv s → step_ok (reader_step s drop).
Proof.
  intros Hb. pose proof (bi_reader s Hb) as Hr. unfold reader_ok in Hr. unfold reader_step.
  destruct (t_reader s) as [|channel [|o rest] msg|o msg] eqn:Hrd; [done| | |].
  - destruct (t_queues s !! channel) as [l|] eqn:Hl; [|by apply bus_set_reader].
    destruct (bi_slices s Hb true channel (sl_subs l)) as [Hne _]; [unfold slice; simpl; by rewrite Hl|].
    unfold dispatchQueue. set (next := if (_ <=? _)%nat then _ else _).
    assert (next < length (sl_subs l))%nat as [o Ho]%lookup_lt_is_Some.
    { subst next. assert (0 < length (sl_subs l))%nat by (destruct (sl_subs l); [done|simpl; lia]).
      destruct (Nat.leb_spec (length (sl_subs l)) (sl_next l)); lia. }
    rewrite Ho. simpl. set (s1 := set_list s true channel _).
    assert (same s s1) as Hs.
    { split; [|intros o2 u Hu; by exists u|done]. intros q ch. unfold slice, s1. rewrite lists_set_list.
      destruct (decide _) as [[-> ->]|]; [|done]. simpl. by rewrite Hl. }
    assert (bus_inv s1) as Hb1.
    { apply (same_bus s); [done|done|done|by intros|]. unfold reader_ok, s1. simpl. rewrite Hrd. by intros ? ?%elem_of_nil. }
    apply bus_set_reader; [done|]. change (listed s1 o). apply (same_listed s); [done|].
    exists true, channel, (sl_subs l). split; [unfold slice; simpl; by rewrite Hl|by eapply list_elem_of_lookup_2].
  - apply redis_write_ok; [done|apply Hr; left|]. intros s' Hb' _ Hls. apply bus_set_reader; [done|]. simpl.
    intros o2 Hin. apply Hls, Hr. by right.
  - apply redis_write_ok; [done|done|]. intros s' Hb' _ Hls. by apply bus_set_reader.
Qed.

(** *** Subscribing and closing *)

Lemma slice_subscribe s channel size queue q ch :
  slice (subscribe s channel size queue) q ch
  = if decide (q = queue ∧ ch = channel) then Some (default [] (slice s queue channel) ++ [length (t_all s)])
    else slice s q ch.
Proof.
  unfold subscribe, slice. set (s0 := set_all s _). change (lists s queue) with (lists s0 queue).
  destruct (lists s0 queue !! channel) as [l|].
  - rewrite lists_set_list. by destruct (decide _).
  - change (lists (reconcileSubscriptions ?s1 channel)) with (lists s1). rewrite lists_set_list.
    by destruct (decide _).
Qed.

Lemma subscribe_others s channel size queue :
  t_all (subscribe s channel size queue) = t_all s ++ [MkSubscription channel queue false (make_chan size)] ∧
  t_closers (subscribe s channel size queue) = t_closers s ∧ t_reader (subscribe s channel size queue) = t_reader s.
Proof. unfold subscribe. by destruct (lists _ queue !! channel), queue. Qed.

Lemma redis_subscribe_ok s channel size queue :
  mu_free s = true → bus_inv s → bus_inv (subscribe s channel size queue).
Proof.
  intros Hmu Hb. destruct (subscribe_others s channel size queue) as (Ha & Hk & Hr).
  pose proof (slice_subscribe s channel size queue) as Hsl. set (s' := subscribe s channel size queue) in *.
  set (o := length (t_all s)) in *.
  assert (Hnew : ∀ q ch subs, slice s q ch = Some subs → o ∉ subs).
  { intros q ch subs Hs Hin. destruct (bi_subs s Hb q ch subs o Hs Hin) as (u & Hu & _).
    apply lookup_lt_Some in Hu. unfold o in Hu. lia. }
  assert (Hdef : ∀ x, x ∈ default [] (slice s queue channel) → ∃ subs, slice s queue channel = Some subs ∧ x ∈ subs).
  { intros x Hx. destruct (slice s queue channel) as [subs|]; [by exists subs|by apply elem_of_nil in Hx]. }
  assert (Hold : ∀ o2 u2, t_all s !! o2 = Some u2 → t_all s' !! o2 = Some u2).
  { intros o2 u2 H2. rewrite Ha. by apply lookup_app_l_Some. }
  assert (Hlisted : ∀ o2, listed s' o2 → o2 = o ∨ listed s o2).
  { intros o2 (q & ch & subs & Hs & Hin). rewrite Hsl in Hs. destruct (decide _) as [[-> ->]|]; [|right; by exists q, ch, subs].
    injection Hs as <-. apply elem_of_app in Hin as [(subs & ? & ?)%Hdef|Hin%list_elem_of_singleton]; [right|by left].
    by exists queue, channel, subs. }
  split.
  - intros q ch subs Hs. rewrite Hsl in Hs. destruct (decide _) as [[-> ->]|]; [|by eapply bi_slices].
    injection Hs as <-. split; [by destruct (default [] _)|]. apply NoDup_app. split_and!.
    + destruct (slice s queue channel) as [subs|] eqn:Hs; [by eapply bi_slices|constructor].
    + intros x (subs & Hs & Hin)%Hdef ->%list_elem_of_singleton. by apply (Hnew queue channel subs).
    + apply NoDup_singleton.
  - intros q ch subs o2 Hs Hin. rewrite Hsl in Hs. destruct (decide _) as [[-> ->]|].
    + injection Hs as <-. apply elem_of_app in Hin as [(subs & Hs & Hin)%Hdef|Hin%list_elem_of_singleton].
      * destruct (bi_subs s Hb queue channel subs o2 Hs Hin) as (u & ? & ?). exists u. auto.
      * subst o2. exists (MkSubscription channel queue false (make_chan size)). rewrite Ha.
        split_and!; [|done..]. rewrite lookup_app_r by done. unfold o. by rewrite Nat.sub_diag.
    + destruct (bi_subs s Hb q ch subs o2 Hs Hin) as (u & ? & ?). exists u. auto.
  - unfold reader_ok. rewrite Hr. unfold mu_free in Hmu. by destruct (t_reader s).
  - intros n k. rewrite Hk, Ha, length_app. intros Hn. destruct (bi_closers s Hb n k Hn) as [Hok Hlt].
    split; [|lia]. assert (¬ listed s (closes k) → ¬ listed s' (closes k)) as Hnl.
    { intros Hn1 [Heq|?]%Hlisted; [|done]. unfold o in Heq. lia. }
    assert (is_open s (closes k) → is_open s' (closes k)) as Hop by (intros (u & ? & ?); exists u; auto).
    destruct k; simpl in *; [auto|destruct Hok; auto|auto].
  - rewrite Hk. apply (bi_unique s Hb).
  - intros o2 u2 Hu2 Hno. rewrite Hk in Hno. rewrite Ha in Hu2.
    apply lookup_app_Some in Hu2 as [Hu2|[_ Hz]]; [by eapply (bi_open s Hb)|].
    by apply list_lookup_singleton_Some in Hz as [_ <-].
Qed.

Lemma elem_of_remove o subs x : NoDup subs → x ∈ remove o subs ↔ x ∈ subs ∧ x ≠ o.
Proof.
  induction subs as [|y subs IH]; intros Hnd; simpl; [split; [intros ?%elem_of_nil|intros [?%elem_of_nil _]]; done|].
  apply NoDup_cons in Hnd as [Hy Hnd]. destruct (decide (y = o)) as [->|Hne].
  - rewrite elem_of_cons. split; [|naive_solver]. intros Hx. split; [by right|]. by intros ->.
  - rewrite !elem_of_cons, IH by done. naive_solver.
Qed.

Lemma NoDup_remove o subs : NoDup subs → NoDup (remove o subs).
Proof.
  induction subs as [|y subs IH]; intros Hnd; simpl; [done|]. pose proof Hnd as Hnd0.
  apply NoDup_cons in Hnd as [Hy Hnd]. destruct (decide (y = o)) as [->|Hne]; [done|].
  apply NoDup_cons. split; [|auto]. rewrite elem_of_remove by done. naive_solver.
Qed.

Lemma slice_unsubscribe s channel queue o q ch :
  slice (unsubscribe s channel queue o) q ch
  = if decide (q = queue ∧ ch = channel) then
      match slice s queue channel with
      | Some subs => if decide (o ∈ subs) then match remove o subs with [] => None | subs => Some subs end
                     else Some subs
      | None => None
      end
    else slice s q ch.
Proof.
  unfold unsubscribe, slice. destruct (lists s queue !! channel) as [l|] eqn:Hl; simpl.
  - destruct (decide (o ∈ sl_subs l)).
    + destruct (remove o (sl_subs l)).
      * change (lists (reconcileSubscriptions ?s1 channel)) with (lists s1). rewrite lists_set_list.
        by destruct (decide _).
      * rewrite lists_set_list. by destruct (decide _).
    + destruct (decide _) as [[-> ->]|]; [by rewrite Hl|done].
  - destruct (decide _) as [[-> ->]|]; [by rewrite Hl|done].
Qed.

Lemma unsubscribe_others s channel queue o :
  t_all (unsubscribe s channel queue o) = t_all s ∧ t_closers (unsubscribe s channel queue o) = t_closers s ∧
  t_reader (unsubscribe s channel queue o) = t_reader s.
Proof.
  unfold unsubscribe. destruct (lists s queue !! channel); [|done]. destruct (decide _); [|done].
  by destruct (remove _ _), queue.
Qed.

(** A subscription that leaves its list is in none; the others are where they were. *)
Lemma listed_unsubscribe s o u :
  bus_inv s → t_all s !! o = Some u →
  ∀ o2, listed (unsubscribe s (sub_channel u) (sub_queue u) o) o2 ↔ listed s o2 ∧ o2 ≠ o.
Proof.
  intros Hb Hu o2. unfold listed. setoid_rewrite slice_unsubscribe. split.
  - intros (q & ch & subs & Hs & Hin). destruct (decide _) as [[-> ->]|Hne].
    + destruct (slice s (sub_queue u) (sub_channel u)) as [subs0|] eqn:Hs0; [|done].
      destruct (bi_slices s Hb _ _ _ Hs0) as [_ Hnd]. destruct (decide (o ∈ subs0)) as [Ho|Ho].
      * assert (o2 ∈ remove o subs0) as Hin2 by (destruct (remove o subs0); [done|by injection Hs as <-]).
        apply elem_of_remove in Hin2 as [? ?]; [|done]. split; [|done]. by eexists _, _, subs0.
      * injection Hs as <-. split; [by eexists _, _, subs0|]. by intros ->.
    + split; [by exists q, ch, subs|]. intros ->. destruct (bi_subs s Hb q ch subs o Hs Hin) as (u2 & Hu2 & <- & <- & _).
      apply Hne. by simplify_eq.
  - intros [(q & ch & subs & Hs & Hin) Hne]. exists q, ch.
    destruct (decide (q = sub_queue u ∧ ch = sub_channel u)) as [[-> ->]|]; [|by exists subs].
    rewrite Hs. destruct (bi_slices s Hb _ _ _ Hs) as [_ Hnd].
    destruct (decide (o ∈ subs)); [|by exists subs].
    assert (o2 ∈ remove o subs) as Hin2 by (by apply elem_of_remove).
    destruct (remove o subs) as [|y rest]; [by apply elem_of_nil in Hin2|by exists (y :: rest)].
Qed.

Lemma unsubscribe_ok s n o u :
  mu_free s = true → bus_inv s → t_closers s !! n = Some (CUnsubscribe o) → t_all s !! o = Some u →
  bus_inv (set_closers (unsubscribe s (sub_channel u) (sub_queue u) o) (<[n := CCloseChan o]> (t_closers s))).
Proof.
  intros Hmu Hb Hn Hu. destruct (unsubscribe_others s (sub_channel u) (sub_queue u) o) as (Ha & Hk & Hr).
  pose proof (listed_unsubscribe s o u Hb Hu) as Hls.
  pose proof (slice_unsubscribe s (sub_channel u) (sub_queue u) o) as Hsl.
  set (s1 := unsubscribe s (sub_channel u) (sub_queue u) o) in *. set (s' := set_closers s1 _).
  change (slice s1) with (slice s') in Hsl. change (listed s1) with (listed s') in Hls.
  assert (Hop : ∀ o2, is_open s' o2 ↔ is_open s o2) by (intros; unfold is_open; simpl; by rewrite Ha).
  pose proof (lookup_lt_Some _ _ _ Hn) as Hlt.
  assert (Hth : ∀ m k, t_closers s' !! m = Some k → (m = n ∧ k = CCloseChan o) ∨ (m ≠ n ∧ t_closers s !! m = Some k))
    by (intros; by apply list_lookup_insert_cases).
  split.
  - intros q ch subs Hs. rewrite Hsl in Hs. destruct (decide _) as [[-> ->]|]; [|by eapply bi_slices].
    destruct (slice s (sub_queue u) (sub_channel u)) as [subs0|] eqn:Hs0; [|done].
    destruct (bi_slices s Hb _ _ _ Hs0) as [Hne Hnd]. destruct (decide _); [|by injection Hs as <-].
    pose proof (NoDup_remove o subs0 Hnd) as Hnd2. destruct (remove o subs0); [done|]. by injection Hs as <-.
  - intros q ch subs o2 Hs Hin. simpl. rewrite Ha.
    assert (∃ subs0, slice s q ch = Some subs0 ∧ o2 ∈ subs0) as (subs0 & Hs0 & Hin0); [|by eapply (bi_subs s Hb)].
    rewrite Hsl in Hs. destruct (decide _) as [[-> ->]|]; [|by exists subs].
    destruct (slice s (sub_queue u) (sub_channel u)) as [subs0|] eqn:Hs0; [|done]. exists subs0. split; [done|].
    destruct (bi_slices s Hb _ _ _ Hs0) as [_ Hnd]. destruct (decide _); [|by injection Hs as <-].
    assert (o2 ∈ remove o subs0) as Hin2 by (destruct (remove o subs0); [done|by injection Hs as <-]).
    by apply elem_of_remove in Hin2 as [? _].
  - unfold reader_ok. simpl. rewrite Hr. unfold mu_free in Hmu. by destruct (t_reader s).
  - intros m k [[-> ->]|[Hne Hm]]%Hth; simpl; rewrite Ha.
    + split; [|by eapply lookup_lt_Some]. split.
      * apply Hop. by destruct (bi_closers s Hb n _ Hn).
      * by intros [_ ?]%Hls.
    + destruct (bi_closers s Hb m k Hm) as [Hok ?]. split; [|done].
      destruct k; simpl in *; [by apply Hop|destruct Hok as [? ?]; split; [by apply Hop|]|];
        by intros [? _]%Hls.
  - intros m1 m2 k1 k2 [[-> ->]|[Hne1 Hm1]]%Hth [[-> ->]|[Hne2 Hm2]]%Hth Heq; [done| | |by eapply (bi_unique s Hb)].
    + by apply (bi_unique s Hb n m2 (CUnsubscribe o) k2).
    + by apply (bi_unique s Hb m1 n k1 (CUnsubscribe o)).
  - intros o2 u2 Hu2 Hno. simpl in Hu2. rewrite Ha in Hu2. apply (bi_open s Hb o2 u2 Hu2). intros m k Hm.
    destruct (decide (m = n)) as [->|Hne].
    + rewrite Hn in Hm. injection Hm as <-. apply (Hno n (CCloseChan o)). simpl. by rewrite list_lookup_insert_eq.
    + apply (Hno m). simpl. by rewrite list_lookup_insert_ne.
Qed.

(** A step that changes one subscription, leaves it open if it was, and its list alone. *)
Lemma update_ok s o u u' :
  bus_inv s → t_all s !! o = Some u → sub_channel u' = sub_channel u → sub_queue u' = sub_queue u →
  chan_closed (sub_msgChan u') = chan_closed (sub_msgChan u) → bus_inv (set_all s (<[o := u']> (t_all s))).
Proof.
  intros Hb Hu Hc Hq Hcl. assert (same s (set_all s (<[o := u']> (t_all s)))) as Hs by (by eapply same_update).
  apply (same_bus s); [done|done|done| |].
  - intros o2. apply (open_update s o u); [done|]. intros _ ?. congruence.
  - pose proof (bi_reader s Hb) as Hr. unfold reader_ok in *. simpl.
    destruct (t_reader s); [done|intros o2 Hin; apply (same_listed s); auto|by apply (same_listed s)].
Qed.

Lemma redis_close_chan_ok s n o u :
  bus_inv s → t_closers s !! n = Some (CCloseChan o) → t_all s !! o = Some u →
  bus_inv (set_closers (set_all s (<[o := set_msgChan u (Chan (chan_cap (sub_msgChan u)) (chan_buf (sub_msgChan u)) true)]> (t_all s)))
             (<[n := CDone o]> (t_closers s))).
Proof.
  intros Hb Hn Hu. set (u' := set_msgChan u _). set (s1 := set_all s (<[o := u']> (t_all s))).
  set (s' := set_closers s1 _). destruct (bi_closers s Hb n _ Hn) as [[_ Hno] _]. simpl in Hno.
  assert (Hs : same s s1) by (by eapply same_update).
  assert (Hls : ∀ o2, listed s' o2 ↔ listed s o2) by (intros o2; by apply (same_listed s s1)).
  assert (Hnth : ∀ o2, o2 ≠ o → t_all s' !! o2 = t_all s !! o2).
  { intros o2 Hne. unfold s', s1. simpl. by apply list_lookup_insert_ne. }
  assert (Hop : ∀ o2, o2 ≠ o → is_open s' o2 ↔ is_open s o2) by (intros o2 Hne; unfold is_open; by rewrite Hnth).
  assert (Hth : ∀ m k, t_closers s' !! m = Some k → (m = n ∧ k = CDone o) ∨ (m ≠ n ∧ t_closers s !! m = Some k))
    by (intros; by apply list_lookup_insert_cases).
  assert (Hother : ∀ m k, m ≠ n → t_closers s !! m = Some k → closes k ≠ o).
  { intros m k Hne Hm Heq. apply Hne. by apply (bi_unique s Hb m n k (CCloseChan o)). }
  split.
  - intros q ch subs. apply (bi_slices s Hb).
  - intros q ch subs o2 Hsl Hin. assert (o2 ≠ o) by (intros ->; apply Hno; by exists q, ch, subs).
    rewrite Hnth by done. by eapply (bi_subs s Hb).
  - pose proof (bi_reader s Hb) as Hr. unfold reader_ok in *. simpl.
    destruct (t_reader s); [done|intros o2 Hin; apply Hls; auto|by apply Hls].
  - intros m k Hm. change (length (t_all s')) with (length (<[o := u']> (t_all s))). rewrite length_insert.
    apply Hth in Hm as [[-> ->]|[Hne Hm]].
    + split; [by intros ?%Hls|by eapply lookup_lt_Some].
    + pose proof (Hother m k Hne Hm) as Hko. destruct (bi_closers s Hb m k Hm) as [Hok ?]. split; [|done].
      destruct k; simpl in *; [by apply Hop|destruct Hok; split; [by apply Hop|]|]; by intros ?%Hls.
  - intros m1 m2 k1 k2 Hm1 Hm2. apply Hth in Hm1 as [[-> ->]|[Hne1 Hm1]]; apply Hth in Hm2 as [[-> ->]|[Hne2 Hm2]]; simpl.
    + done.
    + intros Heq. by destruct (Hother m2 k2 Hne2 Hm2).
    + intros Heq. by destruct (Hother m1 k1 Hne1 Hm1).
    + by apply (bi_unique s Hb).
  - intros o2 u2 Hu2 Hnc. assert (o2 ≠ o).
    { intros ->. apply (Hnc n (CDone o)); [|done]. simpl. rewrite list_lookup_insert_eq; [done|by eapply lookup_lt_Some]. }
    rewrite Hnth in Hu2 by done. apply (bi_open s Hb o2 u2 Hu2). intros m k Hm.
    destruct (decide (m = n)) as [->|Hne]; [rewrite Hn in Hm; injection Hm as <-; by apply not_eq_sym|].
    apply (Hnc m). simpl. by rewrite list_lookup_insert_ne.
Qed.

Lemma start_close_ok s o :
  bus_inv s → is_open s o → (∀ n k, t_closers s !! n = Some k → closes k ≠ o) →
  bus_inv (set_closers s (t_closers s ++ [CUnsubscribe o])).
Proof.
  intros Hb Ho Hno. destruct Hb as [B1 B2 B3 B4 B5 B6]. split; [done|done|done| | |]; simpl.
  - intros n k [Hn|[_ Hn]]%lookup_app_Some; [by apply (B4 n)|].
    apply list_lookup_singleton_Some in Hn as [_ <-]. split; [done|]. destruct Ho as (u & Hu & _).
    by eapply lookup_lt_Some.
  - intros n m k k' Hn Hm. apply lookup_app_Some in Hn as [Hn|[Hln Hn]], Hm as [Hm|[Hlm Hm]];
      rewrite ?list_lookup_singleton_Some in Hn; rewrite ?list_lookup_singleton_Some in Hm.
    + by apply B5.
    + destruct Hm as [_ <-]. simpl. intros Heq. by destruct (Hno n k).
    + destruct Hn as [_ <-]. simpl. intros Heq. by destruct (Hno m k').
    + intros _. lia.
  - intros o2 u2 Hu2 Hnc. apply (B6 o2 u2 Hu2). intros n k Hn. apply (Hnc n). by apply lookup_app_l_Some.
Qed.

Lemma step_bus l s : bus_inv s → step_ok (step l s).
Proof.
  intros Hb. destruct l as [channel size queue|o|n|channel msg|drop|sub unsub|o|o]; simpl.
  - destruct (mu_free s) eqn:Hmu; [|done]. by apply redis_subscribe_ok.
  - destruct (t_all s !! o) as [u|] eqn:Hu; [|done]. destruct (forallb _ _) eqn:Hf; [|done]. simpl.
    assert (Hno : ∀ n k, t_closers s !! n = Some k → closes k ≠ o).
    { intros n k Hn. apply (forallb_lookup _ _ n k Hf) in Hn. by apply negb_true_iff, Nat.eqb_neq in Hn. }
    set (s1 := set_all s _). assert (bus_inv s1) as Hb1 by (by eapply update_ok).
    apply (start_close_ok s1 o); [done| |done]. exists (set_canceled u). unfold s1. simpl.
    rewrite list_lookup_insert_eq by (by eapply lookup_lt_Some). split; [done|]. by apply (bi_open s Hb o u).
  - destruct (t_closers s !! n) as [k|] eqn:Hn; [|done]. destruct (bi_closers s Hb n k Hn) as [Hok Hlt].
    destruct k as [o|o|o]; simpl in *; [| |done].
    + destruct Hok as (u & Hu & Hop). rewrite Hu. destruct (mu_free s) eqn:Hmu; [|done]. simpl.
      destruct (unsubscribe_others s (sub_channel u) (sub_queue u) o) as (_ & -> & _). by apply unsubscribe_ok.
    + destruct Hok as [(u & Hu & Hop) _]. rewrite Hu. unfold chan_close. rewrite Hop. simpl. by eapply redis_close_chan_ok.
  - destruct (mu_free s) eqn:Hmu; [|done]. simpl. apply bus_set_reader; [done|]. unfold reader_ok. simpl.
    intros o Ho. destruct (t_subs s !! channel) as [l|] eqn:Hl; [|by apply elem_of_nil in Ho].
    exists false, channel, (sl_subs l). split; [|done]. unfold slice. simpl. by rewrite Hl.
  - by apply reader_step_ok.
  - unfold writer_step. assert (Hany : ∀ w ops wakeup dirty current broker, bus_inv (MkTransport (t_subs s) (t_queues s)
      (t_all s) (t_reader s) (t_closers s) wakeup ops w dirty current broker)).
    { intros. by destruct Hb; split. }
    destruct (t_writer s); simpl; repeat case_match; simpl; auto; try done; apply Hany.
  - destruct (t_all s !! o) as [u|] eqn:Hu; [|done]. unfold chan_recv.
    destruct (chan_buf _); [by destruct (chan_closed _)|]. simpl. by eapply update_ok.
  - destruct (t_all s !! o) as [u|] eqn:Hu; [|done]. simpl. by eapply update_ok.
Qed.

(** ** Runs *)

Lemma run_app_redis ls1 ls2 s : run (ls1 ++ ls2) s = run ls1 s ≫= run ls2.
Proof. revert s. induction ls1 as [|l ls1 IH]; intros s; [done|]. simpl. by destruct (step l s). Qed.

Lemma New_bus : bus_inv New.
Proof.
  assert (Hsl : ∀ q ch, slice New q ch = None) by (by intros []).
  split; try done; intros *; by rewrite Hsl.
Qed.

Lemma New_reconcile : reconcile_inv New.
Proof.
  split; simpl; [|intros su un [?|(? & ? & ?)]; done|done|done].
  intros c _ _. split; [by intros ?%elem_of_empty|done].
Qed.

Lemma run_bus ls s s' : bus_inv s → run ls s = Some s' → bus_inv s'.
Proof.
  revert s. induction ls as [|l ls IH]; intros s Hb; simpl; [by intros [= <-]|].
  pose proof (step_bus l s Hb) as Hs. destruct (step l s); [|done..]. by apply IH.
Qed.

Lemma run_reconcile ls s s' : reconcile_inv s → run ls s = Some s' → reconcile_inv s'.
Proof.
  revert s. induction ls as [|l ls IH]; intros s Hb; simpl; [by intros [= <-]|].
  destruct (step l s) as [s1| |] eqn:Hs; [|done..]. apply IH. by eapply step_reconcile.
Qed.

Lemma run_broker ls s s' : Forall honest ls → reconcile_inv s → broker_inv s → run ls s = Some s' → broker_inv s'.
Proof.
  revert s. induction ls as [|l ls IH]; intros s Hh Hr Hb; simpl; [by intros [= <-]|].
  apply Forall_cons in Hh as [Hl Hh]. destruct (step l s) as [s1| |] eqn:Hs; [|done..].
  apply IH; [done|by eapply step_reconcile|by eapply step_broker].
Qed.

Lemma run_broker_only ls s s' : Forall honest_subscribe ls → broker_only s → run ls s = Some s' → broker_only s'.
Proof.
  revert s. induction ls as [|l ls IH]; intros s Hh Hb; simpl; [by intros [= <-]|].
  apply Forall_cons in Hh as [Hl Hh]. destruct (step l s) as [s1| |] eqn:Hs; [|done..].
  apply IH; [done|by eapply step_broker_only].
Qed.

(** The write worker waits and nothing is to wake it. *)
Definition settled (s : transport) : bool :=
  match t_writer s with WWait => negb (t_wakeup s) | _ => false end.

Lemma settled_sync s : reconcile_inv s → settled s = true → ∀ c, c ∈ t_current s ↔ desired s c = true.
Proof.
  intros Hr. unfold settled. destruct (t_writer s) eqn:Hw; [|done..]. intros Hk%negb_true_iff.
  assert (t_dirty s = ∅) as Hd.
  { destruct (decide (t_dirty s = ∅)) as [|Hne]; [done|].
    destruct (ri_work s Hr Hne) as [Ho|Ho]; [|unfold reconciling in Ho; by rewrite Hw in Ho].
    destruct (ri_wakeup s Hr Ho) as [?|?]; congruence. }
  intros c. apply (ri_sync s Hr); [by rewrite Hd|unfold in_hand; by rewrite Hw].
Qed.

Lemma settled_broker s : reconcile_inv s → broker_inv s → settled s = true →
  ∀ c, desired s c = true → c ∈ t_broker s.
Proof.
  intros Hr Hb Hs c Hd. pose proof (settled_sync s Hr Hs c) as [_ Hc]. unfold broker_inv in Hb.
  unfold settled in Hs. destruct (t_writer s); [|done..]. auto.
Qed.

(** *** The write worker gets there *)

Definition answered : label := LWriter (MkAnswer false true) (MkAnswer false true).

(** How many steps the write worker is from waiting, when redis answers. *)
Definition writer_cost (s : transport) : nat :=
  let dirty := if decide (t_dirty s = ∅) then 0%nat else 3%nat in
  (10 * t_ops s + (if t_wakeup s then 4 else 0) +
   match t_writer s with
   | WWait => 0
   | WDrain => 1
   | WTest => 2 + dirty
   | WCall _ _ => 4 + dirty
   | WNote _ _ e1 e2 => 3 + (if e1 || e2 then 3 else dirty)
   end)%nat.

(** What the write worker finds stays: the bus's subscriptions and the lock. *)
Definition undisturbed (s s' : transport) : Prop :=
  t_subs s' = t_subs s ∧ t_queues s' = t_queues s ∧ t_reader s' = t_reader s.

Lemma writer_advances s : mu_free s = true → settled s = false →
  ∃ s', step answered s = Next s' ∧ undisturbed s s' ∧ (writer_cost s' < writer_cost s)%nat.
Proof.
  intros Hmu Hs. unfold settled in Hs. unfold step, answered, writer_step, writer_cost.
  destruct (t_writer s) as [| | |su un|su un e1 e2].
  - destruct (t_wakeup s); [|done]. eexists. split_and!; [done|done|simpl; lia].
  - destruct (t_ops s) as [|n] eqn:Hops; eexists; (split_and!; [done|done|]);
      cbn [t_ops t_wakeup t_writer t_dirty set_writer]; rewrite ?Hops; repeat case_decide; lia.
  - rewrite Hmu. destruct (decide (t_dirty s = ∅)); eexists; (split_and!; [done|done|]); simpl; [lia|].
    rewrite decide_True by done. lia.
  - eexists. split_and!; [done|done|simpl; lia].
  - rewrite Hmu. eexists. split_and!; [done|done|]. cbn [t_ops t_wakeup t_writer t_dirty].
    case_decide; destruct e1, e2; simpl; try lia; case_decide; lia || done.
Qed.

Lemma writer_settles n s : (writer_cost s ≤ n)%nat → mu_free s = true →
  ∃ m s', (m ≤ n)%nat ∧ run (replicate m answered) s = Some s' ∧ settled s' = true ∧ undisturbed s s'.
Proof.
  revert s. induction n as [|n IH]; intros s Hc Hmu; (destruct (settled s) eqn:Hs;
    [exists 0%nat, s; split_and!; [lia|done..]|]);
    destruct (writer_advances s Hmu Hs) as (s1 & Hst & (U1 & U2 & U3) & Hlt); [lia|].
  destruct (IH s1) as (m & s' & Hm & Hr & Hse & (V1 & V2 & V3)); [lia|unfold mu_free; by rewrite U3|].
  exists (S m), s'. split_and!; [lia| |done|split_and!; congruence].
  change (replicate (S m) answered) with (answered :: replicate m answered). simpl run.
  change (writer_step s _ _) with (step answered s). by rewrite Hst.
Qed.

Lemma undisturbed_desired s s' c : undisturbed s s' → desired s' c = desired s c.
Proof. intros (H1 & H2 & _). unfold desired. by rewrite H1, H2. Qed.

(** ** Properties *)

(** Whatever subscriptions, closes, messages and answers of redis come in whatever
    order, no goroutine of the transport panics: the read worker and a queue's cursor
    never index outside a list, no message is sent on a closed channel and none is closed
    twice, although subscriptions come and go while messages are dispatched. *)
Theorem redis_never_panics ls s l : run ls New = Some s → step l s ≠ Panic.
Proof. intros Hr Hp. pose proof (step_bus l s (run_bus ls New s New_bus Hr)) as Hs. by rewrite Hp in Hs. Qed.

(** C20: whatever happened before, once redis answers without errors and the bus's
    subscriptions rest, the write worker comes to wait after boundedly many steps.  Then
    the transport takes redis to be subscribed to the channels the bus has subscriptions
    for and to no others.  Redis is subscribed to all of these, if it never carried out an
    unsubscription that it answered with an error ([honest]; see [redis_deaf_subscriber]);
    and to no others, if it never carried out a subscription that it answered with one
    ([honest_subscribe]; see [redis_stray_subscription]). *)
Theorem redis_settles ls s :
  run ls New = Some s → mu_free s = true →
  ∃ n s', (n ≤ writer_cost s)%nat ∧ run (replicate n answered) s = Some s' ∧ settled s' = true ∧
    (∀ c, c ∈ t_current s' ↔ desired s c = true) ∧
    (Forall honest ls → ∀ c, desired s c = true → c ∈ t_broker s') ∧
    (Forall honest_subscribe ls → ∀ c, c ∈ t_broker s' → desired s c = true).
Proof.
  intros Hr Hmu. destruct (writer_settles _ s (le_n _) Hmu) as (n & s' & Hle & Hrun & Hse & Hu).
  pose proof (run_reconcile ls New s New_reconcile Hr) as Hri.
  pose proof (run_reconcile _ s s' Hri Hrun) as Hri'.
  exists n, s'. split_and!; [done..| | |].
  - intros c. rewrite <- (undisturbed_desired s s' c Hu). by apply settled_sync.
  - intros Hh c. rewrite <- (undisturbed_desired s s' c Hu). apply settled_broker; [done| |done].
    apply (run_broker (replicate n answered) s); [by apply Forall_replicate|done| |done].
    by apply (run_broker ls New s Hh New_reconcile ltac:(by intros ?)).
  - intros Hh c Hc. rewrite <- (undisturbed_desired s s' c Hu). apply (settled_sync s' Hri' Hse).
    assert (broker_only s') as Hb.
    { apply (run_broker_only (replicate n answered) s); [by apply Forall_replicate| |done].
      by apply (run_broker_only ls New s Hh ltac:(by intros ?)). }
    unfold broker_only in Hb. unfold settled in Hse. destruct (t_writer s'); [|done..]. auto.
Qed.

Definition mixed_run : list label :=
  [LSubscribe "c" 1 false; LSubscribe "c" 1 true; LMessage "c" []; LReader false; LClose 0; LReader false;
   LReader false; LCloser 0].

Lemma redis_never_panics_witness : ∃ s, run mixed_run New = Some s ∧ step (LCloser 0) s ≠ Panic.
Proof.
  assert (is_Some (run mixed_run New)) as [s Hs] by (vm_compute; by eexists).
  exists s. split; [exact Hs|]. exact (redis_never_panics mixed_run s (LCloser 0) Hs).
Defined.

(** A subscription redis refuses at first. *)
Definition refused_run : list label :=
  let refused := LWriter (MkAnswer true false) (MkAnswer true false) in
  LSubscribe "c" 1 false :: replicate 4 refused.

Lemma redis_settles_witness : ∃ s, run refused_run New = Some s ∧
  ∃ n s', (n ≤ writer_cost s)%nat ∧ run (replicate n answered) s = Some s' ∧ settled s' = true ∧
    ∀ c, c ∈ t_broker s' ↔ desired s c = true.
Proof.
  assert (from_option mu_free false (run refused_run New) = true) as Hmu by (vm_compute; reflexivity).
  destruct (run refused_run New) as [s|] eqn:Hs; [|discriminate Hmu]. exists s. split; [reflexivity|].
  destruct (redis_settles refused_run s Hs Hmu) as (n & s' & Hle & Hrun & Hse & _ & Hall & Honly). exists n, s'. split_and!; [done..|].
  intros c. split; [apply Honly|apply Hall]; repeat constructor.
Defined.

(** An unsubscription that redis carries out and answers with an error, and a
    subscription to the channel while the transport waits to retry. *)
Definition deaf_run : list label :=
  [LSubscribe "c" 1 false] ++ replicate 7 answered ++ [LClose 0; LCloser 0] ++ replicate 3 answered ++
  [LWriter (MkAnswer false true) (MkAnswer true true); LSubscribe "c" 1 false] ++ replicate 10 answered.

(** The write worker waits, the bus has a subscription for ["c"], and redis is not
    subscribed to it: [honest] cannot be dropped from [redis_settles]. *)
Theorem redis_deaf_subscriber :
  (λ s, (settled s, desired s "c", bool_decide ("c" ∈ t_current s), bool_decide ("c" ∈ t_broker s))) <$>
  run deaf_run New = Some (true, true, true, false).
Proof. vm_compute. reflexivity. Qed.

(** A subscription that redis carries out and answers with an error, and the end of it
    while the transport waits to retry. *)
Definition stray_run : list label :=
  [LSubscribe "c" 1 false] ++ replicate 3 answered ++ [LWriter (MkAnswer true true) (MkAnswer false true); LClose 0; LCloser 0] ++
  replicate 10 answered.

(** The write worker waits, the bus has no subscription for ["c"], and redis is subscribed
    to it: [honest_subscribe] cannot be dropped from [redis_settles]. *)
Theorem redis_stray_subscription :
  (λ s, (settled s, desired s "c", bool_decide ("c" ∈ t_current s), bool_decide ("c" ∈ t_broker s))) <$>
  run stray_run New = Some (true, false, false, true).
Proof. vm_compute. reflexivity. Qed.
