(* ===== verification/RedisPublish.v ===== *)
(** * RedisPublish.v: publishing to redis and reading from it
    ([src/pkg/bus/redisbus/redisbus.go])

    The publish queues with their workers as interleaved steps, the read worker's pauses
    while redis fails, and [redisSubscription.Read] with the lock redis keeps among the
    processes that share a queue.  What redis does with a pipeline is part of a step's
    label; the hash of a channel (xxh3) and of a payload (sha256, in base64) are
    parameters. *)
From S2P Require Import Prelude Bus RedisBus.

(** ** Publish queues *)

Record redisPublishMessage : Type := MkMessage { pm_channel : string; pm_payload : bytes }.

(** The worker of a queue: waiting for [wakeup], about to take the messages, or
    executing a pipeline with them. *)
Inductive publisher : Type :=
| QWait
| QTake
| QExec (messages : list redisPublishMessage).

(** With what was enqueued since the start, and what redis published. *)
Record redisPublishQueue : Type := MkQueue {
  pq_messages : list redisPublishMessage;
  pq_wakeup : bool;
  pq_worker : publisher;
  pq_enqueued : list redisPublishMessage;
  pq_published : list redisPublishMessage
}.

Definition newRedisPublishQueue : redisPublishQueue := MkQueue [] false QWait [] [].

Definition Enqueue (q : redisPublishQueue) (m : redisPublishMessage) : redisPublishQueue :=
  MkQueue (pq_messages q ++ [m]) true (pq_worker q) (pq_enqueued q ++ [m]) (pq_published q).

(** The commands of a pipeline that redis carried out. *)
Fixpoint carried (applied : nat → bool) (messages : list redisPublishMessage) : list redisPublishMessage :=
  match messages with
  | [] => []
  | m :: messages => (if applied 0%nat then [m] else []) ++ carried (λ i, applied (S i)) messages
  end.

(** [worker]; the error of [Exec] is logged and the messages are gone all the same. *)
Definition worker (q : redisPublishQueue) (applied : nat → bool) : option redisPublishQueue :=
  match pq_worker q with
  | QWait => if pq_wakeup q then Some (MkQueue (pq_messages q) false QTake (pq_enqueued q) (pq_published q)) else None
  | QTake => Some (MkQueue [] (pq_wakeup q) (QExec (pq_messages q)) (pq_enqueued q) (pq_published q))
  | QExec messages =>
      Some (MkQueue (pq_messages q) (pq_wakeup q) QWait (pq_enqueued q) (pq_published q ++ carried applied messages))
  end.

Definition publishBuckets : nat := 17.

Definition publishQueues : Type := nat → redisPublishQueue.

Definition newPublishQueues : publishQueues := λ _, newRedisPublishQueue.

Definition set_queue (qs : publishQueues) (i : nat) (q : redisPublishQueue) : publishQueues :=
  λ j, if decide (j = i) then q else qs j.

Section publish.
Context (HashString : string → N).

Definition bucket (channel : string) : nat := N.to_nat (HashString channel mod N.of_nat publishBuckets).

Definition Publish (qs : publishQueues) (channel : Channel) (b : bytes) : publishQueues :=
  let i := bucket (ch_Legacy channel) in
  set_queue qs i (Enqueue (qs i) (MkMessage (ch_Legacy channel) b)).

(** A publication, or a step of the worker of a queue. *)
Inductive plabel : Type :=
| PPublish (channel : Channel) (b : bytes)
| PWorker (i : nat) (applied : nat → bool).

Definition pstep (l : plabel) (qs : publishQueues) : option publishQueues :=
  match l with
  | PPublish channel b => Some (Publish qs channel b)
  | PWorker i applied =>
      if (i <? publishBuckets)%nat then set_queue qs i <$> worker (qs i) applied else None
  end.

Fixpoint prun (ls : list plabel) (qs : publishQueues) : option publishQueues :=
  match ls with
  | [] => Some qs
  | l :: ls => qs ← pstep l qs; prun ls qs
  end.

(** What was published on a channel, in order. *)
Definition on (channel : string) (ms : list redisPublishMessage) : list bytes :=
  pm_payload <$> filter (λ m, pm_channel m = channel) ms.

Definition asked (ls : list plabel) : list redisPublishMessage :=
  omap (λ l, match l with PPublish channel b => Some (MkMessage (ch_Legacy channel) b) | _ => None end) ls.

(** Every pipeline is carried out whole. *)
Definition carried_out (l : plabel) : Prop := match l with PWorker _ applied => ∀ i, applied i = true | _ => True end.

(** What the worker of a queue still has to publish. *)
Definition pending (q : redisPublishQueue) : list redisPublishMessage :=
  match pq_worker q with QExec messages => messages ++ pq_messages q | _ => pq_messages q end.

Record queue_inv (q : redisPublishQueue) : Prop := {
  qi_taken : ∃ taken, pq_enqueued q = taken ++ pending q ∧ pq_published q `sublist_of` taken;
  qi_wakeup : pq_messages q ≠ [] → pq_wakeup q = true ∨ pq_worker q = QTake
}.

Definition whole (q : redisPublishQueue) : Prop := pq_published q ++ pending q = pq_enqueued q.

Lemma carried_sublist applied messages : carried applied messages `sublist_of` messages.
Proof.
  revert applied. induction messages as [|m messages IH]; intros applied; [done|]. simpl.
  destruct (applied 0%nat); simpl; by constructor.
Qed.

Lemma carried_whole applied messages : (∀ i, applied i = true) → carried applied messages = messages.
Proof.
  revert applied. induction messages as [|m messages IH]; intros applied Ha; [done|]. simpl. rewrite Ha. simpl.
  by rewrite IH.
Qed.

Lemma Enqueue_inv q m : queue_inv q → queue_inv (Enqueue q m).
Proof.
  intros [(taken & He & Hs) Hw]. split; simpl; [|by left]. exists taken. split; [|done].
  unfold pending in *. simpl. rewrite He. by destruct (pq_worker q); rewrite <- ?(assoc_L (++)).
Qed.

Lemma worker_inv q applied q' : queue_inv q → worker q applied = Some q' → queue_inv q'.
Proof.
  intros [(taken & He & Hs) Hw]. unfold worker, pending in *. destruct (pq_worker q) as [| |messages] eqn:Hwr.
  - destruct (pq_wakeup q); [|done]. intros [= <-]. split; simpl; [by exists taken|by right].
  - intros [= <-]. split; simpl; [|done]. exists taken. unfold pending. simpl. by rewrite app_nil_r.
  - intros [= <-]. split; simpl.
    + exists (taken ++ messages). unfold pending. simpl. rewrite He, (assoc_L (++)). split; [done|].
      apply sublist_app; [done|apply carried_sublist].
    + intros Hne. by destruct (Hw Hne); [left|].
Qed.

Lemma Enqueue_whole q m : whole q → whole (Enqueue q m).
Proof.
  unfold whole, pending. simpl. intros <-. by destruct (pq_worker q); rewrite <- ?(assoc_L (++)).
Qed.

Lemma worker_whole q applied q' : (∀ i, applied i = true) → whole q → worker q applied = Some q' → whole q'.
Proof.
  intros Ha. unfold whole, worker, pending. intros Hq. destruct (pq_worker q) as [| |messages].
  - destruct (pq_wakeup q); [|done]. by intros [= <-].
  - intros [= <-]. simpl. by rewrite app_nil_r.
  - intros [= <-]. simpl. rewrite carried_whole by done. by rewrite <- (assoc_L (++)).
Qed.

(** *** All the queues *)

(** Each queue has, in order, what was published on the channels of its bucket. *)
Record queues_inv (ls : list plabel) (qs : publishQueues) : Prop := {
  qs_inv i : queue_inv (qs i);
  qs_asked i : pq_enqueued (qs i) = filter (λ m, bucket (pm_channel m) = i) (asked ls)
}.

Lemma asked_app ls1 ls2 : asked (ls1 ++ ls2) = asked ls1 ++ asked ls2.
Proof. unfold asked. by rewrite omap_app. Qed.

Lemma pstep_inv ls l qs qs' : queues_inv ls qs → pstep l qs = Some qs' → queues_inv (ls ++ [l]) qs'.
Proof.
  intros [Hq Ha]. destruct l as [channel b|i applied]; cbn [pstep].
  - intros [= <-]. unfold Publish, set_queue. split; intros j.
    + case_decide as Hj; [by apply Enqueue_inv|apply Hq].
    + rewrite asked_app, filter_app. simpl. rewrite filter_cons, filter_nil. simpl.
      destruct (decide (j = bucket (ch_Legacy channel))) as [->|Hne].
      * rewrite decide_True by done. simpl. by rewrite Ha.
      * rewrite decide_False by done. by rewrite Ha, app_nil_r.
  - destruct (i <? publishBuckets)%nat; [|done]. destruct (worker (qs i) applied) as [q|] eqn:Hw; [|done].
    intros [= <-]. unfold set_queue. split; intros j.
    + case_decide as Hj; [|apply Hq]. eapply worker_inv; [apply (Hq i)|done].
    + rewrite asked_app, app_nil_r, <- Ha. case_decide as Hj; [subst j|done]. unfold worker in Hw.
      destruct (pq_worker (qs i)); [destruct (pq_wakeup (qs i)); [|done]|..]; by injection Hw as <-.
Qed.

Lemma prun_inv ls0 ls qs qs' : queues_inv ls0 qs → prun ls qs = Some qs' → queues_inv (ls0 ++ ls) qs'.
Proof.
  revert ls0 qs. induction ls as [|l ls IH]; intros ls0 qs Hi; cbn [prun].
  - intros [= <-]. by rewrite app_nil_r.
  - destruct (pstep l qs) as [qs1|] eqn:Hs; [|done]. cbn. intros Hr.
    rewrite (cons_middle l ls0 ls), (assoc_L (++)). by apply (IH _ qs1); [eapply pstep_inv|].
Qed.

Lemma new_inv : queues_inv [] newPublishQueues.
Proof. split; [|done]. intros i. split; [by exists []|done]. Qed.

Lemma prun_whole ls qs qs' : Forall carried_out ls → (∀ i, whole (qs i)) → prun ls qs = Some qs' → ∀ i, whole (qs' i).
Proof.
  revert qs. induction ls as [|l ls IH]; intros qs Hc Hw; cbn [prun]; [by intros [= <-]|].
  apply Forall_cons in Hc as [Hl Hc]. destruct (pstep l qs) as [qs1|] eqn:Hs; [|done]. cbn. apply IH; [done|].
  intros j. destruct l as [channel b|i applied]; cbn [pstep] in Hs.
  - injection Hs as <-. unfold Publish, set_queue. case_decide; [by apply Enqueue_whole|done].
  - destruct (i <? publishBuckets)%nat; [|done]. destruct (worker (qs i) applied) as [q|] eqn:Hq; [|done].
    injection Hs as <-. unfold set_queue. case_decide; [|done]. by eapply worker_whole.
Qed.

(** A channel's messages are those of its bucket. *)
Lemma on_bucket channel ms : on channel (filter (λ m, bucket (pm_channel m) = bucket channel) ms) = on channel ms.
Proof.
  unfold on. f_equal. induction ms as [|m ms IH]; [done|]. rewrite !filter_cons.
  destruct (decide (pm_channel m = channel)) as [<-|Hne].
  - rewrite decide_True by done. rewrite filter_cons, decide_True by done. by rewrite IH.
  - destruct (decide (bucket _ = _)); [rewrite filter_cons, decide_False by done|]; done.
Qed.

Lemma on_sublist channel ms ms' : ms `sublist_of` ms' → on channel ms `sublist_of` on channel ms'.
Proof.
  intros Hs. unfold on. apply fmap_sublist.
  induction Hs as [|m ms1 ms2 Hs IH|m ms1 ms2 Hs IH]; [done| |]; rewrite ?filter_cons; case_decide; by constructor || done.
Qed.

(** Whatever publishers and workers do in whatever order, what redis gets on a
    channel is, in the order of publication, a part of what was published there, each
    message at most once; if it carries out every pipeline and the workers wait without
    a wakeup, it is all of it: no message stays behind in a queue whose worker sleeps. *)
Theorem redis_publish_fifo ls qs channel :
  prun ls newPublishQueues = Some qs →
  on channel (pq_published (qs (bucket channel))) `sublist_of` on channel (asked ls) ∧
  (Forall carried_out ls → pq_worker (qs (bucket channel)) = QWait → pq_wakeup (qs (bucket channel)) = false →
   on channel (pq_published (qs (bucket channel))) = on channel (asked ls)).
Proof.
  intros Hr. destruct (prun_inv [] ls _ qs new_inv Hr) as [Hq Ha]. set (i := bucket channel) in *.
  destruct (Hq i) as [(taken & He & Hs) Hw]. rewrite <- (on_bucket channel (asked ls)), <- Ha. fold i. split.
  - apply on_sublist. rewrite He. by apply sublist_inserts_r.
  - intros Hc Hwait Hwk. pose proof (prun_whole ls newPublishQueues qs Hc (λ _, eq_refl) Hr i) as Hall.
    unfold whole, pending in Hall. rewrite Hwait in Hall. rewrite <- Hall.
    destruct (pq_messages (qs i)) as [|m ms]; [by rewrite app_nil_r|].
    destruct Hw as [?|?]; [done|congruence|congruence].
Qed.
End publish.

Definition two_channels : list plabel :=
  let publish ch b := PPublish (MkChannel ch "" "") (bytes_of b) in
  [publish "a" "1"; PWorker 1 (λ _, true); publish "a" "2"; PWorker 1 (λ _, true); publish "b" "3";
   publish "a" "4"; PWorker 1 (λ _, true); PWorker 1 (λ _, true); PWorker 1 (λ _, true); PWorker 1 (λ _, true)].

Lemma redis_publish_fifo_witness : ∃ qs, prun (λ _, 1%N) two_channels newPublishQueues = Some qs ∧
  on "a" (pq_published (qs 1%nat)) = bytes_of <$> ["1"; "2"; "4"] ∧
  on "a" (pq_published (qs 1%nat)) = on "a" (asked two_channels).
Proof.
  assert ((λ qs, (pq_worker (qs 1%nat), pq_wakeup (qs 1%nat))) <$> prun (λ _, 1%N) two_channels newPublishQueues
    = Some (QWait, false)) as Hend by (vm_compute; reflexivity).
  destruct (prun (λ _, 1%N) two_channels newPublishQueues) as [qs|] eqn:Hqs; [|discriminate Hend].
  injection Hend as Hwait Hwk. exists qs. split; [reflexivity|].
  destruct (redis_publish_fifo (λ _, 1%N) two_channels qs "a" Hqs) as [_ Hall].
  change (bucket (λ _ : string, 1%N) "a") with 1%nat in Hall.
  assert (on "a" (pq_published (qs 1%nat)) = on "a" (asked two_channels)) as Heq.
  { apply Hall; [|exact Hwait|exact Hwk]. repeat constructor. }
  split; [rewrite Heq; reflexivity|exact Heq].
Defined.

(** ** Reading *)

(** What [redisSubscription.Read] does with a message it took from [msgChan]: for a
    queue it is returned if redis gives the lock of its hash ([acquire], where an error
    is a refusal), and dropped else. *)
Definition read_message {St} (acquire : bytes → St → bool * St) (queue : bool) (msg : bytes) (st : St) :
    option bytes * St :=
  if queue then
    let '(acquired, st) := acquire msg st in
    (if acquired then Some msg else None, st)
  else (Some msg, st).

(** [Read], of what is in [msgChan]: [None] when it goes on waiting. *)
Fixpoint Read {St} (acquire : bytes → St → bool * St) (queue : bool) (msgs : list bytes) (st : St) :
    option bytes * list bytes * St :=
  match msgs with
  | [] => (None, [], st)
  | msg :: msgs =>
      match read_message acquire queue msg st with
      | (Some msg, st) => (Some msg, msgs, st)
      | (None, st) => Read acquire queue msgs st
      end
  end.

(** [SetNX] as redis does it within [lockExpiration]: the keys that are taken. *)
Definition SetNX (hash : bytes → string) (msg : bytes) (taken : gset string) : bool * gset string :=
  (bool_decide (hash msg ∉ taken), {[hash msg]} ∪ taken).

(** The processes that share a queue, each with the messages in its [msgChan]: the
    schedule says whose [Read] comes to its lock next.  What is read, by whom, and what
    is left. *)
Fixpoint contend (hash : bytes → string) (schedule : list nat) (chans : list (list bytes)) (taken : gset string) :
    list (nat * bytes) * list (list bytes) :=
  match schedule with
  | [] => ([], chans)
  | i :: schedule =>
      match chans !! i with
      | Some (msg :: msgs) =>
          let '(read, taken) := read_message (SetNX hash) true msg taken in
          let '(log, rest) := contend hash schedule (<[i := msgs]> chans) taken in
          (option_list (pair i <$> read) ++ log, rest)
      | _ => contend hash schedule chans taken
      end
  end.

Lemma contend_spec hash schedule chans taken :
  let '(log, rest) := contend hash schedule chans taken in
  NoDup (hash ∘ snd <$> log) ∧
  (∀ i m, (i, m) ∈ log → (hash m ∉ taken) ∧ ∃ msgs, chans !! i = Some msgs ∧ m ∈ msgs) ∧
  (∀ msgs m, msgs ∈ chans → m ∈ msgs →
    hash m ∈ taken ∨ (∃ i m', (i, m') ∈ log ∧ hash m' = hash m) ∨ ∃ msgs', msgs' ∈ rest ∧ m ∈ msgs').
Proof.
  revert chans taken. induction schedule as [|i schedule IH]; intros chans taken; cbn [contend].
  { split_and!; [constructor|by intros ? ? ?%elem_of_nil|]. intros msgs m ? ?. right. right. by exists msgs. }
  destruct (chans !! i) as [[|msg msgs]|] eqn:Hi; [apply IH| |apply IH].
  unfold read_message, SetNX. cbn [fst snd]. specialize (IH (<[i:=msgs]> chans) ({[hash msg]} ∪ taken)).
  destruct (contend _ _ _ _) as [log rest]. destruct IH as (H1 & H2 & H3).
  assert (Hlog : ∀ j m, (j, m) ∈ log → (hash m ∉ taken) ∧ hash m ≠ hash msg ∧ ∃ ms, chans !! j = Some ms ∧ m ∈ ms).
  { intros j m Hin. destruct (H2 j m Hin) as [Hn (ms & Hms & Hm)]. rewrite not_elem_of_union, not_elem_of_singleton in Hn.
    destruct Hn. split_and!; [done..|]. apply list_lookup_insert_cases in Hms as [[-> ->]|[_ ?]]; [|by exists ms].
    exists (msg :: msgs). split; [done|by right]. }
  assert (Hall : ∀ ms m, ms ∈ chans → m ∈ ms → m = msg ∨ hash m ∈ {[hash msg]} ∪ taken ∨
    (∃ j m', (j, m') ∈ log ∧ hash m' = hash m) ∨ ∃ ms', ms' ∈ rest ∧ m ∈ ms').
  { intros ms m [j Hj]%list_elem_of_lookup_1 Hm. destruct (decide (j = i)) as [->|Hne].
    - rewrite Hi in Hj. injection Hj as <-. apply elem_of_cons in Hm as [?|Hm]; [by left|right].
      apply (H3 msgs); [|done]. apply (list_elem_of_lookup_2 _ i). by rewrite list_lookup_insert_eq by (by eapply lookup_lt_Some).
    - right. apply (H3 ms); [|done]. apply (list_elem_of_lookup_2 _ j). by rewrite list_lookup_insert_ne. }
  case_bool_decide as Hmsg; simpl.
  - split_and!.
    + apply NoDup_cons. split; [|done]. intros ([j m] & Heq & Hin)%list_elem_of_fmap. simpl in Heq.
      by destruct (Hlog j m Hin) as (_ & ? & _).
    + intros j m [[= -> ->]|Hin]%elem_of_cons; [split; [done|]; eexists; split; [done|by left]|].
      by destruct (Hlog j m Hin) as (? & _ & ?).
    + intros ms m Hms Hm. assert (∃ j m', (j, m') ∈ (i, msg) :: log ∧ hash m' = hash msg) as Hhere
        by (exists i, msg; split; [by left|done]).
      destruct (Hall ms m Hms Hm) as [->|[[?%elem_of_singleton|?]%elem_of_union|[(j & m' & ? & ?)|?]]]; [auto| |by left| |auto].
      * right. left. destruct Hhere as (j & m' & ? & ?). exists j, m'. split; [done|congruence].
      * right. left. exists j, m'. split; [by right|done].
  - split_and!; [done|intros j m Hin; by destruct (Hlog j m Hin) as (? & _ & ?)|].
    intros ms m Hms Hm.
    destruct (Hall ms m Hms Hm) as [->|[[->%elem_of_singleton|?]%elem_of_union|?]]; auto.
Qed.

(** The processes that share a redis queue read each payload exactly once between
    them, in whatever order their reads come to redis (within [lockExpiration]): none
    is read twice, only what redis delivered is read, and when the processes have taken
    all of their messages none is left unread. *)
Theorem redis_queue_read_once hash schedule chans log rest :
  contend hash schedule chans ∅ = (log, rest) →
  NoDup (hash ∘ snd <$> log) ∧
  (∀ i m, (i, m) ∈ log → ∃ msgs, chans !! i = Some msgs ∧ m ∈ msgs) ∧
  (Forall (λ msgs, msgs = []) rest → ∀ msgs m, msgs ∈ chans → m ∈ msgs →
    ∃ i m', (i, m') ∈ log ∧ hash m' = hash m).
Proof.
  intros Hc. pose proof (contend_spec hash schedule chans ∅) as Hs. rewrite Hc in Hs.
  destruct Hs as (H1 & H2 & H3). split_and!; [done|intros i m Hin; by destruct (H2 i m Hin)|].
  intros Hr msgs m Hms Hm. destruct (H3 msgs m Hms Hm) as [?%elem_of_empty|[?|(ms & Hin & Hmm)]]; [done|done|].
  rewrite Forall_forall in Hr. rewrite (Hr ms Hin) in Hmm. by apply elem_of_nil in Hmm.
Qed.

Lemma redis_queue_read_once_witness :
  let chans := [bytes_of <$> ["x"; "y"]; bytes_of <$> ["x"; "y"]; bytes_of <$> ["y"]] in
  let log := [(1%nat, bytes_of "x"); (2%nat, bytes_of "y")] in
  contend string_of [1; 2; 0; 0; 1]%nat chans ∅ = (log, [[]; []; []]) ∧
  ∀ msgs m, msgs ∈ chans → m ∈ msgs → ∃ i m', (i, m') ∈ log ∧ string_of m' = string_of m.
Proof.
  intros chans log. assert (contend string_of [1; 2; 0; 0; 1]%nat chans ∅ = (log, [[]; []; []])) as Hc by reflexivity.
  split; [exact Hc|]. destruct (redis_queue_read_once string_of _ chans log _ Hc) as (_ & _ & H).
  apply H. repeat constructor.
Defined.

(** An event that happens twice within [lockExpiration] has one payload: the
    subscribers of the queue get one event. *)
Theorem redis_equal_payloads :
  contend string_of [0; 0; 1; 1]%nat [bytes_of <$> ["x"; "x"]; bytes_of <$> ["x"; "x"]] ∅
  = ([(0%nat, bytes_of "x")], [[]; []]).
Proof. reflexivity. Qed.

(** A reader who is not a queue's gets each message. *)
Lemma Read_plain {St} acquire (msgs : list bytes) (st : St) :
  Read acquire false msgs st = match msgs with [] => (None, [], st) | m :: msgs => (Some m, msgs, st) end.
Proof. by destruct msgs. Qed.

(** [Read] of a queue returns the first message it gets the lock for, and drops those
    before. *)
Lemma Read_queue {St} acquire (msgs : list bytes) (st : St) m rest st' :
  Read acquire true msgs st = (Some m, rest, st') →
  ∃ refused, msgs = refused ++ m :: rest.
Proof.
  revert st. induction msgs as [|x msgs IH]; intros st; [done|]. cbn [Read]. unfold read_message.
  destruct (acquire x st) as [[] st1].
  - intros [= <- <- _]. by exists [].
  - intros Hr. destruct (IH st1 Hr) as [refused ->]. by exists (x :: refused).
Qed.

(** ** The read worker's pauses *)

Definition minReadRetryInterval : Z := Millisecond * 100.
Definition maxReadRetryInterval : Z := Second.

(** The pause after this one, while [ReceiveMessage] fails. *)
Definition next_delay (delay : Z) : Z :=
  let delay := int64 (delay * 2) in
  if delay =? 0 then minReadRetryInterval
  else if maxReadRetryInterval <? delay then maxReadRetryInterval
  else delay.

(** [readWorker] after [n] failures in a row. *)
Definition read_delay (n : nat) : Z := Nat.iter n next_delay 0.

Lemma next_delay_range d : 0 <= d <= maxReadRetryInterval → 0 < next_delay d <= maxReadRetryInterval ∧ d <= next_delay d.
Proof.
  unfold next_delay, minReadRetryInterval, maxReadRetryInterval, Millisecond, Second. intros Hd.
  rewrite int64_id by (unfold in_int64; lia).
  destruct (Z.eqb_spec (d * 2) 0); [lia|]. destruct (Z.ltb_spec (1000000000) (d * 2)); lia.
Qed.

(** The first retry is at once; then the pauses double up to [maxReadRetryInterval]. *)
Lemma read_delay_spec n :
  read_delay n = if (n =? 0)%nat then 0 else Z.min maxReadRetryInterval (minReadRetryInterval * 2 ^ (Z.of_nat n - 1)).
Proof.
  induction n as [|n IH]; [done|]. change (read_delay (S n)) with (next_delay (read_delay n)). rewrite IH.
  destruct n as [|n]; [done|]. simpl Nat.eqb. cbv iota.
  replace (Z.of_nat (S (S n)) - 1) with (Z.succ (Z.of_nat (S n) - 1)) by lia.
  rewrite Z.pow_succ_r by lia. set (p := 2 ^ (Z.of_nat (S n) - 1)).
  assert (0 < p) by (unfold p; apply Z.pow_pos_nonneg; lia).
  unfold next_delay, minReadRetryInterval, maxReadRetryInterval, Millisecond, Second.
  rewrite int64_id by (unfold in_int64; lia).
  destruct (Z.eqb_spec (Z.min 1000000000 (1000000 * 100 * p) * 2) 0); [lia|].
  destruct (Z.ltb_spec 1000000000 (Z.min 1000000000 (1000000 * 100 * p) * 2)); lia.
Qed.
