(* ===== verification/NatsBus.v ===== *)
(** * NatsBus.v: the nats bus ([src/pkg/bus/natsbus/natsbus.go])

    Subscriptions to a channel with a local part share one nats subscription, through a
    router; the others have their own.  The state is what the calls, the goroutines that
    close and nats's callbacks share; a step is what one of them does between two points
    where another may come in.

    nats.go is not code of the repository.  Of it the code relies on this: a subscription
    calls its callback for one message at a time, in the order they came, from when it
    was made until [Unsubscribe], which does not wait for a callback under way.  What
    [nc.Subscribe] answers, and what the server delivers, are in the labels of steps.

    A lock held over several steps is the section it is held for: [n_mu] for the
    transport's, [rt_writing] for a router's. *)
From S2P Require Import Prelude Errors Bus.

Section nats.
Context `{GrpcApi} `{!StatusApi} `{!Codec}.

(** ** State *)

(** A [nats.Msg]: its subject, its data, and the header [statusHeader]. *)
Record natsMsg : Type := MkNatsMsg {
  nm_Subject : string;
  nm_Data : bytes;
  nm_Status : string
}.

Definition noRespondersStatus : string := "503".

(** How far the [Close] of a subscription is, which its user calls once: before
    [unsubscribeRouter], in it with the transport's lock, before closing the channel. *)
Inductive closing : Type :=
| KNotCalled
| KUnsubscribe
| KLocked
| KCloseChan
| KReturned.

(** [rs_live]: its user has it.  [rs_read] is what its user has read; [rs_since] how much
    its router had handled when it was opened. *)
Record routerSubscription : Type := MkRouterSub {
  rs_router : nat;
  rs_channel : string;
  rs_canceled : bool;
  rs_msgChan : chan natsMsg;
  rs_close : closing;
  rs_live : bool;
  rs_since : nat;
  rs_read : list natsMsg
}.

(** [rt_writing] is the section of [write] under way: the message, and the subscriptions
    left to write it to.  [rt_log] are the messages handled, [rt_failed] says that nats
    refused the subscription. *)
Record router : Type := MkRouter {
  rt_channel : string;
  rt_queue : bool;
  rt_routes : gmap string (list nat);
  rt_sub : option nat;
  rt_writing : option (natsMsg * list nat);
  rt_log : list natsMsg;
  rt_failed : bool
}.

(** A subscription without a router; [ps_inbox]: it is [SubscribeInbox]'s. *)
Record subscription : Type := MkSub {
  ps_inbox : bool;
  ps_canceled : bool;
  ps_msgChan : chan natsMsg;
  ps_read : list natsMsg
}.

Inductive target : Type :=
| ToRouter (r : nat)
| ToSub (p : nat).

(** A callback: none under way, before the router's lock, in its section, or in the write
    of a subscription without a router. *)
Inductive callback : Type :=
| CbIdle
| CbLock (m : natsMsg) (channel : string)
| CbWriting
| CbWrite (m : natsMsg).

(** A [nats.Subscription]. *)
Record natsSub : Type := MkNatsSub {
  ns_subject : string;
  ns_queue : bool;
  ns_target : target;
  ns_active : bool;
  ns_pending : list natsMsg;
  ns_callback : callback;
  ns_log : list natsMsg
}.

(** A call of [subscribeRouter]: before the lock, with it, calling nats, before the second
    section, or returned, with the subscription or without. *)
Inductive calling : Type :=
| ALock
| ALocked
| ANats (r o : nat)
| AFailed (r : nat)
| AReturned (o : option nat).

Record call : Type := MkCall {
  ca_channel : Channel;
  ca_size : nat;
  ca_queue : bool;
  ca_at : calling
}.

(** The section under the transport's lock that waits for a router's: [r.open], for a
    router found or made, or [r.close]. *)
Inductive section : Type :=
| SOpen (c r : nat) (found : bool)
| SClose (o : nat).

Record transport : Type := MkTransport {
  n_mu : option section;
  n_routers : gmap string nat;
  n_all : list router;
  n_subs : list routerSubscription;
  n_plain : list subscription;
  n_nats : list natsSub;
  n_calls : list call
}.

Definition New : transport := MkTransport None ∅ [] [] [] [] [].

Inductive outcome : Type :=
| Next (x : transport)
| Blocked
| Panic.

Definition set_mu (x : transport) (mu : option section) : transport :=
  MkTransport mu (n_routers x) (n_all x) (n_subs x) (n_plain x) (n_nats x) (n_calls x).
Definition set_routers (x : transport) (m : gmap string nat) : transport :=
  MkTransport (n_mu x) m (n_all x) (n_subs x) (n_plain x) (n_nats x) (n_calls x).
Definition set_all (x : transport) (rs : list router) : transport :=
  MkTransport (n_mu x) (n_routers x) rs (n_subs x) (n_plain x) (n_nats x) (n_calls x).
Definition set_subs (x : transport) (us : list routerSubscription) : transport :=
  MkTransport (n_mu x) (n_routers x) (n_all x) us (n_plain x) (n_nats x) (n_calls x).
Definition set_plain (x : transport) (ps : list subscription) : transport :=
  MkTransport (n_mu x) (n_routers x) (n_all x) (n_subs x) ps (n_nats x) (n_calls x).
Definition set_nats (x : transport) (ks : list natsSub) : transport :=
  MkTransport (n_mu x) (n_routers x) (n_all x) (n_subs x) (n_plain x) ks (n_calls x).
Definition set_calls (x : transport) (cs : list call) : transport :=
  MkTransport (n_mu x) (n_routers x) (n_all x) (n_subs x) (n_plain x) (n_nats x) cs.

Definition call_at (ca : call) (a : calling) : call := MkCall (ca_channel ca) (ca_size ca) (ca_queue ca) a.
Definition with_close (u : routerSubscription) (k : closing) (canceled : bool) : routerSubscription :=
  MkRouterSub (rs_router u) (rs_channel u) canceled (rs_msgChan u) k (rs_live u) (rs_since u) (rs_read u).
Definition with_msgChan (u : routerSubscription) (c : chan natsMsg) (k : closing) (read : list natsMsg) : routerSubscription :=
  MkRouterSub (rs_router u) (rs_channel u) (rs_canceled u) c k (rs_live u) (rs_since u) read.
Definition with_live (u : routerSubscription) : routerSubscription :=
  MkRouterSub (rs_router u) (rs_channel u) (rs_canceled u) (rs_msgChan u) (rs_close u) true (rs_since u) (rs_read u).
Definition with_routes (rt : router) (routes : gmap string (list nat)) : router :=
  MkRouter (rt_channel rt) (rt_queue rt) routes (rt_sub rt) (rt_writing rt) (rt_log rt) (rt_failed rt).
Definition with_sub (rt : router) (sub : option nat) (failed : bool) : router :=
  MkRouter (rt_channel rt) (rt_queue rt) (rt_routes rt) sub (rt_writing rt) (rt_log rt) failed.
Definition with_writing (rt : router) (w : option (natsMsg * list nat)) (log : list natsMsg) : router :=
  MkRouter (rt_channel rt) (rt_queue rt) (rt_routes rt) (rt_sub rt) w log (rt_failed rt).
Definition with_callback (k : natsSub) (pending : list natsMsg) (cb : callback) (log : list natsMsg) : natsSub :=
  MkNatsSub (ns_subject k) (ns_queue k) (ns_target k) (ns_active k) pending cb log.
Definition unsubscribed (k : natsSub) : natsSub :=
  MkNatsSub (ns_subject k) (ns_queue k) (ns_target k) false (ns_pending k) (ns_callback k) (ns_log k).

(** ** [router] *)

Definition open (rt : router) (channel : string) (o : nat) : router :=
  with_routes rt (<[channel := default [] (rt_routes rt !! channel) ++ [o]]> (rt_routes rt)).

(** [slices.Index] and [slices.Delete]. *)
Fixpoint remove (o : nat) (subs : list nat) : list nat :=
  match subs with
  | [] => []
  | o' :: subs => if decide (o' = o) then subs else o' :: remove o subs
  end.

(** [router.close]: the router after it, and whether its last route is gone. *)
Definition close (rt : router) (channel : string) (o : nat) : router * bool :=
  let subs := default [] (rt_routes rt !! channel) in
  if decide (o ∈ subs) then
    match remove o subs with
    | [] =>
        let routes := delete channel (rt_routes rt) in
        (with_routes rt routes, bool_decide (routes = ∅))
    | subs => (with_routes rt (<[channel := subs]> (rt_routes rt)), false)
    end
  else (rt, false).

(** [n.sub.Unsubscribe()]; that of a nil subscription is an error, which is dropped. *)
Definition Unsubscribe (ks : list natsSub) (sub : option nat) : list natsSub :=
  match sub with Some k => alter unsubscribed k ks | None => ks end.

(** ** [subscribeRouter] *)

(** The first section up to [r.open]: the router found or made. *)
Definition find_router (x : transport) (n : nat) (ca : call) : transport :=
  match n_routers x !! ch_Server (ca_channel ca) with
  | Some r =>
      match n_all x !! r with
      | Some rt =>
          if bool_decide (rt_queue rt = ca_queue ca) then
            set_mu (set_calls x (<[n := call_at ca ALocked]> (n_calls x))) (Some (SOpen n r true))
          else set_calls x (<[n := call_at ca (AReturned None)]> (n_calls x))
      | None => x
      end
  | None =>
      let r := length (n_all x) in
      let rt := MkRouter (ch_Server (ca_channel ca)) (ca_queue ca) ∅ None None [] false in
      set_mu (set_calls (set_routers (set_all x (n_all x ++ [rt])) (<[ch_Server (ca_channel ca) := r]> (n_routers x)))
        (<[n := call_at ca ALocked]> (n_calls x))) (Some (SOpen n r false))
  end.

(** [r.open], and the end of the section. *)
Definition open_section (x : transport) (n r : nat) (found : bool) (ca : call) (rt : router) : transport :=
  let o := length (n_subs x) in
  let u := MkRouterSub r (ch_Local (ca_channel ca)) false (make_chan (ca_size ca)) KNotCalled found (length (rt_log rt)) [] in
  let at' := if found then AReturned (Some o) else ANats r o in
  set_mu (set_calls (set_subs (set_all x (<[r := open rt (ch_Local (ca_channel ca)) o]> (n_all x))) (n_subs x ++ [u]))
    (<[n := call_at ca at']> (n_calls x))) None.

(** What [nc.Subscribe] and [nc.QueueSubscribe] answer to a call. *)
Definition nats_answers (x : transport) (n r o : nat) (ca : call) (rt : router) (u : routerSubscription) (fails : bool)
    : transport :=
  if fails then set_calls x (<[n := call_at ca (AFailed r)]> (n_calls x))
  else
    let k := length (n_nats x) in
    set_calls (set_subs (set_nats (set_all x (<[r := with_sub rt (Some k) false]> (n_all x)))
        (n_nats x ++ [MkNatsSub (rt_channel rt) (ca_queue ca) (ToRouter r) true [] CbIdle []]))
        (<[o := with_live u]> (n_subs x)))
      (<[n := call_at ca (AReturned (Some o))]> (n_calls x)).

(** The second section, after a failure. *)
Definition forget_router (x : transport) (n r : nat) (ca : call) (rt : router) : transport :=
  set_calls (set_routers (set_all x (<[r := with_sub rt None true]> (n_all x))) (delete (ch_Server (ca_channel ca)) (n_routers x)))
    (<[n := call_at ca (AReturned None)]> (n_calls x)).

Definition call_step (x : transport) (n : nat) (ca : call) (fails : bool) : outcome :=
  match ca_at ca with
  | ALock => match n_mu x with None => Next (find_router x n ca) | Some _ => Blocked end
  | ANats r o =>
      match n_all x !! r, n_subs x !! o with
      | Some rt, Some u => Next (nats_answers x n r o ca rt u fails)
      | _, _ => Panic
      end
  | AFailed r =>
      match n_mu x, n_all x !! r with
      | None, Some rt => Next (forget_router x n r ca rt)
      | None, None => Panic
      | Some _, _ => Blocked
      end
  | ALocked | AReturned _ => Blocked
  end.

(** [r.close] and the end of [unsubscribeRouter]. *)
Definition close_section (x : transport) (o : nat) (u : routerSubscription) (rt : router) : transport :=
  let '(rt', last) := close rt (rs_channel u) o in
  let x := set_all x (<[rs_router u := rt']> (n_all x)) in
  let x := if last then set_routers (set_nats x (Unsubscribe (n_nats x) (rt_sub rt))) (delete (rt_channel rt) (n_routers x)) else x in
  set_mu (set_subs x (<[o := with_close u KCloseChan (rs_canceled u)]> (n_subs x))) None.

(** The section that holds the transport's lock, when the router's is free. *)
Definition section_step (x : transport) (sec : section) : outcome :=
  match sec with
  | SOpen n r found =>
      match n_calls x !! n, n_all x !! r with
      | Some ca, Some rt => match rt_writing rt with None => Next (open_section x n r found ca rt) | Some _ => Blocked end
      | _, _ => Panic
      end
  | SClose o =>
      match n_subs x !! o with
      | Some u =>
          match n_all x !! rs_router u with
          | Some rt => match rt_writing rt with None => Next (close_section x o u rt) | Some _ => Blocked end
          | None => Panic
          end
      | None => Panic
      end
  end.

(** [routerSubscription.Close], after [cancel] and but for the section. *)
Definition closer_step (x : transport) (o : nat) (u : routerSubscription) : outcome :=
  match rs_close u with
  | KUnsubscribe =>
      match n_mu x with
      | None => Next (set_mu (set_subs x (<[o := with_close u KLocked (rs_canceled u)]> (n_subs x))) (Some (SClose o)))
      | Some _ => Blocked
      end
  | KCloseChan =>
      match chan_close (rs_msgChan u) with
      | Some c => Next (set_subs x (<[o := with_msgChan u c KReturned (rs_read u)]> (n_subs x)))
      | None => Panic
      end
  | KNotCalled | KLocked | KReturned => Blocked
  end.

(** ** Callbacks *)

(** The [select] of the two [write]s: [drop] takes the context's end. *)
Definition write_chan (c : chan natsMsg) (canceled : bool) (m : natsMsg) (drop : bool) : option (option (chan natsMsg)) :=
  if drop then if canceled then Some (Some c) else None
  else
    match chan_send c m with
    | Sent c => Some (Some c)
    | SendBlocks => None
    | SendPanics => Some None
    end.

(** What [SubscribeInbox]'s callback writes. *)
Definition inbox_accepts (m : natsMsg) : bool :=
  negb (bool_decide (nm_Data m = []) && negb (bool_decide (nm_Status m = noRespondersStatus))).

Definition accepts (p : subscription) (m : natsMsg) : bool := if ps_inbox p then inbox_accepts m else true.

(** A message taken by the goroutine of nats subscription [k], up to the lock or to the
    write. *)
Definition take (x : transport) (n : nat) (k : natsSub) (m : natsMsg) (rest : list natsMsg) : outcome :=
  let next cb log := Next (set_nats x (<[n := with_callback k rest cb log]> (n_nats x))) in
  match ns_target k with
  | ToRouter r =>
      match DecodeLocalChannel (nm_Data m) with
      | Err _ => next CbIdle (ns_log k)
      | Ok channel => next (CbLock m channel) (ns_log k)
      end
  | ToSub p =>
      match n_plain x !! p with
      | Some q => if accepts q m then next (CbWrite m) (ns_log k ++ [m]) else next CbIdle (ns_log k)
      | None => Panic
      end
  end.

(** [router.write] with the lock. *)
Definition router_write (x : transport) (n : nat) (k : natsSub) (r : nat) (rt : router) (drop : bool) : outcome :=
  match rt_writing rt with
  | Some (m, o :: rest) =>
      match n_subs x !! o with
      | None => Panic
      | Some u =>
          match write_chan (rs_msgChan u) (rs_canceled u) m drop with
          | None => Blocked
          | Some None => Panic
          | Some (Some c) =>
              Next (set_all (set_subs x (<[o := with_msgChan u c (rs_close u) (rs_read u)]> (n_subs x)))
                (<[r := with_writing rt (Some (m, rest)) (rt_log rt)]> (n_all x)))
          end
      end
  | Some (m, []) =>
      Next (set_nats (set_all x (<[r := with_writing rt None (rt_log rt)]> (n_all x)))
        (<[n := with_callback k (ns_pending k) CbIdle (ns_log k)]> (n_nats x)))
  | None => Blocked
  end.

Definition callback_step (x : transport) (n : nat) (k : natsSub) (drop : bool) : outcome :=
  match ns_callback k with
  | CbIdle =>
      match ns_pending k with
      | m :: rest => if ns_active k then take x n k m rest else Blocked
      | [] => Blocked
      end
  | CbLock m channel =>
      match ns_target k with
      | ToRouter r =>
          match n_all x !! r with
          | Some rt =>
              match rt_writing rt with
              | None =>
                  Next (set_nats (set_all x
                      (<[r := with_writing rt (Some (m, default [] (rt_routes rt !! channel))) (rt_log rt ++ [m])]> (n_all x)))
                    (<[n := with_callback k (ns_pending k) CbWriting (ns_log k)]> (n_nats x)))
              | Some _ => Blocked
              end
          | None => Panic
          end
      | ToSub _ => Panic
      end
  | CbWriting =>
      match ns_target k with
      | ToRouter r => match n_all x !! r with Some rt => router_write x n k r rt drop | None => Panic end
      | ToSub _ => Panic
      end
  | CbWrite m =>
      match ns_target k with
      | ToSub p =>
          match n_plain x !! p with
          | Some q =>
              match write_chan (ps_msgChan q) (ps_canceled q) m drop with
              | None => Blocked
              | Some None => Panic
              | Some (Some c) =>
                  Next (set_nats (set_plain x (<[p := MkSub (ps_inbox q) (ps_canceled q) c (ps_read q)]> (n_plain x)))
                    (<[n := with_callback k (ns_pending k) CbIdle (ns_log k)]> (n_nats x)))
              end
          | None => Panic
          end
      | ToRouter _ => Panic
      end
  end.

(** ** Steps *)

(** [LSubscribe] begins a call of [Subscribe] or [SubscribeQueue], [LInbox] is one of
    [SubscribeInbox]; [fails] is what nats answers.  [LRead] and [LReadSub] are users
    reading, [LCancel] and [LCancelSub] the ends of their contexts. *)
Inductive label : Type :=
| LSubscribe (channel : Channel) (size : nat) (queue fails : bool)
| LInbox (channel : Channel) (size : nat) (fails : bool)
| LCall (n : nat) (fails : bool)
| LSection
| LClose (o : nat)
| LCloser (o : nat)
| LDeliver (k : nat) (m : natsMsg)
| LCallback (k : nat) (drop : bool)
| LRead (o : nat)
| LReadSub (p : nat)
| LCancel (o : nat)
| LCancelSub (p : nat)
| LCloseSub (p : nat).

(** [subscribe] and [SubscribeInbox]. *)
Definition subscribe (x : transport) (subject : string) (size : nat) (queue inbox fails : bool) : transport :=
  if fails then x
  else
    let p := length (n_plain x) in
    set_nats (set_plain x (n_plain x ++ [MkSub inbox false (make_chan size) []]))
      (n_nats x ++ [MkNatsSub subject queue (ToSub p) true [] CbIdle []]).

(** [subscription.Close]. *)
Definition close_sub (x : transport) (p : nat) (q : subscription) : transport :=
  let unsub k := match ns_target k with ToSub p' => if decide (p' = p) then unsubscribed k else k | ToRouter _ => k end in
  set_nats (set_plain x (<[p := MkSub (ps_inbox q) true (ps_msgChan q) (ps_read q)]> (n_plain x))) (unsub <$> n_nats x).

Definition step (l : label) (x : transport) : outcome :=
  match l with
  | LSubscribe channel size queue fails =>
      if bool_decide (ch_Local channel = "") then Next (subscribe x (ch_Server channel) size queue false fails)
      else Next (set_calls x (n_calls x ++ [MkCall channel size queue ALock]))
  | LInbox channel size fails => Next (subscribe x (ch_Server channel) size false true fails)
  | LCall n fails => match n_calls x !! n with Some ca => call_step x n ca fails | None => Blocked end
  | LSection => match n_mu x with Some sec => section_step x sec | None => Blocked end
  | LClose o =>
      match n_subs x !! o with
      | Some u =>
          match rs_close u, rs_live u with
          | KNotCalled, true => Next (set_subs x (<[o := with_close u KUnsubscribe true]> (n_subs x)))
          | _, _ => Blocked
          end
      | None => Blocked
      end
  | LCloser o => match n_subs x !! o with Some u => closer_step x o u | None => Blocked end
  | LDeliver k m =>
      match n_nats x !! k with
      | Some ns =>
          if ns_active ns then Next (set_nats x (<[k := with_callback ns (ns_pending ns ++ [m]) (ns_callback ns) (ns_log ns)]> (n_nats x)))
          else Blocked
      | None => Blocked
      end
  | LCallback k drop => match n_nats x !! k with Some ns => callback_step x k ns drop | None => Blocked end
  | LRead o =>
      match n_subs x !! o with
      | Some u =>
          match chan_recv (rs_msgChan u) with
          | Received m c => Next (set_subs x (<[o := with_msgChan u c (rs_close u) (rs_read u ++ [m])]> (n_subs x)))
          | RecvClosed => Next x
          | RecvBlocks => Blocked
          end
      | None => Blocked
      end
  | LReadSub p =>
      match n_plain x !! p with
      | Some q =>
          match chan_recv (ps_msgChan q) with
          | Received m c => Next (set_plain x (<[p := MkSub (ps_inbox q) (ps_canceled q) c (ps_read q ++ [m])]> (n_plain x)))
          | _ => if ps_canceled q then Next x else Blocked
          end
      | None => Blocked
      end
  | LCancel o =>
      match n_subs x !! o with
      | Some u => Next (set_subs x (<[o := with_close u (rs_close u) true]> (n_subs x)))
      | None => Blocked
      end
  | LCancelSub p =>
      match n_plain x !! p with
      | Some q => Next (set_plain x (<[p := MkSub (ps_inbox q) true (ps_msgChan q) (ps_read q)]> (n_plain x)))
      | None => Blocked
      end
  | LCloseSub p => match n_plain x !! p with Some q => Next (close_sub x p q) | None => Blocked end
  end.

Fixpoint run (ls : list label) (x : transport) : option transport :=
  match ls with
  | [] => Some x
  | l :: ls => match step l x with Next x => run ls x | _ => None end
  end.
End nats.

(** ** The routes, and what is written *)

Section routes.
Context `{GrpcApi} `{!StatusApi} `{!Codec}.
Implicit Types (rs : list router) (us : list routerSubscription) (u : routerSubscription) (rt : router) (m : natsMsg).

(** In its router's routes until [router.close]. *)
Definition routed (k : closing) : bool :=
  match k with KNotCalled | KUnsubscribe | KLocked => true | KCloseChan | KReturned => false end.

Definition returned (k : closing) : bool := match k with KReturned => true | _ => false end.
Definition called (k : closing) : bool := match k with KNotCalled => false | _ => true end.

(** What is for a local channel, of what a router handled since a subscription was
    opened; what the subscription got of it; and what is about to be written to it. *)
Definition decodes (channel : string) m : bool :=
  match DecodeLocalChannel (nm_Data m) with Ok c => bool_decide (c = channel) | Err _ => false end.

Definition wanted rt u : list natsMsg :=
  filter (λ m, decodes (rs_channel u) m = true) (drop (rs_since u) (rt_log rt)).

Definition got u : list natsMsg := rs_read u ++ chan_buf (rs_msgChan u).

Definition coming rt (o : nat) : list natsMsg :=
  match rt_writing rt with Some (m, rest) => if bool_decide (o ∈ rest) then [m] else [] | None => [] end.

Record routes_inv rs us : Prop := {
  v_router o u : us !! o = Some u → is_Some (rs !! rs_router u);
  v_chan o u : us !! o = Some u → chan_closed (rs_msgChan u) = returned (rs_close u);
  v_cancel o u : us !! o = Some u → called (rs_close u) = true → rs_canceled u = true;
  v_routes r rt channel os : rs !! r = Some rt → rt_routes rt !! channel = Some os →
    os ≠ [] ∧ NoDup os ∧ ∀ o, o ∈ os →
      ∃ u, us !! o = Some u ∧ rs_router u = r ∧ rs_channel u = channel ∧ routed (rs_close u) = true;
  v_registered o u rt : us !! o = Some u → routed (rs_close u) = true → rs !! rs_router u = Some rt →
    ∃ os, rt_routes rt !! rs_channel u = Some os ∧ o ∈ os;
  v_writing r rt m rest : rs !! r = Some rt → rt_writing rt = Some (m, rest) →
    NoDup rest ∧ (∃ log, rt_log rt = log ++ [m]) ∧
    ∀ o, o ∈ rest → ∃ channel os, decodes channel m = true ∧ rt_routes rt !! channel = Some os ∧ o ∈ os;
  v_since o u rt : us !! o = Some u → rs !! rs_router u = Some rt → (rs_since u <= length (rt_log rt))%nat;
  v_got o u rt : us !! o = Some u → rs !! rs_router u = Some rt →
    got u ++ coming rt o `sublist_of` wanted rt u ∧
    (rs_canceled u = false → got u ++ coming rt o = wanted rt u)
}.

Lemma routes_inv_nil : routes_inv [] [].
Proof. by split. Qed.

(** A router made. *)
Lemma routes_inv_router rs us channel queue :
  routes_inv rs us → routes_inv (rs ++ [MkRouter channel queue ∅ None None [] false]) us.
Proof.
  intros [V1 V2 V3 V4 V5 V6 V7 V8].
  assert (Hnew : ∀ r rt, (rs ++ [MkRouter channel queue ∅ None None [] false]) !! r = Some rt →
    rs !! r = Some rt ∨ (rs !! r = None ∧ rt = MkRouter channel queue ∅ None None [] false)).
  { intros r rt [?|[Hle Hz]]%lookup_app_Some; [by left|right].
    apply list_lookup_singleton_Some in Hz as [_ <-]. split; [by apply lookup_ge_None|done]. }
  assert (Hold : ∀ o u rt, us !! o = Some u → (rs ++ [MkRouter channel queue ∅ None None [] false]) !! rs_router u = Some rt →
    rs !! rs_router u = Some rt).
  { intros o u rt Hu [?|[Hn _]]%Hnew; [done|]. destruct (V1 o u Hu). congruence. }
  split; try done.
  - intros o u Hu. destruct (V1 o u Hu) as [rt Hrt]. exists rt. by apply lookup_app_l_Some.
  - intros r rt ch os [Hr|[_ ->]]%Hnew Hos; [by apply (V4 r rt)|]. cbn [rt_routes] in Hos; by rewrite lookup_empty in Hos.
  - intros o u rt Hu Hreg Hr. eapply V5; [done..|by eapply Hold].
  - intros r rt m rest [Hr|[_ ->]]%Hnew Hw; [by apply (V6 r rt)|done].
  - intros o u rt Hu Hr. eapply V7; [done|by eapply Hold].
  - intros o u rt Hu Hr. eapply V8; [done|by eapply Hold].
Qed.

(** A router whose nats subscription changes. *)
Lemma routes_inv_sub rs us r rt sub failed :
  rs !! r = Some rt → routes_inv rs us → routes_inv (<[r := with_sub rt sub failed]> rs) us.
Proof.
  intros Hr [V1 V2 V3 V4 V5 V6 V7 V8].
  assert (Hin : ∀ r' rt', <[r := with_sub rt sub failed]> rs !! r' = Some rt' →
    ∃ rt0, rs !! r' = Some rt0 ∧ rt_routes rt' = rt_routes rt0 ∧ rt_writing rt' = rt_writing rt0 ∧ rt_log rt' = rt_log rt0).
  { intros r' rt' [[-> ->]|[_ ?]]%list_lookup_insert_cases; eauto. }
  split; try done.
  - intros o u Hu. by apply list_lookup_insert_is_Some, (V1 o).
  - intros r' rt' ch os (rt0 & Hr' & -> & _)%Hin. by apply V4.
  - intros o u rt' Hu Hreg (rt0 & Hr' & -> & _)%Hin. by eapply V5.
  - intros r' rt' m rest (rt0 & Hr' & -> & -> & ->)%Hin. by apply (V6 r').
  - intros o u rt' Hu (rt0 & Hr' & _ & _ & ->)%Hin. by eapply V7.
  - intros o u rt' Hu (rt0 & Hr' & _ & Hw & Hl)%Hin. unfold wanted, coming. rewrite Hw, Hl. by apply V8.
Qed.

(** A subscription that goes on, with the same messages in its hands. *)
Lemma routes_inv_user rs us o u u' :
  us !! o = Some u → rs_router u' = rs_router u → rs_channel u' = rs_channel u → rs_since u' = rs_since u →
  routed (rs_close u') = routed (rs_close u) → chan_closed (rs_msgChan u') = returned (rs_close u') →
  (called (rs_close u') = true → rs_canceled u' = true) → (rs_canceled u' = false → rs_canceled u = false) →
  got u' = got u → routes_inv rs us → routes_inv rs (<[o := u']> us).
Proof.
  intros Hu E1 E2 E3 E4 Hc Hk Hcan Hg [V1 V2 V3 V4 V5 V6 V7 V8].
  split; try done.
  - intros o' u0 [[-> ->]|[_ Ho]]%list_lookup_insert_cases; [rewrite E1|]; by eapply V1.
  - intros o' u0 [[-> ->]|[_ Ho]]%list_lookup_insert_cases; [done|by eapply V2].
  - intros o' u0 [[-> ->]|[_ Ho]]%list_lookup_insert_cases; [done|by eapply V3].
  - intros r rt ch os Hr Hos. destruct (V4 r rt ch os Hr Hos) as (? & ? & Hin). split_and!; [done..|].
    intros o' Ho'. destruct (Hin o' Ho') as (u0 & Hu0 & ? & ? & ?). destruct (decide (o' = o)) as [->|Hne].
    + exists u'. rewrite list_lookup_insert_eq by (by eapply lookup_lt_Some). simplify_eq. split_and!; congruence.
    + exists u0. by rewrite list_lookup_insert_ne.
  - intros o' u0 rt [[-> ->]|[_ Ho]]%list_lookup_insert_cases; [rewrite E1, E2, E4|]; by eapply V5.
  - intros o' u0 rt [[-> ->]|[_ Ho]]%list_lookup_insert_cases; [rewrite E1, E3|]; by eapply V7.
  - intros o' u0 rt [[-> ->]|[_ Ho]]%list_lookup_insert_cases; [|by eapply V8].
    rewrite E1, Hg. unfold wanted. rewrite E2, E3. intros Hr. destruct (V8 o u rt Hu Hr) as [? Heq]. split; [done|auto].
Qed.

(** A subscription opened. *)
Lemma routes_inv_open rs us r rt channel size live :
  rs !! r = Some rt → rt_writing rt = None → routes_inv rs us →
  routes_inv (<[r := open rt channel (length us)]> rs)
    (us ++ [MkRouterSub r channel false (make_chan size) KNotCalled live (length (rt_log rt)) []]).
Proof.
  intros Hr Hw [V1 V2 V3 V4 V5 V6 V7 V8]. set (u1 := MkRouterSub _ _ _ _ _ _ _ _).
  assert (Hlt : (r < length rs)%nat) by (by eapply lookup_lt_Some).
  assert (Hnew : ∀ o u, (us ++ [u1]) !! o = Some u → us !! o = Some u ∨ (o = length us ∧ u = u1)).
  { intros o u [?|[Hle Hz]]%lookup_app_Some; [by left|right].
    apply list_lookup_singleton_Some in Hz as [? <-]. split; [lia|done]. }
  assert (Hfresh : ∀ o u, us !! o = Some u → o ≠ length us) by (intros o u Hu ->; apply lookup_lt_Some in Hu; lia).
  assert (Hin : ∀ r' rt', <[r := open rt channel (length us)]> rs !! r' = Some rt' →
    ∃ rt0, rs !! r' = Some rt0 ∧ rt_writing rt' = rt_writing rt0 ∧ rt_log rt' = rt_log rt0 ∧
      ((r' = r ∧ rt' = open rt channel (length us) ∧ rt0 = rt) ∨ (r' ≠ r ∧ rt' = rt0))).
  { intros r' rt' [[-> ->]|[? ?]]%list_lookup_insert_cases; eauto 10. }
  assert (Hkeep : ∀ rt' rt0 (r' : nat), (r' = r ∧ rt' = open rt channel (length us) ∧ rt0 = rt) ∨ (r' ≠ r ∧ rt' = rt0) →
    ∀ ch os, rt_routes rt0 !! ch = Some os → ∃ os', rt_routes rt' !! ch = Some os' ∧ os ⊆ os').
  { intros rt' rt0 r' [(-> & -> & ->)|[_ ->]] ch os Hos; [|by exists os]. simpl.
    destruct (decide (ch = channel)) as [->|Hne]; [|by exists os; rewrite lookup_insert_ne].
    rewrite lookup_insert_eq, Hos. eexists. split; [done|]. by apply list_subseteq_app_l. }
  split.
  - intros o u [Hu|[-> ->]]%Hnew; [by apply list_lookup_insert_is_Some, (V1 o)|]. by apply list_lookup_insert_is_Some.
  - intros o u [Hu|[-> ->]]%Hnew; [by apply (V2 o)|done].
  - intros o u [Hu|[-> ->]]%Hnew; [by apply (V3 o)|done].
  - intros r' rt' ch os (rt0 & Hr' & _ & _ & Hcase)%Hin Hos.
    assert (Hold : ∀ os0, rt_routes rt0 !! ch = Some os0 → os0 ≠ [] ∧ NoDup os0 ∧ ∀ o, o ∈ os0 →
      ∃ u, (us ++ [u1]) !! o = Some u ∧ rs_router u = r' ∧ rs_channel u = ch ∧ routed (rs_close u) = true).
    { intros os0 Hos0. destruct (V4 r' rt0 ch os0 Hr' Hos0) as (? & ? & Hmem). split_and!; [done..|].
      intros o Ho. destruct (Hmem o Ho) as (u & Hu & ?). exists u. split; [by apply lookup_app_l_Some|done]. }
    destruct Hcase as [(-> & -> & ->)|[_ ->]]; [|by apply Hold]. simpl in Hos.
    apply lookup_insert_Some in Hos as [[<- <-]|[_ Hos]]; [|by apply Hold].
    assert (Hu1 : ∃ u, (us ++ [u1]) !! length us = Some u ∧ rs_router u = r ∧ rs_channel u = channel ∧ routed (rs_close u) = true).
    { exists u1. rewrite lookup_app_r, Nat.sub_diag by lia. done. }
    destruct (rt_routes rt !! channel) as [os0|] eqn:Hos0; simpl.
    + destruct (Hold os0 eq_refl) as (? & ? & Hmem). split_and!; [by destruct os0| |].
      * apply NoDup_app. split_and!; [done| |apply NoDup_singleton]. intros o Ho ->%list_elem_of_singleton.
        destruct (V4 r rt channel os0 Hr Hos0) as (_ & _ & Hm). destruct (Hm _ Ho) as (u & Hu & _). by apply (Hfresh _ u Hu).
      * intros o [Ho| ->%list_elem_of_singleton]%elem_of_app; [by apply Hmem|done].
    + split_and!; [done|apply NoDup_singleton|]. by intros o ->%list_elem_of_singleton.
  - intros o u rt' [Hu|[-> ->]]%Hnew Hreg (rt0 & Hr' & _ & _ & Hcase)%Hin.
    + destruct (V5 o u rt0 Hu Hreg Hr') as (os & Hos & Ho). destruct (Hkeep _ _ _ Hcase _ _ Hos) as (os' & ? & Hsub).
      exists os'. split; [done|]. by apply Hsub.
    + destruct Hcase as [(_ & -> & ->)|[Hne _]]; [|done]. simpl. rewrite lookup_insert_eq. eexists. split; [done|].
      apply elem_of_app. right. by apply list_elem_of_singleton.
  - intros r' rt' m rest (rt0 & Hr' & -> & -> & Hcase)%Hin Hwr. destruct (V6 r' rt0 m rest Hr' Hwr) as (? & ? & Hrest).
    split_and!; [done..|]. intros o Ho. destruct (Hrest o Ho) as (ch & os & ? & Hos & ?).
    destruct (Hkeep _ _ _ Hcase _ _ Hos) as (os' & ? & Hsub). exists ch, os'. split_and!; [done..|by apply Hsub].
  - intros o u rt' [Hu|[-> ->]]%Hnew (rt0 & Hr' & _ & -> & Hcase)%Hin; [by eapply V7|].
    destruct Hcase as [(_ & _ & ->)|[Hne _]]; [simpl; lia|done].
  - intros o u rt' [Hu|[-> ->]]%Hnew (rt0 & Hr' & Hwr & Hl & Hcase)%Hin.
    + unfold wanted, coming. rewrite Hwr, Hl. by apply V8.
    + destruct Hcase as [(_ & -> & ->)|[Hne _]]; [|done]. unfold wanted, coming, got. simpl. rewrite Hw, drop_all. done.
Qed.

(** ** [router.close] *)

Lemma remove_spec o os : NoDup os → NoDup (remove o os) ∧ ∀ o', o' ∈ remove o os ↔ o' ∈ os ∧ o' ≠ o.
Proof.
  induction os as [|o1 os IH]; simpl; intros Hnd.
  { split; [done|]. intros o'. rewrite elem_of_nil. naive_solver. }
  apply NoDup_cons in Hnd as [Hni Hnd]. destruct (IH Hnd) as [Hnd' Hin]. case_decide as Heq.
  - subst o1. split; [done|]. intros o'. rewrite elem_of_cons. naive_solver.
  - split; [apply NoDup_cons; split; [|done]; rewrite Hin; naive_solver|].
    intros o'. rewrite !elem_of_cons, Hin. naive_solver.
Qed.

(** The routes after a close, of a subscription that is in them. *)
Lemma close_routes rt channel o os :
  rt_routes rt !! channel = Some os → NoDup os → o ∈ os →
  ∀ ch os', rt_routes (close rt channel o).1 !! ch = Some os' ↔
    (ch ≠ channel ∧ rt_routes rt !! ch = Some os') ∨ (ch = channel ∧ os' = remove o os ∧ os' ≠ []).
Proof.
  intros Hos Hnd Ho ch os'. unfold close. rewrite Hos. simpl. rewrite decide_True by done.
  destruct (remove o os) as [|o1 os1] eqn:Hr; simpl.
  - rewrite lookup_delete_Some. naive_solver.
  - rewrite lookup_insert_Some. naive_solver.
Qed.

Lemma routes_inv_close rs us o u rt :
  us !! o = Some u → rs !! rs_router u = Some rt → rt_writing rt = None → rs_close u = KLocked →
  routes_inv rs us →
  routes_inv (<[rs_router u := (close rt (rs_channel u) o).1]> rs) (<[o := with_close u KCloseChan (rs_canceled u)]> us).
Proof.
  intros Hu Hr Hw Hk [V1 V2 V3 V4 V5 V6 V7 V8].
  destruct (V5 o u rt Hu ltac:(by rewrite Hk) Hr) as (os & Hos & Ho). destruct (V4 _ rt _ os Hr Hos) as (_ & Hnd & _).
  pose proof (close_routes rt (rs_channel u) o os Hos Hnd Ho) as Hcl. destruct (remove_spec o os Hnd) as [Hnd' Hrem].
  assert (Hsame : rt_writing (close rt (rs_channel u) o).1 = rt_writing rt ∧ rt_log (close rt (rs_channel u) o).1 = rt_log rt).
  { unfold close. cbn zeta. rewrite Hos. simpl. rewrite decide_True by done. destruct (remove o os); split; reflexivity. }
  assert (Hin : ∀ r' rt', <[rs_router u := (close rt (rs_channel u) o).1]> rs !! r' = Some rt' →
    ∃ rt0, rs !! r' = Some rt0 ∧ rt_writing rt' = rt_writing rt0 ∧ rt_log rt' = rt_log rt0 ∧
      ((r' = rs_router u ∧ rt' = (close rt (rs_channel u) o).1 ∧ rt0 = rt) ∨ (r' ≠ rs_router u ∧ rt' = rt0))).
  { intros r' rt' [[-> ->]|[? ?]]%list_lookup_insert_cases; [exists rt|exists rt']; naive_solver. }
  assert (Hus : ∀ o' u', <[o := with_close u KCloseChan (rs_canceled u)]> us !! o' = Some u' →
    (o' = o ∧ u' = with_close u KCloseChan (rs_canceled u)) ∨ (o' ≠ o ∧ us !! o' = Some u')).
  { intros o' u'. apply list_lookup_insert_cases. }
  split.
  - intros o' u' [[-> ->]|[_ Hu']]%Hus; apply list_lookup_insert_is_Some; [by apply (V1 o u)|by apply (V1 o')].
  - intros o' u' [[-> ->]|[_ Hu']]%Hus; [|by apply (V2 o')]. simpl. rewrite (V2 o u Hu). by rewrite Hk.
  - intros o' u' [[-> ->]|[_ Hu']]%Hus; [|by apply (V3 o')]. simpl. intros _. apply (V3 o u Hu). by rewrite Hk.
  - intros r' rt' ch os' (rt0 & Hr' & _ & _ & Hcase)%Hin Hos'.
    assert (Hold : ∀ os0, rt_routes rt0 !! ch = Some os0 → (r' ≠ rs_router u ∨ ch ≠ rs_channel u) → os0 ≠ [] ∧ NoDup os0 ∧ ∀ o', o' ∈ os0 →
      ∃ u', <[o := with_close u KCloseChan (rs_canceled u)]> us !! o' = Some u' ∧ rs_router u' = r' ∧ rs_channel u' = ch ∧ routed (rs_close u') = true).
    { intros os0 Hos0 Hne. destruct (V4 r' rt0 ch os0 Hr' Hos0) as (? & ? & Hmem). split_and!; [done..|].
      intros o' Ho'. destruct (Hmem o' Ho') as (u' & Hu' & Hr1 & Hc1 & ?). exists u'. rewrite list_lookup_insert_ne; [done|].
      intros ->. simplify_eq. naive_solver. }
    destruct Hcase as [(-> & -> & ->)|[Hne ->]]; [|apply Hold; auto].
    apply Hcl in Hos' as [[Hne Hos']|(-> & -> & Hnn)]; [apply Hold; auto|]. split_and!; [done..|].
    intros o' [Ho' Hne]%Hrem. destruct (V4 _ rt _ os Hr Hos) as (_ & _ & Hmem). destruct (Hmem o' Ho') as (u' & ? & ?).
    exists u'. by rewrite list_lookup_insert_ne.
  - intros o' u' rt' [[-> ->]|[Hne Hu']]%Hus Hreg (rt0 & Hr' & _ & _ & Hcase)%Hin; [done|].
    destruct (V5 o' u' rt0 Hu' Hreg Hr') as (os' & Hos' & Ho'). destruct Hcase as [(Heq & -> & ->)|[_ ->]]; [|by exists os'].
    destruct (decide (rs_channel u' = rs_channel u)) as [Hch|Hch].
    + rewrite Hch in *. simplify_eq. exists (remove o os). rewrite Hcl. assert (o' ∈ remove o os) by (by apply Hrem).
      split; [right; split_and!; [done..|]|done]. intros Hnil. rewrite Hnil in *. set_solver.
    + exists os'. rewrite Hcl. split; [by left|done].
  - intros r' rt' m rest (rt0 & Hr' & -> & -> & Hcase)%Hin Hwr. destruct Hcase as [(-> & -> & ->)|[Hne ->]]; [congruence|].
    by apply (V6 r').
  - intros o' u' rt' Hu' (rt0 & Hr' & _ & -> & _)%Hin. apply Hus in Hu' as [[-> ->]|[_ Hu']]; [by apply (V7 o u)|by apply (V7 o' u')].
  - intros o' u' rt' Hu' (rt0 & Hr' & Hwr & Hl & _)%Hin. unfold wanted, coming. rewrite Hwr, Hl.
    apply Hus in Hu' as [[-> ->]|[_ Hu']]; [by apply (V8 o u)|by apply (V8 o' u')].
Qed.

(** ** [router.write] *)

Lemma wanted_snoc rt u m w :
  (rs_since u <= length (rt_log rt))%nat →
  wanted (with_writing rt w (rt_log rt ++ [m])) u = wanted rt u ++ (if decodes (rs_channel u) m then [m] else []).
Proof.
  intros Hs. unfold wanted. simpl. rewrite drop_app_le by done. rewrite filter_app. f_equal.
  rewrite filter_cons, filter_nil. destruct (decodes _ m); [by rewrite decide_True|by rewrite decide_False].
Qed.

Lemma decodes_inj channel channel' m : decodes channel m = true → decodes channel' m = true → channel = channel'.
Proof.
  unfold decodes. destruct (DecodeLocalChannel _); [|done]. intros ?%bool_decide_eq_true ?%bool_decide_eq_true. congruence.
Qed.

(** The lock taken for a message. *)
Lemma routes_inv_lock rs us r rt m channel :
  rs !! r = Some rt → rt_writing rt = None → DecodeLocalChannel (nm_Data m) = Ok channel → routes_inv rs us →
  routes_inv (<[r := with_writing rt (Some (m, default [] (rt_routes rt !! channel))) (rt_log rt ++ [m])]> rs) us.
Proof.
  intros Hr Hw Hd [V1 V2 V3 V4 V5 V6 V7 V8]. set (rest := default [] (rt_routes rt !! channel)).
  assert (Hch : decodes channel m = true) by (unfold decodes; rewrite Hd; by apply bool_decide_eq_true).
  assert (Hin : ∀ r' rt', <[r := with_writing rt (Some (m, rest)) (rt_log rt ++ [m])]> rs !! r' = Some rt' →
    (r' = r ∧ rt' = with_writing rt (Some (m, rest)) (rt_log rt ++ [m])) ∨ (r' ≠ r ∧ rs !! r' = Some rt')).
  { intros r' rt'. apply list_lookup_insert_cases. }
  split; try done.
  - intros o u Hu. by apply list_lookup_insert_is_Some, (V1 o).
  - intros r' rt' ch os [[-> ->]|[_ Hr']]%Hin; [by apply (V4 r rt)|by apply V4].
  - intros o u rt' Hu Hreg Hr'. apply Hin in Hr' as [[Heq ->]|[_ Hr']]; [|by eapply V5].
    apply (V5 o u rt Hu Hreg). by rewrite Heq.
  - intros r' rt' m' rest' [[-> ->]|[_ Hr']]%Hin; [|by apply (V6 r')]. simpl. intros [= <- <-].
    unfold rest. destruct (rt_routes rt !! channel) as [os|] eqn:Hos; simpl.
    + destruct (V4 r rt channel os Hr Hos) as (_ & Hnd & _). split_and!; [done|by eexists|]. intros o Ho. by exists channel, os.
    + split_and!; [constructor|by eexists|]. by intros o ?%elem_of_nil.
  - intros o u rt' Hu Hr'. apply Hin in Hr' as [[Heq ->]|[_ Hr']]; [|by eapply V7]. simpl. rewrite length_app.
    rewrite <- Heq in Hr. specialize (V7 o u rt Hu Hr). simpl. lia.
  - intros o u rt' Hu Hr'. apply Hin in Hr' as [[Heq ->]|[_ Hr']]; [|by apply V8]. rewrite <- Heq in Hr.
    destruct (V8 o u rt Hu Hr) as [Hsub Heqw]. unfold coming in *. rewrite Hw in *. cbn [rt_writing with_writing].
    rewrite app_nil_r in *. rewrite wanted_snoc by (by eapply V7).
    assert (Hrest : o ∈ rest → decodes (rs_channel u) m = true ∧ routed (rs_close u) = true).
    { unfold rest. destruct (rt_routes rt !! channel) as [os|] eqn:Hos; simpl; [|by intros ?%elem_of_nil]. intros Ho.
      destruct (V4 _ rt channel os Hr Hos) as (_ & _ & Hmem). destruct (Hmem o Ho) as (u2 & Hu2 & _ & <- & ?). by simplify_eq. }
    case_bool_decide as Ho.
    + destruct (Hrest Ho) as [-> _]. split; [by apply sublist_app|]. intros Hcn. by rewrite (Heqw Hcn).
    + rewrite app_nil_r. split; [by apply sublist_inserts_r|]. intros Hcn. rewrite (Heqw Hcn).
      destruct (decodes (rs_channel u) m) eqn:Hdc; [|by rewrite app_nil_r]. exfalso. apply Ho.
      assert (routed (rs_close u) = true) as Hreg.
      { destruct (called (rs_close u)) eqn:Hcal; [rewrite (V3 o u Hu Hcal) in Hcn; done|by destruct (rs_close u)]. }
      destruct (V5 o u rt Hu Hreg Hr) as (os & Hos & Hin2). rewrite (decodes_inj _ _ _ Hdc Hch) in Hos. unfold rest. by rewrite Hos.
Qed.

(** One subscription written to, or dropped. *)
Lemma routes_inv_write rs us r rt m o rest u c drop :
  rs !! r = Some rt → rt_writing rt = Some (m, o :: rest) → us !! o = Some u →
  write_chan (rs_msgChan u) (rs_canceled u) m drop = Some (Some c) → routes_inv rs us →
  routes_inv (<[r := with_writing rt (Some (m, rest)) (rt_log rt)]> rs) (<[o := with_msgChan u c (rs_close u) (rs_read u)]> us).
Proof.
  intros Hr Hw Hu Hc [V1 V2 V3 V4 V5 V6 V7 V8].
  destruct (V6 r rt m (o :: rest) Hr Hw) as (Hnd & Hlog & Hrest). apply NoDup_cons in Hnd as [Hni Hnd].
  assert (Hin : ∀ r' rt', <[r := with_writing rt (Some (m, rest)) (rt_log rt)]> rs !! r' = Some rt' →
    ∃ rt0, rs !! r' = Some rt0 ∧ rt_routes rt' = rt_routes rt0 ∧ rt_log rt' = rt_log rt0 ∧
      ((r' = r ∧ rt' = with_writing rt (Some (m, rest)) (rt_log rt) ∧ rt0 = rt) ∨ (r' ≠ r ∧ rt' = rt0))).
  { intros r' rt' [[-> ->]|[? ?]]%list_lookup_insert_cases; [exists rt|exists rt']; naive_solver. }
  assert (Hus : ∀ o' u', <[o := with_msgChan u c (rs_close u) (rs_read u)]> us !! o' = Some u' →
    ∃ u0, us !! o' = Some u0 ∧ rs_router u' = rs_router u0 ∧ rs_channel u' = rs_channel u0 ∧ rs_since u' = rs_since u0 ∧
      rs_close u' = rs_close u0 ∧ rs_canceled u' = rs_canceled u0 ∧
      ((o' = o ∧ u0 = u ∧ u' = with_msgChan u c (rs_close u) (rs_read u)) ∨ (o' ≠ o ∧ u' = u0))).
  { intros o' u' [[-> ->]|[? ?]]%list_lookup_insert_cases; [exists u|exists u']; naive_solver. }
  assert (Hclosed : chan_closed c = chan_closed (rs_msgChan u)).
  { unfold write_chan in Hc. destruct drop; [destruct (rs_canceled u); by simplify_eq|].
    destruct (chan_send _ _) eqn:Hs; simplify_eq. by apply chan_send_sent in Hs as (-> & -> & _). }
  assert (Hur : rs_router u = r).
  { destruct (Hrest o ltac:(by left)) as (ch & os & _ & Hos & Ho). destruct (V4 r rt ch os Hr Hos) as (_ & _ & Hmem).
    destruct (Hmem o Ho) as (u2 & ? & ? & _). by simplify_eq. }
  split.
  - intros o' u' (u0 & Hu0 & -> & _)%Hus. apply list_lookup_insert_is_Some. by apply (V1 o').
  - intros o' u' (u0 & Hu0 & _ & _ & _ & -> & _ & Hcase)%Hus. destruct Hcase as [(-> & -> & ->)|[_ ->]]; [|by apply (V2 o')].
    simpl. rewrite Hclosed. by apply (V2 o).
  - intros o' u' (u0 & Hu0 & _ & _ & _ & -> & -> & _)%Hus. by apply (V3 o').
  - intros r' rt' ch os (rt0 & Hr' & -> & _)%Hin Hos. destruct (V4 r' rt0 ch os Hr' Hos) as (? & ? & Hmem).
    split_and!; [done..|]. intros o' Ho'. destruct (Hmem o' Ho') as (u0 & Hu0 & ? & ? & ?). destruct (decide (o' = o)) as [->|Hne].
    + eexists. rewrite list_lookup_insert_eq by (by eapply lookup_lt_Some). split; [done|]. by simplify_eq.
    + exists u0. by rewrite list_lookup_insert_ne.
  - intros o' u' rt' (u0 & Hu0 & -> & -> & _ & -> & _)%Hus Hreg (rt0 & Hr' & -> & _)%Hin. by eapply V5.
  - intros r' rt' m' rest' (rt0 & Hr' & -> & -> & Hcase)%Hin. destruct Hcase as [(-> & -> & ->)|[_ ->]]; [|by apply (V6 r')].
    simpl. intros [= <- <-]. split_and!; [done..|]. intros o' Ho'. apply Hrest. by right.
  - intros o' u' rt' (u0 & Hu0 & -> & _ & -> & _)%Hus (rt0 & Hr' & _ & -> & _)%Hin. by eapply V7.
  - intros o' u' rt' (u0 & Hu0 & Hro & Hchn & Hsi & _ & Hcan & Hcu)%Hus (rt0 & Hr' & _ & Hl & Hcr)%Hin.
    rewrite Hro in Hr'. destruct (V8 o' u0 rt0 Hu0 Hr') as [Hsub Heq]. unfold wanted. rewrite Hchn, Hsi, Hl, Hcan.
    destruct Hcu as [(-> & -> & ->)|[Hne ->]].
    + destruct Hcr as [(_ & -> & ->)|[Hne _]]; [|by rewrite Hro in Hne].
      unfold coming in *. rewrite Hw in Hsub, Heq. cbn [rt_writing with_writing].
      rewrite bool_decide_eq_true_2 in Hsub, Heq by (by left). rewrite bool_decide_eq_false_2 by done. rewrite app_nil_r.
      unfold write_chan in Hc. destruct drop.
      * destruct (rs_canceled u) eqn:Hcn; [|done]. simplify_eq. unfold got in *. simpl. split; [|done].
        etrans; [|exact Hsub]. by apply sublist_inserts_r.
      * destruct (chan_send _ _) eqn:Hs; simplify_eq. apply chan_send_sent in Hs as (_ & _ & _ & Hb).
        unfold got in *. simpl. rewrite Hb, (assoc_L (++)). done.
    + assert (coming rt' o' = coming rt0 o') as ->; [|done]. destruct Hcr as [(_ & -> & ->)|[_ ->]]; [|done].
      unfold coming. rewrite Hw. cbn [rt_writing with_writing].
      rewrite (bool_decide_ext (o' ∈ o :: rest) (o' ∈ rest)); [done|]. rewrite elem_of_cons. naive_solver.
Qed.

(** The end of the section. *)
Lemma routes_inv_unlock rs us r rt m :
  rs !! r = Some rt → rt_writing rt = Some (m, []) → routes_inv rs us →
  routes_inv (<[r := with_writing rt None (rt_log rt)]> rs) us.
Proof.
  intros Hr Hw [V1 V2 V3 V4 V5 V6 V7 V8].
  assert (Hin : ∀ r' rt', <[r := with_writing rt None (rt_log rt)]> rs !! r' = Some rt' →
    ∃ rt0, rs !! r' = Some rt0 ∧ rt_routes rt' = rt_routes rt0 ∧ rt_log rt' = rt_log rt0 ∧
      (rt_writing rt' = None ∨ rt' = rt0) ∧ ∀ o, coming rt' o = coming rt0 o).
  { intros r' rt' [[-> ->]|[? ?]]%list_lookup_insert_cases; [|exists rt'; split_and!; auto].
    exists rt. split_and!; [done..|by left|]. intros o. unfold coming. rewrite Hw. cbn [rt_writing with_writing].
    by rewrite (bool_decide_eq_false_2 (o ∈ [])) by (by intros ?%elem_of_nil). }
  split; try done.
  - intros o u Hu. by apply list_lookup_insert_is_Some, (V1 o).
  - intros r' rt' ch os (rt0 & Hr' & -> & _)%Hin. by apply V4.
  - intros o u rt' Hu Hreg (rt0 & Hr' & -> & _)%Hin. by eapply V5.
  - intros r' rt' m' rest' (rt0 & Hr' & _ & _ & [Hn| ->] & _)%Hin; [by rewrite Hn|by apply (V6 r')].
  - intros o u rt' Hu (rt0 & Hr' & _ & -> & _)%Hin. by eapply V7.
  - intros o u rt' Hu (rt0 & Hr' & _ & Hl & _ & ->)%Hin. unfold wanted. rewrite Hl. by apply V8.
Qed.
End routes.
