(* ===== verification/NatsDelivery.v ===== *)
(** * NatsDelivery.v: what the nats bus promises

    No panics in any interleaving, and what a router's subscription gets of what nats
    hands to the router. *)
From S2P Require Import Prelude Errors Bus NatsBus.

(** The parts of a state just built. *)
Ltac fields :=
  cbn [n_all n_subs n_mu n_calls n_routers n_nats n_plain set_all set_subs set_mu set_calls set_routers set_nats set_plain].

(** ** What points to what *)

Section wired.
Context `{GrpcApi} `{!StatusApi} `{!Codec}.
Implicit Types (x : transport) (ns : natsSub) (u : routerSubscription) (ca : call).

Definition mu_ok x (sec : section) : Prop :=
  match sec with
  | SOpen n r _ => (∃ ca, n_calls x !! n = Some ca ∧ ca_at ca = ALocked) ∧ (r < length (n_all x))%nat
  | SClose o => ∃ u, n_subs x !! o = Some u ∧ rs_close u = KLocked
  end.

Definition call_ok x ca : Prop :=
  match ca_at ca with
  | ANats r o => (r < length (n_all x) ∧ o < length (n_subs x))%nat
  | AFailed r => (r < length (n_all x))%nat
  | ALock | ALocked | AReturned _ => True
  end.

Definition nats_ok x ns : Prop :=
  match ns_target ns with
  | ToRouter r =>
      (r < length (n_all x))%nat ∧
      match ns_callback ns with
      | CbLock m channel => DecodeLocalChannel (nm_Data m) = Ok channel
      | CbWrite _ => False
      | CbIdle | CbWriting => True
      end
  | ToSub p =>
      (p < length (n_plain x))%nat ∧
      match ns_callback ns with CbIdle | CbWrite _ => True | CbLock _ _ | CbWriting => False end
  end.

Record wired x : Prop := {
  w_routes : routes_inv (n_all x) (n_subs x);
  w_mu sec : n_mu x = Some sec → mu_ok x sec;
  w_call n ca : n_calls x !! n = Some ca → call_ok x ca;
  w_table channel r : n_routers x !! channel = Some r → (r < length (n_all x))%nat;
  w_nats k ns : n_nats x !! k = Some ns → nats_ok x ns;
  w_plain p q : n_plain x !! p = Some q → chan_closed (ps_msgChan q) = false
}.

Lemma wired_New : wired New.
Proof. by split; [apply routes_inv_nil|..]. Qed.

(** What is ok stays so while the lists grow. *)
Lemma call_ok_grows x x' ca :
  (length (n_all x) <= length (n_all x'))%nat → (length (n_subs x) <= length (n_subs x'))%nat →
  call_ok x ca → call_ok x' ca.
Proof. unfold call_ok. destruct (ca_at ca); lia. Qed.

Lemma nats_ok_grows x x' ns :
  (length (n_all x) <= length (n_all x'))%nat → (length (n_plain x) <= length (n_plain x'))%nat →
  nats_ok x ns → nats_ok x' ns.
Proof. unfold nats_ok. destruct (ns_target ns); intros ?? [? ?]; (split; [lia|done]). Qed.

(** A step that leaves the calls, the lock and the table alone. *)
Lemma wired_frame x rs us ps ks :
  wired x → routes_inv rs us → length rs = length (n_all x) → length us = length (n_subs x) →
  (length (n_plain x) <= length ps)%nat →
  (∀ o u, n_subs x !! o = Some u → rs_close u = KLocked → ∃ u', us !! o = Some u' ∧ rs_close u' = KLocked) →
  (∀ k ns, ks !! k = Some ns → n_nats x !! k = Some ns ∨ nats_ok (MkTransport (n_mu x) (n_routers x) rs us ps ks (n_calls x)) ns) →
  (∀ p q, ps !! p = Some q → chan_closed (ps_msgChan q) = false) →
  wired (MkTransport (n_mu x) (n_routers x) rs us ps ks (n_calls x)).
Proof.
  intros [W1 W2 W3 W4 W5 W6] Hr Hlr Hlu Hlp Hk Hks Hps. split; simpl.
  - done.
  - intros [n r f|o] Hmu; specialize (W2 _ Hmu); simpl in *; [by rewrite Hlr|]. destruct W2 as (u & Hu & Hc). by eapply Hk.
  - intros n ca Hca. eapply call_ok_grows, W3; [..|done]; simpl; lia.
  - intros ch r Hch. rewrite Hlr. by eapply W4.
  - intros k ns Hns. destruct (Hks k ns Hns) as [Hold|?]; [|done]. eapply nats_ok_grows, W5; [..|done]; simpl; lia.
  - done.
Qed.

Lemma Unsubscribe_lookup (ks : list natsSub) sub k ns :
  Unsubscribe ks sub !! k = Some ns →
  ∃ ns0, ks !! k = Some ns0 ∧ ((sub = Some k ∧ ns = unsubscribed ns0) ∨ (sub ≠ Some k ∧ ns = ns0)).
Proof.
  unfold Unsubscribe. destruct sub as [k'|]; [|intros ?; exists ns; auto]. rewrite list_lookup_alter. case_decide as Hk.
  - intros (ns0 & Hk' & ->)%fmap_Some. subst k'. exists ns0. auto.
  - intros ?. exists ns. split; [done|right]. split; congruence.
Qed.

(** Where a subscription is replaced by one that is where it was, or not yet at its
    router's. *)
Lemma locked_insert (us : list routerSubscription) o u u' :
  us !! o = Some u → (rs_close u = KLocked → rs_close u' = KLocked) →
  ∀ o' u0, us !! o' = Some u0 → rs_close u0 = KLocked → ∃ u1, <[o := u']> us !! o' = Some u1 ∧ rs_close u1 = KLocked.
Proof.
  intros Hu Hk o' u0 Hu0 Hk0. destruct (decide (o' = o)) as [->|Hne].
  - exists u'. simplify_eq. split; [by eapply list_lookup_insert_eq, lookup_lt_Some|auto].
  - exists u0. by rewrite list_lookup_insert_ne.
Qed.

Lemma locked_same (us : list routerSubscription) o u :
  us !! o = Some u → rs_close u = KLocked → ∃ u', us !! o = Some u' ∧ rs_close u' = KLocked.
Proof. eauto. Qed.

Definition safe (f : transport → outcome) : Prop :=
  ∀ x, wired x → match f x with Next x' => wired x' | Blocked => True | Panic => False end.

(** A step of a subscription's user. *)
Lemma wired_user x o u u' :
  wired x → n_subs x !! o = Some u →
  rs_router u' = rs_router u → rs_channel u' = rs_channel u → rs_since u' = rs_since u →
  routed (rs_close u') = routed (rs_close u) → chan_closed (rs_msgChan u') = returned (rs_close u') →
  (called (rs_close u') = true → rs_canceled u' = true) → (rs_canceled u' = false → rs_canceled u = false) →
  got u' = got u → (rs_close u = KLocked → rs_close u' = KLocked) → wired (set_subs x (<[o := u']> (n_subs x))).
Proof.
  intros W Hu ???????? Hk. apply (wired_frame x (n_all x) _ (n_plain x) (n_nats x)); try done.
  - by eapply routes_inv_user, W.
  - by rewrite length_insert.
  - by eapply locked_insert.
  - auto.
  - apply W.
Qed.

Lemma safe_close o : safe (step (LClose o)).
Proof.
  intros x W. cbn [step]. destruct (n_subs x !! o) as [u|] eqn:Hu; [|done].
  destruct (rs_close u) eqn:Hk; try done. destruct (rs_live u); [|done].
  apply (wired_user x o u); rewrite ?Hk; try done. simpl. destruct (w_routes _ W) as [_ V _ _ _ _ _ _].
  by rewrite (V o u Hu), Hk.
Qed.

Lemma safe_cancel o : safe (step (LCancel o)).
Proof.
  intros x W. cbn [step]. destruct (n_subs x !! o) as [u|] eqn:Hu; [|done].
  apply (wired_user x o u); try done. by apply (v_chan _ _ (w_routes _ W) o u).
Qed.

Lemma safe_read o : safe (step (LRead o)).
Proof.
  intros x W. cbn [step]. destruct (n_subs x !! o) as [u|] eqn:Hu; [|done].
  destruct (chan_recv (rs_msgChan u)) as [m c| |] eqn:Hc; try done.
  apply chan_recv_closed in Hc as (Hcl & _ & Hb). apply (wired_user x o u); try done.
  - simpl. rewrite Hcl. by apply (v_chan _ _ (w_routes _ W) o u).
  - by apply (v_cancel _ _ (w_routes _ W) o u).
  - unfold got. simpl. by rewrite Hb, <- (assoc_L (++)).
Qed.

Lemma safe_closer o : safe (step (LCloser o)).
Proof.
  intros x W. cbn [step]. destruct (n_subs x !! o) as [u|] eqn:Hu; [|done]. unfold closer_step.
  pose proof (w_routes _ W) as V. destruct (rs_close u) eqn:Hk; try done.
  - destruct (n_mu x) eqn:Hmu; [done|].
    assert (W' : wired (set_subs x (<[o := with_close u KLocked (rs_canceled u)]> (n_subs x)))).
    { apply (wired_user x o u); rewrite ?Hk; try done; simpl; [by rewrite (v_chan _ _ V o u Hu), Hk|].
      intros _. apply (v_cancel _ _ V o u Hu). by rewrite Hk. }
    destruct W' as [W1 W2 W3 W4 W5 W6]. split; try done. simpl. intros sec [= <-].
    exists (with_close u KLocked (rs_canceled u)). split; [by eapply list_lookup_insert_eq, lookup_lt_Some|done].
  - unfold chan_close. rewrite (v_chan _ _ V o u Hu), Hk. simpl.
    apply (wired_user x o u); rewrite ?Hk; try done. simpl. intros _. apply (v_cancel _ _ V o u Hu). by rewrite Hk.
Qed.

(** *** Calls and sections *)

(** Calls appended or moved on. *)
Lemma wired_calls x cs :
  wired x → (∀ n ca, n_calls x !! n = Some ca → ca_at ca = ALocked → cs !! n = Some ca) →
  (∀ n ca, cs !! n = Some ca → call_ok x ca) → wired (set_calls x cs).
Proof.
  intros [W1 W2 W3 W4 W5 W6] Hle Hcs. split; try done. simpl. intros [n r f|o] Hmu; specialize (W2 _ Hmu); simpl in *; [|done].
  destruct W2 as [(ca & ? & ?) ?]. split; [exists ca; auto|done].
Qed.

Lemma wired_call x n ca a :
  wired x → n_calls x !! n = Some ca → ca_at ca ≠ ALocked → call_ok x (call_at ca a) → wired (set_calls x (<[n := call_at ca a]> (n_calls x))).
Proof.
  intros W Hca Hl Ha. apply wired_calls; [done|..].
  { intros n' ca' Hca' Hl'. rewrite list_lookup_insert_ne; [done|]. intros ->. by simplify_eq. }
  intros n' ca' [[_ ->]|[_ ?]]%list_lookup_insert_cases; [done|by eapply W].
Qed.

Lemma wired_find_router x n ca :
  wired x → n_mu x = None → n_calls x !! n = Some ca → ca_at ca = ALock → wired (find_router x n ca).
Proof.
  intros W Hmu Hca Hat. assert (Hn : (n < length (n_calls x))%nat) by (by eapply lookup_lt_Some).
  assert (Hl : ca_at ca ≠ ALocked) by (by rewrite Hat). unfold find_router.
  destruct (n_routers x !! _) as [r|] eqn:Hr.
  - pose proof (w_table _ W _ _ Hr) as Hlt. destruct (n_all x !! r) as [rt|] eqn:Hrt; [|done].
    case_bool_decide; [|by apply wired_call].
    destruct (wired_call x n ca ALocked W Hca Hl I) as [W1 _ W3 W4 W5 W6]. split; try done. simpl. intros sec [= <-].
    simpl. split; [|done]. eexists. by rewrite list_lookup_insert_eq.
  - destruct (wired_call x n ca ALocked W Hca Hl I) as [W1 _ W3 W4 W5 W6]. split; fields.
    + by apply routes_inv_router.
    + intros sec [= <-]. simpl. rewrite length_app. simpl. split; [|lia]. eexists. by rewrite list_lookup_insert_eq.
    + intros n' ca' Hca'. eapply call_ok_grows, (W3 n' ca' Hca'); simpl; [rewrite length_app|]; lia.
    + intros ch r [[_ <-]|[_ Hch]]%lookup_insert_Some; rewrite length_app; simpl; [lia|]. specialize (W4 ch r Hch). simpl in W4. lia.
    + intros k ns Hns. eapply nats_ok_grows, (W5 k ns Hns); simpl; [rewrite length_app|]; lia.
    + done.
Qed.

Lemma wired_open_section x n r found ca rt :
  wired x → n_mu x = Some (SOpen n r found) → n_calls x !! n = Some ca → n_all x !! r = Some rt → rt_writing rt = None →
  wired (open_section x n r found ca rt).
Proof.
  intros [W1 W2 W3 W4 W5 W6] Hmu Hca Hr Hw.
  unfold open_section. split; fields; try done.
  - by apply routes_inv_open.
  - intros n' ca' [[_ ->]|[_ Hca']]%list_lookup_insert_cases.
    + unfold call_ok. simpl. destruct found; [done|]. rewrite length_insert, length_app. simpl.
      apply lookup_lt_Some in Hr. lia.
    + eapply call_ok_grows, (W3 n' ca' Hca'); simpl; rewrite ?length_insert, ?length_app; lia.
  - intros ch r' Hch. rewrite length_insert. by eapply W4.
  - intros k ns Hns. eapply nats_ok_grows, (W5 k ns Hns); simpl; rewrite ?length_insert; lia.
Qed.

Lemma wired_nats_answers x n r o ca rt u fails :
  wired x → n_calls x !! n = Some ca → ca_at ca = ANats r o → n_all x !! r = Some rt → n_subs x !! o = Some u →
  wired (nats_answers x n r o ca rt u fails).
Proof.
  intros W Hca Hat Hr Hu. assert (Hlt : (r < length (n_all x))%nat) by (by eapply lookup_lt_Some).
  assert (Hl : ca_at ca ≠ ALocked) by (by rewrite Hat).
  unfold nats_answers. destruct fails; [by apply wired_call|]. match goal with |- wired (set_calls ?y _) => apply (wired_call y n); [|done..] end.
  apply (wired_frame x); fields; rewrite ?length_insert; try done.
  - apply (routes_inv_user _ _ _ u); try done; [by apply (v_chan _ _ (w_routes _ W) o u)|
      by apply (v_cancel _ _ (w_routes _ W) o u)|]. apply routes_inv_sub; [done|by apply W].
  - by apply (locked_insert _ _ u).
  - intros k ns [Hns|[_ Hns]]%lookup_app_Some; [by left|right]. apply list_lookup_singleton_Some in Hns as [_ <-].
    unfold nats_ok. simpl. by rewrite length_insert.
  - apply W.
Qed.

Lemma wired_forget_router x n r ca rt :
  wired x → n_calls x !! n = Some ca → ca_at ca ≠ ALocked → n_all x !! r = Some rt → wired (forget_router x n r ca rt).
Proof.
  intros W Hca Hl Hr. unfold forget_router. match goal with |- wired (set_calls ?y _) => apply (wired_call y n); [|done..] end.
  destruct (wired_frame x (<[r := with_sub rt None true]> (n_all x)) (n_subs x) (n_plain x) (n_nats x))
    as [W1 W2 W3 W4 W5 W6]; try done; rewrite ?length_insert; auto; try by apply W.
  - apply routes_inv_sub; [done|by apply W].
  - apply locked_same.
  - split; try done. simpl. intros ch r' [_ Hch]%lookup_delete_Some. by eapply W4.
Qed.

Lemma wired_close_section x o u rt :
  wired x → n_subs x !! o = Some u → rs_close u = KLocked → n_mu x = Some (SClose o) →
  n_all x !! rs_router u = Some rt → rt_writing rt = None → wired (close_section x o u rt).
Proof.
  intros W Hu Hk Hmu Hr Hw. pose proof (routes_inv_close _ _ o u rt Hu Hr Hw Hk (w_routes _ W)) as V.
  unfold close_section. destruct (close rt (rs_channel u) o) as [rt' last]. cbn [fst] in V. destruct W as [W1 W2 W3 W4 W5 W6].
  assert (Hns : ∀ ks, (∀ k ns, ks !! k = Some ns → nats_ok x ns) → ∀ m,
    (∀ ch r, m !! ch = Some r → (r < length (n_all x))%nat) →
    wired (MkTransport None m (<[rs_router u := rt']> (n_all x)) (<[o := with_close u KCloseChan (rs_canceled u)]> (n_subs x)) (n_plain x) ks (n_calls x))).
  { intros ks Hks m Hm. split; simpl; try done.
    - intros n ca Hca. eapply call_ok_grows, (W3 n ca Hca); simpl; rewrite ?length_insert; lia.
    - intros ch r Hch. rewrite length_insert. by eapply Hm.
    - intros k ns Hk'. eapply nats_ok_grows, (Hks k ns Hk'); simpl; rewrite ?length_insert; lia. }
  destruct last; apply Hns; try done; simpl.
  - intros k ns Hk'. apply Unsubscribe_lookup in Hk' as (ns0 & Hns0 & [[_ ->]|[_ ->]]); by apply (W5 k ns0).
  - intros ch r [_ Hch]%lookup_delete_Some. by eapply W4.
Qed.

Lemma safe_section : safe (step LSection).
Proof.
  intros x W. cbn [step]. destruct (n_mu x) as [sec|] eqn:Hmu; [|done]. pose proof (w_mu _ W sec Hmu) as Hok.
  destruct sec as [n r found|o]; simpl in *.
  - destruct Hok as [(ca & Hca & _) [rt Hr]%lookup_lt_is_Some]. rewrite Hca, Hr.
    destruct (rt_writing rt) eqn:Hw; [done|]. by apply wired_open_section.
  - destruct Hok as (u & Hu & Hk). rewrite Hu. destruct (v_router _ _ (w_routes _ W) o u Hu) as [rt Hr]. rewrite Hr.
    destruct (rt_writing rt) eqn:Hw; [done|]. by apply wired_close_section.
Qed.

Lemma safe_call n fails : safe (step (LCall n fails)).
Proof.
  intros x W. cbn [step]. destruct (n_calls x !! n) as [ca|] eqn:Hca; [|done]. pose proof (w_call _ W n ca Hca) as Hok.
  unfold call_ok in Hok. unfold call_step. destruct (ca_at ca) as [| |r o|r|] eqn:Hat; try done.
  - destruct (n_mu x) eqn:Hmu; [done|]. by apply wired_find_router.
  - destruct Hok as [[rt Hr]%lookup_lt_is_Some [u Hu]%lookup_lt_is_Some]. rewrite Hr, Hu. by apply wired_nats_answers.
  - apply lookup_lt_is_Some in Hok as [rt Hr]. rewrite Hr. destruct (n_mu x); [done|]. apply wired_forget_router; [done..| |done]. by rewrite Hat.
Qed.

(** *** Subscriptions without a router, and nats's callbacks *)

(** Such a subscription, and a nats subscription that was there. *)
Lemma wired_plain x ps ks :
  wired x → (length (n_plain x) <= length ps)%nat →
  (∀ k ns, ks !! k = Some ns → nats_ok (set_nats (set_plain x ps) ks) ns) →
  (∀ p q, ps !! p = Some q → chan_closed (ps_msgChan q) = false) → wired (set_nats (set_plain x ps) ks).
Proof. intros W ? Hks ?. apply (wired_frame x); try done; [apply W|apply locked_same|]. intros k ns Hns. right. by apply (Hks k). Qed.

Lemma wired_sub x p q q' :
  wired x → n_plain x !! p = Some q → chan_closed (ps_msgChan q') = false → wired (set_plain x (<[p := q']> (n_plain x))).
Proof.
  intros W Hq Hc. pose proof (wired_plain x (<[p := q']> (n_plain x)) (n_nats x) W) as Hp. apply Hp; [by rewrite length_insert|..].
  - intros k ns Hns. eapply nats_ok_grows, (w_nats _ W k ns Hns); fields; rewrite ?length_insert; lia.
  - intros p' q0 [[_ ->]|[_ ?]]%list_lookup_insert_cases; [done|by eapply W].
Qed.

Lemma wired_ns x k ns ns' :
  wired x → n_nats x !! k = Some ns → nats_ok x ns' → wired (set_nats x (<[k := ns']> (n_nats x))).
Proof.
  intros W Hns Hok. pose proof (wired_plain x (n_plain x) (<[k := ns']> (n_nats x)) W) as Hp. apply Hp; [done| |by apply W].
  intros k' ns0 [[_ ->]|[_ ?]]%list_lookup_insert_cases; [done|by apply (w_nats _ W k')].
Qed.

Lemma wired_subscribe x subject size queue inbox fails : wired x → wired (subscribe x subject size queue inbox fails).
Proof.
  intros W. unfold subscribe. destruct fails; [done|]. apply wired_plain; [done|rewrite length_app; lia|..].
  - intros k ns [Hns|[_ Hns]]%lookup_app_Some.
    + eapply nats_ok_grows, (w_nats _ W k ns Hns); fields; rewrite ?length_app; lia.
    + apply list_lookup_singleton_Some in Hns as [_ <-]. unfold nats_ok. simpl. rewrite length_app. simpl. lia.
  - intros p q [Hq|[_ Hq]]%lookup_app_Some; [by eapply W|]. by apply list_lookup_singleton_Some in Hq as [_ <-].
Qed.

Lemma safe_subscribe channel size queue fails : safe (step (LSubscribe channel size queue fails)).
Proof.
  intros x W. cbn [step]. case_bool_decide; [by apply wired_subscribe|].
  apply wired_calls; [done|by intros; apply lookup_app_l_Some|]. intros n ca [?|[_ Hca]]%lookup_app_Some; [by eapply W|].
  by apply list_lookup_singleton_Some in Hca as [_ <-].
Qed.

Lemma safe_inbox channel size fails : safe (step (LInbox channel size fails)).
Proof. intros x W. by apply wired_subscribe. Qed.

Lemma safe_deliver k m : safe (step (LDeliver k m)).
Proof.
  intros x W. cbn [step]. destruct (n_nats x !! k) as [ns|] eqn:Hns; [|done]. destruct (ns_active ns); [|done].
  eapply wired_ns; [done..|]. by apply (w_nats _ W k ns).
Qed.

Lemma safe_sub_read p : safe (step (LReadSub p)).
Proof.
  intros x W. cbn [step]. destruct (n_plain x !! p) as [q|] eqn:Hq; [|done]. pose proof (w_plain _ W p q Hq) as Hc.
  destruct (chan_recv (ps_msgChan q)) as [m c| |] eqn:Hr; [|by destruct (ps_canceled q)..].
  eapply wired_sub; [done..|]. apply chan_recv_closed in Hr as (Hcl & _). simpl. congruence.
Qed.

Lemma safe_sub_cancel p : safe (step (LCancelSub p)).
Proof.
  intros x W. cbn [step]. destruct (n_plain x !! p) as [q|] eqn:Hq; [|done]. eapply wired_sub; [done..|].
  by apply (w_plain _ W p q).
Qed.

Lemma safe_sub_close p : safe (step (LCloseSub p)).
Proof.
  intros x W. cbn [step]. destruct (n_plain x !! p) as [q|] eqn:Hq; [|done].
  apply wired_plain; [done|by rewrite length_insert|..].
  - intros k ns. rewrite list_lookup_fmap. intros (ns0 & Hns & ->)%fmap_Some.
    apply (nats_ok_grows x); fields; rewrite ?length_insert; [lia..|]. pose proof (w_nats _ W k ns0 Hns) as Hok.
    destruct (ns_target ns0) eqn:Ht; [done|]. case_decide; [|done]. unfold nats_ok in *. simpl. by rewrite Ht in *.
  - intros p' q0 [[_ ->]|[_ ?]]%list_lookup_insert_cases; [by apply (w_plain _ W p q)|by eapply W].
Qed.

Lemma write_chan_open c canceled m drop : chan_closed c = false → write_chan c canceled m drop ≠ Some None.
Proof. unfold write_chan, chan_send. intros ->. by destruct drop, canceled, (length (chan_buf c) <? chan_cap c)%nat. Qed.

Lemma write_chan_closed c canceled m drop c' :
  write_chan c canceled m drop = Some (Some c') → chan_closed c' = chan_closed c.
Proof.
  unfold write_chan. destruct drop; [by destruct canceled; intros ?; simplify_eq|].
  destruct (chan_send c m) eqn:Hs; intros ?; simplify_eq. by apply chan_send_sent in Hs as (-> & -> & _).
Qed.

(** Under a router's lock. *)
Lemma wired_router x k ns r rt us cb :
  wired x → n_nats x !! k = Some ns → ns_target ns = ToRouter r → (r < length (n_all x))%nat → cb = CbIdle ∨ cb = CbWriting →
  length us = length (n_subs x) →
  (∀ o u, n_subs x !! o = Some u → rs_close u = KLocked → ∃ u', us !! o = Some u' ∧ rs_close u' = KLocked) →
  routes_inv (<[r := rt]> (n_all x)) us →
  wired (set_nats (set_subs (set_all x (<[r := rt]> (n_all x))) us) (<[k := with_callback ns (ns_pending ns) cb (ns_log ns)]> (n_nats x))).
Proof.
  intros W Hns Ht Hr Hcb Hus Hk V. apply (wired_frame x); fields; rewrite ?length_insert; try done; [|apply W].
  intros k' ns0 [[_ ->]|[_ ?]]%list_lookup_insert_cases; [right|by left]. unfold nats_ok. simpl. rewrite Ht, length_insert.
  split; [done|]. by destruct Hcb as [-> | ->].
Qed.

Lemma safe_callback k drop : safe (step (LCallback k drop)).
Proof.
  intros x W. cbn [step]. destruct (n_nats x !! k) as [ns|] eqn:Hns; [|done]. pose proof (w_nats _ W k ns Hns) as Hok.
  pose proof (w_routes _ W) as V. unfold nats_ok in Hok. unfold callback_step, take, router_write.
  destruct (ns_callback ns) as [|m channel| |m] eqn:Hcb.
  - destruct (ns_pending ns) as [|m rest]; [done|]. destruct (ns_active ns); [|done].
    destruct (ns_target ns) as [r|p] eqn:Ht; destruct Hok as [Hlt _].
    + destruct (DecodeLocalChannel _) eqn:Hd; (eapply wired_ns; [done..|]; unfold nats_ok; simpl; by rewrite Ht).
    + apply lookup_lt_is_Some in Hlt as [q Hq]. rewrite Hq. destruct (accepts q m); (eapply wired_ns; [done..|]; unfold nats_ok; simpl;
        rewrite Ht; split; [by eapply lookup_lt_Some|done]).
  - destruct (ns_target ns) as [r|p] eqn:Ht; destruct Hok as [Hlt Hd]; [|done].
    pose proof Hlt as [rt Hr]%lookup_lt_is_Some. rewrite Hr. destruct (rt_writing rt) eqn:Hw; [done|].
    eapply (wired_router x k ns r _ (n_subs x)); eauto. by apply routes_inv_lock.
  - destruct (ns_target ns) as [r|p] eqn:Ht; destruct Hok as [Hlt Hd]; [|done].
    pose proof Hlt as [rt Hr]%lookup_lt_is_Some. rewrite Hr. destruct (rt_writing rt) as [[m [|o rest]]|] eqn:Hw; [|..|done].
    + eapply (wired_router x k ns r _ (n_subs x)); eauto. by eapply routes_inv_unlock.
    + destruct (v_writing _ _ V r rt m _ Hr Hw) as (_ & _ & Hrest). destruct (Hrest o ltac:(by left)) as (ch & os & _ & Hos & Ho).
      destruct (v_routes _ _ V r rt ch os Hr Hos) as (_ & _ & Hmem). destruct (Hmem o Ho) as (u & Hu & Hur & _ & Hreg).
      rewrite Hu. assert (Hc : chan_closed (rs_msgChan u) = false).
      { rewrite (v_chan _ _ V o u Hu). by destruct (rs_close u). }
      destruct (write_chan _ _ _ _) as [[c|]|] eqn:Hwr; [|by apply (write_chan_open _ (rs_canceled u) m drop) in Hc|done].
      apply (wired_frame x); fields; rewrite ?length_insert; try done; [| |auto|by apply W].
      * by apply (routes_inv_write _ _ r rt m o rest u c drop).
      * by apply (locked_insert _ _ u).
  - destruct (ns_target ns) as [r|p] eqn:Ht; destruct Hok as [Hlt Hd]; [done|].
    pose proof Hlt as [q Hq]%lookup_lt_is_Some. rewrite Hq. pose proof (w_plain _ W p q Hq) as Hc.
    destruct (write_chan _ _ _ _) as [[c|]|] eqn:Hwr; [|by apply (write_chan_open _ (ps_canceled q) m drop) in Hc|done].
    match goal with |- wired (set_nats ?y _) => apply (wired_ns y k ns) end; [|done|].
    + eapply wired_sub; [done..|]. simpl. by rewrite (write_chan_closed _ _ _ _ _ Hwr).
    + unfold nats_ok. simpl. rewrite Ht, length_insert. done.
Qed.

Lemma step_safe l : safe (step l).
Proof.
  destruct l; auto using safe_subscribe, safe_inbox, safe_call, safe_section, safe_close, safe_closer, safe_deliver,
    safe_callback, safe_read, safe_sub_read, safe_cancel, safe_sub_cancel, safe_sub_close.
Qed.

(** What holds of the runs so far holds of a run. *)
Lemma run_induction (P : list label → transport → Prop) ls0 x0 ls x :
  (∀ ls x l x', P ls x → step l x = Next x' → P (ls ++ [l]) x') → P ls0 x0 → run ls x0 = Some x → P (ls0 ++ ls) x.
Proof.
  intros Hstep. revert ls0 x0. induction ls as [|l ls IH]; intros ls0 x0 HP Hr; simpl in Hr.
  - simplify_eq. by rewrite app_nil_r.
  - destruct (step l x0) as [x1| |] eqn:Hl; try done. specialize (IH _ _ (Hstep _ _ _ _ HP Hl) Hr).
    by rewrite <- (assoc_L (++)) in IH.
Qed.

Lemma reachable_wired ls x : run ls New = Some x → wired x.
Proof.
  apply (run_induction (λ _, wired) []); [|apply wired_New]. intros _ x0 l x' W Hl. pose proof (step_safe l x0 W) as Hs.
  by rewrite Hl in Hs.
Qed.

(** No call, no goroutine that closes and no callback of nats panics, in any
    interleaving: no write to a channel that was closed, no channel closed twice. *)
Theorem nats_never_panics (ls : list label) (x : transport) (l : label) : run ls New = Some x → step l x ≠ Panic.
Proof. intros Hr%reachable_wired Hl. pose proof (step_safe l x Hr) as Hs. by rewrite Hl in Hs. Qed.

End wired.

(** ** What arrives *)

Section arrives.
Context `{GrpcApi} `{!StatusApi} `{!Codec}.
Implicit Types (x : transport) (ns : natsSub) (u : routerSubscription) (ca : call) (m : natsMsg).

(** What nats handed to a subscription in a run. *)
Definition delivered (k : nat) (ls : list label) : list natsMsg :=
  omap (λ l, match l with LDeliver k' m => if decide (k' = k) then Some m else None | _ => None end) ls.

Definition decodable m : bool := is_ok (DecodeLocalChannel (nm_Data m)).

(** A message between nats and the router's lock, or the write. *)
Definition in_hand ns : list natsMsg :=
  match ns_callback ns with CbLock m _ | CbWrite m => [m] | CbIdle | CbWriting => [] end.

(** A call that is making a router's nats subscription. *)
Definition opens x (n r : nat) : Prop :=
  n_mu x = Some (SOpen n r false) ∨
  ∃ ca, n_calls x !! n = Some ca ∧ ((∃ o, ca_at ca = ANats r o) ∨ ca_at ca = AFailed r).

Definition for_router ns (log ms : list natsMsg) : Prop :=
  filter (λ m, decodable m = true) ms = log ++ in_hand ns ++ filter (λ m, decodable m = true) (ns_pending ns).

Record logged (ls : list label) x : Prop := {
  g_fresh k : (length (n_nats x) <= k)%nat → delivered k ls = [];
  g_router k ns r : n_nats x !! k = Some ns → ns_target ns = ToRouter r →
    ∃ rt, n_all x !! r = Some rt ∧ rt_sub rt = Some k ∧ for_router ns (rt_log rt) (delivered k ls);
  g_opens n r : opens x n r → ∃ rt, n_all x !! r = Some rt ∧ rt_sub rt = None;
  g_opener n n' r : opens x n r → opens x n' r → n' = n;
  g_unsubscribed r rt : n_all x !! r = Some rt → rt_sub rt = None → rt_log rt = []
}.

Lemma logged_New : logged [] New.
Proof. split; try done; [intros n r|intros n n' r]; by intros [?|(ca & ? & _)]. Qed.

Lemma delivered_snoc k ls l :
  delivered k (ls ++ [l]) = delivered k ls ++ match l with LDeliver k' m => if decide (k' = k) then [m] else [] | _ => [] end.
Proof. unfold delivered. rewrite omap_app. f_equal. simpl. destruct l; try done. by case_decide. Qed.

Definition same_log (rt rt' : router) : Prop := rt_sub rt' = rt_sub rt ∧ rt_log rt' = rt_log rt.

Lemma same_log_insert (rs : list router) r rt rt' : rs !! r = Some rt → same_log rt rt' → Forall2 same_log rs (<[r := rt']> rs).
Proof.
  intros Hr Hs. rewrite <- (list_insert_id rs r rt) at 1 by done. apply Forall2_insert; [|done]. by apply Forall_Forall2_diag, Forall_true.
Qed.

(** A step that leaves the routers' logs and the callbacks alone, and begins no opening. *)
Lemma logged_frame_at ls l x x' :
  logged ls x →
  (∀ k, delivered k (ls ++ [l]) = delivered k ls ∨ ∃ ns p, n_nats x' !! k = Some ns ∧ ns_target ns = ToSub p) → Forall2 same_log (n_all x) (n_all x') →
  (∀ n r, opens x' n r → opens x n r) → (length (n_nats x) <= length (n_nats x'))%nat →
  (∀ k ns r, n_nats x' !! k = Some ns → ns_target ns = ToRouter r → ∃ ns0, n_nats x !! k = Some ns0 ∧
    ns_target ns0 = ns_target ns ∧ in_hand ns0 = in_hand ns ∧ ns_pending ns0 = ns_pending ns) →
  logged (ls ++ [l]) x'.
Proof.
  intros [G1 G2 G3 G4 G5] Hd Hrs Hop Hlen Hks. split.
  - intros k Hk. destruct (Hd k) as [->|(ns & p & Hns & _)]; [apply G1; lia|apply lookup_lt_Some in Hns; lia].
  - intros k ns r Hns Ht. destruct (Hd k) as [Hdk|(ns0 & p & ? & ?)]; [|simplify_eq; congruence].
    destruct (Hks k ns r Hns Ht) as (ns0 & Hns0 & Ht0 & Hh & Hp). rewrite Ht in Ht0.
    destruct (G2 k ns0 r Hns0 Ht0) as (rt & Hr & Hsub & Hf). destruct (Forall2_lookup_l _ _ _ _ _ Hrs Hr) as (rt' & Hr' & Hs1 & Hs2).
    exists rt'. unfold for_router in *. rewrite Hdk, Hs1, Hs2, <- Hh, <- Hp. done.
  - intros n r Ho%Hop. destruct (G3 n r Ho) as (rt & Hr & Hsub). destruct (Forall2_lookup_l _ _ _ _ _ Hrs Hr) as (rt' & Hr' & Hs1 & _).
    exists rt'. by rewrite Hs1.
  - intros n n' r Ho%Hop Ho'%Hop. by eapply G4.
  - intros r rt' Hr'. destruct (Forall2_lookup_r _ _ _ _ _ Hrs Hr') as (rt & Hr & -> & ->). by apply (G5 r).
Qed.

Lemma logged_frame ls l x x' :
  logged ls x → (∀ k, delivered k (ls ++ [l]) = delivered k ls) → Forall2 same_log (n_all x) (n_all x') →
  (∀ n r, opens x' n r → opens x n r) → (length (n_nats x) <= length (n_nats x'))%nat →
  (∀ k ns r, n_nats x' !! k = Some ns → ns_target ns = ToRouter r → ∃ ns0, n_nats x !! k = Some ns0 ∧
    ns_target ns0 = ns_target ns ∧ in_hand ns0 = in_hand ns ∧ ns_pending ns0 = ns_pending ns) →
  logged (ls ++ [l]) x'.
Proof. intros. apply (logged_frame_at ls l x); auto. Qed.

Lemma same_log_refl (rs : list router) : Forall2 same_log rs rs.
Proof. by apply Forall_Forall2_diag, Forall_true. Qed.

Lemma same_nats (ks : list natsSub) k ns (r : nat) : ks !! k = Some ns → ns_target ns = ToRouter r →
  ∃ ns0, ks !! k = Some ns0 ∧ ns_target ns0 = ns_target ns ∧ in_hand ns0 = in_hand ns ∧ ns_pending ns0 = ns_pending ns.
Proof. eauto. Qed.

(** Where one call moves on, what it is opening was being opened. *)
Lemma opens_moved x x' n ca a :
  n_calls x !! n = Some ca → n_calls x' = <[n := call_at ca a]> (n_calls x) →
  (∀ n' r, n_mu x' = Some (SOpen n' r false) → n_mu x = n_mu x') →
  (∀ r, (∃ o, a = ANats r o) ∨ a = AFailed r → opens x n r) → ∀ n' r, opens x' n' r → opens x n' r.
Proof.
  intros Hca Hcs Hmu Ha n' r [Heq|(ca' & Hca' & Hat)]; [left; rewrite <- Heq; by eapply Hmu|].
  rewrite Hcs in Hca'. apply list_lookup_insert_cases in Hca' as [[-> ->]|[_ ?]]; [by apply Ha|right; by exists ca'].
Qed.

Lemma logged_call ls l x n ca a :
  logged ls x → (∀ k, delivered k (ls ++ [l]) = delivered k ls) → n_calls x !! n = Some ca →
  (∀ r, (∃ o, a = ANats r o) ∨ a = AFailed r → opens x n r) →
  logged (ls ++ [l]) (set_calls x (<[n := call_at ca a]> (n_calls x))).
Proof.
  intros G Hd Hca Hn. apply (logged_frame ls l x); auto using same_log_refl; [|apply same_nats].
  by eapply opens_moved.
Qed.

Lemma logged_find_router ls x n fails ca :
  logged ls x → wired x → n_mu x = None → n_calls x !! n = Some ca → logged (ls ++ [LCall n fails]) (find_router x n ca).
Proof.
  intros G W Hmu Hca. assert (Hd : ∀ k, delivered k (ls ++ [LCall n fails]) = delivered k ls).
  { intros k. by rewrite delivered_snoc, app_nil_r. }
  assert (Hc : ∀ a, (∀ r o, a ≠ ANats r o) → (∀ r, a ≠ AFailed r) →
    logged (ls ++ [LCall n fails]) (set_calls x (<[n := call_at ca a]> (n_calls x)))).
  { intros a Ha1 Ha2. apply logged_call; [done..|]. intros r [[o ?]|?]; [by destruct (Ha1 r o)|by destruct (Ha2 r)]. }
  unfold find_router. destruct (n_routers x !! _) as [r|] eqn:Hr.
  - pose proof (w_table _ W _ _ Hr) as [rt Hrt]%lookup_lt_is_Some. rewrite Hrt. case_bool_decide; [|by apply Hc].
    destruct (Hc ALocked) as [G1 G2 G3 G4 G5]; [done..|].
    split; try done; [intros n' r' [Heq|?]|intros n1 n2 r' [Heq|?] [Heq'|?]]; try done; [by apply (G3 n' r'); right|].
    by eapply (G4 n1 n2 r'); right.
  - destruct (Hc ALocked) as [G1 G2 G3 G4 G5]; [done..|]. set (rt := MkRouter _ _ _ _ _ _ _).
    assert (Hnew : ∀ n' r', opens (set_mu (set_calls (set_routers (set_all x (n_all x ++ [rt])) (<[ch_Server (ca_channel ca) := length (n_all x)]> (n_routers x)))
        (<[n := call_at ca ALocked]> (n_calls x))) (Some (SOpen n (length (n_all x)) false))) n' r' →
      (n' = n ∧ r' = length (n_all x)) ∨ (opens (set_calls x (<[n := call_at ca ALocked]> (n_calls x))) n' r' ∧ (r' < length (n_all x))%nat)).
    { intros n' r' [Heq|Hop]; [by left; simplify_eq/=|right]. assert (Ho : opens (set_calls x (<[n := call_at ca ALocked]> (n_calls x))) n' r') by (by right).
      split; [done|]. destruct (G3 n' r' Ho) as (rt' & Hr' & _). by eapply lookup_lt_Some. }
    split; fields.
    + apply G1.
    + intros k ns r Hns Ht. destruct (G2 k ns r Hns Ht) as (rt' & Hr' & ?). exists rt'. split; [by apply lookup_app_l_Some|done].
    + intros n' r' [[-> ->]|[Ho _]]%Hnew.
      * exists rt. rewrite lookup_app_r, Nat.sub_diag by lia. done.
      * destruct (G3 n' r' Ho) as (rt' & Hr' & ?). exists rt'. split; [by apply lookup_app_l_Some|done].
    + intros n1 n2 r' [[-> ->]|[Ho ?]]%Hnew [[-> ?]|[Ho' ?]]%Hnew; try done; try lia. by apply (G4 n1 n2 r').
    + intros r rt' [Hr'|[_ Hr']]%lookup_app_Some; [by apply (G5 r)|]. by apply list_lookup_singleton_Some in Hr' as [_ <-].
Qed.

Lemma close_same_log rt channel o : same_log rt (close rt channel o).1.
Proof. unfold close. cbn zeta. case_decide; [|done]. by destruct (remove _ _). Qed.

Lemma Unsubscribe_same (ks : list natsSub) sub k ns (r : nat) :
  Unsubscribe ks sub !! k = Some ns → ns_target ns = ToRouter r →
  ∃ ns0, ks !! k = Some ns0 ∧ ns_target ns0 = ns_target ns ∧ in_hand ns0 = in_hand ns ∧ ns_pending ns0 = ns_pending ns.
Proof. intros (ns0 & Hns0 & [[_ ->]|[_ ->]])%Unsubscribe_lookup Ht; by exists ns0. Qed.

Lemma Unsubscribe_length (ks : list natsSub) sub : length (Unsubscribe ks sub) = length ks.
Proof. destruct sub; [apply length_alter|done]. Qed.

Lemma logged_section ls x sec x' :
  logged ls x → wired x → n_mu x = Some sec → section_step x sec = Next x' → logged (ls ++ [LSection]) x'.
Proof.
  intros G W Hmu Hs. assert (Hd : ∀ k, delivered k (ls ++ [LSection]) = delivered k ls).
  { intros k. by rewrite delivered_snoc, app_nil_r. }
  destruct sec as [n r found|o]; simpl in Hs.
  - destruct (n_calls x !! n) as [ca|] eqn:Hca; [|done]. destruct (n_all x !! r) as [rt|] eqn:Hr; [|done].
    destruct (rt_writing rt); [done|]. simplify_eq. apply (logged_frame ls LSection x); try done; [|..|apply same_nats].
    + by apply (same_log_insert _ _ rt).
    + apply (opens_moved _ _ n ca (if found then AReturned (Some (length (n_subs x))) else ANats r (length (n_subs x)))); try done.
      intros r' Hr'. left. destruct found; naive_solver.
  - destruct (n_subs x !! o) as [u|] eqn:Hu; [|done]. destruct (n_all x !! rs_router u) as [rt|] eqn:Hr; [|done].
    destruct (rt_writing rt); [done|]. simplify_eq. unfold close_section. pose proof (close_same_log rt (rs_channel u) o) as Hl.
    destruct (close rt (rs_channel u) o) as [rt' last]. simpl in Hl.
    assert (Hrs : Forall2 same_log (n_all x) (<[rs_router u := rt']> (n_all x))) by (by apply (same_log_insert _ _ rt)).
    assert (Hop : ∀ n r, opens (set_mu x None) n r → opens x n r) by (intros n r [?|?]; [done|by right]).
    destruct last; apply (logged_frame ls LSection x); auto; fields; [..|apply same_nats]; rewrite ?Unsubscribe_length; [done|].
    apply Unsubscribe_same.
Qed.

Lemma logged_answers ls x n r o ca rt u :
  logged ls x → wired x → n_calls x !! n = Some ca → ca_at ca = ANats r o → n_all x !! r = Some rt → n_subs x !! o = Some u →
  logged (ls ++ [LCall n false]) (nats_answers x n r o ca rt u false).
Proof.
  intros [G1 G2 G3 G4 G5] W Hca Hat Hr Hu. assert (Hopen : opens x n r) by (right; exists ca; eauto).
  destruct (G3 n r Hopen) as (rt0 & Hr0 & Hsub). simplify_eq. pose proof (G5 r rt Hr Hsub) as Hlog.
  assert (Hd : ∀ k, delivered k (ls ++ [LCall n false]) = delivered k ls) by (intros k; by rewrite delivered_snoc, app_nil_r).
  assert (Hop : ∀ n' r', opens (nats_answers x n r o ca rt u false) n' r' → opens x n' r' ∧ r' ≠ r).
  { intros n' r' Ho. assert (Ho' : opens x n' r').
    { revert Ho. apply (opens_moved x _ n ca (AReturned (Some o))); try done. intros ? [[? ?]|?]; done. }
    split; [done|]. intros ->. assert (n' = n) as -> by (by eapply G4). destruct Ho as [Hmu|(ca' & Hca' & Hat')].
    - destruct (w_mu _ W _ Hmu) as [(ca' & ? & ?) _]. simplify_eq. congruence.
    - simpl in Hca'. rewrite list_lookup_insert_eq in Hca' by (by eapply lookup_lt_Some). simplify_eq. by destruct Hat' as [[??]|?]. }
  unfold nats_answers in *. set (k1 := length (n_nats x)) in *. split; fields.
  - intros k. rewrite length_app, Hd. simpl. intros Hk. apply G1. lia.
  - intros k ns r' Hns Ht. apply lookup_app_Some in Hns as [Hns|[Hle Hns]].
    + destruct (G2 k ns r' Hns Ht) as (rt' & Hr' & Hs' & Hf). exists rt'. rewrite Hd, list_lookup_insert_ne; [done|].
      intros <-. by simplify_eq.
    + apply list_lookup_singleton_Some in Hns as [Hk <-]. simpl in Ht. simplify_eq. exists (with_sub rt (Some k1) false).
      rewrite list_lookup_insert_eq by (by eapply lookup_lt_Some). assert (k = k1) as -> by (unfold k1; lia).
      split_and!; [done..|]. unfold for_router. rewrite Hd, G1 by done. simpl. by rewrite Hlog.
  - intros n' r' [Ho Hne]%Hop. destruct (G3 n' r' Ho) as (rt' & Hr' & ?). exists rt'. by rewrite list_lookup_insert_ne.
  - intros n1 n2 r' [Ho _]%Hop [Ho' _]%Hop. by apply (G4 n1 n2 r').
  - intros r' rt' [[-> ->]|[_ Hr']]%list_lookup_insert_cases; [done|by apply (G5 r')].
Qed.

Lemma logged_call_step ls x n ca fails x' :
  logged ls x → wired x → n_calls x !! n = Some ca → call_step x n ca fails = Next x' → logged (ls ++ [LCall n fails]) x'.
Proof.
  intros G W Hca Hs. assert (Hd : ∀ k, delivered k (ls ++ [LCall n fails]) = delivered k ls).
  { intros k. by rewrite delivered_snoc, app_nil_r. }
  unfold call_step in Hs. destruct (ca_at ca) as [| |r o|r|] eqn:Hat; try done.
  - destruct (n_mu x) eqn:Hmu; [done|]. simplify_eq. by apply logged_find_router.
  - destruct (n_all x !! r) as [rt|] eqn:Hr; [|done]. destruct (n_subs x !! o) as [u|] eqn:Hu; [|done]. simplify_eq.
    assert (Hopen : opens x n r) by (right; exists ca; eauto). unfold nats_answers. destruct fails.
    { apply logged_call; [done..|]. intros r' [[o' ?]|?]; by simplify_eq. }
    by apply logged_answers.
  - destruct (n_mu x) eqn:Hmu; [by destruct (n_all x !! r)|]. destruct (n_all x !! r) as [rt|] eqn:Hr; [|done]. simplify_eq.
    assert (Hopen : opens x n r) by (right; exists ca; eauto). destruct (g_opens _ _ G n r Hopen) as (rt0 & Hr0 & Hsub). simplify_eq.
    apply (logged_frame ls _ x); try done; [|..|apply same_nats]; fields.
    + apply (same_log_insert _ _ rt); [done|]. by split.
    + apply (opens_moved _ _ n ca (AReturned None)); try done. intros r' [[o' ?]|?]; by simplify_eq.
Qed.

(** The callback of a router's nats subscription. *)
Lemma logged_ns ls l x k ns ns' r rt rt' :
  logged ls x → n_nats x !! k = Some ns → ns_target ns = ToRouter r → ns_target ns' = ToRouter r → n_all x !! r = Some rt →
  rt_sub rt' = rt_sub rt → (∀ k', k' ≠ k → delivered k' (ls ++ [l]) = delivered k' ls) →
  (for_router ns (rt_log rt) (delivered k ls) → for_router ns' (rt_log rt') (delivered k (ls ++ [l]))) →
  logged (ls ++ [l]) (set_nats (set_all x (<[r := rt']> (n_all x))) (<[k := ns']> (n_nats x))).
Proof.
  intros [G1 G2 G3 G4 G5] Hns Ht Ht' Hr Hsub Hd Hf. destruct (G2 k ns r Hns Ht) as (rt0 & Hr0 & Hk & Hfr). simplify_eq.
  assert (Hop : ∀ n r', opens (set_nats (set_all x (<[r := rt']> (n_all x))) (<[k := ns']> (n_nats x))) n r' → opens x n r') by done.
  split; fields.
  - intros k'. rewrite length_insert. intros Hle. rewrite Hd; [by apply G1|]. intros ->. apply lookup_lt_Some in Hns. lia.
  - intros k' ns0 r' Hns0 Ht0. apply list_lookup_insert_cases in Hns0 as [[-> ->]|[Hne Hns0]].
    + rewrite Ht' in Ht0. simplify_eq. exists rt'. rewrite list_lookup_insert_eq by (by eapply lookup_lt_Some).
      split_and!; [done|congruence|auto].
    + destruct (G2 k' ns0 r' Hns0 Ht0) as (rt0 & Hr' & Hk' & ?). exists rt0. rewrite list_lookup_insert_ne, Hd; [done..|].
      intros <-. simplify_eq.
  - intros n r' Ho. destruct (G3 n r' Ho) as (rt0 & Hr' & Hs). exists rt0. rewrite list_lookup_insert_ne; [done|].
    intros <-. simplify_eq.
  - exact G4.
  - intros r' rt0 [[-> ->]|[_ Hr']]%list_lookup_insert_cases; [rewrite Hsub; congruence|by apply (G5 r')].
Qed.

(** A step of a callback, or of nats, for a subscription without a router. *)
Lemma logged_plain ls l x k ns ns' p ps :
  logged ls x → n_nats x !! k = Some ns → ns_target ns = ToSub p → ns_target ns' = ToSub p →
  (∀ k', k' ≠ k → delivered k' (ls ++ [l]) = delivered k' ls) →
  logged (ls ++ [l]) (set_nats (set_plain x ps) (<[k := ns']> (n_nats x))).
Proof.
  intros G Hns Ht Ht' Hd. apply (logged_frame_at ls l x); fields; rewrite ?length_insert; auto using same_log_refl.
  - intros k'. destruct (decide (k' = k)) as [->|Hne]; [right|by left; apply Hd].
    exists ns', p. by rewrite list_lookup_insert_eq by (by eapply lookup_lt_Some).
  - intros k' ns0 r [[_ ->]|[_ ?]]%list_lookup_insert_cases ?; [congruence|by exists ns0].
Qed.

Lemma logged_deliver ls x k ns m :
  logged ls x → wired x → n_nats x !! k = Some ns →
  logged (ls ++ [LDeliver k m]) (set_nats x (<[k := with_callback ns (ns_pending ns ++ [m]) (ns_callback ns) (ns_log ns)]> (n_nats x))).
Proof.
  intros G W Hns. assert (Hd : ∀ k', k' ≠ k → delivered k' (ls ++ [LDeliver k m]) = delivered k' ls).
  { intros k' Hne. by rewrite delivered_snoc, decide_False, app_nil_r by done. }
  destruct (ns_target ns) as [r|p] eqn:Ht.
  - destruct (g_router _ _ G k ns r Hns Ht) as (rt & Hr & _ & _).
    pose proof (logged_ns ls (LDeliver k m) x k ns (with_callback ns (ns_pending ns ++ [m]) (ns_callback ns) (ns_log ns)) r rt rt) as Hn.
    rewrite (list_insert_id (n_all x)) in Hn by done. apply Hn; try done. unfold for_router. intros Hf.
    rewrite delivered_snoc, decide_True by done. simpl. unfold in_hand in *. simpl. by rewrite !filter_app, Hf, <- !(assoc_L (++)).
  - by apply (logged_plain ls _ x k ns _ p (n_plain x)).
Qed.

Lemma logged_callback ls x k ns drop x' :
  logged ls x → wired x → n_nats x !! k = Some ns → callback_step x k ns drop = Next x' → logged (ls ++ [LCallback k drop]) x'.
Proof.
  intros G W Hns Hs. assert (Hd : ∀ k', delivered k' (ls ++ [LCallback k drop]) = delivered k' ls).
  { intros k'. by rewrite delivered_snoc, app_nil_r. }
  pose proof (w_nats _ W k ns Hns) as Hok. unfold nats_ok in Hok. unfold callback_step, take in Hs.
  destruct (ns_target ns) as [r|p] eqn:Ht.
  - destruct (g_router _ _ G k ns r Hns Ht) as (rt & Hr & _ & _). rewrite Hr in Hs. destruct Hok as [_ Hok].
    assert (Hsame : ∀ rest cb, (filter (λ m, decodable m = true) (ns_pending ns) = in_hand (with_callback ns rest cb (ns_log ns)) ++ filter (λ m, decodable m = true) rest) →
      in_hand ns = [] → logged (ls ++ [LCallback k drop]) (set_nats x (<[k := with_callback ns rest cb (ns_log ns)]> (n_nats x)))).
    { intros rest cb Hp Hh. pose proof (logged_ns ls (LCallback k drop) x k ns (with_callback ns rest cb (ns_log ns)) r rt rt) as Hn.
      rewrite (list_insert_id (n_all x)) in Hn by done. apply Hn; try done. unfold for_router. rewrite Hd, Hp, Hh. done. }
    destruct (ns_callback ns) as [|m channel| |m] eqn:Hcb; [..|done].
    + destruct (ns_pending ns) as [|m rest] eqn:Hp; [done|]. destruct (ns_active ns); [|done].
      destruct (DecodeLocalChannel _) eqn:Hdec; simplify_eq; apply Hsame; try (by unfold in_hand; rewrite Hcb); unfold in_hand; simpl.
      * rewrite filter_cons_True; [done|]. unfold decodable. by rewrite Hdec.
      * rewrite filter_cons_False; [done|]. unfold decodable. by rewrite Hdec.
    + destruct (rt_writing rt); [done|]. simplify_eq. apply (logged_ns ls _ x k ns _ r rt _); try done.
      unfold for_router, in_hand. rewrite Hd, Hcb. simpl. intros ->. by rewrite <- (assoc_L (++)).
    + unfold router_write in Hs. destruct (rt_writing rt) as [[m [|o rest]]|]; [| |done].
      * simplify_eq. apply (logged_ns ls _ x k ns _ r rt _); try done. unfold for_router, in_hand. by rewrite Hd, Hcb.
      * destruct (n_subs x !! o) as [u|]; [|done]. destruct (write_chan _ _ _ _) as [[c|]|]; simplify_eq.
        apply (logged_frame ls _ x); try done; [|apply same_nats]. by apply (same_log_insert _ _ rt).
  - destruct Hok as [_ Hok]. destruct (ns_callback ns) as [|m channel| |m] eqn:Hcb; try done.
    + destruct (ns_pending ns) as [|m rest]; [done|]. destruct (ns_active ns); [|done].
      destruct (n_plain x !! p) as [q|]; [|done]. destruct (accepts q m); simplify_eq; by apply (logged_plain ls _ x k ns _ p (n_plain x)).
    + destruct (n_plain x !! p) as [q|]; [|done]. destruct (write_chan _ _ _ _) as [[c|]|]; simplify_eq.
      by apply (logged_plain ls _ x k ns _ p).
Qed.

Lemma logged_step ls x l x' : logged ls x → wired x → step l x = Next x' → logged (ls ++ [l]) x'.
Proof.
  intros G W Hs.
  assert (Hquiet : (∀ k m, l ≠ LDeliver k m) → ∀ k, delivered k (ls ++ [l]) = delivered k ls).
  { intros Hl k. rewrite delivered_snoc. destruct l; try apply app_nil_r. by destruct (Hl k0 m). }
  assert (Huser : (∀ k m, l ≠ LDeliver k m) → ∀ us, logged (ls ++ [l]) (set_subs x us)).
  { intros Hl us. apply (logged_frame ls l x); auto using same_log_refl. apply same_nats. }
  assert (Hplain : (∀ k m, l ≠ LDeliver k m) → ∀ ps, logged (ls ++ [l]) (set_plain x ps)).
  { intros Hl ps. apply (logged_frame ls l x); auto using same_log_refl. apply same_nats. }
  assert (Hstay : (∀ k m, l ≠ LDeliver k m) → logged (ls ++ [l]) x).
  { intros Hl. apply (logged_frame ls l x); auto using same_log_refl. apply same_nats. }
  assert (Hsubscribe : ∀ s size queue inbox fails, (∀ k m, l ≠ LDeliver k m) → logged (ls ++ [l]) (subscribe x s size queue inbox fails)).
  { intros s size queue inbox fails Hl. unfold subscribe. destruct fails; [by apply Hstay|].
    apply (logged_frame ls l x); fields; auto using same_log_refl; [rewrite length_app; lia|].
    intros k ns r [Hns|[_ Hns]]%lookup_app_Some Ht; [by exists ns|]. by apply list_lookup_singleton_Some in Hns as [_ <-]. }
  destruct l; cbn [step] in Hs.
  - case_bool_decide; simplify_eq; [by apply Hsubscribe|]. apply (logged_frame ls _ x); auto using same_log_refl; [|apply same_nats].
    intros n r [?|(ca & Hca & Hat)]; [by left|right]. apply lookup_app_Some in Hca as [Hca|[_ Hca]]; [by exists ca|].
    apply list_lookup_singleton_Some in Hca as [_ <-]. by destruct Hat as [[??]|?].
  - simplify_eq. by apply Hsubscribe.
  - destruct (n_calls x !! n) eqn:?; [|done]. by eapply logged_call_step.
  - destruct (n_mu x) eqn:?; [|done]. by eapply logged_section.
  - destruct (n_subs x !! o) as [u|]; [|done]. destruct (rs_close u), (rs_live u); simplify_eq. by apply Huser.
  - destruct (n_subs x !! o) as [u|]; [|done]. unfold closer_step in Hs. destruct (rs_close u); try done.
    + destruct (n_mu x) eqn:?; simplify_eq. apply (logged_frame ls _ x); auto using same_log_refl; [|apply same_nats].
      intros n r [?|?]; [done|by right].
    + destruct (chan_close _); simplify_eq. by apply Huser.
  - destruct (n_nats x !! k) as [ns|] eqn:?; [|done]. destruct (ns_active ns); simplify_eq. by apply logged_deliver.
  - destruct (n_nats x !! k) as [ns|] eqn:?; [|done]. by eapply logged_callback.
  - destruct (n_subs x !! o) as [u|]; [|done]. destruct (chan_recv _); simplify_eq; [by apply Huser|by apply Hstay].
  - destruct (n_plain x !! p) as [q|]; [|done]. destruct (chan_recv _), (ps_canceled q); simplify_eq; try (by apply Hplain); by apply Hstay.
  - destruct (n_subs x !! o); simplify_eq. by apply Huser.
  - destruct (n_plain x !! p); simplify_eq. by apply Hplain.
  - destruct (n_plain x !! p) as [q|]; simplify_eq. apply (logged_frame ls _ x); auto using same_log_refl; unfold close_sub; fields; [by rewrite length_fmap|].
    intros k ns r Hns Ht. apply list_lookup_fmap_Some in Hns as (ns0 & -> & Hns). exists ns0. split; [done|].
    destruct (ns_target ns0) eqn:Ht0; [|case_decide]; simpl; by rewrite Ht0.
Qed.

Lemma run_logged ls x : run ls New = Some x → logged ls x ∧ wired x.
Proof.
  apply (run_induction (λ ls x, logged ls x ∧ wired x) []); [|split; [apply logged_New|apply wired_New]].
  intros ls0 x0 l x' [G W] Hl. split; [by eapply logged_step|]. pose proof (step_safe l x0 W) as Hs. by rewrite Hl in Hs.
Qed.

(** C28: a subscription with a local channel gets messages for this channel alone, of those
    its router handled since it was opened, in their order, none twice, and none is lost
    unless it was canceled: what it got, with the one about to be written to it, is all
    of them.  Its router has one nats subscription at most, and handles in order the
    messages that nats hands to it, those whose channel cannot be read left out. *)
Theorem nats_router_delivers (ls : list label) (x : transport) (o : nat) (u : routerSubscription) :
  run ls New = Some x → n_subs x !! o = Some u →
  ∃ rt, n_all x !! rs_router u = Some rt ∧
    got u ++ coming rt o `sublist_of` wanted rt u ∧
    (rs_canceled u = false → got u ++ coming rt o = wanted rt u) ∧
    ∀ k ns, n_nats x !! k = Some ns → ns_target ns = ToRouter (rs_router u) →
      rt_sub rt = Some k ∧
      filter (λ m, decodable m = true) (delivered k ls)
        = rt_log rt ++ in_hand ns ++ filter (λ m, decodable m = true) (ns_pending ns).
Proof.
  intros [G W]%run_logged Hu. destruct (v_router _ _ (w_routes _ W) o u Hu) as [rt Hr]. exists rt.
  destruct (v_got _ _ (w_routes _ W) o u rt Hu Hr) as [? ?]. split_and!; [done..|].
  intros k ns Hns Ht. destruct (g_router _ _ G k ns _ Hns Ht) as (rt' & Hr' & ? & ?). by simplify_eq.
Qed.

End arrives.
