(* ===== verification/NatsTable.v ===== *)
(** * NatsTable.v: the nats bus's table of routers

    While nats refuses no subscription there is one nats subscription for a channel, of
    the router that is in the table.  Then what goes wrong: after a refusal, with queues
    whose subscribers share a router, and with a reader that is slow. *)
From S2P Require Import Prelude Errors Bus NatsBus NatsDelivery.

Section table.
Context `{GrpcApi} `{!StatusApi} `{!Codec}.
Implicit Types (x : transport) (ns : natsSub) (u : routerSubscription) (ca : call) (rt : router).

(** The router a section is opening. *)
Definition section_of x (n r : nat) : Prop := ∃ found, n_mu x = Some (SOpen n r found).

Record tabled x : Prop := {
  t_table channel r : n_routers x !! channel = Some r →
    ∃ rt, n_all x !! r = Some rt ∧ rt_channel rt = channel ∧ (rt_routes rt ≠ ∅ ∨ ∃ n, n_mu x = Some (SOpen n r false));
  t_live r rt : n_all x !! r = Some rt → rt_routes rt ≠ ∅ ∨ (∃ n, section_of x n r) → n_routers x !! rt_channel rt = Some r;
  t_sub r rt k : n_all x !! r = Some rt → rt_sub rt = Some k →
    ∃ ns, n_nats x !! k = Some ns ∧ ns_target ns = ToRouter r ∧ ns_subject ns = rt_channel rt ∧ (ns_active ns = true ↔ rt_routes rt ≠ ∅);
  t_opening r rt : n_all x !! r = Some rt → rt_sub rt = None → rt_routes rt ≠ ∅ →
    ∃ n ca o, n_calls x !! n = Some ca ∧ ca_at ca = ANats r o;
  t_call n ca r o : n_calls x !! n = Some ca → ca_at ca = ANats r o → ∃ u, n_subs x !! o = Some u ∧ rs_router u = r ∧ rs_live u = false;
  t_failed n ca r : n_calls x !! n = Some ca → ca_at ca ≠ AFailed r;
  t_closing o u : n_subs x !! o = Some u → rs_live u = false → rs_close u = KNotCalled
}.

Lemma tabled_New : tabled New.
Proof. by split. Qed.

Definition same_routes (rt rt' : router) : Prop :=
  rt_channel rt' = rt_channel rt ∧ rt_routes rt' = rt_routes rt ∧ rt_sub rt' = rt_sub rt.

Definition same_nats_sub ns ns' : Prop :=
  ns_target ns' = ns_target ns ∧ ns_subject ns' = ns_subject ns ∧ ns_active ns' = ns_active ns.

Lemma tabled_frame x x' :
  tabled x → n_routers x' = n_routers x →
  (∀ sec, (∀ n r found, sec = SOpen n r found → n_mu x = Some sec ↔ n_mu x' = Some sec)) →
  Forall2 same_routes (n_all x) (n_all x') →
  (∀ k ns r, n_nats x !! k = Some ns → ns_target ns = ToRouter r → ∃ ns', n_nats x' !! k = Some ns' ∧ same_nats_sub ns ns') →
  (∀ n ca r o, n_calls x !! n = Some ca → ca_at ca = ANats r o → n_calls x' !! n = Some ca) →
  (∀ n ca, n_calls x' !! n = Some ca → n_calls x !! n = Some ca ∨ ((∀ r o, ca_at ca ≠ ANats r o) ∧ ∀ r, ca_at ca ≠ AFailed r)) →
  (∀ o u, n_subs x !! o = Some u → ∃ u', n_subs x' !! o = Some u' ∧ rs_router u' = rs_router u ∧ rs_live u' = rs_live u) →
  (∀ o u', n_subs x' !! o = Some u' → rs_live u' = false → rs_close u' = KNotCalled) →
  tabled x'.
Proof.
  intros [T1 T2 T3 T4 T5 T6 T7] Ht Hmu Hrs Hns Hcs Hcs' Hus Hus'. split.
  - intros ch r. rewrite Ht. intros (rt & Hr & <- & Hcase)%T1.
    destruct (Forall2_lookup_l _ _ _ _ _ Hrs Hr) as (rt' & Hr' & Hc & Ho & _). exists rt'. rewrite Hc, Ho. split_and!; [done..|].
    destruct Hcase as [?|[n Hm]]; [by left|right; exists n]. by apply (Hmu _ n r false).
  - intros r rt' Hr' Hcase. destruct (Forall2_lookup_r _ _ _ _ _ Hrs Hr') as (rt & Hr & Hc & Ho & _). rewrite Ht, Hc.
    apply (T2 r rt Hr). rewrite <- Ho. destruct Hcase as [?|(n & f & Hm)]; [by left|right; exists n, f]. by apply (Hmu _ n r f).
  - intros r rt' k Hr'. destruct (Forall2_lookup_r _ _ _ _ _ Hrs Hr') as (rt & Hr & Hc & Ho & ->). intros Hk.
    destruct (T3 r rt k Hr Hk) as (ns & Hk' & Htg & Hs & Hact). destruct (Hns k ns r Hk' Htg) as (ns' & ? & Hst & Hss & Hsa).
    exists ns'. by rewrite Hst, Hss, Hsa, Hc, Ho.
  - intros r rt' Hr'. destruct (Forall2_lookup_r _ _ _ _ _ Hrs Hr') as (rt & Hr & Hc & -> & ->). intros Hn Hne.
    destruct (T4 r rt Hr Hn Hne) as (n & ca & o & ? & ?). exists n, ca, o. eauto.
  - intros n ca r o Hca Hat. destruct (Hcs' n ca Hca) as [Hca0|[Hno _]]; [|by destruct (Hno r o)].
    destruct (T5 n ca r o Hca0 Hat) as (u & Hu & Hr & Hl). destruct (Hus o u Hu) as (u' & ? & ? & ?). exists u'. split_and!; congruence.
  - intros n ca r Hca. destruct (Hcs' n ca Hca) as [?|[_ ?]]; [by eapply T6|done].
  - done.
Qed.

Lemma same_routes_refl (rs : list router) : Forall2 same_routes rs rs.
Proof. by apply Forall_Forall2_diag, Forall_true. Qed.

Lemma same_routes_insert (rs : list router) r rt rt' : rs !! r = Some rt → same_routes rt rt' → Forall2 same_routes rs (<[r := rt']> rs).
Proof.
  intros Hr Hs. rewrite <- (list_insert_id rs r rt) at 1 by done. apply Forall2_insert; [apply same_routes_refl|done].
Qed.

(** A subscription its user, or a goroutine, moves on. *)
Lemma tabled_user x o u u' :
  tabled x → n_subs x !! o = Some u → rs_router u' = rs_router u → rs_live u' = rs_live u →
  (rs_live u = false → rs_close u = KNotCalled → rs_close u' = KNotCalled) → tabled (set_subs x (<[o := u']> (n_subs x))).
Proof.
  intros T Hu Hr Hl Hk. apply (tabled_frame x); try done; [apply same_routes_refl|by intros; eexists|by left|..]; fields.
  - intros o' u0 Hu0. destruct (decide (o' = o)) as [->|Hne]; [|by exists u0; rewrite list_lookup_insert_ne].
    exists u'. simplify_eq. by rewrite list_lookup_insert_eq by (by eapply lookup_lt_Some).
  - intros o' u0 [[-> ->]|[_ Hu0]]%list_lookup_insert_cases Hl0; [|by apply (t_closing _ T o')].
    apply Hk; [congruence|]. apply (t_closing _ T o); congruence.
Qed.

(** The routers' contents, and one nats subscription, change. *)
Lemma tabled_nats x rs k ns ns' :
  tabled x → Forall2 same_routes (n_all x) rs → n_nats x !! k = Some ns → (∀ r, ns_target ns = ToRouter r → same_nats_sub ns ns') →
  tabled (set_nats (set_all x rs) (<[k := ns']> (n_nats x))).
Proof.
  intros T Hrs Hns Hs. apply (tabled_frame x); try done; [|by left|by intros; eexists|by apply T]; fields.
  intros k' ns0 r Hns0 Ht. destruct (decide (k' = k)) as [->|Hne]; [|by exists ns0; rewrite list_lookup_insert_ne].
  exists ns'. simplify_eq. rewrite list_lookup_insert_eq by (by eapply lookup_lt_Some). split; [done|by apply (Hs r)].
Qed.

Lemma tabled_find_router x n ca :
  tabled x → wired x → n_mu x = None → n_calls x !! n = Some ca → ca_at ca = ALock → tabled (find_router x n ca).
Proof.
  intros T W Hmu Hca Hat.
  assert (Hc : ∀ a, (∀ r o, a ≠ ANats r o) → (∀ r, a ≠ AFailed r) → tabled (set_calls x (<[n := call_at ca a]> (n_calls x)))).
  { intros a Ha1 Ha2. apply (tabled_frame x); try done; [apply same_routes_refl|by intros; eexists|..|by intros; eexists|apply T]; fields.
    - intros n' ca' r o Hca' Hat'. rewrite list_lookup_insert_ne; [done|]. intros ->. simplify_eq. congruence.
    - intros n' ca' [[-> ->]|[_ ?]]%list_lookup_insert_cases; [right; by split|by left]. }
  unfold find_router. destruct (n_routers x !! _) as [r|] eqn:Hr.
  - destruct (n_all x !! r) as [rt|] eqn:Hrt; [|done]. case_bool_decide; [|by apply Hc].
    destruct (Hc ALocked) as [T1 T2 T3 T4 T5 T6 T7]; [done..|]. destruct (t_table _ T _ _ Hr) as (rt0 & ? & Hch & _). simplify_eq.
    split; try done.
    + intros ch r' Hr'. destruct (T1 ch r' Hr') as (rt' & ? & ? & [?|[n' Hn']]); [|by simpl in Hn'; congruence]. exists rt'. auto.
    + intros r' rt' Hr' [?|(n' & f & Hsec)]; [by apply (T2 r'); auto|]. simpl in Hsec. simplify_eq/=. congruence.
  - destruct (Hc ALocked) as [T1 T2 T3 T4 T5 T6 T7]; [done..|]. set (rt := MkRouter _ _ _ _ _ _ _).
    assert (Hnew : ∀ r rt', (n_all x ++ [rt]) !! r = Some rt' → n_all x !! r = Some rt' ∨ (r = length (n_all x) ∧ rt' = rt)).
    { intros r rt' [?|[Hle Hz]]%lookup_app_Some; [by left|right]. apply list_lookup_singleton_Some in Hz as [? <-]. split; [lia|done]. }
    split; fields.
    + intros ch r' [[<- <-]|[Hne Hr']]%lookup_insert_Some.
      * exists rt. rewrite lookup_app_r, Nat.sub_diag by lia. split_and!; [done..|right; by exists n].
      * destruct (T1 ch r' Hr') as (rt' & Hrt' & ? & [?|[n' Hn']]); [|by simpl in Hn'; congruence]. exists rt'.
        split; [by apply lookup_app_l_Some|auto].
    + intros r' rt' [Hr'|[-> ->]]%Hnew Hcase; [|by rewrite lookup_insert_eq].
      assert (Hne : rt_routes rt' ≠ ∅).
      { destruct Hcase as [?|(n' & f & Hsec)]; [done|]. simpl in Hsec. apply lookup_lt_Some in Hr'. simplify_eq. lia. }
      pose proof (T2 r' rt' Hr' (or_introl Hne)) as Ht. simpl in Ht. rewrite lookup_insert_ne; [done|]. congruence.
    + intros r' rt' k [Hr'|[-> ->]]%Hnew; [by apply T3|done].
    + intros r' rt' [Hr'|[-> ->]]%Hnew; [by apply T4|done].
    + exact T5.
    + exact T6.
    + exact T7.
Qed.

Lemma open_routes rt channel o : rt_routes (open rt channel o) ≠ ∅.
Proof. simpl. apply insert_non_empty. Qed.

Lemma tabled_open_section ls x n r found ca rt :
  tabled x → logged ls x → wired x → n_mu x = Some (SOpen n r found) → n_calls x !! n = Some ca → n_all x !! r = Some rt →
  tabled (open_section x n r found ca rt).
Proof.
  intros [T1 T2 T3 T4 T5 T6 T7] G W Hmu Hca Hr. unfold open_section.
  assert (Hat : ca_at ca = ALocked) by (destruct (w_mu _ W _ Hmu) as [(ca' & ? & ?) _]; by simplify_eq).
  pose proof (T2 r rt Hr (or_intror (ex_intro _ n (ex_intro _ found Hmu)))) as Htab.
  assert (Hfound : found = true → rt_routes rt ≠ ∅).
  { intros ->. destruct (T1 _ _ Htab) as (rt0 & ? & _ & [?|[n' Hn']]); simplify_eq; done. }
  assert (Hin : ∀ r' rt', <[r := open rt (ch_Local (ca_channel ca)) (length (n_subs x))]> (n_all x) !! r' = Some rt' →
    (r' = r ∧ rt' = open rt (ch_Local (ca_channel ca)) (length (n_subs x))) ∨ (r' ≠ r ∧ n_all x !! r' = Some rt')).
  { intros r' rt'. apply list_lookup_insert_cases. }
  pose proof (open_routes rt (ch_Local (ca_channel ca)) (length (n_subs x))) as Hopen.
  assert (Hcall : ∀ n' ca' r' o, n_calls x !! n' = Some ca' → ca_at ca' = ANats r' o → n' ≠ n) by (intros; intros ->; simplify_eq; congruence).
  split; fields.
  - intros ch r' Hr'. destruct (T1 ch r' Hr') as (rt' & Hrt' & Hc & Hcase). destruct (decide (r' = r)) as [->|Hne].
    + eexists. rewrite list_lookup_insert_eq by (by eapply lookup_lt_Some). simplify_eq. split_and!; [done..|by left].
    + exists rt'. rewrite list_lookup_insert_ne by done. split_and!; [done..|left]. destruct Hcase as [?|[n' ?]]; [done|congruence].
  - intros r' rt' [[-> ->]|[Hne Hr']]%Hin Hcase; [done|]. apply (T2 r' rt' Hr'). left.
    destruct Hcase as [?|(n' & f & Hsec)]; done.
  - intros r' rt' k [[-> ->]|[Hne Hr']]%Hin; [|by apply T3]. simpl. intros Hk. destruct (T3 r rt k Hr Hk) as (ns & ? & ? & ? & Hact).
    exists ns. split_and!; [done..|]. split; [done|]. intros _. apply Hact. destruct found; [by apply Hfound|].
    destruct (g_opens _ _ G n r (or_introl Hmu)) as (rt0 & ? & ?). by simplify_eq.
  - intros r' rt' [[-> ->]|[Hne Hr']]%Hin Hk Hnn.
    + destruct found.
      * destruct (T4 r rt Hr Hk (Hfound eq_refl)) as (n' & ca' & o' & Hca' & Hat'). exists n', ca', o'.
        rewrite list_lookup_insert_ne; [done|]. by apply not_eq_sym, (Hcall n' ca' r o').
      * exists n. eexists _, _. rewrite list_lookup_insert_eq by (by eapply lookup_lt_Some). done.
    + destruct (T4 r' rt' Hr' Hk Hnn) as (n' & ca' & o' & Hca' & Hat'). exists n', ca', o'.
      rewrite list_lookup_insert_ne; [done|]. by apply not_eq_sym, (Hcall n' ca' r' o').
  - intros n' ca' r' o [[-> ->]|[_ Hca']]%list_lookup_insert_cases Hat'.
    + destruct found; [done|]. simpl in Hat'. simplify_eq. eexists. rewrite lookup_app_r, Nat.sub_diag by lia. done.
    + destruct (T5 n' ca' r' o Hca' Hat') as (u & ? & ?). exists u. split; [by apply lookup_app_l_Some|done].
  - intros n' ca' r' [[-> ->]|[_ Hca']]%list_lookup_insert_cases; [by destruct found|by eapply T6].
  - intros o u [?|[_ Hu]]%lookup_app_Some; [by eapply T7|]. by apply list_lookup_singleton_Some in Hu as [_ <-].
Qed.

Lemma tabled_answers ls x n r o ca rt u :
  tabled x → logged ls x → wired x → n_calls x !! n = Some ca → ca_at ca = ANats r o → n_all x !! r = Some rt → n_subs x !! o = Some u →
  tabled (nats_answers x n r o ca rt u false).
Proof.
  intros [T1 T2 T3 T4 T5 T6 T7] G W Hca Hat Hr Hu. unfold nats_answers.
  assert (Hne : rt_routes rt ≠ ∅).
  { destruct (T5 n ca r o Hca Hat) as (u0 & Hu0 & Hur & Hl). rewrite Hu0 in Hu. simplify_eq. pose proof (T7 o u Hu0 Hl) as Hk.
    destruct (v_registered _ _ (w_routes _ W) o u rt Hu0 ltac:(by rewrite Hk) Hr) as (os & Hos & _). intros He. by rewrite He, lookup_empty in Hos. }
  assert (Hsame : ∀ n' ca' r' o', n_calls x !! n' = Some ca' → ca_at ca' = ANats r' o' → r' = r → n' = n).
  { intros n' ca' r' o' Hca' Hat' ->. apply (g_opener _ _ G n n' r); right; eauto 10. }
  split; fields.
  - intros ch r' Hr'. destruct (T1 ch r' Hr') as (rt' & Hrt' & Hc & Hcase). destruct (decide (r' = r)) as [->|Hner].
    + eexists. rewrite list_lookup_insert_eq by (by eapply lookup_lt_Some). simplify_eq. split_and!; [done..|left; exact Hne].
    + exists rt'. by rewrite list_lookup_insert_ne.
  - intros r' rt' [[-> ->]|[Hner Hr']]%list_lookup_insert_cases Hcase; [by apply (T2 r rt Hr)|by apply (T2 r')].
  - intros r' rt' k [[-> ->]|[Hner Hr']]%list_lookup_insert_cases Hk.
    + simpl in Hk. simplify_eq. eexists. rewrite lookup_app_r, Nat.sub_diag by lia. done.
    + destruct (T3 r' rt' k Hr' Hk) as (ns & ? & ?). exists ns. split; [by apply lookup_app_l_Some|done].
  - intros r' rt' [[-> ->]|[Hner Hr']]%list_lookup_insert_cases Hk Hn; [done|].
    destruct (T4 r' rt' Hr' Hk Hn) as (n' & ca' & o' & Hca' & Hat'). exists n', ca', o'. rewrite list_lookup_insert_ne; [done|].
    intros <-. simplify_eq. congruence.
  - intros n' ca' r' o' [[-> ->]|[Hnen Hca']]%list_lookup_insert_cases Hat'; [done|].
    destruct (T5 n' ca' r' o' Hca' Hat') as (u' & Hu' & Hr' & Hl). destruct (decide (o' = o)) as [->|Hneo].
    + exfalso. destruct (T5 n ca r o Hca Hat) as (u0 & Hu0 & Hr0 & _). apply Hnen, (Hsame n' ca' r' o); [done..|congruence].
    + exists u'. by rewrite list_lookup_insert_ne.
  - intros n' ca' r' [[-> ->]|[_ Hca']]%list_lookup_insert_cases; [done|by eapply T6].
  - intros o' u' [[-> ->]|[_ Hu']]%list_lookup_insert_cases; [done|by eapply T7].
Qed.

(** Where a router is left without routes. *)
Lemma close_last rt channel o os :
  rt_routes rt !! channel = Some os → o ∈ os → ((close rt channel o).2 = true ↔ rt_routes (close rt channel o).1 = ∅).
Proof.
  intros Hos Ho. unfold close. rewrite Hos. simpl. rewrite decide_True by done. destruct (remove o os); simpl.
  - by rewrite bool_decide_eq_true.
  - split; [done|]. intros Hi. by apply insert_non_empty in Hi.
Qed.

Lemma tabled_close_section x o u rt :
  tabled x → wired x → n_mu x = Some (SClose o) → n_subs x !! o = Some u → rs_close u = KLocked →
  n_all x !! rs_router u = Some rt → tabled (close_section x o u rt).
Proof.
  intros [T1 T2 T3 T4 T5 T6 T7] W Hmu Hu Hk Hr.
  destruct (v_registered _ _ (w_routes _ W) o u rt Hu ltac:(by rewrite Hk) Hr) as (os & Hos & Ho).
  assert (Hne : rt_routes rt ≠ ∅) by (intros He; by rewrite He, lookup_empty in Hos).
  pose proof (T2 _ rt Hr (or_introl Hne)) as Htab. pose proof (close_last rt (rs_channel u) o os Hos Ho) as Hlast.
  assert (Hch : rt_channel (close rt (rs_channel u) o).1 = rt_channel rt ∧ rt_sub (close rt (rs_channel u) o).1 = rt_sub rt).
  { unfold close. rewrite Hos. simpl. rewrite decide_True by done. by destruct (remove o os). }
  unfold close_section. destruct (close rt (rs_channel u) o) as [rt' last]. simpl in Hlast, Hch. destruct Hch as [Hch Hsub].
  assert (Hin : ∀ r1 rt1, <[rs_router u := rt']> (n_all x) !! r1 = Some rt1 →
    (r1 = rs_router u ∧ rt1 = rt') ∨ (r1 ≠ rs_router u ∧ n_all x !! r1 = Some rt1)) by (intros r1 rt1; apply list_lookup_insert_cases).
  assert (Hus : ∀ n ca r o', n_calls x !! n = Some ca → ca_at ca = ANats r o' →
    ∃ u', <[o := with_close u KCloseChan (rs_canceled u)]> (n_subs x) !! o' = Some u' ∧ rs_router u' = r ∧ rs_live u' = false).
  { intros n ca r o' Hca Hat. destruct (T5 n ca r o' Hca Hat) as (u' & Hu' & Hr' & Hl). exists u'. rewrite list_lookup_insert_ne; [done|].
    intros ->. rewrite Hu in Hu'. simplify_eq. rewrite (T7 o' u' Hu Hl) in Hk. done. }
  assert (Hcl : ∀ o' u', <[o := with_close u KCloseChan (rs_canceled u)]> (n_subs x) !! o' = Some u' → rs_live u' = false → rs_close u' = KNotCalled).
  { intros o' u' [[-> ->]|[_ Hu']]%list_lookup_insert_cases Hl; [|by apply (T7 o')]. simpl in Hl. rewrite (T7 o u Hu Hl) in Hk. done. }
  assert (Hnil : ∀ r1 rt1, n_all x !! r1 = Some rt1 → rt_sub rt1 = None → rt_routes rt1 ≠ ∅ → ∃ n ca o, n_calls x !! n = Some ca ∧ ca_at ca = ANats r1 o) by done.
  destruct last; split; fields; try done.
  - intros ch r1 [Hnech Hr1]%lookup_delete_Some. destruct (T1 ch r1 Hr1) as (rt1 & Hrt1 & Hc1 & Hcase). exists rt1.
    rewrite list_lookup_insert_ne by (intros <-; simplify_eq). split_and!; [done..|left]. destruct Hcase as [?|[n ?]]; [done|congruence].
  - intros r1 rt1 [[-> ->]|[Hner Hr1]]%Hin Hcase.
    + exfalso. destruct Hcase as [Hn|(n & f & Hsec)]; [apply Hn; by apply Hlast|done].
    + assert (Hn : rt_routes rt1 ≠ ∅) by (by destruct Hcase as [?|(n & f & Hsec)]).
      pose proof (T2 r1 rt1 Hr1 (or_introl Hn)) as Ht1. rewrite lookup_delete_ne; [done|]. congruence.
  - assert (Hempty : rt_routes rt' = ∅) by (by apply Hlast). intros r1 rt1 k [[-> ->]|[Hner Hr1]]%Hin Hk1.
    + rewrite Hsub in Hk1. destruct (T3 _ rt k Hr Hk1) as (ns & Hns & ? & Hs & Hact). exists (unsubscribed ns).
      unfold Unsubscribe. rewrite Hk1, list_lookup_alter_eq, Hns, Hch. split_and!; [done..|]. by rewrite Hempty.
    + destruct (T3 r1 rt1 k Hr1 Hk1) as (ns & Hns & Htg & ? & ?). exists ns. split; [|done]. unfold Unsubscribe.
      destruct (rt_sub rt) as [k'|] eqn:Hk'; [|done]. rewrite list_lookup_alter_ne; [done|]. intros ->.
      destruct (T3 _ rt k Hr Hk') as (ns' & ? & ? & _). simplify_eq; congruence.
  - intros r1 rt1 [[-> ->]|[_ Hr1]]%Hin Hn1 Hn2; [|by apply (T4 r1 rt1)]. by rewrite (proj1 Hlast eq_refl) in Hn2.
  - intros ch r1 Hr1. destruct (T1 ch r1 Hr1) as (rt1 & Hrt1 & Hc1 & Hcase). destruct (decide (r1 = rs_router u)) as [->|Hner].
    + exists rt'. rewrite list_lookup_insert_eq by (by eapply lookup_lt_Some). simplify_eq. split_and!; [done..|left].
      intros He. by apply Hlast in He.
    + exists rt1. rewrite list_lookup_insert_ne by done. split_and!; [done..|left]. destruct Hcase as [?|[n ?]]; [done|congruence].
  - intros r1 rt1 [[-> ->]|[Hner Hr1]]%Hin Hcase; [by rewrite Hch|]. apply (T2 r1 rt1 Hr1). left.
    by destruct Hcase as [?|(n & f & Hsec)].
  - intros r1 rt1 k [[-> ->]|[Hner Hr1]]%Hin Hk1; [|by apply T3]. rewrite Hsub in Hk1.
    destruct (T3 _ rt k Hr Hk1) as (ns & Hns & ? & Hs & Hact). exists ns. rewrite Hch. split_and!; [done..|].
    rewrite Hact. split; [|done]. intros _ He. by apply Hlast in He.
  - intros r1 rt1 [[-> ->]|[_ Hr1]]%Hin Hn1 Hn2; [|by apply (T4 r1 rt1)]. rewrite Hsub in Hn1. by apply (T4 _ rt).
Qed.

(** What nats does not refuse. *)
Definition accepted (l : label) : bool := match l with LCall _ true => false | _ => true end.

Lemma tabled_callback x k ns drop x' :
  tabled x → wired x → n_nats x !! k = Some ns → callback_step x k ns drop = Next x' → tabled x'.
Proof.
  intros T W Hns Hs. unfold callback_step, take, router_write in Hs.
  assert (Hk : ∀ rs rest cb log, Forall2 same_routes (n_all x) rs → tabled (set_nats (set_all x rs) (<[k := with_callback ns rest cb log]> (n_nats x)))).
  { intros rs rest cb log Hrs. by apply (tabled_nats x rs k ns). }
  assert (Hps : ∀ rest cb log ps, tabled (set_nats (set_plain x ps) (<[k := with_callback ns rest cb log]> (n_nats x)))).
  { intros rest cb log ps. destruct (Hk (n_all x) rest cb log (same_routes_refl _)). by split. }
  destruct (ns_callback ns) as [|m channel| |m].
  - destruct (ns_pending ns) as [|m rest]; [done|]. destruct (ns_active ns); [|done]. destruct (ns_target ns) as [r|p].
    + destruct (DecodeLocalChannel _); simplify_eq; apply (Hps _ _ _ (n_plain x)).
    + destruct (n_plain x !! p) as [q|]; [|done]. destruct (accepts q m); simplify_eq; apply (Hps _ _ _ (n_plain x)).
  - destruct (ns_target ns) as [r|p]; [|done]. destruct (n_all x !! r) as [rt|] eqn:Hr; [|done].
    destruct (rt_writing rt); simplify_eq. by apply Hk, (same_routes_insert _ _ rt).
  - destruct (ns_target ns) as [r|p]; [|done]. destruct (n_all x !! r) as [rt|] eqn:Hr; [|done].
    destruct (rt_writing rt) as [[m [|o rest]]|]; [| |done].
    + simplify_eq. by apply Hk, (same_routes_insert _ _ rt).
    + destruct (n_subs x !! o) as [u|] eqn:Hu; [|done]. destruct (write_chan _ _ _ _) as [[c|]|]; simplify_eq.
      assert (T' : tabled (set_subs x (<[o := with_msgChan u c (rs_close u) (rs_read u)]> (n_subs x)))) by (by apply (tabled_user x o u)).
      eapply tabled_frame; [exact T'|..]; try done; [by apply (same_routes_insert _ _ rt)|by intros; eexists|by left|by intros; eexists|apply T'].
  - destruct (ns_target ns) as [r|p]; [done|]. destruct (n_plain x !! p) as [q|]; [|done].
    destruct (write_chan _ _ _ _) as [[c|]|]; simplify_eq. apply Hps.
Qed.

Lemma tabled_step ls x l x' : tabled x → logged ls x → wired x → accepted l = true → step l x = Next x' → tabled x'.
Proof.
  intros T G W Hl Hs. pose proof (t_failed _ T) as T6.
  assert (Hother : ∀ ps ks, (∀ k ns r, n_nats x !! k = Some ns → ns_target ns = ToRouter r → ks !! k = Some ns) → tabled (set_nats (set_plain x ps) ks)).
  { intros ps ks Hks. apply (tabled_frame x); try done; [apply same_routes_refl| |by left|by intros; eexists|apply T].
    intros k ns r Hns Ht. exists ns. split; [by eapply Hks|done]. }
  assert (Hsubscribe : ∀ s size queue inbox fails, tabled (subscribe x s size queue inbox fails)).
  { intros s size queue inbox fails. unfold subscribe. destruct fails; [done|]. apply Hother. intros. by apply lookup_app_l_Some. }
  assert (Huser : ∀ o u u', n_subs x !! o = Some u → rs_router u' = rs_router u → rs_live u' = rs_live u →
    (rs_live u = false → rs_close u = KNotCalled → rs_close u' = KNotCalled) → tabled (set_subs x (<[o := u']> (n_subs x)))).
  { intros. by eapply tabled_user. }
  destruct l; cbn [step] in Hs.
  - case_bool_decide; simplify_eq; [apply Hsubscribe|]. apply (tabled_frame x); try done; fields; [apply same_routes_refl|by intros; eexists|..|by intros; eexists|apply T].
    + intros. by apply lookup_app_l_Some.
    + intros n ca [?|[_ Hca]]%lookup_app_Some; [by left|right]. apply list_lookup_singleton_Some in Hca as [_ <-]. done.
  - simplify_eq. apply Hsubscribe.
  - destruct (n_calls x !! n) as [ca|] eqn:Hca; [|done]. unfold call_step in Hs. destruct (ca_at ca) as [| |r o|r|] eqn:Hat; try done.
    + destruct (n_mu x) eqn:Hmu; simplify_eq. by apply tabled_find_router.
    + destruct (n_all x !! r) as [rt|] eqn:Hr; [|done]. destruct (n_subs x !! o) as [u|] eqn:Hu; simplify_eq.
      destruct fails; [done|]. by eapply tabled_answers.
    + by destruct (T6 n ca r Hca).
  - destruct (n_mu x) as [[n r found|o]|] eqn:Hmu; [..|done]; simpl in Hs.
    + destruct (n_calls x !! n) as [ca|] eqn:Hca; [|done]. destruct (n_all x !! r) as [rt|] eqn:Hr; [|done].
      destruct (rt_writing rt); simplify_eq. by eapply tabled_open_section.
    + destruct (w_mu _ W _ Hmu) as (u & Hu & Hk). rewrite Hu in Hs. destruct (n_all x !! rs_router u) as [rt|] eqn:Hr; [|done].
      destruct (rt_writing rt); simplify_eq. by apply tabled_close_section.
  - destruct (n_subs x !! o) as [u|] eqn:Hu; [|done]. destruct (rs_close u), (rs_live u) eqn:Hlv; simplify_eq.
    eapply Huser; [done..|]. congruence.
  - destruct (n_subs x !! o) as [u|] eqn:Hu; [|done]. unfold closer_step in Hs. destruct (rs_close u) eqn:Hk; try done.
    + destruct (n_mu x) eqn:Hmu; simplify_eq.
      assert (T' : tabled (set_subs x (<[o := with_close u KLocked (rs_canceled u)]> (n_subs x)))) by (eapply Huser; [done..|]; congruence).
      eapply tabled_frame; [exact T'|..]; try done; [|apply same_routes_refl|by intros; eexists|by left|by intros; eexists|apply T'].
      fields. rewrite Hmu. naive_solver.
    + destruct (chan_close _); simplify_eq. eapply Huser; [done..|]. congruence.
  - destruct (n_nats x !! k) as [ns|] eqn:Hns; [|done]. destruct (ns_active ns); simplify_eq.
    pose proof (tabled_nats x (n_all x) k ns (with_callback ns (ns_pending ns ++ [m]) (ns_callback ns) (ns_log ns)) T (same_routes_refl _) Hns) as Hn.
    by apply Hn.
  - destruct (n_nats x !! k) as [ns|] eqn:Hns; [|done]. by eapply tabled_callback.
  - destruct (n_subs x !! o) as [u|] eqn:Hu; [|done]. destruct (chan_recv _); simplify_eq; [by eapply Huser|done].
  - destruct (n_plain x !! p) as [q|]; [|done].
    assert (∀ ps, tabled (set_plain x ps)) by (intros ps; by apply (Hother ps (n_nats x))).
    destruct (chan_recv _), (ps_canceled q); by simplify_eq.
  - destruct (n_subs x !! o) as [u|] eqn:Hu; simplify_eq. by eapply Huser.
  - destruct (n_plain x !! p) as [q|]; simplify_eq. by apply (Hother _ (n_nats x)).
  - destruct (n_plain x !! p) as [q|]; simplify_eq. apply Hother. intros k ns r Hns Ht. rewrite list_lookup_fmap, Hns. simpl. by rewrite Ht.
Qed.

Lemma reachable_tabled ls x : run ls New = Some x → forallb accepted ls = true → tabled x.
Proof.
  intros Hr Hacc.
  assert (Hp : (logged ([] ++ ls) x ∧ wired x) ∧ (forallb accepted ([] ++ ls) = true → tabled x)).
  { apply (run_induction (λ ls x, (logged ls x ∧ wired x) ∧ (forallb accepted ls = true → tabled x)) [] New); [|..|done].
    - intros ls0 x0 l x' [[G W] T] Hl. split; [split; [by eapply logged_step|]|].
      + pose proof (step_safe l x0 W) as Hs. by rewrite Hl in Hs.
      + rewrite forallb_app. simpl. rewrite andb_true_r. intros [Ha Hb]%andb_prop. eapply tabled_step; eauto.
    - split; [split; [apply logged_New|apply wired_New]|]. intros _. apply tabled_New. }
  by apply Hp.
Qed.

(** C29: while nats refuses no router's subscription, the table is exact, in any
    interleaving of calls, closes and callbacks: a router with routes is the one in the
    table for its channel, so that no two of them share a channel; it has an active nats
    subscription for this channel, or a call under way that is making it; and a router
    whose last route is gone has none, and is not in the table. *)
Theorem nats_table_exact (ls : list label) (x : transport) (r : nat) (rt : router) :
  run ls New = Some x → forallb accepted ls = true → n_all x !! r = Some rt → n_mu x = None →
  (rt_routes rt ≠ ∅ ↔ n_routers x !! rt_channel rt = Some r) ∧
  (rt_routes rt ≠ ∅ → match rt_sub rt with
     | Some k => ∃ ns, n_nats x !! k = Some ns ∧ ns_target ns = ToRouter r ∧ ns_subject ns = rt_channel rt ∧ ns_active ns = true
     | None => ∃ n ca o, n_calls x !! n = Some ca ∧ ca_at ca = ANats r o end) ∧
  (∀ k ns, n_nats x !! k = Some ns → ns_target ns = ToRouter r → ns_active ns = true → n_routers x !! ns_subject ns = Some r).
Proof.
  intros Hr Hacc Hrt Hmu. pose proof (reachable_tabled ls x Hr Hacc) as T. apply run_logged in Hr as [G W]. split_and!.
  - split; [intros Hn; apply (t_live _ T r rt Hrt); by left|]. intros Ht.
    destruct (t_table _ T _ _ Ht) as (rt' & ? & _ & [?|[n ?]]); by simplify_eq.
  - intros Hn. destruct (rt_sub rt) as [k|] eqn:Hk.
    + destruct (t_sub _ T r rt k Hrt Hk) as (ns & ? & ? & ? & Hact). exists ns. split_and!; [done..|by apply Hact].
    + by apply (t_opening _ T r rt).
  - intros k ns Hns Ht Hact. destruct (g_router _ _ G k ns r Hns Ht) as (rt' & ? & Hk & _). simplify_eq.
    destruct (t_sub _ T r rt k Hrt Hk) as (ns' & ? & _ & Hs & Hiff). simplify_eq. rewrite Hs. apply (t_live _ T r rt Hrt). left. by apply Hiff.
Qed.
End table.

(** ** Where the bus does less than it means to, and witnesses *)

Section examples.
#[local] Existing Instances grpc_numbers example_status.
#[local] Existing Instances Bus.Example.codec Bus.Example.gzip.
#[local] Open Scope nat_scope.

Definition message_for (local : string) : natsMsg :=
  let msg : message := ("internal.Request", []) in
  MkNatsMsg "s" (match serialize msg local None with Ok b => b | Err _ => [] end) "".
#[local] Abbreviation channel_of := (λ local : string, MkChannel "" "s" local).
(** A call of [Subscribe] up to nats's answer, which it takes where it made the router;
    and what the callback of a nats subscription does. *)
#[local] Abbreviation opening := (λ n local queue, [LSubscribe (channel_of local) 1 queue false; LCall n false; LSection]).
#[local] Abbreviation opened := (λ n local queue, opening n local queue ++ [LCall n false]).
#[local] Abbreviation callbacks := (λ k n, replicate n (LCallback k false)).

(** Two queue subscribers that share a router: both get the message, which is for one of
    all the queue's subscribers. *)
#[local] Abbreviation queues := (opened 0 "a" true ++ opening 1 "a" true ++ [LDeliver 0 (message_for "a")] ++ callbacks 0 5).

Theorem nats_queue_duplicates :
  ∃ x u0 u1, run queues New = Some x ∧ n_subs x !! 0 = Some u0 ∧ n_subs x !! 1 = Some u1 ∧
    got u0 = [message_for "a"] ∧ got u1 = [message_for "a"].
Proof. vm_compute. by eexists _, _, _. Qed.

(** A subscription made while nats is refusing its router's stays without a nats
    subscription: it gets nothing, and its user was given no error. *)
#[local] Abbreviation refused := (opening 0 "a" false ++ opening 1 "a" false ++ [LCall 0 true; LCall 0 false]).

Theorem nats_deaf_subscriber :
  ∃ x ca rt, run refused New = Some x ∧ n_calls x !! 1 = Some ca ∧ ca_at ca = AReturned (Some 1) ∧
    n_all x !! 0 = Some rt ∧ rt_sub rt = None ∧ rt_routes rt !! "a" = Some [0; 1] ∧ n_routers x !! "s" = None ∧ n_nats x = [].
Proof. vm_compute. by eexists _, _, _. Qed.

(** A reader that does not read blocks its router's callback, which keeps the lock; a
    [Close] of another of the router's subscriptions waits for it with the transport's
    lock, and so every call of [Subscribe] with a local channel waits. *)
#[local] Abbreviation stuck :=
  (opened 0 "a" false ++ opening 1 "b" false ++ [LDeliver 0 (message_for "a"); LDeliver 0 (message_for "a")]
   ++ callbacks 0 6 ++ [LClose 1; LCloser 1; LSubscribe (MkChannel "" "other" "c") 1 false false]).

Theorem nats_slow_reader_blocks :
  ∃ x, run stuck New = Some x ∧ step (LCallback 0 false) x = Blocked ∧ step (LCallback 0 true) x = Blocked ∧
    step LSection x = Blocked ∧ step (LCall 2 false) x = Blocked.
Proof. eexists. split; [vm_compute; reflexivity|]. vm_compute. auto. Qed.

(** Two subscriptions of a channel: one reads, the other is canceled; and it is closed. *)
#[local] Abbreviation shared :=
  (opened 0 "a" false ++ opening 1 "b" false ++ [LDeliver 0 (message_for "a"); LDeliver 0 (message_for "b")]
   ++ callbacks 0 8 ++ [LRead 0; LClose 1; LCloser 1; LSection]).

Lemma nats_never_panics_witness : ∃ x, run shared New = Some x ∧ step (LCloser 1) x ≠ Panic.
Proof.
  assert (is_Some (run shared New)) as [x Hx] by (vm_compute; by eexists).
  exists x. split; [exact Hx|]. exact (nats_never_panics shared x (LCloser 1) Hx).
Defined.

Lemma nats_router_delivers_witness : ∃ x u, run shared New = Some x ∧ n_subs x !! 0 = Some u ∧ got u = [message_for "a"] ∧
  ∃ rt, n_all x !! rs_router u = Some rt ∧
    got u ++ coming rt 0 `sublist_of` wanted rt u ∧
    (rs_canceled u = false → got u ++ coming rt 0 = wanted rt u) ∧
    ∀ k ns, n_nats x !! k = Some ns → ns_target ns = ToRouter (rs_router u) →
      rt_sub rt = Some k ∧
      filter (λ m, decodable m = true) (delivered k shared)
        = rt_log rt ++ in_hand ns ++ filter (λ m, decodable m = true) (ns_pending ns).
Proof.
  assert (∃ x u, run shared New = Some x ∧ n_subs x !! 0 = Some u ∧ got u = [message_for "a"]) as (x & u & Hx & Hu & Hg)
    by (vm_compute; by eexists _, _).
  exists x, u. split; [exact Hx|]. split; [exact Hu|]. split; [exact Hg|]. exact (nats_router_delivers shared x 0 u Hx Hu).
Defined.

Lemma nats_table_exact_witness : ∃ x rt, run shared New = Some x ∧ n_all x !! 0 = Some rt ∧
  (rt_routes rt ≠ ∅ ↔ n_routers x !! rt_channel rt = Some 0) ∧
  (rt_routes rt ≠ ∅ → match rt_sub rt with
     | Some k => ∃ ns, n_nats x !! k = Some ns ∧ ns_target ns = ToRouter 0 ∧ ns_subject ns = rt_channel rt ∧ ns_active ns = true
     | None => ∃ n ca o, n_calls x !! n = Some ca ∧ ca_at ca = ANats 0 o end) ∧
  (∀ k ns, n_nats x !! k = Some ns → ns_target ns = ToRouter 0 → ns_active ns = true → n_routers x !! ns_subject ns = Some 0).
Proof.
  assert (∃ x rt, run shared New = Some x ∧ n_all x !! 0 = Some rt ∧ n_mu x = None) as (x & rt & Hx & Hr & Hm)
    by (vm_compute; by eexists _, _).
  exists x, rt. split; [exact Hx|]. split; [exact Hr|].
  exact (nats_table_exact shared x 0 rt Hx ltac:(vm_compute; reflexivity) Hr Hm).
Defined.
End examples.
