(* ===== verification/ClientStream.v ===== *)
(** * ClientStream.v: the streams of a client ([src/pkg/client/stream.go], and the stream
    messages of [client.go]'s loop)

    The loop that reads the client's subscriptions, the goroutines in [OpenStream], and
    for each stream its [runClientStream] and what its user does, in all their
    interleavings.  A stream is [StreamCore]'s: its steps are steps here, and closing it
    takes it out of [streamChannels].  [StreamOpen] has an [OpenStream] as
    one function.

    The subscriptions are their channels.  Of the loop's messages this has the streams'
    and the claims; [Router] has the requests'. *)
From S2P Require Import Prelude Errors Bus Info Metadata Interceptors Float32 Options Messages Selection ClientRPC StreamCore StreamOpen.

Section client_stream.
Context `{GrpcApi} `{!StatusApi} `{!Codec} {T : carried} (itoa : Z → string) (cl : RPCClient T) (recvType : string).

(** [runClientStream]: at its [select], in the call of [HandleStream], in the stream's
    [Close] (its closer [c]), or returned. *)
Inductive floop : Type :=
| FSelect
| FHandling
| FClosing (c : nat)
| FReturned.

(** An [OpenStream] from its publication on: before it, in [selectServerUntil], before it
    publishes its decision for a server, waiting for the acknowledgement, in the stream's
    [Close] with the error to return, in the deferred function, or returned. *)
Inductive otask : Type :=
| TPublish
| TSelect (v : vars)
| TGrant (serverID : string)
| TAck
| TClosing (c : nat) (err : error)
| TLeaving (err : option error)
| TOver (err : option error).

(** What [OpenStream] makes: the stream with its [streamChannels] ([closed] is closed when
    the stream's adapter is), and the channel in [claimRequests].  The rest is a record:
    the decisions it published, how much the client's loop had read when it was entered,
    and what its own loop took. *)
Record cstream : Type := MkCStream {
  cs_open : opening (T := T);
  cs_st : st;
  cs_recvChan : chan StreamMsg;
  cs_claimChan : chan ClaimRequest;
  cs_loop : floop;
  cs_task : otask;
  cs_grants : list ClaimResponse;
  cs_since : nat;
  cs_taken : list StreamMsg
}.

(** The client's loop: at its [select], sending on the channel of a stream or of a
    claim's request, or returned. *)
Inductive rloop : Type :=
| RSelect
| RStream (n : nat) (msg : StreamMsg)
| RClaim (n : nat) (claim : ClaimRequest)
| RReturned.

Record sys : Type := MkSys {
  x_closed : bool;
  x_streamSub : chan StreamMsg;
  x_claimSub : chan ClaimRequest;
  x_loop : rloop;
  x_streamChannels : gmap string nat;
  x_claimRequests : gmap string nat;
  x_streams : list cstream;
  x_read : list StreamMsg
}.

Definition channelSize : nat := Z.to_nat (co_ChannelSize (c_Opts cl)).

Definition start : sys := MkSys false (make_chan channelSize) (make_chan channelSize) RSelect ∅ ∅ [] [].

Inductive outcome : Type :=
| Next (x : sys)
| Blocked
| Panic.

Definition set_loop (x : sys) (l : rloop) : sys :=
  MkSys (x_closed x) (x_streamSub x) (x_claimSub x) l (x_streamChannels x) (x_claimRequests x) (x_streams x) (x_read x).
Definition set_closed (x : sys) : sys :=
  MkSys true (x_streamSub x) (x_claimSub x) (x_loop x) (x_streamChannels x) (x_claimRequests x) (x_streams x) (x_read x).
Definition set_subs (x : sys) (ss : chan StreamMsg) (cs : chan ClaimRequest) : sys :=
  MkSys (x_closed x) ss cs (x_loop x) (x_streamChannels x) (x_claimRequests x) (x_streams x) (x_read x).
Definition set_read (x : sys) (ms : list StreamMsg) : sys :=
  MkSys (x_closed x) (x_streamSub x) (x_claimSub x) (x_loop x) (x_streamChannels x) (x_claimRequests x) (x_streams x) ms.
Definition set_tables (x : sys) (sc cr : gmap string nat) (css : list cstream) : sys :=
  MkSys (x_closed x) (x_streamSub x) (x_claimSub x) (x_loop x) sc cr css (x_read x).

Definition with_st (cs : cstream) (s : st) (l : floop) (t : otask) : cstream :=
  MkCStream (cs_open cs) s (cs_recvChan cs) (cs_claimChan cs) l t (cs_grants cs) (cs_since cs) (cs_taken cs).
Definition with_chans (cs : cstream) (c : chan StreamMsg) (cc : chan ClaimRequest) (taken : list StreamMsg) : cstream :=
  MkCStream (cs_open cs) (cs_st cs) c cc (cs_loop cs) (cs_task cs) (cs_grants cs) (cs_since cs) taken.
Definition add_grant (cs : cstream) (claim : ClaimResponse) : cstream :=
  MkCStream (cs_open cs) (cs_st cs) (cs_recvChan cs) (cs_claimChan cs) (cs_loop cs) (cs_task cs) (cs_grants cs ++ [claim])
    (cs_since cs) (cs_taken cs).

(** ** Streams *)

(** The maps' section of [OpenStream], with the stream made and its loop begun. *)
Definition open_stream (x : sys) (k : opening (T := T)) : sys :=
  let n := length (x_streams x) in
  set_tables x (<[op_streamID k := n]> (x_streamChannels x)) (<[op_requestID k := n]> (x_claimRequests x))
    (x_streams x ++ [MkCStream k (client_stream cl (op_requestID k) recvType) (make_chan channelSize) (make_chan channelSize)
       FSelect TPublish [] (length (x_read x)) []]).

(** Stream [n] goes on as [cs], its [StreamCore] state having been [s]: [clientStream.Close]
    takes it out of the table. *)
Definition put_stream (x : sys) (n : nat) (s : st) (cs : cstream) : sys :=
  set_tables x
    (if b_adapterClosed (st_base (cs_st cs)) && negb (b_adapterClosed (st_base s))
     then delete (op_streamID (cs_open cs)) (x_streamChannels x) else x_streamChannels x)
    (x_claimRequests x) (<[n := cs]> (x_streams x)).

(** A step of a stream, which then goes on with [after]. *)
Definition on_stream (x : sys) (n : nat) (cs : cstream) (l : StreamCore.label) (after : st → floop * otask) : outcome :=
  match StreamCore.step l (cs_st cs) with
  | StreamCore.Next s => let '(lp, t) := after s in Next (put_stream x n (cs_st cs) (with_st cs s lp t))
  | StreamCore.Blocked => Blocked
  | StreamCore.Panic => Panic
  end.

(** The steps of a stream that are not its loop's. *)
Definition of_user (l : StreamCore.label) : bool :=
  match l with LHandle _ | LHandling _ => false | _ => true end.

(** *** [runClientStream] *)

Definition loop_handling (s : st) : floop := match st_handling s with Some _ => FHandling | None => FSelect end.

(** [case is := <-recvChan]. *)
Definition take_message (x : sys) (n : nat) (cs : cstream) (now : Z) : outcome :=
  match chan_recv (cs_recvChan cs) with
  | Received im c =>
      let cs := with_chans cs c (cs_claimChan cs) (cs_taken cs ++ [im]) in
      if now <? sm_Expiry im then on_stream x n cs (LHandle im) (λ s, (loop_handling s, cs_task cs))
      else Next (put_stream x n (cs_st cs) cs)
  | RecvClosed => Panic
  | RecvBlocks => Blocked
  end.

(** [stream.Close(cause)] called by the loop. *)
Definition loop_closes (x : sys) (n : nat) (cs : cstream) (cause : option error) : outcome :=
  on_stream x n cs (LClose cause) (λ _, (FClosing (length (st_closers (cs_st cs))), cs_task cs)).

Definition returned (s : st) (c : nat) : bool := match st_closers s !! c with Some CReturned => true | _ => false end.

(** *** [OpenStream] *)

(** What a [select] of it takes, when it is there: of a claim, the first in the channel. *)
Definition take_event (x : sys) (cs : cstream) (ev : open_event) : option (open_event * cstream) :=
  match ev with
  | OSel (EvClaim _) =>
      match chan_recv (cs_claimChan cs) with
      | Received claim c => Some (OSel (EvClaim claim), with_chans cs (cs_recvChan cs) c (cs_taken cs))
      | _ => None
      end
  | OSel (EvResponse _) => None
  | OSel EvClosed | OClosed => if x_closed x then Some (ev, cs) else None
  | OSel EvDone | OCtxDone _ => Some (ev, cs)
  | OAcked => if bool_decide (op_requestID (cs_open cs) ∈ b_acked (st_base (cs_st cs))) then Some (ev, cs) else None
  end.

(** It goes on. *)
Definition goes (x : sys) (n : nat) (cs : cstream) (t : otask) : outcome :=
  Next (put_stream x n (cs_st cs) (with_st cs (cs_st cs) (cs_loop cs) t)).

(** It fails: it closes the stream with [cause], and will return [err]. *)
Definition fails (x : sys) (n : nat) (cs : cstream) (cause err : error) : outcome :=
  on_stream x n cs (LClose (Some cause)) (λ _, (cs_loop cs, TClosing (length (st_closers (cs_st cs))) err)).

(** A turn of [selectServerUntil]. *)
Definition select_step (x : sys) (n : nat) (cs : cstream) (now : Z) (ev : event) (v : vars) : outcome :=
  match turn_of itoa (ro_SelectionOpts (op_opts (cs_open cs))) now ev v with
  | Return _ (Some err) => fails x n cs err err
  | Return sel None => goes x n cs (TGrant (sel_serverID sel))
  | Continue v => goes x n cs (TSelect v)
  end.

(** The next step; [ev] is the case its [select] takes, [pubErr] what the bus answers. *)
Definition opener_step (x : sys) (n : nat) (cs : cstream) (now : Z) (ev : open_event) (pubErr : option error) : outcome :=
  match cs_task cs with
  | TPublish =>
      match pubErr with
      | Some e => fails x n cs e (newError Internal e)
      | None =>
          goes x n cs (if ri_RequireClaim (op_info (cs_open cs)) then TSelect (init (ro_SelectionOpts (op_opts (cs_open cs))) now) else TAck)
      end
  | TSelect v =>
      match take_event x cs ev with
      | Some (OSel ev, cs) => select_step x n cs now ev v
      | _ => Blocked
      end
  | TGrant server =>
      let cs := add_grant cs (MkClaimResponse (op_requestID (cs_open cs)) server) in
      match pubErr with
      | Some e => fails x n cs e (newError Internal e)
      | None => goes x n cs TAck
      end
  | TAck =>
      match take_event x cs ev with
      | Some (OAcked, cs) => goes x n cs (TLeaving None)
      | Some (OCtxDone e, cs) => fails x n cs (ctx_error e) (ctx_error e)
      | Some (OClosed, cs) => fails x n cs ErrClientClosed ErrClientClosed
      | _ => Blocked
      end
  | TClosing c err => if returned (cs_st cs) c then goes x n cs (TLeaving (Some err)) else Blocked
  | TLeaving err =>
      Next (set_tables x (x_streamChannels x) (delete (op_requestID (cs_open cs)) (x_claimRequests x))
        (<[n := with_st cs (cs_st cs) (cs_loop cs) (TOver err)]> (x_streams x)))
  | TOver _ => Blocked
  end.

(** ** The client's loop *)

(** [case msg := <-streams.Channel()]; a closed subscription's is nil. *)
Definition read_stream (x : sys) : outcome :=
  match chan_recv (x_streamSub x) with
  | RecvBlocks => Blocked
  | RecvClosed => Next (set_closed x)
  | Received msg c =>
      let x := set_read (set_subs x c (x_claimSub x)) (x_read x ++ [msg]) in
      Next match x_streamChannels x !! sm_StreamId msg with Some n => set_loop x (RStream n msg) | None => x end
  end.

(** [case claim := <-claims.Channel()]. *)
Definition read_claim (x : sys) : outcome :=
  match chan_recv (x_claimSub x) with
  | RecvBlocks => Blocked
  | RecvClosed => Next (set_closed x)
  | Received claim c =>
      let x := set_subs x (x_streamSub x) c in
      Next match x_claimRequests x !! cq_RequestId claim with Some n => set_loop x (RClaim n claim) | None => x end
  end.

(** The [select] of a message's send: [drop] takes [closed]. *)
Definition send_stream (x : sys) (n : nat) (msg : StreamMsg) (drop : bool) : outcome :=
  match x_streams x !! n with
  | None => Panic
  | Some cs =>
      if drop then if b_adapterClosed (st_base (cs_st cs)) then Next (set_loop x RSelect) else Blocked
      else
        match chan_send (cs_recvChan cs) msg with
        | Sent c => Next (set_loop (put_stream x n (cs_st cs) (with_chans cs c (cs_claimChan cs) (cs_taken cs))) RSelect)
        | SendBlocks => Blocked
        | SendPanics => Panic
        end
  end.

(** [claimChan <- claim]. *)
Definition send_claim (x : sys) (n : nat) (claim : ClaimRequest) : outcome :=
  match x_streams x !! n with
  | None => Panic
  | Some cs =>
      match chan_send (cs_claimChan cs) claim with
      | Sent c => Next (set_loop (put_stream x n (cs_st cs) (with_chans cs (cs_recvChan cs) c (cs_taken cs))) RSelect)
      | SendBlocks => Blocked
      | SendPanics => Panic
      end
  end.

(** [case <-closed]: the subscriptions are closed. *)
Definition read_closed (x : sys) : outcome :=
  if x_closed x then
    let shut {A} (c : chan A) := Chan (chan_cap c) (chan_buf c) true in
    Next (set_loop (set_subs x (shut (x_streamSub x)) (shut (x_claimSub x))) RReturned)
  else Blocked.

(** ** Steps *)

(** A delivery of the bus, or the end of its subscription; a case of the client's loop;
    an [OpenStream] that has come to its maps; a step of it; a case of a stream's loop, a
    step of the call it makes; a step of another goroutine of a stream; [Close]. *)
Inductive label : Type :=
| XDeliver (msg : StreamMsg)
| XDeliverClaim (claim : ClaimRequest)
| XReadStream
| XReadClaim
| XReadClosed
| XSendStream (drop : bool)
| XSendClaim
| XOpen (k : opening (T := T))
| XOpener (n : nat) (now : Z) (ev : open_event) (pubErr : option error)
| XTake (n : nat) (now : Z)
| XHandling (n : nat) (adapterErr : option error)
| XCtxDone (n : nat) (err : std_error)
| XLoopClosed (n : nat)
| XLoopReturn (n : nat)
| XStream (n : nat) (l : StreamCore.label)
| XClose.

(** A step of stream [n] whose loop is at its [select]. *)
Definition at_select (x : sys) (n : nat) (f : cstream → outcome) : outcome :=
  match x_streams x !! n with
  | Some cs => match cs_loop cs with FSelect => f cs | _ => Blocked end
  | None => Blocked
  end.

Definition step (l : label) (x : sys) : outcome :=
  match l with
  | XDeliver msg =>
      match chan_send (x_streamSub x) msg with Sent c => Next (set_subs x c (x_claimSub x)) | _ => Blocked end
  | XDeliverClaim claim =>
      match chan_send (x_claimSub x) claim with Sent c => Next (set_subs x (x_streamSub x) c) | _ => Blocked end
  | XReadStream => match x_loop x with RSelect => read_stream x | _ => Blocked end
  | XReadClaim => match x_loop x with RSelect => read_claim x | _ => Blocked end
  | XReadClosed => match x_loop x with RSelect => read_closed x | _ => Blocked end
  | XSendStream drop => match x_loop x with RStream n msg => send_stream x n msg drop | _ => Blocked end
  | XSendClaim => match x_loop x with RClaim n claim => send_claim x n claim | _ => Blocked end
  | XOpen k => Next (open_stream x k)
  | XOpener n now ev pubErr =>
      match x_streams x !! n with Some cs => opener_step x n cs now ev pubErr | None => Blocked end
  | XTake n now => at_select x n (λ cs, take_message x n cs now)
  | XHandling n adapterErr =>
      match x_streams x !! n with
      | Some cs =>
          match cs_loop cs with
          | FHandling => on_stream x n cs (LHandling adapterErr) (λ s, (loop_handling s, cs_task cs))
          | _ => Blocked
          end
      | None => Blocked
      end
  | XCtxDone n err =>
      at_select x n (λ cs, if b_canceled (st_base (cs_st cs)) then loop_closes x n cs (Some (EStd err)) else Blocked)
  | XLoopClosed n => at_select x n (λ cs, if x_closed x then loop_closes x n cs None else Blocked)
  | XLoopReturn n =>
      match x_streams x !! n with
      | Some cs =>
          match cs_loop cs with
          | FClosing c =>
              if returned (cs_st cs) c then Next (put_stream x n (cs_st cs) (with_st cs (cs_st cs) FReturned (cs_task cs))) else Blocked
          | _ => Blocked
          end
      | None => Blocked
      end
  | XStream n l =>
      match x_streams x !! n with
      | Some cs => if of_user l then on_stream x n cs l (λ _, (cs_loop cs, cs_task cs)) else Blocked
      | None => Blocked
      end
  | XClose => Next (set_closed x)
  end.

Fixpoint run (ls : list label) (x : sys) : option sys :=
  match ls with
  | [] => Some x
  | l :: ls => match step l x with Next x => run ls x | _ => None end
  end.
End client_stream.

(** ** The client's subscriptions *)

Section client_subscriptions.
Context `{GrpcApi} `{!StatusApi} {T : carried} (cl : RPCClient T).

Inductive sub_act : Type :=
| SubOpen (ch : Channel)
| SubClose (ch : Channel).

(** What [NewRPCClient] subscribes to, in order: responses, claims, streams when they are
    enabled, and each request's own channel when the bus has inboxes ([InboxBus]). *)
Definition subscriptions : list Channel :=
  let sd := c_sd cl in
  [GetResponseChannel (sd_Name sd) (sd_ID sd); GetClaimRequestChannel (sd_Name sd) (sd_ID sd)]
  ++ (if co_EnableStreams (c_Opts cl) then [GetStreamChannel (sd_Name sd) (sd_ID sd)] else [])
  ++ (if c_inbox cl then [GetResponseChannel (sd_Name sd) (PerRequestClientID (sd_ID sd) "*")] else []).

(** It makes them one by one; where the bus answers with an error, it closes those made. *)
Fixpoint subscribe_all (made chs : list Channel) (answers : list (option error)) : list sub_act * option error :=
  match chs, answers with
  | ch :: chs, Some e :: _ => (SubClose <$> made, Some e)
  | ch :: chs, _ =>
      let '(acts, err) := subscribe_all (made ++ [ch]) chs (tail answers) in (SubOpen ch :: acts, err)
  | [], _ => ([], None)
  end.

Definition NewRPCClient_subscribe (answers : list (option error)) : list sub_act * option error :=
  subscribe_all [] subscriptions answers.

Definition subscribed (acts : list sub_act) : list Channel := omap (λ a, match a with SubOpen ch => Some ch | SubClose _ => None end) acts.
Definition unsubscribed (acts : list sub_act) : list Channel := omap (λ a, match a with SubClose ch => Some ch | SubOpen _ => None end) acts.

(** A client that is made has them all; one that is not has closed those it had made. *)
Lemma client_subscribe_all answers acts err :
  NewRPCClient_subscribe answers = (acts, err) →
  match err with
  | None => subscribed acts = subscriptions ∧ unsubscribed acts = []
  | Some _ => unsubscribed acts = subscribed acts ∧ ∃ rest, subscriptions = subscribed acts ++ rest ∧ rest ≠ []
  end.
Proof.
  unfold NewRPCClient_subscribe. generalize subscriptions as chs. intros chs.
  assert (Hgen : ∀ made acts err, subscribe_all made chs answers = (acts, err) →
    match err with
    | None => subscribed acts = chs ∧ unsubscribed acts = []
    | Some _ => unsubscribed acts = made ++ subscribed acts ∧ ∃ rest, chs = subscribed acts ++ rest ∧ rest ≠ []
    end); [|apply (Hgen [])].
  clear acts err. revert answers. induction chs as [|ch chs IH]; intros answers made acts err; simpl; [by intros [= <- <-]|].
  assert (Hclosed : ∀ made : list Channel, unsubscribed (SubClose <$> made) = made ∧ subscribed (SubClose <$> made) = []).
  { intros m. split; (unfold unsubscribed, subscribed; induction m as [|c m IHm]; [done|]); [cbn; f_equal; exact IHm|exact IHm]. }
  assert (Hgo : ∀ acts0 err0, subscribe_all (made ++ [ch]) chs (tail answers) = (acts0, err0) → (SubOpen ch :: acts0, err0) = (acts, err) →
    match err with
    | None => subscribed acts = ch :: chs ∧ unsubscribed acts = []
    | Some _ => unsubscribed acts = made ++ subscribed acts ∧ ∃ rest, ch :: chs = subscribed acts ++ rest ∧ rest ≠ []
    end).
  { intros acts0 err0 Hs [= <- <-]. apply IH in Hs. destruct err0 as [e|]; simpl.
    - destruct Hs as (Hu & rest & -> & ?). split; [unfold unsubscribed in *; simpl; by rewrite Hu, <- (assoc_L (++))|by exists rest].
    - destruct Hs as [Hs Hu]. split; [unfold subscribed in *; simpl; by rewrite Hs|done]. }
  destruct answers as [|[e|] answers].
  - destruct (subscribe_all _ _ _) as [acts0 err0] eqn:Hs. by apply (Hgo acts0 err0).
  - intros [= <- <-]. destruct (Hclosed made) as [-> ->]. rewrite app_nil_r. split; [done|by exists (ch :: chs)].
  - destruct (subscribe_all _ _ _) as [acts0 err0] eqn:Hs. by apply (Hgo acts0 err0).
Qed.
End client_subscriptions.

(** ** Invariant *)

Section client_stream_invariant.
Context `{GrpcApi} `{!StatusApi} `{!Codec} {T : carried} (itoa : Z → string) (cl : RPCClient T) (recvType : string).
Implicit Types (x : sys (T := T)) (l : label (T := T)) (cs : cstream (T := T)) (s : st) (k : opening (T := T)).

(** The streams a run opens, and the request IDs it draws. *)
Definition opened (ls : list (label (T := T))) : list (opening (T := T)) := omap (λ l, match l with XOpen k => Some k | _ => None end) ls.

Definition used_id l : list string :=
  match l with XOpen k => [op_requestID k] | XStream _ (LSend id _) => [id] | _ => [] end.
Definition used_ids (ls : list (label (T := T))) : list string := ls ≫= used_id.

Definition fresh (ls : list (label (T := T))) : Prop := NoDup (used_ids ls) ∧ NoDup (op_streamID <$> opened ls).

Definition adapterClosed cs : bool := b_adapterClosed (st_base (cs_st cs)).
Definition over cs : bool := match cs_task cs with TOver _ => true | _ => false end.

(** What the loop holds for a stream. *)
Definition in_hand (lp : rloop) (n : nat) : list StreamMsg :=
  match lp with RStream n' msg => if decide (n' = n) then [msg] else [] | _ => [] end.

(** What the client read for a stream since it was opened. *)
Definition addressed (read : list StreamMsg) cs : list StreamMsg :=
  filter (λ m, sm_StreamId m = op_streamID (cs_open cs)) (drop (cs_since cs) read).

Definition received lp n cs : list StreamMsg := cs_taken cs ++ chan_buf (cs_recvChan cs) ++ in_hand lp n.

Definition routed (read : list StreamMsg) (lp : rloop) (n : nat) cs : Prop :=
  (cs_since cs <= length read)%nat ∧ received lp n cs `prefix_of` addressed read cs ∧
  (adapterClosed cs = false → received lp n cs = addressed read cs).

Definition stream_ok (U : list string) cs : Prop :=
  stream_inv {[op_requestID (cs_open cs)]} (cs_st cs) ∧ (∀ id, id ∈ sender_id <$> st_senders (cs_st cs) → id ∈ U) ∧
  op_requestID (cs_open cs) ∈ U ∧ chan_closed (cs_recvChan cs) = false ∧ chan_closed (cs_claimChan cs) = false ∧
  (cs_loop cs = FHandling ↔ is_Some (st_handling (cs_st cs))).

Definition rloop_ok (css : list (cstream (T := T))) (lp : rloop) : Prop :=
  match lp with
  | RStream n msg => ∃ cs, css !! n = Some cs ∧ op_streamID (cs_open cs) = sm_StreamId msg
  | RClaim n _ => is_Some (css !! n)
  | RSelect | RReturned => True
  end.

Record inv (ls : list (label (T := T))) x : Prop := {
  c_opened : cs_open <$> x_streams x = opened ls;
  c_table id n : x_streamChannels x !! id = Some n ↔
    ∃ cs, x_streams x !! n = Some cs ∧ op_streamID (cs_open cs) = id ∧ adapterClosed cs = false;
  c_claims id n : x_claimRequests x !! id = Some n ↔
    ∃ cs, x_streams x !! n = Some cs ∧ op_requestID (cs_open cs) = id ∧ over cs = false;
  c_stream n cs : x_streams x !! n = Some cs → stream_ok (used_ids ls) cs;
  c_loop : rloop_ok (x_streams x) (x_loop x);
  c_routed n cs : x_streams x !! n = Some cs → routed (x_read x) (x_loop x) n cs
}.

Lemma start_client_inv : inv [] (start cl).
Proof.
  split; simpl; try done; intros id n; rewrite lookup_empty; (split; [done|]); intros (cs & Hn & _); by rewrite lookup_nil in Hn.
Qed.

Lemma used_ids_snoc ls l : used_ids (ls ++ [l]) = used_ids ls ++ used_id l.
Proof. unfold used_ids. rewrite bind_app. simpl. by rewrite app_nil_r. Qed.

Lemma opened_snoc ls l : opened (ls ++ [l]) = opened ls ++ match l with XOpen k => [k] | _ => [] end.
Proof. unfold opened. rewrite omap_app. by destruct l. Qed.

Lemma stream_ok_mono U U' cs : U ⊆ U' → stream_ok U cs → stream_ok U' cs.
Proof. intros Hs (? & Hids & ? & ?). split; [done|]. split; [|split; [by apply Hs|done]]. intros id Hid. by apply Hs, Hids. Qed.

Lemma used_grows ls l : used_ids ls ⊆ used_ids (ls ++ [l]).
Proof. rewrite used_ids_snoc. apply list_subseteq_app_l. done. Qed.

(** The streams have different IDs. *)
Lemma opened_inj {A} (f : opening (T := T) → A) ls x n n' cs cs' :
  inv ls x → NoDup (f <$> opened ls) → x_streams x !! n = Some cs → x_streams x !! n' = Some cs' →
  f (cs_open cs) = f (cs_open cs') → n = n'.
Proof.
  intros I Hnd Hn Hn' Heq. rewrite <- (c_opened _ _ I) in Hnd. eapply (NoDup_lookup _ _ _ _ Hnd);
    rewrite !list_lookup_fmap, ?Hn, ?Hn'; simpl; [done|]. by rewrite Heq.
Qed.

Definition no_open l : Prop := match l with XOpen _ => False | _ => True end.

Lemma opened_quiet ls l : no_open l → opened (ls ++ [l]) = opened ls.
Proof. rewrite opened_snoc. destruct l; try done; intros _; apply app_nil_r. Qed.

(** Stream [n] goes on, and the client's loop with what it held for it. *)
Lemma inv_put ls l x n cs cs' lp :
  inv ls x → NoDup (op_streamID <$> opened ls) → no_open l → x_streams x !! n = Some cs → cs_open cs' = cs_open cs →
  (adapterClosed cs = true → adapterClosed cs' = true) → over cs' = over cs →
  stream_ok (used_ids (ls ++ [l])) cs' → routed (x_read x) lp n cs' →
  rloop_ok (x_streams x) lp → (∀ n', n' ≠ n → in_hand lp n' = in_hand (x_loop x) n') →
  inv (ls ++ [l]) (set_loop (put_stream x n (cs_st cs) cs') lp).
Proof.
  intros I Hnd Hl Hn Hopen Had Hov Hok Hrt Hlp Hlp'. pose proof I as [I1 I2 I3 I4 I5 I6].
  assert (Hlt : (n < length (x_streams x))%nat) by (by eapply lookup_lt_Some).
  assert (Hcases : ∀ n' cs0, <[n := cs']> (x_streams x) !! n' = Some cs0 → (n' = n ∧ cs0 = cs') ∨ (n' ≠ n ∧ x_streams x !! n' = Some cs0)).
  { intros n' cs0. apply list_lookup_insert_cases. }
  split; cbn [set_loop put_stream set_tables x_streams x_streamChannels x_claimRequests x_loop x_read].
  - rewrite list_fmap_insert, Hopen, I1, opened_quiet by done. apply list_insert_id. rewrite <- I1, list_lookup_fmap, Hn. done.
  - intros id n'.
    assert (Ht : (if b_adapterClosed (st_base (cs_st cs')) && negb (b_adapterClosed (st_base (cs_st cs)))
        then delete (op_streamID (cs_open cs')) (x_streamChannels x) else x_streamChannels x) !! id = Some n' ↔
      x_streamChannels x !! id = Some n' ∧ (n' = n → adapterClosed cs' = false)).
    { fold (adapterClosed cs) (adapterClosed cs'). destruct (adapterClosed cs') eqn:Hc', (adapterClosed cs) eqn:Hc; simpl; [..|by split; [|intros []]|by split; [|intros []]].
      - split; [|by intros []]. intros Ht. split; [done|]. intros ->. apply I2 in Ht as (cs0 & ? & _ & ?). simplify_eq. congruence.
      - rewrite lookup_delete_Some. split.
        + intros [Hne Ht]. split; [done|]. intros ->. apply I2 in Ht as (cs0 & ? & ? & _). simplify_eq. congruence.
        + intros [Ht Hf]. split; [|done]. intros <-. apply I2 in Ht as (cs0 & Hn0 & Hid & _).
          rewrite Hopen in Hid. discriminate (Hf (opened_inj op_streamID ls x n' n cs0 cs I Hnd Hn0 Hn Hid)). }
    rewrite Ht, I2. split.
    + intros [(cs0 & Hn0 & Hid & Ha) Hf]. destruct (decide (n' = n)) as [->|Hne].
      * exists cs'. rewrite list_lookup_insert_eq by done. simplify_eq. rewrite Hopen. auto.
      * exists cs0. by rewrite list_lookup_insert_ne.
    + intros (cs0 & [[-> ->]|[Hne Hn0]]%Hcases & Hid & Ha); [|split; [by exists cs0|done]].
      split; [|done]. exists cs. rewrite <- Hopen. split_and!; [done..|]. destruct (adapterClosed cs) eqn:Hc; [|done]. by rewrite Had in Ha.
  - intros id n'. rewrite I3. split.
    + intros (cs0 & Hn0 & Hid & Ha). destruct (decide (n' = n)) as [->|Hne].
      * exists cs'. rewrite list_lookup_insert_eq by done. simplify_eq. rewrite Hopen, Hov. done.
      * exists cs0. by rewrite list_lookup_insert_ne.
    + intros (cs0 & [[-> ->]|[Hne Hn0]]%Hcases & Hid & Ha); [exists cs; by rewrite <- Hopen, <- Hov|by exists cs0].
  - intros n' cs0 [[-> ->]|[_ Hn0]]%Hcases; [done|]. eapply stream_ok_mono, (I4 n' cs0 Hn0). apply used_grows.
  - destruct lp as [|n' msg|n' claim|]; simpl in *; [done|..|done].
    + destruct Hlp as (cs0 & Hn0 & Hid). destruct (decide (n' = n)) as [->|Hne].
      * exists cs'. rewrite list_lookup_insert_eq by done. simplify_eq. by rewrite Hopen.
      * exists cs0. by rewrite list_lookup_insert_ne.
    + by apply list_lookup_insert_is_Some.
  - intros n' cs0 [[-> ->]|[Hne Hn0]]%Hcases; [done|]. unfold routed, received in *. rewrite Hlp' by done. by apply I6.
Qed.

(** *** A stream's steps *)

Definition step_ok (ls : list (label (T := T))) l (o : outcome (T := T)) : Prop :=
  match o with Next x => inv (ls ++ [l]) x | Blocked => True | Panic => False end.

(** What a step of a stream needs: its request's ID is new. *)
Definition draws l (lc : StreamCore.label) : Prop := send_ids [lc] = [] ∨ send_ids [lc] = used_id l.

Lemma stream_ok_step ls l cs lc :
  NoDup (used_ids (ls ++ [l])) → draws l lc → stream_ok (used_ids ls) cs →
  match StreamCore.step lc (cs_st cs) with
  | StreamCore.Next s => ∀ cs', cs_open cs' = cs_open cs → cs_st cs' = s →
      chan_closed (cs_recvChan cs') = false → chan_closed (cs_claimChan cs') = false →
      (cs_loop cs' = FHandling ↔ is_Some (st_handling s)) →
      stream_ok (used_ids (ls ++ [l])) cs' ∧ (adapterClosed cs = true → adapterClosed cs' = true)
  | StreamCore.Blocked => True
  | StreamCore.Panic => False
  end.
Proof.
  intros Hnd Hdraw (Hinv & Hids & Hreq & _). rewrite used_ids_snoc in *. apply NoDup_app in Hnd as (_ & Hnew & _).
  assert (Hfresh : ∀ id, id ∈ send_ids [lc] → id ∉ used_ids ls).
  { intros id Hid Hin. destruct Hdraw as [Hd|Hd]; rewrite Hd in Hid; [by apply elem_of_nil in Hid|by apply (Hnew id)]. }
  pose proof (StreamCore.step_inv {[op_requestID (cs_open cs)]} lc (cs_st cs) Hinv) as Hok.
  destruct (StreamCore.step lc (cs_st cs)) as [s'| |] eqn:Hs; [|done|].
  - intros cs' Ho Hst Hc Hcc Hl. split; [|unfold adapterClosed; rewrite Hst; by eapply step_adapterClosed].
    unfold stream_ok. rewrite Ho, Hst. split_and!; try done.
    + apply Hok. intros id Hid. specialize (Hfresh id Hid). split; [by intros ?%Hids|]. by intros ->%elem_of_singleton.
    + intros id. rewrite (step_sender_ids lc (cs_st cs) s' Hs). rewrite !elem_of_app. intros [Hid|Hid]; [left; by apply Hids|].
      destruct Hdraw as [Hd|Hd]; rewrite Hd in Hid; [by apply elem_of_nil in Hid|by right].
    + apply elem_of_app. by left.
  - apply Hok. intros id Hid. specialize (Hfresh id Hid). split; [by intros ?%Hids|]. by intros ->%elem_of_singleton.
Qed.

Lemma client_on_stream_ok ls l x n cs cs0 lc (after : st → floop * otask) :
  inv ls x → fresh (ls ++ [l]) → no_open l → x_streams x !! n = Some cs → draws l lc →
  cs_open cs0 = cs_open cs → cs_st cs0 = cs_st cs → cs_since cs0 = cs_since cs →
  chan_closed (cs_recvChan cs0) = false → chan_closed (cs_claimChan cs0) = false →
  received (x_loop x) n cs0 = received (x_loop x) n cs →
  (∀ s', StreamCore.step lc (cs_st cs) = StreamCore.Next s' →
     ((after s').1 = FHandling ↔ is_Some (st_handling s')) ∧ over (with_st cs0 s' (after s').1 (after s').2) = over cs) →
  step_ok ls l (on_stream x n cs0 lc after).
Proof.
  intros I [Hnd Hnd'] Hl Hn Hd Ho Hst Hsi Hc1 Hc2 Hrec Haft. unfold on_stream. rewrite Hst.
  pose proof (stream_ok_step ls l cs lc Hnd Hd (c_stream _ _ I n cs Hn)) as Hs.
  destruct (StreamCore.step lc (cs_st cs)) as [s'| |] eqn:Hstep; [|done|done]. destruct (Haft s' eq_refl) as [Hlp Hov].
  destruct (after s') as [lp t]. simpl. destruct (Hs (with_st cs0 s' lp t)) as [Hok Had]; try done.
  rewrite opened_quiet in Hnd' by done. apply (inv_put ls l x n cs (with_st cs0 s' lp t) (x_loop x)); try done; [|apply I].
  destruct (c_routed _ _ I n cs Hn) as (? & ? & Heq). unfold routed, received, addressed in *. simpl in *. rewrite Hrec, Hsi, Ho.
  split_and!; [done..|]. intros Ha. apply Heq. destruct (adapterClosed cs); [|done]. by rewrite Had in Ha.
Qed.

Lemma step_user_handling lc s s' :
  of_user lc = true → StreamCore.step lc s = StreamCore.Next s' → st_handling s' = st_handling s.
Proof.
  destruct lc as [id y|n e|n|n|cause|n|msg|e| | |]; simpl; intros Ho Hstep; try done;
    unfold start_send, step_sender, step_closer, or_panic in Hstep; repeat case_match; simplify_eq/=; done.
Qed.

(** A stream that stays as it is, in what the invariant sees. *)
Lemma cinv_same ls l x n cs cs' :
  inv ls x → fresh (ls ++ [l]) → no_open l → x_streams x !! n = Some cs → cs_open cs' = cs_open cs → cs_st cs' = cs_st cs →
  cs_since cs' = cs_since cs → chan_closed (cs_recvChan cs') = false → chan_closed (cs_claimChan cs') = false →
  received (x_loop x) n cs' = received (x_loop x) n cs → (cs_loop cs' = FHandling ↔ cs_loop cs = FHandling) → over cs' = over cs →
  inv (ls ++ [l]) (put_stream x n (cs_st cs) cs').
Proof.
  intros I [Hnd Hnd'] Hl Hn Ho Hst Hsi Hc1 Hc2 Hrec Hlp Hov. rewrite opened_quiet in Hnd' by done.
  apply (inv_put ls l x n cs cs' (x_loop x)); try done.
  - unfold adapterClosed. by rewrite Hst.
  - apply (stream_ok_mono (used_ids ls)); [apply used_grows|]. destruct (c_stream _ _ I n cs Hn) as (? & ? & ? & _ & _ & Hh).
    unfold stream_ok. rewrite Ho, Hst, Hlp. done.
  - destruct (c_routed _ _ I n cs Hn) as (? & ? & ?). unfold routed, received, addressed, adapterClosed in *. simpl in *.
    by rewrite Hrec, Hsi, Ho, Hst.
  - apply I.
Qed.

(** *** [runClientStream] *)

Lemma loop_handling_iff s : loop_handling s = FHandling ↔ is_Some (st_handling s).
Proof. unfold loop_handling. destruct (st_handling s); [by split; [eexists|]|]. split; [done|]. by intros [? ?]. Qed.

Lemma take_message_ok ls x n cs now :
  inv ls x → fresh (ls ++ [XTake n now]) → x_streams x !! n = Some cs → cs_loop cs = FSelect →
  step_ok ls (XTake n now) (take_message x n cs now).
Proof.
  intros I Hf Hn Hlp. destruct (c_stream _ _ I n cs Hn) as (_ & _ & _ & Hc1 & Hc2 & Hh). unfold take_message.
  destruct (chan_recv (cs_recvChan cs)) as [im c| |] eqn:Hr; [|by apply chan_recv_end in Hr as [_ Hr]; congruence|done].
  apply chan_recv_closed in Hr as (Hcl & _ & Hb).
  assert (Hrec : received (x_loop x) n (with_chans cs c (cs_claimChan cs) (cs_taken cs ++ [im])) = received (x_loop x) n cs).
  { unfold received. simpl. by rewrite Hb, <- !(assoc_L (++)). }
  destruct (now <? sm_Expiry im).
  - apply (client_on_stream_ok ls _ x n cs); try done; [by left|simpl; congruence|]. intros s' _. split; [apply loop_handling_iff|done].
  - apply (cinv_same ls _ x n cs); try done. simpl. congruence.
Qed.

Lemma loop_closes_ok ls l x n cs cause :
  inv ls x → fresh (ls ++ [l]) → no_open l → x_streams x !! n = Some cs → cs_loop cs = FSelect →
  step_ok ls l (loop_closes x n cs cause).
Proof.
  intros I Hf Hl Hn Hlp. destruct (c_stream _ _ I n cs Hn) as (_ & _ & _ & Hc1 & Hc2 & Hh).
  apply (client_on_stream_ok ls _ x n cs); try done; [by left|]. intros s' Hs'. rewrite (step_user_handling (LClose cause) _ _ eq_refl Hs').
  split; [|done]. simpl. rewrite <- Hh, Hlp. done.
Qed.

(** *** [OpenStream] *)

Lemma NewStream_stream_ok k size U since :
  op_requestID k ∈ U →
  stream_ok U (MkCStream k (client_stream cl (op_requestID k) recvType) (make_chan size) (make_chan size) FSelect TPublish [] since []).
Proof.
  intros Hk. split; [apply NewStream_inv|]. split; [by intros id ?%elem_of_nil|]. do 3 (split; [done|]).
  split; [done|]. by intros [? ?].
Qed.

Lemma open_ok ls x k : inv ls x → fresh (ls ++ [XOpen k]) → step_ok ls (XOpen k) (Next (open_stream cl recvType x k)).
Proof.
  intros I [Hnd Hnd']. pose proof I as [I1 I2 I3 I4 I5 I6]. unfold open_stream. set (cs := MkCStream _ _ _ _ _ _ _ _ _).
  rewrite opened_snoc, fmap_app in Hnd'. rewrite used_ids_snoc in Hnd. simpl in Hnd, Hnd'.
  assert (Hsid : ∀ n cs0, x_streams x !! n = Some cs0 → op_streamID (cs_open cs0) ≠ op_streamID k).
  { intros n cs0 Hn Heq. apply NoDup_app in Hnd' as (_ & Hnew & _). apply (Hnew (op_streamID k)); [|by left].
    rewrite <- Heq, <- I1, <- list_fmap_compose. apply list_elem_of_fmap. exists cs0. split; [done|]. by eapply list_elem_of_lookup_2. }
  assert (Hrid : ∀ n cs0, x_streams x !! n = Some cs0 → op_requestID (cs_open cs0) ≠ op_requestID k).
  { intros n cs0 Hn Heq. apply NoDup_app in Hnd as (_ & Hnew & _). apply (Hnew (op_requestID k)); [|by left].
    rewrite <- Heq. by apply (I4 n cs0 Hn). }
  assert (Hcases : ∀ n cs0, (x_streams x ++ [cs]) !! n = Some cs0 ↔ x_streams x !! n = Some cs0 ∨ (n = length (x_streams x) ∧ cs0 = cs)).
  { intros n cs0. rewrite lookup_app_Some, list_lookup_singleton_Some. split; [intros [?|(? & ? & <-)]; [by left|right; split; [lia|done]]|].
    intros [?|[-> ->]]; [by left|right]. split_and!; [done|lia|done]. }
  split; cbn [set_tables x_streams x_streamChannels x_claimRequests x_loop x_read].
  - by rewrite opened_snoc, fmap_app, I1.
  - intros id n. rewrite lookup_insert_Some, I2. setoid_rewrite Hcases. split.
    + intros [[<- <-]|[Hne (cs0 & Hn & Hid & Ha)]]; [|by exists cs0; auto]. exists cs. split; [by right|done].
    + intros (cs0 & [Hn|[-> ->]] & Hid & Ha); [right|by left]. split; [|by exists cs0]. intros <-. by apply (Hsid n cs0).
  - intros id n. rewrite lookup_insert_Some, I3. setoid_rewrite Hcases. split.
    + intros [[<- <-]|[Hne (cs0 & Hn & Hid & Ha)]]; [|by exists cs0; auto]. exists cs. split; [by right|done].
    + intros (cs0 & [Hn|[-> ->]] & Hid & Ha); [right|by left]. split; [|by exists cs0]. intros <-. by apply (Hrid n cs0).
  - intros n cs0 [Hn|[_ ->]]%Hcases; [eapply stream_ok_mono, (I4 n cs0 Hn); apply used_grows|].
    apply NewStream_stream_ok. rewrite used_ids_snoc. apply elem_of_app. right. by left.
  - destruct (x_loop x) as [|n msg|n claim|]; simpl in *; [done|..|done].
    + destruct I5 as (cs0 & Hn & ?). exists cs0. split; [by apply lookup_app_l_Some|done].
    + destruct I5 as [cs0 Hn]. exists cs0. by apply lookup_app_l_Some.
  - intros n cs0 [Hn|[-> ->]]%Hcases; [by apply I6|]. unfold routed, received, addressed. simpl. rewrite drop_all. simpl.
    assert (in_hand (x_loop x) (length (x_streams x)) = []) as ->; [|done]. destruct (x_loop x) as [|n msg|n claim|]; try done. simpl in *.
    destruct I5 as (cs0 & Hn & _). rewrite decide_False; [done|]. apply lookup_lt_Some in Hn. lia.
Qed.

Lemma goes_ok ls l x n cs cs0 t :
  inv ls x → fresh (ls ++ [l]) → no_open l → x_streams x !! n = Some cs → used_id l = [] →
  cs_open cs0 = cs_open cs → cs_st cs0 = cs_st cs → cs_since cs0 = cs_since cs → cs_loop cs0 = cs_loop cs →
  chan_closed (cs_recvChan cs0) = false → chan_closed (cs_claimChan cs0) = false →
  received (x_loop x) n cs0 = received (x_loop x) n cs → over cs = false → (∀ err, t ≠ TOver err) → step_ok ls l (goes x n cs0 t).
Proof.
  intros I Hf Hl Hn Hu Ho Hst Hsi Hlp Hc1 Hc2 Hrec Hov Ht. unfold goes. rewrite Hst.
  apply (cinv_same ls l x n cs); try done; simpl; [by rewrite Hlp|].
  rewrite Hov. unfold over. simpl. destruct t; try done. by destruct (Ht err).
Qed.

Lemma fails_ok ls l x n cs cs0 cause err :
  inv ls x → fresh (ls ++ [l]) → no_open l → x_streams x !! n = Some cs → used_id l = [] →
  cs_open cs0 = cs_open cs → cs_st cs0 = cs_st cs → cs_since cs0 = cs_since cs → cs_loop cs0 = cs_loop cs →
  chan_closed (cs_recvChan cs0) = false → chan_closed (cs_claimChan cs0) = false →
  received (x_loop x) n cs0 = received (x_loop x) n cs → over cs = false → step_ok ls l (fails x n cs0 cause err).
Proof.
  intros I Hf Hl Hn Hu Ho Hst Hsi Hlp Hc1 Hc2 Hrec Hov. destruct (c_stream _ _ I n cs Hn) as (_ & _ & _ & _ & _ & Hh).
  apply (client_on_stream_ok ls l x n cs); try done; [by left|]. intros s' Hs'.
  rewrite (step_user_handling (LClose (Some cause)) _ _ eq_refl Hs'). by rewrite <- Hh, <- Hlp.
Qed.

Lemma take_event_same x cs ev ev' cs0 :
  take_event x cs ev = Some (ev', cs0) → chan_closed (cs_claimChan cs) = false →
  cs_open cs0 = cs_open cs ∧ cs_st cs0 = cs_st cs ∧ cs_since cs0 = cs_since cs ∧ cs_loop cs0 = cs_loop cs ∧
  cs_recvChan cs0 = cs_recvChan cs ∧ cs_taken cs0 = cs_taken cs ∧ chan_closed (cs_claimChan cs0) = false.
Proof.
  unfold take_event. intros Ht Hc.
  destruct ev as [[| |claim|res]| |err|]; repeat case_match; simplify_eq; try (by split_and!).
  match goal with H : chan_recv _ = _ |- _ => apply chan_recv_closed in H as (Hcl & _ & _) end. split_and!; try done. simpl. congruence.
Qed.

Lemma opened_sublist ls : op_requestID <$> opened ls `sublist_of` used_ids ls.
Proof.
  induction ls as [|l ls IH]; [done|]. change (opened (l :: ls)) with (opened ([l] ++ ls)). change (used_ids (l :: ls)) with (used_id l ++ used_ids ls).
  unfold opened in *. rewrite omap_app, fmap_app. destruct l; simpl; try done; [by constructor|]. by apply sublist_inserts_l.
Qed.

(** [OpenStream] returns, its request forgotten. *)
Lemma inv_leave ls l x n cs err :
  inv ls x → NoDup (used_ids ls) → no_open l → x_streams x !! n = Some cs → cs_task cs = TLeaving err →
  inv (ls ++ [l]) (set_tables x (x_streamChannels x) (delete (op_requestID (cs_open cs)) (x_claimRequests x))
    (<[n := with_st cs (cs_st cs) (cs_loop cs) (TOver err)]> (x_streams x))).
Proof.
  intros I Hnd Hl Hn Ht. pose proof I as [I1 I2 I3 I4 I5 I6]. assert (Hlt : (n < length (x_streams x))%nat) by (by eapply lookup_lt_Some).
  assert (Hreq : NoDup (op_requestID <$> opened ls)) by (by eapply sublist_NoDup, opened_sublist).
  assert (Hover : over cs = false) by (unfold over; by rewrite Ht). set (cs' := with_st cs (cs_st cs) (cs_loop cs) (TOver err)).
  assert (Hcases : ∀ n' cs0, <[n := cs']> (x_streams x) !! n' = Some cs0 ↔ (n' = n ∧ cs0 = cs') ∨ (n' ≠ n ∧ x_streams x !! n' = Some cs0)).
  { intros n' cs0. split; [apply list_lookup_insert_cases|]. intros [[-> ->]|[Hne ?]]; [by apply list_lookup_insert_eq|by rewrite list_lookup_insert_ne]. }
  split; cbn [set_tables x_streams x_streamChannels x_claimRequests x_loop x_read].
  - rewrite list_fmap_insert, I1, opened_quiet by done. apply list_insert_id. rewrite <- I1, list_lookup_fmap, Hn. done.
  - intros id n'. rewrite I2. setoid_rewrite Hcases. split.
    + intros (cs0 & Hn0 & Hid & Ha). destruct (decide (n' = n)) as [->|Hne]; [|exists cs0; auto]. simplify_eq. exists cs'. auto.
    + intros (cs0 & [[-> ->]|[Hne Hn0]] & Hid & Ha); [by exists cs|by exists cs0].
  - intros id n'. rewrite lookup_delete_Some, I3. setoid_rewrite Hcases. split.
    + intros [Hne (cs0 & Hn0 & Hid & Ha)]. destruct (decide (n' = n)) as [->|Hnn]; [simplify_eq|exists cs0; auto].
    + intros (cs0 & [[-> ->]|[Hne Hn0]] & Hid & Ha); [done|]. split; [|by exists cs0]. intros Heq. apply Hne.
      eapply (opened_inj op_requestID); [done..|congruence].
  - intros n' cs0 [[-> ->]|[_ Hn0]]%Hcases; (eapply stream_ok_mono; [apply used_grows|]); [by apply (I4 n cs)|by apply (I4 n')].
  - destruct (x_loop x) as [|n' msg|n' claim|]; simpl in *; [done|..|done].
    + destruct I5 as (cs0 & Hn0 & Hid). setoid_rewrite Hcases. destruct (decide (n' = n)) as [->|Hne]; [|exists cs0; auto]. simplify_eq. exists cs'. auto.
    + by apply list_lookup_insert_is_Some.
  - intros n' cs0 [[-> ->]|[_ Hn0]]%Hcases; [by apply (I6 n cs)|by apply I6].
Qed.

Lemma client_opener_step_ok ls x n cs now ev pubErr :
  inv ls x → fresh (ls ++ [XOpener n now ev pubErr]) → x_streams x !! n = Some cs →
  step_ok ls (XOpener n now ev pubErr) (opener_step itoa x n cs now ev pubErr).
Proof.
  intros I Hf Hn. destruct (c_stream _ _ I n cs Hn) as (_ & _ & _ & Hc1 & Hc2 & Hh). set (l := XOpener n now ev pubErr).
  assert (Hgo : over cs = false → ∀ cs0, cs_open cs0 = cs_open cs → cs_st cs0 = cs_st cs → cs_since cs0 = cs_since cs → cs_loop cs0 = cs_loop cs →
    chan_closed (cs_recvChan cs0) = false → chan_closed (cs_claimChan cs0) = false → received (x_loop x) n cs0 = received (x_loop x) n cs →
    (∀ t, (∀ err, t ≠ TOver err) → step_ok ls l (goes x n cs0 t)) ∧ ∀ cause err, step_ok ls l (fails x n cs0 cause err)).
  { intros. split; intros; [by apply (goes_ok ls l x n cs)|by apply (fails_ok ls l x n cs)]. }
  assert (Htake : over cs = false → ∀ ev' cs0, take_event x cs ev = Some (ev', cs0) →
    (∀ t, (∀ err, t ≠ TOver err) → step_ok ls l (goes x n cs0 t)) ∧ ∀ cause err, step_ok ls l (fails x n cs0 cause err)).
  { intros Hov ev' cs0 (Ho & Hst & Hsi & Hlp & Hrc & Htk & Hcc)%take_event_same; [|done]. apply Hgo; try done; [congruence|].
    unfold received. by rewrite Hrc, Htk. }
  unfold opener_step. destruct (cs_task cs) as [|v|server| |c err|err|err] eqn:Ht;
    try (assert (Hov : over cs = false) by (unfold over; by rewrite Ht); specialize (Hgo Hov); specialize (Htake Hov)); [..|done].
  - destruct (Hgo cs) as [Hg Hfa]; try done. destruct pubErr; [apply Hfa|apply Hg]. by destruct (ri_RequireClaim _).
  - destruct (take_event x cs ev) as [[[ev'| | |] cs0]|] eqn:Hev; try done. destruct (Htake _ _ eq_refl) as [Hg Hfa].
    unfold select_step. destruct (turn_of _ _ _ _ _) as [sel [e|]|v']; [apply Hfa|by apply Hg|by apply Hg].
  - destruct (Hgo (add_grant cs (MkClaimResponse (op_requestID (cs_open cs)) server))) as [Hg Hfa]; try done. destruct pubErr; [apply Hfa|by apply Hg].
  - destruct (take_event x cs ev) as [[[ev'| |e|] cs0]|] eqn:Hev; try done; destruct (Htake _ _ eq_refl) as [Hg Hfa]; [by apply Hg|apply Hfa|apply Hfa].
  - destruct (Hgo cs) as [Hg Hfa]; try done. destruct (returned _ _); [by apply Hg|done].
  - destruct Hf as [Hnd _]. rewrite used_ids_snoc in Hnd. apply NoDup_app in Hnd as (Hnd & _). by apply (inv_leave ls _ x n cs err).
Qed.

(** *** The client's loop *)

(** The lists and the loop stay. *)
Lemma cinv_io ls l x ss cc b lp :
  inv ls x → no_open l → lp = x_loop x ∨ (lp = RReturned ∧ x_loop x = RSelect) →
  inv (ls ++ [l]) (MkSys b ss cc lp (x_streamChannels x) (x_claimRequests x) (x_streams x) (x_read x)).
Proof.
  intros [I1 I2 I3 I4 I5 I6] Hl Hlp. split; simpl; try done.
  - by rewrite opened_quiet.
  - intros n cs Hn. eapply stream_ok_mono, (I4 n cs Hn). apply used_grows.
  - by destruct Hlp as [->|[-> _]].
  - intros n cs Hn. specialize (I6 n cs Hn). by destruct Hlp as [->|[-> Hlp]]; [|rewrite Hlp in I6].
Qed.

Lemma read_stream_ok ls x : inv ls x → fresh (ls ++ [XReadStream]) → x_loop x = RSelect → step_ok ls XReadStream (read_stream x).
Proof.
  intros I [_ Hnd] Hlp. rewrite opened_quiet in Hnd by done. unfold read_stream. destruct (chan_recv _) as [msg c| |]; [|by apply cinv_io; auto|done].
  pose proof I as [I1 I2 I3 I4 I5 I6].
  set (y := set_read (set_subs x c (x_claimSub x)) (x_read x ++ [msg])).
  assert (Hy : ∀ lp, rloop_ok (x_streams x) lp → (∀ n cs, x_streams x !! n = Some cs → routed (x_read x ++ [msg]) lp n cs) → inv (ls ++ [XReadStream]) (set_loop y lp)).
  { intros lp Hok Hr. split; simpl; try done; [by rewrite opened_quiet|]. intros n cs Hn. eapply stream_ok_mono, (I4 n cs Hn). apply used_grows. }
  assert (Hadd : ∀ cs, (cs_since cs <= length (x_read x))%nat →
    addressed (x_read x ++ [msg]) cs = addressed (x_read x) cs ++ (if decide (sm_StreamId msg = op_streamID (cs_open cs)) then [msg] else [])).
  { intros cs Hs. unfold addressed. rewrite drop_app_le, filter_app by done. done. }
  assert (Hrec : ∀ n cs, x_streams x !! n = Some cs → (cs_since cs <= length (x_read x))%nat ∧ received RSelect n cs `prefix_of` addressed (x_read x) cs ∧
    (adapterClosed cs = false → received RSelect n cs = addressed (x_read x) cs)).
  { intros n cs Hn. specialize (I6 n cs Hn). by rewrite Hlp in I6. }
  change (inv (ls ++ [XReadStream]) match x_streamChannels x !! sm_StreamId msg with Some n => set_loop y (RStream n msg) | None => y end).
  destruct (x_streamChannels x !! sm_StreamId msg) as [n|] eqn:Ht.
  - apply I2 in Ht as (cs & Hn & Hid & Ha). apply Hy; [by exists cs|]. intros n' cs' Hn'. destruct (Hrec n' cs' Hn') as (Hs & Hp & Heq).
    destruct (decide (n' = n)) as [->|Hne].
    + simplify_eq. unfold routed. rewrite Hadd, decide_True, length_app by done.
      assert (received (RStream n msg) n cs = received RSelect n cs ++ [msg]) as ->.
      { unfold received. simpl. by rewrite decide_True, app_nil_r, (assoc_L (++)). }
      split; [lia|]. rewrite Heq by done. done.
    + unfold routed. rewrite Hadd, decide_False, app_nil_r, length_app by (try done; intros Heqid; apply Hne, (opened_inj op_streamID ls x n' n cs' cs I Hnd Hn' Hn); congruence).
      assert (received (RStream n msg) n' cs' = received RSelect n' cs') as -> by (unfold received; simpl; by rewrite decide_False).
      split; [lia|done].
  - replace y with (set_loop y RSelect) by (unfold y, set_loop, set_read, set_subs; cbn; by rewrite Hlp). apply Hy; [done|]. intros n cs Hn.
    destruct (Hrec n cs Hn) as (Hs & Hp & Heq). unfold routed. rewrite Hadd, length_app by done. split; [lia|]. case_decide as Hid.
    + split; [by apply prefix_app_r|]. intros Ha. assert (x_streamChannels x !! sm_StreamId msg = Some n) by (apply I2; by exists cs). congruence.
    + by rewrite app_nil_r.
Qed.

Lemma send_stream_ok ls x n msg drop :
  inv ls x → fresh (ls ++ [XSendStream drop]) → x_loop x = RStream n msg → step_ok ls (XSendStream drop) (send_stream x n msg drop).
Proof.
  intros I [_ Hnd] Hlp. pose proof (c_loop _ _ I) as Hok. rewrite Hlp in Hok. destruct Hok as (cs & Hn & Hid). unfold send_stream. rewrite Hn.
  rewrite opened_quiet in Hnd by done. pose proof (c_routed _ _ I n cs Hn) as (Hs & Hp & Heq). rewrite Hlp in Hp, Heq.
  pose proof (c_stream _ _ I n cs Hn) as Hst. pose proof Hst as (_ & _ & _ & Hc1 & Hc2 & _).
  assert (Hothers : ∀ n', n' ≠ n → in_hand RSelect n' = in_hand (x_loop x) n').
  { intros n' Hne. rewrite Hlp. simpl. by rewrite decide_False. }
  destruct drop.
  - destruct (b_adapterClosed _) eqn:Ha; [|done]. simpl.
    replace (set_loop x RSelect) with (set_loop (put_stream x n (cs_st cs) cs) RSelect).
    + apply (inv_put ls _ x n cs cs); try done; [eapply stream_ok_mono; [apply used_grows|done]|]. split; [done|]. split; [|intros Hf; unfold adapterClosed in Hf; congruence].
      etrans; [|exact Hp]. unfold received. rewrite (assoc_L (++)), (assoc_L (++)). apply prefix_app. simpl. apply prefix_nil.
    + unfold put_stream, set_loop, set_tables. simpl. rewrite Ha. simpl. by rewrite list_insert_id.
  - destruct (chan_send _ _) as [c| |] eqn:Hsend; [|done|].
    + apply chan_send_sent in Hsend as (_ & Hcl & _ & Hb). apply (inv_put ls _ x n cs); try done.
      * apply (stream_ok_mono (used_ids ls)); [apply used_grows|]. destruct Hst as (? & ? & ? & _ & _ & ?). by split_and!.
      * assert (received RSelect n (with_chans cs c (cs_claimChan cs) (cs_taken cs)) = received (RStream n msg) n cs) as Hr.
        { unfold received. simpl. rewrite Hb, decide_True, app_nil_r by done. done. }
        unfold routed. rewrite Hr. done.
    + unfold chan_send in Hsend. rewrite Hc1 in Hsend. by destruct (_ <? _)%nat.
Qed.

Lemma client_send_claim_ok ls x n claim :
  inv ls x → fresh (ls ++ [XSendClaim]) → x_loop x = RClaim n claim → step_ok ls XSendClaim (send_claim x n claim).
Proof.
  intros I [_ Hnd] Hlp. pose proof (c_loop _ _ I) as Hok. rewrite Hlp in Hok. destruct Hok as [cs Hn]. unfold send_claim. rewrite Hn.
  rewrite opened_quiet in Hnd by done. pose proof (c_routed _ _ I n cs Hn) as Hr. rewrite Hlp in Hr.
  pose proof (c_stream _ _ I n cs Hn) as (? & ? & ? & Hc1 & Hc2 & ?).
  destruct (chan_send _ _) as [c| |] eqn:Hsend; [|done|].
  - apply chan_send_sent in Hsend as (_ & Hcl & _ & _). apply (inv_put ls _ x n cs); try done; [|by rewrite Hlp].
    eapply stream_ok_mono; [apply used_grows|]. by split_and!.
  - unfold chan_send in Hsend. rewrite Hc2 in Hsend. by destruct (_ <? _)%nat.
Qed.

Lemma client_step_ok ls l x : inv ls x → fresh (ls ++ [l]) → step_ok ls l (step itoa cl recvType l x).
Proof.
  intros I Hf.
  assert (Hselect : ∀ n f, (∀ cs, x_streams x !! n = Some cs → cs_loop cs = FSelect → step_ok ls l (f cs)) → step_ok ls l (at_select x n f)).
  { intros n f Hg. unfold at_select. destruct (x_streams x !! n) as [cs|] eqn:Hn; [|done]. destruct (cs_loop cs) eqn:Hlp; try done. by apply Hg. }
  destruct l as [msg|claim| | | |drop| |k|n now ev pubErr|n now|n e|n e|n|n|n lc|]; cbn [step].
  - destruct (chan_send _ _); try done. by apply cinv_io; auto.
  - destruct (chan_send _ _); try done. by apply cinv_io; auto.
  - destruct (x_loop x) eqn:Hlp; try done. by apply read_stream_ok.
  - destruct (x_loop x) eqn:Hlp; try done. unfold read_claim. destruct (chan_recv _) as [claim c| |]; [|by apply cinv_io; auto|done].
    cbn [step_ok set_subs x_claimRequests]. destruct (x_claimRequests x !! cq_RequestId claim) as [n|] eqn:Ht; [|by apply cinv_io; auto].
    pose proof (cinv_io ls XReadClaim x (x_streamSub x) c (x_closed x) (x_loop x) I Logic.I (or_introl eq_refl)) as [J1 J2 J3 J4 J5 J6].
    split; try done; simpl; [apply (c_claims _ _ I) in Ht as (cs & Hn & _); by eexists|].
    intros n' cs Hn'. specialize (J6 n' cs Hn'). simpl in J6. by rewrite Hlp in J6.
  - destruct (x_loop x) eqn:Hlp; try done. unfold read_closed. destruct (x_closed x); [|done]. apply (cinv_io ls _ x); [done..|right]. by split.
  - destruct (x_loop x) eqn:Hlp; try done. by apply send_stream_ok.
  - destruct (x_loop x) eqn:Hlp; try done. by apply client_send_claim_ok.
  - by apply open_ok.
  - destruct (x_streams x !! n) as [cs|] eqn:Hn; [|done]. by apply client_opener_step_ok.
  - apply Hselect. intros. by apply take_message_ok.
  - destruct (x_streams x !! n) as [cs|] eqn:Hn; [|done]. destruct (cs_loop cs) eqn:Hlp; try done.
    pose proof (c_stream _ _ I n cs Hn) as (_ & _ & _ & Hc1 & Hc2 & _).
    apply (client_on_stream_ok ls _ x n cs); try done; [by left|]. intros s' _. split; [apply loop_handling_iff|done].
  - apply Hselect. intros cs Hn Hlp. destruct (b_canceled _); [|done]. by apply loop_closes_ok.
  - apply Hselect. intros cs Hn Hlp. destruct (x_closed x); [|done]. by apply loop_closes_ok.
  - destruct (x_streams x !! n) as [cs|] eqn:Hn; [|done]. destruct (cs_loop cs) eqn:Hlp; try done.
    pose proof (c_stream _ _ I n cs Hn) as (_ & _ & _ & Hc1 & Hc2 & _).
    destruct (returned _ _); [|done]. apply (cinv_same ls _ x n cs); try done. simpl. by rewrite Hlp.
  - destruct (x_streams x !! n) as [cs|] eqn:Hn; [|done]. destruct (of_user lc) eqn:Hu; [|done].
    pose proof (c_stream _ _ I n cs Hn) as (_ & _ & _ & Hc1 & Hc2 & Hh).
    apply (client_on_stream_ok ls _ x n cs); try done; [by destruct lc; auto; right|].
    intros s' Hs'. rewrite (step_user_handling _ _ _ Hu Hs'). done.
  - by apply cinv_io; auto.
Qed.

Lemma fresh_app ls1 ls2 : fresh (ls1 ++ ls2) → fresh ls1.
Proof.
  unfold fresh, used_ids, opened. rewrite bind_app, omap_app, fmap_app. intros [(? & _)%NoDup_app (? & _)%NoDup_app]. done.
Qed.

Lemma client_run_inv ls0 ls x x' : inv ls0 x → fresh (ls0 ++ ls) → run itoa cl recvType ls x = Some x' → inv (ls0 ++ ls) x'.
Proof.
  revert ls0 x. induction ls as [|l ls IH]; intros ls0 x I Hf Hr; simpl in Hr; [simplify_eq; by rewrite app_nil_r|].
  change (l :: ls) with ([l] ++ ls) in *. rewrite (assoc_L (++)) in *.
  pose proof (client_step_ok ls0 l x I (fresh_app _ _ Hf)) as Hok. destruct (step _ _ _ l x) as [x1| |]; [|done..]. by apply (IH _ x1).
Qed.

(** ** What an [OpenStream] does *)

(** The servers whose bids for an opening the bus delivered. *)
Definition bidders (ls : list (label (T := T))) k : list string :=
  omap (λ l, match l with
             | XDeliverClaim claim => if decide (cq_RequestId claim = op_requestID k) then Some (cq_ServerId claim) else None
             | _ => None end) ls.

(** What [selectServerUntil] takes for an opening: of claims, bids for it that the bus
    delivered. *)
Definition heard (ls : list (label (T := T))) k (ev : event) : Prop :=
  match ev with
  | EvClaim claim => XDeliverClaim claim ∈ ls ∧ cq_RequestId claim = op_requestID k
  | EvResponse _ => False
  | EvClosed | EvDone => True
  end.

Definition all_heard (ls : list (label (T := T))) k (evs : list (Z * event)) : Prop := ∀ e, e ∈ evs → heard ls k e.2.

#[local] Abbreviation selection_of k := (ro_SelectionOpts (op_opts k)).

(** Its variables are [v] after it took some of them. *)
Definition selecting (ls : list (label (T := T))) k (v : vars) : Prop :=
  ∃ t0 evs, all_heard ls k evs ∧ (∀ e, e ∈ evs → e.2 ≠ EvClosed) ∧
    ∀ rest, selectServerUntil itoa (selection_of k) t0 (evs ++ rest) = select_loop itoa (selection_of k) rest v.

Definition unless_function k (P : Prop) : Prop := SelectionFunc (selection_of k) = None → P.

(** A server that [selectServerUntil] chooses on them: unless a selection function does, a
    bidder. *)
Definition chosen (ls : list (label (T := T))) k (server : string) : Prop :=
  (∃ t0 evs sel, all_heard ls k evs ∧ selectServerUntil itoa (selection_of k) t0 evs = Some (sel, None) ∧ sel_serverID sel = server) ∧
  unless_function k (server ∈ bidders ls k).

(** What was published for an opening that may be acknowledged: a decision for a server
    when the method requires a claim, else nothing. *)
Definition granted (ls : list (label (T := T))) cs : Prop :=
  if ri_RequireClaim (op_info (cs_open cs)) then
    ∃ server, cs_grants cs = [MkClaimResponse (op_requestID (cs_open cs)) server] ∧ chosen ls (cs_open cs) server
  else cs_grants cs = [].

(** Why the opening of stream [n] fails, with what error: the bus took a publication badly,
    its context ended, the client was closed, or the selection failed. *)
Inductive failure (ls : list (label (T := T))) (closed : bool) (n : nat) k : error → Prop :=
| failed_publication now ev e : XOpener n now ev (Some e) ∈ ls → failure ls closed n k (newError Internal e)
| failed_context now pubErr e : XOpener n now (OCtxDone e) pubErr ∈ ls → failure ls closed n k (ctx_error e)
| failed_closed : closed = true → failure ls closed n k ErrClientClosed
| failed_selection t0 evs sel err : ri_RequireClaim (op_info k) = true → all_heard ls k evs →
    (∀ e, e ∈ evs → e.2 = EvClosed → closed = true) →
    selectServerUntil itoa (selection_of k) t0 evs = Some (sel, Some err) → failure ls closed n k err.

Definition failed (ls : list (label (T := T))) (closed : bool) (n : nat) cs (err : error) : Prop :=
  failure ls closed n (cs_open cs) err ∧ (cs_grants cs = [] ∨ granted ls cs).

Definition ended (ls : list (label (T := T))) (closed : bool) (n : nat) cs (err : option error) : Prop :=
  match err with
  | None => granted ls cs ∧ op_requestID (cs_open cs) ∈ b_acked (st_base (cs_st cs))
  | Some err => failed ls closed n cs err ∧ b_closed (st_base (cs_st cs)) = true
  end.

Definition task_ok (ls : list (label (T := T))) (closed : bool) (n : nat) cs : Prop :=
  let k := cs_open cs in
  match cs_task cs with
  | TPublish => cs_grants cs = []
  | TSelect v =>
      ri_RequireClaim (op_info k) = true ∧ cs_grants cs = [] ∧ selecting ls k v ∧
      (v_serverID v = "" ∨ unless_function k (v_serverID v ∈ bidders ls k))
  | TGrant server => ri_RequireClaim (op_info k) = true ∧ cs_grants cs = [] ∧ chosen ls k server
  | TAck => granted ls cs
  | TClosing _ err => failed ls closed n cs err
  | TLeaving err | TOver err => ended ls closed n cs err
  end.

(** What its channel of claims holds, and what was acknowledged, come from the bus. *)
Record end_base (ls : list (label (T := T))) cs : Prop := {
  en_claims claim : claim ∈ chan_buf (cs_claimChan cs) → XDeliverClaim claim ∈ ls ∧ cq_RequestId claim = op_requestID (cs_open cs);
  en_acked id : id ∈ b_acked (st_base (cs_st cs)) → ∃ msg, msg ∈ cs_taken cs ∧ sm_Body msg = Stream_Ack ∧ sm_RequestId msg = id;
  en_closers : closers_closed (cs_st cs)
}.

Definition end_ok (ls : list (label (T := T))) (closed : bool) (n : nat) cs : Prop := end_base ls cs ∧ task_ok ls closed n cs.

(** What the client's loop has was delivered. *)
Record loop_ok (ls : list (label (T := T))) x : Prop := {
  lo_claims claim : claim ∈ chan_buf (x_claimSub x) → XDeliverClaim claim ∈ ls;
  lo_msgs msg : msg ∈ chan_buf (x_streamSub x) ∨ msg ∈ x_read x → XDeliver msg ∈ ls;
  lo_claim n claim : x_loop x = RClaim n claim →
    XDeliverClaim claim ∈ ls ∧ ∃ k, cs_open <$> x_streams x !! n = Some k ∧ cq_RequestId claim = op_requestID k
}.

Record ends_ok (ls : list (label (T := T))) x : Prop := {
  eo_loop : loop_ok ls x;
  eo_ends n cs : x_streams x !! n = Some cs → end_ok ls (x_closed x) n cs
}.

Lemma in_snoc (ls : list (label (T := T))) l l' : l' ∈ ls → l' ∈ ls ++ [l].
Proof. intros. apply elem_of_app. by left. Qed.

Lemma bidders_snoc ls l k server : server ∈ bidders ls k → server ∈ bidders (ls ++ [l]) k.
Proof. intros. unfold bidders. rewrite omap_app. apply elem_of_app. by left. Qed.

Lemma bidder ls k claim : XDeliverClaim claim ∈ ls → cq_RequestId claim = op_requestID k → cq_ServerId claim ∈ bidders ls k.
Proof. intros Hin Hid. apply list_elem_of_omap. exists (XDeliverClaim claim). split; [done|]. by rewrite decide_True. Qed.

Lemma heard_snoc ls l k ev : heard ls k ev → heard (ls ++ [l]) k ev.
Proof. destruct ev; try done. intros [? ?]. by split; [apply in_snoc|]. Qed.

Lemma all_heard_snoc ls l k evs : all_heard ls k evs → all_heard (ls ++ [l]) k evs.
Proof. intros Hh e He. by apply heard_snoc, Hh. Qed.

Lemma selecting_snoc ls l k v : selecting ls k v → selecting (ls ++ [l]) k v.
Proof. intros (t0 & evs & ? & ?). exists t0, evs. split; [by apply all_heard_snoc|done]. Qed.

Lemma selecting_init ls k now : selecting ls k (init (selection_of k) now).
Proof. exists now, []. split_and!; [by intros e ?%elem_of_nil..|done]. Qed.

(** The turn on [ev] of a selection at [v]. *)
Lemma selecting_turn ls k v now ev : selecting ls k v → heard ls k ev →
  match turn_of itoa (selection_of k) now ev v with
  | Return sel err => ∃ t0 evs, all_heard ls k evs ∧ (∀ e, e ∈ evs → e.2 = EvClosed → ev = EvClosed) ∧
      selectServerUntil itoa (selection_of k) t0 evs = Some (sel, err)
  | Continue v' => selecting ls k v'
  end.
Proof.
  intros (t0 & evs & Hh & Hn & Hl) Hev.
  assert (Hh' : all_heard ls k (evs ++ [(now, ev)])) by (by intros e [?| ->%list_elem_of_singleton]%elem_of_app; [apply Hh|]).
  destruct (turn_of itoa (selection_of k) now ev v) as [sel err|v'] eqn:Ht.
  - exists t0, (evs ++ [(now, ev)]). split_and!; [done| |rewrite Hl; simpl; by rewrite Ht].
    intros e [He| ->%list_elem_of_singleton]%elem_of_app; [intros Hc; by destruct (Hn e He)|done].
  - exists t0, (evs ++ [(now, ev)]). split_and!; [done| |].
    + intros e [He| ->%list_elem_of_singleton]%elem_of_app; [by apply Hn|simpl; by intros ->].
    + intros rest. rewrite <- app_assoc, Hl. simpl. by rewrite Ht.
Qed.

Lemma chosen_snoc ls l k server : chosen ls k server → chosen (ls ++ [l]) k server.
Proof.
  intros [(t0 & evs & sel & Hh & Hs) Hb]. split; [|intros Hf; by apply bidders_snoc, Hb].
  exists t0, evs, sel. split; [by apply all_heard_snoc|done].
Qed.

Lemma granted_later ls l cs cs' : cs_open cs' = cs_open cs → cs_grants cs' = cs_grants cs → granted ls cs → granted (ls ++ [l]) cs'.
Proof.
  unfold granted. intros -> ->. destruct (ri_RequireClaim _); [|done]. intros (server & ? & ?). exists server. split; [done|by apply chosen_snoc].
Qed.

Lemma failed_later ls l closed closed' n cs cs' err : cs_open cs' = cs_open cs → cs_grants cs' = cs_grants cs →
  (closed = true → closed' = true) → failed ls closed n cs err → failed (ls ++ [l]) closed' n cs' err.
Proof.
  intros Ho Hg Hc [Hf Hgr]. split.
  - rewrite Ho. destruct Hf; [eapply failed_publication|eapply failed_context|apply failed_closed|eapply failed_selection]; eauto using in_snoc, all_heard_snoc.
  - rewrite Hg. destruct Hgr as [?|?]; [by left|right; by eapply granted_later].
Qed.

Lemma ended_later ls l closed closed' n cs cs' err : cs_open cs' = cs_open cs → cs_grants cs' = cs_grants cs →
  (closed = true → closed' = true) → b_acked (st_base (cs_st cs)) ⊆ b_acked (st_base (cs_st cs')) →
  (b_closed (st_base (cs_st cs)) = true → b_closed (st_base (cs_st cs')) = true) →
  ended ls closed n cs err → ended (ls ++ [l]) closed' n cs' err.
Proof.
  intros Ho Hg Hc Ha Hb. destruct err as [err|]; intros [Hx1 Hx2].
  - split; [by eapply failed_later|auto].
  - split; [by eapply granted_later|]. rewrite Ho. by apply Ha.
Qed.

Lemma task_later ls l closed closed' n cs cs' : cs_open cs' = cs_open cs → cs_grants cs' = cs_grants cs → cs_task cs' = cs_task cs →
  (closed = true → closed' = true) → b_acked (st_base (cs_st cs)) ⊆ b_acked (st_base (cs_st cs')) →
  (b_closed (st_base (cs_st cs)) = true → b_closed (st_base (cs_st cs')) = true) →
  task_ok ls closed n cs → task_ok (ls ++ [l]) closed' n cs'.
Proof.
  intros Ho Hg Ht Hc Ha Hb. unfold task_ok. rewrite Ht. destruct (cs_task cs) as [|v|server| |c err|err|err].
  - by rewrite Hg.
  - rewrite Ho, Hg. intros (? & ? & ? & Hv). split_and!; [done|done|by apply selecting_snoc|].
    destruct Hv as [?|Hv]; [by left|right; intros Hf; by apply bidders_snoc, Hv].
  - rewrite Ho, Hg. intros (? & ? & ?). split_and!; [done|done|by apply chosen_snoc].
  - by apply granted_later.
  - by apply failed_later.
  - by apply ended_later.
  - by apply ended_later.
Qed.

(** A stream that stays what it is, but for its channels and its loop. *)
Lemma base_same ls l cs cs' :
  end_base ls cs → cs_open cs' = cs_open cs → cs_st cs' = cs_st cs →
  (∀ claim, claim ∈ chan_buf (cs_claimChan cs') → claim ∈ chan_buf (cs_claimChan cs) ∨
     (XDeliverClaim claim ∈ ls ∧ cq_RequestId claim = op_requestID (cs_open cs))) →
  cs_taken cs ⊆ cs_taken cs' → end_base (ls ++ [l]) cs'.
Proof.
  intros [E1 E2 E3] Ho Hst Hcl Htk. split; [| |by rewrite Hst].
  - intros claim Hin. rewrite Ho. destruct (Hcl claim Hin) as [Hold|[? ?]]; [|by split; [apply in_snoc|]].
    destruct (E1 claim Hold). by split; [apply in_snoc|].
  - intros id. rewrite Hst. intros (msg & Hin & ?)%E2. exists msg. split; [by apply Htk|done].
Qed.

Lemma end_later ls l closed closed' n cs cs' :
  end_ok ls closed n cs → cs_open cs' = cs_open cs → cs_st cs' = cs_st cs → cs_grants cs' = cs_grants cs → cs_task cs' = cs_task cs →
  (closed = true → closed' = true) →
  (∀ claim, claim ∈ chan_buf (cs_claimChan cs') → claim ∈ chan_buf (cs_claimChan cs) ∨
     (XDeliverClaim claim ∈ ls ∧ cq_RequestId claim = op_requestID (cs_open cs))) →
  cs_taken cs ⊆ cs_taken cs' → end_ok (ls ++ [l]) closed' n cs'.
Proof.
  intros [Hb Ht] Ho Hst Hg Htk Hc Hcl Htak. split; [by eapply base_same|].
  apply (task_later ls l closed closed' n cs); try done; by rewrite Hst.
Qed.

(** A step of a stream. *)
Lemma base_step ls l cs lc s' lp t :
  end_base ls cs → StreamCore.step lc (cs_st cs) = StreamCore.Next s' →
  (∀ msg, lc = LHandle msg → msg ∈ cs_taken cs) → end_base (ls ++ [l]) (with_st cs s' lp t).
Proof.
  intros [E1 E2 E3] Hs Hm. destruct (step_acked _ _ _ Hs) as [_ Hnew]. split; simpl; [| |by eapply step_closers_closed].
  - intros claim Hin. destruct (E1 claim Hin). by split; [apply in_snoc|].
  - intros id [Hin|(msg & -> & Hb & Hid)]%Hnew; [by apply E2|]. exists msg. split; [by apply Hm|done].
Qed.

Lemma ends_put ls l x n cs' sc cr lp : ends_ok ls x → (cs_open <$> x_streams x !! n) = Some (cs_open cs') →
  (lp = x_loop x ∨ lp = RSelect) → end_ok (ls ++ [l]) (x_closed x) n cs' →
  ends_ok (ls ++ [l]) (set_loop (set_tables x sc cr (<[n := cs']> (x_streams x))) lp).
Proof.
  intros [[L1 L2 L3] E] Hn Hlp He. split; [split|]; simpl.
  - intros. by apply in_snoc, L1.
  - intros. by apply in_snoc, L2.
  - intros n' claim Hl. destruct Hlp as [->| ->]; [|done]. destruct (L3 n' claim Hl) as (? & k & Hk & Hid). split; [by apply in_snoc|].
    exists k. split; [|done]. destruct (decide (n' = n)) as [->|]; [|by rewrite list_lookup_insert_ne].
    destruct (x_streams x !! n) eqn:Hx; [|done]. rewrite list_lookup_insert_eq by (by eapply lookup_lt_Some). simpl in *. congruence.
  - intros n' cs0 [[-> ->]|[_ Hn']]%list_lookup_insert_cases; [done|]. apply (end_later ls l (x_closed x) _ n' cs0); auto.
Qed.

(** The streams stay. *)
Lemma ends_io ls l x ss cc b lp rd : ends_ok ls x → (x_closed x = true → b = true) →
  loop_ok (ls ++ [l]) (MkSys b ss cc lp (x_streamChannels x) (x_claimRequests x) (x_streams x) rd) →
  ends_ok (ls ++ [l]) (MkSys b ss cc lp (x_streamChannels x) (x_claimRequests x) (x_streams x) rd).
Proof. intros [_ E] Hb Hl. split; [done|]. simpl. intros n cs Hn. apply (end_later ls l (x_closed x) b n cs); auto. Qed.

Lemma on_stream_ends ls l x n cs0 cs lc after x' :
  ends_ok ls x → x_streams x !! n = Some cs0 → cs_open cs = cs_open cs0 → end_base ls cs →
  (∀ msg, lc = LHandle msg → msg ∈ cs_taken cs) →
  (∀ s' lp t, StreamCore.step lc (cs_st cs) = StreamCore.Next s' → after s' = (lp, t) → task_ok (ls ++ [l]) (x_closed x) n (with_st cs s' lp t)) →
  on_stream x n cs lc after = Next x' → ends_ok (ls ++ [l]) x'.
Proof.
  intros Hx Hn Ho He Hm Ht. unfold on_stream. destruct (StreamCore.step lc (cs_st cs)) as [s'| |] eqn:Hs; [|done..].
  destruct (after s') as [lp t] eqn:Ha. intros [= <-].
  assert (Hput : ∀ sc, set_tables x sc (x_claimRequests x) (<[n := with_st cs s' lp t]> (x_streams x)) =
    set_loop (set_tables x sc (x_claimRequests x) (<[n := with_st cs s' lp t]> (x_streams x))) (x_loop x)) by done.
  unfold put_stream. rewrite Hput. apply ends_put; [done|rewrite Hn; simpl; by rewrite Ho|by left|].
  split; [by eapply base_step|by eapply Ht].
Qed.

(** A step of the stream that its [OpenStream] does not see. *)
Lemma on_stream_quiet ls l x n cs0 cs lc after x' :
  ends_ok ls x → x_streams x !! n = Some cs0 → cs_open cs = cs_open cs0 → end_ok ls (x_closed x) n cs →
  (∀ msg, lc = LHandle msg → msg ∈ cs_taken cs) → (∀ s', (after s').2 = cs_task cs) →
  on_stream x n cs lc after = Next x' → ends_ok (ls ++ [l]) x'.
Proof.
  intros Hx Hn Ho [He Htask] Hm Ht. apply (on_stream_ends ls l x n cs0); [done..|]. intros s' lp t Hs Ha.
  specialize (Ht s'). rewrite Ha in Ht. simpl in Ht. subst t.
  apply (task_later ls l (x_closed x) _ n cs); try done; simpl; [by destruct (step_acked _ _ _ Hs)|by eapply step_closed].
Qed.

Lemma goes_ends ls l x n cs0 cs t x' :
  ends_ok ls x → x_streams x !! n = Some cs0 → cs_open cs = cs_open cs0 → end_base ls cs →
  task_ok (ls ++ [l]) (x_closed x) n (with_st cs (cs_st cs) (cs_loop cs) t) → goes x n cs t = Next x' → ends_ok (ls ++ [l]) x'.
Proof.
  intros Hx Hn Ho He Ht [= <-]. apply (ends_put ls l x n _ _ _ (x_loop x)); [done|rewrite Hn; simpl; by rewrite Ho|by left|].
  split; [|done]. by apply (base_same ls l cs); auto.
Qed.

Lemma fails_ends ls l x n cs0 cs cause err x' :
  ends_ok ls x → x_streams x !! n = Some cs0 → cs_open cs = cs_open cs0 → end_base ls cs →
  failed (ls ++ [l]) (x_closed x) n cs err → fails x n cs cause err = Next x' → ends_ok (ls ++ [l]) x'.
Proof. intros Hx Hn Ho He Hf. apply (on_stream_ends ls l x n cs0); [done..|]. by intros s' lp t _ [= <- <-]. Qed.

(** *** [OpenStream]'s steps *)

Lemma client_returned_closed s c : closers_closed s → returned s c = true → b_closed (st_base s) = true.
Proof.
  unfold returned. intros Hc. destruct (st_closers s !! c) as [t|] eqn:Ht; [|done]. destruct t; try done. intros _.
  by destruct (Hc c _ Ht) as [[? ?]|?].
Qed.

Lemma select_ends ls l x n cs0 cs v now ev x' :
  ends_ok ls x → x_streams x !! n = Some cs0 → cs_open cs = cs_open cs0 → end_base ls cs →
  ri_RequireClaim (op_info (cs_open cs)) = true → cs_grants cs = [] → selecting ls (cs_open cs) v →
  (v_serverID v = "" ∨ unless_function (cs_open cs) (v_serverID v ∈ bidders ls (cs_open cs))) →
  heard ls (cs_open cs) ev → (ev = EvClosed → x_closed x = true) →
  select_step itoa x n cs now ev v = Next x' → ends_ok (ls ++ [l]) x'.
Proof.
  intros Hx Hn Ho He Hr Hg Hsel Hv Hh Hcl. unfold select_step. pose proof (selecting_turn ls (cs_open cs) v now ev Hsel Hh) as Hsel'.
  assert (Hknown : SelectionFunc (ro_SelectionOpts (op_opts (cs_open cs))) = None →
    match turn_of itoa (ro_SelectionOpts (op_opts (cs_open cs))) now ev v with
    | Return sel None => sel_serverID sel ∈ bidders ls (cs_open cs)
    | Return _ (Some _) => True
    | Continue v' => v_serverID v' = "" ∨ v_serverID v' ∈ bidders ls (cs_open cs) end).
  { intros Hf. pose proof (turn_known itoa _ now ev v (bidders ls (cs_open cs)) Hf) as Ht.
    assert (Hin : ∀ server, server ∈ bidders ls (cs_open cs) ++ claim_of ev → server ∈ bidders ls (cs_open cs)).
    { intros server [?|Hc]%elem_of_app; [done|]. destruct ev; simpl in Hc; try by apply elem_of_nil in Hc.
      apply list_elem_of_singleton in Hc as ->. destruct Hh. by apply bidder. }
    assert (v_serverID v = "" ∨ v_serverID v ∈ bidders ls (cs_open cs)) as Hv' by (destruct Hv as [?|Hc]; [by left|right; by apply Hc]).
    specialize (Ht Hv' ltac:(by intros res ->)). destruct (turn_of _ _ _ _ _) as [sel [e|]|v']; [done|by apply Hin|]. destruct Ht as [?|?]; [by left|right; by apply Hin]. }
  destruct (turn_of itoa (ro_SelectionOpts (op_opts (cs_open cs))) now ev v) as [sel [e|]|v'] eqn:Ht.
  - destruct Hsel' as (t0 & evs & Hall & Hend & Hrun). apply (fails_ends ls l x n cs0); [done..|]. split; [|by left].
    apply (failed_selection _ _ _ _ t0 evs sel); [done|by apply all_heard_snoc| |done]. intros e' He' Hc. by apply Hcl, (Hend e').
  - destruct Hsel' as (t0 & evs & Hall & _ & Hrun). apply (goes_ends ls l x n cs0); [done..|]. split_and!; [done|done|]. apply chosen_snoc.
    split; [by exists t0, evs, sel|]. exact Hknown.
  - apply (goes_ends ls l x n cs0); [done..|]. split_and!; [done|done|by apply selecting_snoc|]. simpl.
    destruct (decide (v_serverID v' = "")) as [?|Hne]; [by left|right]. intros Hf. apply bidders_snoc. by destruct (Hknown Hf).
Qed.

Lemma take_event_ends ls x cs ev ev' cs' : end_base ls cs → take_event x cs ev = Some (ev', cs') →
  cs_open cs' = cs_open cs ∧ cs_grants cs' = cs_grants cs ∧ cs_st cs' = cs_st cs ∧ end_base ls cs' ∧
  match ev' with
  | OSel ev => heard ls (cs_open cs) ev ∧ (ev = EvClosed → x_closed x = true)
  | OClosed => x_closed x = true
  | OCtxDone e => ev = OCtxDone e
  | OAcked => op_requestID (cs_open cs) ∈ b_acked (st_base (cs_st cs))
  end.
Proof.
  intros He. unfold take_event. destruct ev as [[| |c|res]| |e|].
  - destruct (x_closed x) eqn:Hc; [|done]. by intros [= <- <-].
  - by intros [= <- <-].
  - destruct (chan_recv (cs_claimChan cs)) as [claim c'| |] eqn:Hr; [|done..]. intros [= <- <-]. apply chan_recv_closed in Hr as (_ & _ & Hb).
    destruct He as [E1 E2 E3]. destruct (E1 claim) as [Hin Hid]; [rewrite Hb; by left|]. split_and!; try done.
    split; simpl; [|done..]. intros c2 Hc2. apply E1. rewrite Hb. by right.
  - done.
  - case_bool_decide; [|done]. by intros [= <- <-].
  - by intros [= <- <-].
  - destruct (x_closed x) eqn:Hc; [|done]. by intros [= <- <-].
Qed.

Lemma opener_ends ls x n cs now ev pubErr x' :
  ends_ok ls x → x_streams x !! n = Some cs → opener_step itoa x n cs now ev pubErr = Next x' →
  ends_ok (ls ++ [XOpener n now ev pubErr]) x'.
Proof.
  intros Hx Hn. destruct (eo_ends _ _ Hx n cs Hn) as [He Ht]. set (l := XOpener n now ev pubErr).
  assert (Hlast : l ∈ ls ++ [l]) by (apply elem_of_app; right; by left).
  unfold opener_step, task_ok in *. destruct (cs_task cs) as [|v|server| |c err|err|err] eqn:Htask; [| | | | | |done].
  - destruct pubErr as [e|].
    + apply (fails_ends ls l x n cs); [done..|]. split; [by eapply failed_publication|by left].
    + apply (goes_ends ls l x n cs); [done..|]. unfold task_ok, granted. simpl.
      destruct (ri_RequireClaim (op_info (cs_open cs))) eqn:Hr; simpl.
      * split_and!; [done|done|apply selecting_init|by left].
      * done.
  - destruct Ht as (Hr & Hg & Hsel & Hv). destruct (take_event x cs ev) as [[ev' cs']|] eqn:Hev; [|done].
    destruct (take_event_ends ls x cs ev ev' cs' He Hev) as (Ho & Hg' & _ & He' & Hev'). destruct ev' as [ev'| | |]; try done.
    apply (select_ends ls l x n cs); rewrite ?Ho, ?Hg'; try done; by destruct Hev'.
  - destruct Ht as (Hr & Hg & Hc). set (cs' := add_grant cs (MkClaimResponse (op_requestID (cs_open cs)) server)).
    assert (Hgr : granted (ls ++ [l]) cs').
    { unfold granted. simpl. rewrite Hr, Hg. exists server. split; [done|by apply chosen_snoc]. }
    assert (He' : end_base ls cs') by (by destruct He; split). destruct pubErr as [e|].
    + apply (fails_ends ls l x n cs cs'); [done..|]. split; [by eapply failed_publication|by right].
    + by apply (goes_ends ls l x n cs cs').
  - destruct (take_event x cs ev) as [[ev' cs']|] eqn:Hev; [|done].
    destruct (take_event_ends ls x cs ev ev' cs' He Hev) as (Ho & Hg' & Hst & He' & Hev').
    assert (Hgr : granted (ls ++ [l]) cs') by (by eapply granted_later).
    destruct ev' as [ev'| |e|]; [done|..].
    + apply (goes_ends ls l x n cs cs'); [done..|]. split; [by eapply granted_later|]. simpl. by rewrite Ho, Hst.
    + subst ev. apply (fails_ends ls l x n cs cs'); [done..|]. split; [by eapply failed_context|by right].
    + apply (fails_ends ls l x n cs cs'); [done..|]. split; [by apply failed_closed|by right].
  - destruct (returned (cs_st cs) c) eqn:Hret; [|done]. apply (goes_ends ls l x n cs cs); [done..|]. split; simpl.
    + by apply (failed_later ls l (x_closed x) _ n cs).
    + eapply client_returned_closed; [apply He|exact Hret].
  - intros [= <-]. apply (ends_put ls l x n _ _ _ (x_loop x)); [done|by rewrite Hn|by left|]. split; [by apply (base_same ls l cs); auto|].
    by apply (ended_later ls l (x_closed x) _ n cs).
Qed.

(** *** Every step *)

Lemma loop_ok_snoc ls l x ss cc b lp sc cr : loop_ok ls x →
  (∀ claim, claim ∈ chan_buf cc → claim ∈ chan_buf (x_claimSub x) ∨ l = XDeliverClaim claim) →
  (∀ msg, msg ∈ chan_buf ss → msg ∈ chan_buf (x_streamSub x) ∨ l = XDeliver msg) →
  (lp = x_loop x ∨ ∀ n claim, lp ≠ RClaim n claim) →
  loop_ok (ls ++ [l]) (MkSys b ss cc lp sc cr (x_streams x) (x_read x)).
Proof.
  intros [L1 L2 L3] Hc Hm Hlp. assert (Hl : l ∈ ls ++ [l]) by (apply elem_of_app; right; by left). split; simpl.
  - intros claim [?| <-]%Hc; [by apply in_snoc, L1|done].
  - intros msg [[?| <-]%Hm|?]; [apply in_snoc, L2; by left|done|apply in_snoc, L2; by right].
  - intros n claim Heq. destruct Hlp as [->|Hno]; [|by destruct (Hno n claim)]. destruct (L3 n claim Heq) as [? ?]. by split; [apply in_snoc|].
Qed.

Lemma recv_sub {A} (c c' : chan A) a : chan_recv c = Received a c' → a ∈ chan_buf c ∧ ∀ b, b ∈ chan_buf c' → b ∈ chan_buf c.
Proof. intros (_ & _ & Hb)%chan_recv_closed. rewrite Hb. split; [by left|by right]. Qed.

Lemma send_buf {A} (c c' : chan A) a : chan_send c a = Sent c' → ∀ b, b ∈ chan_buf c' → b ∈ chan_buf c ∨ b = a.
Proof. intros (_ & _ & _ & Hb)%chan_send_sent. rewrite Hb. intros b [?|?%list_elem_of_singleton]%elem_of_app; auto. Qed.

Lemma client_step_ends ls l x x' : inv ls x → ends_ok ls x → step itoa cl recvType l x = Next x' → ends_ok (ls ++ [l]) x'.
Proof.
  intros I Hx Hs. pose proof Hx as [HL HE]. pose proof HL as [L1 L2 L3].
  destruct l as [msg|claim| | | |drop| |k|n now ev pubErr|n now|n e|n e|n|n|n lc|]; cbn [step] in Hs.
  - destruct (chan_send _ _) as [c| |] eqn:Hc; try done. injection Hs as <-. apply (ends_io ls _ x); [done|done|]. apply loop_ok_snoc; auto.
    intros m [?| ->]%(send_buf _ _ _ Hc); auto.
  - destruct (chan_send _ _) as [c| |] eqn:Hc; try done. injection Hs as <-. apply (ends_io ls _ x); [done|done|]. apply loop_ok_snoc; auto.
    intros m [?| ->]%(send_buf _ _ _ Hc); auto.
  - destruct (x_loop x) eqn:Hlp; try done. unfold read_stream in Hs. destruct (chan_recv _) as [msg c| |] eqn:Hc; [| |done].
    + destruct (recv_sub _ _ _ Hc) as [Hin Hsub].
      assert (Hy : ∀ lp, (∀ n claim, lp ≠ RClaim n claim) → ends_ok (ls ++ [XReadStream]) (set_loop (set_read (set_subs x c (x_claimSub x)) (x_read x ++ [msg])) lp)).
      { intros lp Hno. apply (ends_io ls _ x); [done|done|]. split; simpl.
        - intros. by apply in_snoc, L1.
        - intros m [?|[?| ->%list_elem_of_singleton]%elem_of_app]; apply in_snoc, L2; [left; by apply Hsub|by right|by left].
        - intros n claim ->. by destruct (Hno n claim). }
      injection Hs as <-. destruct (x_streamChannels x !! _); [by apply Hy|]. specialize (Hy RSelect ltac:(done)).
      unfold set_loop in Hy. simpl in Hy. unfold set_read, set_subs. simpl. by rewrite Hlp.
    + injection Hs as <-. apply (ends_io ls _ x); [done|done|]. apply loop_ok_snoc; auto.
  - destruct (x_loop x) eqn:Hlp; try done. unfold read_claim in Hs. destruct (chan_recv _) as [claim c| |] eqn:Hc; [| |done].
    + destruct (recv_sub _ _ _ Hc) as [Hin Hsub]. injection Hs as <-. cbn [set_subs x_claimRequests].
      destruct (x_claimRequests x !! cq_RequestId claim) as [n|] eqn:Ht.
      * apply (ends_io ls _ x); [done|done|]. split; simpl; [intros c2 Hc2; apply in_snoc, L1; by apply Hsub|intros; by apply in_snoc, L2|].
        intros n' claim' [= <- <-]. split; [by apply in_snoc, L1|]. apply (c_claims _ _ I) in Ht as (cs & Hn & Hid & _).
        exists (cs_open cs). by rewrite Hn.
      * apply (ends_io ls _ x); [done|done|]. apply loop_ok_snoc; auto.
    + injection Hs as <-. apply (ends_io ls _ x); [done|done|]. apply loop_ok_snoc; auto.
  - destruct (x_loop x) eqn:Hlp; try done. unfold read_closed in Hs. destruct (x_closed x) eqn:Hc; [|done]. injection Hs as <-.
    unfold set_loop, set_subs. cbn [x_closed x_streamSub x_claimSub x_streamChannels x_claimRequests x_streams x_read].
    apply (ends_io ls _ x); [done|done|]. apply loop_ok_snoc; auto.
  - destruct (x_loop x) as [|n msg| |] eqn:Hlp; try done. unfold send_stream in Hs. destruct (x_streams x !! n) as [cs|] eqn:Hn; [|done].
    destruct drop; [destruct (b_adapterClosed _); [|done]; injection Hs as <-; apply (ends_io ls _ x); [done|done|]; by apply loop_ok_snoc; auto|].
    destruct (chan_send _ _) as [c| |]; try done. injection Hs as <-. apply ends_put; [done|by rewrite Hn|by right|]. apply (end_later ls _ (x_closed x) _ n cs); auto.
  - destruct (x_loop x) as [| |n claim|] eqn:Hlp; try done. unfold send_claim in Hs. destruct (x_streams x !! n) as [cs|] eqn:Hn; [|done].
    destruct (chan_send _ _) as [c| |] eqn:Hc; try done. injection Hs as <-. destruct (L3 n claim eq_refl) as (Hin & k & Hk & Hid). rewrite Hn in Hk. injection Hk as <-.
    apply ends_put; [done|by rewrite Hn|by right|]. apply (end_later ls _ (x_closed x) _ n cs); auto.
    intros c2 [?| ->]%(send_buf _ _ _ Hc); [by left|by right].
  - injection Hs as <-. split.
    + split; simpl; [intros; by apply in_snoc, L1|intros; by apply in_snoc, L2|]. intros n claim Hlp. destruct (L3 n claim Hlp) as (? & k2 & Hk & ?).
      split; [by apply in_snoc|]. exists k2. destruct (x_streams x !! n) eqn:Hn; [|done]. by rewrite (lookup_app_l_Some _ _ _ _ Hn).
    + simpl. intros n cs [Hn|[_ Hn]]%lookup_app_Some; [by apply (end_later ls _ (x_closed x) _ n cs); auto|].
      apply list_lookup_singleton_Some in Hn as [_ <-]. split; [split; simpl|done].
      * by intros claim ?%elem_of_nil.
      * by intros id ?%elem_of_empty.
      * by intros c t.
  - destruct (x_streams x !! n) as [cs|] eqn:Hn; [|done]. by eapply opener_ends.
  - unfold at_select in Hs. destruct (x_streams x !! n) as [cs|] eqn:Hn; [|done]. destruct (cs_loop cs); try done. unfold take_message in Hs.
    destruct (chan_recv _) as [im c| |]; try done. set (cs' := with_chans cs c (cs_claimChan cs) (cs_taken cs ++ [im])) in *.
    assert (He' : end_ok ls (x_closed x) n cs').
    { destruct (HE n cs Hn) as [[E1 E2 E3] Ht]. split; [|exact Ht]. split; simpl; [done| |done].
      intros id (m & Hm & ?)%E2. exists m. split; [apply elem_of_app; by left|done]. }
    destruct (now <? sm_Expiry im).
    + refine (on_stream_quiet ls _ x n cs cs' _ _ x' Hx Hn eq_refl He' _ _ Hs); [|done].
      intros m [= <-]. simpl. apply elem_of_app. right. by left.
    + injection Hs as <-. apply (ends_put ls _ x n _ _ _ (x_loop x)); [done|by rewrite Hn|by left|]. by apply (end_later ls _ (x_closed x) _ n cs'); auto.
  - destruct (x_streams x !! n) as [cs|] eqn:Hn; [|done]. destruct (cs_loop cs); try done.
    by refine (on_stream_quiet ls _ x n cs cs _ _ x' Hx Hn eq_refl (HE n cs Hn) _ _ Hs).
  - unfold at_select in Hs. destruct (x_streams x !! n) as [cs|] eqn:Hn; [|done]. destruct (cs_loop cs); try done. destruct (b_canceled _); [|done].
    by refine (on_stream_quiet ls _ x n cs cs _ _ x' Hx Hn eq_refl (HE n cs Hn) _ _ Hs).
  - unfold at_select in Hs. destruct (x_streams x !! n) as [cs|] eqn:Hn; [|done]. destruct (cs_loop cs); try done. destruct (x_closed x) eqn:Hc; [|done].
    rewrite <- Hc in *. by refine (on_stream_quiet ls _ x n cs cs _ _ x' Hx Hn eq_refl (HE n cs Hn) _ _ Hs).
  - destruct (x_streams x !! n) as [cs|] eqn:Hn; [|done]. destruct (cs_loop cs); try done. destruct (returned _ _); [|done]. injection Hs as <-.
    apply (ends_put ls _ x n _ _ _ (x_loop x)); [done|by rewrite Hn|by left|]. apply (end_later ls _ (x_closed x) _ n cs); auto.
  - destruct (x_streams x !! n) as [cs|] eqn:Hn; [|done]. destruct (of_user lc) eqn:Hu; [|done].
    refine (on_stream_quiet ls _ x n cs cs _ _ x' Hx Hn eq_refl (HE n cs Hn) _ _ Hs); [|done]. by intros m ->.
  - injection Hs as <-. apply (ends_io ls _ x); [done|done|]. apply loop_ok_snoc; auto.
Qed.

Lemma client_run_ends ls0 ls x x' :
  inv ls0 x → ends_ok ls0 x → fresh (ls0 ++ ls) → run itoa cl recvType ls x = Some x' → ends_ok (ls0 ++ ls) x'.
Proof.
  revert ls0 x. induction ls as [|l ls IH]; intros ls0 x I Hx Hf Hr; simpl in Hr; [simplify_eq; by rewrite app_nil_r|].
  change (l :: ls) with ([l] ++ ls) in *. rewrite (assoc_L (++)) in *.
  pose proof (client_step_ok ls0 l x I (fresh_app _ _ Hf)) as Hok. destruct (step _ _ _ l x) as [x1| |] eqn:Hs; [|done..].
  apply (IH _ x1 Hok); [|done..]. by eapply client_step_ends.
Qed.
End client_stream_invariant.

(** ** Properties *)

(** No goroutine of a client panics over its streams, in any interleaving of openings,
    sends, closes, answers, messages and the client's own closing, when IDs are drawn
    fresh: no send on a closed channel, no channel closed twice. *)
Theorem client_streams_never_panic `{GrpcApi} `{!StatusApi} `{!Codec} {T : carried} (itoa : Z → string) (cl : RPCClient T)
    (recvType : string) (ls : list (label (T := T))) (l : label (T := T)) (x : sys (T := T)) :
  fresh (ls ++ [l]) → run itoa cl recvType ls (start cl) = Some x → step itoa cl recvType l x ≠ Panic.
Proof.
  intros Hf Hr Hp. pose proof (client_run_inv itoa cl recvType [] ls _ x (start_client_inv cl) (fresh_app _ _ Hf) Hr) as I.
  pose proof (client_step_ok itoa cl recvType ls l x I Hf) as Hok. by rewrite Hp in Hok.
Qed.

(** C23: streams do not see each other's messages: what a stream's loop took, with what
    waits in its channel and what the client's loop is about to send there, is in their
    order and none twice the messages with its ID that the client read since it was
    opened, all of them until it is closed.  The client's tables have exactly the streams
    that are not closed and the requests of the [OpenStream]s that have not returned. *)
Theorem client_streams_isolated `{GrpcApi} `{!StatusApi} `{!Codec} {T : carried} (itoa : Z → string) (cl : RPCClient T)
    (recvType : string) (ls : list (label (T := T))) (x : sys (T := T)) :
  fresh ls → run itoa cl recvType ls (start cl) = Some x →
  (∀ n cs, x_streams x !! n = Some cs →
     received (x_loop x) n cs `prefix_of` addressed (x_read x) cs ∧
     (adapterClosed cs = false → received (x_loop x) n cs = addressed (x_read x) cs)) ∧
  (∀ id n, x_streamChannels x !! id = Some n ↔
     ∃ cs, x_streams x !! n = Some cs ∧ op_streamID (cs_open cs) = id ∧ adapterClosed cs = false) ∧
  (∀ id n, x_claimRequests x !! id = Some n ↔
     ∃ cs, x_streams x !! n = Some cs ∧ op_requestID (cs_open cs) = id ∧ over cs = false).
Proof.
  intros Hf Hr. pose proof (client_run_inv itoa cl recvType [] ls _ x (start_client_inv cl) Hf Hr) as I.
  split; [|by split; apply I]. intros n cs Hn. by destruct (c_routed _ _ I n cs Hn) as (_ & ? & ?).
Qed.

(** C24: how an [OpenStream] ends, in every interleaving of its goroutine with the client's
    loop, the stream's and its user's.  If it returns the stream, its request was
    acknowledged, by a message that the bus delivered to the client and the stream's loop
    took; and if the method requires a claim, it published one decision, for its request
    and a server that had bid for it (or that the caller's selection function chose), and
    else none.  If it returns an error, the stream is closed, no more than that was
    published, and the error is the reason: a publication failed, the context ended, the
    client was closed, or the selection failed.  When it has returned, the client no longer
    takes claims for it. *)
Theorem client_openings_end `{GrpcApi} `{!StatusApi} `{!Codec} {T : carried} (itoa : Z → string) (cl : RPCClient T)
    (recvType : string) (ls : list (label (T := T))) (x : sys (T := T)) (n : nat) (cs : cstream (T := T)) (err : option error) :
  fresh ls → run itoa cl recvType ls (start cl) = Some x → x_streams x !! n = Some cs → cs_task cs = TOver err →
  x_claimRequests x !! op_requestID (cs_open cs) = None ∧
  match err with
  | None =>
      (∃ msg, XDeliver msg ∈ ls ∧ msg ∈ cs_taken cs ∧ sm_Body msg = Stream_Ack ∧ sm_RequestId msg = op_requestID (cs_open cs) ∧
         sm_StreamId msg = op_streamID (cs_open cs)) ∧
      granted itoa ls cs
  | Some err =>
      b_closed (st_base (cs_st cs)) = true ∧ failure itoa ls (x_closed x) n (cs_open cs) err ∧ (cs_grants cs = [] ∨ granted itoa ls cs)
  end.
Proof.
  intros Hf Hr Hn Ht. pose proof (client_run_inv itoa cl recvType [] ls _ x (start_client_inv cl) Hf Hr) as I.
  assert (Hends : ends_ok itoa ls x).
  { apply (client_run_ends itoa cl recvType [] ls (start cl)); [apply start_client_inv| |done..]. split; [split|]; simpl;
      [by intros ? ?%elem_of_nil|by intros ? [?%elem_of_nil|?%elem_of_nil]|done|by intros ? ?]. }
  destruct (eo_ends _ _ _ Hends n cs Hn) as [He Htask]. unfold task_ok in Htask. rewrite Ht in Htask. split.
  - destruct (x_claimRequests x !! op_requestID (cs_open cs)) as [m|] eqn:Hm; [|done].
    apply (c_claims _ _ I) in Hm as (cs' & Hm & Hid & Hov). assert (m = n) as ->.
    { eapply (opened_inj op_requestID); [done| |done..]. eapply sublist_NoDup; [apply (proj1 Hf)|apply opened_sublist]. }
    simplify_eq. unfold over in Hov. by rewrite Ht in Hov.
  - destruct err as [err|]; destruct Htask as [Hx1 Hx2]; [by destruct Hx1|]. split; [|done].
    destruct (en_acked _ _ He _ Hx2) as (msg & Hin & Hb & Hid). exists msg. destruct (c_routed _ _ I n cs Hn) as (_ & Hp & _).
    assert (Hadd : msg ∈ addressed (x_read x) cs).
    { destruct Hp as [rest ->]. apply elem_of_app. left. unfold received. apply elem_of_app. by left. }
    unfold addressed in Hadd. apply list_elem_of_filter in Hadd as [Hsid Hdrop]. split_and!; try done.
    apply (lo_msgs _ _ (eo_loop _ _ _ Hends)). right. rewrite <- (take_drop (cs_since cs) (x_read x)). apply elem_of_app. by right.
Qed.

(** ** The theorems at concrete inputs *)

Section client_stream_witnesses.
#[local] Existing Instances grpc_numbers example_status.
#[local] Existing Instance Bus.Example.codec.

#[local] Abbreviation to_stream := (λ id body, MkStreamMsg "STR_1" id 0 Second body).

(** A stream opened, granted and acknowledged; a message comes, and the peer closes. *)
Definition open_and_receive : list (label (T := no_carried)) :=
  [XOpen example_opening; XOpener 0 0 OAcked None; XDeliverClaim (MkClaimRequest "REQ_1" "SRV_a" f32_one); XReadClaim; XSendClaim;
   XOpener 0 1 (OSel (EvClaim (MkClaimRequest "REQ_1" "SRV_a" f32_one))) None; XOpener 0 1 OAcked None;
   XDeliver (to_stream "REQ_1" Stream_Ack); XReadStream; XSendStream false; XTake 0 2; XOpener 0 2 OAcked None; XOpener 0 2 OAcked None;
   XDeliver (to_stream "REQ_2" (Stream_Message [])); XReadStream; XSendStream false; XTake 0 2; XHandling 0 None; XHandling 0 None; XHandling 0 None;
   XDeliver (to_stream "REQ_3" (Stream_Close "" "")); XReadStream; XSendStream false; XTake 0 2; XHandling 0 None].

#[local] Abbreviation received_run := (run (λ _, "") stream_client "T" open_and_receive (start stream_client)).

Lemma open_and_receive_runs : ∃ x cs, received_run = Some x ∧ x_streams x !! 0%nat = Some cs ∧ cs_task cs = TOver None ∧
  cs_taken cs = [to_stream "REQ_1" Stream_Ack; to_stream "REQ_2" (Stream_Message []); to_stream "REQ_3" (Stream_Close "" "")].
Proof.
  assert (Hv : (λ x, (λ cs, (cs_task cs, cs_taken cs)) <$> x_streams x !! 0%nat) <$> received_run = Some (Some (TOver None,
    [to_stream "REQ_1" Stream_Ack; to_stream "REQ_2" (Stream_Message []); to_stream "REQ_3" (Stream_Close "" "")])))
    by (vm_compute; reflexivity).
  destruct received_run as [x|]; [|discriminate Hv]. simpl in Hv. destruct (x_streams x !! 0%nat) as [cs|] eqn:Hn; [|discriminate Hv].
  simpl in Hv. injection Hv as Ht Hk. by exists x, cs.
Qed.

Lemma client_streams_never_panic_witness : ∃ x, received_run = Some x ∧
  step (λ _, "") stream_client "T" (XHandling 0 None) x ≠ Panic.
Proof.
  destruct open_and_receive_runs as (x & cs & Hx & _). exists x. split; [exact Hx|].
  assert (Hf : fresh (open_and_receive ++ [XHandling 0 None])) by (split; apply (bool_decide_unpack _); vm_compute; exact I).
  exact (client_streams_never_panic (λ _, "") stream_client "T" open_and_receive (XHandling 0 None) x Hf Hx).
Defined.

Lemma client_streams_isolated_witness : ∃ x, received_run = Some x ∧
  (∀ n cs, x_streams x !! n = Some cs →
     received (x_loop x) n cs `prefix_of` addressed (x_read x) cs ∧
     (adapterClosed cs = false → received (x_loop x) n cs = addressed (x_read x) cs)).
Proof.
  destruct open_and_receive_runs as (x & cs & Hx & _). exists x. split; [exact Hx|].
  assert (Hf : fresh open_and_receive) by (split; apply (bool_decide_unpack _); vm_compute; exact I).
  exact (proj1 (client_streams_isolated (λ _, "") stream_client "T" open_and_receive x Hf Hx)).
Defined.

Lemma client_openings_end_witness : ∃ x cs, received_run = Some x ∧ x_streams x !! 0%nat = Some cs ∧
  ∃ msg, XDeliver msg ∈ open_and_receive ∧ msg ∈ cs_taken cs ∧ sm_RequestId msg = op_requestID (cs_open cs).
Proof.
  destruct open_and_receive_runs as (x & cs & Hx & Hn & Ht & _). exists x, cs. split; [exact Hx|]. split; [exact Hn|].
  assert (Hf : fresh open_and_receive) by (split; apply (bool_decide_unpack _); vm_compute; exact I).
  destruct (client_openings_end (λ _, "") stream_client "T" open_and_receive x 0 cs None Hf Hx Hn Ht) as (_ & (msg & Hd & Htk & _ & Hid & _) & _).
  exists msg. split; [exact Hd|]. split; [exact Htk|exact Hid].
Defined.
End client_stream_witnesses.
