(* ===== verification/Naming.v ===== *)
(** * Naming.v: the names the code generator makes
    ([src/protoc-gen-psrpc/internal/gen/stringutils/stringutils.go],
    [go_naming.go])

    Identifiers of Go from those of protobuf, and the names of packages and files.
    [unicode.IsLetter] and [unicode.IsDigit] are tables of Unicode, which are parameters
    that are known on ASCII; package [path] is written out. *)
From S2P Require Import Prelude Errors Bus Info.

(** ** [stringutils.go] *)

Definition isASCIILower (c : ascii) : bool := between 97 122 (Z_of_byte c).
Definition isASCIIUpper (c : ascii) : bool := between 65 90 (Z_of_byte c).
Definition isASCIIDigit (c : ascii) : bool := between 48 57 (Z_of_byte c).

(** [c ^= ' ']. *)
Definition flip_case (c : ascii) : ascii := byte_of_Z (Z.lxor (Z_of_byte c) 32).

Definition next_lower (l : bytes) : bool := match l with c :: _ => isASCIILower c | [] => false end.

(** The loop of [CamelCase]; [inw] says that it is in the inner one, which takes the lower
    case letters that follow. *)
Fixpoint camel (inw : bool) (l : bytes) : bytes :=
  match l with
  | [] => []
  | c :: rest =>
      if inw && isASCIILower c then c :: camel true rest
      else if bool_decide (c = "_"%char) && next_lower rest then camel false rest
      else if isASCIIDigit c then c :: camel false rest
      else (if isASCIILower c then flip_case c else c) :: camel true rest
  end.

Definition CamelCase (s : string) : string :=
  string_of match bytes_of s with
            | [] => []
            | c :: rest => if bool_decide (c = "_"%char) then "X"%char :: camel false rest else camel false (c :: rest)
            end.

(** [None]: the index of an empty slice panics. *)
Definition LowerCamelCase (s : string) : option string :=
  match bytes_of (CamelCase s) with
  | [] => None
  | c :: rest => Some (string_of (flip_case c :: rest))
  end.

(** What [unicode] says of runes. *)
Class Unicode := {
  IsLetter : Z → bool;
  IsDigit : Z → bool;
  IsLetter_ascii : ∀ c, IsLetter (Z_of_byte c) = true → Z_of_byte c < 128 → isASCIILower c || isASCIIUpper c = true;
  IsLetter_ascii' : ∀ c, isASCIILower c || isASCIIUpper c = true → IsLetter (Z_of_byte c) = true;
  IsDigit_ascii : ∀ c, Z_of_byte c < 128 → IsDigit (Z_of_byte c) = isASCIIDigit c
}.

Section unicode.
Context `{Unicode}.

Definition AlphaDigitize (r : Z) : Z :=
  if IsLetter r || IsDigit r || (r =? Z_of_byte "_") then r else Z_of_byte "_".

(** [strings.Map]. *)
Definition CleanIdentifier (s : string) : string := string_of_runes (AlphaDigitize <$> runes s).
End unicode.

(** [strings.LastIndex] with what is before and after. *)
Fixpoint cut_last (sep : ascii) (l : bytes) : option (bytes * bytes) :=
  match l with
  | [] => None
  | c :: rest =>
      match cut_last sep rest with
      | Some (before, after) => Some (c :: before, after)
      | None => if bool_decide (c = sep) then Some ([], rest) else None
      end
  end.

(** [strings.Index]. *)
Fixpoint cut_first (sep : ascii) (l : bytes) : option (bytes * bytes) :=
  match l with
  | [] => None
  | c :: rest =>
      if bool_decide (c = sep) then Some ([], rest)
      else '(before, after) ← cut_first sep rest; Some (c :: before, after)
  end.

Definition BaseName (name : string) : string :=
  let l := bytes_of name in
  let l := match cut_last "/" l with Some (_, after) => after | None => l end in
  string_of match cut_last "." l with Some (before, _) => before | None => l end.

(** ** Package [path] *)

(** [path.Split]: up to the last slash, and what is after it. *)
Definition path_Split (l : bytes) : bytes * bytes :=
  match cut_last "/" l with Some (dir, file) => (dir ++ ["/"%char], file) | None => ([], l) end.

(** [path.Ext]. *)
Definition path_Ext (l : bytes) : bytes :=
  let '(_, file) := path_Split l in
  match cut_last "." file with Some (_, ext) => "."%char :: ext | None => [] end.

(** The elements of a cleaned path, last first: an empty one and [.] are dropped, [..]
    drops the one before it, and is kept where there is none but at a root. *)
Definition clean_element (rooted : bool) (acc : list bytes) (e : bytes) : list bytes :=
  if bool_decide (e = []) || bool_decide (e = ["."%char]) then acc
  else if bool_decide (e = ["."%char; "."%char]) then
    match acc with
    | e' :: acc' => if bool_decide (e' = ["."%char; "."%char]) then e :: acc else acc'
    | [] => if rooted then [] else [e]
    end
  else e :: acc.

Definition path_Clean (l : bytes) : bytes :=
  let rooted := match l with "/"%char :: _ => true | _ => false end in
  let es := rev (foldl (clean_element rooted) [] (split "/" l)) in
  let body := join "/" es in
  if rooted then "/"%char :: body else match body with [] => ["."%char] | _ => body end.

(** [path.Join] of two elements. *)
Definition path_Join (a b : bytes) : bytes :=
  match a, b with
  | [], [] => []
  | [], _ => path_Clean b
  | _, [] => path_Clean a
  | _, _ => path_Clean (a ++ "/"%char :: b)
  end.

(** [path.Dir]. *)
Definition path_Dir (l : bytes) : bytes := path_Clean (path_Split l).1.

(** [strings.TrimPrefix]. *)
Fixpoint trim_prefix (p l : bytes) : option bytes :=
  match p, l with
  | [], _ => Some l
  | c :: p, c' :: l => if bool_decide (c = c') then trim_prefix p l else None
  | _ :: _, [] => None
  end.

Definition TrimPrefix (l p : bytes) : bytes := default l (trim_prefix p l).

(** ** Descriptors *)

(** What the generator reads of [descriptorpb]'s messages, and of a method's options.  A
    field is an option where the code tells that it is not set. *)
Inductive DescriptorProto : Type :=
| MkDescriptor (name : string) (nested : list DescriptorProto).

Definition d_Name (d : DescriptorProto) : string := let '(MkDescriptor name _) := d in name.
Definition d_NestedType (d : DescriptorProto) : list DescriptorProto := let '(MkDescriptor _ nested) := d in nested.

Inductive RoutingType : Type := QUEUE | AFFINITY | MULTI.

#[export] Instance RoutingType_eq_dec : EqDecision RoutingType.
Proof. solve_decision. Defined.

Record TopicParams : Type := MkTopicParams {
  tp_Names : list string;
  tp_Typed : bool;
  tp_Group : string;
  tp_SingleServer : bool
}.

(** [o_Routing] is the case of the oneof that is set. *)
Record Options : Type := MkOptions {
  o_Subscription : bool;
  o_Stream : bool;
  o_Topics : bool;
  o_TopicParams : option TopicParams;
  o_Type : RoutingType;
  o_Routing : option RoutingType
}.

(** A method's [Options] are [None] where it has none, or not the extension. *)
Record MethodDescriptorProto : Type := MkMethod {
  m_Name : string;
  m_InputType : string;
  m_OutputType : string;
  m_Options : option Options
}.

Record ServiceDescriptorProto : Type := MkService {
  s_Name : string;
  s_Method : list MethodDescriptorProto
}.

Record Location : Type := MkLocation {
  loc_Path : list Z;
  loc_Leading : string;
  loc_Trailing : string;
  loc_LeadingDetached : list string
}.

Record FileDescriptorProto : Type := MkFile {
  f_Name : string;
  f_Package : option string;
  f_GoPackage : string;
  f_Dependency : list string;
  f_PublicDependency : list Z;
  f_MessageType : list DescriptorProto;
  f_Service : list ServiceDescriptorProto;
  f_SourceCodeInfo : option (list Location)
}.

(** The getter of protobuf. *)
Definition GetPackage (f : FileDescriptorProto) : string := default "" (f_Package f).

(** ** [go_naming.go] *)

Definition goPackageOption (f : FileDescriptorProto) : string * string * bool :=
  let pkg := bytes_of (f_GoPackage f) in
  if bool_decide (pkg = []) then ("", "", false)
  else
    match split ";" pkg with
    | [a; b] => (string_of a, string_of b, true)
    | _ =>
        match cut_last "/" pkg with
        | None => ("", string_of pkg, true)
        | Some (_, last) =>
            match cut_first ";" pkg with
            | None => (string_of pkg, string_of last, true)
            | Some (a, b) => (string_of a, string_of b, true)
            end
        end
    end.

Definition goPackageName (f : FileDescriptorProto) : string * bool :=
  let '(_, pkg, ok) := goPackageOption f in
  if ok then (pkg, true)
  else if bool_decide (GetPackage f = "") then (BaseName (f_Name f), false)
  else (GetPackage f, false).

Definition parseGoPackageOption (v : string) : string * string :=
  match cut_first ";" (bytes_of v) with
  | Some (a, b) => (string_of a, string_of b)
  | None =>
      if bool_decide ("/"%char ∈ bytes_of v) then (v, string_of (path_Split (bytes_of v)).2) else ("", v)
  end.

(** [goFileName], with the generator's two fields that it reads. *)
Definition goFileName (sourceRelativePaths : bool) (modulePrefix : string) (f : FileDescriptorProto) : string :=
  let name := bytes_of (f_Name f) in
  let ext := path_Ext name in
  let name :=
    if bool_decide (string_of ext = ".proto") || bool_decide (string_of ext = ".protodevel")
    then take (length name - length ext) name else name in
  let name := name ++ bytes_of ".psrpc.go" in
  if sourceRelativePaths then string_of name
  else
    let '(impPath, _, ok) := goPackageOption f in
    if ok && negb (bool_decide (impPath = "")) then
      let impPath := bytes_of impPath in
      let impPath := if bool_decide (modulePrefix = "") then impPath
                     else TrimPrefix (TrimPrefix impPath (bytes_of modulePrefix)) ["/"%char] in
      string_of (path_Join impPath (path_Split name).2)
    else string_of name.

(** The examples of the code's comments. *)
Example camel_example : CamelCase "_my_field_name_2" = "XMyFieldName_2".
Proof. reflexivity. Qed.

(** ** [CamelCase] *)

Definition lower_head (l : bytes) : bool := next_lower l.

Lemma flip_lower c : isASCIILower c = true → isASCIILower (flip_case c) = false ∧ isASCIIDigit (flip_case c) = false ∧ flip_case c ≠ "_"%char ∧ isASCIIUpper (flip_case c) = true.
Proof. destruct c as [[] [] [] [] [] [] [] []]; vm_compute; intros; try done; split_and!; congruence. Qed.

Lemma digit_not_lower c : isASCIIDigit c = true → isASCIILower c = false ∧ c ≠ "_"%char.
Proof. destruct c as [[] [] [] [] [] [] [] []]; vm_compute; intros; try done; split; congruence. Qed.

(** Out of a word it begins with a letter that is not lower case. *)
Lemma camel_head l : next_lower (camel false l) = false.
Proof.
  induction l as [|c l IH]; [done|]. simpl. destruct (bool_decide _ && next_lower l); [done|].
  destruct (isASCIIDigit c) eqn:Hd; simpl; [by apply digit_not_lower|].
  destruct (isASCIILower c) eqn:Hl; [by apply flip_lower|done].
Qed.

Lemma camel_head_true l : next_lower (camel true l) = true → next_lower l = true.
Proof.
  destruct l as [|c l]; [done|]. simpl. destruct (isASCIILower c) eqn:Hl; [done|]. simpl. intros Hn.
  destruct (bool_decide _ && next_lower l); [by rewrite camel_head in Hn|].
  destruct (isASCIIDigit c) eqn:Hd; simpl in Hn; congruence.
Qed.

(** On what it made it does nothing. *)
Lemma camel_not_lower inw l : next_lower l = false → camel inw l = camel false l.
Proof. destruct l as [|c l]; [done|]. simpl. intros ->. by rewrite andb_false_r. Qed.

Lemma camel_idempotent inw l : camel inw (camel inw l) = camel inw l.
Proof.
  revert inw. induction l as [|c l IH]; intros inw; [done|]. cbn [camel].
  destruct (inw && isASCIILower c) eqn:Hw; [cbn [camel]; by rewrite Hw, IH|].
  destruct (bool_decide (c = "_"%char) && next_lower l) eqn:Hu.
  { rewrite (camel_not_lower inw) by apply camel_head. apply IH. }
  destruct (isASCIIDigit c) eqn:Hd.
  { destruct (digit_not_lower c Hd) as [Hl Hc]. cbn [camel]. rewrite Hl, andb_false_r, Hd, bool_decide_eq_false_2 by done. simpl. by rewrite IH. }
  destruct (isASCIILower c) eqn:Hl.
  - destruct (flip_lower c Hl) as (Hf1 & Hf2 & Hf3 & _). cbn [camel]. rewrite Hf1, Hf2, andb_false_r, bool_decide_eq_false_2 by done. simpl. by rewrite IH.
  - cbn [camel]. rewrite Hl, Hd, andb_false_r.
    destruct (bool_decide (c = "_"%char) && next_lower (camel true l)) eqn:Hu'; [|by rewrite IH].
    apply andb_prop in Hu' as [Hc Hn]. apply camel_head_true in Hn. by rewrite Hc, Hn in Hu.
Qed.

(** The first character of a name that does not begin with an underscore is not one in
    the result either. *)
Lemma camel_first c l c' l' : c ≠ "_"%char → camel false (c :: l) = c' :: l' → c' ≠ "_"%char ∧ isASCIILower c' = false.
Proof.
  intros Hc. cbn [camel]. rewrite bool_decide_eq_false_2 by done. simpl. destruct (isASCIIDigit c) eqn:Hd.
  - intros [= <- _]. split; [done|]. by apply digit_not_lower.
  - intros [= <- _]. destruct (isASCIILower c) eqn:Hl; [|done]. destruct (flip_lower c Hl) as (? & _ & ? & _). done.
Qed.

(** The characters of a Go identifier in ASCII. *)
Definition ident (c : ascii) : bool := isASCIILower c || isASCIIUpper c || isASCIIDigit c || bool_decide (c = "_"%char).

Lemma camel_ident inw l : Forall (λ c, ident c = true) l → Forall (λ c, ident c = true) (camel inw l).
Proof.
  intros Hl. revert inw. induction Hl as [|c l Hc Hl IH]; intros inw; [done|]. cbn [camel].
  destruct (inw && isASCIILower c); [by constructor|]. destruct (bool_decide _ && next_lower l); [done|].
  destruct (isASCIIDigit c); [by constructor|]. constructor; [|done]. destruct (isASCIILower c) eqn:Hlow; [|done].
  destruct (flip_lower c Hlow) as (_ & _ & _ & Hu). unfold ident. by rewrite Hu, orb_true_r.
Qed.

(** [CamelCase] makes exported Go identifiers: of identifier characters it makes
    identifier characters, beginning with neither a lower case letter nor an underscore
    (and with a capital, where the protobuf name begins with a letter or an underscore);
    it changes nothing of what it made; and of a name that is not empty it makes one, so
    that [LowerCamelCase] does not panic on it. *)
Theorem camel_case_identifier (s : string) (c : ascii) (l : bytes) :
  bytes_of s = c :: l → Forall (λ c, ident c = true) (c :: l) →
  Forall (λ c, ident c = true) (bytes_of (CamelCase s)) ∧
  CamelCase (CamelCase s) = CamelCase s ∧
  (∃ c' l', bytes_of (CamelCase s) = c' :: l' ∧ isASCIILower c' = false ∧ c' ≠ "_"%char ∧
     (isASCIIDigit c = false → isASCIIUpper c' = true)) ∧
  is_Some (LowerCamelCase s).
Proof.
  intros Hs Hid. set (out := if bool_decide (c = "_"%char) then "X"%char :: camel false l else camel false (c :: l)).
  assert (Hout : bytes_of (CamelCase s) = out) by (unfold CamelCase; rewrite Hs; by autorewrite with psrpc_rw).
  assert (Hfirst : ∃ c' l', out = c' :: l' ∧ isASCIILower c' = false ∧ c' ≠ "_"%char ∧ (isASCIIDigit c = false → isASCIIUpper c' = true)).
  { unfold out. case_bool_decide as Hc; [by exists "X"%char, (camel false l)|].
    destruct (camel false (c :: l)) as [|c' l'] eqn:Hcam.
    { cbn [camel] in Hcam. rewrite bool_decide_eq_false_2 in Hcam by done. simpl in Hcam. by destruct (isASCIIDigit c). }
    destruct (camel_first c l c' l' Hc Hcam) as [? Hl']. exists c', l'. split_and!; [done..|]. intros Hd.
    cbn [camel] in Hcam. rewrite bool_decide_eq_false_2, Hd in Hcam by done. simpl in Hcam. injection Hcam as <- _.
    inversion Hid as [|? ? Hic _]; subst. unfold ident in Hic. destruct (isASCIILower c) eqn:Hlow; [by apply flip_lower|].
    rewrite Hd, bool_decide_eq_false_2 in Hic by done. by rewrite !orb_false_r in Hic. }
  rewrite Hout. split_and!; [| |done|].
  - unfold out. case_bool_decide; [constructor; [done|]|]; apply camel_ident; [by inversion Hid|done].
  - apply bytes_of_inj. rewrite Hout. unfold CamelCase at 1. rewrite Hout. autorewrite with psrpc_rw.
    destruct Hfirst as (c' & l' & Hf & _ & Hne & _). rewrite Hf, bool_decide_eq_false_2 by done. rewrite <- Hf.
    unfold out. case_bool_decide; [cbn [camel]; by rewrite (camel_not_lower true), camel_idempotent by apply camel_head|apply camel_idempotent].
  - unfold LowerCamelCase. destruct Hfirst as (c' & l' & -> & _). rewrite Hout. by eexists.
Qed.

(** On an empty name it panics: a topic parameter without a name. *)
Lemma lower_camel_empty : LowerCamelCase "" = None.
Proof. reflexivity. Qed.

(** ** The two readers of [go_package] *)

Lemma split_cut sep l :
  split sep l = match cut_first sep l with None => [l] | Some (a, b) => a :: split sep b end.
Proof.
  induction l as [|c l IH]; [done|]. simpl. case_bool_decide; [done|]. rewrite IH.
  by destruct (cut_first sep l) as [[a b]|].
Qed.

Lemma cut_first_None sep l : cut_first sep l = None ↔ sep ∉ l.
Proof.
  induction l as [|c l IH]; simpl; [split; [by intros _ ?%elem_of_nil|done]|]. rewrite elem_of_cons. case_bool_decide as Hc.
  - split; [done|]. intros Hn. by destruct Hn; left.
  - destruct (cut_first sep l) as [[a b]|]; simpl; [|by split; [intros _ [?|Hin]; [congruence|by apply IH]|]].
    split; [done|]. intros Hn. exfalso. assert (sep ∉ l) as Hl by (intros ?; apply Hn; by right). by apply IH in Hl.
Qed.

Lemma cut_last_None sep l : cut_last sep l = None ↔ sep ∉ l.
Proof.
  induction l as [|c l IH]; simpl; [split; [by intros _ ?%elem_of_nil|done]|]. rewrite elem_of_cons.
  destruct (cut_last sep l) as [[a b]|].
  - split; [done|]. intros Hn. exfalso. assert (sep ∉ l) as Hl by (intros ?; apply Hn; by right). by apply IH in Hl.
  - case_bool_decide as Hc; [by split; [|intros Hn; destruct Hn; left]|]. split; [|done]. intros _ [?|Hin]; [congruence|]. by apply IH.
Qed.

(** The two functions that read a [go_package] agree on what it means, when it has at
    most one semicolon or a slash. *)
Theorem go_package_readers_agree (f : FileDescriptorProto) :
  f_GoPackage f ≠ "" →
  (∀ a b, cut_first ";" (bytes_of (f_GoPackage f)) = Some (a, b) → ";"%char ∉ b) ∨ "/"%char ∈ bytes_of (f_GoPackage f) →
  goPackageOption f = (parseGoPackageOption (f_GoPackage f), true).
Proof.
  intros Hne Hor. unfold goPackageOption, parseGoPackageOption. rewrite bool_decide_eq_false_2
    by (intros He; apply Hne, bytes_of_inj, He). rewrite split_cut.
  assert (Hslash : ∀ a b, cut_first ";" (bytes_of (f_GoPackage f)) = Some (a, b) → "/"%char ∈ bytes_of (f_GoPackage f) →
    match cut_last "/" (bytes_of (f_GoPackage f)) with
    | None => ("", string_of (bytes_of (f_GoPackage f)), true)
    | Some (_, last) => (string_of a, string_of b, true) end = (string_of a, string_of b, true)).
  { intros a b _ Hin. destruct (cut_last _ _) as [[? ?]|] eqn:Hc; [done|]. by apply cut_last_None in Hc. }
  destruct (cut_first ";" (bytes_of (f_GoPackage f))) as [[a b]|] eqn:Hcut.
  - rewrite split_cut. destruct (cut_first ";" b) as [[a' b']|] eqn:Hcut'; [|done].
    assert (Hin : "/"%char ∈ bytes_of (f_GoPackage f)).
    { destruct Hor as [Hone|?]; [|done]. specialize (Hone a b eq_refl). apply cut_first_None in Hone. congruence. }
    specialize (Hslash a b eq_refl Hin). rewrite split_cut. by destruct (cut_first ";" b') as [[? ?]|].
  - unfold path_Split. destruct (cut_last "/" _) as [[dir last]|] eqn:Hl.
    + rewrite bool_decide_eq_true_2; [by rewrite string_of_bytes_of|]. destruct (decide ("/"%char ∈ bytes_of (f_GoPackage f))) as [?|Hn]; [done|].
      apply cut_last_None in Hn. congruence.
    + apply cut_last_None in Hl. rewrite bool_decide_eq_false_2 by done. by rewrite string_of_bytes_of.
Qed.

(** With two semicolons and no slash they do not: one takes all for the name of the
    package, the other divides it. *)
Theorem go_package_readers_differ :
  let f := MkFile "a.proto" None "a;b;c" [] [] [] [] None in
  goPackageOption f = ("", "a;b;c", true) ∧ parseGoPackageOption (f_GoPackage f) = ("a", "b;c").
Proof. by split. Qed.

(** ** File names *)

Lemma split_snoc sep a file : sep ∉ file → split sep (a ++ sep :: file) = split sep a ++ [file].
Proof.
  intros Hf. induction a as [|c a IH]; simpl.
  - rewrite bool_decide_eq_true_2 by done. rewrite split_cut. by rewrite (proj2 (cut_first_None sep file)).
  - case_bool_decide; [by rewrite IH|]. rewrite IH. destruct (split sep a) as [|p ps] eqn:Hs; [|done].
    rewrite split_cut in Hs. by destruct (cut_first sep a) as [[? ?]|].
Qed.

Lemma join_suffix d (es : list bytes) file : ∃ dir, join d (es ++ [file]) = dir ++ file.
Proof.
  destruct es as [|e es]; simpl; [by exists []; rewrite app_nil_r|]. rewrite bind_app. simpl. rewrite app_nil_r.
  exists (e ++ (es ≫= cons d) ++ [d]). by rewrite <- !(assoc_L (++)).
Qed.

(** A cleaned path ends with its last element, when this is a name. *)
Lemma path_Clean_file dir file :
  "/"%char ∉ file → file ≠ [] → file ≠ ["."%char] → file ≠ ["."%char; "."%char] →
  ∃ dir', path_Clean (dir ++ "/"%char :: file) = dir' ++ file.
Proof.
  intros Hsl H0 H1 H2. unfold path_Clean. rewrite split_snoc, foldl_app by done. cbn [foldl].
  generalize (foldl (clean_element (match dir ++ "/"%char :: file with "/"%char :: _ => true | _ => false end)) [] (split "/" dir)) as acc.
  generalize (match dir ++ "/"%char :: file with "/"%char :: _ => true | _ => false end) as rooted. intros rooted acc.
  unfold clean_element. rewrite !bool_decide_eq_false_2 by done. simpl.
  destruct (join_suffix "/" (rev acc) file) as [dir' Hd]. rewrite Hd. destruct rooted; [by exists ("/"%char :: dir')|].
  exists dir'. destruct (dir' ++ file) eqn:He; [|done]. by apply app_eq_nil in He as [_ ?].
Qed.

Lemma path_Clean_name file :
  "/"%char ∉ file → file ≠ [] → file ≠ ["."%char] → file ≠ ["."%char; "."%char] → path_Clean file = file.
Proof.
  intros Hsl H0 H1 H2. unfold path_Clean. rewrite split_cut, (proj2 (cut_first_None _ _)) by done. cbn [foldl].
  unfold clean_element. rewrite !bool_decide_eq_false_2 by done. simpl. rewrite app_nil_r. destruct file as [|c file]; [done|].
  destruct (decide (c = "/"%char)) as [->|Hc]; [exfalso; apply Hsl; by left|]. destruct c as [[] [] [] [] [] [] [] []]; done.
Qed.

Lemma cut_last_app sep l s : sep ∉ s →
  cut_last sep (l ++ s) = match cut_last sep l with Some (a, b) => Some (a, b ++ s) | None => None end.
Proof.
  intros Hs. induction l as [|c l IH]; simpl; [by rewrite (proj2 (cut_last_None _ _))|]. rewrite IH.
  destruct (cut_last sep l) as [[a b]|]; [done|]. by case_bool_decide.
Qed.

Lemma cut_last_after sep l a b : cut_last sep l = Some (a, b) → sep ∉ b.
Proof.
  revert a. induction l as [|c l IH]; intros a; [done|]. simpl. destruct (cut_last sep l) as [[a' b']|] eqn:Hl.
  - intros [= _ <-]. by eapply IH.
  - case_bool_decide; [|done]. intros [= _ <-]. by apply cut_last_None.
Qed.

Lemma cut_last_Some sep l a b : cut_last sep l = Some (a, b) → l = a ++ sep :: b.
Proof.
  revert a. induction l as [|c l IH]; intros a; [done|]. simpl. destruct (cut_last sep l) as [[a' b']|] eqn:Hl.
  - intros [= <- <-]. simpl. f_equal. by apply IH.
  - case_bool_decide; [|done]. by intros [= <- <-]; subst.
Qed.

Lemma path_Split_file l : "/"%char ∉ (path_Split l).2.
Proof. unfold path_Split. destruct (cut_last "/" l) as [[a b]|] eqn:Hl; simpl; [by eapply cut_last_after|by apply cut_last_None]. Qed.

(** The name of a proto file without its extension. *)
Definition proto_stem (f : FileDescriptorProto) : bytes :=
  let name := bytes_of (f_Name f) in
  let ext := path_Ext name in
  if bool_decide (string_of ext = ".proto") || bool_decide (string_of ext = ".protodevel")
  then take (length name - length ext) name else name.

(** The generated file's name is the proto file's, without its directory unless paths are
    relative to the source, and with another extension. *)
Theorem go_file_name (rel : bool) (modulePrefix : string) (f : FileDescriptorProto) :
  (rel = true → bytes_of (goFileName rel modulePrefix f) = proto_stem f ++ bytes_of ".psrpc.go") ∧
  ∃ dir, bytes_of (goFileName rel modulePrefix f) = dir ++ (path_Split (proto_stem f)).2 ++ bytes_of ".psrpc.go".
Proof.
  unfold goFileName. fold (proto_stem f). set (name := proto_stem f ++ bytes_of ".psrpc.go").
  assert (Hdir : ∃ dir, name = dir ++ (path_Split (proto_stem f)).2 ++ bytes_of ".psrpc.go").
  { unfold name, path_Split. destruct (cut_last "/" (proto_stem f)) as [[a b]|] eqn:Hl; [|by exists []].
    exists (a ++ ["/"%char]). rewrite (cut_last_Some _ _ _ _ Hl) at 1. by rewrite <- !(assoc_L (++)). }
  assert (Hfile : (path_Split name).2 = (path_Split (proto_stem f)).2 ++ bytes_of ".psrpc.go").
  { unfold name, path_Split. rewrite cut_last_app by (by apply (bool_decide_unpack _)). by destruct (cut_last "/" (proto_stem f)) as [[a b]|]. }
  destruct rel.
  - rewrite bytes_of_string_of. split; [done|]. exact Hdir.
  - split; [done|]. destruct (goPackageOption f) as [[impPath pkg] ok]. destruct (ok && _); [|by rewrite bytes_of_string_of].
    rewrite bytes_of_string_of. set (imp := if bool_decide (modulePrefix = "") then _ else _). rewrite Hfile.
    set (file := (path_Split (proto_stem f)).2 ++ bytes_of ".psrpc.go").
    assert (Hsl : "/"%char ∉ file).
    { unfold file. rewrite elem_of_app. intros [Hin|Hin]; [by eapply path_Split_file|]. revert Hin. by apply (bool_decide_unpack _). }
    assert (Hlen : (9 <= length file)%nat) by (unfold file; rewrite length_app; simpl; lia).
    assert (Hne : file ≠ [] ∧ file ≠ ["."%char] ∧ file ≠ ["."%char; "."%char]) by (split_and!; intros He; rewrite He in Hlen; simpl in Hlen; lia).
    destruct Hne as (H0 & H1 & H2). unfold path_Join. destruct imp as [|c imp], file as [|c' file'] eqn:Hf; try done.
    + rewrite path_Clean_name by done. by exists [].
    + destruct (path_Clean_file (c :: imp) (c' :: file')) as [dir Hd]; [done..|]. by exists dir.
Qed.
