(* ===== verification/CommandLine.v ===== *)
(** * CommandLine.v: the parameters of the code generator
    ([src/protoc-gen-psrpc/command_line.go])

    The parameter's pairs are put in a map, which is then gone through in an order that Go
    does not fix: here it is an argument.  Errors are the text that is formatted. *)
From S2P Require Import Prelude Errors Bus Info Naming.

Record commandLineParams : Type := MkParams {
  importMap : gmap string string;
  paths : string;
  modulePrefix : string;
  importPrefix : string
}.

Inductive param_error : Type :=
| NotKeyValue (p : string)
| InvalidFlag (k v : string).

(** One pair [k=v] of the list. *)
Definition add_pair (p : bytes) (ps : gmap string string) : result param_error (gmap string string) :=
  if bool_decide (p = []) then Ok ps
  else
    match cut_first "=" p with
    | None => Err (NotKeyValue (string_of p))
    | Some (k, v) => if bool_decide (v = []) then Err (NotKeyValue (string_of k)) else Ok (<[string_of k := string_of v]> ps)
    end.

Fixpoint add_pairs (l : list bytes) (ps : gmap string string) : result param_error (gmap string string) :=
  match l with
  | [] => Ok ps
  | p :: l => ps ← add_pair p ps; add_pairs l ps
  end.

Definition parse_pairs (parameter : string) : result param_error (gmap string string) :=
  add_pairs (split "," (bytes_of parameter)) ∅.

Definition noParams : commandLineParams := MkParams ∅ "" "" "".

(** The file of a key that maps one: after [M], or after the prefix of twirp's version. *)
Definition import_key (k : string) : option string :=
  string_of <$>
    match bytes_of k with
    | c :: file => if bool_decide (c = "M"%char) then Some file else trim_prefix (bytes_of "go_import_mapping@") (bytes_of k)
    | [] => None
    end.

(** The body of the loop over the map. *)
Definition set_param (k v : string) (clp : commandLineParams) : result param_error commandLineParams :=
  match import_key k with
  | Some file => Ok (MkParams (<[file := v]> (importMap clp)) (paths clp) (modulePrefix clp) (importPrefix clp))
  | None =>
      if bool_decide (k = "paths") then
        if bool_decide (v = "import") then Ok clp
        else if bool_decide (v = "source_relative") then Ok (MkParams (importMap clp) "source_relative" (modulePrefix clp) (importPrefix clp))
        else Err (InvalidFlag k v)
      else if bool_decide (k = "module") then Ok (MkParams (importMap clp) (paths clp) v (importPrefix clp))
      else if bool_decide (k = "import_prefix") then Ok (MkParams (importMap clp) (paths clp) (modulePrefix clp) v)
      else Err (InvalidFlag k v)
  end.

Fixpoint set_params (order : list (string * string)) (clp : commandLineParams) : result param_error commandLineParams :=
  match order with
  | [] => Ok clp
  | (k, v) :: order => clp ← set_param k v clp; set_params order clp
  end.

(** [parseCommandLineParams], the map gone through in some order. *)
Definition parses_to (parameter : string) (r : result param_error commandLineParams) : Prop :=
  match parse_pairs parameter with
  | Err e => r = Err e
  | Ok ps => ∃ order, order ≡ₚ map_to_list ps ∧ r = set_params order noParams
  end.

(** ** What the order changes *)

(** Whether a pair is valid depends on it alone. *)
Lemma set_param_valid k v clp clp' : is_ok (set_param k v clp) = is_ok (set_param k v clp').
Proof. unfold set_param. repeat case_match; done. Qed.

Lemma set_params_valid order clp :
  is_ok (set_params order clp) = forallb (λ kv, is_ok (set_param kv.1 kv.2 noParams)) order.
Proof.
  revert clp. induction order as [|[k v] order IH]; intros clp; simpl; [done|].
  pose proof (set_param_valid k v clp noParams) as Hv. destruct (set_param k v clp) as [clp'|]; simpl in *; rewrite <- Hv; [apply IH|done].
Qed.

(** Two valid pairs, of different keys that do not map one file, commute. *)
Definition distinct_params (kv kv' : string * string) : Prop :=
  kv.1 ≠ kv'.1 ∧ ∀ file, import_key kv.1 = Some file → import_key kv'.1 ≠ Some file.

Lemma set_param_swap k v k' v' clp :
  distinct_params (k, v) (k', v') → is_ok (set_param k v noParams) = true → is_ok (set_param k' v' noParams) = true →
  (set_param k v clp ≫= set_param k' v') = (set_param k' v' clp ≫= set_param k v).
Proof.
  intros [Hk Hf] Hv Hv'. simpl in Hk, Hf. unfold set_param in *.
  destruct (import_key k) as [file|], (import_key k') as [file'|]; simpl in *.
  - rewrite insert_insert_ne; [done|]. intros ->. by apply (Hf file).
  - repeat case_bool_decide; subst; simpl; done.
  - repeat case_bool_decide; subst; simpl; done.
  - repeat case_bool_decide; subst; simpl; try done.
Qed.

Lemma set_params_swap kv kv' order clp :
  distinct_params kv kv' → forallb (λ kv, is_ok (set_param kv.1 kv.2 noParams)) [kv; kv'] = true →
  set_params (kv :: kv' :: order) clp = set_params (kv' :: kv :: order) clp.
Proof.
  destruct kv as [k v], kv' as [k' v']. intros Hd Hv. simpl in *. apply andb_prop in Hv as [Hv Hv']. rewrite andb_true_r in Hv'.
  pose proof (set_param_swap k v k' v' clp Hd Hv Hv') as Hs. revert Hs.
  destruct (set_param k v clp) as [c1|], (set_param k' v' clp) as [c2|]; simpl; intros Hs; simpl.
  - by rewrite Hs.
  - by rewrite Hs.
  - by rewrite <- Hs.
  - by rewrite Hs.
Qed.

(** Of all the pairs of a map. *)
Definition compatible (order : list (string * string)) : Prop :=
  NoDup order ∧ ∀ kv kv', kv ∈ order → kv' ∈ order → kv ≠ kv' → distinct_params kv kv'.

Lemma compatible_perm order order' : order ≡ₚ order' → compatible order → compatible order'.
Proof. intros Hp [Hnd Hc]. split; [by rewrite <- Hp|]. intros kv kv'. rewrite <- !Hp. apply Hc. Qed.

Lemma compatible_tail kv order : compatible (kv :: order) → compatible order.
Proof. intros [[_ Hnd]%NoDup_cons Hc]. split; [done|]. intros kv1 kv2 H1 H2. apply Hc; by right. Qed.

Lemma set_params_perm order order' clp :
  order ≡ₚ order' → compatible order → forallb (λ kv, is_ok (set_param kv.1 kv.2 noParams)) order = true →
  set_params order clp = set_params order' clp.
Proof.
  intros Hp. revert clp. induction Hp as [|[k v] order order' Hp IH|kv kv' order|order1 order2 order3 Hp1 IH1 Hp2 IH2]; intros clp Hc Hv; [done|..].
  - simpl in *. apply andb_prop in Hv as [_ Hv]. destruct (set_param k v clp); simpl; [|done]. apply IH; [by eapply compatible_tail|done].
  - destruct Hc as [[Hni _]%NoDup_cons Hc]. apply set_params_swap.
    + apply Hc; [by left|by right; left|]. intros ->. apply Hni. by left.
    + simpl in *. rewrite andb_assoc in Hv. apply andb_prop in Hv as [Hv _]. by rewrite andb_true_r.
  - rewrite IH1 by done. apply IH2; [by eapply compatible_perm|].
    rewrite <- Hv. clear -Hp1. induction Hp1; simpl; [done|by f_equal|by rewrite !andb_assoc, (andb_comm (is_ok (set_param y.1 y.2 noParams)))|congruence].
Qed.

(** The order in which Go goes through the map decides nothing: whether the parameters
    are valid does not depend on it, and when no two of them map the same file neither
    does what they are. *)
Theorem params_deterministic (parameter : string) (r r' : result param_error commandLineParams) :
  parses_to parameter r → parses_to parameter r' →
  is_ok r = is_ok r' ∧
  ((∀ ps k k' file, parse_pairs parameter = Ok ps → is_Some (ps !! k) → is_Some (ps !! k') →
      import_key k = Some file → import_key k' = Some file → k = k') →
   is_ok r = true → r = r').
Proof.
  unfold parses_to. destruct (parse_pairs parameter) as [ps|e] eqn:Hps; [|by intros -> ->].
  intros (order & Ho & ->) (order' & Ho' & ->).
  assert (Hp : order ≡ₚ order') by (by rewrite Ho, Ho'). rewrite !set_params_valid. split.
  - clear -Hp. induction Hp; simpl; [done|by f_equal|by rewrite !andb_assoc, (andb_comm (is_ok (set_param y.1 y.2 noParams)))|congruence].
  - intros Hfiles Hv. apply set_params_perm; [done| |done]. split; [rewrite Ho; apply NoDup_map_to_list|].
    intros [k v] [k' v']. rewrite Ho, !elem_of_map_to_list. intros Hk Hk' Hne.
    assert (Hkk : k ≠ k') by (intros ->; simplify_eq). split; [done|]. simpl. intros file Hf Hf'.
    apply Hkk, (Hfiles ps k k' file); auto; by eexists.
Qed.

(** Otherwise it may: the same parameter gives one import path or the other. *)
Theorem params_nondeterministic :
  let m v := MkParams {[ "foo.proto" := v ]} "" "" "" in
  parses_to "Mfoo.proto=a,go_import_mapping@foo.proto=b" (Ok (m "a")) ∧
  parses_to "Mfoo.proto=a,go_import_mapping@foo.proto=b" (Ok (m "b")).
Proof.
  intros m. assert (Hps : parse_pairs "Mfoo.proto=a,go_import_mapping@foo.proto=b" = Ok (list_to_map [("Mfoo.proto", "a"); ("go_import_mapping@foo.proto", "b")]))
    by (vm_compute; reflexivity).
  unfold parses_to. rewrite Hps. split.
  - exists [("go_import_mapping@foo.proto", "b"); ("Mfoo.proto", "a")]. split; [|vm_compute; reflexivity].
    rewrite map_to_list_to_map by (by apply (bool_decide_unpack _)). apply Permutation_swap.
  - exists [("Mfoo.proto", "a"); ("go_import_mapping@foo.proto", "b")]. split; [|vm_compute; reflexivity].
    by rewrite map_to_list_to_map by (by apply (bool_decide_unpack _)).
Qed.
