(* ===== verification/TypeMap.v ===== *)
(** * TypeMap.v: the messages that the files of a request define
    ([src/protoc-gen-psrpc/internal/gen/typemap/typemap.go])

    A file is a pointer, which here is its index in [allFiles].  The paths of definitions
    are slices, whose arrays [append] may share: they are kept in a heap, and how much
    [append] allocates, which Go does not fix, is a parameter. *)
From S2P Require Import Prelude Errors Bus Info Naming.

#[local] Open Scope nat_scope.

(** ** Slices of [int32] *)

(** The arrays, each as long as its capacity. *)
#[local] Abbreviation heap := (list (list Z)).

Record slice : Type := MkSlice { sl_array : nat; sl_len : nat }.

(** The capacity of what [append] allocates. *)
Class Growth := {
  grow : nat → nat → nat;
  grow_enough : ∀ oldCap newLen, newLen ≤ grow oldCap newLen
}.

Definition new_slice (xs : list Z) (h : heap) : slice * heap := (MkSlice (length h) (length xs), h ++ [xs]).

Definition read (h : heap) (s : slice) : list Z := take (sl_len s) (default [] (h !! sl_array s)).

Definition append `{Growth} (s : slice) (xs : list Z) (h : heap) : slice * heap :=
  let a := default [] (h !! sl_array s) in
  let newLen := sl_len s + length xs in
  if newLen <=? length a then
    (MkSlice (sl_array s) newLen, <[sl_array s := take (sl_len s) a ++ xs ++ drop newLen a]> h)
  else
    (MkSlice (length h) newLen, h ++ [take (sl_len s) a ++ xs ++ repeat 0%Z (grow (length a) newLen - newLen)]).

(** A conversion to [int32]. *)
Definition int32 (z : Z) : Z := ((z + 2 ^ 31) mod 2 ^ 32 - 2 ^ 31)%Z.

(** ** Comments *)

Record DefinitionComments : Type := MkComments {
  Leading : string;
  Trailing : string;
  LeadingDetached : list string
}.

Definition noComments : DefinitionComments := MkComments "" "" [].

Definition packagePath : Z := 2.
Definition messagePath : Z := 4.
Definition servicePath : Z := 6.
Definition messageMessagePath : Z := 3.
Definition serviceMethodPath : Z := 2.

Fixpoint pathEqual_loop (path1 path2 : list Z) : bool :=
  match path1, path2 with
  | v :: path1, v2 :: path2 => if bool_decide (v2 ≠ v) then false else pathEqual_loop path1 path2
  | _, _ => true
  end.

Definition pathEqual (path1 path2 : list Z) : bool :=
  if bool_decide (length path1 ≠ length path2) then false else pathEqual_loop path1 path2.

Definition commentsAtPath (path : list Z) (sourceFile : FileDescriptorProto) : DefinitionComments :=
  match f_SourceCodeInfo sourceFile with
  | None => noComments
  | Some locs =>
      match List.find (λ loc, pathEqual path (loc_Path loc)) locs with
      | Some loc => MkComments (loc_Leading loc) (loc_Trailing loc) (loc_LeadingDetached loc)
      | None => noComments
      end
  end.

Definition FileComments (file : FileDescriptorProto) : DefinitionComments := commentsAtPath [packagePath] file.

(** The service and the method are pointers: here their indices. *)
Definition ServiceComments (file : FileDescriptorProto) (svc : nat) : result string DefinitionComments :=
  match f_Service file !! svc with
  | Some _ => Ok (commentsAtPath [servicePath; int32 (Z.of_nat svc)] file)
  | None => Err "service not found in file"
  end.

Definition MethodComments (file : FileDescriptorProto) (svc method : nat) : result string DefinitionComments :=
  match f_Service file !! svc with
  | Some s =>
      match s_Method s !! method with
      | Some _ =>
          let path := [servicePath; int32 (Z.of_nat svc)] in
          Ok (commentsAtPath (path ++ [serviceMethodPath; int32 (Z.of_nat method)]) file)
      | None => Err "service not found in file"
      end
  | None => Err "service not found in file"
  end.

(** ** Definitions *)

Inductive MessageDefinition : Type :=
| MkDef (Descriptor : DescriptorProto) (File : nat) (Parent : option MessageDefinition)
    (Comments : DefinitionComments) (path : slice).

Definition md_Descriptor (m : MessageDefinition) := let '(MkDef d _ _ _ _) := m in d.
Definition md_File (m : MessageDefinition) := let '(MkDef _ f _ _ _) := m in f.
Definition md_Parent (m : MessageDefinition) := let '(MkDef _ _ p _ _) := m in p.
Definition md_Comments (m : MessageDefinition) := let '(MkDef _ _ _ c _) := m in c.
Definition md_path (m : MessageDefinition) := let '(MkDef _ _ _ _ p) := m in p.

(** The loop of [Lineage]. *)
Fixpoint lineage_loop (m : MessageDefinition) (parents : list MessageDefinition) : list MessageDefinition :=
  match m with
  | MkDef _ _ (Some p) _ _ => lineage_loop p (p :: parents)
  | MkDef _ _ None _ _ => parents
  end.

Definition Lineage (m : MessageDefinition) : list MessageDefinition := lineage_loop m [].

(** The names from the package to the message, each followed by a dot but the last. *)
Definition ProtoName (pkg : string) (m : MessageDefinition) : string :=
  let prefix := ["."%char] ++ (if bool_decide (pkg = "") then [] else bytes_of pkg ++ ["."%char]) in
  let prefix := prefix ++ (Lineage m ≫= λ parent, bytes_of (d_Name (md_Descriptor parent)) ++ ["."%char]) in
  string_of (prefix ++ bytes_of (d_Name (md_Descriptor m))).

(** [descendants] of a definition whose descriptor is [d]. *)
Fixpoint descendants `{Growth} (file : FileDescriptorProto) (d : DescriptorProto) (m : MessageDefinition) (h : heap)
  : list MessageDefinition * heap :=
  (fix go (i : nat) (l : list DescriptorProto) (h : heap) : list MessageDefinition * heap :=
     match l with
     | [] => ([], h)
     | child :: l =>
         let '(path, h) := append (md_path m) [messageMessagePath; int32 (Z.of_nat i)] h in
         let childDef := MkDef child (md_File m) (Some m) (commentsAtPath (read h path) file) path in
         let '(ds, h) := descendants file child childDef h in
         let '(rest, h) := go (S i) l h in
         (childDef :: ds ++ rest, h)
     end) 0 (d_NestedType d) h.

(** The definitions of the top level messages and of those in them, in the order in which
    they are put in the map. *)
Fixpoint file_defs `{Growth} (i : nat) (l : list DescriptorProto) (fileIdx : nat) (f : FileDescriptorProto) (h : heap)
  : list MessageDefinition * heap :=
  match l with
  | [] => ([], h)
  | d :: l =>
      let '(path, h) := new_slice [messagePath; int32 (Z.of_nat i)] h in
      let def := MkDef d fileIdx None (commentsAtPath (read h path) f) path in
      let '(ds, h) := descendants f d def h in
      let '(rest, h) := file_defs (S i) l fileIdx f h in
      (def :: ds ++ rest, h)
  end.

#[local] Abbreviation defs_map := (gmap string MessageDefinition).

Definition put_def (pkg : string) (m : defs_map) (def : MessageDefinition) : defs_map := <[ProtoName pkg def := def]> m.

(** What a public import makes of a definition. *)
Definition import_def (fileIdx : nat) (depFile : FileDescriptorProto) (h : heap) (def : MessageDefinition) : MessageDefinition :=
  MkDef (md_Descriptor def) fileIdx (md_Parent def) (commentsAtPath (read h (md_path def)) depFile) (md_path def).

Definition index {A} (l : list A) (i : Z) : option A := if (i <? 0)%Z then None else l !! Z.to_nat i.

Section registry.
Context `{Growth} (allFiles : list FileDescriptorProto) (filesByName : gmap string nat).

(** The loop over the files that [f] imports publicly; [rec] is [messageDefsForFile]. *)
Fixpoint public_imports (rec : nat → heap → option (defs_map * heap)) (fileIdx : nat) (f : FileDescriptorProto)
    (deps : list Z) (byProtoName : defs_map) (h : heap) : option (defs_map * heap) :=
  match deps with
  | [] => Some (byProtoName, h)
  | depIdx :: deps =>
      depFileName ← index (f_Dependency f) depIdx;
      dep ← filesByName !! depFileName;
      depFile ← allFiles !! dep;
      '(depDefs, h) ← rec dep h;
      let imported := import_def fileIdx depFile h <$> (map_to_list depDefs).*2 in
      public_imports rec fileIdx f deps (foldl (put_def (GetPackage f)) byProtoName imported) h
  end.

(** [None] is a panic (an index out of range, a file that is not there), or that the fuel,
    which bounds the depth of public imports, is not enough. *)
Fixpoint messageDefsForFile (fuel : nat) (fileIdx : nat) (h : heap) : option (defs_map * heap) :=
  match fuel with
  | O => None
  | S fuel =>
      f ← allFiles !! fileIdx;
      let '(defs, h) := file_defs 0 (f_MessageType f) fileIdx f h in
      let byProtoName := foldl (put_def (GetPackage f)) ∅ defs in
      public_imports (messageDefsForFile fuel) fileIdx f (f_PublicDependency f) byProtoName h
  end.

(** The loop of [New] over the files, from one on. *)
Fixpoint index_messages (fuel : nat) (n : nat) (fileIdx : nat) (acc : defs_map) (h : heap) : option (defs_map * heap) :=
  match n with
  | O => Some (acc, h)
  | S n => '(defs, h) ← messageDefsForFile fuel fileIdx h; index_messages fuel n (S fileIdx) (defs ∪ acc) h
  end.
End registry.

(** The files by name: of two with one name, the later. *)
Definition index_files (files : list FileDescriptorProto) : gmap string nat :=
  foldl (λ m '(i, f), <[f_Name f := i]> m) ∅ (imap pair files).

Record Registry : Type := MkRegistry {
  allFiles : list FileDescriptorProto;
  filesByName : gmap string nat;
  messagesByProtoName : defs_map
}.

Definition New `{Growth} (fuel : nat) (files : list FileDescriptorProto) : option Registry :=
  let byName := index_files files in
  '(defs, _) ← index_messages files byName fuel (length files) 0 ∅ [];
  Some (MkRegistry files byName defs).

Definition MessageDefinition_of (r : Registry) (name : string) : option MessageDefinition := messagesByProtoName r !! name.
Definition MethodInputDefinition (r : Registry) (m : MethodDescriptorProto) := MessageDefinition_of r (m_InputType m).
Definition MethodOutputDefinition (r : Registry) (m : MethodDescriptorProto) := MessageDefinition_of r (m_OutputType m).

(** ** What the definitions should be *)

(** A message of a file: the messages it is in, the outermost first, its path, and its
    descriptor. *)
Definition message_at : Type := list DescriptorProto * list Z * DescriptorProto.

(** Those in [d], depth first. *)
Fixpoint messages_in (parents : list DescriptorProto) (path : list Z) (d : DescriptorProto) : list message_at :=
  (fix go (i : nat) (l : list DescriptorProto) : list message_at :=
     match l with
     | [] => []
     | child :: l =>
         let path' := path ++ [messageMessagePath; int32 (Z.of_nat i)] in
         (parents ++ [d], path', child) :: messages_in (parents ++ [d]) path' child ++ go (S i) l
     end) 0 (d_NestedType d).

Fixpoint messages_of (i : nat) (l : list DescriptorProto) : list message_at :=
  match l with
  | [] => []
  | d :: l =>
      let path := [messagePath; int32 (Z.of_nat i)] in
      ([], path, d) :: messages_in [] path d ++ messages_of (S i) l
  end.

Definition file_messages (f : FileDescriptorProto) : list message_at := messages_of 0 (f_MessageType f).

(** The fully qualified name of a message. *)
Definition qualified_name (pkg : string) (m : message_at) : string :=
  let '(parents, _, d) := m in
  string_of (["."%char] ++ (if bool_decide (pkg = "") then [] else bytes_of pkg ++ ["."%char])
               ++ (parents ≫= λ p, bytes_of (d_Name p) ++ ["."%char]) ++ bytes_of (d_Name d)).

(** A definition of a message: but for the file and the comments, which a public import
    changes. *)
Definition defines (m : message_at) (def : MessageDefinition) : Prop :=
  md_Descriptor def = m.2 ∧ md_Descriptor <$> Lineage def = m.1.1.

(** As it is in the file that has it. *)
Definition defines_in (fileIdx : nat) (f : FileDescriptorProto) (m : message_at) (def : MessageDefinition) : Prop :=
  defines m def ∧ md_File def = fileIdx ∧ md_Comments def = commentsAtPath m.1.2 f.

(** ** Nested recursion *)

Fixpoint descriptor_ind (P : DescriptorProto → Prop) (step : ∀ name nested, Forall P nested → P (MkDescriptor name nested))
  (d : DescriptorProto) : P d :=
  match d with
  | MkDescriptor name nested =>
      step name nested ((fix go l : Forall P l := match l with [] => Forall_nil_2 P | d :: l => Forall_cons_2 P d l (descriptor_ind P step d) (go l) end) nested)
  end.

Fixpoint descendants_from `{Growth} (file : FileDescriptorProto) (m : MessageDefinition) (i : nat) (l : list DescriptorProto) (h : heap)
  : list MessageDefinition * heap :=
  match l with
  | [] => ([], h)
  | child :: l =>
      let '(path, h) := append (md_path m) [messageMessagePath; int32 (Z.of_nat i)] h in
      let childDef := MkDef child (md_File m) (Some m) (commentsAtPath (read h path) file) path in
      let '(ds, h) := descendants file child childDef h in
      let '(rest, h) := descendants_from file m (S i) l h in
      (childDef :: ds ++ rest, h)
  end.

Lemma descendants_eq `{Growth} file d m h : descendants file d m h = descendants_from file m 0 (d_NestedType d) h.
Proof.
  destruct d as [name nested]. cbn [descendants d_NestedType]. generalize 0. revert h.
  induction nested as [|child l IH]; intros h i; [done|]. cbn. destruct (append _ _ _) as [path h1].
  destruct (descendants _ _ _ _) as [ds h2]. by rewrite IH.
Qed.

Fixpoint messages_from (parents : list DescriptorProto) (path : list Z) (i : nat) (l : list DescriptorProto) : list message_at :=
  match l with
  | [] => []
  | child :: l =>
      let path' := path ++ [messageMessagePath; int32 (Z.of_nat i)] in
      (parents, path', child) :: messages_in parents path' child ++ messages_from parents path (S i) l
  end.

Lemma messages_eq parents path d : messages_in parents path d = messages_from (parents ++ [d]) path 0 (d_NestedType d).
Proof.
  destruct d as [name nested]. cbn [messages_in d_NestedType]. generalize (parents ++ [MkDescriptor name nested]) as ps. intros ps. generalize 0.
  induction nested as [|child l IH]; intros i; [done|]. cbn. by rewrite IH.
Qed.

(** ** The heap *)

Definition valid (h : heap) (s : slice) : Prop := sl_array s < length h ∧ length (read h s) = sl_len s.

(** Nothing of [h] changed but behind [s] in its array. *)
Definition keeps (s : slice) (h h' : heap) : Prop :=
  length h ≤ length h' ∧ read h' s = read h s ∧ ∀ a, a < length h → a ≠ sl_array s → h' !! a = h !! a.

Lemma keeps_refl s h : keeps s h h.
Proof. done. Qed.

Lemma keeps_valid s h h' : keeps s h h' → valid h s → valid h' s.
Proof. intros (Hl & Hr & _) [Ha Hn]. split; [lia|by rewrite Hr]. Qed.

(** What [append] returns: an extension, in the same array or in a new one. *)
Definition extends (s s' : slice) (h : heap) : Prop :=
  (sl_array s' = sl_array s ∧ sl_len s ≤ sl_len s') ∨ sl_array s' = length h.

Lemma keeps_trans s s' h h1 h2 : valid h s → extends s s' h → keeps s h h1 → keeps s' h1 h2 → keeps s h h2.
Proof.
  intros [Ha _] Hext (Hl & Hr & Hk) (Hl' & Hr' & Hk'). split_and!; [lia| |].
  - rewrite <- Hr. unfold read in *. destruct Hext as [[He Hlen]|He].
    + rewrite He in Hr'. apply (f_equal (take (sl_len s))) in Hr'. by rewrite !take_take, !Nat.min_l in Hr' by lia.
    + by rewrite Hk' by lia.
  - intros a Hlt Hne. rewrite Hk' by (destruct Hext as [[He _]|He]; rewrite ?He; lia). by apply Hk.
Qed.

Lemma extends_refl s h : extends s s h.
Proof. by left. Qed.

Lemma append_spec `{Growth} s xs h s' h' : append s xs h = (s', h') → valid h s →
  valid h' s' ∧ read h' s' = read h s ++ xs ∧ keeps s h h' ∧ extends s s' h.
Proof.
  unfold append, valid, keeps, read. intros Heq [Ha Hn]. destruct (lookup_lt_is_Some_2 h (sl_array s) Ha) as [a Hla].
  rewrite Hla in Heq, Hn |- *. cbn in Heq, Hn |- *. rewrite length_take in Hn.
  assert (Htake : take (sl_len s + length xs) (take (sl_len s) a ++ xs ++ drop (sl_len s + length xs) a) = take (sl_len s) a ++ xs).
  { rewrite (assoc_L (++)). rewrite take_app_length' by (rewrite length_app, length_take; lia). done. }
  case_match; injection Heq as <- <-; simpl.
  - apply Nat.leb_le in H0. rewrite length_insert, list_lookup_insert_eq by done. simpl. rewrite Htake. split_and!; try lia.
    + rewrite length_app, length_take. lia.
    + done.
    + by rewrite take_app_length' by (rewrite length_take; lia).
    + intros b Hb Hne. by rewrite list_lookup_insert_ne by done.
    + left. simpl. lia.
  - rewrite length_app, lookup_app_r, Nat.sub_diag by lia. simpl. rewrite (assoc_L (++)), take_app_length' by (rewrite length_app, length_take; lia).
    split_and!; try lia.
    + rewrite length_app, length_take. lia.
    + done.
    + by rewrite lookup_app_l, Hla by done.
    + intros b Hb Hne. by rewrite lookup_app_l by done.
    + by right.
Qed.

Lemma lineage_loop_app m ps : lineage_loop m ps = Lineage m ++ ps.
Proof.
  unfold Lineage. revert m ps. fix IH 1. intros [d f [p|] c s] ps; simpl; [|done].
  rewrite (IH p (p :: ps)), (IH p [p]). by rewrite <- (assoc_L (++)).
Qed.

Lemma Lineage_child d f p c s : Lineage (MkDef d f (Some p) c s) = Lineage p ++ [p].
Proof. unfold Lineage. simpl. apply lineage_loop_app. Qed.

(** ** The definitions of one file *)

Section descendants.
Context `{Growth} (f : FileDescriptorProto).

(** What [descendants] leaves and returns for the messages [ms] in [m]. *)
Definition describes (m : MessageDefinition) (ms : list message_at) (h : heap) (r : list MessageDefinition * heap) : Prop :=
  keeps (md_path m) h r.2 ∧ Forall2 (defines_in (md_File m) f) ms r.1.

Definition described (d : DescriptorProto) : Prop := ∀ m h, valid h (md_path m) → md_Descriptor m = d →
  describes m (messages_in (md_Descriptor <$> Lineage m) (read h (md_path m)) d) h (descendants f d m h).

Lemma descendants_from_spec l : Forall described l → ∀ i m h, valid h (md_path m) →
  describes m (messages_from (md_Descriptor <$> (Lineage m ++ [m])) (read h (md_path m)) i l) h (descendants_from f m i l h).
Proof.
  induction 1 as [|child l Hd _ IH]; intros i m h Hv; [by split|]. simpl.
  destruct (append _ _ h) as [path h1] eqn:Happ. destruct (append_spec _ _ _ _ _ Happ Hv) as (Hv1 & Hr1 & Hk1 & Hext).
  set (def := MkDef child (md_File m) (Some m) (commentsAtPath (read h1 path) f) path).
  assert (Hlin : md_Descriptor <$> Lineage def = md_Descriptor <$> (Lineage m ++ [m])) by (unfold def; by rewrite Lineage_child).
  specialize (Hd def h1 Hv1 eq_refl). destruct (descendants f child def h1) as [ds h2] eqn:Hds. destruct Hd as [Hk2 Hds2]. simpl in Hk2, Hds2.
  pose proof (keeps_trans _ _ _ _ _ Hv Hext Hk1 Hk2) as Hk. pose proof (keeps_valid _ _ _ Hk Hv) as Hv2.
  specialize (IH (S i) m h2 Hv2). destruct (descendants_from f m (S i) l h2) as [rest h3]. destruct IH as [Hk3 Hrest]. simpl in Hk3, Hrest.
  rewrite Hlin, Hr1 in Hds2. destruct Hk as (Hl & Hr & Hk). rewrite Hr in Hrest. split.
  - simpl. eapply keeps_trans; [exact Hv|apply extends_refl|by split|done].
  - simpl. constructor; [|by apply Forall2_app]. unfold def. by rewrite Hr1.
Qed.

Lemma descendants_spec d : described d.
Proof.
  induction d as [name nested IH] using descriptor_ind. intros m h Hv Hm.
  rewrite descendants_eq, messages_eq. pose proof (descendants_from_spec nested IH 0 m h Hv) as Hs.
  rewrite fmap_app in Hs. cbn [fmap list_fmap] in Hs. by rewrite Hm in Hs.
Qed.
End descendants.

(** The definitions that [messageDefsForFile] makes of a file's own messages are those
    of the messages at the top level and of all that are in them, at any depth: each with
    its parents and with the comments at its path, whatever the heap is and however much
    [append] allocates, though the paths share arrays. *)
Theorem file_defs_exact `{Growth} (f : FileDescriptorProto) (fileIdx : nat) (h : heap) :
  Forall2 (defines_in fileIdx f) (file_messages f) (file_defs 0 (f_MessageType f) fileIdx f h).1.
Proof.
  unfold file_messages. generalize 0. revert h. induction (f_MessageType f) as [|d l IH]; intros h i; [constructor|]. simpl.
  set (path := MkSlice (length h) 2). set (h1 := h ++ [[messagePath; int32 (Z.of_nat i)]]).
  assert (Hr : read h1 path = [messagePath; int32 (Z.of_nat i)]) by (unfold read, h1; simpl; by rewrite lookup_app_r, Nat.sub_diag by lia).
  set (def := MkDef d fileIdx None (commentsAtPath (read h1 path) f) path).
  assert (Hv : valid h1 path) by (split; [unfold h1; rewrite length_app; simpl; lia|by rewrite Hr]).
  pose proof (descendants_spec f d def h1 Hv eq_refl) as [_ Hds]. destruct (descendants f d def h1) as [ds h2].
  specialize (IH h2 (S i)). destruct (file_defs (S i) l fileIdx f h2) as [rest h3]. simpl in *. rewrite Hr in Hds.
  constructor; [unfold def; by rewrite Hr|]. by apply Forall2_app.
Qed.

(** ** Names *)

(** The name after the package's. *)
Definition relative_name (m : MessageDefinition) : bytes :=
  (Lineage m ≫= λ parent, bytes_of (d_Name (md_Descriptor parent)) ++ ["."%char]) ++ bytes_of (d_Name (md_Descriptor m)).

Definition package_prefix (pkg : string) : bytes :=
  ["."%char] ++ (if bool_decide (pkg = "") then [] else bytes_of pkg ++ ["."%char]).

Lemma ProtoName_relative pkg m : ProtoName pkg m = string_of (package_prefix pkg ++ relative_name m).
Proof. unfold ProtoName, relative_name, package_prefix. by rewrite <- !(assoc_L (++)). Qed.

Lemma ProtoName_inj pkg m m' : ProtoName pkg m = ProtoName pkg m' ↔ relative_name m = relative_name m'.
Proof. rewrite !ProtoName_relative. split; [|by intros ->]. by intros ?%(inj string_of)%(inj (app _)). Qed.

Lemma defines_name pkg m def : defines m def → ProtoName pkg def = qualified_name pkg m.
Proof.
  destruct m as [[parents path] d]. intros [Hd Hl]. simpl in Hd, Hl. unfold ProtoName, qualified_name.
  rewrite Hd, <- Hl, list_fmap_bind. by rewrite <- !(assoc_L (++)).
Qed.

Lemma qualified_ProtoName pkg pkg' m def : qualified_name pkg m = ProtoName pkg def → qualified_name pkg' m = ProtoName pkg' def.
Proof.
  destruct m as [[parents path] d]. rewrite !ProtoName_relative. unfold qualified_name.
  assert (Hq : ∀ p, ["."%char] ++ (if bool_decide (p = "") then [] else bytes_of p ++ ["."%char]) ++ (parents ≫= λ p, bytes_of (d_Name p) ++ ["."%char])
    ++ bytes_of (d_Name d) = package_prefix p ++ ((parents ≫= λ p, bytes_of (d_Name p) ++ ["."%char]) ++ bytes_of (d_Name d)))
    by (intros p; unfold package_prefix; by rewrite <- !(assoc_L (++))).
  rewrite !Hq. by intros ->%(inj string_of)%(inj (app _)).
Qed.

(** The name of a message after its package's. *)
Definition local_name (m : message_at) : string := qualified_name "" m.

Lemma qualified_local pkg m m' : qualified_name pkg m = qualified_name pkg m' ↔ local_name m = local_name m'.
Proof.
  destruct m as [[ps path] d], m' as [[ps' path'] d']. unfold local_name, qualified_name.
  generalize ((ps ≫= λ p, bytes_of (d_Name p) ++ ["."%char]) ++ bytes_of (d_Name d)) as l.
  generalize ((ps' ≫= λ p, bytes_of (d_Name p) ++ ["."%char]) ++ bytes_of (d_Name d')) as l'. intros l' l.
  split; intros H%(inj string_of)%(inj (app _))%(inj (app _)); by rewrite H.
Qed.

(** A public import keeps the message. *)
Lemma import_Lineage i f h def : Lineage (import_def i f h def) = Lineage def.
Proof. by destruct def as [? ? [?|] ? ?]. Qed.

Lemma import_defines i f h m def : defines m def → defines m (import_def i f h def).
Proof. unfold defines. rewrite import_Lineage. by destruct def. Qed.

Lemma import_relative i f h def : relative_name (import_def i f h def) = relative_name def.
Proof. unfold relative_name. rewrite import_Lineage. by destruct def. Qed.

(** ** Maps of definitions *)

(** A map is keyed by the names of its definitions. *)
Definition keyed (pkg : string) (defs : defs_map) : Prop := ∀ n def, defs !! n = Some def → n = ProtoName pkg def.

(** What is under a name is the last put there. *)
Lemma put_defs_lookup pkg acc l n def : foldl (put_def pkg) acc l !! n = Some def →
  (acc !! n = Some def ∧ ∀ d, d ∈ l → ProtoName pkg d ≠ n) ∨
  (∃ pre post, l = pre ++ def :: post ∧ n = ProtoName pkg def ∧ ∀ d, d ∈ post → ProtoName pkg d ≠ n).
Proof.
  revert acc. induction l as [|d l IH]; intros acc; simpl; [left; split; [done|by intros ? ?%elem_of_nil]|].
  intros [[Hl Hno]|(pre & post & -> & Hn & Hno)]%IH; [|right; by exists (d :: pre), post].
  unfold put_def in Hl. destruct (decide (n = ProtoName pkg d)) as [->|Hne].
  - rewrite lookup_insert_eq in Hl. injection Hl as ->. right. by exists [], l.
  - rewrite lookup_insert_ne in Hl by done. left. split; [done|]. intros d' [->|Hd']%elem_of_cons; [by apply not_eq_sym|by apply Hno].
Qed.

Lemma put_defs_mono pkg acc l n : is_Some (acc !! n) → is_Some (foldl (put_def pkg) acc l !! n).
Proof.
  revert acc. induction l as [|d l IH]; intros acc Hs; [done|]. simpl. apply IH. unfold put_def.
  destruct (decide (n = ProtoName pkg d)) as [->|Hne]; [by rewrite lookup_insert_eq|by rewrite lookup_insert_ne].
Qed.

Lemma put_defs_in pkg acc l def : def ∈ l → is_Some (foldl (put_def pkg) acc l !! ProtoName pkg def).
Proof.
  intros Hin. revert acc. induction Hin as [d l|def d l Hin IH]; intros acc; [|by apply IH]. simpl.
  apply put_defs_mono. unfold put_def. by rewrite lookup_insert_eq.
Qed.

(** The order does not matter when the names are different. *)
Lemma put_defs_perm pkg acc l l' : NoDup (relative_name <$> l) → l ≡ₚ l' → foldl (put_def pkg) acc l = foldl (put_def pkg) acc l'.
Proof.
  intros Hnd Hp. revert acc Hnd. induction Hp as [|d l l' Hp IH|d d' l|l1 l2 l3 Hp1 IH1 Hp2 IH2]; intros acc Hnd; [done|..].
  - simpl. apply IH. by apply NoDup_cons in Hnd as [_ Hnd].
  - simpl. f_equal. unfold put_def. apply insert_insert_ne. intros He. apply ProtoName_inj in He.
    apply NoDup_cons in Hnd as [Hni _]. apply Hni. simpl. rewrite He. by left.
  - rewrite IH1 by done. apply IH2. by rewrite <- Hp1.
Qed.

(** So neither does the order in which Go goes through the definitions of an imported file. *)
Lemma import_order pkg q acc i f h (depDefs : defs_map) order :
  keyed q depDefs → order ≡ₚ map_to_list depDefs →
  foldl (put_def pkg) acc (import_def i f h <$> order.*2) = foldl (put_def pkg) acc (import_def i f h <$> (map_to_list depDefs).*2).
Proof.
  intros Hk Hp. apply put_defs_perm; [|by rewrite Hp]. rewrite Hp, <- list_fmap_compose.
  apply (NoDup_fmap_1 (λ r, string_of (package_prefix q ++ r))).
  replace (_ <$> _) with (map_to_list depDefs).*1; [apply NoDup_fst_map_to_list|].
  rewrite <- !list_fmap_compose. apply list_fmap_ext. intros j [n d] Hj. unfold compose. cbn [fst snd].
  apply list_elem_of_lookup_2, elem_of_map_to_list, Hk in Hj. by rewrite import_relative, <- ProtoName_relative.
Qed.

(** ** The registry *)

Section registry_spec.
Context `{Growth} (files : list FileDescriptorProto) (byName : gmap string nat).

(** [i] imports [j] publicly. *)
Definition imports (i j : nat) : Prop := ∃ f depIdx depFileName,
  files !! i = Some f ∧ depIdx ∈ f_PublicDependency f ∧ index (f_Dependency f) depIdx = Some depFileName ∧ byName !! depFileName = Some j.

(** The messages that [i] has or imports publicly, directly or not. *)
Inductive visible : nat → message_at → Prop :=
| visible_own i f m : files !! i = Some f → m ∈ file_messages f → visible i m
| visible_import i j m : imports i j → visible j m → visible i m.

(** What protoc guarantees of the files it sends: a file comes after those it imports. *)
Definition well_ordered : Prop := ∀ i f depIdx, files !! i = Some f → depIdx ∈ f_PublicDependency f →
  ∃ depFileName j, index (f_Dependency f) depIdx = Some depFileName ∧ byName !! depFileName = Some j ∧ j < i.

(** Of messages with one name, the last. *)
Definition last_named (l : list message_at) (m : message_at) : Prop := ∃ pre post,
  l = pre ++ m :: post ∧ ∀ m', m' ∈ post → local_name m' ≠ local_name m.

(** None of the imports at [deps] of [f] gives a message of [m]'s name. *)
Definition none_named (f : FileDescriptorProto) (deps : list Z) (m : message_at) : Prop := ∀ depIdx depFileName j m',
  depIdx ∈ deps → index (f_Dependency f) depIdx = Some depFileName → byName !! depFileName = Some j →
  visible j m' → local_name m' ≠ local_name m.

(** The message that file [i] has under its name: that of its last public import that gives
    one, before its own. *)
Inductive resolves : nat → message_at → Prop :=
| resolves_own i f m : files !! i = Some f → last_named (file_messages f) m → none_named f (f_PublicDependency f) m → resolves i m
| resolves_import i f pre depIdx post depFileName j m : files !! i = Some f → f_PublicDependency f = pre ++ depIdx :: post →
    index (f_Dependency f) depIdx = Some depFileName → byName !! depFileName = Some j → resolves j m →
    none_named f post m → resolves i m.

Lemma resolves_visible i m : resolves i m → visible i m.
Proof.
  induction 1 as [i f m Hf (pre & post & Hl & _) _|i f pre k post name j m Hf Hp Hn Hj _ IH _].
  - eapply visible_own; [done|]. rewrite Hl. apply elem_of_app. right. by left.
  - eapply visible_import; [|done]. exists f, k, name. split_and!; [done| |done..]. rewrite Hp. apply elem_of_app. right. by left.
Qed.

(** A definition for file [i]: of the message it has under the name, with the comments of
    its own place when no import gives another of that name. *)
Definition resolved (i : nat) (f : FileDescriptorProto) (n : string) (def : MessageDefinition) : Prop :=
  n = ProtoName (GetPackage f) def ∧ md_File def = i ∧
  ∃ m, resolves i m ∧ defines m def ∧ (none_named f (f_PublicDependency f) m → md_Comments def = commentsAtPath m.1.2 f).

(** The definitions of file [i]: these, for every name of what is visible. *)
Definition sound_defs (i : nat) (f : FileDescriptorProto) (defs : defs_map) : Prop := ∀ n def, defs !! n = Some def → resolved i f n def.

Definition complete_defs (i : nat) (f : FileDescriptorProto) (defs : defs_map) : Prop := ∀ m, visible i m →
  is_Some (defs !! qualified_name (GetPackage f) m).

Definition good_defs (i : nat) (r : option (defs_map * heap)) : Prop := ∃ f defs h,
  files !! i = Some f ∧ r = Some (defs, h) ∧ sound_defs i f defs ∧ complete_defs i f defs.

(** What the imports at [deps] give under a name: a definition for file [i] of the message
    of the last that has one. *)
Definition imported_def (i : nat) (f : FileDescriptorProto) (deps : list Z) (n : string) (def : MessageDefinition) : Prop :=
  ∃ pre depIdx post depFileName j m, deps = pre ++ depIdx :: post ∧
    index (f_Dependency f) depIdx = Some depFileName ∧ byName !! depFileName = Some j ∧ resolves j m ∧ defines m def ∧
    md_File def = i ∧ n = ProtoName (GetPackage f) def ∧ none_named f post m.

(** The definitions of one import, put among the others. *)
Lemma import_put_spec i f fj j h defs depDefs :
  sound_defs j fj depDefs → complete_defs j fj depDefs →
  let defs' := foldl (put_def (GetPackage f)) defs (import_def i fj h <$> (map_to_list depDefs).*2) in
  (∀ m, visible j m → is_Some (defs' !! qualified_name (GetPackage f) m)) ∧
  (∀ n def, defs' !! n = Some def →
     (defs !! n = Some def ∧ ∀ m, visible j m → qualified_name (GetPackage f) m ≠ n) ∨
     (∃ m, resolves j m ∧ defines m def ∧ md_File def = i ∧ n = ProtoName (GetPackage f) def)).
Proof.
  intros Hs Hc defs'. assert (Hin : ∀ m, visible j m → ∃ d, d ∈ import_def i fj h <$> (map_to_list depDefs).*2 ∧
    ProtoName (GetPackage f) d = qualified_name (GetPackage f) m).
  { intros m Hv. destruct (Hc m Hv) as [d Hd]. destruct (Hs _ _ Hd) as (Hn & _). exists (import_def i fj h d). split.
    - apply list_elem_of_fmap_2, list_elem_of_fmap. exists (qualified_name (GetPackage fj) m, d). split; [done|]. by apply elem_of_map_to_list.
    - symmetry. apply (qualified_ProtoName (GetPackage fj)). by rewrite Hn, !ProtoName_relative, import_relative. }
  split.
  - intros m (d & Hd & <-)%Hin. by apply put_defs_in.
  - intros n def [[Hl Hno]|(pre & post & Hl & -> & _)]%put_defs_lookup; [left|right].
    + split; [done|]. intros m (d & Hd & <-)%Hin. by apply Hno.
    + assert (Hd : def ∈ import_def i fj h <$> (map_to_list depDefs).*2) by (rewrite Hl; apply elem_of_app; right; by left).
      apply list_elem_of_fmap in Hd as (d & -> & ([n d'] & -> & Hd)%list_elem_of_fmap). apply elem_of_map_to_list in Hd.
      destruct (Hs n d' Hd) as (_ & _ & m & Hr & Hdef & _). exists m. split_and!; [done|by apply import_defines|done..].
Qed.

Lemma public_imports_spec rec i f deps defs h :
  files !! i = Some f →
  (∀ depIdx, depIdx ∈ deps → ∃ depFileName j, index (f_Dependency f) depIdx = Some depFileName ∧ byName !! depFileName = Some j ∧
     ∀ h, good_defs j (rec j h)) →
  ∃ defs' h', public_imports files byName rec i f deps defs h = Some (defs', h') ∧
    (∀ n, is_Some (defs !! n) → is_Some (defs' !! n)) ∧
    (∀ depIdx depFileName j m, depIdx ∈ deps → index (f_Dependency f) depIdx = Some depFileName → byName !! depFileName = Some j →
       visible j m → is_Some (defs' !! qualified_name (GetPackage f) m)) ∧
    (∀ n def, defs' !! n = Some def →
       (defs !! n = Some def ∧ ∀ m, n = qualified_name (GetPackage f) m → none_named f deps m) ∨ imported_def i f deps n def).
Proof.
  intros Hf. revert defs h. induction deps as [|depIdx deps IH]; intros defs h Hdeps.
  { exists defs, h. split_and!; [done..| |]; [by intros ? ? ? ? ?%elem_of_nil|]. left. split; [done|]. by intros m _ ? ? ? ? ?%elem_of_nil. }
  destruct (Hdeps depIdx) as (name & j & Hname & Hj & Hrec); [by left|].
  destruct (Hrec h) as (fj & depDefs & h' & Hfj & Hr & Hs & Hc). simpl. rewrite Hname. simpl. rewrite Hj. simpl. rewrite Hfj. simpl. rewrite Hr. simpl.
  destruct (import_put_spec i f fj j h' defs depDefs Hs Hc) as [Hput Hget].
  set (defs1 := foldl (put_def (GetPackage f)) defs _) in *.
  destruct (IH defs1 h') as (defs' & h'' & -> & Hmono & Hdone & Hin); [intros ? ?; apply Hdeps; by right|].
  exists defs', h''. split_and!; [done| | |].
  - intros n Hn. by apply Hmono, put_defs_mono.
  - intros k name' j' m [->|Hk]%elem_of_cons Hname' Hj' Hv; [|by eapply Hdone]. simplify_eq. by apply Hmono, Hput.
  - intros n def [[Hl Hno]|(pre & k & post & name' & j' & m & -> & Hrest)]%Hin; [|right; by exists (depIdx :: pre), k, post, name', j', m].
    apply Hget in Hl as [[Hl Hnoj]|(m & Hm & Hdef & Hfile & Hn)]; [left|right].
    + split; [done|]. intros m -> k name' j' m' [->|Hk]%elem_of_cons Hname' Hj' Hv; [|by eapply Hno].
      simplify_eq. rewrite <- (qualified_local (GetPackage f)). by apply Hnoj.
    + exists [], depIdx, deps, name, j, m. split_and!; try done. apply Hno. by rewrite Hn, (defines_name _ _ _ Hdef).
Qed.

Lemma own_defs_spec i f h : files !! i = Some f →
  let defs := foldl (put_def (GetPackage f)) ∅ (file_defs 0 (f_MessageType f) i f h).1 in
  (∀ m, m ∈ file_messages f → is_Some (defs !! qualified_name (GetPackage f) m)) ∧
  (∀ n def, defs !! n = Some def → n = ProtoName (GetPackage f) def ∧ ∃ m, last_named (file_messages f) m ∧ defines_in i f m def).
Proof.
  intros Hf defs. pose proof (file_defs_exact f i h) as Hd. split.
  - intros m [k Hk]%list_elem_of_lookup. destruct (Forall2_lookup_l _ _ _ _ _ Hd Hk) as (def & Hl & Hdef & _).
    rewrite <- (defines_name _ _ _ Hdef). apply put_defs_in. by eapply list_elem_of_lookup_2.
  - intros n def [[Hl _]|(pre & post & Hl & -> & Hno)]%put_defs_lookup; [done|]. split; [done|]. rewrite Hl in Hd.
    apply Forall2_app_inv_r in Hd as (mpre & mrest & Hpre & (m & mpost & Hm & Hpost & ->)%Forall2_cons_inv_r & Heq).
    exists m. split; [|done]. exists mpre, mpost. split; [done|]. intros m' [k Hk]%list_elem_of_lookup.
    destruct (Forall2_lookup_l _ _ _ _ _ Hpost Hk) as (d & Hd & Hdef & _). rewrite <- (qualified_local (GetPackage f)).
    rewrite <- (defines_name _ _ _ Hdef), <- (defines_name _ _ _ (proj1 Hm)). apply Hno. by eapply list_elem_of_lookup_2.
Qed.

Lemma messageDefsForFile_spec fuel i h : well_ordered → i < fuel → is_Some (files !! i) →
  good_defs i (messageDefsForFile files byName fuel i h).
Proof.
  intros Hwo. revert i h. induction fuel as [|fuel IH]; intros i h Hlt [f Hf]; [lia|].
  destruct (own_defs_spec i f h Hf) as [Hown Hs]. simpl. rewrite Hf. simpl.
  destruct (file_defs 0 (f_MessageType f) i f h) as [defs h1]. simpl in Hs, Hown.
  destruct (public_imports_spec (messageDefsForFile files byName fuel) i f (f_PublicDependency f) (foldl (put_def (GetPackage f)) ∅ defs) h1 Hf) as (defs' & h' & He & Hmono & Hdone & Hin).
  - intros depIdx Hin. destruct (Hwo i f depIdx Hf Hin) as (name & j & Hname & Hj & Hji). exists name, j. split_and!; [done..|].
    intros h2. apply IH; [lia|]. apply lookup_lt_is_Some. apply lookup_lt_Some in Hf. lia.
  - exists f, defs', h'. split_and!; [done|exact He| |].
    + intros n def [[(Hn & m & Hm & Hdef & Hfile & Hcm)%Hs Hno]|(pre & k & post & name & j & m & Hp & Hk & Hj & Hr & Hdef & Hfile & Hn & Hno)]%Hin.
      * split_and!; [done..|]. exists m. split_and!; [|done..]. eapply resolves_own; [done..|]. apply Hno. by rewrite Hn, (defines_name _ _ _ Hdef).
      * split_and!; [done..|]. exists m. split_and!; [by eapply resolves_import|done|]. intros Hnone. exfalso.
        apply (Hnone k name j m); [rewrite Hp; apply elem_of_app; right; by left|done|done|by apply resolves_visible|done].
    + intros m Hv. inversion Hv as [? f' ? Hf' Hm|? j ? (f' & depIdx & name & Hf' & Hk & Hname & Hj) Hvj]; subst.
      * rewrite Hf in Hf'. injection Hf' as <-. by apply Hmono, Hown.
      * rewrite Hf in Hf'. injection Hf' as <-. by eapply Hdone.
Qed.

(** No file from [i] on, and before [l], gives a message of the name [n]. *)
Definition none_until (i : nat) (l : nat) (n : string) : Prop := ∀ j f m,
  i ≤ j → j < l → files !! j = Some f → visible j m → qualified_name (GetPackage f) m ≠ n.

(** Of all the files from [i] on. *)
Lemma index_messages_spec fuel n i acc h : well_ordered → i + n = length files → i + n ≤ fuel →
  ∃ defs h', index_messages files byName fuel n i acc h = Some (defs, h') ∧
    (∀ name, is_Some (acc !! name) → is_Some (defs !! name)) ∧
    (∀ j f m, i ≤ j → files !! j = Some f → visible j m → is_Some (defs !! qualified_name (GetPackage f) m)) ∧
    (∀ name def, defs !! name = Some def → (acc !! name = Some def ∧ none_until i (length files) name) ∨
       ∃ f, files !! md_File def = Some f ∧ resolved (md_File def) f name def ∧ none_until (S (md_File def)) (length files) name).
Proof.
  intros Hwo. revert i acc h. induction n as [|n IH]; intros i acc h Hlen Hfuel.
  { exists acc, h. split_and!; [done|done| |]; [intros j f m Hj Hf%lookup_lt_Some; lia|]. left. split; [done|]. intros ???. lia. }
  destruct (messageDefsForFile_spec fuel i h Hwo) as (f & defs & h1 & Hf & Hr & Hs & Hc); [lia|apply lookup_lt_is_Some; lia|].
  simpl. rewrite Hr. simpl. destruct (IH (S i) (defs ∪ acc) h1) as (defs' & h' & -> & Hmono & Hall & Hsound); [lia..|].
  exists defs', h'. split_and!; [done| | |].
  - intros name Hn. apply Hmono. apply lookup_union_is_Some. by right.
  - intros j fj m Hj Hfj Hm. destruct (decide (j = i)) as [->|Hne]; [|apply (Hall j fj m); [lia|done|done]]. simplify_eq.
    apply Hmono, lookup_union_is_Some. left. by apply Hc.
  - intros name def [[Hl Hno]|?]%Hsound; [|by right]. apply lookup_union_Some_raw in Hl as [Hl|[Hdefs Hl]]; [right|left].
    + pose proof (Hs _ _ Hl) as Hres. pose proof Hres as (_ & <- & _). by exists f.
    + split; [done|]. intros j fj m Hij Hj Hfj Hv <-. destruct (decide (j = i)) as [->|Hne]; [|apply (Hno j fj m); [lia|done..]].
      simplify_eq. apply Hc in Hv as [? Hv]. by rewrite Hdefs in Hv.
Qed.
End registry_spec.

(** C27: the registry of the files that protoc sends, each after those it imports, is made
    (without a panic, and the recursion over public imports ends).  It has a definition
    under the fully qualified name of every message of every file, also of those that the
    file imports publicly, which go by its package there; and under a name it has the
    definition for the last file that has one of that name: of the message that the last
    of that file's public imports gives under the name, and only if none does, of the
    file's own, which then has its own comments.  So a message whose name no import takes
    is under its name: [own_unless_shadowed]. *)
Theorem registry_exact `{Growth} (files : list FileDescriptorProto) (fuel : nat) :
  well_ordered files (index_files files) → length files ≤ fuel →
  ∃ r, New fuel files = Some r ∧
    (∀ i f m, files !! i = Some f → visible files (index_files files) i m →
       is_Some (MessageDefinition_of r (qualified_name (GetPackage f) m))) ∧
    (∀ name def, MessageDefinition_of r name = Some def → ∃ f m, files !! md_File def = Some f ∧
       name = ProtoName (GetPackage f) def ∧ name = qualified_name (GetPackage f) m ∧
       resolves files (index_files files) (md_File def) m ∧ defines m def ∧
       (none_named files (index_files files) f (f_PublicDependency f) m → md_Comments def = commentsAtPath m.1.2 f) ∧
       none_until files (index_files files) (S (md_File def)) (length files) name).
Proof.
  intros Hwo Hfuel. destruct (index_messages_spec files (index_files files) fuel (length files) 0 ∅ [] Hwo) as (defs & h & He & _ & Hall & Hsound); [lia..|].
  exists (MkRegistry files (index_files files) defs). unfold New. rewrite He. split_and!; [done| |].
  - intros i f m Hf Hm. apply (Hall i f m); [lia|done|done].
  - intros name def [[Hl _]|(f & Hf & (Hn & _ & m & Hr & Hd & Hc) & Hno)]%Hsound; [done|]. exists f, m.
    split_and!; try done. by rewrite Hn, (defines_name _ _ _ Hd).
Qed.

(** Where no import takes its name, and no later message has it, a message is what the
    file has under it. *)
Lemma own_unless_shadowed files byName i f m m' : files !! i = Some f → none_named files byName f (f_PublicDependency f) m →
  resolves files byName i m' → local_name m' = local_name m → last_named (file_messages f) m'.
Proof.
  intros Hf Hnone Hr Hl. destruct Hr as [i f' m' Hf' Hlast _|i f' pre k post name j m' Hf' Hp Hk Hj Hrj _]; rewrite Hf in Hf'; injection Hf' as <-; [done|].
  exfalso. apply (Hnone k name j m'); [rewrite Hp; apply elem_of_app; right; by left|done|done|by apply resolves_visible|done].
Qed.

(** ** Examples *)

(** As Go does while slices are short. *)
Definition doubling : Growth :=
  {| grow := λ oldCap newLen, Nat.max newLen (2 * oldCap); grow_enough := λ oldCap newLen, Nat.le_max_l newLen (2 * oldCap) |}.
#[local] Existing Instance doubling.

Definition message (name : string) (nested : list DescriptorProto) : DescriptorProto := MkDescriptor name nested.
Definition example_file (name pkg : string) (deps : list string) (public : list Z) (ms : list DescriptorProto) (locs : list Location) :=
  MkFile name (Some pkg) "" deps public ms [] (Some locs).
Definition comment (path : list Z) (text : string) : Location := MkLocation path text "" [].

(** [b] imports [a] publicly. *)
Definition example_files : list FileDescriptorProto :=
  [ example_file "a.proto" "p" [] [] [message "M" [message "N" []]] [comment [4; 0; 3; 0]%Z "of N"];
    example_file "b.proto" "q" ["a.proto"] [0%Z] [message "B" []] [] ].

Lemma example_well_ordered : well_ordered example_files (index_files example_files).
Proof.
  intros i f k Hf Hk. destruct i as [|[|i]]; [..|done]; injection Hf as <-; simpl in Hk.
  - by apply elem_of_nil in Hk.
  - apply list_elem_of_singleton in Hk as ->. exists "a.proto", 0. split_and!; [done|vm_compute; done|lia].
Qed.

Lemma registry_exact_witness : ∃ r, New 2 example_files = Some r ∧ is_Some (MessageDefinition_of r ".p.M.N") ∧ is_Some (MessageDefinition_of r ".q.M.N").
Proof.
  destruct (registry_exact example_files 2 example_well_ordered) as (r & Hr & Hall & _); [simpl; lia|].
  exists r. split; [done|].
  assert (Hv : visible example_files (index_files example_files) 0 ([message "M" [message "N" []]], [4; 0; 3; 0]%Z, message "N" []))
    by (eapply visible_own; [done|right; left]).
  split; [exact (Hall 0 _ _ eq_refl Hv)|].
  refine (Hall 1 _ _ eq_refl (visible_import _ _ 1 0 _ _ Hv)).
  eexists _, 0%Z, "a.proto". split_and!; [done|by left|done|by vm_compute].
Defined.

(** A public import has the comments at a path that siblings have overwritten: three
    levels down, [append] puts the path of each in the array of their parent's. *)
Theorem import_comments_overwritten :
  let d := message "M" [message "N" [message "O" [message "A" []; message "B" []]]] in
  let path i := [4; 0; 3; 0; 3; 0; 3; i]%Z in
  let files := [ example_file "a.proto" "p" [] [] [d] [comment (path 0%Z) "of A"; comment (path 1%Z) "of B"];
                 example_file "b.proto" "q" ["a.proto"] [0%Z] [] [] ] in
  ∃ r, New 2 files = Some r ∧
    (Leading ∘ md_Comments) <$> MessageDefinition_of r ".p.M.N.O.A" = Some "of A" ∧
    (Leading ∘ md_Comments) <$> MessageDefinition_of r ".q.M.N.O.A" = Some "of B".
Proof. eexists. split; [vm_compute; reflexivity|]. by split; vm_compute. Qed.

(** A message whose file publicly imports, from another package, a message of the same
    name, gets that one's descriptor. *)
Theorem import_shadows_own :
  let files := [ example_file "a.proto" "p" [] [] [message "M" [message "N" []]] [];
                 example_file "b.proto" "q" ["a.proto"] [0%Z] [message "M" []] [] ] in
  ∃ r, New 2 files = Some r ∧ md_Descriptor <$> MessageDefinition_of r ".q.M" = Some (message "M" [message "N" []]).
Proof. eexists. split; [vm_compute; reflexivity|]. by vm_compute. Qed.
