(* ===== verification/Generator.v ===== *)
(** * Generator.v: what the code generator decides before it prints
    ([src/protoc-gen-psrpc/generator.go], [internal/gen/main.go])

    The names of packages, the imports, the names of types, the options of methods and
    their topics.  A file is its index in the request; [gen.Fail] and the panics are the
    errors of a result. *)
From S2P Require Import Prelude Errors Bus Info Naming CommandLine TypeMap.
From stdpp Require Import pretty sorting.

#[local] Open Scope nat_scope.

(** Where the process ends. *)
Inductive failure : Type :=
| BadParameter (e : param_error)
| NoFiles
| FileNotFound (name : string)
| ConflictingGoPackage (a b : string)
| ConflictingPackage (a b : string)
| MessageNotFound (name : string)
| GroupMismatch (group method : string)
| BadSource
| Panicked.

#[local] Abbreviation M := (result failure).

Definition or_panic {A} (o : option A) : M A := match o with Some a => Ok a | None => Err Panicked end.

(** ** [internal/gen/main.go] *)

Record CodeGeneratorRequest : Type := MkRequest {
  FileToGenerate : list string;
  GetParameter : string;
  ProtoFile : list FileDescriptorProto
}.

(** Of what [readGenRequest] does, what is not reading. *)
Definition check_request (req : CodeGeneratorRequest) : M () :=
  if bool_decide (length (FileToGenerate req) = 0) then Err NoFiles else Ok ().

Fixpoint file_named (i : nat) (files : list FileDescriptorProto) (name : string) : option nat :=
  match files with
  | [] => None
  | f :: files => if bool_decide (f_Name f = name) then Some i else file_named (S i) files name
  end.

Fixpoint FilesToGenerate_loop (files : list FileDescriptorProto) (names : list string) (genFiles : list nat) : M (list nat) :=
  match names with
  | [] => Ok genFiles
  | name :: names =>
      match file_named 0 files name with
      | Some i => FilesToGenerate_loop files names (genFiles ++ [i])
      | None => Err (FileNotFound name)
      end
  end.

Definition FilesToGenerate (req : CodeGeneratorRequest) : M (list nat) := FilesToGenerate_loop (ProtoFile req) (FileToGenerate req) [].

(** ** The generator's state *)

Record psrpc : Type := MkPsrpc {
  t_files : list FileDescriptorProto;
  t_reg : Registry;
  t_pkgs : gmap string string;
  t_pkgNamesInUse : gset string;
  t_importPrefix : string;
  t_importMap : gmap string string;
  t_sourceRelativePaths : bool;
  t_modulePrefix : string;
  t_genPkgName : string;
  t_fileToGoPackageName : gmap nat string;
  t_genFiles : list nat
}.

Definition set_packages (t : psrpc) (pkgs : gmap string string) (inUse : gset string) : psrpc :=
  MkPsrpc (t_files t) (t_reg t) pkgs inUse (t_importPrefix t) (t_importMap t) (t_sourceRelativePaths t) (t_modulePrefix t)
    (t_genPkgName t) (t_fileToGoPackageName t) (t_genFiles t).
Definition set_genPkgName (t : psrpc) (name : string) : psrpc :=
  MkPsrpc (t_files t) (t_reg t) (t_pkgs t) (t_pkgNamesInUse t) (t_importPrefix t) (t_importMap t) (t_sourceRelativePaths t) (t_modulePrefix t)
    name (t_fileToGoPackageName t) (t_genFiles t).
Definition set_fileName (t : psrpc) (i : nat) (name : string) : psrpc :=
  MkPsrpc (t_files t) (t_reg t) (t_pkgs t) (t_pkgNamesInUse t) (t_importPrefix t) (t_importMap t) (t_sourceRelativePaths t) (t_modulePrefix t)
    (t_genPkgName t) (<[i := name]> (t_fileToGoPackageName t)) (t_genFiles t).

(** [strconv.Itoa] of what is not negative. *)
Definition Itoa (i : nat) : string := pretty (N.of_nat i).

(** The loop of [registerPackageName]; [None]: the fuel is not enough. *)
Fixpoint fresh_alias (fuel i : nat) (name alias : string) (inUse : gset string) : option string :=
  match fuel with
  | O => None
  | S fuel => if bool_decide (alias ∈ inUse) then fresh_alias fuel (S i) name (name +:+ Itoa i) inUse else Some alias
  end.

(** The fuel is enough ([fresh_alias_total]). *)
Definition registerPackageName (name : string) (t : psrpc) : string * psrpc :=
  let alias := default name (fresh_alias (S (size (t_pkgNamesInUse t))) 1 name name (t_pkgNamesInUse t)) in
  (alias, set_packages t (<[name := alias]> (t_pkgs t)) ({[ alias ]} ∪ t_pkgNamesInUse t)).

Section unicode.
Context `{Unicode}.

(** The first loop of [deduceGenPkgName], over explicit names; [acc] is [genPkgName]. *)
Fixpoint explicit_package (acc : string) (genFiles : list FileDescriptorProto) : M string :=
  match genFiles with
  | [] => Ok acc
  | f :: genFiles =>
      let '(name, explicit) := goPackageName f in
      if explicit then
        let name := CleanIdentifier name in
        if negb (bool_decide (acc = "")) && negb (bool_decide (acc = name)) then Err (ConflictingGoPackage acc name)
        else explicit_package name genFiles
      else explicit_package acc genFiles
  end.

Fixpoint implicit_package (acc : string) (genFiles : list FileDescriptorProto) : M string :=
  match genFiles with
  | [] => Ok acc
  | f :: genFiles =>
      let '(name, _) := goPackageName f in
      let name := CleanIdentifier name in
      if negb (bool_decide (acc = "")) && negb (bool_decide (acc = name)) then Err (ConflictingPackage acc name)
      else implicit_package name genFiles
  end.

Definition deduceGenPkgName (genFiles : list FileDescriptorProto) : M string :=
  genPkgName ← explicit_package "" genFiles;
  if negb (bool_decide (genPkgName = "")) then Ok genPkgName else implicit_package genPkgName genFiles.

(** The body of [Generate]'s loop over the files of the request. *)
Definition name_file (genPkgImportPath : string) (i : nat) (f : FileDescriptorProto) (t : psrpc) : M psrpc :=
  options ← (if bool_decide (f_Name f = "options.proto") then
               or_panic ((λ pkg, bool_decide (pkg = "psrpc")) <$> f_Package f)
             else Ok false);
  if (options : bool) then Ok t
  else if bool_decide (i ∈ t_genFiles t) then Ok (set_fileName t i (t_genPkgName t))
  else if negb (bool_decide (genPkgImportPath = "")) && bool_decide ((goPackageOption f).1.1 = genPkgImportPath)
       then Ok (set_fileName t i (t_genPkgName t))
  else
    let name := GetPackage f in
    let name := if bool_decide (name = "") then BaseName (f_Name f) else name in
    let name := CleanIdentifier name in
    let '(alias, t) := registerPackageName name t in
    Ok (set_fileName t i alias).

Fixpoint name_files (genPkgImportPath : string) (i : nat) (files : list FileDescriptorProto) (t : psrpc) : M psrpc :=
  match files with
  | [] => Ok t
  | f :: files => t ← name_file genPkgImportPath i f t; name_files genPkgImportPath (S i) files t
  end.

(** The packages that generated code imports. *)
Definition own_packages : list string := ["client"; "context"; "info"; "psrpc"; "rand"; "server"; "version"].

Definition register_all (names : list string) (t : psrpc) : psrpc := foldl (λ t name, (registerPackageName name t).2) t names.

(** [Generate] up to where it generates, with the parameters parsed. *)
Definition prepare `{Growth} (params : commandLineParams) (req : CodeGeneratorRequest) : M psrpc :=
  genFiles ← FilesToGenerate req;
  reg ← or_panic (New (length (ProtoFile req)) (ProtoFile req));
  let t := MkPsrpc (ProtoFile req) reg ∅ ∅ (importPrefix params) (importMap params) (bool_decide (paths params = "source_relative"))
             (modulePrefix params) "" ∅ genFiles in
  let t := register_all own_packages t in
  gen ← or_panic (mapM (λ i, ProtoFile req !! i) genFiles);
  genPkgName ← deduceGenPkgName gen;
  first ← or_panic (head gen);
  let '(genPkgImportPath, _, _) := goPackageOption first in
  name_files genPkgImportPath 0 (ProtoFile req) (set_genPkgName t genPkgName).
End unicode.

(** [goPackageName] of the generator. *)
Definition filePackage (t : psrpc) (i : nat) : string := default "" (t_fileToGoPackageName t !! i).

(** ** Names *)

Definition goTypeName (t : psrpc) (protoName : string) : M string :=
  match MessageDefinition_of (t_reg t) protoName with
  | None => Err (MessageNotFound protoName)
  | Some def =>
      let pkg := filePackage t (md_File def) in
      let prefix := if bool_decide (pkg = t_genPkgName t) then [] else bytes_of pkg ++ ["."%char] in
      let name := Lineage def ≫= λ parent, bytes_of (CamelCase (d_Name (md_Descriptor parent))) ++ ["_"%char] in
      Ok (string_of (prefix ++ name ++ bytes_of (CamelCase (d_Name (md_Descriptor def)))))
  end.

(** [strings.ToLower] of one byte: one that is not ASCII is not a rune. *)
Definition lower_byte (c : ascii) : bytes :=
  if isASCIIUpper c then [flip_case c]
  else if (Z_of_byte c <? 128)%Z then [c] else byte_of_Z <$> [239; 191; 189]%Z.

Definition unexported (s : string) : M string :=
  match bytes_of s with [] => Err Panicked | c :: rest => Ok (string_of (lower_byte c ++ rest)) end.

Definition serviceNameCamelCased (service : ServiceDescriptorProto) : string := CamelCase (s_Name service).
Definition methodNameCamelCased (method : MethodDescriptorProto) : string := CamelCase (m_Name method).
Definition serviceStruct (service : ServiceDescriptorProto) : M string := (λ s, s +:+ "Server") <$> unexported (serviceNameCamelCased service).

(** ** Options *)

Definition noOptions : Options := MkOptions false false false None QUEUE None.

(** A case of the oneof that is set decides the type. *)
Definition getOptions (method : MethodDescriptorProto) : Options :=
  match m_Options method with
  | None => noOptions
  | Some o =>
      match o_Routing o with
      | Some r => MkOptions (o_Subscription o) (o_Stream o) (o_Topics o) (o_TopicParams o) r (Some r)
      | None => o
      end
  end.

Definition getRequireClaim (opts : Options) : bool :=
  negb (bool_decide (o_Type opts = MULTI)) && match o_TopicParams opts with None => true | Some p => negb (tp_SingleServer p) end.

(** ** Topics *)

Record topic : Type := MkTopic { varName : string; typeName : string; typed : bool }.

#[export] Instance topic_eq_dec : EqDecision topic.
Proof. solve_decision. Defined.

Definition Join (elems : list string) (sep : string) : string := String.concat sep elems.

Definition FormatCastToString (t : topic) : string := if negb (typed t) then varName t else "string(" +:+ varName t +:+ ")".
Definition TypeNames (s : list topic) : list string := typeName <$> s.
Definition VarNames (s : list topic) : list string := varName <$> s.

Definition FormatTypeParamConstraints (s : list topic) : string :=
  match s with
  | [] => ""
  | t :: _ => if negb (typed t) then "" else "[" +:+ Join (TypeNames s) ", " +:+ " ~string]"
  end.

Definition FormatTypeParams (s : list topic) : string :=
  match s with
  | [] => ""
  | t :: _ => if negb (typed t) then "" else "[" +:+ Join (TypeNames s) ", " +:+ "]"
  end.

Definition FormatParams (s : list topic) : string := Join ((λ t, varName t +:+ " " +:+ typeName t) <$> s) ", ".

Definition FormatCastToStringSlice (s : list topic) : string :=
  match FormatCastToString <$> s with
  | [] => "nil"
  | vars => "[]string{" +:+ Join vars ", " +:+ "}"
  end.

(** The loop over the names of the parameters. *)
Fixpoint topics_named (isTyped : bool) (names : list string) : M (list topic) :=
  match names with
  | [] => Ok []
  | p :: names =>
      var ← or_panic (LowerCamelCase p);
      ts ← topics_named isTyped names;
      Ok (MkTopic var (if isTyped then CamelCase p +:+ "TopicType" else "string") isTyped :: ts)
  end.

Definition topicsForMethod (method : MethodDescriptorProto) : M (list topic) :=
  let opt := getOptions method in
  if negb (o_Topics opt) then Ok []
  else
    match o_TopicParams opt with
    | None => Ok [MkTopic "topic" "string" false]
    | Some p => if bool_decide (length (tp_Names p) = 0) then Ok [MkTopic "topic" "string" false] else topics_named (tp_Typed p) (tp_Names p)
    end.

(** The typed ones among [topics] that are new, with those found. *)
Fixpoint new_typed (topics : list topic) (found : gset string) : list topic * gset string :=
  match topics with
  | [] => ([], found)
  | t :: topics =>
      if typed t && negb (bool_decide (typeName t ∈ found)) then
        let '(ts, found) := new_typed topics ({[ typeName t ]} ∪ found) in (t :: ts, found)
      else new_typed topics found
  end.

Fixpoint typed_topics (methods : list MethodDescriptorProto) (found : gset string) : M (list topic) :=
  match methods with
  | [] => Ok []
  | m :: methods =>
      topics ← topicsForMethod m;
      let '(ts, found) := new_typed topics found in
      rest ← typed_topics methods found;
      Ok (ts ++ rest)
  end.

Definition typedTopicsForService (service : ServiceDescriptorProto) : M (list topic) := typed_topics (s_Method service) ∅.

Record topicGroup : Type := MkGroup { g_methNames : list string; g_typeName : string; g_topics : list topic }.

(** The group that a method is put in, if any. *)
Definition group_of (m : MethodDescriptorProto) : option string :=
  let opt := getOptions m in
  match o_TopicParams opt with
  | Some p => if bool_decide (tp_Group p = "") || o_Subscription opt then None else Some (tp_Group p)
  | None => None
  end.

(** The body of [topicGroupsForService]'s loop, with the groups and where each is. *)
Definition add_to_group (m : MethodDescriptorProto) (st : list topicGroup * gmap string nat) : M (list topicGroup * gmap string nat) :=
  let '(gs, found) := st in
  match group_of m with
  | None => Ok (gs, found)
  | Some group =>
      t ← topicsForMethod m;
      match found !! group with
      | Some i =>
          g ← or_panic (gs !! i);
          if negb (bool_decide (g_topics g = t)) then Err (GroupMismatch group (m_Name m))
          else Ok (<[i := MkGroup (g_methNames g ++ [methodNameCamelCased m]) (g_typeName g) (g_topics g)]> gs, found)
      | None => Ok (gs ++ [MkGroup [methodNameCamelCased m] (CamelCase group) t], <[group := length gs]> found)
      end
  end.

Fixpoint add_to_groups (methods : list MethodDescriptorProto) (st : list topicGroup * gmap string nat) : M (list topicGroup * gmap string nat) :=
  match methods with
  | [] => Ok st
  | m :: methods => st ← add_to_group m st; add_to_groups methods st
  end.

Definition topicGroupsForService (service : ServiceDescriptorProto) : M (list topicGroup) :=
  fst <$> add_to_groups (s_Method service) ([], ∅).

(** ** Imports *)

(** The body of the loop of [generateImports] over the definitions; a definition that is
    not found is dereferenced. *)
Definition add_import (t : psrpc) (ourImportPath : string) (def : option MessageDefinition) (deps : gmap string string)
  : M (gmap string string) :=
  def ← or_panic def;
  f ← or_panic (t_files t !! md_File def);
  let '(importPath, _) := parseGoPackageOption (f_GoPackage f) in
  if bool_decide (importPath = "") &&
     bool_decide (string_of (path_Dir (bytes_of (goFileName (t_sourceRelativePaths t) (t_modulePrefix t) f))) = ourImportPath)
  then Ok deps
  else
    let importPath := default importPath (t_importMap t !! f_Name f) in
    let importPath := t_importPrefix t +:+ importPath in
    let pkg := filePackage t (md_File def) in
    if negb (bool_decide (pkg = t_genPkgName t)) then Ok (<[pkg := importPath]> deps) else Ok deps.

Fixpoint add_imports (t : psrpc) (ourImportPath : string) (defs : list (option MessageDefinition)) (deps : gmap string string)
  : M (gmap string string) :=
  match defs with
  | [] => Ok deps
  | def :: defs => deps ← add_import t ourImportPath def deps; add_imports t ourImportPath defs deps
  end.

(** The definitions of the inputs and outputs of a file's methods. *)
Definition method_defs (t : psrpc) (file : FileDescriptorProto) : list (option MessageDefinition) :=
  s ← f_Service file; m ← s_Method s; [MethodInputDefinition (t_reg t) m; MethodOutputDefinition (t_reg t) m].

(** The packages that a file's services need, each with the path it is imported from. *)
Definition import_deps (t : psrpc) (file : FileDescriptorProto) : M (gmap string string) :=
  let ourImportPath := string_of (path_Dir (bytes_of (goFileName (t_sourceRelativePaths t) (t_modulePrefix t) file))) in
  add_imports t ourImportPath (method_defs t file) ∅.

(** [sort.Strings] of the map's keys. *)
Definition string_le (a b : string) : Prop := String.leb a b = true.
#[export] Instance string_le_dec a b : Decision (string_le a b).
Proof. unfold string_le. apply _. Defined.

Definition sorted_packages (deps : gmap string string) : list string := merge_sort string_le (map_to_list deps).*1.
