(* ===== verification/GeneratorNames.v ===== *)
(** * GeneratorNames.v: the names that the generator gives to packages and types

    The theorems of [Generator]: aliases are fresh, each file has one, types are found
    under their names and what they are qualified with is imported. *)
From S2P Require Import Prelude Errors Bus Info Naming CommandLine TypeMap Generator.
From stdpp Require Import pretty sorting.

#[local] Open Scope nat_scope.

(** ** Fresh aliases *)

(** What is tried, in order. *)
Definition candidate (name : string) (i : nat) : string := match i with O => name | S _ => name +:+ Itoa i end.

Lemma pretty_N_go_nonempty x s : s ≠ "" → pretty_N_go x s ≠ "".
Proof.
  revert s. induction (N.lt_wf_0 x) as [x _ IH]; intros s Hs. destruct (decide (0 < x)%N) as [Hx|Hx].
  - rewrite pretty_N_go_step by done. apply IH; [by apply N.div_lt|done].
  - by replace x with 0%N by lia.
Qed.

Lemma Itoa_nonempty i : Itoa i ≠ "".
Proof.
  unfold Itoa, pretty, pretty_N. case_decide; [done|]. rewrite pretty_N_go_step by lia. by apply pretty_N_go_nonempty.
Qed.

Lemma candidate_inj name : Inj (=) (=) (candidate name).
Proof.
  assert (Hne : ∀ i, name +:+ Itoa i ≠ name).
  { intros i He%(f_equal (length ∘ bytes_of)). simpl in He. rewrite bytes_of_app, length_app in He.
    assert (Hp : bytes_of (Itoa i) = []) by (destruct (bytes_of (Itoa i)); [done|simpl in *; lia]).
    by apply (bytes_of_inj _ ""%string), Itoa_nonempty in Hp. }
  intros [|i] [|j]; simpl; [done|by intros He; destruct (Hne (S j))|by intros He; destruct (Hne (S i))|].
  intros He%(f_equal bytes_of). rewrite !bytes_of_app in He. apply (inj (app _)), (inj bytes_of), (inj pretty) in He. lia.
Qed.

Lemma fresh_alias_spec fuel i name inUse :
  match fresh_alias fuel (S i) name (candidate name i) inUse with
  | Some alias => (alias ∉ inUse) ∧ ∃ k, alias = candidate name k ∧ ∀ j, i ≤ j < k → candidate name j ∈ inUse
  | None => ∀ j, i ≤ j < i + fuel → candidate name j ∈ inUse
  end.
Proof.
  revert i. induction fuel as [|fuel IH]; intros i; simpl; [lia|]. case_bool_decide as Hin.
  - change (name +:+ Itoa (S i)) with (candidate name (S i)). specialize (IH (S i)).
    destruct (fresh_alias fuel (S (S i)) name (candidate name (S i)) inUse) as [alias|].
    + destruct IH as (Hn & k & -> & Hk). split; [done|]. exists k. split; [done|]. intros j Hj.
      destruct (decide (j = i)) as [->|Hne]; [done|]. apply Hk. lia.
    + intros j Hj. destruct (decide (j = i)) as [->|Hne]; [done|]. apply IH. lia.
  - split; [done|]. exists i. split; [done|lia].
Qed.

Lemma fresh_alias_total name (inUse : gset string) : is_Some (fresh_alias (S (size inUse)) 1 name name inUse).
Proof.
  pose proof (fresh_alias_spec (S (size inUse)) 0 name inUse) as Hs. simpl candidate in Hs.
  destruct (fresh_alias _ _ _ _ _) as [alias|]; [done|]. exfalso.
  assert (Hnd : NoDup (candidate name <$> seq 0 (S (size inUse)))) by (apply NoDup_fmap; [apply candidate_inj|apply NoDup_seq]).
  assert (Hsub : list_to_set (candidate name <$> seq 0 (S (size inUse))) ⊆ inUse).
  { intros x (j & -> & [_ Hj]%elem_of_seq)%elem_of_list_to_set%list_elem_of_fmap. apply Hs. lia. }
  apply subseteq_size in Hsub. rewrite size_list_to_set, length_fmap, length_seq in Hsub by done. lia.
Qed.

(** [registerPackageName]'s loop ends, with a name that no other package has: the name
    itself, or with the least number that makes it new.  It is registered, and no other
    name changes its alias. *)
Theorem package_alias_fresh (name : string) (t : psrpc) :
  let '(alias, t') := registerPackageName name t in
  fresh_alias (S (size (t_pkgNamesInUse t))) 1 name name (t_pkgNamesInUse t) = Some alias ∧
  (alias ∉ t_pkgNamesInUse t) ∧
  (∃ k, alias = candidate name k ∧ ∀ j, j < k → candidate name j ∈ t_pkgNamesInUse t) ∧
  t_pkgNamesInUse t' = {[ alias ]} ∪ t_pkgNamesInUse t ∧
  t_pkgs t' !! name = Some alias ∧ (∀ other, other ≠ name → t_pkgs t' !! other = t_pkgs t !! other).
Proof.
  unfold registerPackageName. destruct (fresh_alias_total name (t_pkgNamesInUse t)) as [alias Ha]. rewrite Ha. simpl.
  pose proof (fresh_alias_spec (S (size (t_pkgNamesInUse t))) 0 name (t_pkgNamesInUse t)) as Hs. simpl candidate in Hs. rewrite Ha in Hs.
  destruct Hs as (Hn & k & Hk & Hj). split_and!; [done|done| |done|by rewrite lookup_insert_eq|by intros; rewrite lookup_insert_ne].
  exists k. split; [done|]. intros j Hlt. apply Hj. lia.
Qed.

(** ** The packages of files *)

(** The file that is passed over. *)
Definition is_options (f : FileDescriptorProto) : Prop := f_Name f = "options.proto" ∧ f_Package f = Some "psrpc".

(** What the naming of files does not change. *)
Definition same_setup (t t' : psrpc) : Prop :=
  t_files t' = t_files t ∧ t_reg t' = t_reg t ∧ t_importPrefix t' = t_importPrefix t ∧ t_importMap t' = t_importMap t ∧
  t_sourceRelativePaths t' = t_sourceRelativePaths t ∧ t_modulePrefix t' = t_modulePrefix t ∧ t_genFiles t' = t_genFiles t ∧
  t_genPkgName t' = t_genPkgName t.

Lemma same_setup_trans t1 t2 t3 : same_setup t1 t2 → same_setup t2 t3 → same_setup t1 t3.
Proof. unfold same_setup. intros. destruct_and!. split_and!; congruence. Qed.

(** Aliases are registered, and no two files have the same one, nor one of the packages
    that generated code imports, but for the generated package's name. *)
Record names_ok (t : psrpc) : Prop := {
  names_own : ∀ p, p ∈ own_packages → p ∈ t_pkgNamesInUse t;
  names_used : ∀ j a, t_fileToGoPackageName t !! j = Some a → a ≠ t_genPkgName t → a ∈ t_pkgNamesInUse t ∧ a ∉ own_packages;
  names_distinct : ∀ j k a, t_fileToGoPackageName t !! j = Some a → t_fileToGoPackageName t !! k = Some a → a ≠ t_genPkgName t → j = k
}.

Lemma names_ok_shared t i : names_ok t → names_ok (set_fileName t i (t_genPkgName t)).
Proof.
  intros [Ho Hu Hd]. constructor; simpl; [done|..].
  - intros j a. destruct (decide (i = j)) as [->|]; [rewrite lookup_insert_eq; congruence|rewrite lookup_insert_ne by congruence; eauto].
  - intros j k a. destruct (decide (i = j)) as [->|]; [rewrite lookup_insert_eq; congruence|].
    destruct (decide (i = k)) as [->|]; [rewrite lookup_insert_eq; congruence|]. rewrite !lookup_insert_ne by done. eauto.
Qed.

(** A file that is given an alias, where it had no name. *)
Lemma names_ok_alias t i name alias t' : names_ok t → t_fileToGoPackageName t !! i = None → registerPackageName name t = (alias, t') →
  names_ok (set_fileName t' i alias) ∧ same_setup t t' ∧ t_fileToGoPackageName t' = t_fileToGoPackageName t.
Proof.
  intros [Ho Hu Hd] Hi Hreg. pose proof (package_alias_fresh name t) as Hp. rewrite Hreg in Hp. destruct Hp as (_ & Hn & _ & Hin & _).
  assert (∃ pkgs inUse, t' = set_packages t pkgs inUse) as (pkgs & inUse & ->) by (unfold registerPackageName in Hreg; injection Hreg as _ <-; eauto).
  clear Hreg. simpl in Hin. subst inUse. split; [|done]. constructor; simpl.
  - intros p Hp. set_solver.
  - intros j a. destruct (decide (j = i)) as [->|].
    + rewrite lookup_insert_eq. intros [= <-] _. split; [set_solver|]. intros Hp. by apply Hn, Ho.
    + rewrite lookup_insert_ne by congruence. intros Ha Hne. destruct (Hu j a Ha Hne). split; [set_solver|done].
  - intros j k a. destruct (decide (j = i)) as [->|], (decide (k = i)) as [->|];
      rewrite ?lookup_insert_eq, ?lookup_insert_ne by congruence; [done| | |by eauto].
    + intros [= ->] Ha Hne. destruct (Hn (proj1 (Hu k a Ha Hne))).
    + intros Ha [= ->] Hne. destruct (Hn (proj1 (Hu j a Ha Hne))).
Qed.

#[local] Opaque registerPackageName.

Section unicode.
Context `{Unicode}.

Lemma name_file_ok path i f t t' : names_ok t → t_fileToGoPackageName t !! i = None → name_file path i f t = Ok t' →
  names_ok t' ∧ same_setup t t' ∧ (∀ j, j ≠ i → t_fileToGoPackageName t' !! j = t_fileToGoPackageName t !! j) ∧
  (¬ is_options f → is_Some (t_fileToGoPackageName t' !! i)) ∧
  (¬ is_options f → i ∈ t_genFiles t → t_fileToGoPackageName t' !! i = Some (t_genPkgName t)).
Proof.
  intros Hok Hi. unfold name_file, is_options.
  destruct (if bool_decide (f_Name f = "options.proto") then _ else _) as [b|e] eqn:Hopt; simpl; [|done].
  assert (Hb : b = true ↔ f_Name f = "options.proto" ∧ f_Package f = Some "psrpc").
  { destruct (decide (f_Name f = "options.proto")) as [Hn|Hn].
    - rewrite bool_decide_eq_true_2 in Hopt by done. destruct (f_Package f) as [p|]; simpl in Hopt; [|done].
      injection Hopt as <-. rewrite bool_decide_eq_true. naive_solver.
    - rewrite bool_decide_eq_false_2 in Hopt by done. injection Hopt as <-. naive_solver. }
  destruct b; [intros [= <-]; split_and!; try done; intros Hno; by destruct Hno; apply Hb|]. clear Hopt Hb.
  assert (Hother : ∀ (t1 : psrpc) a j, j ≠ i → t_fileToGoPackageName (set_fileName t1 i a) !! j = t_fileToGoPackageName t1 !! j)
    by (intros; simpl; by rewrite lookup_insert_ne).
  assert (Hself : ∀ (t1 : psrpc) a, t_fileToGoPackageName (set_fileName t1 i a) !! i = Some a) by (intros; simpl; by rewrite lookup_insert_eq).
  case_bool_decide as Hgen; [intros [= <-]; split_and!; try done; [by apply names_ok_shared|by apply Hother|by rewrite Hself]|].
  destruct (negb _ && _); [intros [= <-]; split_and!; try done; [by apply names_ok_shared|by apply Hother|by rewrite Hself]|].
  cbv zeta. match goal with |- context [registerPackageName ?n t] => destruct (registerPackageName n t) as [alias t1] eqn:Hreg end. intros [= <-].
  destruct (names_ok_alias _ _ _ _ _ Hok Hi Hreg) as (Hok' & Hsame & Hfiles). split_and!; [done|done| |by rewrite Hself|done].
  intros j Hj. by rewrite Hother, Hfiles.
Qed.

(** From file [i] on, where those before have their names. *)
Lemma name_files_ok path i files t t' : names_ok t → (∀ j, i ≤ j → t_fileToGoPackageName t !! j = None) → name_files path i files t = Ok t' →
  names_ok t' ∧ same_setup t t' ∧ (∀ j, j < i → t_fileToGoPackageName t' !! j = t_fileToGoPackageName t !! j) ∧
  (∀ j f, files !! j = Some f → ¬ is_options f → is_Some (t_fileToGoPackageName t' !! (i + j))) ∧
  (∀ j f, files !! j = Some f → ¬ is_options f → (i + j) ∈ t_genFiles t → t_fileToGoPackageName t' !! (i + j) = Some (t_genPkgName t)).
Proof.
  revert i t. induction files as [|f files IH]; intros i t Hok Hnone; simpl; [intros [= <-]; by split_and!|].
  destruct (name_file path i f t) as [t1|] eqn:Hnf; simpl; [|done]. intros Hrest.
  destruct (name_file_ok path i f t t1 Hok) as (Hok1 & Hs1 & Hother & Hsome & Hgen); [by apply Hnone|done|].
  assert (Hs1' := Hs1). destruct Hs1' as (_ & _ & _ & _ & _ & _ & Hgf & Hgp).
  destruct (IH (S i) t1 Hok1) as (Hok' & Hs' & Hbefore & Hall & Hgens); [|done|].
  { intros j Hj. rewrite Hother by lia. apply Hnone. lia. }
  split_and!; [done|by eapply same_setup_trans| | |].
  - intros j Hj. rewrite Hbefore, Hother by lia. done.
  - intros [|j] g; simpl; [intros [= <-] Hno; rewrite Nat.add_0_r, Hbefore by lia; by apply Hsome|].
    intros Hj Hno. replace (i + S j) with (S i + j) by lia. by eapply Hall.
  - intros [|j] g; simpl; [intros [= <-] Hno; rewrite Nat.add_0_r, Hbefore by lia; by apply Hgen|].
    intros Hj Hno. replace (i + S j) with (S i + j) by lia. rewrite <- Hgp, <- Hgf. by eapply Hgens.
Qed.

(** The packages that are registered first keep their names and leave no file with one. *)
Lemma register_all_ok names t : t_fileToGoPackageName t = ∅ → 
  t_fileToGoPackageName (register_all names t) = ∅ ∧ same_setup t (register_all names t).
Proof.
  unfold register_all. revert t. induction names as [|name names IH]; intros t Ht; simpl; [done|].
  destruct (IH (registerPackageName name t).2) as [Hf Hs]; [done|]. split; [done|]. by eapply same_setup_trans.
Qed.

Lemma register_own t : t_pkgNamesInUse t = ∅ → t_pkgs t = ∅ →
  t_pkgNamesInUse (register_all own_packages t) = list_to_set own_packages ∧
  ∀ p, p ∈ own_packages → t_pkgs (register_all own_packages t) !! p = Some p.
Proof.
  intros Hu Hp. destruct t as [? ? pkgs inUse ? ? ? ? ? ? ?]. simpl in Hu, Hp. subst pkgs inUse.
  assert (Hcalc : ∀ a b c d e f g h i, let t := MkPsrpc a b ∅ ∅ c d e f g h i in
    t_pkgNamesInUse (register_all own_packages t) = list_to_set (rev own_packages) ∧
    t_pkgs (register_all own_packages t) = foldl (λ m p, <[p := p]> m) ∅ own_packages) by (intros; split; vm_compute; reflexivity).
  destruct (Hcalc t_files t_reg t_importPrefix t_importMap t_sourceRelativePaths t_modulePrefix t_genPkgName t_fileToGoPackageName t_genFiles) as [-> ->].
  split; [vm_compute; reflexivity|]. intros p Hp. unfold own_packages in Hp. repeat (apply elem_of_cons in Hp as [->|Hp]; [vm_compute; reflexivity|]).
  by apply elem_of_nil in Hp.
Qed.
End unicode.

(** ** Imports *)

(** What [add_import] takes for a file's import path, and when it takes none. *)
Definition import_path (t : psrpc) (f : FileDescriptorProto) : string :=
  t_importPrefix t +:+ default (parseGoPackageOption (f_GoPackage f)).1 (t_importMap t !! f_Name f).

Definition file_dir (t : psrpc) (f : FileDescriptorProto) : string :=
  string_of (path_Dir (bytes_of (goFileName (t_sourceRelativePaths t) (t_modulePrefix t) f))).

(** A file without an import path in the directory of the file [file]. *)
Definition local_file (t : psrpc) (file f : FileDescriptorProto) : Prop :=
  (parseGoPackageOption (f_GoPackage f)).1 = "" ∧ file_dir t f = file_dir t file.

Section imports.
Context (t : psrpc) (file : FileDescriptorProto).

(** A package and its path come from a definition, whose file is not a local one. *)
Definition imported_for (defs : list (option MessageDefinition)) (pkg path : string) : Prop := ∃ def f,
  Some def ∈ defs ∧ t_files t !! md_File def = Some f ∧ ¬ local_file t file f ∧ pkg = filePackage t (md_File def) ∧ path = import_path t f.

Lemma add_import_spec def deps deps' : add_import t (file_dir t file) def deps = Ok deps' →
  ∃ d f, def = Some d ∧ t_files t !! md_File d = Some f ∧
    (filePackage t (md_File d) = t_genPkgName t ∨ local_file t file f ∨ is_Some (deps' !! filePackage t (md_File d))) ∧
    (∀ pkg, is_Some (deps !! pkg) → is_Some (deps' !! pkg)) ∧
    ∀ pkg path, deps' !! pkg = Some path → deps !! pkg = Some path ∨ imported_for [def] pkg path.
Proof.
  unfold add_import. destruct def as [d|]; simpl; [|done]. destruct (t_files t !! md_File d) as [f|] eqn:Hf; simpl; [|done].
  unfold imported_for, import_path, local_file. destruct (parseGoPackageOption (f_GoPackage f)) as [imp pkgName] eqn:Hp.
  fold (file_dir t f). simpl. destruct (bool_decide (imp = "") && bool_decide (file_dir t f = file_dir t file)) eqn:Hloc.
  { apply andb_prop in Hloc as [?%bool_decide_eq_true ?%bool_decide_eq_true]. intros [= <-]. exists d, f. rewrite Hp.
    split_and!; [done|done|by right; left|done|by left]. }
  destruct (decide (filePackage t (md_File d) = t_genPkgName t)) as [Hgen|Hgen].
  { rewrite bool_decide_eq_true_2 by done. intros [= <-]. exists d, f. split_and!; [done|done|by left|done|by left]. }
  rewrite bool_decide_eq_false_2 by done. intros [= <-]. exists d, f. split_and!; [done|done|..].
  - right; right. by rewrite lookup_insert_eq.
  - intros pkg Hs. rewrite lookup_insert_is_Some'. by right.
  - intros pkg path [[<- <-]|[_ ?]]%lookup_insert_Some; [|by left]. right. exists d, f. rewrite Hp. split_and!; try done; [by left|].
    intros [? ?]. by rewrite !bool_decide_eq_true_2 in Hloc.
Qed.

Lemma add_imports_spec defs deps deps' : add_imports t (file_dir t file) defs deps = Ok deps' →
  (∀ def, def ∈ defs → ∃ d f, def = Some d ∧ t_files t !! md_File d = Some f ∧
    (filePackage t (md_File d) = t_genPkgName t ∨ local_file t file f ∨ is_Some (deps' !! filePackage t (md_File d)))) ∧
  (∀ pkg, is_Some (deps !! pkg) → is_Some (deps' !! pkg)) ∧
  ∀ pkg path, deps' !! pkg = Some path → deps !! pkg = Some path ∨ imported_for defs pkg path.
Proof.
  revert deps. induction defs as [|def defs IH]; intros deps; simpl.
  { intros [= <-]. split_and!; [by intros ? ?%elem_of_nil|done|by left]. }
  destruct (add_import t _ def deps) as [deps1|] eqn:Hadd; simpl; [|done].
  destruct (add_import_spec _ _ _ Hadd) as (d & f & -> & Hf & Hin & Hmono & Hsrc). intros (Hall & Hmono' & Hsrc')%IH.
  split_and!.
  - intros def [->|Hd]%elem_of_cons; [|by apply Hall]. exists d, f. split_and!; [done|done|]. naive_solver.
  - auto.
  - intros pkg path [Hl|(d' & f' & Hd' & Hrest)]%Hsrc'; [|right; exists d', f'; by split; [right|]].
    apply Hsrc in Hl as [?|(d' & f' & Hd' & Hrest)]; [by left|]. right. exists d', f'. split; [|done].
    apply list_elem_of_singleton in Hd' as ->. by left.
Qed.
End imports.

Section prepared.
Context `{Unicode, Growth}.

Lemma prepare_spec params req t : prepare params req = Ok t →
  t_files t = ProtoFile req ∧ FilesToGenerate req = Ok (t_genFiles t) ∧ New (length (ProtoFile req)) (ProtoFile req) = Some (t_reg t) ∧
  t_importMap t = importMap params ∧ t_importPrefix t = importPrefix params ∧ names_ok t ∧
  (∀ i f, ProtoFile req !! i = Some f → ¬ is_options f → is_Some (t_fileToGoPackageName t !! i)) ∧
  (∀ i f, ProtoFile req !! i = Some f → ¬ is_options f → i ∈ t_genFiles t → t_fileToGoPackageName t !! i = Some (t_genPkgName t)).
Proof.
  unfold prepare. destruct (FilesToGenerate req) as [genFiles|]; cbn [mbind result_bind]; [|done].
  destruct (New _ _) as [reg|]; cbn [mbind result_bind or_panic]; [|done].
  destruct (mapM _ genFiles) as [gen|]; cbn [mbind result_bind or_panic]; [|done].
  destruct (deduceGenPkgName gen) as [genPkgName|]; cbn [mbind result_bind or_panic]; [|done].
  destruct (head gen) as [first|]; cbn [mbind result_bind or_panic]; [|done].
  destruct (goPackageOption first) as [[path ?] ?].
  set (t0 := MkPsrpc _ _ _ _ _ _ _ _ _ _ _). destruct (register_all_ok own_packages t0 eq_refl) as [Hnone Hsame].
  destruct (register_own t0 eq_refl eq_refl) as [Hown _]. intros Hnames.
  set (t1 := register_all own_packages t0) in *.
  destruct (name_files_ok path 0 (ProtoFile req) (set_genPkgName t1 genPkgName) t) as (Hok & Hs & _ & Hall & Hgen); [| |exact Hnames|].
  - constructor; simpl; rewrite ?Hown, ?Hnone; [|by intros ? ? ?..]. intros p. by apply elem_of_list_to_set.
  - intros j _. simpl. by rewrite Hnone.
  - destruct Hsame as (Hf & Hr & Hip & Him & _ & _ & Hg & _), Hs as (Hf' & Hr' & Hip' & Him' & _ & _ & Hg' & Hgp).
    assert (Hinit : t_files t0 = ProtoFile req ∧ t_reg t0 = reg ∧ t_importPrefix t0 = importPrefix params ∧ t_importMap t0 = importMap params ∧ t_genFiles t0 = genFiles) by done.
    destruct Hinit as (? & ? & ? & ? & ?). simpl in Hf', Hr', Hip', Him', Hg', Hgp, Hgen.
    split_and!; [congruence|congruence|congruence|congruence|congruence|done|exact Hall|]. intros i f Hi Hno Hin. rewrite Hgp.
    apply (Hgen i f Hi Hno). congruence.
Qed.

(** Every file of the request, but for psrpc's options, has a Go package: the files to
    generate have the generated one, and a file has another package only if no other file
    has it, and it is none of those that the generated code imports. *)
Theorem package_names_exact (params : commandLineParams) (req : CodeGeneratorRequest) (t : psrpc) :
  prepare params req = Ok t → ∀ i f, ProtoFile req !! i = Some f → ¬ is_options f →
  ∃ a, t_fileToGoPackageName t !! i = Some a ∧ (i ∈ t_genFiles t → a = t_genPkgName t) ∧
    (a ≠ t_genPkgName t → (a ∉ own_packages) ∧ ∀ j, t_fileToGoPackageName t !! j = Some a → j = i).
Proof.
  intros Hp i f Hi Hno. destruct (prepare_spec _ _ _ Hp) as (_ & _ & _ & _ & _ & Hok & Hall & Hgen).
  destruct (Hall i f Hi Hno) as [a Ha]. exists a. split_and!; [done| |].
  - intros Hin. specialize (Hgen i f Hi Hno Hin). congruence.
  - intros Hne. split; [by apply (names_used _ Hok i a)|]. intros j Hj. by apply (names_distinct _ Hok j i a).
Qed.

(** The name of a type in its Go package. *)
Definition go_name (def : MessageDefinition) : string :=
  string_of ((Lineage def ≫= λ parent, bytes_of (CamelCase (d_Name (md_Descriptor parent))) ++ ["_"%char])
    ++ bytes_of (CamelCase (d_Name (md_Descriptor def)))).

(** C30: how the generated file names the type of every input and output of its services'
    methods, and what it imports for it.  The type is not qualified when its file is of the
    generated package, and is otherwise qualified by its file's package.  That package is
    imported, from where the parameters and the file's [go_package] say, except when the
    file is a local one, with no import path and in the directory of the generated file:
    then nothing imports it, and the qualified name has no meaning
    ([second_local_dependency]).  A file may have the empty package, as psrpc's own options
    do: that one is among the imports too, but its path may be that of another such file. *)
Theorem type_packages_imported (params : commandLineParams) (req : CodeGeneratorRequest) (t : psrpc)
    (file : FileDescriptorProto) (deps : gmap string string) :
  prepare params req = Ok t → import_deps t file = Ok deps →
  ∀ s m n, s ∈ f_Service file → m ∈ s_Method s → n = m_InputType m ∨ n = m_OutputType m →
  ∃ def f, MessageDefinition_of (t_reg t) n = Some def ∧ ProtoFile req !! md_File def = Some f ∧
    let pkg := filePackage t (md_File def) in
    (pkg = t_genPkgName t → goTypeName t n = Ok (go_name def)) ∧
    (pkg ≠ t_genPkgName t → goTypeName t n = Ok (pkg +:+ "." +:+ go_name def) ∧
       (¬ local_file t file f → is_Some (deps !! pkg)) ∧
       (pkg ≠ "" → (local_file t file f → deps !! pkg = None) ∧
          (¬ local_file t file f →
             deps !! pkg = Some (importPrefix params +:+ default (parseGoPackageOption (f_GoPackage f)).1 (importMap params !! f_Name f))))).
Proof.
  intros Hp Hd s m n Hs Hm Hn. destruct (prepare_spec _ _ _ Hp) as (Hfiles & _ & _ & Him & Hip & Hok & _ & _).
  assert (Hin : MessageDefinition_of (t_reg t) n ∈ method_defs t file).
  { unfold method_defs. apply list_elem_of_bind. exists s. split; [|done]. apply list_elem_of_bind. exists m. split; [|done].
    destruct Hn as [->| ->]; [by left|by right; left]. }
  unfold import_deps in Hd. fold (file_dir t file) in Hd. destruct (add_imports_spec _ _ _ _ _ Hd) as (Hall & _ & Hsrc).
  destruct (Hall _ Hin) as (def & f & Hdef & Hf & Hcases). exists def, f. rewrite <- Hfiles. split_and!; [done|done|]. intros pkg.
  unfold goTypeName. rewrite Hdef. fold pkg. fold pkg in Hcases. split; [intros Hgen; by rewrite bool_decide_eq_true_2|intros Hgen].
  rewrite bool_decide_eq_false_2 by done. split_and!.
  - f_equal. apply bytes_of_inj. unfold go_name. rewrite !bytes_of_app, !bytes_of_string_of. by rewrite <- (assoc_L (++)).
  - naive_solver.
  - intros Hne. assert (Hsame : ∀ d' f', t_files t !! md_File d' = Some f' → pkg = filePackage t (md_File d') → f' = f).
    { intros d' f' Hf' Hpkg. assert (Hlook : ∀ j, pkg = filePackage t j → t_fileToGoPackageName t !! j = Some pkg).
      { intros j Hj. clearbody pkg. unfold filePackage in Hj. destruct (t_fileToGoPackageName t !! j); simpl in Hj; congruence. }
      assert (md_File d' = md_File def) as He by (eapply (names_distinct _ Hok); [by apply Hlook|by apply Hlook|done]). congruence. }
    split.
    + intros Hlocal. destruct (deps !! pkg) as [path|] eqn:Hpath; [exfalso|done].
      destruct (Hsrc _ _ Hpath) as [Hl|(d' & f' & _ & Hf' & Hloc' & Hpkg & ->)]; [by apply lookup_empty_Some in Hl|]. by rewrite (Hsame d' f') in Hloc'.
    + intros Hlocal. destruct Hcases as [?|[?|[path Hpath]]]; [done|done|]. rewrite Hpath.
      destruct (Hsrc _ _ Hpath) as [Hl|(d' & f' & _ & Hf' & _ & Hpkg & ->)]; [by apply lookup_empty_Some in Hl|].
      rewrite (Hsame d' f') by done. unfold import_path. by rewrite Him, Hip.
Qed.
End prepared.

(** ** Examples *)

(** The letters and digits of ASCII. *)
Definition ascii_unicode : Unicode.
Proof.
  refine {| IsLetter := λ r, Info.between 97%Z 122%Z r || Info.between 65%Z 90%Z r; IsDigit := Info.between 48%Z 57%Z |}.
  - intros c Hc _. exact Hc.
  - intros c Hc. exact Hc.
  - intros c _. reflexivity.
Defined.

#[local] Existing Instance ascii_unicode.
#[local] Existing Instance doubling.

Definition example_service (input output : string) : ServiceDescriptorProto := MkService "Svc" [MkMethod "Do" input output None].

(** A file with messages and services. *)
Definition proto (name : string) (pkg : option string) (goPackage : string) (messages : list string) (services : list ServiceDescriptorProto) :=
  MkFile name pkg goPackage [] [] ((λ n, MkDescriptor n []) <$> messages) services None.

Definition example_request : CodeGeneratorRequest :=
  MkRequest ["svc.proto"] "" [proto "dep.proto" (Some "dep") "example.com/dep" ["M"] [];
                              proto "svc.proto" (Some "svc") "example.com/svc" ["R"] [example_service ".dep.M" ".svc.R"]].

(** What is prepared for a request, and a function of it. *)
Definition prepared {A} (req : CodeGeneratorRequest) (g : psrpc → result failure A) : result failure A := prepare noParams req ≫= g.

Definition svc_deps (t : psrpc) : result failure (gmap string string) := default (Err Panicked) (import_deps t <$> last (t_files t)).

Lemma package_alias_fresh_example :
  (registerPackageName "dep" (MkPsrpc [] (MkRegistry [] ∅ ∅) ∅ {[ "dep"; "dep1" ]} "" ∅ false "" "" ∅ [])).1 = "dep2".
Proof. vm_compute. reflexivity. Qed.

Lemma package_names_exact_witness : ∃ t, prepare noParams example_request = Ok t ∧ ∃ a, t_fileToGoPackageName t !! 0 = Some a ∧
  (a ≠ t_genPkgName t → (a ∉ own_packages) ∧ ∀ j, t_fileToGoPackageName t !! j = Some a → j = 0).
Proof.
  assert (Hok : is_ok (prepare noParams example_request) = true) by (vm_compute; reflexivity).
  destruct (prepare noParams example_request) as [t|] eqn:Hp; [|discriminate Hok]. exists t. split; [done|].
  destruct (package_names_exact noParams example_request t Hp 0 _ eq_refl) as (a & Ha & _ & Hd); [by intros [? ?]|]. by exists a.
Defined.

Lemma type_packages_imported_witness : ∃ t deps, prepare noParams example_request = Ok t ∧ svc_deps t = Ok deps ∧
  ∃ def f, MessageDefinition_of (t_reg t) ".dep.M" = Some def ∧ ProtoFile example_request !! md_File def = Some f ∧
    (filePackage t (md_File def) = t_genPkgName t → goTypeName t ".dep.M" = Ok (go_name def)).
Proof.
  assert (Hd : prepared example_request svc_deps = Ok {[ "dep" := "example.com/dep" ]}) by (vm_compute; reflexivity).
  unfold prepared in *. destruct (prepare noParams example_request) as [t|] eqn:Hp; simpl in Hd; [|discriminate Hd].
  exists t, {[ "dep" := "example.com/dep" ]}. split_and!; [done|done|]. destruct (prepare_spec _ _ _ Hp) as (Hfiles & _).
  unfold svc_deps in Hd. rewrite Hfiles in Hd. simpl in Hd.
  destruct (type_packages_imported noParams example_request t _ _ Hp Hd (example_service ".dep.M" ".svc.R") (MkMethod "Do" ".dep.M" ".svc.R" None) ".dep.M")
    as (def & f & Hdef & Hfile & Hgen & _); [by left|by left|by left|]. by exists def, f.
Defined.

(** ** Where the names go wrong *)

(** A dependency whose protobuf package has the generated package's name is taken for it,
    though its Go package is another: its types are not qualified, and not imported. *)
Theorem dependency_taken_for_own :
  let req := MkRequest ["svc.proto"] "" [proto "dep.proto" (Some "svc") "example.com/other" ["M"] [];
               proto "svc.proto" (Some "api") "example.com/svc" ["R"] [example_service ".svc.M" ".api.R"]] in
  prepared req (λ t, goTypeName t ".svc.M") = Ok "M" ∧ prepared req svc_deps = Ok ∅.
Proof. by split; vm_compute. Qed.

(** A dependency whose protobuf package has the name of one that generated code imports
    takes its place: the code will say [client1.NewRPCClient]. *)
Theorem own_package_reassigned :
  let req := MkRequest ["svc.proto"] "" [proto "dep.proto" (Some "client") "example.com/client" ["M"] [];
               proto "svc.proto" (Some "svc") "example.com/svc" ["R"] [example_service ".svc.R" ".svc.R"]] in
  prepared req (λ t, Ok (t_pkgs t !! "client")) = Ok (Some "client1").
Proof. by vm_compute. Qed.

(** A dependency without a [go_package] is imported from nowhere: the directory that is
    computed for it is assigned to a variable that shadows the one that is used. *)
Theorem dependency_imported_from_nowhere :
  let req := MkRequest ["svc.proto"] "" [proto "dir/dep.proto" (Some "dep") "" ["M"] [];
               proto "svc.proto" (Some "svc") "" ["R"] [example_service ".dep.M" ".svc.R"]] in
  prepared req svc_deps = Ok {[ "dep" := "" ]}.
Proof. by vm_compute. Qed.

(** Of the files of the generated package that are not generated and have no [go_package],
    the first gets the package's name, and another an alias that nothing imports. *)
Theorem second_local_dependency :
  let req := MkRequest ["svc.proto"] "" [proto "a.proto" (Some "svc") "" ["A"] []; proto "b.proto" (Some "svc") "" ["B"] [];
               proto "svc.proto" (Some "svc") "" [] [example_service ".svc.A" ".svc.B"]] in
  prepared req (λ t, goTypeName t ".svc.A") = Ok "A" ∧ prepared req (λ t, goTypeName t ".svc.B") = Ok "svc1.B" ∧ prepared req svc_deps = Ok ∅.
Proof. by repeat split; vm_compute. Qed.

(** A file named as psrpc's options without a package ends the generator with a panic. *)
Theorem options_file_without_package :
  prepare noParams (MkRequest ["svc.proto"] "" [proto "options.proto" None "" [] []; proto "svc.proto" (Some "svc") "" [] []]) = Err Panicked.
Proof. by vm_compute. Qed.
