(* ===== verification/GeneratorTopics.v ===== *)
(** * GeneratorTopics.v: the topics of services

    The theorems of [Generator] about topics: the type parameters of what is generated for
    a service, and the groups that its methods are registered in. *)
From S2P Require Import Prelude Errors Bus Info Naming CommandLine TypeMap Generator.

#[local] Open Scope nat_scope.

(** ** Type parameters *)

Lemma new_typed_spec topics found : let '(ts, found') := new_typed topics found in
  NoDup (TypeNames ts) ∧ (∀ n, n ∈ TypeNames ts → n ∉ found) ∧ found' = found ∪ list_to_set (TypeNames ts) ∧
  (∀ t, t ∈ ts → t ∈ topics ∧ typed t = true) ∧ (∀ t, t ∈ topics → typed t = true → typeName t ∈ found').
Proof.
  revert found. induction topics as [|t topics IH]; intros found; simpl.
  { split_and!; [constructor|by intros ? ?%elem_of_nil|simpl; set_solver|by intros ? ?%elem_of_nil|by intros ? ?%elem_of_nil]. }
  destruct (typed t && negb (bool_decide (typeName t ∈ found))) eqn:Hnew.
  - apply andb_prop in Hnew as [Ht Hn%negb_true_iff%bool_decide_eq_false]. specialize (IH ({[ typeName t ]} ∪ found)).
    destruct (new_typed topics _) as [ts found']. destruct IH as (Hnd & Hdis & -> & Hin & Hall). split_and!; simpl.
    + constructor; [|done]. intros Hi. apply (Hdis _ Hi). set_solver.
    + intros n [->|Hi]%elem_of_cons; [done|]. specialize (Hdis _ Hi). set_solver.
    + set_solver.
    + intros t' [->|Hi]%elem_of_cons; [split; [by left|done]|]. destruct (Hin _ Hi). split; [by right|done].
    + intros t' [->|Hi]%elem_of_cons Htt; [set_solver|]. specialize (Hall _ Hi Htt). set_solver.
  - specialize (IH found). destruct (new_typed topics found) as [ts found']. destruct IH as (Hnd & Hdis & -> & Hin & Hall).
    split_and!; [done|done|done| |].
    + intros t' Hi. destruct (Hin _ Hi). split; [by right|done].
    + intros t' [->|Hi]%elem_of_cons Htt; [|by apply Hall]. rewrite Htt in Hnew. simpl in Hnew.
      apply negb_false_iff, bool_decide_eq_true in Hnew. set_solver.
Qed.

Lemma typed_topics_spec methods found ts : typed_topics methods found = Ok ts →
  NoDup (TypeNames ts) ∧ (∀ n, n ∈ TypeNames ts → n ∉ found) ∧
  (∀ t, t ∈ ts → typed t = true ∧ ∃ m topics, m ∈ methods ∧ topicsForMethod m = Ok topics ∧ t ∈ topics) ∧
  (∀ m, m ∈ methods → ∃ topics, topicsForMethod m = Ok topics ∧ ∀ t, t ∈ topics → typed t = true → typeName t ∈ found ∨ typeName t ∈ TypeNames ts).
Proof.
  revert found ts. induction methods as [|m methods IH]; intros found ts; simpl.
  { intros [= <-]. split_and!; [constructor|by intros ? ?%elem_of_nil..]. }
  destruct (topicsForMethod m) as [topics|] eqn:Hm; simpl; [|done]. pose proof (new_typed_spec topics found) as Hnew.
  destruct (new_typed topics found) as [ts1 found']. destruct Hnew as (Hnd1 & Hdis1 & -> & Hin1 & Hall1).
  destruct (typed_topics methods _) as [rest|] eqn:Hrest; simpl; [|done]. intros [= <-]. apply IH in Hrest as (Hnd & Hdis & Hin & Hall).
  unfold TypeNames in *. rewrite fmap_app. split_and!.
  - apply NoDup_app. split_and!; [done| |done]. intros n Hn Hr. apply (Hdis _ Hr). set_solver.
  - intros n [Hn|Hn]%elem_of_app; [by apply Hdis1|]. specialize (Hdis _ Hn). set_solver.
  - intros t [Ht|Ht]%elem_of_app.
    + destruct (Hin1 _ Ht). split; [done|]. exists m, topics. split_and!; [by left|done|done].
    + destruct (Hin _ Ht) as (? & m' & tp & ? & ? & ?). split; [done|]. exists m', tp. split_and!; [by right|done|done].
  - intros m' [->|Hm']%elem_of_cons.
    + exists topics. split; [done|]. intros t Ht Htt. specialize (Hall1 _ Ht Htt). rewrite elem_of_app. set_solver.
    + destruct (Hall _ Hm') as (tp & Htp & Hty). exists tp. split; [done|]. intros t Ht Htt. rewrite elem_of_app.
      destruct (Hty _ Ht Htt) as [?|?]; [|by right; right]. set_solver.
Qed.

(** A service's type parameters are the types of its methods' typed topics, each once:
    the parameters are of different names, each is the type of a topic of some method, and
    the type of every typed topic of every method is one. *)
Theorem type_parameters_exact (service : ServiceDescriptorProto) (ts : list topic) :
  typedTopicsForService service = Ok ts →
  NoDup (TypeNames ts) ∧
  (∀ t, t ∈ ts → typed t = true ∧ ∃ m topics, m ∈ s_Method service ∧ topicsForMethod m = Ok topics ∧ t ∈ topics) ∧
  (∀ m topics t, m ∈ s_Method service → topicsForMethod m = Ok topics → t ∈ topics → typed t = true → typeName t ∈ TypeNames ts).
Proof.
  intros (Hnd & _ & Hin & Hall)%typed_topics_spec. split_and!; [done|done|]. intros m topics t Hm Htp Ht Htt.
  destruct (Hall m Hm) as (tp & Htp' & Hty). rewrite Htp in Htp'. injection Htp' as <-. destruct (Hty t Ht Htt) as [?%elem_of_empty|?]; done.
Qed.

(** ** Groups *)

Definition in_group (group : string) (m : MethodDescriptorProto) : Prop := group_of m = Some group.
#[export] Instance in_group_dec group m : Decision (in_group group m).
Proof. unfold in_group. apply _. Defined.

(** The methods of a group, in the order of the service. *)
Definition members (group : string) (methods : list MethodDescriptorProto) : list MethodDescriptorProto := filter (in_group group) methods.

(** What is kept of the methods gone through: a group for each name, where [found] says,
    with the methods of that name, whose topics are all the group's. *)
Record groups_ok (methods : list MethodDescriptorProto) (gs : list topicGroup) (found : gmap string nat) : Prop := {
  groups_found : ∀ group i, found !! group = Some i → ∃ g, gs !! i = Some g ∧ g_typeName g = CamelCase group ∧
    g_methNames g = methodNameCamelCased <$> members group methods ∧ ∀ m, m ∈ members group methods → topicsForMethod m = Ok (g_topics g);
  groups_index : ∀ i, i < length gs → ∃ group, found !! group = Some i ∧ members group methods ≠ [];
  groups_inj : ∀ group group' i, found !! group = Some i → found !! group' = Some i → group = group';
  groups_none : ∀ group, found !! group = None → members group methods = []
}.

Lemma members_snoc group methods m :
  members group (methods ++ [m]) = members group methods ++ (if decide (in_group group m) then [m] else []).
Proof. unfold members. by rewrite filter_app. Qed.

Lemma add_to_group_ok methods m gs found gs' found' : groups_ok methods gs found → add_to_group m (gs, found) = Ok (gs', found') →
  groups_ok (methods ++ [m]) gs' found'.
Proof.
  intros [Hf Hi Hj Hn]. unfold add_to_group. destruct (group_of m) as [group|] eqn:Hg.
  2:{ intros [= <- <-]. assert (Hm : ∀ g, members g (methods ++ [m]) = members g methods).
      { intros g. rewrite members_snoc. rewrite decide_False by (unfold in_group; congruence). apply app_nil_r. }
      constructor; try setoid_rewrite Hm; done. }
  assert (Hother : ∀ g, g ≠ group → members g (methods ++ [m]) = members g methods).
  { intros g Hne. rewrite members_snoc. rewrite decide_False by (unfold in_group; congruence). apply app_nil_r. }
  assert (Hself : members group (methods ++ [m]) = members group methods ++ [m]) by (rewrite members_snoc; by rewrite decide_True by done).
  destruct (topicsForMethod m) as [t|] eqn:Ht; simpl; [|done]. destruct (found !! group) as [i|] eqn:Hfound.
  - destruct (Hf _ _ Hfound) as (g & Hgi & Hty & Hnames & Htop). rewrite Hgi. simpl.
    case_bool_decide as Heq; simpl; [|done]. intros [= <- <-]. apply lookup_lt_Some in Hgi as Hlt. constructor.
    + intros g' j Hg'. destruct (decide (g' = group)) as [->|Hne].
      * assert (j = i) as -> by congruence. eexists. split; [by rewrite list_lookup_insert_eq|]. simpl. rewrite Hself, fmap_app, Hnames. split_and!; [done|done|].
        intros m' [Hm'|Hm']%elem_of_app; [by apply Htop|]. apply list_elem_of_singleton in Hm' as ->. by rewrite Heq.
      * rewrite (list_lookup_insert_ne gs) by (intros ->; apply Hne; by eapply Hj). rewrite Hother by done. by apply Hf.
    + intros j. rewrite length_insert. intros Hj'. destruct (Hi j Hj') as (g' & Hg' & Hne). exists g'. split; [done|].
      destruct (decide (g' = group)) as [->|?]; [rewrite Hself; by destruct (members group methods)|by rewrite Hother].
    + exact Hj.
    + intros g' Hg'. rewrite Hother by congruence. by apply Hn.
  - intros [= <- <-]. specialize (Hn group Hfound) as Hempty. constructor.
    + intros g' j Hg'. destruct (decide (g' = group)) as [->|Hne].
      * rewrite lookup_insert_eq in Hg'. injection Hg' as <-. eexists. rewrite lookup_app_r, Nat.sub_diag by done. split; [done|]. simpl.
        rewrite Hself, Hempty. simpl. split_and!; [done|done|]. intros m' Hm'. by apply list_elem_of_singleton in Hm' as ->.
      * rewrite lookup_insert_ne in Hg' by done. destruct (Hf _ _ Hg') as (g & Hgi & ?). exists g. rewrite Hother by done.
        split; [|done]. rewrite lookup_app_l; [done|by eapply lookup_lt_Some].
    + intros j. rewrite length_app. simpl. intros Hlt. destruct (decide (j = length gs)) as [->|Hne].
      * exists group. rewrite lookup_insert_eq, Hself. split; [done|]. by destruct (members group methods).
      * destruct (Hi j) as (g' & Hg' & Hm); [lia|]. assert (g' ≠ group) by congruence. exists g'. by rewrite lookup_insert_ne, Hother by done.
    + assert (Hlt : ∀ g j, found !! g = Some j → j < length gs) by (intros g j (? & ?%lookup_lt_Some & _)%Hf; done).
      intros g1 g2 j. destruct (decide (g1 = group)) as [->|H1], (decide (g2 = group)) as [->|H2];
        rewrite ?lookup_insert_eq, ?lookup_insert_ne by done; [done| | |by apply Hj].
      * intros [= <-] ?%Hlt. lia.
      * intros ?%Hlt [= <-]. lia.
    + intros g'. destruct (decide (g' = group)) as [->|Hne]; [by rewrite lookup_insert_eq|]. rewrite lookup_insert_ne, Hother by done. apply Hn.
Qed.

Lemma add_to_groups_ok before methods gs found gs' found' : groups_ok before gs found → add_to_groups methods (gs, found) = Ok (gs', found') →
  groups_ok (before ++ methods) gs' found'.
Proof.
  revert before gs found. induction methods as [|m methods IH]; intros before gs found Hok; cbn [add_to_groups].
  { intros [= <- <-]. by rewrite app_nil_r. }
  destruct (add_to_group m (gs, found)) as [[gs1 found1]|] eqn:Hadd; simpl; [|done]. intros Hrest.
  replace (before ++ m :: methods) with ((before ++ [m]) ++ methods) by (by rewrite <- (assoc_L (++))).
  eapply IH; [by eapply add_to_group_ok|done].
Qed.

(** C31: the topic groups of a service divide the methods that have a group: there is one
    for each name, with the methods of that name and no other, in their order, and all of
    them take the group's topics. *)
Theorem topic_groups_exact (service : ServiceDescriptorProto) (gs : list topicGroup) :
  topicGroupsForService service = Ok gs →
  ∃ groups, NoDup groups ∧ (∀ m group, m ∈ s_Method service → group_of m = Some group → group ∈ groups) ∧
  Forall2 (λ group g, g_typeName g = CamelCase group ∧ members group (s_Method service) ≠ [] ∧
     g_methNames g = methodNameCamelCased <$> members group (s_Method service) ∧
     ∀ m, m ∈ members group (s_Method service) → topicsForMethod m = Ok (g_topics g)) groups gs.
Proof.
  unfold topicGroupsForService. destruct (add_to_groups _ _) as [[gs' found]|] eqn:Hadd; simpl; [|done]. intros [= <-].
  apply (add_to_groups_ok []) in Hadd as [Hf Hi Hj Hn]; [|constructor; simpl; [done|lia|done|done]]. simpl in *.
  assert (Hat : ∀ i, i < length gs' → ∃ group, found !! group = Some i ∧ members group (s_Method service) ≠ []) by done.
  assert (∃ groups, length groups = length gs' ∧ ∀ i group, groups !! i = Some group → found !! group = Some i ∧ members group (s_Method service) ≠ [])
    as (groups & Hlen & Hgroups).
  { clear -Hat. induction (length gs') as [|n IH]; [by exists []|]. destruct IH as (groups & Hlen & Hg); [intros; apply Hat; lia|].
    destruct (Hat n) as (group & Hfound & Hne); [lia|]. exists (groups ++ [group]). rewrite length_app. split; [simpl; lia|].
    intros i g [Hl|[Hge Hl]]%lookup_app_Some; [by apply Hg|]. apply list_lookup_singleton_Some in Hl as [Hz <-]. by replace i with n by lia. }
  exists groups. split_and!.
  - apply NoDup_alt. intros i j group Hgi Hgj. destruct (Hgroups _ _ Hgi), (Hgroups _ _ Hgj). congruence.
  - intros m group Hm Hg. assert (Hmem : m ∈ members group (s_Method service)) by (by apply list_elem_of_filter).
    destruct (found !! group) as [i|] eqn:Hfound; [|rewrite (Hn _ Hfound) in Hmem; by apply elem_of_nil in Hmem].
    destruct (Hf _ _ Hfound) as (g & Hgi%lookup_lt_Some & _). rewrite <- Hlen in Hgi. apply lookup_lt_is_Some in Hgi as [group' Hg'].
    destruct (Hgroups _ _ Hg') as [Hfound' _]. rewrite (Hj _ _ _ Hfound Hfound'). by eapply list_elem_of_lookup_2.
  - apply Forall2_same_length_lookup. split; [done|]. intros i group g Hgi Hg. destruct (Hgroups _ _ Hgi) as [Hfound Hne].
    destruct (Hf _ _ Hfound) as (g' & Hg' & Hty & Hnames & Htop). rewrite Hg in Hg'. injection Hg' as <-. done.
Qed.

(** ** Examples *)

Definition topic_params (names : list string) (group : string) : option Options :=
  Some (MkOptions false false true (Some (MkTopicParams names true group false)) QUEUE None).

Definition topic_service : ServiceDescriptorProto :=
  MkService "Svc" [MkMethod "Start" "" "" (topic_params ["room"; "user_id"] "sessions");
                   MkMethod "Other" "" "" (topic_params ["room"] "");
                   MkMethod "Stop" "" "" (topic_params ["room"; "user_id"] "sessions")].

Lemma type_parameters_exact_witness : ∃ ts, typedTopicsForService topic_service = Ok ts ∧ TypeNames ts = ["RoomTopicType"; "UserIdTopicType"] ∧ NoDup (TypeNames ts).
Proof.
  eexists. split; [vm_compute; reflexivity|]. split; [reflexivity|].
  refine (proj1 (type_parameters_exact topic_service _ _)). vm_compute. reflexivity.
Defined.

Lemma topic_groups_exact_witness : ∃ gs, topicGroupsForService topic_service = Ok gs ∧ g_methNames <$> gs = [["Start"; "Stop"]] ∧
  ∃ groups : list string, NoDup groups ∧ length groups = length gs.
Proof.
  assert (Hg : topicGroupsForService topic_service = Ok [MkGroup ["Start"; "Stop"] "Sessions"
    [MkTopic "room" "RoomTopicType" true; MkTopic "userId" "UserIdTopicType" true]]) by (vm_compute; reflexivity).
  eexists. split; [exact Hg|]. split; [reflexivity|].
  destruct (topic_groups_exact topic_service _ Hg) as (groups & Hnd & _ & Hall). exists groups. split; [done|]. by eapply Forall2_length.
Defined.

(** Two groups whose names give one Go name make methods of one name twice. *)
Theorem groups_of_one_name :
  let service := MkService "Svc" [MkMethod "A" "" "" (topic_params ["room"] "my_group"); MkMethod "B" "" "" (topic_params ["room"] "myGroup")] in
  ∃ a b, topicGroupsForService service = Ok [a; b] ∧ g_typeName a = "MyGroup" ∧ g_typeName b = "MyGroup".
Proof. eexists _, _. split; [vm_compute; reflexivity|done]. Qed.

(** A topic without a name ends the generator with a panic. *)
Theorem topic_without_name : topicsForMethod (MkMethod "A" "" "" (topic_params [""] "")) = Err Panicked.
Proof. by vm_compute. Qed.
