(* ===== verification/GenText.v ===== *)
(** * GenText.v: the text that the generator prints
    ([src/protoc-gen-psrpc/generator.go], from [generateFileHeader] on)

    The output is a list of lines, each the strings that [W] and [P] write, the newline
    that [P] adds left out.  A double quote is the string [q].  The parser and the printer
    of Go that reformat the text, the compressed descriptor of a file and package [semver]
    are parameters. *)
From S2P Require Import Prelude Errors Bus Info Naming CommandLine TypeMap Generator.

#[local] Open Scope nat_scope.

#[local] Abbreviation M := (result failure).
#[local] Abbreviation line := (list string).

Definition q : string := String "034" "".
Definition newline : string := String "010" "".

(** The bytes of the output. *)
Definition text (ls : list line) : bytes := ls ≫= λ l, (l ≫= bytes_of) ++ bytes_of newline.

(** [P] ends the line that the [W]s before it began. *)
Definition P (args : line) : list line := [args].

(** [t.pkgs], which is [""] for what is not registered. *)
Definition pkg (t : psrpc) (name : string) : string := default "" (t_pkgs t !! name).

(** [fmt.Sprint] of a bool. *)
Definition Sprint (b : bool) : string := if b then "true" else "false".

(** ** Comments *)

Definition TrimSuffix (l : bytes) (c : ascii) : bytes :=
  match last l with Some c' => if bool_decide (c' = c) then take (length l - 1) l else l | None => l end.

(** [unicode.IsSpace]. *)
Definition IsSpace (r : Z) : bool :=
  (Info.between 9 13 r || (r =? 32) || (r =? 0x85) || (r =? 0xA0) || (r =? 0x1680) || Info.between 0x2000 0x200a r || (r =? 0x2028)
   || (r =? 0x2029) || (r =? 0x202f) || (r =? 0x205f) || (r =? 0x3000))%Z.

Definition comment_line (l : bytes) : line := ["// "; string_of (TrimPrefix l [" "%char])].

(** What is left of [TrimSpace] is empty when everything is a space. *)
Definition printComments (c : DefinitionComments) : list line :=
  let text := TrimSuffix (bytes_of (Leading c)) "010" in
  if forallb IsSpace (runes (string_of text)) then [] else (λ l, comment_line l) <$> split "010" text.

Definition print_comments_of (c : result string DefinitionComments) : list line :=
  match c with Ok c => printComments c | Err _ => [] end.

Definition sectionComment (sectionTitle : string) : list line :=
  let rule := string_of (repeat "="%char (length (bytes_of sectionTitle))) in
  P [] ++ P ["// "; rule] ++ P ["// "; sectionTitle] ++ P ["// "; rule] ++ P [].

(** ** Interfaces *)

Inductive iface_kind : Type := IClient | IServerImpl | IServer.
#[export] Instance iface_kind_dec : EqDecision iface_kind.
Proof. solve_decision. Defined.

Definition iface_name (k : iface_kind) : string := match k with IClient => "Client" | IServerImpl => "ServerImpl" | IServer => "Server" end.

Section emit.
Context (t : psrpc).

Definition client_result (opts : Options) (inputType outputType : string) : line :=
  if o_Subscription opts then [") ("; pkg t "psrpc"; ".Subscription[*"; outputType; "], error)"]
  else if o_Stream opts then
    [", opts ..."; pkg t "psrpc"; ".RequestOption) ("; pkg t "psrpc"; ".ClientStream[*"; inputType; ", *"; outputType; "], error)"]
  else if bool_decide (o_Type opts = MULTI) then
    [", req *"; inputType; ", opts ..."; pkg t "psrpc"; ".RequestOption) (<-chan *"; pkg t "psrpc"; ".Response[*"; outputType; "], error)"]
  else [", req *"; inputType; ", opts ..."; pkg t "psrpc"; ".RequestOption) ("; "*"; outputType; ", error)"].

Definition generateClientSignature (method : MethodDescriptorProto) (opts : Options) : M (list line) :=
  let methName := methodNameCamelCased method in
  inputType ← goTypeName t (m_InputType method);
  outputType ← goTypeName t (m_OutputType method);
  topics ← (if o_Topics opts then (λ ts, [", "; FormatParams ts]) <$> topicsForMethod method else Ok []);
  Ok (P ([if o_Subscription opts then "  Subscribe" else "  "] ++ [methName; "(ctx "; pkg t "context"; ".Context"] ++ topics
         ++ client_result opts inputType outputType)
      ++ P []).

Definition generateServerImplSignature (method : MethodDescriptorProto) (opts : Options) : M (list line) :=
  let methName := methodNameCamelCased method in
  inputType ← goTypeName t (m_InputType method);
  outputType ← goTypeName t (m_OutputType method);
  let affinity := bool_decide (o_Type opts = AFFINITY) in
  Ok ((if o_Stream opts then
         P ["  "; methName; "("; pkg t "psrpc"; ".ServerStream[*"; outputType; ", *"; inputType; "]) error"]
         ++ (if affinity then P ["  "; methName; "Affinity(context.Context) float32"] else [])
       else
         P ["  "; methName; "("; pkg t "context"; ".Context, *"; inputType; ") ("; "*"; outputType; ", error)"]
         ++ (if affinity then P ["  "; methName; "Affinity(context.Context, *"; inputType; ") float32"] else []))
      ++ P []).

Definition generateServerSignature (method : MethodDescriptorProto) (opts : Options) : M (list line) :=
  let methName := methodNameCamelCased method in
  outputType ← goTypeName t (m_OutputType method);
  topics ← topicsForMethod method;
  Ok (if o_Subscription opts then
        P (["  Publish"; methName; "(ctx "; pkg t "context"; ".Context"] ++ (if o_Topics opts then [", "; FormatParams topics] else [])
           ++ [", msg *"; outputType; ") error"]) ++ P []
      else
        P ["  Register"; methName; "Topic("; FormatParams topics; ") error"]
        ++ P ["  Deregister"; methName; "Topic("; FormatParams topics; ")"]).

(** The body of [generateInterface]'s loop over the methods. *)
Definition interface_method (file : FileDescriptorProto) (svc j : nat) (iface : iface_kind) (method : MethodDescriptorProto) : M (list line) :=
  let opts := getOptions method in
  if (bool_decide (iface = IServerImpl) && o_Subscription opts)
     || (bool_decide (iface = IServer) && negb (o_Subscription opts) && negb (o_Topics opts))
  then Ok []
  else
    signature ← (match iface with
                 | IClient => generateClientSignature method opts
                 | IServerImpl => generateServerImplSignature method opts
                 | IServer => generateServerSignature method opts
                 end);
    Ok (print_comments_of (MethodComments file svc j) ++ signature).

(** A loop over the methods, with their indices, that prints. *)
Fixpoint for_methods (body : nat → MethodDescriptorProto → M (list line)) (j : nat) (methods : list MethodDescriptorProto) : M (list line) :=
  match methods with
  | [] => Ok []
  | m :: methods => ls ← body j m; rest ← for_methods body (S j) methods; Ok (ls ++ rest)
  end.

Definition group_signatures (group : topicGroup) : list line :=
  P ["  RegisterAll"; g_typeName group; "Topics("; FormatParams (g_topics group); ") error"]
  ++ P ["  DeregisterAll"; g_typeName group; "Topics("; FormatParams (g_topics group); ")"].

Definition generateInterface (file : FileDescriptorProto) (svc : nat) (service : ServiceDescriptorProto) (iface : iface_kind) : M (list line) :=
  let servName := serviceNameCamelCased service in
  topics ← (if bool_decide (iface = IServerImpl) then Ok [] else typedTopicsForService service);
  methods ← for_methods (λ j m, interface_method file svc j iface m) 0 (s_Method service);
  closing ← (match iface with
             | IServer =>
                 groups ← topicGroupsForService service;
                 Ok ((groups ≫= group_signatures) ++ P []
                     ++ P ["  // Close and wait for pending RPCs to complete"] ++ P ["  Shutdown()"] ++ P []
                     ++ P ["  // Close immediately, without waiting for pending RPCs"] ++ P ["  Kill()"])
             | IClient => Ok (P ["  // Close immediately, without waiting for pending RPCs"] ++ P ["  Close()"])
             | IServerImpl => Ok []
             end);
  Ok (print_comments_of (ServiceComments file svc)
      ++ P ["type "; servName; iface_name iface; FormatTypeParamConstraints topics; " interface {"]
      ++ methods ++ closing ++ P ["}"]).

(** ** The client *)

Definition register_method (method : MethodDescriptorProto) : line :=
  let opts := getOptions method in
  ["  sd.RegisterMethod("; q; methodNameCamelCased method; q; ", ";
   Sprint (bool_decide (o_Type opts = AFFINITY)); ", ";
   Sprint (bool_decide (o_Type opts = MULTI)); ", ";
   Sprint (getRequireClaim opts); ", ";
   Sprint (bool_decide (o_Type opts = QUEUE)); ")"].

(** The constructor of the last method decides. *)
Definition clientConstructor (methods : list MethodDescriptorProto) : string :=
  foldl (λ c m, if o_Stream (getOptions m) then "NewRPCClientWithStreams" else c) "NewRPCClient" methods.

Definition client_call (opts : Options) (methName inputType outputType : string) (topics : list topic) : line :=
  ["  return "; pkg t "client"] ++
  (if o_Subscription opts then
     [if bool_decide (o_Type opts = MULTI) then ".Join[*" else ".JoinQueue[*"] ++
     [outputType; "](ctx, c.client, "; q; methName; q; ", "; FormatCastToStringSlice topics; ")"]
   else if o_Stream opts then
     [".OpenStream[*"; inputType; ", *"; outputType; "](ctx, c.client, "; q; methName; q; ", "; FormatCastToStringSlice topics; ", opts...)"]
   else
     [if bool_decide (o_Type opts = MULTI) then ".RequestMulti[*" else ".RequestSingle[*"] ++
     [outputType; "](ctx, c.client, "; q; methName; q; ", "; FormatCastToStringSlice topics; ", req, opts...)"]).

(** The body of the second loop of [generateClient]. *)
Definition client_method (structName : string) (servTopics : list topic) (method : MethodDescriptorProto) : M (list line) :=
  let methName := methodNameCamelCased method in
  inputType ← goTypeName t (m_InputType method);
  outputType ← goTypeName t (m_OutputType method);
  let opts := getOptions method in
  topics ← topicsForMethod method;
  Ok (P (["func (c *"; structName; FormatTypeParams servTopics] ++ [if o_Subscription opts then ") Subscribe" else ") "]
         ++ [methName; "(ctx "; pkg t "context"; ".Context"] ++ (if o_Topics opts then [", "; FormatParams topics] else [])
         ++ client_result opts inputType outputType ++ [" {"])
      ++ P (client_call opts methName inputType outputType topics)
      ++ P ["}"] ++ P []).

Definition generateClient (service : ServiceDescriptorProto) : M (list line) :=
  let servName := serviceNameCamelCased service in
  servTopics ← typedTopicsForService service;
  structName ← (λ s, s +:+ "Client") <$> unexported servName;
  let newClientFunc := "New" +:+ servName +:+ "Client" in
  methods ← for_methods (λ _ m, client_method structName servTopics m) 0 (s_Method service);
  Ok (P ["type "; structName; FormatTypeParamConstraints servTopics; " struct {"]
      ++ P ["  client *"; pkg t "client"; ".RPCClient"]
      ++ P ["}"] ++ P []
      ++ P ["// "; newClientFunc; " creates a psrpc client that implements the "; servName; "Client interface."]
      ++ P ["func "; newClientFunc; FormatTypeParamConstraints servTopics; "(bus "; pkg t "psrpc"; ".MessageBus, opts ..."; pkg t "psrpc";
            ".ClientOption) ("; servName; "Client"; FormatTypeParams servTopics; ", error) {"]
      ++ P ["  sd := &"; pkg t "info"; ".ServiceDefinition{"]
      ++ P ["    Name: "; q; servName; q; ","]
      ++ P ["    ID:   "; pkg t "rand"; ".NewClientID(),"]
      ++ P ["  }"] ++ P []
      ++ (register_method <$> s_Method service)
      ++ P []
      ++ P ["  rpcClient, err := "; pkg t "client"; "."; clientConstructor (s_Method service); "(sd, bus, opts...)"]
      ++ P ["  if err != nil {"] ++ P ["    return nil, err"] ++ P ["  }"] ++ P []
      ++ P ["  return &"; structName; FormatTypeParams servTopics; "{"]
      ++ P ["    client: rpcClient,"] ++ P ["  }, nil"] ++ P ["}"] ++ P []
      ++ methods
      ++ P ["func (s *"; structName; FormatTypeParams servTopics; ") Close() {"]
      ++ P ["  s.client.Close()"] ++ P ["}"] ++ P []).

(** ** The server *)

Definition registerFuncName (opts : Options) : string := if o_Stream opts then "RegisterStreamHandler" else "RegisterHandler".

(** The body of the first loop of [generateServer]; [errVar] says that [err] is declared. *)
Definition server_registration (errVar : bool) (method : MethodDescriptorProto) : list line * bool :=
  let opts := getOptions method in
  let methName := methodNameCamelCased method in
  let registered := P (register_method method) in
  if o_Subscription opts || o_Topics opts then (registered, errVar)
  else
    (registered
     ++ (if errVar then [] else P ["  var err error"])
     ++ P (["  err = "; pkg t "server"; "."; registerFuncName opts; "(s, "; q; methName; q; ", nil, svc."; methName]
           ++ (if bool_decide (o_Type opts = AFFINITY) then [", svc."; methName; "Affinity"] else [", nil"]) ++ [")"])
     ++ P ["  if err != nil {"] ++ P ["    s.Close(false)"] ++ P ["    return nil, err"] ++ P ["  }"] ++ P [], true).

Fixpoint server_registrations (errVar : bool) (methods : list MethodDescriptorProto) : list line :=
  match methods with
  | [] => []
  | m :: methods => let '(ls, errVar) := server_registration errVar m in ls ++ server_registrations errVar methods
  end.

(** The body of the second. *)
Definition server_method (servStruct : string) (servTopics : list topic) (method : MethodDescriptorProto) : M (list line) :=
  let opts := getOptions method in
  if negb (o_Subscription opts) && negb (o_Topics opts) then Ok []
  else
    let methName := methodNameCamelCased method in
    outputType ← goTypeName t (m_OutputType method);
    topics ← topicsForMethod method;
    Ok (if o_Subscription opts then
          P (["func (s *"; servStruct; FormatTypeParams servTopics; ") Publish"; methName; "(ctx "; pkg t "context"; ".Context"]
             ++ (if o_Topics opts then [", "; FormatParams topics] else []) ++ [", msg *"; outputType; ") error {"])
          ++ P ["  return s.rpc.Publish(ctx, "; q; methName; q; ", "; FormatCastToStringSlice topics; ", msg)"]
          ++ P ["}"] ++ P []
        else
          P ["func (s *"; servStruct; FormatTypeParams servTopics; ") Register"; methName; "Topic("; FormatParams topics; ") error {"]
          ++ P (["  return "; pkg t "server"; "."; registerFuncName opts; "(s.rpc, "; q; methName; q; ", "; FormatCastToStringSlice topics; ", s.svc."; methName]
                ++ (if bool_decide (o_Type opts = AFFINITY) then [", s.svc."; methName; "Affinity"] else [", nil"]) ++ [")"])
          ++ P ["}"] ++ P []
          ++ P ["func (s *"; servStruct; FormatTypeParams servTopics; ") Deregister"; methName; "Topic("; FormatParams topics; ") {"]
          ++ P ["  s.rpc.DeregisterHandler("; q; methName; q; ", "; FormatCastToStringSlice topics; ")"]
          ++ P ["}"] ++ P []).

Definition group_methods (servStruct : string) (servTopics : list topic) (group : topicGroup) : list line :=
  P ["func (s *"; servStruct; FormatTypeParams servTopics; ") all"; g_typeName group; "TopicRegisterers() "; pkg t "server"; ".RegistererSlice {"]
  ++ P ["  return "; pkg t "server"; ".RegistererSlice{"]
  ++ (g_methNames group ≫= λ methName,
        P ["    "; pkg t "server"; ".NewRegisterer(s.Register"; methName; "Topic, s.Deregister"; methName; "Topic),"])
  ++ P ["  }"] ++ P ["}"] ++ P []
  ++ P ["func (s *"; servStruct; FormatTypeParams servTopics; ") RegisterAll"; g_typeName group; "Topics("; FormatParams (g_topics group); ") error {"]
  ++ P ["  return s.all"; g_typeName group; "TopicRegisterers().Register("; Join (VarNames (g_topics group)) ", "; ")"]
  ++ P ["}"] ++ P []
  ++ P ["func (s *"; servStruct; FormatTypeParams servTopics; ") DeregisterAll"; g_typeName group; "Topics("; FormatParams (g_topics group); ") {"]
  ++ P ["  s.all"; g_typeName group; "TopicRegisterers().Deregister("; Join (VarNames (g_topics group)) ", "; ")"]
  ++ P ["}"] ++ P [].

Definition generateServer (service : ServiceDescriptorProto) : M (list line) :=
  let servName := serviceNameCamelCased service in
  servTopics ← typedTopicsForService service;
  servStruct ← serviceStruct service;
  methods ← for_methods (λ _ m, server_method servStruct servTopics m) 0 (s_Method service);
  groups ← topicGroupsForService service;
  Ok (P ["type "; servStruct; FormatTypeParamConstraints servTopics; " struct {"]
      ++ P ["  svc "; servName; "ServerImpl"]
      ++ P ["  rpc *"; pkg t "server"; ".RPCServer"]
      ++ P ["}"] ++ P []
      ++ P ["// New"; servName; "Server builds a RPCServer that will route requests"]
      ++ P ["// to the corresponding method in the provided svc implementation."]
      ++ P ["func New"; servName; "Server"; FormatTypeParamConstraints servTopics; "(svc "; servName; "ServerImpl, bus "; pkg t "psrpc";
            ".MessageBus, opts ..."; pkg t "psrpc"; ".ServerOption) ("; servName; "Server"; FormatTypeParams servTopics; ", error) {"]
      ++ P ["  sd := &"; pkg t "info"; ".ServiceDefinition{"]
      ++ P ["    Name: "; q; servName; q; ","]
      ++ P ["    ID:   "; pkg t "rand"; ".NewServerID(),"]
      ++ P ["  }"] ++ P []
      ++ P ["  s := "; pkg t "server"; ".NewRPCServer(sd, bus, opts...)"]
      ++ P []
      ++ server_registrations false (s_Method service)
      ++ P ["  return &"; servStruct; FormatTypeParams servTopics; "{"]
      ++ P ["    svc: svc,"] ++ P ["    rpc: s,"] ++ P ["  }, nil"] ++ P ["}"] ++ P []
      ++ methods
      ++ (groups ≫= group_methods servStruct servTopics)
      ++ P ["func (s *"; servStruct; FormatTypeParams servTopics; ") Shutdown() {"]
      ++ P ["  s.rpc.Close(false)"] ++ P ["}"] ++ P []
      ++ P ["func (s *"; servStruct; FormatTypeParams servTopics; ") Kill() {"]
      ++ P ["  s.rpc.Close(true)"] ++ P ["}"] ++ P []).

Definition unimplemented_method (servName : string) (method : MethodDescriptorProto) : M (list line) :=
  let opts := getOptions method in
  let methName := methodNameCamelCased method in
  inputType ← goTypeName t (m_InputType method);
  outputType ← goTypeName t (m_OutputType method);
  let affinity := bool_decide (o_Type opts = AFFINITY) in
  Ok ((if o_Stream opts then
         P ["func ("; servName; ") "; methName; "("; pkg t "psrpc"; ".ServerStream[*"; outputType; ", *"; inputType; "]) error { return psrpc.ErrUnimplemented }"]
         ++ (if affinity then P ["func ("; servName; ") "; methName; "Affinity(context.Context) float32 { return -1 }"] else [])
       else
         P ["func ("; servName; ") "; methName; "("; pkg t "context"; ".Context, *"; inputType; ") ("; "*"; outputType;
            ", error) { return nil, psrpc.ErrUnimplemented }"]
         ++ (if affinity then P ["func ("; servName; ") "; methName; "Affinity(context.Context, *"; inputType; ") float32 { return -1 }"] else []))
      ++ P []).

Definition generateUnimplementedServer (service : ServiceDescriptorProto) : M (list line) :=
  let servName := "Unimplemented" +:+ serviceNameCamelCased service +:+ "Server" in
  methods ← for_methods (λ _ m, unimplemented_method servName m) 0 (s_Method service);
  Ok (P ["type "; servName; " struct{}"] ++ methods).

Definition generateService (file : FileDescriptorProto) (svc : nat) (service : ServiceDescriptorProto) : M (list line) :=
  let servName := serviceNameCamelCased service in
  i1 ← generateInterface file svc service IClient;
  i2 ← generateInterface file svc service IServerImpl;
  i3 ← generateInterface file svc service IServer;
  client ← generateClient service;
  server ← generateServer service;
  unimplemented ← generateUnimplementedServer service;
  Ok (sectionComment (servName +:+ " Client Interface") ++ i1
      ++ sectionComment (servName +:+ " ServerImpl Interface") ++ i2
      ++ sectionComment (servName +:+ " Server Interface") ++ i3
      ++ sectionComment (servName +:+ " Client") ++ client
      ++ sectionComment (servName +:+ " Server") ++ server
      ++ sectionComment (servName +:+ " Unimplemented Server") ++ unimplemented).

Fixpoint generateServices (file : FileDescriptorProto) (svc : nat) (services : list ServiceDescriptorProto) : M (list line) :=
  match services with
  | [] => Ok []
  | s :: services => ls ← generateService file svc s; rest ← generateServices file (S svc) services; Ok (ls ++ rest)
  end.
End emit.

(** ** [strconv.Quote] *)

(** [strconv.IsPrint] is a table of Unicode, known on ASCII. *)
Class Printable := {
  IsPrint : Z → bool;
  IsPrint_ascii : ∀ r, (0 ≤ r < 128)%Z → IsPrint r = Info.between 0x20 0x7e r
}.

Definition backslash : ascii := "\"%char.

Definition hex_digits (r : Z) (shifts : list Z) : bytes := hex_digit r <$> shifts.

Section quote.
Context `{Printable}.

(** [appendEscapedRune]. *)
Definition quote_rune (r : Z) : bytes :=
  if (r =? 34)%Z || (r =? Z_of_byte backslash)%Z then [backslash; byte_of_Z r]
  else if IsPrint r then byte_of_Z <$> encode_rune r
  else
    backslash ::
    (if (r =? 7)%Z then ["a"%char]
     else if (r =? 8)%Z then ["b"%char]
     else if (r =? 12)%Z then ["f"%char]
     else if (r =? 10)%Z then ["n"%char]
     else if (r =? 13)%Z then ["r"%char]
     else if (r =? 9)%Z then ["t"%char]
     else if (r =? 11)%Z then ["v"%char]
     else if (r <? 32)%Z || (r =? 0x7f)%Z then "x"%char :: hex_digits r [4; 0]%Z
     else if (r <? 0x10000)%Z then "u"%char :: hex_digits r [12; 8; 4; 0]%Z
     else "U"%char :: hex_digits r [28; 24; 20; 16; 12; 8; 4; 0]%Z).

Fixpoint quote_from (skip : nat) (l : list Z) : bytes :=
  match l with
  | [] => []
  | b :: rest =>
      match skip with
      | S skip => quote_from skip rest
      | O =>
          let '(r, width) := decode_rune l in
          (if (width =? 1) && (r =? RuneError)%Z then backslash :: "x"%char :: hex_digits b [4; 0]%Z else quote_rune r)
          ++ quote_from (width - 1) rest
      end
  end.

Definition Quote (s : string) : string := string_of ("034"%char :: quote_from 0 (Z_of_byte <$> bytes_of s) ++ ["034"%char]).
End quote.

(** ** Files *)

(** [version.go]. *)
Definition Version : string := "v0.8.0".

(** [semver.MajorMinor], the compressed descriptor of a file without its comments, and the
    parser and the printer of Go. *)
Class Environment := {
  MajorMinor : string → string;
  descriptor : FileDescriptorProto → bytes;
  reformat : bytes → option bytes
}.

(** The first [.] is replaced. *)
Definition version_constant (v : bytes) : bytes :=
  match cut_first "." v with Some (a, b) => a ++ "_"%char :: b | None => v end.

(** The bytes, sixteen to a line. *)
Definition hex_byte (c : ascii) : string := "0x" +:+ string_of (hex_digits (Z_of_byte c) [4; 0]%Z) +:+ ",".

Fixpoint descriptor_lines (fuel : nat) (b : bytes) : list line :=
  match fuel, b with
  | S fuel, _ :: _ => [String "009" "" :: (hex_byte <$> take 16 b)] ++ descriptor_lines fuel (drop 16 b)
  | _, _ => []
  end.

Section files.
Context `{Printable, Environment} (t : psrpc).

Definition generateFileHeader (file : FileDescriptorProto) : list line :=
  P ["// Code generated by protoc-gen-psrpc "; Version; ", DO NOT EDIT."]
  ++ P ["// source: "; f_Name file]
  ++ P []
  ++ (let leading := Leading (FileComments file) in
      if bool_decide (leading = "") then []
      else (split "010" (bytes_of leading) ≫= λ l, if bool_decide (l = []) then [] else P (comment_line l)) ++ P [])
  ++ P ["package "; t_genPkgName t]
  ++ P [].

Definition has_methods (file : FileDescriptorProto) : bool := existsb (λ s, negb (bool_decide (s_Method s = []))) (f_Service file).

Definition generateImports (file : FileDescriptorProto) : M (list line) :=
  if bool_decide (f_Service file = []) then Ok []
  else
    deps ← import_deps t file;
    Ok (P ["import ("]
        ++ (if has_methods file then P ["  "; q; "context"; q] ++ P [] else [])
        ++ P ["  "; q; "github.com/livekit/psrpc"; q]
        ++ P ["  "; q; "github.com/livekit/psrpc/pkg/client"; q]
        ++ P ["  "; q; "github.com/livekit/psrpc/pkg/info"; q]
        ++ P ["  "; q; "github.com/livekit/psrpc/pkg/rand"; q]
        ++ P ["  "; q; "github.com/livekit/psrpc/pkg/server"; q]
        ++ P ["  "; q; "github.com/livekit/psrpc/version"; q]
        ++ P [")"]
        ++ (sorted_packages deps ≫= λ p, P ["import "; p; " "; Quote (default "" (deps !! p))])
        ++ (if bool_decide (sorted_packages deps = []) then [] else P [])).

Definition generateVersion : M (list line) :=
  match bytes_of (MajorMinor Version) with
  | [] => Err Panicked
  | _ :: v => Ok (P ["var _ = "; pkg t "version"; ".PsrpcVersion_" +:+ string_of (version_constant v)])
  end.

Definition generateFileDescriptor (handled : nat) (file : FileDescriptorProto) : list line :=
  let b := descriptor file in
  P [] ++ P ["var "; "psrpcFileDescriptor" +:+ Itoa handled; " = []byte{"]
  ++ P [String "009" "" +:+ "// "; Itoa (length b); " bytes of a gzipped FileDescriptorProto"]
  ++ descriptor_lines (length b) b
  ++ P ["}"].

(** The text of a file, before it is reformatted. *)
Definition file_text (handled : nat) (file : FileDescriptorProto) : M (list line) :=
  imports ← generateImports file;
  version ← generateVersion;
  services ← generateServices t file 0 (f_Service file);
  Ok (generateFileHeader file ++ imports ++ version ++ services ++ generateFileDescriptor handled file).

(** [generate]: nothing for a file without services; code that does not parse ends the
    process. *)
Definition generate (handled : nat) (file : FileDescriptorProto) : M (option (string * string)) :=
  if bool_decide (f_Service file = []) then Ok None
  else
    ls ← file_text handled file;
    match reformat (text ls) with
    | Some content => Ok (Some (goFileName (t_sourceRelativePaths t) (t_modulePrefix t) file, string_of content))
    | None => Err BadSource
    end.

Fixpoint generate_files (handled : nat) (genFiles : list nat) : M (list (string * string)) :=
  match genFiles with
  | [] => Ok []
  | i :: genFiles =>
      file ← or_panic (t_files t !! i);
      r ← generate handled file;
      rest ← generate_files (match r with Some _ => S handled | None => handled end) genFiles;
      Ok (match r with Some f => f :: rest | None => rest end)
  end.
End files.

(** [Generate], after what [readGenRequest] refuses: the names and contents of the files;
    [params] is what the parameter is parsed to ([parses_to]). *)
Definition Generate `{Unicode, Growth, Printable, Environment} (req : CodeGeneratorRequest) (params : result param_error commandLineParams)
  : M (list (string * string)) :=
  check_request req;;
  params ← (match params with Ok p => Ok p | Err e => Err (BadParameter e) end);
  t ← prepare params req;
  generate_files t 0 (t_genFiles t).
