(* ===== verification/GenBalance.v ===== *)
(** * GenBalance.v: the brackets of the generated text

    The text that [GenText] prints is well bracketed, as Go's scanner reads it: strings and
    comments end, and every bracket is closed by one of its kind, in order.  The names of
    messages, services and methods are those that protoc accepts ([accepted_file]); those
    of topics and groups are strings that it does not check, and that they are names is a
    hypothesis ([topics_named_well]), without which the text may not be well bracketed
    ([GenRegister.topic_name_unbalanced]). *)
From stdpp Require Import pretty sorting.
From S2P Require Import Prelude Errors Bus Info Naming CommandLine TypeMap Generator GeneratorNames GenText.

#[local] Open Scope nat_scope.

(** ** The scanner *)

(** [Slash] is after one slash, which may begin a comment. *)
Inductive mode : Type := Code | Slash | InString | Escaped | InComment.

(** The state: the mode and the brackets that are open; [None] is an error. *)
Definition scan : Type := option (mode * list ascii).

Definition opening (c : ascii) : bool := bool_decide (c ∈ ["("; "["; "{"]%char).
Definition closing (c : ascii) : option ascii :=
  if bool_decide (c = ")"%char) then Some "("%char
  else if bool_decide (c = "]"%char) then Some "["%char
  else if bool_decide (c = "}"%char) then Some "{"%char
  else None.

Definition scan_code (c : ascii) (st : list ascii) : scan :=
  if opening c then Some (Code, c :: st)
  else
    match closing c with
    | Some o => match st with o' :: st => if bool_decide (o' = o) then Some (Code, st) else None | [] => None end
    | None =>
        if bool_decide (c = "034"%char) then Some (InString, st)
        else if bool_decide (c = "/"%char) then Some (Slash, st)
        else Some (Code, st)
    end.

Definition scan_char (s : mode * list ascii) (c : ascii) : scan :=
  let '(m, st) := s in
  match m with
  | Code => scan_code c st
  | Slash => if bool_decide (c = "/"%char) then Some (InComment, st) else scan_code c st
  | InString =>
      if bool_decide (c = "034"%char) then Some (Code, st)
      else if bool_decide (c = "010"%char) then None
      else if bool_decide (c = backslash) then Some (Escaped, st)
      else Some (InString, st)
  | Escaped => if bool_decide (c = "010"%char) then None else Some (InString, st)
  | InComment => if bool_decide (c = "010"%char) then Some (Code, st) else Some (InComment, st)
  end.

Fixpoint walk (l : bytes) (s : mode * list ascii) : scan :=
  match l with
  | [] => Some s
  | c :: l => match scan_char s c with Some s => walk l s | None => None end
  end.

(** From code to code, with the same brackets open. *)
Definition balanced (l : bytes) : Prop := ∀ st, walk l (Code, st) = Some (Code, st).

Lemma walk_app l1 l2 s : walk (l1 ++ l2) s = match walk l1 s with Some s => walk l2 s | None => None end.
Proof. revert s. induction l1 as [|c l1 IH]; intros s; simpl; [done|]. by destruct (scan_char s c). Qed.

Lemma balanced_app l1 l2 : balanced l1 → balanced l2 → balanced (l1 ++ l2).
Proof. intros H1 H2 st. by rewrite walk_app, H1. Qed.

Lemma balanced_nil : balanced [].
Proof. done. Qed.

(** Characters that mean nothing to the scanner, but after a slash. *)
Definition plain (c : ascii) : bool := bool_decide (c ∉ ["("; ")"; "["; "]"; "{"; "}"; "/"; "034"; "010"; backslash]%char).

Definition plain_name (s : string) : Prop := Forall (λ c, plain c = true) (bytes_of s).

Lemma scan_plain c m st : plain c = true → m = Code ∨ m = InString ∨ m = InComment → scan_char (m, st) c = Some (m, st).
Proof.
  intros Hc%bool_decide_eq_true Hm. rewrite !not_elem_of_cons in Hc. destruct_and!.
  destruct Hm as [->|[->| ->]]; simpl; [|by rewrite !bool_decide_eq_false_2 by done..].
  unfold scan_code, opening, closing. rewrite (bool_decide_eq_false_2 (c ∈ _)) by (rewrite !elem_of_cons, elem_of_nil; intuition congruence).
  by rewrite !bool_decide_eq_false_2 by done.
Qed.

Lemma walk_plain s m st : plain_name s → m = Code ∨ m = InString ∨ m = InComment → walk (bytes_of s) (m, st) = Some (m, st).
Proof. intros Hs Hm. induction Hs as [|c l Hc _ IH]; [done|]. cbn [walk]. by rewrite scan_plain. Qed.

(** ** Names *)

Definition identifier (s : string) : Prop := Forall (λ c, ident c = true) (bytes_of s).

Lemma ident_plain c : ident c = true → plain c = true ∧ plain (flip_case c) = true.
Proof. destruct c as [[] [] [] [] [] [] [] []]; vm_compute; done. Qed.

Lemma plain_app s1 s2 : plain_name s1 → plain_name s2 → plain_name (s1 +:+ s2).
Proof. unfold plain_name. rewrite bytes_of_app, Forall_app. done. Qed.

Lemma plain_bytes l : Forall (λ c, plain c = true) l → plain_name (string_of l).
Proof. unfold plain_name. by rewrite bytes_of_string_of. Qed.

Lemma CamelCase_ident s : identifier s → identifier (CamelCase s).
Proof.
  unfold identifier, CamelCase. rewrite bytes_of_string_of. intros Hs. destruct (bytes_of s) as [|c l]; [done|].
  case_bool_decide; [constructor; [done|]|]; apply camel_ident; [by inversion Hs|done].
Qed.

Lemma ident_plain_bytes l : Forall (λ c, ident c = true) l → Forall (λ c, plain c = true) l.
Proof. intros Hl. eapply Forall_impl; [exact Hl|]. intros c Hc. by apply ident_plain. Qed.

Lemma CamelCase_plain s : identifier s → plain_name (CamelCase s).
Proof. intros Hs. by apply ident_plain_bytes, CamelCase_ident. Qed.

Lemma LowerCamelCase_plain s v : identifier s → LowerCamelCase s = Some v → plain_name v.
Proof.
  intros Hs%CamelCase_ident. unfold LowerCamelCase. unfold identifier in Hs. destruct (bytes_of (CamelCase s)) as [|c l]; [done|].
  intros Hv. assert (v = string_of (flip_case c :: l)) as -> by congruence. apply plain_bytes. inversion Hs as [|? ? Hc Hl]; subst. constructor; [by apply ident_plain|by apply ident_plain_bytes].
Qed.

Lemma unexported_plain s v : identifier s → unexported s = Ok v → plain_name v.
Proof.
  unfold unexported, identifier. intros Hs. destruct (bytes_of s) as [|c l]; [done|]. intros Hv.
  assert (v = string_of (lower_byte c ++ l)) as -> by congruence. apply plain_bytes.
  inversion Hs as [|? ? Hc Hl]; subst. apply Forall_app. split; [|by apply ident_plain_bytes]. unfold lower_byte.
  destruct (isASCIIUpper c); [repeat constructor; by apply ident_plain|].
  destruct (_ <? _)%Z; [repeat constructor; by apply ident_plain|]. repeat constructor.
Qed.

Lemma Itoa_plain i : plain_name (Itoa i).
Proof.
  unfold Itoa, pretty, pretty_N. case_decide; [by repeat constructor|].
  assert (Hgo : ∀ x s, plain_name s → plain_name (pretty_N_go x s)); [|by apply Hgo; constructor].
  intros x. induction (N.lt_wf_0 x) as [x _ IH]. intros s Hs. destruct (decide (0 < x)%N) as [Hx|Hx].
  - rewrite pretty_N_go_step by done. apply IH; [by apply N.div_lt|]. constructor; [|done].
    unfold pretty_N_char. by repeat case_match.
  - by replace x with 0%N by lia.
Qed.

(** What [CleanIdentifier] keeps: letters and digits, which are coded without the special
    characters. *)
Lemma plain_high b : (128 ≤ b < 256)%Z → plain (byte_of_Z b) = true.
Proof.
  intros Hb. unfold plain. rewrite bool_decide_eq_true. rewrite !elem_of_cons, elem_of_nil.
  assert (He : Z_of_byte (byte_of_Z b) = b) by (apply byte_of_Z_id; lia).
  intros Hin. repeat destruct Hin as [Hin|Hin]; try done; rewrite Hin in He; vm_compute in He; lia.
Qed.

Lemma encode_high r : (128 ≤ r < 2 ^ 21)%Z → Forall (λ c, plain c = true) (byte_of_Z <$> encode_rune r).
Proof.
  intros Hr. unfold encode_rune. rewrite (proj2 (Z.ltb_ge r 0x80)) by lia.
  assert (Hlow : ∀ x, plain (byte_of_Z (0x80 + x mod 64)%Z) = true)
    by (intros x; apply plain_high; pose proof (Z.mod_pos_bound x 64); lia).
  destruct (Z.ltb_spec r 0x800); [|destruct (Z.ltb_spec r 0x10000)]; cbn [fmap list_fmap];
    repeat first [apply Forall_nil_2|apply Forall_cons_2]; try apply Hlow; apply plain_high.
  - assert (0 ≤ r / 64 < 32)%Z by (split; [apply Z.div_pos; lia|apply Z.div_lt_upper_bound; lia]). lia.
  - assert (0 ≤ r / 4096 < 16)%Z by (split; [apply Z.div_pos; lia|apply Z.div_lt_upper_bound; lia]). lia.
  - assert (0 ≤ r / 262144 < 8)%Z by (split; [apply Z.div_pos; lia|apply Z.div_lt_upper_bound; lia]). lia.
Qed.

Lemma CleanIdentifier_plain `{Unicode} s : plain_name (CleanIdentifier s).
Proof.
  unfold CleanIdentifier, string_of_runes. apply plain_bytes. pose proof (runes_range21 s) as Hr.
  induction Hr as [|r rs Hr _ IH]; [constructor|]. simpl. rewrite fmap_app. apply Forall_app. split; [|exact IH].
  unfold AlphaDigitize. destruct (IsLetter r || Naming.IsDigit r || (r =? Z_of_byte "_")%Z) eqn:Hc; [|by repeat constructor].
  destruct (decide (128 ≤ r)%Z) as [?|Hlt]; [apply encode_high; simpl in Hr; lia|].
  assert (Hb : Z_of_byte (byte_of_Z r) = r) by (apply byte_of_Z_id; simpl in Hr; lia). rewrite <- Hb in Hc.
  assert (Hid : ident (byte_of_Z r) = true).
  { unfold ident. apply orb_prop in Hc as [[Hc|Hc]%orb_prop|Hc].
    - by rewrite (IsLetter_ascii _ Hc) by lia.
    - rewrite IsDigit_ascii in Hc by lia. by rewrite Hc, orb_true_r.
    - apply Z.eqb_eq in Hc. rewrite Hb in Hc. by rewrite Hc. }
  unfold encode_rune. rewrite (proj2 (Z.ltb_lt r 0x80)) by lia. repeat constructor. by apply ident_plain.
Qed.

Lemma Join_plain l sep : Forall plain_name l → plain_name sep → plain_name (Join l sep).
Proof.
  intros Hl Hsep. unfold Join. induction Hl as [|x l Hx Hl IH]; [constructor|]. destruct l as [|y l]; [exact Hx|].
  cbn [String.concat]. apply plain_app; [done|]. by apply plain_app.
Qed.

Lemma fmap_plain {A} (f : A → string) (P : A → Prop) l : Forall P l → (∀ a, P a → plain_name (f a)) → Forall plain_name (f <$> l).
Proof. intros Hl Hf. apply Forall_fmap. eapply Forall_impl; [exact Hl|]. exact Hf. Qed.

Ltac plain_literal := apply (bool_decide_unpack _); vm_compute; exact I.

(** ** Balanced strings *)

Lemma plain_balanced s : plain_name s → balanced (bytes_of s).
Proof. intros Hs st. apply walk_plain; [done|by left]. Qed.

(** A string between two literals that open and close. *)
Lemma balanced_between a s b : plain_name s → (∀ st, ∃ st', walk (bytes_of a) (Code, st) = Some (Code, st') ∧ walk (bytes_of b) (Code, st') = Some (Code, st)) →
  balanced (bytes_of (a +:+ s +:+ b)).
Proof.
  intros Hs Hab st. destruct (Hab st) as (st' & Ha & Hb). rewrite !bytes_of_app, !walk_app, Ha.
  cbn match. rewrite walk_app. rewrite walk_plain; [exact Hb|done|by left].
Qed.

(** ** Topics *)

Definition topic_plain (t : topic) : Prop := plain_name (varName t) ∧ plain_name (typeName t).

Lemma FormatParams_plain ts : Forall topic_plain ts → plain_name (FormatParams ts).
Proof.
  intros Hts. apply Join_plain; [|plain_literal]. eapply fmap_plain; [exact Hts|]. intros t [Hv Ht].
  apply plain_app; [done|]. apply plain_app; [plain_literal|done].
Qed.

Lemma VarNames_plain ts : Forall topic_plain ts → plain_name (Join (VarNames ts) ", ").
Proof. intros Hts. apply Join_plain; [|plain_literal]. eapply fmap_plain; [exact Hts|]. by intros t [Hv Ht]. Qed.

Lemma TypeNames_plain ts : Forall topic_plain ts → plain_name (Join (TypeNames ts) ", ").
Proof. intros Hts. apply Join_plain; [|plain_literal]. eapply fmap_plain; [exact Hts|]. by intros t [Hv Ht]. Qed.

Lemma Constraints_balanced ts : Forall topic_plain ts → balanced (bytes_of (FormatTypeParamConstraints ts)).
Proof.
  intros Hts. unfold FormatTypeParamConstraints. destruct ts as [|t ts]; [apply balanced_nil|]. destruct (negb _); [apply balanced_nil|].
  apply balanced_between; [by apply TypeNames_plain|]. intros st. by eexists.
Qed.

Lemma TypeParams_balanced ts : Forall topic_plain ts → balanced (bytes_of (FormatTypeParams ts)).
Proof.
  intros Hts. unfold FormatTypeParams. destruct ts as [|t ts]; [apply balanced_nil|]. destruct (negb _); [apply balanced_nil|].
  apply balanced_between; [by apply TypeNames_plain|]. intros st. by eexists.
Qed.

Lemma CastToString_balanced t : topic_plain t → balanced (bytes_of (FormatCastToString t)).
Proof.
  intros [Hv _]. unfold FormatCastToString. destruct (negb _); [by apply plain_balanced|]. apply balanced_between; [done|]. intros st. by eexists.
Qed.

Lemma Join_balanced l sep : Forall (λ s, balanced (bytes_of s)) l → balanced (bytes_of sep) → balanced (bytes_of (Join l sep)).
Proof.
  intros Hl Hsep. unfold Join. induction Hl as [|x l Hx Hl IH]; [apply balanced_nil|]. destruct l as [|y l]; [exact Hx|].
  cbn [String.concat]. rewrite !bytes_of_app. apply balanced_app; [done|]. by apply balanced_app.
Qed.

Lemma CastToStringSlice_balanced ts : Forall topic_plain ts → balanced (bytes_of (FormatCastToStringSlice ts)).
Proof.
  intros Hts. unfold FormatCastToStringSlice. destruct (FormatCastToString <$> ts) as [|v vs] eqn:Hv; [by apply plain_balanced; plain_literal|].
  rewrite <- Hv. intros st.
  assert (Hj : balanced (bytes_of (Join (FormatCastToString <$> ts) ", "))).
  { apply Join_balanced; [|apply plain_balanced; plain_literal]. apply Forall_fmap. eapply Forall_impl; [exact Hts|]. exact CastToString_balanced. }
  rewrite !bytes_of_app. change (bytes_of "[]string{") with (bytes_of "[]string" ++ ["{"%char]). rewrite <- (assoc_L (++)), walk_app.
  replace (walk (bytes_of "[]string") (Code, st)) with (Some (Code, st)) by reflexivity. cbn match. simpl app. cbn [walk].
  change (scan_char (Code, st) "{") with (Some (Code, "{"%char :: st)). cbn match. by rewrite walk_app, Hj.
Qed.

(** The names of a method's topic parameters and its group are identifiers: what the author
    of the file must see to, since they are strings in its options, of which protoc checks
    nothing, and neither does the generator. *)
Definition topics_identifiers (m : MethodDescriptorProto) : Prop := ∀ o p,
  m_Options m = Some o → o_TopicParams o = Some p → Forall identifier (tp_Names p) ∧ identifier (tp_Group p).

(** A method with a name, which protoc guarantees, and such topics, which nothing does. *)
Record good_method (m : MethodDescriptorProto) : Prop := {
  good_method_name : identifier (m_Name m);
  good_method_topics : topics_identifiers m
}.

Lemma getOptions_params m p : o_TopicParams (getOptions m) = Some p → ∃ o, m_Options m = Some o ∧ o_TopicParams o = Some p.
Proof.
  unfold getOptions. destruct (m_Options m) as [o|]; [|done]. intros Hp. exists o. split; [done|]. by destruct (o_Routing o).
Qed.

Lemma topics_plain m ts : good_method m → topicsForMethod m = Ok ts → Forall topic_plain ts.
Proof.
  intros Hm. unfold topicsForMethod. destruct (negb _); [intros [= <-]; constructor|].
  assert (Hone : Forall topic_plain [MkTopic "topic" "string" false]) by (repeat constructor).
  destruct (o_TopicParams (getOptions m)) as [p|] eqn:Hp; [|by intros [= <-]]. case_bool_decide; [by intros [= <-]|].
  destruct (getOptions_params m p Hp) as (o & Ho & Hop). destruct (good_method_topics m Hm o p Ho Hop) as [Hn _]. clear -Hn.
  revert ts. induction Hn as [|n names Hn Hnames IH]; intros ts; simpl; [intros [= <-]; constructor|].
  destruct (LowerCamelCase n) as [v|] eqn:Hv; simpl; [|done]. destruct (topics_named (tp_Typed p) names) as [ts'|]; simpl; [|done].
  intros [= <-]. constructor; [|by apply IH]. split; simpl; [by eapply LowerCamelCase_plain|].
  destruct (tp_Typed p); [|plain_literal]. apply plain_app; [by apply CamelCase_plain|plain_literal].
Qed.

Lemma new_typed_sub topics found t : t ∈ (new_typed topics found).1 → t ∈ topics.
Proof.
  revert found. induction topics as [|x topics IH]; intros found; simpl; [done|]. destruct (typed x && _).
  - specialize (IH ({[ typeName x ]} ∪ found)). destruct (new_typed topics _) as [ts f']. simpl in *. rewrite !elem_of_cons. naive_solver.
  - intros ?%IH. by right.
Qed.

Lemma typed_topics_plain methods found ts : Forall good_method methods → typed_topics methods found = Ok ts → Forall topic_plain ts.
Proof.
  intros Hm. revert found ts. induction Hm as [|m methods Hm _ IH]; intros found ts; simpl; [intros [= <-]; constructor|].
  destruct (topicsForMethod m) as [topics|] eqn:Htp; simpl; [|done]. pose proof (topics_plain m topics Hm Htp) as Hpl.
  pose proof (new_typed_sub topics found) as Hsub. destruct (new_typed topics found) as [ts1 found']. simpl in Hsub.
  destruct (typed_topics methods found') as [rest|] eqn:Hr; simpl; [|done]. intros [= <-]. apply Forall_app. split; [|by eapply IH].
  rewrite Forall_forall in *. auto.
Qed.

Definition group_plain (g : topicGroup) : Prop :=
  Forall plain_name (g_methNames g) ∧ plain_name (g_typeName g) ∧ Forall topic_plain (g_topics g).

Lemma add_to_group_plain m gs found gs' found' : good_method m → Forall group_plain gs → add_to_group m (gs, found) = Ok (gs', found') →
  Forall group_plain gs'.
Proof.
  intros Hm Hgs. unfold add_to_group. destruct (group_of m) as [group|] eqn:Hg; [|by intros [= <- _]].
  destruct (topicsForMethod m) as [ts|] eqn:Hts; simpl; [|done]. pose proof (topics_plain m ts Hm Hts) as Hpl.
  pose proof (CamelCase_plain _ (good_method_name m Hm)) as Hname. destruct (found !! group) as [i|].
  - destruct (gs !! i) as [g|] eqn:Hgi; simpl; [|done]. case_bool_decide; simpl; [|done]. intros [= <- _].
    rewrite Forall_lookup in Hgs. destruct (Hgs i g Hgi) as (Hn & Ht & Htp). apply Forall_insert; [by apply Forall_lookup|].
    split; [apply Forall_app; by repeat constructor|done].
  - intros [= <- _]. apply Forall_app. split; [done|]. repeat constructor; simpl; [done| |done]. apply CamelCase_plain.
    unfold group_of in Hg. destruct (o_TopicParams (getOptions m)) as [p|] eqn:Hp; [|done].
    destruct (getOptions_params m p Hp) as (o & Ho & Hop). destruct (good_method_topics m Hm o p Ho Hop) as [_ Hgr].
    by destruct (_ || _); simplify_eq.
Qed.

Lemma groups_plain service gs : Forall good_method (s_Method service) → topicGroupsForService service = Ok gs → Forall group_plain gs.
Proof.
  intros Hm. unfold topicGroupsForService.
  assert (Hgen : ∀ gs0 found gs', Forall group_plain gs0 → fst <$> add_to_groups (s_Method service) (gs0, found) = Ok gs' → Forall group_plain gs'); [|by apply Hgen].
  clear gs. induction Hm as [|m methods Hm _ IH]; intros gs0 found gs' H0; cbn [add_to_groups]; [by intros [= <-]|].
  destruct (add_to_group m (gs0, found)) as [[gs1 found1]|] eqn:Hadd; cbn [mbind result_bind]; [|done]. apply IH. by eapply add_to_group_plain.
Qed.

(** ** Lines *)

(** The strings of the lines, one after the other. *)
Definition pieces (ls : list (list string)) : list string := ls ≫= λ l, l ++ [newline].

Fixpoint walkp (l : list string) (s : mode * list ascii) : scan :=
  match l with
  | [] => Some s
  | p :: l => match walk (bytes_of p) s with Some s => walkp l s | None => None end
  end.

Lemma walk_text ls s : walk (text ls) s = walkp (pieces ls) s.
Proof.
  assert (Hp : ∀ l s, walk (l ≫= bytes_of) s = walkp l s).
  { induction l as [|p l IH]; intros s0; simpl; [done|]. rewrite walk_app. destruct (walk (bytes_of p) s0); [apply IH|done]. }
  rewrite <- Hp. f_equal. induction ls as [|l ls IH]; [done|].
  change (text (l :: ls)) with (((l ≫= bytes_of) ++ bytes_of newline) ++ text ls).
  change (pieces (l :: ls)) with ((l ++ [newline]) ++ pieces ls). by rewrite IH, !bind_app.
Qed.

Lemma walkp_app l1 l2 s : walkp (l1 ++ l2) s = match walkp l1 s with Some s => walkp l2 s | None => None end.
Proof. revert s. induction l1 as [|p l IH]; intros s; simpl; [done|]. by destruct (walk (bytes_of p) s). Qed.

Lemma pieces_app ls1 ls2 : pieces (ls1 ++ ls2) = pieces ls1 ++ pieces ls2.
Proof. apply bind_app. Qed.

(** A part of the output that leaves the scanner as it was. *)
Definition balanced_lines (ls : list (list string)) : Prop := ∀ st, walkp (pieces ls) (Code, st) = Some (Code, st).

Lemma balanced_lines_nil : balanced_lines [].
Proof. done. Qed.

Lemma balanced_lines_app ls1 ls2 : balanced_lines ls1 → balanced_lines ls2 → balanced_lines (ls1 ++ ls2).
Proof. intros H1 H2 st. by rewrite pieces_app, walkp_app, H1. Qed.

Lemma balanced_lines_bind {A} (f : A → list (list string)) l : (∀ a, a ∈ l → balanced_lines (f a)) → balanced_lines (l ≫= f).
Proof.
  induction l as [|a l IH]; intros Hf; [done|]. simpl. apply balanced_lines_app; [apply Hf; by left|]. apply IH. intros b Hb. apply Hf. by right.
Qed.

(** How the scanner goes on. *)
Lemma walkp_plain p l m st : plain_name p → m = Code ∨ m = InString ∨ m = InComment → walkp (p :: l) (m, st) = walkp l (m, st).
Proof. intros Hp Hm. simpl. by rewrite walk_plain. Qed.

Lemma walkp_balanced p l st : balanced (bytes_of p) → walkp (p :: l) (Code, st) = walkp l (Code, st).
Proof. intros Hp. simpl. by rewrite Hp. Qed.

Lemma walkp_literal p l s s' : walk (bytes_of p) s = Some s' → walkp (p :: l) s = walkp l s'.
Proof. simpl. by intros ->. Qed.

Lemma walkp_lines ls rest st : balanced_lines ls → walkp (pieces ls ++ rest) (Code, st) = walkp rest (Code, st).
Proof. intros Hl. by rewrite walkp_app, Hl. Qed.

Lemma pieces_P l : pieces (P l) = l ++ [newline].
Proof. unfold pieces, P. simpl. by rewrite app_nil_r. Qed.

Lemma pieces_cons l ls : pieces (l :: ls) = l ++ newline :: pieces ls.
Proof. unfold pieces. simpl. by rewrite <- (assoc_L (++)). Qed.

Lemma pieces_nil : pieces [] = [].
Proof. done. Qed.

Create Rewrite HintDb pieces.
#[export] Hint Rewrite pieces_app pieces_P pieces_cons pieces_nil : pieces.

Create HintDb plain.
#[export] Hint Resolve plain_app FormatParams_plain VarNames_plain Constraints_balanced TypeParams_balanced CastToStringSlice_balanced
  balanced_lines_app balanced_lines_nil Itoa_plain CamelCase_plain : plain.
#[export] Hint Extern 1 (_ = Code ∨ _) => (first [by left|by right; left|by right; right]) : plain.

(** A string that is a constant. *)
Ltac is_literal p := lazymatch p with String _ _ => idtac | EmptyString => idtac | q => idtac | newline => idtac end.

(** One string, or one part, further. *)
Ltac walk_step :=
  match goal with
  | |- walkp (?p :: ?l) (?m, ?st) = _ =>
      first [ is_literal p;
              let r := eval vm_compute in (walk (bytes_of p) (m, st)) in
              lazymatch r with Some ?s => rewrite (walkp_literal p l (m, st) s) by (vm_compute; reflexivity) end
            | rewrite (walkp_plain p l m st) by eauto 6 with plain
            | rewrite (walkp_balanced p l st) by eauto 6 with plain ]
  | |- walkp (pieces ?ls ++ ?rest) (Code, ?st) = _ => rewrite (walkp_lines ls rest st) by eauto with plain
  | |- walkp (pieces ?ls) (Code, ?st) = _ => rewrite <- (app_nil_r (pieces ls))
  end.

(** All of it. *)
Ltac walk_lines :=
  intros st; autorewrite with pieces; rewrite <- ?(assoc_L (++)); cbn [app];
  repeat (walk_step; rewrite <- ?(assoc_L (++)); cbn [app]); try reflexivity.

(** ** Comments *)

Lemma walk_comment l st : ("010"%char ∉ l) → walk l (InComment, st) = Some (InComment, st).
Proof.
  induction l as [|c l IH]; [done|]. rewrite not_elem_of_cons. intros [Hc Hl]. cbn [walk scan_char].
  rewrite bool_decide_eq_false_2 by done. by apply IH.
Qed.

Lemma walkp_comment p l st : ("010"%char ∉ bytes_of p) → walkp (p :: l) (InComment, st) = walkp l (InComment, st).
Proof. intros Hp. simpl. by rewrite walk_comment. Qed.

Lemma split_parts sep l : Forall (λ x, sep ∉ x) (split sep l).
Proof.
  induction l as [|c l IH]; simpl; [repeat constructor; by intros ?%elem_of_nil|]. case_bool_decide as Hc.
  - constructor; [by intros ?%elem_of_nil|done].
  - destruct (split sep l) as [|x xs]; simpl.
    + repeat constructor. by intros ->%list_elem_of_singleton.
    + inversion IH as [|? ? Hx Hxs]; subst. constructor; [|done]. by intros [->|?]%elem_of_cons.
Qed.

Lemma trim_prefix_sub p l l' c : trim_prefix p l = Some l' → c ∈ l' → c ∈ l.
Proof.
  revert l. induction p as [|x p IH]; intros [|y l]; simpl; try done; [by intros [= <-]|by intros [= <-]|].
  case_bool_decide; [|done]. intros Hp Hc. right. by eapply IH.
Qed.

Lemma comment_line_balanced l : ("010"%char ∉ l) → balanced_lines [comment_line l].
Proof.
  intros Hl st. unfold comment_line. autorewrite with pieces. cbn [app].
  rewrite (walkp_literal "// " _ (Code, st) (InComment, st)) by reflexivity. rewrite walkp_comment; [by rewrite (walkp_literal newline _ _ (Code, st)) by reflexivity|].
  rewrite bytes_of_string_of. intros Hc. apply Hl. unfold TrimPrefix in Hc. destruct (trim_prefix _ l) as [l'|] eqn:Ht; [|done].
  by eapply trim_prefix_sub.
Qed.

Lemma lines_balanced_fmap {A} (f : A → list string) l : (∀ a, a ∈ l → balanced_lines [f a]) → balanced_lines (f <$> l).
Proof.
  induction l as [|a l IH]; intros Hf; [done|]. change (f <$> a :: l) with ([f a] ++ (f <$> l)).
  apply balanced_lines_app; [apply Hf; by left|]. apply IH. intros b Hb. apply Hf. by right.
Qed.

Lemma printComments_balanced c : balanced_lines (printComments c).
Proof.
  unfold printComments. destruct (forallb _ _); [apply balanced_lines_nil|]. apply lines_balanced_fmap. intros l Hl.
  apply comment_line_balanced. pose proof (split_parts "010" (TrimSuffix (bytes_of (Leading c)) "010")) as Hp. rewrite Forall_forall in Hp. by apply Hp.
Qed.

Lemma print_comments_balanced c : balanced_lines (print_comments_of c).
Proof. destruct c; [apply printComments_balanced|apply balanced_lines_nil]. Qed.

Lemma sectionComment_balanced title : plain_name title → balanced_lines (sectionComment title).
Proof.
  intros Ht. unfold sectionComment.
  assert (Hr : plain_name (string_of (repeat "="%char (length (bytes_of title))))) by (apply plain_bytes; induction (length _); by constructor).
  walk_lines.
Qed.

Lemma Sprint_plain b : plain_name (Sprint b).
Proof. destruct b; plain_literal. Qed.

Lemma constructor_plain methods : plain_name (clientConstructor methods).
Proof.
  unfold clientConstructor. assert (Hc : plain_name "NewRPCClient") by plain_literal. revert Hc. generalize "NewRPCClient" as c.
  induction methods as [|m methods IH]; intros c Hc; [done|]. simpl. apply IH. destruct (o_Stream _); [plain_literal|done].
Qed.

#[export] Hint Resolve print_comments_balanced Sprint_plain constructor_plain : plain.

(** ** What the generator prints of a method *)

Section emit.
Context (t : psrpc).

(** The names of packages and of messages. *)
Record good_names : Prop := {
  good_pkgs : ∀ name, plain_name (pkg t name);
  good_files : ∀ i, plain_name (filePackage t i);
  good_messages : ∀ name def, MessageDefinition_of (t_reg t) name = Some def →
    Forall (λ d, identifier (d_Name (md_Descriptor d))) (Lineage def) ∧ identifier (d_Name (md_Descriptor def))
}.

Context (Hgood : good_names).

Lemma pkg_plain name : plain_name (pkg t name).
Proof. by apply good_pkgs. Qed.

Lemma goTypeName_plain name ty : goTypeName t name = Ok ty → plain_name ty.
Proof.
  unfold goTypeName. destruct (MessageDefinition_of _ _) as [def|] eqn:Hdef; [|done]. intros [= <-]. apply plain_bytes.
  destruct (good_messages Hgood name def Hdef) as [Hl Hd]. rewrite !Forall_app. split_and!.
  - case_bool_decide; [constructor|]. apply Forall_app. split; [apply (good_files Hgood)|by repeat constructor].
  - induction Hl as [|d l Hd' _ IH]; [constructor|]. simpl. rewrite !Forall_app. split_and!; [by apply CamelCase_plain|by repeat constructor|exact IH].
  - by apply CamelCase_plain.
Qed.
Hint Resolve pkg_plain : plain.

(** The names of a method: of itself, of its input and of its output. *)
Ltac method_names Hm :=
  pose proof (CamelCase_plain _ (good_method_name _ Hm));
  repeat match goal with
  | |- context [goTypeName ?t ?n] =>
      let H := fresh "Hty" in let ty := fresh "ty" in
      destruct (goTypeName t n) as [ty|] eqn:H; cbn [mbind result_bind]; [apply goTypeName_plain in H|done]
  end.

Ltac method_topics Hm :=
  match goal with
  | |- context [topicsForMethod ?m] =>
      let H := fresh "Hts" in let ts := fresh "ts" in
      destruct (topicsForMethod m) as [ts|] eqn:H; cbn [mbind result_bind fmap result_fmap]; [apply (topics_plain _ _ Hm) in H|done]
  end.

Lemma client_signature_balanced method opts ls : good_method method → generateClientSignature t method opts = Ok ls → balanced_lines ls.
Proof.
  intros Hm. unfold generateClientSignature, methodNameCamelCased. method_names Hm. destruct (o_Topics opts); [method_topics Hm|];
    cbn [mbind result_bind]; intros [= <-]; unfold client_result;
    destruct (o_Subscription opts), (o_Stream opts), (bool_decide (o_Type opts = MULTI)); walk_lines.
Qed.

Lemma impl_signature_balanced method opts ls : good_method method → generateServerImplSignature t method opts = Ok ls → balanced_lines ls.
Proof.
  intros Hm. unfold generateServerImplSignature, methodNameCamelCased. method_names Hm. intros [= <-].
  destruct (o_Stream opts), (bool_decide (o_Type opts = AFFINITY)); walk_lines.
Qed.

Lemma server_signature_balanced method opts ls : good_method method → generateServerSignature t method opts = Ok ls → balanced_lines ls.
Proof.
  intros Hm. unfold generateServerSignature, methodNameCamelCased. method_names Hm. method_topics Hm. intros [= <-].
  destruct (o_Subscription opts), (o_Topics opts); walk_lines.
Qed.

Lemma client_method_balanced structName servTopics method ls : good_method method → plain_name structName → Forall topic_plain servTopics →
  client_method t structName servTopics method = Ok ls → balanced_lines ls.
Proof.
  intros Hm Hs Hst. unfold client_method, methodNameCamelCased. method_names Hm. method_topics Hm. intros [= <-].
  unfold client_result, client_call.
  destruct (o_Topics (getOptions method)), (o_Subscription (getOptions method)), (o_Stream (getOptions method)), (bool_decide (o_Type (getOptions method) = MULTI)); walk_lines.
Qed.

Lemma server_method_balanced servStruct servTopics method ls : good_method method → plain_name servStruct → Forall topic_plain servTopics →
  server_method t servStruct servTopics method = Ok ls → balanced_lines ls.
Proof.
  intros Hm Hs Hst. unfold server_method, methodNameCamelCased, registerFuncName. destruct (_ && _); [intros [= <-]; apply balanced_lines_nil|].
  method_names Hm. method_topics Hm. intros [= <-].
  destruct (o_Topics (getOptions method)), (o_Subscription (getOptions method)), (o_Stream (getOptions method)), (bool_decide (o_Type (getOptions method) = AFFINITY)); walk_lines.
Qed.

Lemma unimplemented_balanced servName method ls : good_method method → plain_name servName →
  unimplemented_method t servName method = Ok ls → balanced_lines ls.
Proof.
  intros Hm Hs. unfold unimplemented_method, methodNameCamelCased. method_names Hm. intros [= <-].
  destruct (o_Stream (getOptions method)), (bool_decide (o_Type (getOptions method) = AFFINITY)); walk_lines.
Qed.

(** ** Of a service *)

Record good_service (service : ServiceDescriptorProto) : Prop := {
  good_service_name : identifier (s_Name service);
  good_service_methods : Forall good_method (s_Method service)
}.

Lemma for_methods_balanced body j methods ls : Forall good_method methods →
  (∀ j m ls, good_method m → body j m = Ok ls → balanced_lines ls) → for_methods body j methods = Ok ls → balanced_lines ls.
Proof.
  intros Hm Hbody. revert j ls. induction Hm as [|m methods Hm _ IH]; intros j ls; simpl; [intros [= <-]; apply balanced_lines_nil|].
  destruct (body j m) as [l1|] eqn:Hb; simpl; [|done]. destruct (for_methods body (S j) methods) as [l2|] eqn:Hr; simpl; [|done].
  intros [= <-]. apply balanced_lines_app; [by eapply Hbody|by eapply IH].
Qed.

Lemma interface_method_balanced file svc j iface m ls : good_method m → interface_method t file svc j iface m = Ok ls → balanced_lines ls.
Proof.
  intros Hm. unfold interface_method. destruct (_ || _); [intros [= <-]; apply balanced_lines_nil|].
  destruct (match iface with IClient => _ | _ => _ end) as [sig|] eqn:Hsig; simpl; [|done]. intros [= <-].
  apply balanced_lines_app; [apply print_comments_balanced|].
  destruct iface; [by eapply client_signature_balanced|by eapply impl_signature_balanced|by eapply server_signature_balanced].
Qed.

Lemma group_signatures_balanced groups : Forall group_plain groups → balanced_lines (groups ≫= group_signatures).
Proof.
  rewrite Forall_forall. intros Hg. apply balanced_lines_bind. intros g Hin. destruct (Hg g Hin) as (_ & Hty & Htp). unfold group_signatures. walk_lines.
Qed.

Lemma generateInterface_balanced file svc service iface ls : good_service service →
  generateInterface t file svc service iface = Ok ls → balanced_lines ls.
Proof.
  intros [Hs Hm]. unfold generateInterface. pose proof (CamelCase_plain _ Hs) as Hname. fold (serviceNameCamelCased service) in Hname.
  destruct (if bool_decide (iface = IServerImpl) then _ else _) as [topics|] eqn:Htp; cbn [mbind result_bind]; [|done].
  assert (Htopics : Forall topic_plain topics).
  { case_bool_decide; [injection Htp as <-; constructor|]. by eapply typed_topics_plain. }
  destruct (for_methods _ _ _) as [methods|] eqn:Hmeth; cbn [mbind result_bind]; [|done].
  apply for_methods_balanced in Hmeth; [|done|intros j m l Hgm; by apply interface_method_balanced].
  destruct iface; cbn [mbind result_bind].
  - intros [= <-]. unfold iface_name. walk_lines.
  - intros [= <-]. unfold iface_name. walk_lines.
  - destruct (topicGroupsForService service) as [groups|] eqn:Hg; cbn [mbind result_bind]; [|done]. apply groups_plain in Hg; [|done].
    pose proof (group_signatures_balanced groups Hg) as Hgs. intros [= <-]. unfold iface_name. walk_lines.
Qed.

Lemma register_methods_balanced methods : Forall good_method methods → balanced_lines (register_method <$> methods).
Proof.
  rewrite Forall_forall. intros Hm. apply lines_balanced_fmap. intros m Hin. pose proof (CamelCase_plain _ (good_method_name _ (Hm m Hin))).
  unfold register_method, methodNameCamelCased. walk_lines.
Qed.

Lemma generateClient_balanced service ls : good_service service → generateClient t service = Ok ls → balanced_lines ls.
Proof.
  intros [Hs Hm]. unfold generateClient. pose proof (CamelCase_plain _ Hs) as Hname. fold (serviceNameCamelCased service) in Hname.
  destruct (typedTopicsForService service) as [topics|] eqn:Htp; cbn [mbind result_bind]; [|done]. apply typed_topics_plain in Htp; [|done].
  destruct (unexported _) as [structName|] eqn:Hu; cbn [mbind result_bind fmap result_fmap]; [|done].
  apply unexported_plain in Hu; [|by apply CamelCase_ident].
  assert (Hst : plain_name (structName +:+ "Client")) by (apply plain_app; [done|plain_literal]).
  assert (Hnew : plain_name ("New" +:+ serviceNameCamelCased service +:+ "Client")) by (repeat apply plain_app; (done || plain_literal)).
  revert Hst Hnew. generalize (structName +:+ "Client") as struct. generalize ("New" +:+ serviceNameCamelCased service +:+ "Client") as new. intros new struct Hst Hnew.
  destruct (for_methods _ _ _) as [methods|] eqn:Hmeth; cbn [mbind result_bind]; [|done].
  apply for_methods_balanced in Hmeth; [|done|intros j m l Hgm; by apply client_method_balanced].
  pose proof (register_methods_balanced _ Hm) as Hreg. intros [= <-]. walk_lines.
Qed.

Lemma server_registrations_balanced errVar methods : Forall good_method methods → balanced_lines (server_registrations t errVar methods).
Proof.
  intros Hm. revert errVar. induction Hm as [|m methods Hm _ IH]; intros errVar; [apply balanced_lines_nil|].
  cbn [server_registrations]. unfold server_registration, methodNameCamelCased. pose proof (CamelCase_plain _ (good_method_name _ Hm)).
  pose proof (register_methods_balanced [m] ltac:(by constructor)) as Hr. change (register_method <$> [m]) with (P (register_method m)) in Hr.
  destruct (_ || _); [by apply balanced_lines_app|]. specialize (IH true). unfold registerFuncName.
  apply balanced_lines_app; [|done]. apply balanced_lines_app; [done|].
  destruct errVar, (o_Stream (getOptions m)), (bool_decide (o_Type (getOptions m) = AFFINITY)); walk_lines.
Qed.

Lemma group_methods_balanced struct topics groups : plain_name struct → Forall topic_plain topics → Forall group_plain groups →
  balanced_lines (groups ≫= group_methods t struct topics).
Proof.
  intros Hst Htp. rewrite Forall_forall. intros Hg. apply balanced_lines_bind. intros g Hin. destruct (Hg g Hin) as (Hnames & Hty & Hgt).
  unfold group_methods. assert (Hreg : balanced_lines (g_methNames g ≫= λ methName,
        P ["    "; pkg t "server"; ".NewRegisterer(s.Register"; methName; "Topic, s.Deregister"; methName; "Topic),"])).
  { apply balanced_lines_bind. intros n Hn. rewrite Forall_forall in Hnames. specialize (Hnames n Hn). walk_lines. }
  revert Hreg. generalize (g_methNames g ≫= λ methName,
        P ["    "; pkg t "server"; ".NewRegisterer(s.Register"; methName; "Topic, s.Deregister"; methName; "Topic),"]) as regs. intros regs Hreg.
  walk_lines.
Qed.

Lemma generateServer_balanced service ls : good_service service → generateServer t service = Ok ls → balanced_lines ls.
Proof.
  intros [Hs Hm]. unfold generateServer, serviceStruct. pose proof (CamelCase_plain _ Hs) as Hname. fold (serviceNameCamelCased service) in Hname.
  destruct (typedTopicsForService service) as [topics|] eqn:Htp; cbn [mbind result_bind]; [|done]. apply typed_topics_plain in Htp; [|done].
  destruct (unexported _) as [structName|] eqn:Hu; cbn [mbind result_bind fmap result_fmap]; [|done].
  apply unexported_plain in Hu; [|by apply CamelCase_ident].
  assert (Hst : plain_name (structName +:+ "Server")) by (apply plain_app; [done|plain_literal]).
  revert Hst. generalize (structName +:+ "Server") as struct. intros struct Hst.
  destruct (for_methods _ _ _) as [methods|] eqn:Hmeth; cbn [mbind result_bind]; [|done].
  apply for_methods_balanced in Hmeth; [|done|intros j m l Hgm; by apply server_method_balanced].
  destruct (topicGroupsForService service) as [groups|] eqn:Hg; cbn [mbind result_bind]; [|done]. apply groups_plain in Hg; [|done].
  pose proof (group_methods_balanced struct topics groups Hst Htp Hg) as Hgm.
  pose proof (server_registrations_balanced false _ Hm) as Hreg. intros [= <-]. walk_lines.
Qed.

Lemma generateUnimplementedServer_balanced service ls : good_service service → generateUnimplementedServer t service = Ok ls → balanced_lines ls.
Proof.
  intros [Hs Hm]. unfold generateUnimplementedServer. pose proof (CamelCase_plain _ Hs) as Hname. fold (serviceNameCamelCased service) in Hname.
  assert (Hst : plain_name ("Unimplemented" +:+ serviceNameCamelCased service +:+ "Server")) by (repeat apply plain_app; (done || plain_literal)).
  revert Hst. generalize ("Unimplemented" +:+ serviceNameCamelCased service +:+ "Server") as struct. intros struct Hst.
  destruct (for_methods _ _ _) as [methods|] eqn:Hmeth; cbn [mbind result_bind]; [|done].
  apply for_methods_balanced in Hmeth; [|done|intros j m l Hgm; by apply unimplemented_balanced]. intros [= <-]. walk_lines.
Qed.

Lemma generateService_balanced file svc service ls : good_service service → generateService t file svc service = Ok ls → balanced_lines ls.
Proof.
  intros Hgs. unfold generateService.
  destruct (generateInterface t file svc service IClient) as [i1|] eqn:H1; cbn [mbind result_bind]; [|done].
  destruct (generateInterface t file svc service IServerImpl) as [i2|] eqn:H2; cbn [mbind result_bind]; [|done].
  destruct (generateInterface t file svc service IServer) as [i3|] eqn:H3; cbn [mbind result_bind]; [|done].
  destruct (generateClient t service) as [c|] eqn:H4; cbn [mbind result_bind]; [|done].
  destruct (generateServer t service) as [s|] eqn:H5; cbn [mbind result_bind]; [|done].
  destruct (generateUnimplementedServer t service) as [u|] eqn:H6; cbn [mbind result_bind]; [|done].
  apply generateInterface_balanced in H1, H2, H3; [|done..]. apply generateClient_balanced in H4; [|done].
  apply generateServer_balanced in H5; [|done]. apply generateUnimplementedServer_balanced in H6; [|done].
  assert (Hsec : ∀ title, plain_name title → balanced_lines (sectionComment (serviceNameCamelCased service +:+ title))).
  { intros title Ht. apply sectionComment_balanced, plain_app; [apply CamelCase_plain, Hgs|done]. }
  intros Hls. assert (ls = sectionComment (serviceNameCamelCased service +:+ " Client Interface") ++ i1
    ++ sectionComment (serviceNameCamelCased service +:+ " ServerImpl Interface") ++ i2
    ++ sectionComment (serviceNameCamelCased service +:+ " Server Interface") ++ i3
    ++ sectionComment (serviceNameCamelCased service +:+ " Client") ++ c
    ++ sectionComment (serviceNameCamelCased service +:+ " Server") ++ s
    ++ sectionComment (serviceNameCamelCased service +:+ " Unimplemented Server") ++ u) as -> by congruence.
  repeat (apply balanced_lines_app; [first [done|apply Hsec; plain_literal]|]). done.
Qed.

Lemma generateServices_balanced file svc services ls : Forall good_service services → generateServices t file svc services = Ok ls → balanced_lines ls.
Proof.
  intros Hs. revert svc ls. induction Hs as [|s services Hs _ IH]; intros svc ls; cbn [generateServices]; [intros [= <-]; apply balanced_lines_nil|].
  destruct (generateService t file svc s) as [l1|] eqn:H1; cbn [mbind result_bind]; [|done].
  destruct (generateServices t file (S svc) services) as [l2|] eqn:H2; cbn [mbind result_bind]; [|done].
  intros [= <-]. apply balanced_lines_app; [by eapply generateService_balanced|by eapply IH].
Qed.
End emit.

(** ** Of a file *)

Section files.
Context `{Printable, Environment}.

(** A quoted string is one. *)
Lemma walk_in_string l st : Forall (λ c, c ≠ "034"%char ∧ c ≠ "010"%char ∧ c ≠ backslash) l → walk l (InString, st) = Some (InString, st).
Proof. induction 1 as [|c l (? & ? & ?) _ IH]; [done|]. cbn [walk scan_char]. by rewrite !bool_decide_eq_false_2 by done. Qed.

Lemma plain_in_string c : plain c = true → c ≠ "034"%char ∧ c ≠ "010"%char ∧ c ≠ backslash.
Proof. intros Hc%bool_decide_eq_true. rewrite !not_elem_of_cons in Hc. destruct_and!. done. Qed.

Lemma walk_escape c l st : c ≠ "010"%char → walk (backslash :: c :: l) (InString, st) = walk l (InString, st).
Proof. intros Hc. change (walk (backslash :: c :: l) (InString, st)) with (walk (c :: l) (Escaped, st)). cbn [walk scan_char]. by rewrite bool_decide_eq_false_2. Qed.

Lemma hex_plain r shifts : Forall (λ c, plain c = true) (hex_digits r shifts).
Proof.
  apply Forall_fmap, Forall_forall. intros s _. simpl. apply (hex_digit_all (λ c _, plain c = true)).
  intros n _. assert (Hall : Forall (λ c, plain c = true) (bytes_of lowerHex)) by plain_literal.
  rewrite Forall_forall in Hall. destruct (nth_in_or_default (Z.to_nat n) (bytes_of lowerHex) "0"%char) as [Hin| ->]; [|done].
  by apply Hall, list_elem_of_In.
Qed.

Lemma walk_hex_escape c r shifts st : c ≠ "010"%char → walk (backslash :: c :: hex_digits r shifts) (InString, st) = Some (InString, st).
Proof. intros Hc. rewrite walk_escape by done. apply walk_in_string. eapply Forall_impl; [apply hex_plain|]. exact plain_in_string. Qed.

Lemma quote_rune_walk r st : (0 ≤ r < 2 ^ 21)%Z → walk (quote_rune r) (InString, st) = Some (InString, st).
Proof.
  intros Hr. unfold quote_rune. destruct ((r =? 34)%Z || (r =? Z_of_byte backslash)%Z) eqn:Hq.
  { apply orb_prop in Hq as [->%Z.eqb_eq| ->%Z.eqb_eq]; by rewrite walk_escape. }
  apply orb_false_elim in Hq as [H1%Z.eqb_neq H2%Z.eqb_neq]. destruct (IsPrint r) eqn:Hp.
  - apply walk_in_string. destruct (decide (128 ≤ r)%Z) as [Hge|Hlt].
    + eapply Forall_impl; [apply encode_high; lia|]. exact plain_in_string.
    + rewrite IsPrint_ascii in Hp by lia. unfold encode_rune. rewrite (proj2 (Z.ltb_lt r 0x80)) by lia.
      apply andb_prop in Hp as [Hp%Z.leb_le _]. assert (Hb : Z_of_byte (byte_of_Z r) = r) by (apply byte_of_Z_id; lia).
      repeat constructor; intros He; rewrite He in Hb; vm_compute in Hb; subst r; by vm_compute in H1, H2, Hp.
  - repeat first [case_match; [by rewrite walk_escape|]]. case_match; [by apply walk_hex_escape|]. by case_match; apply walk_hex_escape.
Qed.

Lemma quote_from_walk skip l st : Forall (λ b, 0 ≤ b < 256)%Z l → walk (quote_from skip l) (InString, st) = Some (InString, st).
Proof.
  intros Hl. revert skip. induction l as [|b l IH]; intros skip; [done|]. cbn [quote_from]. specialize (IH (proj2 (proj1 (Forall_cons _ _ _) Hl))).
  destruct skip as [|skip]; [|apply IH]. pose proof (decode_rune_range (b :: l) Hl) as Hr. destruct (decode_rune (b :: l)) as [r w]. simpl in Hr.
  rewrite walk_app. destruct (_ && _); [rewrite walk_hex_escape by done|rewrite quote_rune_walk by done]; apply IH.
Qed.

Lemma Quote_balanced s : balanced (bytes_of (Quote s)).
Proof.
  intros st. unfold Quote. rewrite bytes_of_string_of. change ("034"%char :: ?l) with (["034"%char] ++ l). rewrite walk_app.
  change (walk ["034"%char] (Code, st)) with (Some (InString, st)). cbn match. rewrite walk_app, quote_from_walk; [done|].
  apply Forall_fmap, Forall_forall. intros c _. simpl. unfold Z_of_byte. pose proof (N_ascii_bounded c). lia.
Qed.

Context (t : psrpc) (Hgood : good_names t).

Record good_file (f : FileDescriptorProto) : Prop := {
  good_file_name : "010"%char ∉ bytes_of (f_Name f);
  good_file_services : Forall good_service (f_Service f)
}.

Lemma header_balanced file : good_file file → plain_name (t_genPkgName t) → balanced_lines (generateFileHeader t file).
Proof.
  intros Hf Hgen. unfold generateFileHeader. apply balanced_lines_app; [walk_lines|]. apply balanced_lines_app.
  { intros st. autorewrite with pieces. cbn [app]. rewrite (walkp_literal "// source: " _ (Code, st) (InComment, st)) by reflexivity.
    rewrite walkp_comment by apply Hf. by rewrite (walkp_literal newline _ _ (Code, st)) by reflexivity. }
  apply balanced_lines_app; [walk_lines|]. apply balanced_lines_app; [|walk_lines].
  case_bool_decide; [apply balanced_lines_nil|]. apply balanced_lines_app; [|walk_lines]. apply balanced_lines_bind. intros l Hl.
  case_bool_decide; [apply balanced_lines_nil|]. apply comment_line_balanced.
  pose proof (split_parts "010" (bytes_of (Leading (FileComments file)))) as Hp. rewrite Forall_forall in Hp. by apply Hp.
Qed.

Lemma imports_balanced file ls : (∀ deps p, import_deps t file = Ok deps → p ∈ sorted_packages deps → plain_name p) →
  generateImports t file = Ok ls → balanced_lines ls.
Proof.
  intros Hpkgs. unfold generateImports. case_bool_decide; [intros [= <-]; apply balanced_lines_nil|].
  destruct (import_deps t file) as [deps|] eqn:Hd; cbn [mbind result_bind]; [|done]. specialize (Hpkgs deps). 
  assert (Himp : balanced_lines (sorted_packages deps ≫= λ p, P ["import "; p; " "; Quote (default "" (deps !! p))])).
  { apply balanced_lines_bind. intros p Hp. specialize (Hpkgs p eq_refl Hp). pose proof (Quote_balanced (default "" (deps !! p))). walk_lines. }
  revert Himp. generalize (sorted_packages deps ≫= λ p, P ["import "; p; " "; Quote (default "" (deps !! p))]) as imps. intros imps Himp.
  destruct (has_methods file), (bool_decide (sorted_packages deps = [])); intros [= <-]; walk_lines.
Qed.

Lemma packages_plain file deps p : import_deps t file = Ok deps → p ∈ sorted_packages deps → plain_name p.
Proof.
  intros Hd Hp. unfold sorted_packages in Hp. rewrite merge_sort_Permutation in Hp.
  apply list_elem_of_fmap in Hp as ([p' path] & -> & Hin%elem_of_map_to_list).
  unfold import_deps in Hd. fold (file_dir t file) in Hd. destruct (add_imports_spec _ _ _ _ _ Hd) as (_ & _ & Hsrc).
  destruct (Hsrc _ _ Hin) as [?|(d & f & _ & _ & _ & -> & _)]; [done|]. apply (good_files _ Hgood).
Qed.

Lemma cut_first_Some sep l a b : cut_first sep l = Some (a, b) → l = a ++ sep :: b.
Proof.
  revert a. induction l as [|c l IH]; intros a; simpl; [done|]. case_bool_decide as Hc; [intros [= <- <-]; by rewrite Hc|].
  destruct (cut_first sep l) as [[a' b']|]; simpl; [|done]. intros [= <- <-]. simpl. f_equal. by apply IH.
Qed.

Lemma version_balanced ls : plain_name (MajorMinor Version) → generateVersion t = Ok ls → balanced_lines ls.
Proof.
  unfold generateVersion, plain_name. intros Hv. destruct (bytes_of (MajorMinor Version)) as [|c v]; [done|]. inversion Hv as [|? ? _ Hvp]; subst.
  assert (Hc : plain_name (".PsrpcVersion_" +:+ string_of (version_constant v))).
  { apply plain_app; [plain_literal|]. apply plain_bytes. unfold version_constant. destruct (cut_first "." v) as [[a b]|] eqn:Hcut; [|done].
    rewrite (cut_first_Some _ _ _ _ Hcut) in Hvp. apply Forall_app in Hvp as [Ha Hb]. inversion Hb; subst.
    apply Forall_app. split; [done|]. by constructor. }
  pose proof (pkg_plain t Hgood "version"). revert Hc. generalize (".PsrpcVersion_" +:+ string_of (version_constant v)) as const. intros const Hc [= <-]. walk_lines.
Qed.

Lemma walkp_plains l rest st : Forall plain_name l → walkp (l ++ rest) (Code, st) = walkp rest (Code, st).
Proof. induction 1 as [|p l Hp _ IH]; [done|]. cbn [app]. by rewrite walkp_plain by (done || by left). Qed.

Lemma descriptor_lines_balanced fuel b : balanced_lines (descriptor_lines fuel b).
Proof.
  revert b. induction fuel as [|fuel IH]; intros [|c b]; try apply balanced_lines_nil. cbn [descriptor_lines].
  apply balanced_lines_app; [|apply IH]. intros st. autorewrite with pieces. cbn [app].
  rewrite (walkp_literal (String "009" "") _ (Code, st) (Code, st)) by reflexivity. rewrite walkp_plains; [by rewrite (walkp_literal newline _ _ (Code, st)) by reflexivity|].
  apply Forall_fmap, Forall_forall. intros x _. unfold compose, hex_byte. apply plain_app; [plain_literal|]. apply plain_app; [|plain_literal].
  apply plain_bytes, hex_plain.
Qed.

Lemma descriptor_balanced handled file : balanced_lines (generateFileDescriptor handled file).
Proof.
  unfold generateFileDescriptor. pose proof (descriptor_lines_balanced (length (descriptor file)) (descriptor file)) as Hl.
  revert Hl. generalize (descriptor_lines (length (descriptor file)) (descriptor file)) as lines. intros lines Hl.
  assert (Hv : plain_name ("psrpcFileDescriptor" +:+ Itoa handled)) by (apply plain_app; [plain_literal|apply Itoa_plain]).
  revert Hv. generalize ("psrpcFileDescriptor" +:+ Itoa handled) as v. intros v Hv.
  pose proof (Itoa_plain (length (descriptor file))) as Hn. revert Hn. generalize (Itoa (length (descriptor file))) as n. intros n Hn.
  change (String "009" "" +:+ "// ") with (String "009" "// "). walk_lines.
Qed.

Lemma file_text_balanced handled file ls : good_file file → plain_name (t_genPkgName t) → plain_name (MajorMinor Version) →
  file_text t handled file = Ok ls → balanced_lines ls.
Proof.
  intros Hf Hgen Hv. unfold file_text. destruct (generateImports t file) as [imports|] eqn:Hi; cbn [mbind result_bind]; [|done].
  destruct (generateVersion t) as [version|] eqn:Hver; cbn [mbind result_bind]; [|done].
  destruct (generateServices t file 0 (f_Service file)) as [services|] eqn:Hs; cbn [mbind result_bind]; [|done].
  apply imports_balanced in Hi; [|intros deps p; apply packages_plain]. apply version_balanced in Hver; [|done].
  apply (generateServices_balanced t Hgood) in Hs; [|apply Hf]. intros Hls.
  assert (ls = generateFileHeader t file ++ imports ++ version ++ services ++ generateFileDescriptor handled file) as -> by congruence.
  repeat (apply balanced_lines_app; [first [done|by apply header_balanced]|]). apply descriptor_balanced.
Qed.
End files.

(** ** What is prepared *)

Record plain_state (t : psrpc) : Prop := {
  plain_pkgs : ∀ n a, t_pkgs t !! n = Some a → plain_name a;
  plain_files : ∀ i a, t_fileToGoPackageName t !! i = Some a → plain_name a;
  plain_gen : plain_name (t_genPkgName t)
}.

Lemma alias_plain name t : plain_name name → plain_name (registerPackageName name t).1.
Proof.
  intros Hn. pose proof (fresh_alias_spec (S (size (t_pkgNamesInUse t))) 0 name (t_pkgNamesInUse t)) as Hs. simpl candidate in Hs.
  unfold registerPackageName. cbn [fst]. destruct (fresh_alias _ 1 name name _) as [alias|]; [|done]. destruct Hs as (_ & k & -> & _).
  destruct k; [done|]. apply plain_app; [done|apply Itoa_plain].
Qed.

Lemma register_plain name t : plain_name name → plain_state t → plain_state (registerPackageName name t).2.
Proof.
  intros Hn [Hp Hf Hg]. pose proof (alias_plain name t Hn) as Ha. unfold registerPackageName in *. cbn [fst snd] in *. constructor; simpl; [|done|done].
  intros n a. destruct (decide (name = n)) as [->|Hne]; [rewrite lookup_insert_eq; by intros [= <-]|rewrite lookup_insert_ne by done; apply Hp].
Qed.

Lemma set_fileName_plain t i a : plain_name a → plain_state t → plain_state (set_fileName t i a).
Proof.
  intros Ha [Hp Hf Hg]. constructor; simpl; [done| |done]. intros j b.
  destruct (decide (i = j)) as [->|Hne]; [rewrite lookup_insert_eq; by intros [= <-]|rewrite lookup_insert_ne by done; apply Hf].
Qed.

Section prepared.
Context `{Unicode, Growth, Printable, Environment}.

Lemma deduce_plain files name : deduceGenPkgName files = Ok name → plain_name name.
Proof.
  assert (Hexp : ∀ acc name, plain_name acc → explicit_package acc files = Ok name → plain_name name).
  { induction files as [|f files IH]; intros acc n Ha; simpl; [by intros [= <-]|]. destruct (goPackageName f) as [p []]; [|by apply IH].
    destruct (_ && _); [done|]. apply IH, CleanIdentifier_plain. }
  assert (Himp : ∀ acc name, plain_name acc → implicit_package acc files = Ok name → plain_name name).
  { clear Hexp. induction files as [|f files IH]; intros acc n Ha; simpl; [by intros [= <-]|]. destruct (goPackageName f) as [p b].
    destruct (_ && _); [done|]. apply IH, CleanIdentifier_plain. }
  unfold deduceGenPkgName. destruct (explicit_package "" files) as [n|] eqn:He; cbn [mbind result_bind]; [|done].
  apply Hexp in He; [|constructor]. destruct (negb _); [by intros [= <-]|by apply Himp].
Qed.

Lemma name_files_plain path i files t t' : plain_state t → name_files path i files t = Ok t' → plain_state t'.
Proof.
  revert i t. induction files as [|f files IH]; intros i t Ht; simpl; [by intros [= <-]|].
  destruct (name_file path i f t) as [t1|] eqn:Hn; cbn [mbind result_bind]; [|done]. apply IH. revert Hn. unfold name_file.
  destruct (if bool_decide (f_Name f = "options.proto") then _ else _) as [b|]; cbn [mbind result_bind]; [|done].
  destruct b; [by intros [= <-]|]. case_bool_decide; [intros [= <-]; apply set_fileName_plain; [by apply plain_gen|done]|].
  destruct (negb _ && _); [intros [= <-]; apply set_fileName_plain; [by apply plain_gen|done]|]. cbv zeta.
  generalize (CleanIdentifier_plain (if bool_decide (GetPackage f = "") then BaseName (f_Name f) else GetPackage f)).
  generalize (CleanIdentifier (if bool_decide (GetPackage f = "") then BaseName (f_Name f) else GetPackage f)) as name. intros name Hname.
  pose proof (register_plain name t Hname Ht) as Hr. pose proof (alias_plain name t Hname) as Ha. destruct (registerPackageName name t) as [alias t2].
  intros [= <-]. by apply set_fileName_plain.
Qed.

Lemma register_all_plain names t : Forall plain_name names → plain_state t → plain_state (register_all names t).
Proof.
  intros Hn. revert t. induction Hn as [|name names Hname _ IH]; intros t Ht; [done|]. unfold register_all. simpl. by apply IH, register_plain.
Qed.

Lemma prepare_plain params req t : prepare params req = Ok t → plain_state t.
Proof.
  unfold prepare. destruct (FilesToGenerate req) as [genFiles|]; cbn [mbind result_bind]; [|done].
  destruct (New _ _) as [reg|]; cbn [mbind result_bind or_panic]; [|done].
  destruct (mapM _ genFiles) as [gen|]; cbn [mbind result_bind or_panic]; [|done].
  destruct (deduceGenPkgName gen) as [name|] eqn:Hd; cbn [mbind result_bind or_panic]; [|done].
  destruct (head gen) as [first|]; cbn [mbind result_bind or_panic]; [|done].
  destruct (goPackageOption first) as [[path ?] ?]. apply name_files_plain.
  set (t0 := MkPsrpc _ _ _ _ _ _ _ _ _ _ _).
  assert (H0' : plain_state (register_all own_packages t0)).
  { apply register_all_plain; [repeat constructor; plain_literal|]. constructor; simpl; [by intros ? ? ?%lookup_empty_Some..|constructor]. }
  destruct H0'. constructor; [done|done|by eapply deduce_plain].
Qed.

(** What protoc accepts as a file: its name has no line break, and its messages, services
    and methods have identifiers for names. *)
Record accepted_file (f : FileDescriptorProto) : Prop := {
  accepted_name : "010"%char ∉ bytes_of (f_Name f);
  accepted_messages : ∀ m, m ∈ file_messages f → Forall (λ d, identifier (d_Name d)) m.1.1 ∧ identifier (d_Name m.2);
  accepted_services : ∀ s, s ∈ f_Service f → identifier (s_Name s) ∧ ∀ m, m ∈ s_Method s → identifier (m_Name m)
}.

(** The topics of all its methods have identifiers for names. *)
Definition topics_named_well (f : FileDescriptorProto) : Prop := ∀ s m, s ∈ f_Service f → m ∈ s_Method s → topics_identifiers m.

Lemma accepted_good f : accepted_file f → topics_named_well f → good_file f.
Proof.
  intros Hf Ht. constructor; [apply Hf|]. apply Forall_forall. intros s Hs. destruct (accepted_services f Hf s Hs) as [Hname Hms].
  constructor; [done|]. apply Forall_forall. intros m Hm. constructor; [by apply Hms|by eapply Ht].
Qed.

Lemma registry_names params req t : prepare params req = Ok t → well_ordered (ProtoFile req) (index_files (ProtoFile req)) →
  Forall accepted_file (ProtoFile req) → ∀ name def, MessageDefinition_of (t_reg t) name = Some def →
  Forall (λ d, identifier (d_Name (md_Descriptor d))) (Lineage def) ∧ identifier (d_Name (md_Descriptor def)).
Proof.
  intros Hp Hwo Hgood name def Hdef. destruct (prepare_spec _ _ _ Hp) as (_ & _ & Hnew & _).
  destruct (index_messages_spec (ProtoFile req) (index_files (ProtoFile req)) (length (ProtoFile req)) (length (ProtoFile req)) 0 ∅ [] Hwo)
    as (defs & h & He & _ & _ & Hsound); [lia..|].
  unfold New in Hnew. rewrite He in Hnew. injection Hnew as Hreg. rewrite <- Hreg in Hdef.
  destruct (Hsound name def Hdef) as [[? _]|(f & _ & (_ & _ & m & Hv%resolves_visible & [Hd Hl] & _) & _)]; [done|].
  assert (∃ f, f ∈ ProtoFile req ∧ m ∈ file_messages f) as (f' & Hf' & Hm).
  { clear -Hv. induction Hv as [i f m Hf Hm|i j m _ _ IH]; [|done]. exists f. split; [by eapply list_elem_of_lookup_2|done]. }
  rewrite Forall_forall in Hgood. destruct (accepted_messages f' (Hgood f' Hf') m Hm) as [Hps Hname].
  rewrite <- Hl, Forall_fmap in Hps. rewrite Hd. split; [exact Hps|done].
Qed.

(** C25: what is printed for a file, before it is reformatted, is well bracketed as Go's
    scanner reads it: its strings and comments end, every bracket that is opened is closed
    by one of its kind, in order, and none is left.  This is for files as protoc accepts
    and sends them (the names of messages, services and methods are identifiers, and a file
    comes after those it imports), if moreover the names of the file's topic parameters and
    of its groups are identifiers, which protoc does not check: see [topic_name_unbalanced]
    for a name with a bracket in it. *)
Theorem generated_text_balanced (params : commandLineParams) (req : CodeGeneratorRequest) (t : psrpc) (handled : nat)
    (file : FileDescriptorProto) (ls : list (list string)) :
  prepare params req = Ok t → well_ordered (ProtoFile req) (index_files (ProtoFile req)) →
  Forall accepted_file (ProtoFile req) → file ∈ ProtoFile req → topics_named_well file → plain_name (MajorMinor Version) →
  file_text t handled file = Ok ls →
  walk (text ls) (Code, []) = Some (Code, []).
Proof.
  intros Hp Hwo Hgood Hfile Htopics Hv Hls. pose proof (prepare_plain _ _ _ Hp) as [Hpk Hf Hgen]. rewrite walk_text.
  assert (Hnames : good_names t).
  { constructor.
    - intros n. unfold pkg. destruct (t_pkgs t !! n) as [a|] eqn:Ha; [by eapply Hpk|constructor].
    - intros i. unfold filePackage. destruct (t_fileToGoPackageName t !! i) as [a|] eqn:Ha; [by eapply Hf|constructor].
    - intros name def. by eapply registry_names. }
  rewrite Forall_forall in Hgood. by apply (file_text_balanced t Hnames handled file ls (accepted_good file (Hgood file Hfile) Htopics) Hgen Hv Hls).
Qed.
End prepared.
