(* ===== verification/GenRegister.v ===== *)
(** * GenRegister.v: what generated clients and servers register

    The theorems of [GenText] about the lines that register methods, and about the
    compressed descriptor. *)
From S2P Require Import Prelude Errors Bus Info Naming CommandLine TypeMap Generator GeneratorNames GenText GenBalance.

#[local] Open Scope nat_scope.

(** ** The registrations *)

(** A line that registers a method: its first string is that of [register_method]. *)
Definition registers (l : list string) : Prop := head l = Some "  sd.RegisterMethod(".
#[export] Instance registers_dec l : Decision (registers l).
Proof. unfold registers. apply _. Defined.

Definition registrations (ls : list (list string)) : list (list string) := filter registers ls.

Lemma registrations_app ls1 ls2 : registrations (ls1 ++ ls2) = registrations ls1 ++ registrations ls2.
Proof. apply filter_app. Qed.

Lemma registrations_methods methods : registrations (register_method <$> methods) = register_method <$> methods.
Proof. unfold registrations. induction methods as [|m methods IH]; [done|]. cbn [fmap list_fmap]. rewrite filter_cons_True by done. f_equal. exact IH. Qed.

Lemma for_methods_none body j methods ls : (∀ j m ls, body j m = Ok ls → registrations ls = []) →
  for_methods body j methods = Ok ls → registrations ls = [].
Proof.
  intros Hbody. revert j ls. induction methods as [|m methods IH]; intros j ls; simpl; [by intros [= <-]|].
  destruct (body j m) as [l1|] eqn:Hb; simpl; [|done]. destruct (for_methods body (S j) methods) as [l2|] eqn:Hr; simpl; [|done].
  intros [= <-]. rewrite registrations_app, (Hbody _ _ _ Hb). by eapply IH.
Qed.

Section emit.
Context (t : psrpc).

(** The choices of what is printed. *)
Ltac choices :=
  repeat match goal with |- context [if ?b then _ else _] => destruct b end.

Ltac results :=
  repeat match goal with
  | |- mbind _ ?r = Ok _ → _ => destruct r as [?|]; cbn [mbind result_bind]; [|done]
  | |- context [goTypeName ?t ?n] => destruct (goTypeName t n) as [?|]; cbn [mbind result_bind]; [|done]
  | |- context [topicsForMethod ?m] => destruct (topicsForMethod m) as [?|]; cbn [mbind result_bind]; [|done]
  end.

Lemma client_method_none struct topics m ls : client_method t struct topics m = Ok ls → registrations ls = [].
Proof. unfold client_method. results. intros [= <-]. unfold client_result, client_call. by choices. Qed.

Lemma server_method_none struct topics m ls : server_method t struct topics m = Ok ls → registrations ls = [].
Proof. unfold server_method. destruct (_ && _); [by intros [= <-]|]. results. intros [= <-]. by choices. Qed.

Lemma group_methods_none struct topics groups : registrations (groups ≫= group_methods t struct topics) = [].
Proof.
  induction groups as [|g groups IH]; [done|]. cbn [mbind list_bind]. rewrite registrations_app, IH, app_nil_r. unfold group_methods.
  rewrite !registrations_app. assert (Hn : ∀ names : list string, registrations (names ≫= λ methName,
        P ["    "; pkg t "server"; ".NewRegisterer(s.Register"; methName; "Topic, s.Deregister"; methName; "Topic),"]) = []).
  { induction names as [|n names IHn]; [done|]. cbn [mbind list_bind]. by rewrite registrations_app, IHn. }
  by rewrite Hn.
Qed.

Lemma server_registrations_exact errVar methods : registrations (server_registrations t errVar methods) = register_method <$> methods.
Proof.
  revert errVar. induction methods as [|m methods IH]; intros errVar; [done|]. cbn [server_registrations]. unfold server_registration.
  destruct (_ || _); rewrite registrations_app, IH; [done|]. destruct errVar; by choices.
Qed.
End emit.

(** ** What they mean *)

(** A registration's arguments, as the compiler reads them. *)
Definition read_bool (s : string) : option bool :=
  if bool_decide (s = "true") then Some true else if bool_decide (s = "false") then Some false else None.

Definition registered (l : list string) (sd : ServiceDefinition) : ServiceDefinition :=
  match l with
  | [_; _; name; _; _; affinity; _; multi; _; claim; _; queue; _] =>
      match read_bool affinity, read_bool multi, read_bool claim, read_bool queue with
      | Some a, Some m, Some c, Some k => RegisterMethod sd name a m c k
      | _, _, _, _ => sd
      end
  | _ => sd
  end.

(** The definition that generated code builds: one call after the other. *)
Definition definition (sd : ServiceDefinition) (ls : list (list string)) : ServiceDefinition :=
  foldl (λ sd l, registered l sd) sd (registrations ls).

Definition method_info (m : MethodDescriptorProto) : MethodInfo :=
  let opts := getOptions m in
  MkMethodInfo (bool_decide (o_Type opts = AFFINITY)) (bool_decide (o_Type opts = MULTI)) (getRequireClaim opts) (bool_decide (o_Type opts = QUEUE)).

Lemma read_Sprint b : read_bool (Sprint b) = Some b.
Proof. by destruct b. Qed.

Lemma registered_method m sd : registered (register_method m) sd =
  MkServiceDefinition (sd_Name sd) (sd_ID sd) (<[methodNameCamelCased m := method_info m]> (sd_Methods sd)).
Proof. unfold register_method, registered. by rewrite !read_Sprint. Qed.

Lemma definition_methods methods sd name : 
  sd_Methods (foldl (λ sd l, registered l sd) sd (register_method <$> methods)) !! name =
  match last (filter (λ m, methodNameCamelCased m = name) methods) with
  | Some m => Some (method_info m)
  | None => sd_Methods sd !! name
  end.
Proof.
  revert sd. induction methods as [|m methods IH]; intros sd; [done|]. cbn [fmap list_fmap foldl]. rewrite IH, registered_method, filter_cons. simpl.
  destruct (last (filter _ methods)) as [m'|] eqn:Hl; case_decide as Hm.
  - by rewrite last_cons, Hl.
  - by rewrite Hl.
  - rewrite last_cons, Hl, <- Hm. by rewrite lookup_insert_eq.
  - rewrite Hl. by rewrite lookup_insert_ne.
Qed.

Lemma getRequireClaim_multi opts : o_Type opts = MULTI → getRequireClaim opts = false.
Proof. intros Ht. unfold getRequireClaim. by rewrite Ht. Qed.

Lemma generateClient_registrations t service ls : generateClient t service = Ok ls → registrations ls = register_method <$> s_Method service.
Proof.
  unfold generateClient. destruct (typedTopicsForService service) as [topics|]; cbn [mbind result_bind]; [|done].
  destruct (unexported _) as [struct|]; cbn [mbind result_bind fmap result_fmap]; [|done].
  destruct (for_methods _ _ _) as [methods|] eqn:Hm; cbn [mbind result_bind]; [|done]. intros Hls%Ok_inj. rewrite <- Hls.
  apply for_methods_none in Hm; [|intros j m l; apply client_method_none].
  rewrite !registrations_app, registrations_methods, Hm. exact (app_nil_r _).
Qed.

Lemma generateServer_registrations t service ls : generateServer t service = Ok ls → registrations ls = register_method <$> s_Method service.
Proof.
  unfold generateServer. destruct (typedTopicsForService service) as [topics|]; cbn [mbind result_bind]; [|done].
  destruct (serviceStruct service) as [struct|]; cbn [mbind result_bind]; [|done].
  destruct (for_methods _ _ _) as [methods|] eqn:Hm; cbn [mbind result_bind]; [|done].
  destruct (topicGroupsForService service) as [groups|]; cbn [mbind result_bind]; [|done]. intros Hls%Ok_inj. rewrite <- Hls.
  apply for_methods_none in Hm; [|intros j m l; apply server_method_none].
  rewrite !registrations_app, server_registrations_exact, Hm, group_methods_none. exact (app_nil_r _).
Qed.

(** C26: the client and the server that are generated for a service build the same service
    definition: each registers all the service's methods, with the same arguments, so that
    a method with a name of its own has in both the information its options ask for; of
    affinity, multi and queue exactly one is set, and a multi method requires no claim. *)
Theorem generated_definitions_agree (t : psrpc) (service : ServiceDescriptorProto) (client server : list (list string)) :
  generateClient t service = Ok client → generateServer t service = Ok server →
  (∀ sd, definition sd client = definition sd server) ∧
  (∀ sd m, m ∈ s_Method service → (∀ m', m' ∈ s_Method service → methodNameCamelCased m' = methodNameCamelCased m → m' = m) →
     sd_Methods (definition sd client) !! methodNameCamelCased m = Some (method_info m)) ∧
  (∀ m, let i := method_info m in
     (mi_AffinityEnabled i, mi_Multi i, mi_Queue i) ∈ [(true, false, false); (false, true, false); (false, false, true)] ∧
     (mi_Multi i = true → mi_RequireClaim i = false)).
Proof.
  intros Hc Hs. apply generateClient_registrations in Hc. apply generateServer_registrations in Hs.
  unfold definition. rewrite Hc, Hs. split_and!; [done| |].
  - intros sd m Hm Huniq. rewrite definition_methods.
    destruct (last (filter (λ m', methodNameCamelCased m' = methodNameCamelCased m) (s_Method service))) as [m'|] eqn:Hl.
    + apply last_Some_elem_of, list_elem_of_filter in Hl as [Hn Hm']. by rewrite (Huniq m' Hm' Hn).
    + apply last_None in Hl. assert (Hin : m ∈ filter (λ m', methodNameCamelCased m' = methodNameCamelCased m) (s_Method service)) by (by apply list_elem_of_filter).
      rewrite Hl in Hin. by apply elem_of_nil in Hin.
  - intros m. unfold method_info. simpl. split.
    + destruct (o_Type (getOptions m)); vm_compute; set_solver.
    + intros Ht%bool_decide_eq_true. by apply getRequireClaim_multi.
Qed.

(** ** The descriptor *)

(** The bytes that are printed for a file's descriptor are all of them, in order,
    sixteen to a line, whatever their number. *)
Theorem descriptor_printed (b : bytes) :
  (descriptor_lines (length b) b ≫= λ l, drop 1 l) = hex_byte <$> b ∧
  Forall (λ l, 1 < length l ≤ 17) (descriptor_lines (length b) b).
Proof.
  assert (Hgen : ∀ fuel b, length b ≤ fuel → (descriptor_lines fuel b ≫= λ l, drop 1 l) = hex_byte <$> b ∧ Forall (λ l, 1 < length l ≤ 17) (descriptor_lines fuel b));
    [|by apply Hgen].
  clear b. induction fuel as [|fuel IH]; intros [|c b] Hlen; simpl in Hlen; [by split|lia|by split|]. cbn [descriptor_lines].
  destruct (IH (drop 16 (c :: b))) as [He Hl]; [rewrite length_drop; simpl; lia|]. rewrite bind_app, He. split.
  - cbn [mbind list_bind]. rewrite app_nil_r. change (drop 1 (?x :: ?l)) with l. by rewrite <- fmap_app, take_drop.
  - apply Forall_app. split; [|done]. apply Forall_cons_2; [|apply Forall_nil_2].
    cbn [length]. rewrite length_fmap, length_take. cbn [length]. lia.
Qed.

(** ** Examples *)

#[local] Existing Instance ascii_unicode.
#[local] Existing Instance doubling.

Definition ascii_printable : Printable.
Proof. refine {| IsPrint := Info.between 0x20 0x7e |}. done. Defined.
#[local] Existing Instance ascii_printable.

Definition example_environment : Environment :=
  {| MajorMinor := λ _, "v0.8"; descriptor := λ f, bytes_of (f_Name f); reformat := Some |}.
#[local] Existing Instance example_environment.

Definition method_options (subscription stream topics : bool) (params : option TopicParams) (type : RoutingType) : option Options :=
  Some (MkOptions subscription stream topics params type None).

(** A service with a method of each kind. *)
Definition full_service : ServiceDescriptorProto :=
  MkService "my_service"
    [MkMethod "NormalRPC" ".svc.R" ".dep.M" None;
     MkMethod "IntensiveRPC" ".svc.R" ".dep.M" (method_options false false false None AFFINITY);
     MkMethod "GetStats" ".svc.R" ".svc.R" (method_options false false false None MULTI);
     MkMethod "ExchangeUpdates" ".svc.R" ".dep.M" (method_options false true true (Some (MkTopicParams ["region"] true "regions" false)) QUEUE);
     MkMethod "UpdateRegion" ".svc.R" ".svc.R" (method_options false false true (Some (MkTopicParams ["region"] true "regions" true)) QUEUE);
     MkMethod "ProcessUpdate" ".svc.R" ".svc.R" (method_options true false false None MULTI)].

Definition full_file : FileDescriptorProto :=
  MkFile "svc.proto" (Some "svc") "example.com/svc" ["dep.proto"] [] [MkDescriptor "R" []] [full_service]
    (Some [MkLocation [6; 0; 2; 0]%Z " A comment (with a bracket" "" []]).

Definition full_request : CodeGeneratorRequest :=
  MkRequest ["svc.proto"] "" [proto "dep.proto" (Some "dep") "example.com/dep" ["M"] []; full_file].

#[local] Instance identifier_dec s : Decision (identifier s).
Proof. unfold identifier. apply _. Defined.

Definition check_topics (m : MethodDescriptorProto) : bool :=
  match m_Options m ≫= o_TopicParams with
  | Some p => bool_decide (Forall identifier (tp_Names p)) && bool_decide (identifier (tp_Group p))
  | None => true
  end.

Lemma full_topics : topics_named_well full_file.
Proof.
  assert (Hall : forallb check_topics (s_Method full_service) = true) by (by vm_compute).
  intros s m ->%list_elem_of_singleton Hm o p Ho Hop. rewrite forallb_forall in Hall.
  specialize (Hall m (proj1 (list_elem_of_In _ _) Hm)). unfold check_topics in Hall. rewrite Ho in Hall. simpl in Hall. rewrite Hop in Hall.
  by apply andb_prop in Hall as [?%bool_decide_eq_true ?%bool_decide_eq_true].
Qed.

(** A service of which protoc knows nothing but names. *)
Lemma one_service_accepted name goPackage deps d s :
  "010"%char ∉ bytes_of name → identifier (d_Name d) → d_NestedType d = [] → identifier (s_Name s) →
  forallb (λ m, bool_decide (identifier (m_Name m))) (s_Method s) = true →
  ∀ locs, accepted_file (MkFile name (Some "svc") goPackage deps [] [d] [s] locs).
Proof.
  intros Hn Hd Hnest Hs Hms locs. constructor; [done| |].
  - unfold file_messages. destruct d as [dn nested]. simpl in *. subst nested. intros m ->%list_elem_of_singleton. by split; [apply Forall_nil_2|].
  - intros s' ->%list_elem_of_singleton. split; [done|]. intros m Hm. rewrite forallb_forall in Hms.
    apply (bool_decide_eq_true (identifier (m_Name m))), Hms. by apply list_elem_of_In.
Qed.

Lemma full_request_accepted : Forall accepted_file (ProtoFile full_request).
Proof.
  apply Forall_cons_2; [|apply Forall_cons_2; [|apply Forall_nil_2]].
  - constructor; [plain_literal| |by intros s ?%elem_of_nil]. intros m ->%list_elem_of_singleton. split; plain_literal.
  - apply one_service_accepted; [plain_literal|plain_literal|done|plain_literal|by vm_compute].
Qed.

Lemma full_request_ordered : well_ordered (ProtoFile full_request) (index_files (ProtoFile full_request)).
Proof. intros i f k Hf Hk. destruct i as [|[|i]]; [..|done]; injection Hf as <-; by apply elem_of_nil in Hk. Qed.

Lemma generated_text_balanced_witness : ∃ t ls, prepare noParams full_request = Ok t ∧ file_text t 0 full_file = Ok ls ∧
  walk (text ls) (Code, []) = Some (Code, []).
Proof.
  assert (Hok : is_ok (prepare noParams full_request ≫= λ t, file_text t 0 full_file) = true) by (vm_compute; reflexivity).
  destruct (bind_is_ok _ _ Hok) as (t & Hp & Hok1). destruct (is_ok_spec _ Hok1) as (ls & Hls).
  exists t, ls. split; [exact Hp|]. split; [exact Hls|].
  apply (generated_text_balanced noParams full_request t 0 full_file ls Hp full_request_ordered full_request_accepted); [by right; left|exact full_topics|plain_literal|exact Hls].
Defined.

(** A service whose topic parameter has a bracket in its name. *)
Definition bracket_service : ServiceDescriptorProto :=
  MkService "Svc" [MkMethod "Do" ".svc.R" ".svc.R" (method_options false false true (Some (MkTopicParams ["reg(ion"] false "" false)) QUEUE)].

Definition bracket_file : FileDescriptorProto :=
  MkFile "svc.proto" (Some "svc") "example.com/svc" [] [] [MkDescriptor "R" []] [bracket_service] None.

(** protoc accepts the file, the generator prints it, and the text has a bracket that is
    closed by another kind: [topics_named_well] cannot be dropped from
    [generated_text_balanced]. *)
Theorem topic_name_unbalanced :
  let req := MkRequest ["svc.proto"] "" [bracket_file] in
  accepted_file bracket_file ∧
  ∃ t ls, prepare noParams req = Ok t ∧ file_text t 0 bracket_file = Ok ls ∧ walk (text ls) (Code, []) = None.
Proof.
  intros req. split; [by apply one_service_accepted; [plain_literal|plain_literal|done|plain_literal|by vm_compute]|].
  assert (Hok : match prepare noParams req ≫= λ t, (λ ls, walk (text ls) (Code, [])) <$> file_text t 0 bracket_file with
                | Ok None => true | _ => false end = true) by (vm_compute; reflexivity).
  destruct (prepare noParams req) as [t|]; [|done]. exists t. cbn [mbind result_bind] in Hok.
  destruct (file_text t 0 bracket_file) as [ls|]; [|done]. exists ls. split_and!; [done..|].
  cbn [fmap result_fmap] in Hok. by destruct (walk (text ls) (Code, [])).
Qed.

Lemma generated_definitions_agree_witness : ∃ t client server, generateClient t full_service = Ok client ∧ generateServer t full_service = Ok server ∧
  ∀ sd, definition sd client = definition sd server.
Proof.
  assert (Hok : is_ok (prepare noParams full_request ≫= λ t, generateClient t full_service ≫= λ _, generateServer t full_service) = true)
    by (vm_compute; reflexivity).
  destruct (bind_is_ok _ _ Hok) as (t & _ & Hok1). destruct (bind_is_ok _ _ Hok1) as (client & Hc & Hok2). destruct (is_ok_spec _ Hok2) as (server & Hs).
  exists t, client, server. split; [exact Hc|]. split; [exact Hs|].
  exact (proj1 (generated_definitions_agree t full_service client server Hc Hs)).
Defined.
