(* ===== verification/Metrics.v ===== *)
(** * Metrics.v: the interceptors that report calls ([src/pkg/middleware/metrics.go])

    The observer is the list of what it was told.  [time.Now] is a function of the world,
    [proto.Size] a parameter that gives 0 for nil.  A deferred report that follows a panic
    is left out, as the state of a call that panics is. *)
From S2P Require Import Prelude Errors Bus Info Interceptors Options Messages ClientRPC MultiRPC.

Inductive MetricRole : Type := InvalidRole | ClientRole | ServerRole.

Definition MetricRole_String (r : MetricRole) : string :=
  match r with ClientRole => "client" | ServerRole => "server" | InvalidRole => "invalid" end.

Section metrics.
Context `{GrpcApi} `{!StatusApi} `{!Codec}.

(** [MetricsObserver]'s methods. *)
Inductive event : Type :=
| OnUnaryRequest (role : MetricRole) (rpcInfo : RPCInfo) (duration : Z) (err : option error) (rxBytes txBytes : Z)
| OnMultiRequest (role : MetricRole) (rpcInfo : RPCInfo) (duration : Z) (responseCount errorCount rxBytes txBytes : Z)
| OnStreamSend (role : MetricRole) (rpcInfo : RPCInfo) (duration : Z) (err : option error) (size : Z)
| OnStreamRecv (role : MetricRole) (rpcInfo : RPCInfo) (err : option error) (size : Z)
| OnStreamOpen (role : MetricRole) (rpcInfo : RPCInfo)
| OnStreamClose (role : MetricRole) (rpcInfo : RPCInfo).

Context {W : Type} (size_of : message → Z) (now : W → Z) (observe : event → W → W).

(** [proto.Size]. *)
Definition Size (m : option message) : Z := match m with Some m => size_of m | None => 0 end.

(** ** Single requests *)

Definition newClientRPCMetricsInterceptor {R} (rpcInfo : RPCInfo) (next : handler (W := W) R) : handler R := λ req opts w,
  let start := now w in
  '(w, (res, err)) ← next req opts w;
  Some (observe (OnUnaryRequest ClientRole rpcInfo (time_Sub (now w) start) err (Size (Some req)) (Size res)) w, (res, err)).

(** The actions of the server's. *)
Inductive action : Type := Now | Observe (e : event).

Definition act (a : action) (w : W) : W * Z :=
  match a with Now => (w, now w) | Observe e => (observe e w, 0) end.

(** What the server's interceptor reports of a call. *)
Definition server_event (rpcInfo : RPCInfo) (req : message) (duration : Z) (r : option message * option error) : event :=
  let '(res, err) := r in
  if i_Multi rpcInfo then
    let '(responseCount, errorCount) := match err with None => (1, 0) | Some _ => (0, 1) end in
    OnMultiRequest ServerRole rpcInfo duration responseCount errorCount (Size (Some req)) (Size res)
  else OnUnaryRequest ServerRole rpcInfo duration err (Size (Some req)) (Size res).

Definition newServerRPCMetricsInterceptor (rpcInfo : RPCInfo) : interceptor message (option message * option error) action Z := λ req,
  Act Now (λ start, Next req (λ r, Act Now (λ t, Act (Observe (server_event rpcInfo req (time_Sub t start) r)) (λ _, Ret r)))).

(** ** Streams *)

(** [psrpc.StreamHandler]; [None] as in [handler]. *)
Record StreamHandler : Type := MkStreamHandler {
  sh_Recv : message → W → option (W * option error);
  sh_Send : message → list StreamOption → W → option (W * option error);
  sh_Close : option error → W → option (W * option error)
}.

(** [closed] and [set_closed] are the interceptor's field in the world. *)
Context (closed : W → bool) (set_closed : W → W).

Definition streamMetricsInterceptor (role : MetricRole) (info : RPCInfo) (next : StreamHandler) : StreamHandler := {|
  sh_Recv := λ msg w,
    let size := Size (Some msg) in
    '(w, err) ← sh_Recv next msg w;
    Some (observe (OnStreamRecv role info err size) w, err);
  sh_Send := λ msg opts w,
    let start := now w in
    '(w, err) ← sh_Send next msg opts w;
    Some (observe (OnStreamSend role info (time_Sub (now w) start) err (Size (Some msg))) w, err);
  sh_Close := λ cause w,
    let was := closed w in
    let w := set_closed w in
    let w := if negb was then observe (OnStreamClose role info) w else w in
    sh_Close next cause w
|}.

Definition newStreamMetricsInterceptor (role : MetricRole) (rpcInfo : RPCInfo) (next : StreamHandler) (w : W) : W * StreamHandler :=
  (observe (OnStreamOpen role rpcInfo) w, streamMetricsInterceptor role rpcInfo next).

(** ** Multi requests *)

Context {T : carried}.

(** The fields of [multiRPCMetricsInterceptor]. *)
Record multi_metrics : Type := MkMultiMetrics {
  mm_start : Z;
  mm_responseCount : Z;
  mm_errorCount : Z;
  mm_rxBytes : Z;
  mm_txBytes : Z
}.

Definition new_multi_metrics (w : W) : multi_metrics := MkMultiMetrics (now w) 0 0 0 0.

(** Its methods, which change its fields and call the next handler's. *)
Definition metrics_Send (next : ClientMultiRPCHandler (W := W) (T := T)) (req : message) (opts : list (RequestOption T)) (s : multi_metrics * W)
  : option ((multi_metrics * W) * option error) :=
  let '(r, w) := s in
  let r := MkMultiMetrics (now w) (mm_responseCount r) (mm_errorCount r) (mm_rxBytes r) (mm_txBytes r + Size (Some req)) in
  '(w, err) ← h_Send next req opts w;
  Some ((r, w), err).

Definition metrics_Recv (next : ClientMultiRPCHandler (W := W) (T := T)) (msg : option message) (err : option error) (s : multi_metrics * W)
  : option (multi_metrics * W) :=
  let '(r, w) := s in
  let '(responses, errors) := match err with
                              | None => (mm_responseCount r + 1, mm_errorCount r)
                              | Some _ => (mm_responseCount r, mm_errorCount r + 1)
                              end in
  let r := MkMultiMetrics (mm_start r) responses errors (mm_rxBytes r + Size msg) (mm_txBytes r) in
  w ← h_Recv next msg err w;
  Some (r, w).

Definition metrics_Close (info : RPCInfo) (next : ClientMultiRPCHandler (W := W) (T := T)) (s : multi_metrics * W)
  : option (multi_metrics * W) :=
  let '(r, w) := s in
  let w := observe (OnMultiRequest ClientRole info (time_Sub (now w) (mm_start r)) (mm_responseCount r) (mm_errorCount r)
                      (mm_rxBytes r) (mm_txBytes r)) w in
  w ← h_Close next w;
  Some (r, w).

(** Every response of a request passed through. *)
Fixpoint metrics_Recvs (next : ClientMultiRPCHandler (W := W) (T := T)) (rs : list (option message * option error)) (s : multi_metrics * W)
  : option (multi_metrics * W) :=
  match rs with
  | [] => Some s
  | (msg, err) :: rs => s ← metrics_Recv next msg err s; metrics_Recvs next rs s
  end.
End metrics.

(** ** The options *)

Section options.
Context `{GrpcApi} `{!StatusApi} `{!Codec} {T : carried}.

Definition WithClientMetrics (unary : ClientRPCInterceptor T) (multi : ClientMultiRPCInterceptor T) (stream : StreamInterceptor T) : ClientOption T :=
  WithClientOptions [WithClientRPCInterceptors [unary]; WithClientMultiRPCInterceptors [multi]; WithClientStreamInterceptors [stream]].
End options.

Section server_options.
Context {Req Res W A B SI RequestObserver : Type}.

Definition WithServerMetrics (unary : ServerRPCInterceptor (Req := Req) (Res := Res) (A := A) (B := B)) (stream : SI)
    : ServerOption (Req := Req) (Res := Res) (W := W) (A := A) (B := B) (SI := SI) (RequestObserver := RequestObserver) :=
  WithServerOptions [WithServerRPCInterceptors [Some unary]; WithServerStreamInterceptors [stream]].
End server_options.

(** ** What is reported *)

Section reports.
Context `{GrpcApi} `{!StatusApi} `{!Codec} {W : Type} (size_of : message → Z) (now : W → Z) (observe : event → W → W).

(** The server's interceptor calls its handler once, with its request, and returns what
    the handler does; the report is all it adds. *)
Lemma server_metrics_transparent (info : RPCInfo) (req : message) (h : message → W → W * (option message * option error)) (w : W) :
  interp (act now observe) (λ req w, Some (h req w)) (newServerRPCMetricsInterceptor size_of info req) w =
    let '(w', r) := h req w in
    Some (observe (server_event size_of info req (time_Sub (now w') (now w)) r) w', r).
Proof. simpl. by destruct (h req w) as [w' r]. Qed.

(** Both sides report the request's size as received and the response's as sent; for the
    client it is the other way round, as its reports of multi requests have it. *)
Theorem client_bytes_swapped (info : RPCInfo) (req res : message) (w : W) (sent : option (W * (option message * option error))) :
  let next : handler () := λ _ _ w, Some (w, (Some res, None)) in
  newClientRPCMetricsInterceptor size_of now observe info next req [] w =
    Some (observe (OnUnaryRequest ClientRole info (time_Sub (now w) (now w)) None (size_of req) (size_of res)) w, (Some res, None)).
Proof. done. Qed.

Context {T : carried} (next : ClientMultiRPCHandler (W := W) (T := T)).

Definition count_if (f : option error → bool) (rs : list (option message * option error)) : Z :=
  Z.of_nat (length (filter (λ r, f r.2 = true) rs)).

Definition succeeded (err : option error) : bool := match err with None => true | Some _ => false end.

Lemma count_cons f r rs : count_if f (r :: rs) = (if f r.2 then 1 else 0) + count_if f rs.
Proof. unfold count_if. rewrite filter_cons. destruct (f r.2); simpl; lia. Qed.

Lemma metrics_Recvs_counts rs r w r' w' : metrics_Recvs size_of next rs (r, w) = Some (r', w') →
  r' = MkMultiMetrics (mm_start r) (mm_responseCount r + count_if succeeded rs) (mm_errorCount r + count_if (negb ∘ succeeded) rs)
         (mm_rxBytes r + foldr (λ r n, Size size_of r.1 + n) 0 rs) (mm_txBytes r).
Proof.
  revert r w. induction rs as [|[msg err] rs IH]; intros r w; cbn [metrics_Recvs].
  - intros [= <- _]. destruct r. unfold count_if. simpl. by rewrite !Z.add_0_r.
  - unfold metrics_Recv. destruct err as [e|]; cbn [mbind option_bind]; destruct (h_Recv next msg _ w) as [w1|]; cbn [mbind option_bind]; try done;
      intros ->%IH; rewrite !count_cons; cbn [mm_start mm_responseCount mm_errorCount mm_rxBytes mm_txBytes fst snd foldr];
      unfold compose; cbn [succeeded negb]; f_equal; lia.
Qed.

(** Of a multi request the client's observer is told once, when it is closed: of its
    responses, of those that were errors, and of the bytes received and sent. *)
Theorem multi_metrics_exact (info : RPCInfo) (req : message) (opts : list (RequestOption T)) (rs : list (option message * option error))
    (w w1 w2 : W) (err : option error) (r1 r2 : multi_metrics) :
  metrics_Send size_of now next req opts (new_multi_metrics now w, w) = Some ((r1, w1), err) →
  metrics_Recvs size_of next rs (r1, w1) = Some (r2, w2) →
  metrics_Close now observe info next (r2, w2) =
    (λ w, (r2, w)) <$> h_Close next (observe (OnMultiRequest ClientRole info (time_Sub (now w2) (now w)) (count_if succeeded rs)
      (count_if (negb ∘ succeeded) rs) (foldr (λ r n, Size size_of r.1 + n) 0 rs) (size_of req)) w2).
Proof.
  unfold metrics_Send. destruct (h_Send next req opts w) as [[w' e]|]; simpl; [|done]. intros [= <- <- <-] Hr.
  rewrite (metrics_Recvs_counts _ _ _ _ _ Hr). unfold metrics_Close. simpl. by destruct (h_Close next _).
Qed.
End reports.

(** However often a stream is closed, its end is reported once: here the observer is the
    world's log. *)
Section closes.
Context `{GrpcApi} `{!StatusApi} `{!Codec} {V : Type}.

Record logged : Type := MkLogged { lg_closed : bool; lg_log : list event; lg_world : V }.

Definition log (e : event) (w : logged) : logged := MkLogged (lg_closed w) (lg_log w ++ [e]) (lg_world w).
Definition mark_closed (w : logged) : logged := MkLogged true (lg_log w) (lg_world w).

(** A handler below does not touch what is the interceptor's. *)
Definition below (f : V → option (V * option error)) (w : logged) : option (logged * option error) :=
  '(v, err) ← f (lg_world w); Some (MkLogged (lg_closed w) (lg_log w) v, err).

Fixpoint closes (h : StreamHandler (W := logged)) (causes : list (option error)) (w : logged) : option logged :=
  match causes with
  | [] => Some w
  | cause :: causes => '(w, _) ← sh_Close h cause w; closes h causes w
  end.

Theorem stream_end_reported_once (size_of : message → Z) (now : logged → Z) (role : MetricRole) (info : RPCInfo)
    (recv : message → V → option (V * option error)) (send : message → list StreamOption → V → option (V * option error))
    (close : option error → V → option (V * option error)) (causes : list (option error)) (v : V) (w' : logged) :
  let next := {| sh_Recv := λ m, below (recv m); sh_Send := λ m o, below (send m o); sh_Close := λ c, below (close c) |} in
  closes (streamMetricsInterceptor size_of now log lg_closed mark_closed role info next) causes (MkLogged false [] v) = Some w' →
  causes ≠ [] → lg_log w' = [OnStreamClose role info].
Proof.
  intros next Hc Hne. set (h := streamMetricsInterceptor size_of now log lg_closed mark_closed role info next) in *.
  assert (Hlater : ∀ causes v l w', closes h causes (MkLogged true l v) = Some w' → lg_log w' = l).
  { clear. induction causes as [|c causes IH]; intros v l w'; simpl; [by intros [= <-]|]. unfold below. simpl.
    destruct (close c v) as [[v1 e]|]; simpl; [|done]. apply IH. }
  destruct causes as [|c causes]; [done|]. simpl in Hc. unfold below in Hc. simpl in Hc.
  destruct (close c v) as [[v1 e]|]; simpl in Hc; [|done]. by apply Hlater in Hc.
Qed.
End closes.
