(* ===== verification/TestBus.v ===== *)
(** * TestBus.v: a bus with interceptors ([src/pkg/bus/interceptor.go], [src/testutils/bus.go],
    [src/testutils/unreliablebus.go])

    A message bus and a reader are their methods, on a world.  What [NewTestBus] embeds it
    forwards to.  The bus that loses messages is an interceptor of such a bus. *)
From S2P Require Import Prelude Errors Bus.

Section test_bus.
Context `{GrpcApi} `{!Codec} {W : Type}.

Definition PublishHandler : Type := Channel → message → W → W * option error.

(** [Read] and its [bool]; [None] when it does not return. *)
Definition ReadHandler : Type := W → option (W * (bytes * bool)).

Record Reader : Type := MkReader {
  rd_Read : ReadHandler;
  rd_Close : W → W * option error
}.

(** The methods that the test bus has of its own, and the rest. *)
Record TestedBus : Type := MkTestedBus {
  tb_Publish : PublishHandler;
  tb_Subscribe : Channel → Z → W → W * result error Reader;
  tb_SubscribeQueue : Channel → Z → W → W * result error Reader
}.

Definition PublishInterceptor : Type := PublishHandler → PublishHandler.
Definition SubscribeInterceptor : Type := Channel → ReadHandler → ReadHandler.

Record TestBusOpts : Type := MkTestBusOpts {
  PublishInterceptors : list PublishInterceptor;
  SubscribeInterceptors : list SubscribeInterceptor
}.

Definition TestBusOption : Type := TestBusOpts → TestBusOpts.

Definition WithPublishInterceptor (ic : PublishInterceptor) : TestBusOption := λ o,
  MkTestBusOpts (PublishInterceptors o ++ [ic]) (SubscribeInterceptors o).

Definition WithSubscribeInterceptor (ic : SubscribeInterceptor) : TestBusOption := λ o,
  MkTestBusOpts (PublishInterceptors o) (SubscribeInterceptors o ++ [ic]).

Definition WithBusOptions (opts : list TestBusOption) : TestBusOption := λ o, foldl (λ o opt, opt o) o opts.

(** The loops run from the last interceptor to the first. *)
Definition chainSubscribeInterceptors (ics : list SubscribeInterceptor) (channel : Channel) (h : ReadHandler) : ReadHandler :=
  foldl (λ h ic, ic channel h) h (reverse ics).

Definition testReader (r : Reader) (readHandler : ReadHandler) : Reader := MkReader readHandler (rd_Close r).

Definition subscribe_with (ics : list SubscribeInterceptor) (subscribe : Channel → Z → W → W * result error Reader)
    (channel : Channel) (size : Z) (w : W) : W * result error Reader :=
  let '(w, res) := subscribe channel size w in
  match res with
  | Err e => (w, Err e)
  | Ok r => (w, Ok (testReader r (chainSubscribeInterceptors ics channel (rd_Read r))))
  end.

Definition NewTestBus (bus : TestedBus) (opts : list TestBusOption) : TestedBus :=
  let o := foldl (λ o opt, opt o) (MkTestBusOpts [] []) opts in
  MkTestedBus
    (foldl (λ h ic, ic h) (tb_Publish bus) (reverse (PublishInterceptors o)))
    (subscribe_with (SubscribeInterceptors o) (tb_Subscribe bus))
    (subscribe_with (SubscribeInterceptors o) (tb_SubscribeQueue bus)).

(** ** Losing messages *)

(** [rate.Rate() > rng.Float64()], which draws a number of the subscription's source. *)
Context (loses : W → W * bool).

(** The loop of the read that [WithUnreliableBusChannel] wraps around [next]: what is lost
    is read over, for as long as there is [fuel]. *)
Fixpoint unreliable_read (fuel : nat) (next : ReadHandler) (w : W) : option (W * (bytes * bool)) :=
  match fuel with
  | O => None
  | S fuel =>
      match next w with
      | None => None
      | Some (w, (b, false)) => Some (w, (b, false))
      | Some (w, (b, true)) =>
          let '(w, lost) := loses w in
          if lost then unreliable_read fuel next w else Some (w, (b, true))
      end
  end.

Definition WithUnreliableBusChannel (fuel : nat) (channelFilter : string) : TestBusOption :=
  WithSubscribeInterceptor (λ channel next,
    if negb (bool_decide (channelFilter = "")) && negb (bool_decide (channelFilter = ch_Legacy channel)) then next
    else unreliable_read fuel next).

Definition WithUnreliableBus (fuel : nat) : TestBusOption := WithUnreliableBusChannel fuel "".

(** ** What they do *)

Lemma foldl_reverse {A B} (f : B → A → A) (a : A) (l : list B) : foldl (λ a b, f b a) a (reverse l) = foldr f a l.
Proof. revert a. induction l as [|b l IH] using rev_ind; intros a; [done|]. by rewrite reverse_snoc, foldr_snoc, <- IH. Qed.

Lemma options_collected (pubs : list PublishInterceptor) (subs : list SubscribeInterceptor) o :
  WithBusOptions ((WithPublishInterceptor <$> pubs) ++ (WithSubscribeInterceptor <$> subs)) o =
    MkTestBusOpts (PublishInterceptors o ++ pubs) (SubscribeInterceptors o ++ subs).
Proof.
  unfold WithBusOptions. revert o. induction pubs as [|ic pubs IH]; intros o; simpl.
  - revert o. induction subs as [|ic subs IH]; intros o; simpl; [by destruct o; rewrite !app_nil_r|].
    rewrite IH. simpl. by rewrite <- (assoc_L app).
  - rewrite IH. simpl. by rewrite <- (assoc_L app).
Qed.

(** The first interceptor is the outermost, of publications and of reads, and a failed
    subscription is the bus's. *)
Theorem test_bus_nested (bus : TestedBus) (pubs : list PublishInterceptor) (subs : list SubscribeInterceptor) :
  let b := NewTestBus bus ((WithPublishInterceptor <$> pubs) ++ (WithSubscribeInterceptor <$> subs)) in
  tb_Publish b = foldr (λ ic h, ic h) (tb_Publish bus) pubs ∧
  ∀ channel size w,
    (∀ w' e, tb_Subscribe bus channel size w = (w', Err e) → tb_Subscribe b channel size w = (w', Err e)) ∧
    (∀ w' r, tb_Subscribe bus channel size w = (w', Ok r) → ∃ r', tb_Subscribe b channel size w = (w', Ok r') ∧
       rd_Read r' = foldr (λ ic h, ic channel h) (rd_Read r) subs ∧ rd_Close r' = rd_Close r).
Proof.
  intros b. unfold b, NewTestBus. pose proof (options_collected pubs subs (MkTestBusOpts [] [])) as Ho.
  unfold WithBusOptions in Ho. rewrite Ho. split; [exact (foldl_reverse (λ ic h, ic h) _ _)|].
  intros channel size w. simpl. unfold subscribe_with. split.
  - by intros w' e ->.
  - intros w' r ->. eexists. split; [done|]. split; [|done]. exact (foldl_reverse (λ ic h, ic channel h) _ _).
Qed.

(** What an unreliable read returns is a read of the bus that the source did not lose, or
    its end, for which no number is drawn. *)
Theorem unreliable_read_kept fuel next w w' b ok : unreliable_read fuel next w = Some (w', (b, ok)) →
  ∃ w0 w1, next w0 = Some (w1, (b, ok)) ∧ (if ok then loses w1 = (w', false) else w' = w1).
Proof.
  revert w. induction fuel as [|fuel IH]; intros w; simpl; [done|].
  destruct (next w) as [[w1 [b1 ok1]]|] eqn:Hn; simpl; [|done]. destruct ok1.
  - destruct (loses w1) as [w2 lost] eqn:Hl. destruct lost; [apply IH|]. intros [= <- <- <-]. eauto.
  - intros [= <- <- <-]. eauto.
Qed.

(** [n] messages read and lost one after the other. *)
Inductive skips (next : ReadHandler) : nat → W → W → Prop :=
| skips_none w : skips next 0 w w
| skips_one n w w1 b w2 w3 :
    next w = Some (w1, (b, true)) → loses w1 = (w2, true) → skips next n w2 w3 → skips next (S n) w w3.

(** The loop ends with the first message that is not lost, after one round for each that is. *)
Theorem unreliable_read_returns next n w w0 w1 b w2 fuel :
  skips next n w w0 → next w0 = Some (w1, (b, true)) → loses w1 = (w2, false) → (n < fuel)%nat →
  unreliable_read fuel next w = Some (w2, (b, true)).
Proof.
  intros Hs Hn Hk. revert fuel. induction Hs as [w|n w v m u w0 Hr Hl _ IH]; intros [|fuel] Hf; try lia; simpl.
  - rewrite Hn. simpl. by rewrite Hk.
  - rewrite Hr. simpl. rewrite Hl. apply IH; [done..|lia].
Qed.
End test_bus.
