(* ===== verification/Heap.v ===== *)
(** * Heap.v: the queue of delayed messages ([readResultHeap] of [src/testutils/laggybus.go])

    The methods of the slice that [container/heap] is given, that package's [Push] and [Pop]
    on them, and what these do: the slice keeps its order and the element popped is a least
    one.  [None] is an index out of range, which panics. *)
From stdpp Require Import base list sorting.
From S2P Require Import Prelude.

Section heap.
Context {A : Type} (key : A → Z).

(** ** The methods of the slice *)

Definition Peek (v : list A) : option A := v !! 0%nat.
Definition Len (v : list A) : nat := length v.

Definition Less (v : list A) (i j : nat) : option bool :=
  a ← v !! i; b ← v !! j; Some (bool_decide (key a < key b)).

Definition Swap (v : list A) (i j : nat) : option (list A) :=
  a ← v !! i; b ← v !! j; Some (<[i := b]> (<[j := a]> v)).

Definition slice_Push (v : list A) (r : A) : list A := v ++ [r].

Definition slice_Pop (v : list A) : option (A * list A) :=
  r ← v !! pred (length v); Some (r, take (pred (length v)) v).

(** ** [container/heap] *)

(** The loop of [up]; [(j - 1) / 2] is 0 at the root, as it is in Go. *)
Fixpoint up (fuel : nat) (v : list A) (j : nat) : option (list A) :=
  match fuel with
  | O => None
  | S fuel =>
      let i := ((j - 1) / 2)%nat in
      if bool_decide (i = j) then Some v
      else
        less ← Less v j i;
        if less : bool then v ← Swap v i j; up fuel v i else Some v
  end.

(** The child of [i] below [n] that [down] looks at. *)
Definition child (v : list A) (i n : nat) : option nat :=
  let j1 := (2 * i + 1)%nat in
  let j2 := (j1 + 1)%nat in
  if bool_decide (j2 < n)%nat then less ← Less v j2 j1; Some (if less : bool then j2 else j1) else Some j1.

Fixpoint down (fuel : nat) (v : list A) (i n : nat) : option (list A) :=
  match fuel with
  | O => None
  | S fuel =>
      if bool_decide (n ≤ 2 * i + 1)%nat then Some v
      else
        j ← child v i n;
        less ← Less v j i;
        if less : bool then v ← Swap v i j; down fuel v j n else Some v
  end.

Definition Push (v : list A) (r : A) : option (list A) := up (S (length v)) (slice_Push v r) (length v).

Definition Pop (v : list A) : option (A * list A) :=
  match Len v with
  | O => None
  | S n => v ← Swap v 0 n; v ← down (S n) v 0 n; slice_Pop v
  end.

(** ** Their contract *)

(** The key at an index. *)
Definition K (v : list A) (k : nat) : Z := default 0 (key <$> v !! k).
Definition par (k : nat) : nat := ((k - 1) / 2)%nat.

Definition heap_below (n : nat) (v : list A) : Prop := ∀ k, (0 < k < n)%nat → K v (par k) ≤ K v k.
Definition heap (v : list A) : Prop := heap_below (length v) v.

Lemma par_spec k : (0 < k)%nat → k = (2 * par k + 1)%nat ∨ k = (2 * par k + 2)%nat.
Proof. unfold par. intros. pose proof (Nat.div_mod (k - 1) 2). pose proof (Nat.mod_upper_bound (k - 1) 2). lia. Qed.

Lemma par_child j k : (0 < k)%nat → par k = j ↔ k = (2 * j + 1)%nat ∨ k = (2 * j + 2)%nat.
Proof. intros Hk. pose proof (par_spec k Hk). split; intros; lia. Qed.

Lemma Less_spec v i j : (i < length v)%nat → (j < length v)%nat → Less v i j = Some (bool_decide (K v i < K v j)).
Proof. unfold Less, K. intros [a ->]%lookup_lt_is_Some_2 [b ->]%lookup_lt_is_Some_2. done. Qed.

Lemma Swap_spec v i j : (i < length v)%nat → (j < length v)%nat → ∃ v', Swap v i j = Some v' ∧ v' ≡ₚ v ∧ length v' = length v ∧
  ∀ k, v' !! k = if decide (k = i) then v !! j else if decide (k = j) then v !! i else v !! k.
Proof.
  unfold Swap. intros Hi Hj. destruct (lookup_lt_is_Some_2 v i Hi) as [a Ha], (lookup_lt_is_Some_2 v j Hj) as [b Hb].
  rewrite Ha, Hb. simpl. eexists. split; [done|]. assert (length (<[i:=b]> (<[j:=a]> v)) = length v) as Hl by (by rewrite !length_insert).
  split; [|split; [done|]].
  - destruct (decide (i = j)) as [->|Hne].
    + rewrite list_insert_insert_eq. by rewrite list_insert_id.
    + rewrite list_insert_insert_ne by done. exact (Permutation_insert_swap v i j a b Ha Hb).
  - intros k. destruct (decide (k = i)) as [->|]; [rewrite list_lookup_insert_eq; [congruence|by rewrite length_insert]|].
    rewrite list_lookup_insert_ne by done. destruct (decide (k = j)) as [->|]; [by rewrite list_lookup_insert_eq|].
    by rewrite list_lookup_insert_ne.
Qed.

(** After a swap the keys at the two indices are exchanged. *)
Lemma K_swap v v' i j :
  (∀ k, v' !! k = if decide (k = i) then v !! j else if decide (k = j) then v !! i else v !! k) →
  K v' i = K v j ∧ K v' j = K v i ∧ ∀ k, k ≠ i → k ≠ j → K v' k = K v k.
Proof.
  intros Hv. unfold K. split; [|split].
  - rewrite Hv. by rewrite decide_True.
  - rewrite Hv. destruct (decide (j = i)) as [->|]; [done|]. by rewrite decide_True.
  - intros k Hi Hj. rewrite Hv. by rewrite !decide_False.
Qed.

(** *** [up] *)

(** Ordered but for the edge above [j], across which the children of [j] are ordered. *)
Record rising (v : list A) (j : nat) : Prop := {
  rise_in : (j < length v)%nat;
  rise_edge k : (0 < k < length v)%nat → k ≠ j → K v (par k) ≤ K v k;
  rise_across k : (0 < k < length v)%nat → par k = j → (0 < j)%nat → K v (par j) ≤ K v k
}.

Lemma rising_swap v v' j : rising v j → (0 < j)%nat → K v j < K v (par j) → length v' = length v →
  (∀ k, v' !! k = if decide (k = par j) then v !! j else if decide (k = j) then v !! par j else v !! k) →
  rising v' (par j).
Proof.
  intros [Hin He Ha] Hj Hlt Hl (Hi' & Hj' & Hk')%K_swap. pose proof (par_spec j Hj) as Hp.
  split; [lia|..]; rewrite Hl; intros k Hk.
  - intros Hne. destruct (decide (k = j)) as [->|Hkj]; [lia|]. rewrite (Hk' k) by done. pose proof (par_spec k ltac:(lia)).
    destruct (decide (par k = j)) as [Hpk|]; [rewrite Hpk, Hj'; by apply Ha|].
    destruct (decide (par k = par j)) as [Hpk|]; [rewrite Hpk, Hi'; pose proof (He k Hk Hkj); rewrite Hpk in *; lia|].
    rewrite Hk' by done. by apply He.
  - intros Hpk H0. pose proof (par_spec (par j) H0). pose proof (He (par j) ltac:(lia) ltac:(lia)) as Hup.
    rewrite (Hk' (par (par j))) by lia. destruct (decide (k = j)) as [->|Hkj]; [rewrite Hj'; lia|]. pose proof (par_spec k ltac:(lia)). rewrite Hk' by lia.
    pose proof (He k Hk Hkj) as Hek. rewrite Hpk in Hek. lia.
Qed.

Lemma up_heap fuel v j : (j < fuel)%nat → rising v j → ∃ v', up fuel v j = Some v' ∧ v' ≡ₚ v ∧ heap v'.
Proof.
  revert v j. induction fuel as [|fuel IH]; intros v j Hf Hr; [lia|]. cbn [up]. fold (par j). case_bool_decide as Hroot.
  - exists v. split; [done|]. split; [done|]. intros k Hk. apply (rise_edge v j Hr); [done|]. intros ->. pose proof (par_spec j). lia.
  - assert (0 < j)%nat as Hj by (destruct j; [by unfold par in Hroot|lia]). pose proof (par_spec j Hj). pose proof (rise_in v j Hr).
    rewrite Less_spec by lia. cbn [mbind option_bind]. case_bool_decide as Hlt.
    + destruct (Swap_spec v (par j) j) as (v1 & -> & Hp & Hl & Hv); [lia..|]. cbn [mbind option_bind].
      destruct (IH v1 (par j)) as (v2 & -> & Hp2 & Hh); [lia|by eapply rising_swap|].
      exists v2. split; [done|]. split; [by rewrite Hp2|done].
    + exists v. split; [done|]. split; [done|]. intros k Hk. destruct (decide (k = j)) as [->|]; [lia|by apply (rise_edge v j Hr)].
Qed.

(** *** [down] *)

(** Of the first [n], ordered but for the edges below [i], across which they are ordered. *)
Record sinking (v : list A) (i n : nat) : Prop := {
  sink_in : (n ≤ length v)%nat;
  sink_edge k : (0 < k < n)%nat → par k ≠ i → K v (par k) ≤ K v k;
  sink_across k : (0 < k < n)%nat → par k = i → (0 < i)%nat → K v (par i) ≤ K v k
}.

Lemma child_spec v i n : (2 * i + 1 < n)%nat → (n ≤ length v)%nat → ∃ j, child v i n = Some j ∧ (j < n)%nat ∧ par j = i ∧ (i < j)%nat ∧
  ∀ k, (0 < k < n)%nat → par k = i → K v j ≤ K v k.
Proof.
  intros Hi Hn. unfold child. case_bool_decide as H2.
  - rewrite Less_spec by lia. cbn [mbind option_bind]. case_bool_decide as Hlt; eexists; (split; [done|]);
      (split; [lia|]); (split; [apply par_child; lia|]); (split; [lia|]);
      intros k Hk [->| ->]%par_child; try lia;
      replace (2 * i + 2)%nat with (2 * i + 1 + 1)%nat by lia; lia.
  - eexists. split; [done|]. split; [lia|]. split; [apply par_child; lia|]. split; [lia|]. intros k Hk [->| ->]%par_child; lia.
Qed.

Lemma sinking_swap v v' i j n : sinking v i n → (0 < j < n)%nat → par j = i → K v j < K v i → (∀ k, (0 < k < n)%nat → par k = i → K v j ≤ K v k) →
  length v' = length v → (∀ k, v' !! k = if decide (k = i) then v !! j else if decide (k = j) then v !! i else v !! k) →
  sinking v' j n.
Proof.
  intros [Hin He Ha] Hj Hp Hlt Hmin Hl (Hi' & Hj' & Hk')%K_swap. pose proof (par_spec j ltac:(lia)).
  split; [lia|..]; intros k Hk Hpk; pose proof (par_spec k ltac:(lia)).
  - destruct (decide (k = j)) as [->|Hkj]; [rewrite Hp, Hi', Hj'; lia|].
    destruct (decide (k = i)) as [->|Hki]; [rewrite Hi', Hk' by lia; apply (Ha j); [done|done|lia]|].
    rewrite (Hk' k) by done. destruct (decide (par k = i)) as [Hpi|]; [rewrite Hpi, Hi'; by apply Hmin|].
    rewrite Hk' by done. by apply He.
  - intros _. rewrite Hp, Hi', Hk' by lia. specialize (He k Hk ltac:(lia)). by rewrite Hpk in He.
Qed.

Lemma down_heap fuel v i n : (n < fuel + i)%nat → (0 < fuel)%nat → sinking v i n →
  ∃ v', down fuel v i n = Some v' ∧ v' ≡ₚ v ∧ heap_below n v' ∧ ∀ k, (n ≤ k)%nat → v' !! k = v !! k.
Proof.
  revert v i. induction fuel as [|fuel IH]; intros v i Hf Hi Hs; [lia|]. cbn [down]. case_bool_decide as Hleaf.
  - exists v. split; [done|]. split; [done|]. split; [|done]. intros k Hk. apply (sink_edge v i n Hs); [done|].
    intros ?%par_child; lia.
  - destruct (child_spec v i n) as (j & -> & Hj & Hpj & Hij & Hmin); [lia|by apply Hs|]. cbn [mbind option_bind].
    pose proof (sink_in v i n Hs). rewrite Less_spec by lia. cbn [mbind option_bind]. case_bool_decide as Hlt.
    + destruct (Swap_spec v i j) as (v1 & -> & Hp & Hl & Hv); [lia..|]. cbn [mbind option_bind].
      destruct (IH v1 j) as (v2 & -> & Hp2 & Hh & Hk); [lia..| |].
      { eapply sinking_swap; [done|lia|done|done|done|done|done]. }
      exists v2. split; [done|]. split; [by rewrite Hp2|]. split; [done|]. intros k Hnk. rewrite Hk, Hv by done.
      rewrite !decide_False by lia. done.
    + exists v. split; [done|]. split; [done|]. split; [|done]. intros k Hk. destruct (decide (par k = i)) as [Hpi|].
      * specialize (Hmin k Hk Hpi). rewrite Hpi. lia.
      * by apply (sink_edge v i n Hs).
Qed.

(** *** [Push] and [Pop] *)

Lemma K_app v r k : (k < length v)%nat → K (v ++ [r]) k = K v k.
Proof. intros. unfold K. by rewrite lookup_app_l. Qed.

(** A push keeps the order and adds its element. *)
Theorem Push_heap v r : heap v → ∃ v', Push v r = Some v' ∧ v' ≡ₚ r :: v ∧ heap v'.
Proof.
  intros Hh. unfold Push, slice_Push. destruct (up_heap (S (length v)) (v ++ [r]) (length v)) as (v' & -> & Hp & Hh'); [lia| |].
  - split; rewrite ?length_app; simpl; [lia|..].
    + intros k Hk Hne. pose proof (par_spec k ltac:(lia)). rewrite !K_app by lia. apply Hh. lia.
    + intros k Hk Hpk H0. pose proof (par_spec k ltac:(lia)). lia.
  - exists v'. split; [done|]. split; [|done]. rewrite Hp. by rewrite (comm (++)).
Qed.

Lemma heap_root v k : heap v → (k < length v)%nat → K v 0 ≤ K v k.
Proof.
  intros Hh. induction (lt_wf k) as [k _ IH]. intros Hk. destruct k as [|k]; [lia|]. pose proof (par_spec (S k) ltac:(lia)).
  transitivity (K v (par (S k))); [apply IH; lia|]. apply Hh. lia.
Qed.

(** The element at the root is a least one. *)
Lemma heap_least v r : heap v → Peek v = Some r → ∀ x, x ∈ v → key r ≤ key x.
Proof.
  intros Hh Hr x [k Hk]%list_elem_of_lookup. pose proof (heap_root v k Hh (lookup_lt_Some _ _ _ Hk)) as Hle.
  unfold K in Hle. unfold Peek in Hr. rewrite Hr, Hk in Hle. exact Hle.
Qed.

(** A pop takes the root, a least element, and keeps the order. *)
Theorem Pop_heap v r : heap v → Peek v = Some r →
  ∃ v', Pop v = Some (r, v') ∧ v ≡ₚ r :: v' ∧ heap v' ∧ ∀ x, x ∈ v' → key r ≤ key x.
Proof.
  intros Hh Hr. pose proof (heap_least v r Hh Hr) as Hleast. unfold Peek in Hr. unfold Pop, Len.
  destruct (length v) as [|n] eqn:Hn; [by apply lookup_lt_Some in Hr; lia|].
  destruct (Swap_spec v 0 n) as (v1 & -> & Hp1 & Hl1 & Hv1); [lia..|]. cbn [mbind option_bind].
  destruct (down_heap (S n) v1 0 n) as (v2 & -> & Hp2 & Hh2 & Hlast); [lia|lia| |].
  { pose proof (K_swap _ _ _ _ Hv1) as (_ & _ & Hk). split; [lia| |lia]. intros k Hk0 Hpk. pose proof (par_spec k ltac:(lia)).
    rewrite !Hk by lia. apply Hh. lia. }
  cbn [mbind option_bind]. unfold slice_Pop.
  assert (length v2 = S n) as Hl2 by (rewrite (Permutation_length Hp2); lia). rewrite Hl2. simpl.
  assert (v2 !! n = Some r) as Hn2.
  { rewrite Hlast, Hv1 by lia. destruct (decide (n = 0%nat)) as [->|]; [done|]. by rewrite decide_True. }
  rewrite Hn2. simpl. eexists. split; [done|].
  assert (v ≡ₚ r :: take n v2) as Hp.
  { rewrite <- Hp1, <- Hp2. rewrite <- (take_drop n v2) at 1. rewrite (drop_S v2 r n Hn2), drop_ge by lia. by rewrite (comm (++)). }
  split; [done|]. split.
  - intros k Hk. rewrite length_take_le in Hk by lia. pose proof (par_spec k ltac:(lia)). unfold K. rewrite !lookup_take_lt by lia.
    apply Hh2. lia.
  - intros x Hx. apply Hleast. rewrite Hp. by right.
Qed.
End heap.
