(* ===== verification/LaggyBus.v ===== *)
(** * LaggyBus.v: a bus that delays messages ([src/testutils/laggybus.go])

    The publications stamped with their origin and time, and the reader that hands each
    message out when its latency has passed: [Copy]'s goroutine, the reads of the caller,
    the timer they share and the clock, as interleaved steps.  What holds the mutex is one
    step. *)
From stdpp Require Import base list strings.
From S2P Require Import Prelude Errors Bus Heap TestBus.

(** [LaggyMessage] of [src/testutils/testutils.proto]. *)
Record LaggyMessage : Type := MkLaggyMessage { lm_Origin : string; lm_SentAt : Z; lm_Body : bytes }.

(** ** Publications *)

Section publish.
Context `{GrpcApi} `{!Codec} {W Any : Type} (now : W → Z).

(** [anypb.New], [proto.Marshal] of what it makes, and the message as a [proto.Message]. *)
Context (anypb_New : message → result error Any) (Marshal : Any → result error bytes) (as_message : LaggyMessage → message).

Definition laggy_publish (id : string) (next : PublishHandler (W := W)) : PublishHandler (W := W) := λ channel msg w,
  match anypb_New msg with
  | Err e => (w, Some e)
  | Ok a =>
      match Marshal a with
      | Err e => (w, Some e)
      | Ok b => next channel (as_message (MkLaggyMessage id (int64 (now w)) b)) w
      end
  end.
End publish.

(** ** Reads *)

(** A [*readResult]: its address, and what it points to. *)
Record readResult : Type := MkReadResult { rr_ptr : nat; rr_time : Z; rr_body : bytes; rr_ok : bool }.

(** Where [Copy] is: at the loop's condition, in [read], in [pushRead], past the loop, in
    the last [pushRead], or returned. *)
Inductive copier : Type :=
| CLoop
| CRead
| CPush (r : readResult)
| CEnd
| CPushEnd (r : readResult)
| CDone.

(** The caller: outside [Read], at the timer's channel, or at [popRead]. *)
Inductive caller : Type := RIdle | RWait | RPop.
#[global] Instance caller_eq_dec : EqDecision caller.
Proof. solve_decision. Defined.

(** [l_timer] is when the timer fires, [None] once it has been received from or stopped.
    [l_pushed] and [l_popped] record what [pushRead] and [popRead] were given and gave,
    these with the time. *)
Record laggy : Type := MkLaggy {
  l_now : Z;
  l_rh : list readResult;
  l_timer : option Z;
  l_copier : copier;
  l_caller : caller;
  l_done : bool;
  l_next : nat;
  l_pushed : list readResult;
  l_popped : list (Z * readResult)
}.

(** [math.MaxInt64], in whose nanoseconds the runtime's clock counts. *)
Definition max_int64 : Z := 2 ^ 63 - 1.

(** [Reset(d)] at [now]: the runtime's deadline does not pass the end of its clock. *)
Definition Reset (now d : Z) : option Z := Some (Z.min max_int64 (now + Z.max 0 d)).

(** [Stop]: whether it was pending, which it no longer is. *)
Definition Stop (timer : option Z) : bool * option Z := (bool_decide (is_Some timer), None).

Definition Until (now t : Z) : Z := time_Sub t now.

Definition newLaggySubscribeInterceptor (now : Z) : laggy :=
  MkLaggy now [] (Reset now max_int64) CLoop RIdle false 0 [] [].

(** The slice and the timer after [pushRead]. *)
Definition pushRead (now : Z) (rh : list readResult) (timer : option Z) (r : readResult) : option (list readResult * option Z) :=
  rh ← Push rr_time rh r;
  head ← Peek rh;
  if bool_decide (rr_ptr head = rr_ptr r) then
    let '(stopped, timer) := Stop timer in
    Some (rh, if stopped then Reset now (Until now (rr_time r)) else timer)
  else Some (rh, timer).

(** The result popped too. *)
Definition popRead (now : Z) (rh : list readResult) (timer : option Z) : option (readResult * (list readResult * option Z)) :=
  '(r, rh) ← Pop rr_time rh;
  match Peek rh with
  | Some head => Some (r, (rh, Reset now (Until now (rr_time head))))
  | None => Some (r, (rh, if rr_ok r then Reset now max_int64 else timer))
  end.

(** The clock, the end of the context, the steps of [Copy] with what its [read] returns, a
    call of [Read], its receive from the timer, and its [popRead]. *)
Inductive llabel : Type :=
| LTick (t : Z)
| LCancel
| LLoop
| LRead (b : bytes) (ok : bool)
| LEnd
| LPush
| LCall
| LFire
| LPop.

Inductive loutcome : Type := LNext (l : laggy) | LBlocked | LPanic.

Section laggy.
(** [proto.Unmarshal] to an [Any] and its [UnmarshalTo], and the latency. *)
Context (unpack : bytes → option LaggyMessage) (id : string) (latency : string → string → Z).

Definition with_copier (l : laggy) (c : copier) : laggy :=
  MkLaggy (l_now l) (l_rh l) (l_timer l) c (l_caller l) (l_done l) (l_next l) (l_pushed l) (l_popped l).

(** The allocation of a result. *)
Definition alloc (l : laggy) (t : Z) (b : bytes) (ok : bool) (c : readResult → copier) : laggy :=
  MkLaggy (l_now l) (l_rh l) (l_timer l) (c (MkReadResult (l_next l) t b ok)) (l_caller l) (l_done l) (S (l_next l))
    (l_pushed l) (l_popped l).

Definition push (l : laggy) (r : readResult) (c : copier) : loutcome :=
  match pushRead (l_now l) (l_rh l) (l_timer l) r with
  | None => LPanic
  | Some (rh, timer) =>
      LNext (MkLaggy (l_now l) rh timer c (l_caller l) (l_done l) (l_next l) (l_pushed l ++ [r]) (l_popped l))
  end.

Definition laggy_step (lb : llabel) (l : laggy) : loutcome :=
  match lb with
  | LTick t =>
      if bool_decide (l_now l ≤ t < max_int64) then
        LNext (MkLaggy t (l_rh l) (l_timer l) (l_copier l) (l_caller l) (l_done l) (l_next l) (l_pushed l) (l_popped l))
      else LBlocked
  | LCancel =>
      LNext (MkLaggy (l_now l) (l_rh l) (l_timer l) (l_copier l) (l_caller l) true (l_next l) (l_pushed l) (l_popped l))
  | LLoop => match l_copier l with CLoop => LNext (with_copier l (if l_done l then CEnd else CRead)) | _ => LBlocked end
  | LRead b ok =>
      match l_copier l with
      | CRead =>
          if ok then
            match unpack b with
            | None => LNext (with_copier l CEnd)
            | Some m => LNext (alloc l (lm_SentAt m + latency (lm_Origin m) id) (lm_Body m) ok CPush)
            end
          else LNext (with_copier l CEnd)
      | _ => LBlocked
      end
  | LEnd => match l_copier l with CEnd => LNext (alloc l (l_now l) [] false CPushEnd) | _ => LBlocked end
  | LPush =>
      match l_copier l with
      | CPush r => push l r CLoop
      | CPushEnd r => push l r CDone
      | _ => LBlocked
      end
  | LCall =>
      match l_caller l with
      | RIdle => LNext (MkLaggy (l_now l) (l_rh l) (l_timer l) (l_copier l) RWait (l_done l) (l_next l) (l_pushed l) (l_popped l))
      | _ => LBlocked
      end
  | LFire =>
      match l_caller l, l_timer l with
      | RWait, Some d =>
          if bool_decide (d ≤ l_now l) then
            LNext (MkLaggy (l_now l) (l_rh l) None (l_copier l) RPop (l_done l) (l_next l) (l_pushed l) (l_popped l))
          else LBlocked
      | _, _ => LBlocked
      end
  | LPop =>
      match l_caller l with
      | RPop =>
          match popRead (l_now l) (l_rh l) (l_timer l) with
          | None => LPanic
          | Some (r, (rh, timer)) =>
              LNext (MkLaggy (l_now l) rh timer (l_copier l) RIdle (l_done l) (l_next l) (l_pushed l) (l_popped l ++ [(l_now l, r)]))
          end
      | _ => LBlocked
      end
  end.

Fixpoint laggy_run (lbs : list llabel) (l : laggy) : option laggy :=
  match lbs with
  | [] => Some l
  | lb :: lbs => match laggy_step lb l with LNext l => laggy_run lbs l | _ => None end
  end.
End laggy.

(** ** Invariant *)

(** The timer a caller waits for, given the queue: at the end of the clock when there is
    nothing to wait for, received from when the end has been read, or at the time of the
    first result, unless that had passed when the timer was set. *)
Definition timer_ok (now : Z) (rh : list readResult) (timer : option Z) (c : copier) (p : caller) : Prop :=
  match p, Peek rh with
  | RPop, None => False
  | RPop, Some head => timer = None ∧ rr_time head ≤ now
  | _, None => timer = Some max_int64 ∨ timer = None ∧ c = CDone
  | _, Some head => ∃ set, set ≤ now ∧ timer = Some (Z.min max_int64 (Z.max set (rr_time head)))
  end.

(** The result that [Copy] holds. *)
Definition held (c : copier) : list readResult := match c with CPush r | CPushEnd r => [r] | _ => [] end.

Record laggy_inv (l : laggy) : Prop := {
  li_clock : 0 ≤ l_now l < max_int64;
  li_heap : heap rr_time (l_rh l);
  li_timer : timer_ok (l_now l) (l_rh l) (l_timer l) (l_copier l) (l_caller l);
  li_fresh r : r ∈ held (l_copier l) ++ l_rh l → (rr_ptr r < l_next l)%nat;
  li_held r x : r ∈ held (l_copier l) → x ∈ l_rh l → rr_ptr r ≠ rr_ptr x;
  li_end r : r ∈ l_rh l → rr_ok r = false → l_copier l = CDone;
  li_kind r : l_copier l = CPush r → rr_ok r = true;
  li_once : l_pushed l ≡ₚ (snd <$> l_popped l) ++ l_rh l;
  li_late t r : (t, r) ∈ l_popped l → rr_time r ≤ t
}.

Lemma Reset_Until now t : 0 ≤ now → Reset now (Until now t) = Some (Z.min max_int64 (Z.max now t)).
Proof. unfold Reset, Until, time_Sub, max_int64. intros. f_equal. lia. Qed.

Lemma Peek_in (v : list readResult) r : Peek v = Some r → r ∈ v.
Proof. apply list_elem_of_lookup_2. Qed.

Lemma Peek_none (v : list readResult) : Peek v = None → v = [].
Proof. by destruct v. Qed.

(** Of two ordered queues, the one with an element more has it first, or one as early as
    the first of the other. *)
Lemma Peek_push v v' r : heap rr_time v → heap rr_time v' → v' ≡ₚ r :: v → ∃ head, Peek v' = Some head ∧
  (head = r ∧ (∀ x, x ∈ v → rr_time r ≤ rr_time x) ∨ head ∈ v ∧ ∃ old, Peek v = Some old ∧ rr_time head = rr_time old).
Proof.
  intros Hv Hv' Hp. destruct (Peek v') as [head|] eqn:Hh.
  2:{ apply Peek_none in Hh as ->. by apply Permutation_nil_cons in Hp. }
  exists head. split; [done|]. pose proof (heap_least _ _ _ Hv' Hh) as Hl.
  assert (head ∈ r :: v) as [->|Hin]%elem_of_cons by (rewrite <- Hp; by apply Peek_in).
  - left. split; [done|]. intros x Hx. apply Hl. rewrite Hp. by right.
  - right. split; [done|]. destruct (Peek v) as [old|] eqn:Ho; [|by apply Peek_none in Ho as ->; apply elem_of_nil in Hin].
    exists old. split; [done|]. pose proof (heap_least _ _ _ Hv Ho head Hin). pose proof (Peek_in _ _ Ho).
    assert (rr_time head ≤ rr_time old) by (apply Hl; rewrite Hp; by right). lia.
Qed.

(** What [pushRead] does to a queue and its timer. *)
Lemma pushRead_ok now v timer c c' p r : 0 ≤ now → heap rr_time v → timer_ok now v timer c p → c ≠ CDone →
  (∀ x, x ∈ v → rr_ptr r ≠ rr_ptr x) →
  ∃ v' timer', pushRead now v timer r = Some (v', timer') ∧ v' ≡ₚ r :: v ∧ heap rr_time v' ∧ timer_ok now v' timer' c' p.
Proof.
  intros Hn Hv Ht Hc Hr. unfold pushRead. destruct (Push_heap rr_time v r Hv) as (v' & -> & Hp & Hv'). cbn [mbind option_bind].
  destruct (Peek_push v v' r Hv Hv' Hp) as (head & Hh & Hcase). rewrite Hh. cbn [mbind option_bind]. unfold timer_ok in Ht |- *.
  destruct Hcase as [[-> Hleast]|(Hin & old & Ho & Hto)].
  - rewrite bool_decide_true by done. unfold Stop. eexists _, _. split; [done|]. split; [done|]. split; [done|]. rewrite Hh.
    destruct (Peek v) as [old|] eqn:Ho.
    + destruct p; [destruct Ht as (set & Hset & ->); rewrite bool_decide_true, Reset_Until by eauto; by exists now..|].
      destruct Ht as [-> Hle]. rewrite bool_decide_false by (by intros []). split; [done|]. apply Peek_in, Hleast in Ho. lia.
    + destruct p; [destruct Ht as [->|[_ ?]]; [|done]; rewrite bool_decide_true, Reset_Until by eauto; by exists now..|done].
  - rewrite bool_decide_false by (intros ?; by apply (Hr head)). eexists _, _. split; [done|]. split; [done|]. split; [done|].
    rewrite Hh. rewrite Ho in Ht. by rewrite Hto.
Qed.

(** And [popRead], for a caller who received from the timer. *)
Lemma popRead_ok now v timer c : 0 ≤ now → heap rr_time v → timer_ok now v timer c RPop →
  (∀ r, r ∈ v → rr_ok r = false → c = CDone) →
  ∃ r v' timer', popRead now v timer = Some (r, (v', timer')) ∧ v ≡ₚ r :: v' ∧ heap rr_time v' ∧
    rr_time r ≤ now ∧ (∀ x, x ∈ v' → rr_time r ≤ rr_time x) ∧ timer_ok now v' timer' c RIdle.
Proof.
  intros Hn Hv Ht He. unfold timer_ok in Ht. destruct (Peek v) as [r|] eqn:Hr; [|done]. destruct Ht as [-> Hle].
  unfold popRead. destruct (Pop_heap rr_time v r Hv Hr) as (v' & -> & Hp & Hv' & Hleast). cbn [mbind option_bind].
  destruct (Peek v') as [head|] eqn:Hh; eexists _, _, _; (split; [done|]); (split; [done|]); (split; [done|]); (split; [done|]);
    (split; [done|]); unfold timer_ok; rewrite Hh.
  - exists now. split; [done|]. by apply Reset_Until.
  - destruct (rr_ok r) eqn:Hok.
    + left. unfold Reset, max_int64. f_equal. lia.
    + right. split; [done|]. apply (He r); [by apply Peek_in|done].
Qed.

Section laggy_lemmas.
Context (unpack : bytes → option LaggyMessage) (id : string) (latency : string → string → Z).

Lemma laggy_init now : 0 ≤ now < max_int64 → laggy_inv (newLaggySubscribeInterceptor now).
Proof.
  intros Hn. split; [exact Hn|..]; try done.
  - left. simpl. unfold Reset, max_int64. f_equal. lia.
  - by intros r ?%elem_of_nil.
  - by intros r x ?%elem_of_nil.
  - by intros r ?%elem_of_nil.
  - by intros t r ?%elem_of_nil.
Qed.

Lemma timer_ok_tick now now' rh timer c p : now ≤ now' → timer_ok now rh timer c p → timer_ok now' rh timer c p.
Proof.
  unfold timer_ok. intros Hle. destruct p, (Peek rh); try done; try (intros (set & Hs & ->); exists set; split; [lia|done]).
  intros [-> Ht]. split; [done|lia].
Qed.

(** Steps of [Copy] that leave the queue alone. *)
Lemma timer_ok_copier now rh timer c c' p : c ≠ CDone → timer_ok now rh timer c p → timer_ok now rh timer c' p.
Proof. unfold timer_ok. intros Hc. destruct p, (Peek rh); try done; intros [->|[_ ?]]; by try left. Qed.

Lemma push_inv l r c c' : laggy_inv l → l_copier l = c → (c = CPush r ∧ c' = CLoop ∨ c = CPushEnd r ∧ c' = CDone) →
  ∃ l', push l r c' = LNext l' ∧ laggy_inv l'.
Proof.
  intros [Hn Hh Ht Hf Hd He Hk Ho Hl] Hc Hcase. assert (held (l_copier l) = [r]) as Hheld by (rewrite Hc; by destruct Hcase as [[-> _]|[-> _]]).
  rewrite Hheld in Hf, Hd. assert (l_copier l ≠ CDone) as Hnd by (intros Hx; by rewrite Hx in Hheld).
  destruct (pushRead_ok (l_now l) (l_rh l) (l_timer l) (l_copier l) c' (l_caller l) r) as (v & t & Hp & Hv & Hhv & Htv);
    [lia|done|done|done|intros x Hx; apply Hd; [by apply list_elem_of_singleton|done]|].
  unfold push. rewrite Hp. eexists. split; [done|]. assert (held c' = []) as Hc' by (by destruct Hcase as [[_ ->]|[_ ->]]).
  split; simpl; rewrite ?Hc'; [done|done|done| |by intros ? ? ?%elem_of_nil| | | |done].
  - intros x Hx. simpl in Hx. rewrite Hv in Hx. by apply Hf.
  - intros x. rewrite Hv. intros [->|Hx]%elem_of_cons Hok.
    + destruct Hcase as [[-> _]|[_ ->]]; [by rewrite (Hk r Hc) in Hok|done].
    + by apply He in Hx.
  - intros r'. by destruct Hcase as [[_ ->]|[_ ->]].
  - rewrite Hv, Ho. by rewrite <- (assoc_L app), (Permutation_app_comm _ [r]).
Qed.

Lemma with_copier_inv l c : laggy_inv l → l_copier l ≠ CDone → held c = [] → laggy_inv (with_copier l c).
Proof.
  intros [Hn Hh Ht Hf Hd He Hk Ho Hl] Hc Hheld.
  split; simpl; rewrite ?Hheld; [done|done|by eapply timer_ok_copier| |by intros ? ? ?%elem_of_nil| |by intros r ->|done|done].
  - intros r Hr. apply Hf, elem_of_app. by right.
  - intros r Hr Hok. destruct Hc. by apply (He r).
Qed.

Lemma alloc_inv l t b ok c : laggy_inv l → l_copier l ≠ CDone → (∀ r, held (c r) = [r] ∧ (∀ r', c r = CPush r' → r' = r ∧ ok = true)) →
  laggy_inv (alloc l t b ok c).
Proof.
  intros [Hn Hh Ht Hf Hd He Hk Ho Hl] Hc Hheld. unfold alloc. set (r := MkReadResult _ _ _ _). destruct (Hheld r) as [Hr Hp].
  assert (∀ x, x ∈ l_rh l → (rr_ptr x < l_next l)%nat) as Hlt by (intros x Hx; apply Hf, elem_of_app; by right).
  split; simpl; rewrite ?Hr; [done|done|by eapply timer_ok_copier| | | | |done|done].
  - intros x [->|Hx]%elem_of_cons; simpl; [lia|]. specialize (Hlt x Hx). lia.
  - intros x y ->%list_elem_of_singleton Hy. specialize (Hlt y Hy). simpl. lia.
  - intros x Hx Hok. destruct Hc. by apply (He x).
  - by intros x [-> ->]%Hp.
Qed.

Lemma popped_inv l : laggy_inv l → l_caller l = RPop → ∃ r l',
  laggy_step unpack id latency LPop l = LNext l' ∧ laggy_inv l' ∧ l_popped l' = l_popped l ++ [(l_now l, r)] ∧
  l_rh l ≡ₚ r :: l_rh l' ∧ (∀ x, x ∈ l_rh l' → rr_time r ≤ rr_time x).
Proof.
  intros [Hn Hh Ht Hf Hd He Hk Ho Hl] Hp. cbn [laggy_step]. rewrite Hp in *.
  destruct (popRead_ok (l_now l) (l_rh l) (l_timer l) (l_copier l)) as (r & v & t & -> & Hv & Hhv & Hle & Hmin & Htv); [lia|done..|].
  exists r. eexists. split; [done|]. split; [|done].
  assert (∀ x, x ∈ v → x ∈ l_rh l) as Hsub by (intros x Hx; rewrite Hv; by right).
  split; simpl; [done|done|done| | | |done| |].
  - intros x [Hx|Hx]%elem_of_app; apply Hf, elem_of_app; [by left|right; by apply Hsub].
  - intros x y Hx Hy. apply Hd; [done|by apply Hsub].
  - intros x Hx. by apply He, Hsub.
  - rewrite Ho, Hv, fmap_app. simpl. by rewrite <- (assoc_L app).
  - intros t' x [Hx|Hx]%elem_of_app; [by eapply Hl|]. apply list_elem_of_singleton in Hx. by injection Hx as -> ->.
Qed.

Lemma laggy_step_inv l lb : laggy_inv l → match laggy_step unpack id latency lb l with LNext l' => laggy_inv l' | LBlocked => True | LPanic => False end.
Proof.
  intros Hi. destruct lb as [t| | |b ok| | | | |].
  - simpl. case_bool_decide as Ht; [|done]. destruct Hi. split; try done; simpl; [lia|]. apply (timer_ok_tick (l_now l)); [lia|done].
  - destruct Hi. by split.
  - simpl. destruct (l_copier l) eqn:Hc; try done. apply with_copier_inv; [done|congruence|by destruct (l_done l)].
  - simpl. destruct (l_copier l) eqn:Hc; try done. destruct ok; [destruct (unpack b) as [m|]|].
    + apply alloc_inv; [done|congruence|]. intros r. split; [done|]. by intros r' [= ->].
    + apply with_copier_inv; [done|congruence|done].
    + apply with_copier_inv; [done|congruence|done].
  - simpl. destruct (l_copier l) eqn:Hc; try done. apply alloc_inv; [done|congruence|done].
  - simpl. destruct (l_copier l) as [| |r| |r|] eqn:Hc; try done.
    + destruct (push_inv l r (CPush r) CLoop) as (l' & -> & Hi'); auto.
    + destruct (push_inv l r (CPushEnd r) CDone) as (l' & -> & Hi'); auto.
  - simpl. destruct (l_caller l) eqn:Hp; try done. destruct Hi. split; try done. simpl. by rewrite Hp in *.
  - simpl. destruct (l_caller l) eqn:Hp; try done. destruct (l_timer l) as [d|] eqn:Hd; [|done]. case_bool_decide as Hle; [|done].
    destruct Hi as [Hn Hh Ht]. split; try done. simpl. unfold timer_ok in *. rewrite Hp, Hd in Ht.
    destruct (Peek (l_rh l)) as [head|]; [|destruct Ht as [Heq|[? _]]; [injection Heq as ->; lia|done]].
    destruct Ht as (set & Hs & [= ->]). split; [done|lia].
  - destruct (decide (l_caller l = RPop)) as [Hp|Hp].
    + by destruct (popped_inv l Hi Hp) as (r & l' & -> & Hi' & _).
    + simpl. by destruct (l_caller l).
Qed.

Lemma laggy_run_inv lbs l l' : laggy_inv l → laggy_run unpack id latency lbs l = Some l' → laggy_inv l'.
Proof.
  revert l. induction lbs as [|lb lbs IH]; intros l Hi; simpl; [by intros [= <-]|].
  pose proof (laggy_step_inv l lb Hi) as Hs. destruct (laggy_step unpack id latency lb l); try done. by apply IH.
Qed.

Lemma laggy_run_app lbs lbs' l l' : laggy_run unpack id latency lbs l = Some l' →
  laggy_run unpack id latency (lbs ++ lbs') l = laggy_run unpack id latency lbs' l'.
Proof.
  revert l. induction lbs as [|lb lbs IH]; intros l; simpl; [by intros [= ->]|].
  destruct (laggy_step unpack id latency lb l); try done. apply IH.
Qed.

(** ** What it does *)

(** No step panics: the queue is never empty when [popRead] is called. *)
Theorem laggy_never_panics now lbs l lb : 0 ≤ now < max_int64 →
  laggy_run unpack id latency lbs (newLaggySubscribeInterceptor now) = Some l → laggy_step unpack id latency lb l ≠ LPanic.
Proof.
  intros Hn Hr Hp. pose proof (laggy_step_inv l lb (laggy_run_inv _ _ _ (laggy_init now Hn) Hr)) as Hs. by rewrite Hp in Hs.
Qed.

(** Every result that [Copy] pushed is read once or waits in the queue, nothing else is
    read, and nothing before its time. *)
Theorem laggy_delivers now lbs l : 0 ≤ now < max_int64 →
  laggy_run unpack id latency lbs (newLaggySubscribeInterceptor now) = Some l →
  l_pushed l ≡ₚ (snd <$> l_popped l) ++ l_rh l ∧ ∀ t r, (t, r) ∈ l_popped l → rr_time r ≤ t.
Proof. intros Hn Hr. destruct (laggy_run_inv _ _ _ (laggy_init now Hn) Hr). done. Qed.

(** A caller who waits while results do is given one when the first is due: the receive
    and the pop can then be taken, and give a result of which none that waits is earlier. *)
Theorem laggy_wakes now lbs l head : 0 ≤ now < max_int64 →
  laggy_run unpack id latency lbs (newLaggySubscribeInterceptor now) = Some l →
  l_caller l = RWait → Peek (l_rh l) = Some head → rr_time head < max_int64 →
  ∃ r l', laggy_run unpack id latency [LTick (Z.max (l_now l) (rr_time head)); LFire; LPop] l = Some l' ∧
    l_popped l' = l_popped l ++ [(Z.max (l_now l) (rr_time head), r)] ∧ l_rh l ≡ₚ r :: l_rh l' ∧
    ∀ x, x ∈ l_rh l' → rr_time r ≤ rr_time x.
Proof.
  intros Hn Hr Hc Hp Hlt. pose proof (laggy_run_inv _ _ _ (laggy_init now Hn) Hr) as Hi. set (t := Z.max (l_now l) (rr_time head)).
  pose proof (li_clock l Hi) as Hcl. pose proof (li_timer l Hi) as Ht. unfold timer_ok in Ht. rewrite Hc, Hp in Ht.
  destruct Ht as (set & Hs & Hd).
  assert (∃ l2, laggy_run unpack id latency [LTick t; LFire] l = Some l2 ∧ l_caller l2 = RPop ∧ l_now l2 = t ∧
            l_popped l2 = l_popped l ∧ l_rh l2 = l_rh l) as (l2 & Hr2 & Hc2 & Ht2 & Hp2 & Hrh2).
  { simpl. rewrite bool_decide_true by (unfold t; lia). simpl. rewrite Hc, Hd, bool_decide_true by (unfold t; lia). by eexists. }
  destruct (popped_inv l2 (laggy_run_inv _ _ _ Hi Hr2) Hc2) as (r & l' & Hs' & _ & Hpop & Hrh & Hmin).
  exists r, l'. rewrite Ht2, Hp2 in Hpop. rewrite Hrh2 in Hrh. split; [|done].
  change [LTick t; LFire; LPop] with ([LTick t; LFire] ++ [LPop]). rewrite (laggy_run_app _ _ l l2 Hr2). cbn [laggy_run]. by rewrite Hs'.
Qed.
End laggy_lemmas.

(** ** Examples *)

(** Messages of a bus on which each is sent at 0 and takes ten. *)
Definition unpack_ten (b : bytes) : option LaggyMessage := Some (MkLaggyMessage "a" 0 b).
Definition take_in (body : string) : list llabel := [LLoop; LRead (String.list_ascii_of_string body) true; LPush].
Definition hand_out : list llabel := [LCall; LFire; LPop].
Definition read_bodies (l : laggy) : list (string * bool) := (λ p, (String.string_of_list_ascii (rr_body p.2), rr_ok p.2)) <$> l_popped l.

Definition run_ten (lbs : list llabel) : option laggy :=
  laggy_run unpack_ten "b" (λ _ _, 10) lbs (newLaggySubscribeInterceptor 0).

(** A queue's order among results of one time is not that in which they came. *)
Theorem equal_times_reordered :
  read_bodies <$> run_ten (take_in "1" ++ take_in "2" ++ take_in "3" ++ [LTick 10] ++ hand_out ++ hand_out ++ hand_out) =
    Some [("1", true); ("3", true); ("2", true)].
Proof. vm_compute. reflexivity. Qed.

(** The end of the subscription is not delayed: it is read before a message that the bus
    gave before it. *)
Theorem end_overtakes_messages :
  (λ l, (read_bodies l, (λ r, String.string_of_list_ascii (rr_body r)) <$> l_rh l)) <$>
    run_ten (take_in "1" ++ [LLoop; LRead [] false; LEnd; LPush] ++ hand_out) = Some ([("", false)], ["1"]).
Proof. vm_compute. reflexivity. Qed.

Lemma laggy_never_panics_witness : laggy_step unpack_ten "b" (λ _ _, 10) LPop (newLaggySubscribeInterceptor 0) ≠ LPanic.
Proof. apply (laggy_never_panics unpack_ten "b" (λ _ _, 10) 0 []); [unfold max_int64; lia|reflexivity]. Defined.
