(* ===== verification/Tracing.v ===== *)
(** * Tracing.v: the interceptors that trace calls ([src/pkg/middleware/otelpsrpc/otel.go])

    OpenTelemetry is a parameter: what a context says of its span, the start of one, the
    propagator that writes it to a map and reads it from one, and what is done to a span,
    which changes the world. *)
From S2P Require Import Prelude Errors Bus Info Metadata Options.

Section tracing.
Context `{GrpcApi} `{!StatusApi} `{!Codec} {W Span : Type}.

(** A context: its metadata and the span it carries. *)
Record tctx : Type := MkTctx { t_md : md_context; t_span : Span }.

Inductive SpanKind : Type := SpanKindClient | SpanKindServer.

(** The methods of a span that are called. *)
Inductive span_op : Type :=
| AddEvent (name : string)
| RecordError (err : error)
| SetStatus (ok : bool) (description : string)
| SetStatusCode (code : ErrorCode)
| SetGRPCStatusCode (code : codes_Code)
| End_.

(** [tracer.Start] of a span below the context's, the span's methods, and the propagator's
    [Inject] to a carrier and [Extract] from one. *)
Context (Start : Span → string → SpanKind → W → W * Span) (on : Span → span_op → W → W)
  (Inject : Span → gmap string string → gmap string string) (Extract : Span → gmap string string → Span)
  (codes_OK : codes_Code).

(** [status.FromError]'s code, [OK] for nil. *)
Definition grpc_code (err : option error) : option codes_Code :=
  match err with None => Some codes_OK | Some e => st_Code <$> FromError e end.

Definition setSpanError (span : Span) (err : option error) (w : W) : W :=
  let w := match err with
           | Some e => on span (SetStatus false (Error e)) (on span (RecordError e) w)
           | None => on span (SetStatus true "") w
           end in
  let w := match err ≫= as_Error with Some v => on span (SetStatusCode (view_Code v)) w | None => w end in
  match grpc_code err with Some code => on span (SetGRPCStatusCode code) w | None => w end.

(** The calls around a handler's, and the span's end. *)
Definition traced {R} (span : Span) (call : W → option (W * (R * option error))) (w : W) : option (W * (R * option error)) :=
  let w := on span (AddEvent "Outbound message") w in
  '(w, (resp, err)) ← call w;
  let w := on span (AddEvent "Inbound message") w in
  let w := setSpanError span err w in
  Some (on span End_ w, (resp, err)).

Definition client_handler (T : carried) : Type :=
  tctx → message → list (RequestOption T) → W → option (W * (option message * option error)).

(** The interceptor of [ClientOptions]. *)
Definition client_tracing {T} (info : RPCInfo) (next : client_handler T) : client_handler T := λ ctx req opts w,
  let '(w, span) := Start (t_span ctx) ("Sent." +:+ i_Service info +:+ "." +:+ i_Method info) SpanKindClient w in
  let m := Inject span ∅ in
  let ctx := MkTctx (WithOutgoingMetadata (t_md ctx) (Some m)) span in
  traced span (next ctx req opts) w.

Definition server_handler : Type := tctx → message → W → option (W * (option message * option error)).

(** The interceptor of [ServerOptions]. *)
Definition server_tracing (ctx : tctx) (req : message) (info : RPCInfo) (handler : server_handler) (w : W)
    : option (W * (option message * option error)) :=
  let ctx := match IncomingHeader (t_md ctx) with
             | Some h => MkTctx (t_md ctx) (Extract (t_span ctx) (default ∅ (h_Metadata h)))
             | None => ctx
             end in
  let '(w, span) := Start (t_span ctx) ("Recv." +:+ i_Service info +:+ "." +:+ i_Method info) SpanKindServer w in
  traced span (handler (MkTctx (t_md ctx) span) req) w.

(** ** What they do *)

(** The metadata set over a context's is sent, but for keys that have an appended value. *)
Lemma with_outgoing_sent (ctx : md_context) (md : gmap string string) : md_ok ctx → md ≠ ∅ →
  ∃ sent, OutgoingContextMetadata (WithOutgoingMetadata ctx (Some md)) = Some (Some sent) ∧
    ∀ k v, md !! k = Some v → (∀ m, ctx_metadata ctx = Some m → last_added k (cm_added m) = None) → sent !! k = Some v.
Proof.
  intros Hok Hne. unfold WithOutgoingMetadata, md_empty. rewrite bool_decide_false by done. unfold OutgoingContextMetadata. cbn [ctx_metadata].
  destruct (ctx_metadata ctx) as [m|] eqn:Hm; cbn [default id].
  - destruct m as [[old|] added]; cbn [cm_md cm_added].
    + destruct (add_all_lookup (md ∪ old) added) as (sent & -> & Hl). exists sent. split; [done|]. intros k v Hk Ha.
      specialize (Ha _ eq_refl). cbn [cm_added] in Ha. rewrite Hl, Ha. by apply lookup_union_Some_l.
    + pose proof (Hok _ Hm eq_refl) as Hnil. cbn [cm_added] in Hnil. subst added. exists md. by split.
  - exists md. by split.
Qed.

(** What a traced call returns is what the call does, after the events of its span. *)
Lemma traced_transparent {R} (span : Span) (call : W → option (W * (R * option error))) w w' r :
  call (on span (AddEvent "Outbound message") w) = Some (w', r) → ∃ w2, traced span call w = Some (w2, r).
Proof. unfold traced. intros ->. destruct r as [resp err]. simpl. eauto. Qed.

(** The server's span is below the client's: the metadata that the client's interceptor
    sends and the request carries to the server's lead to the span that was started for
    the call.  Neither changes the request, nor what the handlers return. *)
Theorem trace_propagated (T : carried) (info : RPCInfo) (ctx : tctx) (req : message) (opts : list (RequestOption T))
    (next : client_handler T) (w w1 : W) (span : Span) :
  md_ok (t_md ctx) → Start (t_span ctx) ("Sent." +:+ i_Service info +:+ "." +:+ i_Method info) SpanKindClient w = (w1, span) →
  Inject span ∅ ≠ ∅ →
  (∀ k m, is_Some (Inject span ∅ !! k) → ctx_metadata (t_md ctx) = Some m → last_added k (cm_added m) = None) →
  (∀ parent m, Inject span ∅ ⊆ m → Extract parent m = span) →
  ∃ ctx' sent, OutgoingContextMetadata (t_md ctx') = Some (Some sent) ∧
    client_tracing info next ctx req opts w = traced span (next ctx' req opts) w1 ∧
    ∀ (sctx : tctx) (id : string) (sentAt : Z) (handler : server_handler) (w : W),
      let sctx' := MkTctx (NewContextWithIncomingHeader (t_md sctx) (MkHeader id sentAt (Some sent))) (t_span sctx) in
      let '(w', sspan) := Start span ("Recv." +:+ i_Service info +:+ "." +:+ i_Method info) SpanKindServer w in
      server_tracing sctx' req info handler w = traced sspan (handler (MkTctx (t_md sctx') sspan) req) w'.
Proof.
  intros Hok Hstart Hne Hadd Hex. destruct (with_outgoing_sent (t_md ctx) (Inject span ∅) Hok Hne) as (sent & Hsent & Hl).
  exists (MkTctx (WithOutgoingMetadata (t_md ctx) (Some (Inject span ∅))) span), sent. split; [done|]. split.
  - unfold client_tracing. by rewrite Hstart.
  - intros sctx cid sentAt handler w0. unfold server_tracing. cbn [t_md IncomingHeader NewContextWithIncomingHeader ctx_header mbind option_bind t_span h_Metadata default id].
    rewrite Hex by (apply map_subseteq_spec; intros k v Hk; by eapply Hl; eauto).
    by destruct (Start span _ _ w0).
Qed.
End tracing.

(** A propagator that writes the span under one key, as the default one does. *)
Definition inject_one (span : string) (m : gmap string string) : gmap string string := <["traceparent" := span]> m.
Definition extract_one (parent : string) (m : gmap string string) : string := default parent (m !! "traceparent").

Lemma trace_propagated_witness `{GrpcApi} `{!StatusApi} `{!Codec} (code : codes_Code) (req : message) (info : RPCInfo) :
  ∃ (ctx' : tctx (Span := string)) sent, OutgoingContextMetadata (t_md ctx') = Some (Some sent) ∧
    client_tracing (λ _ _ _ w, (w, "span")) (λ _ _ w, w) inject_one code (T := no_carried) info (λ _ _ _ w, Some (w, (None, None)))
      (MkTctx background "") req [] tt = Some (tt, (None, None)).
Proof.
  destruct (trace_propagated (W := unit) (λ _ _ _ w, (w, "span")) (λ _ _ w, w) inject_one extract_one code no_carried info
    (MkTctx background "") req [] (λ _ _ _ w, Some (w, (None, None))) tt tt "span") as (ctx' & sent & Hs & Hc & _);
    [done|done|by apply insert_non_empty|done| |].
  - intros parent m Hm. unfold extract_one. rewrite (lookup_weaken (inject_one "span" ∅) m "traceparent" "span"); [done|by apply lookup_insert_eq|done].
  - exists ctx', sent. split; [done|]. rewrite Hc. unfold traced, setSpanError. simpl. by destruct (grpc_code code None).
Defined.
