(* ===== verification/System.v ===== *)
(** * System.v: clients, servers and a bus put together

    Any number of clients ([Router]) and of handlers on servers ([ServerRun]), each with all
    of its goroutines, over a bus that keeps what was published: a step is one of a client,
    one of a server, or the hand-over of a published message to a subscription it was
    published for, any number of times, in any order, or never.  Whatever the bus loses,
    delays, repeats or reorders is among the runs. *)
From S2P Require Import Prelude Errors Bus Info Metadata Interceptors Float32 Options Messages Selection ClientRPC Router ServerRPC Protocol.
From S2P Require ServerRun ServerClose.

Section system.
Context `{GrpcApi} `{!StatusApi} `{!Codec} {T : carried} {W : Type} (itoa : Z → string).

(** What is published, and where. *)
Inductive published : Type :=
| WRequest (ch : Channel) (ir : Request)
| WClaim (ch : Channel) (claim : ClaimRequest)
| WGrant (ch : Channel) (claim : ClaimResponse)
| WResponse (ch : Channel) (res : Response).

Record client_node : Type := MkClientNode { cn_client : RPCClient T; cn_sys : Router.sys T }.

(** A handler of a server. *)
Record server_node : Type := MkServerNode {
  sn_server : server;
  sn_handler : rpcHandlerImpl (W := W);
  sn_sys : ServerRun.sys (W := W)
}.

(** A call made: the client, the request under way and what is published for it, and the
    caller's message. *)
Record made : Type := MkMade {
  md_client : nat;
  md_call : call T;
  md_pub : publication;
  md_message : message
}.

(** [y_calls] has the calls ever made, by request ID, [y_wire] what was published. *)
Record system : Type := MkSystem {
  y_clients : list client_node;
  y_servers : list server_node;
  y_calls : gmap string made;
  y_wire : list published
}.

Definition initial (clients : list (RPCClient T * nat)) (servers : list (server * rpcHandlerImpl (W := W) * nat * W)) : system :=
  MkSystem ((λ '(c, size), MkClientNode c (new_sys size)) <$> clients)
    ((λ '(s, h, size, w), MkServerNode s h (ServerRun.start h size w)) <$> servers) ∅ [].

(** The channels a client is subscribed to; [r] is what the inbox's wildcard stands for. *)
Definition inbox_channel (c : RPCClient T) (r : string) : Channel :=
  GetResponseChannel (sd_Name (c_sd c)) (PerRequestClientID (sd_ID (c_sd c)) r).

Definition hears (c : RPCClient T) (shared : string → string → Channel) (r : string) (ch : Channel) : bool :=
  bool_decide (ch = shared (sd_Name (c_sd c)) (sd_ID (c_sd c))) || (c_inbox c && bool_decide (ch = inbox_channel c r)).

(** A call ([newRPC] up to the registration), the publication of its request, the other
    steps of a client, the hand-over to it of a message published, the broker's report that
    nothing received a request, the steps of a handler, and the hand-over to one. *)
Inductive ylabel : Type :=
| YCall (n : nat) (rpc : string) (topic : list string) (cx : ctx) (now0 now : Z) (requestID responseType : string)
    (request : message) (opts : list (RequestOption T))
| YPublish (id : string)
| YClient (n : nat) (l : Router.label T)
| YHear (n j : nat) (r : string)
| YReport (n : nat) (subject : string)
| YServer (m : nat) (l : ServerRun.label)
| YDeliver (m j : nat).

Definition client_alone (l : Router.label T) : bool :=
  match l with LStart _ | LTakeClaim _ | LTakeResponse _ => false | _ => true end.

Definition server_alone (l : ServerRun.label) : bool :=
  match l with ServerRun.LDeliver _ | ServerRun.LDeliverClaim _ => false | _ => true end.

(** The claim responses that a step of a client publishes. *)
Definition grants_of (s : Router.sys T) (l : Router.label T) : list published :=
  match l with
  | LTurn id now src pubErr =>
      match s_threads s !! id with
      | Some (k, TRunning p) =>
          match receive s id p src with
          | Some (ev, _) => WGrant (GetClaimResponseChannel (k_info k)) <$> (rpc_step itoa k now ev pubErr p).2
          | None => []
          end
      | _ => []
      end
  | _ => []
  end.

Definition client_goes (y : system) (n : nat) (l : Router.label T) : option system :=
  c ← y_clients y !! n;
  s ← sys_step itoa l (cn_sys c);
  Some (MkSystem (<[n := MkClientNode (cn_client c) s]> (y_clients y)) (y_servers y) (y_calls y)
    (y_wire y ++ grants_of (cn_sys c) l)).

(** What a handler's goroutines publish. *)
Definition message_of (a : nat * act) : option published :=
  match a.2 with ABid ch bid => Some (WClaim ch bid) | ARespond ch res => Some (WResponse ch res) | _ => None end.

Definition server_goes (y : system) (m : nat) (l : ServerRun.label) : option system :=
  sn ← y_servers y !! m;
  match ServerRun.step (sn_server sn) (sn_handler sn) l (sn_sys sn) with
  | ServerRun.Next x =>
      Some (MkSystem (y_clients y) (<[m := MkServerNode (sn_server sn) (sn_handler sn) x]> (y_servers y)) (y_calls y)
        (y_wire y ++ omap message_of (drop (length (ServerRun.r_acts (sn_sys sn))) (ServerRun.r_acts x))))
  | _ => None
  end.

Definition with_call (y : system) (id : string) (md : made) : system :=
  MkSystem (y_clients y) (y_servers y) (<[id := md]> (y_calls y)) (y_wire y).

Definition publish (y : system) (msg : published) : system :=
  MkSystem (y_clients y) (y_servers y) (y_calls y) (y_wire y ++ [msg]).

(** One step; [None] when it cannot be taken.  Request IDs are fresh. *)
Definition system_step (l : ylabel) (y : system) : option system :=
  match l with
  | YCall n rpc topic cx now0 now requestID responseType request opts =>
      c ← y_clients y !! n;
      i ← GetInfo (c_sd (cn_client c)) rpc topic;
      match newRPC_prepare (cn_client c) i cx now0 now requestID responseType request opts, y_calls y !! requestID with
      | Ok (k, pub), None =>
          y ← client_goes y n (LStart k);
          Some (with_call y requestID (MkMade n k pub request))
      | _, _ => None
      end
  | YPublish id =>
      md ← y_calls y !! id;
      c ← y_clients y !! md_client md;
      match s_threads (cn_sys c) !! id with
      | Some (_, TPublishing) => Some (publish y (WRequest (pb_channel (md_pub md)) (pb_request (md_pub md))))
      | _ => None
      end
  | YClient n l => if client_alone l then client_goes y n l else None
  | YHear n j r =>
      c ← y_clients y !! n;
      msg ← y_wire y !! j;
      match msg with
      | WClaim ch claim =>
          if hears (cn_client c) GetClaimRequestChannel r ch then client_goes y n (LTakeClaim claim) else None
      | WResponse ch res =>
          if hears (cn_client c) GetResponseChannel r ch then client_goes y n (LTakeResponse res) else None
      | _ => None
      end
  | YReport n subject =>
      c ← y_clients y !! n;
      if c_inbox (cn_client c) then client_goes y n (LTakeResponse (unansweredResponse subject)) else None
  | YServer m l => if server_alone l then server_goes y m l else None
  | YDeliver m j =>
      sn ← y_servers y !! m;
      msg ← y_wire y !! j;
      match msg with
      | WRequest ch ir =>
          if bool_decide (ch = GetRPCChannel (h_i (sn_handler sn))) then server_goes y m (ServerRun.LDeliver ir) else None
      | WGrant ch claim =>
          if bool_decide (ch = GetClaimResponseChannel (h_i (sn_handler sn))) then server_goes y m (ServerRun.LDeliverClaim claim) else None
      | _ => None
      end
  end.

Fixpoint system_run (ls : list ylabel) (y : system) : option system :=
  match ls with
  | [] => Some y
  | l :: ls => y ← system_step l y; system_run ls y
  end.
End system.
Arguments system {_ _} T W.
Arguments ylabel {_ _} T.

(** ** What a handler's goroutines publish *)

Section acts.
Context `{GrpcApi} `{!StatusApi} `{!Codec} {W : Type} (s : server) (h : rpcHandlerImpl (W := W)).

(** Neither a run of the handler nor a response. *)
Definition quiet (acts : list act) : Prop :=
  Forall (λ a, match a with ABid _ _ | AClaim _ => True | _ => False end) acts.

(** What ends a request: nothing, the answer to one that does not decode, or the handler
    and its answer. *)
Inductive ending (ir : Request) : list act → Prop :=
| ends_silent : ending ir []
| ends_malformed e t : DeserializePayload (h_RequestType h) (rq_RawRequest ir) = Err e →
    ending ir [respond s ir t None (Some (newError MalformedRequest e))]
| ends_handled req t response err w : DeserializePayload (h_RequestType h) (rq_RawRequest ir) = Ok req →
    (h_handler h (hctx_of ir) req w).2 = (response, err) → ending ir [AHandle req; respond s ir t response err].

Lemma call_handler_ending ir now req w : DeserializePayload (h_RequestType h) (rq_RawRequest ir) = Ok req →
  ending ir (call_handler s h ir now req w).2.
Proof. intros Hd. destruct (call_handler_acts s h ir now req w) as (response & err & Hh & ->). by apply (ends_handled ir req now response err w). Qed.

Lemma handleRequest_shape ir now pubErr d now' w :
  ∃ pre post, (handleRequest s h ir now pubErr d now' w).2 = pre ++ post ∧ quiet pre ∧ ending ir post.
Proof.
  unfold handleRequest, handle, decide_claim. destruct (DeserializePayload _ _) as [req|e] eqn:Hd.
  2:{ eexists [], _. split; [done|]. split; [constructor|by apply ends_malformed]. }
  pose proof (λ t w, call_handler_ending ir t req w Hd) as Hcall. unfold call_handler in *.
  destruct (ri_RequireClaim _); [destruct (_ && _); [|destruct (f32_lt _ _); [|destruct pubErr; [|destruct d as [claim|]]]]|]; simpl.
  - specialize (Hcall now w). destruct (h_handler _ _ _ _) as [w' [response err]]. eexists [_], _. split; [done|].
    split; [by repeat constructor|done].
  - exists [], []. repeat constructor.
  - eexists [_], []. split; [done|]. repeat constructor.
  - specialize (Hcall now' w). case_bool_decide; simpl.
    + destruct (h_handler _ _ _ _) as [w' [response err]]. eexists [_; _], _. split; [done|]. split; [by repeat constructor|done].
    + eexists [_; _], []. split; [done|]. repeat constructor.
  - eexists [_; _], []. split; [done|]. repeat constructor.
  - specialize (Hcall now w). destruct (h_handler _ _ _ _) as [w' [response err]]. eexists [], _. split; [done|]. split; [constructor|done].
Qed.

Lemma quiet_not_handles acts : quiet acts → handles acts = false.
Proof. induction 1 as [|a acts Ha _ IH]; [done|by destruct a]. Qed.

(** At every point a goroutine has been quiet, or has done all that [handleRequest] does
    with a decision delivered for the request. *)
Lemma task_acts_shape D ir t acts (w : W) : ServerClose.task_acts s h D ir t acts →
  quiet acts ∨ ∃ now pubErr d now' w, ServerClose.known D ir d ∧ (handleRequest s h ir now pubErr d now' w).2 = acts.
Proof.
  destruct t as [|req|req|granted|req| |]; simpl.
  - intros ->. left. constructor.
  - intros [_ ->]. left. constructor.
  - intros [_ ->]. left. repeat constructor.
  - intros (req & pubErr & d & _ & _ & Hm). left. destruct pubErr; [destruct Hm as [-> _]; repeat constructor|].
    destruct Hm as [Hd Ht]. rewrite <- (take_drop 1 acts), Ht. constructor; [done|].
    unfold ServerRun.decide_step in Hd. destruct d as [claim|]; [case_bool_decide|]; injection Hd as _ <-; repeat constructor.
  - intros Hall. left. destruct (Hall 0 w) as (now0 & pubErr & d & now1 & _ & Heq).
    destruct (handleRequest_shape ir now0 pubErr d now1 w) as (pre & post & Hs & Hq & He). rewrite Heq in Hs.
    destruct (call_handler_acts s h ir 0 req w) as (response & err & _ & Hc). rewrite Hc in Hs. simpl in Hs.
    destruct He as [|e t _|req' t response' err' w' _ _].
    + rewrite app_nil_r in Hs. subst pre. apply Forall_app in Hq as [_ Hq]. by inversion Hq.
    + rewrite (app_assoc acts [AHandle req] [_] : acts ++ [AHandle req; _] = _) in Hs.
      apply app_inj_tail in Hs as [<- _]. apply Forall_app in Hq as [_ Hq]. by inversion Hq.
    + by apply app_inj_2 in Hs as [-> _].
  - intros (now & pubErr & d & now' & w0 & Hk & Heq). right. by exists now, pubErr, d, now', w0.
  - intros (now & pubErr & d & now' & w0 & Hk & Heq). right. by exists now, pubErr, d, now', w0.
Qed.

(** Nothing done is forgotten. *)
Lemma step_acts l x x' : ServerRun.step s h l x = ServerRun.Next x' → ∃ new, ServerRun.r_acts x' = ServerRun.r_acts x ++ new.
Proof.
  assert (∀ x' : ServerRun.sys (W := W), ServerRun.r_acts x' = ServerRun.r_acts x → ∃ new, ServerRun.r_acts x' = ServerRun.r_acts x ++ new) as Hsame
    by (intros x2 ->; exists []; by rewrite app_nil_r).
  destruct l as [ir|claim|now| | | |n inp|force|]; simpl.
  - destruct (chan_send _ _); [|done..]. intros [= <-]. by apply Hsame.
  - destruct (chan_send _ _); [|done..]. intros [= <-]. by apply Hsame.
  - destruct (ServerRun.r_loop x); [|done..]. unfold ServerRun.take_request. destruct (ServerRun.r_requestsNil x); [done|].
    destruct (chan_recv _); [|destruct (ServerRun.r_drained x); [done|]; intros [= <-]; by apply Hsame|done].
    destruct (_ <? _); intros [= <-]; by apply Hsame.
  - destruct (ServerRun.r_loop x); [|done..]. unfold ServerRun.take_claim. destruct (ServerRun.r_claimsNil x); [done|].
    destruct (chan_recv _); [|intros [= <-]; by apply Hsame|done]. intros [= <-]. apply Hsame. by destruct (_ !! _).
  - destruct (ServerRun.r_loop x); [done| |done]. unfold ServerRun.send_claim. destruct (_ !! _); [|done].
    destruct (chan_send _ _); [|done..]. intros [= <-]. by apply Hsame.
  - destruct (ServerRun.r_loop x); [|done..]. destruct (ServerRun.r_complete x); [|done]. intros [= <-]. by apply Hsame.
  - intros (g & c & _ & _ & _ & Ha & _)%ServerClose.goroutine_step_inv. eauto.
  - destruct (ServerRun.r_closing x); [done|]. intros [= <-]. by apply Hsame.
  - destruct (ServerRun.r_closing x) as [k|]; [|done]. destruct k; simpl; repeat (case_match; try done); intros [= <-]; by apply Hsame.
Qed.

(** What goroutine [n] did is a part of what all did. *)
Lemma acts_of_in (x : ServerRun.sys (W := W)) n a : a ∈ ServerClose.acts_of x n ↔ (n, a) ∈ ServerRun.r_acts x.
Proof.
  unfold ServerClose.acts_of. rewrite list_elem_of_omap. split.
  - intros ([m b] & Hin & Heq). simpl in Heq. destruct (decide (m = n)) as [->|]; [|done]. by injection Heq as ->.
  - intros Hin. exists (n, a). split; [done|]. simpl. by rewrite decide_True.
Qed.

(** A handler whose goroutines have got what was delivered: what a goroutine did. *)
Lemma goroutine_did size w ls x n a : ServerRun.run s h ls (ServerRun.start h size w) = Some x → (n, a) ∈ ServerRun.r_acts x →
  ∃ g, ServerRun.r_goroutines x !! n = Some g ∧ g.(ServerRun.g_ir) ∈ ServerClose.requests_delivered ls ∧
    (quiet (ServerClose.acts_of x n) ∨ ∃ now pubErr d now' w, ServerClose.known (ServerClose.claims_delivered ls) (ServerRun.g_ir g) d ∧
       (handleRequest s h (ServerRun.g_ir g) now pubErr d now' w).2 = ServerClose.acts_of x n).
Proof.
  intros Hr Ha%acts_of_in. pose proof (ServerClose.run_goes_on s h [] ls _ x (ServerRun.start_inv h size w)
    (ServerClose.start_goes_on s h size w) Hr) as Hgo.
  destruct (ServerRun.r_goroutines x !! n) as [g|] eqn:Hg.
  2:{ apply lookup_ge_None in Hg. rewrite (ServerClose.go_none s h _ x Hgo n Hg) in Ha. by apply elem_of_nil in Ha. }
  exists g. split; [done|]. split.
  - pose proof (ServerClose.run_requests s h ls _ x Hr) as Hp. simpl in Hp. rewrite <- Hp. apply elem_of_app. left.
    unfold ServerClose.taken. apply elem_of_app. left. apply list_elem_of_fmap. exists g. split; [done|]. by eapply list_elem_of_lookup_2.
  - eapply task_acts_shape; [exact (ServerRun.r_world x)|]. by apply (ServerClose.go_acts s h _ x Hgo n g Hg).
Qed.
End acts.

(** ** Invariant *)

Section invariant.
Context `{GrpcApi} `{!StatusApi} `{!Codec} {T : carried} {W : Type} (itoa : Z → string).
Implicit Types (y : system T W) (c : client_node (T := T)) (sn : server_node (W := W)) (msg : published).

(** Where a call may still grant. *)
Definition grantable (k : call T) (t : thread) : bool :=
  match t with TPublishing => true | TRunning p => may_grant k p | TGone => false end.

(** A call that succeeded took a response that was published. *)
Definition result_heard y (k : call T) (t : thread) : Prop :=
  match t with
  | TRunning (PReturned (Ok m)) =>
      ∃ ch res, WResponse ch res ∈ y_wire y ∧ rs_RequestId res = k_requestID k ∧ finish k res = Ok m
  | _ => True
  end.

(** A response on its way was published, or is the broker's report. *)
Definition heard y (r : Response) : Prop :=
  (∃ ch, WResponse ch r ∈ y_wire y) ∨ ∃ subject, r = unansweredResponse subject.

Record client_ok y (n : nat) c : Prop := {
  co_own : own_messages (cn_sys c);
  co_maps : maps_inv (cn_sys c);
  co_heard id r : r ∈ responses_to (cn_sys c) id → heard y r;
  co_call id k t : s_threads (cn_sys c) !! id = Some (k, t) → ∃ md, y_calls y !! id = Some md ∧ md_client md = n ∧ md_call md = k;
  co_result id k t : s_threads (cn_sys c) !! id = Some (k, t) → result_heard y k t;
  co_grants id k t : s_threads (cn_sys c) !! id = Some (k, t) → grantable k t = true →
    ∀ ch g, WGrant ch g ∈ y_wire y → cr_RequestId g ≠ id
}.

(** A handler has run on what was published for it. *)
Definition server_ok y sn : Prop := ∃ size w ls,
  ServerRun.run (sn_server sn) (sn_handler sn) ls (ServerRun.start (sn_handler sn) size w) = Some (sn_sys sn) ∧
  (∀ ir, ir ∈ ServerClose.requests_delivered ls → WRequest (GetRPCChannel (h_i (sn_handler sn))) ir ∈ y_wire y) ∧
  (∀ claim, claim ∈ ServerClose.claims_delivered ls → WGrant (GetClaimResponseChannel (h_i (sn_handler sn))) claim ∈ y_wire y).

(** Who published a message. *)
Definition did y (a : act) : Prop :=
  ∃ m sn n, y_servers y !! m = Some sn ∧ (n, a) ∈ ServerRun.r_acts (sn_sys sn).

Definition explained y msg : Prop :=
  match msg with
  | WRequest ch ir => ∃ md, y_calls y !! rq_RequestId ir = Some md ∧ ir = pb_request (md_pub md) ∧ ch = pb_channel (md_pub md)
  | WClaim ch claim => did y (ABid ch claim)
  | WGrant ch g => ∃ md, y_calls y !! cr_RequestId g = Some md ∧ ch = GetClaimResponseChannel (k_info (md_call md))
  | WResponse ch res => did y (ARespond ch res)
  end.

Definition prepared y (id : string) (md : made) : Prop := ∃ c i cx now0 now ty opts,
  y_clients y !! md_client md = Some c ∧
  newRPC_prepare (cn_client c) i cx now0 now id ty (md_message md) opts = Ok (md_call md, md_pub md).

Record system_inv y : Prop := {
  yi_client n c : y_clients y !! n = Some c → client_ok y n c;
  yi_server m sn : y_servers y !! m = Some sn → server_ok y sn;
  yi_calls id md : y_calls y !! id = Some md → prepared y id md;
  yi_wire msg : msg ∈ y_wire y → explained y msg;
  yi_grants ch g ch' g' : WGrant ch g ∈ y_wire y → WGrant ch' g' ∈ y_wire y →
    cr_RequestId g = cr_RequestId g' → cr_ServerId g = cr_ServerId g'
}.

(** *** What a later state keeps *)

Record grows y y' : Prop := {
  gr_clients n c : y_clients y !! n = Some c → ∃ c', y_clients y' !! n = Some c' ∧ cn_client c' = cn_client c;
  gr_servers m sn : y_servers y !! m = Some sn → ∃ sn', y_servers y' !! m = Some sn' ∧
    ServerRun.r_acts (sn_sys sn) ⊆ ServerRun.r_acts (sn_sys sn');
  gr_calls : y_calls y ⊆ y_calls y';
  gr_wire : y_wire y ⊆ y_wire y'
}.

Lemma did_grows y y' a : grows y y' → did y a → did y' a.
Proof.
  intros Hg (m & sn & n & Hm & Ha). destruct (gr_servers _ _ Hg m sn Hm) as (sn' & Hm' & Hs).
  exists m, sn', n. split; [done|]. by apply Hs.
Qed.

Lemma explained_grows y y' msg : grows y y' → explained y msg → explained y' msg.
Proof.
  intros Hg. destruct msg; simpl; try by apply did_grows.
  - intros (md & Hmd & ?). exists md. split; [|done]. by eapply lookup_weaken, gr_calls.
  - intros (md & Hmd & ?). exists md. split; [|done]. by eapply lookup_weaken, gr_calls.
Qed.

Lemma heard_grows y y' r : grows y y' → heard y r → heard y' r.
Proof. intros Hg [[ch Hr]|Hr]; [left|by right]. exists ch. by apply (gr_wire _ _ Hg). Qed.

Lemma result_grows y y' k t : grows y y' → result_heard y k t → result_heard y' k t.
Proof.
  intros Hg. destruct t as [|[| |[m|]]|]; simpl; try done. intros (ch & res & Hr & ?). exists ch, res. split; [|done].
  by apply (gr_wire _ _ Hg).
Qed.

Lemma server_grows y y' sn : grows y y' → server_ok y sn → server_ok y' sn.
Proof.
  intros Hg (size & w & ls & Hr & Hreq & Hcl). exists size, w, ls. split; [done|]. split.
  - intros ir Hir. by apply (gr_wire _ _ Hg), Hreq.
  - intros claim Hc. by apply (gr_wire _ _ Hg), Hcl.
Qed.

Lemma prepared_grows y y' id md : grows y y' → prepared y id md → prepared y' id md.
Proof.
  intros Hg (c & i & cx & now0 & now & ty & opts & Hc & Hp). destruct (gr_clients _ _ Hg _ _ Hc) as (c' & Hc' & Heq).
  exists c', i, cx, now0, now, ty, opts. by rewrite Heq.
Qed.

(** A client that did not move, when no grant came for its calls. *)
Lemma client_grows y y' n c : grows y y' → client_ok y n c →
  (∀ ch g, WGrant ch g ∈ y_wire y' → WGrant ch g ∈ y_wire y ∨ ∃ md, y_calls y !! cr_RequestId g = Some md ∧ md_client md ≠ n) →
  client_ok y' n c.
Proof.
  intros Hg [Hown Hmaps Hh Hc Hr Hgr] Hnew. split; [done|done|..].
  - intros id r Hin. by eapply heard_grows, Hh.
  - intros id k t Ht. destruct (Hc id k t Ht) as (md & Hmd & ?). exists md. split; [|done]. by eapply lookup_weaken, gr_calls.
  - intros id k t Ht. by eapply result_grows, Hr.
  - intros id k t Ht Hk ch g [Hin|(md & Hmd & Hne)]%Hnew; [by eapply Hgr|]. intros Heq. rewrite Heq in Hmd.
    destruct (Hc _ k t Ht) as (md' & Hmd' & Hn & _). congruence.
Qed.

(** *** Steps of a client *)

(** A turn publishes nothing, or one claim response, after which it publishes no more. *)
Lemma rpc_step_grants_once (k : call T) now ev e p p' out : rpc_step itoa k now ev e p = (p', out) →
  (may_grant k p' = true → may_grant k p = true) ∧
  (out = [] ∨ may_grant k p = true ∧ may_grant k p' = false ∧ ∃ server, out = [MkClaimResponse (k_requestID k) server]).
Proof.
  assert (∀ p p' (out : list ClaimResponse), (may_grant k p' = true → may_grant k p = true) → out = [] →
    (may_grant k p' = true → may_grant k p = true) ∧
    (out = [] ∨ may_grant k p = true ∧ may_grant k p' = false ∧ ∃ server, out = [MkClaimResponse (k_requestID k) server])) as Hno by auto.
  assert (∀ p p' server, may_grant k p = true → may_grant k p' = false → (may_grant k p' = true → may_grant k p = true) ∧
    ([MkClaimResponse (k_requestID k) server] = [] ∨ may_grant k p = true ∧ may_grant k p' = false ∧
     ∃ server', [MkClaimResponse (k_requestID k) server] = [MkClaimResponse (k_requestID k) server'])) as Hone.
  { intros p1 p2 server Hp1 Hp2. split; [done|]. right. split; [done|]. split; [done|]. by exists server. }
  intros Hs. destruct p as [v|bids|res]; simpl in Hs.
  - destruct ev as [ev|err]; [|injection Hs as <- <-; by apply Hno].
    destruct (turn_of itoa _ now ev v) as [sel err|v']; [|injection Hs as <- <-; by apply Hno].
    unfold after_select, grant_then_wait in Hs. destruct err; [injection Hs as <- <-; by apply Hno|].
    destruct (sel_res sel); [injection Hs as <- <-; by apply Hno|].
    simpl in Hs. destruct e; injection Hs as <- <-; by apply Hone.
  - destruct bids, ev as [[| |c|res]|err]; simpl in Hs; unfold grant_then_wait in Hs; simpl in Hs;
      try (injection Hs as <- <-; by apply Hno).
    destruct e; injection Hs as <- <-; by apply Hone.
  - injection Hs as <- <-. by apply Hno.
Qed.

Definition turns (l : Router.label T) (id : string) : Prop := match l with LTurn id' _ _ _ => id' = id | _ => False end.

(** What a step does to a request's goroutine. *)
Inductive moved (s : Router.sys T) (l : Router.label T) (id : string) (k : call T) : thread → thread → Prop :=
| moves_not t : ¬ turns l id → moved s l id k t t
| moves_published now err : moved s l id k TPublishing (TRunning (after_publish k now err))
| moves_turn now src pubErr p ev s1 :
    l = LTurn id now src pubErr → s_threads s !! id = Some (k, TRunning p) → receive s id p src = Some (ev, s1) →
    match p with PReturned _ => False | _ => True end →
    moved s l id k (TRunning p) (TRunning (rpc_step itoa k now ev pubErr p).1)
| moves_gone t : moved s l id k t TGone.

Lemma receive_threads (s : Router.sys T) id p src ev s1 : receive s id p src = Some (ev, s1) → s_threads s1 = s_threads s.
Proof.
  intros [[-> _]|[(claim & c & c' & _ & _ & _ & _ & _ & _ & ->)|(res & c & c' & _ & _ & _ & _ & _ & ->)]]%receive_cases; done.
Qed.

Lemma thread_moves l (s s' : Router.sys T) id k t' : sys_step itoa l s = Some s' →
  match l with LStart _ => False | _ => True end → maps_inv s → s_threads s' !! id = Some (k, t') →
  ∃ t, s_threads s !! id = Some (k, t) ∧ moved s l id k t t'.
Proof.
  intros Hs Hl Hm. assert (¬ turns l id → s_threads s !! id = Some (k, t') → ∃ t, s_threads s !! id = Some (k, t) ∧ moved s l id k t t') as Hsame
    by (intros Hno ?; exists t'; split; [done|by constructor]).
  destruct l as [k0|i now err|i now src pe|i|claim|res| | |]; [done|..].
  - simpl in Hs. destruct (s_threads s !! i) as [[k0 []]|] eqn:Hi; simplify_eq/=.
    intros [[<- [= <- <-]]|[Hne ?]]%lookup_insert_Some; [|apply Hsame; [naive_solver|done]]. exists TPublishing. split; [done|constructor].
  - apply sys_step_turn in Hs as (k0 & p & ev & s1 & Hi & Hp & Hr & ->). simpl. rewrite (receive_threads _ _ _ _ _ _ Hr).
    intros [[<- [= <- <-]]|[Hne ?]]%lookup_insert_Some; [|apply Hsame; [naive_solver|done]]. exists (TRunning p). split; [done|].
    by eapply moves_turn.
  - simpl in Hs. destruct (s_threads s !! i) as [[k0 [|[]|]]|] eqn:Hi; simplify_eq/=.
    rewrite (inv_id _ Hm _ _ _ Hi). intros [[<- [= <- <-]]|[Hne ?]]%lookup_insert_Some; [|apply Hsame; [naive_solver|done]]. eexists. split; [done|constructor].
  - simpl in Hs. destruct (s_reader s); simplify_eq/=. unfold routeClaim. case_bool_decide; apply Hsame; naive_solver.
  - simpl in Hs. destruct (s_reader s); simplify_eq/=. unfold routeResponse. case_bool_decide; apply Hsame; naive_solver.
  - simpl in Hs. apply reader_send_cases in Hs as [(?&?&?&_&_& ->)|(?&?&?&_&_& ->)]; apply Hsame; naive_solver.
  - simpl in Hs. simplify_eq/=. apply Hsame; naive_solver.
  - simpl in Hs. destruct (s_reader s), (s_closed s); simplify_eq/=; apply Hsame; naive_solver.
Qed.

(** The response that a receive takes was on its way to the request. *)
Lemma received_response (s : Router.sys T) id p src res s1 : receive s id p src = Some (Sel (EvResponse res), s1) →
  res ∈ responses_to s id.
Proof.
  intros [[_ []]|[(claim & c & c' & ? & _)|(res' & c & c' & [= <-] & Hc & Hb & _)]]%receive_cases; [done|].
  unfold responses_to. rewrite Hc. simpl. rewrite Hb. by left.
Qed.

Lemma finish_success (k : call T) res m : rs_Error res = "" → rs_Code res ≠ unansweredCode →
  DeserializePayload (k_ResponseType k) (rs_RawResponse res) = Ok m → finish k res = Ok m.
Proof. unfold finish. intros He Hc ->. rewrite bool_decide_false by done. by rewrite He. Qed.

(** A call's result after a step. *)
Lemma moved_result y n c l id k t t' : client_ok y n c → s_threads (cn_sys c) !! id = Some (k, t) →
  moved (cn_sys c) l id k t t' → result_heard y k t'.
Proof.
  intros Hok Ht Hm. pose proof (inv_id _ (co_maps _ _ _ Hok) _ _ _ Ht) as Hid. destruct Hm as [t _|now err|now src pe p ev s1 -> _ Hr Hp|t].
  - by eapply co_result.
  - simpl. unfold after_publish, first_wait. destruct err; [done|]. by destruct (ri_RequireClaim _), (ri_Queue _).
  - simpl. destruct (rpc_step itoa k now ev pe p) as [p' out] eqn:Hs. simpl. destruct p' as [| |[m|]]; try done.
    destruct (rpc_step_success itoa k now ev pe p out m Hs) as [->|(res & -> & _ & He & Hc & Hd)]; [done|].
    pose proof (received_response _ _ _ _ _ _ Hr) as Hin.
    destruct (co_heard _ _ _ Hok id res Hin) as [[ch Hw]|[subject ->]]; [|by destruct Hc].
    exists ch, res. split; [done|]. split; [|by apply finish_success]. rewrite Hid.
    destruct (co_own _ _ _ Hok id) as [_ Hf]. rewrite Forall_forall in Hf. by apply Hf.
  - done.
Qed.

Lemma moved_grantable (s : Router.sys T) l id k t t' : moved s l id k t t' → grantable k t' = true → grantable k t = true.
Proof.
  intros [t0 _|now err|now src pe p ev s1 -> _ Hr Hp|t0]; [done| |simpl|done].
  - done.
  - destruct (rpc_step itoa k now ev pe p) as [p' out] eqn:Hs. by apply (rpc_step_grants_once k now ev pe p p' out Hs).
Qed.

(** What a step of a client publishes: nothing, or the one grant of a call that may. *)
Lemma grants_of_shape (s : Router.sys T) l : maps_inv s → grants_of itoa s l = [] ∨
  ∃ id k p server, s_threads s !! id = Some (k, TRunning p) ∧ turns l id ∧ may_grant k p = true ∧
    grants_of itoa s l = [WGrant (GetClaimResponseChannel (k_info k)) (MkClaimResponse id server)] ∧
    ∀ t', moved s l id k (TRunning p) t' → grantable k t' = false.
Proof.
  intros Hm. unfold grants_of. destruct l as [|? ? ?|id now src pe|?|?|?| | |]; try by left.
  destruct (s_threads s !! id) as [[k [|p|]]|] eqn:Ht; try by left.
  destruct (receive s id p src) as [[ev s1]|] eqn:Hr; [|by left].
  destruct (rpc_step itoa k now ev pe p) as [p' out] eqn:Hs. simpl.
  destruct (rpc_step_grants_once k now ev pe p p' out Hs) as [_ [->|(Hg & Hg' & server & ->)]]; [by left|]. right.
  exists id, k, p, server. rewrite (inv_id _ Hm _ _ _ Ht). split; [done|]. split; [done|]. split; [done|]. split; [done|].
  intros t' Hmv. inversion Hmv as [? Hno| |now' src' pe' p0 ev' s1' Heq Ht' Hr' _|]; simplify_eq.
  - by destruct Hno.
  - simpl. by rewrite Hs.
  - done.
Qed.

Lemma client_goes_inv y n l y' : system_inv y → client_goes itoa y n l = Some y' →
  match l with LStart _ => False | LTakeResponse r => heard y r | _ => True end → system_inv y'.
Proof.
  intros [Hcl Hsv Hca Hwi Hgr] Hgo Hl. unfold client_goes in Hgo.
  destruct (y_clients y !! n) as [c|] eqn:Hn; [|done]. simpl in Hgo.
  destruct (sys_step itoa l (cn_sys c)) as [s'|] eqn:Hs; [|done]. injection Hgo as <-. set (y' := MkSystem _ _ _ _).
  pose proof (Hcl n c Hn) as Hok. pose proof (co_maps _ _ _ Hok) as Hm.
  assert (match l with LStart _ => False | _ => True end) as Hl' by (by destruct l).
  assert (grows y y') as Hg.
  { split; simpl; [|by eauto|done|set_solver]. intros n' c' Hn'. destruct (decide (n = n')) as [<-|].
    - rewrite list_lookup_insert_eq by (by eapply lookup_lt_Some). eexists. split; [done|]. simpl. congruence.
    - rewrite list_lookup_insert_ne by done. by exists c'. }
  assert (∀ ch g, WGrant ch g ∈ y_wire y' → WGrant ch g ∈ y_wire y ∨ ∃ k p, s_threads (cn_sys c) !! cr_RequestId g = Some (k, TRunning p) ∧
    may_grant k p = true ∧ turns l (cr_RequestId g) ∧ ch = GetClaimResponseChannel (k_info k) ∧
    (∀ t', moved (cn_sys c) l (cr_RequestId g) k (TRunning p) t' → grantable k t' = false) ∧
    (∀ ch' g', WGrant ch' g' ∈ y_wire y' → WGrant ch' g' ∈ y_wire y ∨ g' = g)) as Hnew.
  { intros ch g. unfold y'. simpl. destruct (grants_of_shape (cn_sys c) l Hm) as [->|(id & k & p & server & Ht & Htu & Hmg & -> & Hmv)].
    { rewrite app_nil_r. by left. }
    intros [?|Hin]%elem_of_app; [by left|]. right. apply list_elem_of_singleton in Hin as [= -> ->]. simpl.
    exists k, p. split_and!; try done. intros ch' g' [?|Hin]%elem_of_app; [by left|]. right.
    by apply list_elem_of_singleton in Hin as [= _ ->]. }
  split.
  - intros n' c' Hn'. simpl in Hn'. destruct (decide (n = n')) as [<-|Hne].
    + rewrite list_lookup_insert_eq in Hn' by (by eapply lookup_lt_Some). injection Hn' as <-.
      assert (∀ id k t', s_threads s' !! id = Some (k, t') → ∃ t, s_threads (cn_sys c) !! id = Some (k, t) ∧ moved (cn_sys c) l id k t t') as Hmv
        by (intros id k t'; by apply thread_moves).
      split; simpl; [by eapply own_messages_step, Hs; apply Hok|by eapply maps_inv_step, Hs|..].
      * intros id r Hin. pose proof (sublist_subseteq _ _ (responses_flow itoa l _ s' id Hs) r Hin) as [Hin'|Hin']%elem_of_app.
        -- by eapply heard_grows, (co_heard _ _ _ Hok).
        -- eapply heard_grows; [done|]. destruct l; simpl in Hin'; try by apply elem_of_nil in Hin'.
           case_bool_decide; [by apply list_elem_of_singleton in Hin' as ->|by apply elem_of_nil in Hin'].
      * intros id k t' (t & Ht & _)%Hmv. by apply (co_call _ _ _ Hok id k t).
      * intros id k t' (t & Ht & Hmt)%Hmv. by eapply result_grows, moved_result.
      * intros id k t' (t & Ht & Hmt)%Hmv Hg' ch g [Hin|(k' & p & Ht' & _ & _ & _ & Hno & _)]%Hnew.
        -- by eapply (co_grants _ _ _ Hok id k t Ht), Hin; eapply moved_grantable.
        -- intros <-. rewrite Ht in Ht'. injection Ht' as -> ->. by rewrite (Hno _ Hmt) in Hg'.
    + rewrite list_lookup_insert_ne in Hn' by done. eapply client_grows; [done|by apply Hcl|].
      intros ch g [Hin|(k & p & Ht & _)]%Hnew; [by left|right]. destruct (co_call _ _ _ Hok _ _ _ Ht) as (md & Hmd & Hc & _).
      exists md. split; [done|congruence].
  - intros m sn Hm'. by eapply server_grows, Hsv.
  - intros id md Hmd. by eapply prepared_grows, Hca.
  - intros msg Hin. simpl in Hin. apply elem_of_app in Hin as [Hin|Hin]; [by eapply explained_grows, Hwi|].
    destruct msg as [ch ir|ch claim|ch g|ch res].
    1,2,4: destruct (grants_of_shape (cn_sys c) l Hm) as [Hnil|(?&?&?&?&_&_&_&Hnil&_)]; rewrite Hnil in Hin; set_solver.
    destruct (Hnew ch g) as [Hw|(k & p & Ht & _ & _ & -> & _)]; [simpl; apply elem_of_app; by right|by eapply explained_grows, Hwi|].
    destruct (co_call _ _ _ Hok _ _ _ Ht) as (md & Hmd & _ & <-). by exists md.
  - intros ch g ch' g' Hin Hin' Heq.
    destruct (Hnew ch g Hin) as [Hw|(k & p & Ht & Hmg & _ & _ & _ & Hone)].
    + destruct (Hnew ch' g' Hin') as [Hw'|(k & p & Ht & Hmg & _)]; [by eapply Hgr|].
      by destruct (co_grants _ _ _ Hok _ _ _ Ht Hmg ch g Hw).
    + destruct (Hone ch' g' Hin') as [Hw'| ->]; [|done]. symmetry in Heq. by destruct (co_grants _ _ _ Hok _ _ _ Ht Hmg ch' g' Hw').
Qed.

(** A call under a fresh ID. *)
Lemma call_inv y n k md id y1 : system_inv y → client_goes itoa y n (LStart k) = Some y1 → y_calls y !! id = None →
  k_requestID k = id → md_client md = n → md_call md = k →
  (∀ c, y_clients y !! n = Some c → ∃ i cx now0 now ty opts,
     newRPC_prepare (cn_client c) i cx now0 now id ty (md_message md) opts = Ok (md_call md, md_pub md)) →
  system_inv (with_call y1 id md).
Proof.
  intros [Hcl Hsv Hca Hwi Hgr] Hgo Hfresh Hid Hmn Hmk Hprep. unfold client_goes in Hgo.
  destruct (y_clients y !! n) as [c|] eqn:Hn; [|done]. cbn [mbind option_bind] in Hgo.
  destruct (sys_step itoa (LStart k) (cn_sys c)) as [s'|] eqn:Hs; [|done]. injection Hgo as <-.
  set (y' := with_call _ _ _). pose proof (Hcl n c Hn) as Hok.
  assert (y_wire y' = y_wire y) as Hw by (unfold y'; simpl; by rewrite app_nil_r).
  assert (grows y y') as Hg.
  { split; rewrite ?Hw; simpl; [|by eauto|by apply insert_subseteq|done]. intros n' c' Hn'. destruct (decide (n = n')) as [<-|].
    - rewrite list_lookup_insert_eq by (by eapply lookup_lt_Some). eexists. split; [done|]. simpl. congruence.
    - rewrite list_lookup_insert_ne by done. by exists c'. }
  split.
  - intros n' c' Hn'. simpl in Hn'. destruct (decide (n = n')) as [<-|Hne].
    + rewrite list_lookup_insert_eq in Hn' by (by eapply lookup_lt_Some). injection Hn' as <-.
      assert (s_threads s' = <[id := (k, TPublishing)]> (s_threads (cn_sys c))) as Hth.
      { simpl in Hs. destruct (s_threads (cn_sys c) !! k_requestID k); [done|]. injection Hs as <-. simpl. by rewrite Hid. }
      split; cbn [cn_sys]; [by eapply own_messages_step, Hs; apply Hok|by eapply maps_inv_step, Hs; apply Hok|..].
      * intros id' r Hin. pose proof (sublist_subseteq _ _ (responses_flow itoa _ _ s' id' Hs) r Hin) as [Hin'|Hin']%elem_of_app.
        -- by eapply heard_grows, (co_heard _ _ _ Hok).
        -- by apply elem_of_nil in Hin'.
      * intros id' k' t. rewrite Hth. intros [[<- [= <- <-]]|[Hne Ht]]%lookup_insert_Some.
        -- exists md. split; [by apply lookup_insert_eq|done].
        -- destruct (co_call _ _ _ Hok _ _ _ Ht) as (md' & Hmd & ?). exists md'. split; [|done]. by eapply lookup_weaken, gr_calls.
      * intros id' k' t. rewrite Hth. intros [[<- [= <- <-]]|[Hne Ht]]%lookup_insert_Some; [done|].
        by eapply result_grows, (co_result _ _ _ Hok id').
      * intros id' k' t. rewrite Hth, Hw. intros [[<- [= <- <-]]|[Hne Ht]]%lookup_insert_Some.
        -- intros _ ch g (md' & Hmd & _)%Hwi. intros Heq. rewrite Heq in Hmd. congruence.
        -- by apply (co_grants _ _ _ Hok id' k').
    + rewrite list_lookup_insert_ne in Hn' by done. eapply client_grows; [done|by apply Hcl|]. rewrite Hw. by left.
  - intros m sn Hm'. by eapply server_grows, Hsv.
  - intros id' md'. simpl. intros [[<- <-]|[Hne Hmd]]%lookup_insert_Some; [|by eapply prepared_grows, Hca].
    destruct (Hprep c eq_refl) as (i & cx & now0 & now & ty & opts & Hp). eapply prepared_grows; [exact Hg|].
    exists c, i, cx, now0, now, ty, opts. by rewrite Hmn.
  - intros msg. rewrite Hw. intros Hin. by eapply explained_grows, Hwi.
  - rewrite Hw. exact Hgr.
Qed.

(** *** Steps of a server *)

Lemma message_of_did (acts : list (nat * act)) msg : msg ∈ omap message_of acts → ∃ n a, (n, a) ∈ acts ∧
  match msg with WClaim ch b => a = ABid ch b | WResponse ch r => a = ARespond ch r | _ => False end.
Proof.
  intros ([n a] & Hin & Heq)%list_elem_of_omap. exists n, a. split; [done|].
  destruct a; simpl in Heq; try done; by injection Heq as <-.
Qed.

Lemma server_run_snoc (s : server) (h : rpcHandlerImpl (W := W)) ls l x x1 x' : ServerRun.run s h ls x = Some x1 →
  ServerRun.step s h l x1 = ServerRun.Next x' → ServerRun.run s h (ls ++ [l]) x = Some x'.
Proof.
  revert x. induction ls as [|l0 ls IH]; intros x; simpl.
  - intros [= ->] ->. done.
  - destruct (ServerRun.step s h l0 x); [|done..]. apply IH.
Qed.

Lemma server_goes_inv y m l y' : system_inv y → server_goes y m l = Some y' →
  (∀ sn, y_servers y !! m = Some sn →
     match l with
     | ServerRun.LDeliver ir => WRequest (GetRPCChannel (h_i (sn_handler sn))) ir ∈ y_wire y
     | ServerRun.LDeliverClaim claim => WGrant (GetClaimResponseChannel (h_i (sn_handler sn))) claim ∈ y_wire y
     | _ => True
     end) → system_inv y'.
Proof.
  intros [Hcl Hsv Hca Hwi Hgr] Hgo Hl. unfold server_goes in Hgo.
  destruct (y_servers y !! m) as [sn|] eqn:Hm; [|done]. simpl in Hgo.
  destruct (ServerRun.step _ _ l _) as [x'| |] eqn:Hs; [|done..]. injection Hgo as <-. set (y' := MkSystem _ _ _ _).
  destruct (step_acts _ _ _ _ _ Hs) as [new Hacts].
  assert (y_wire y' = y_wire y ++ omap message_of new) as Hw by (unfold y'; simpl; by rewrite Hacts, drop_app_length).
  assert (grows y y') as Hg.
  { split; [by eauto| |done|rewrite Hw; set_solver]. intros m' sn' Hm'. simpl. destruct (decide (m = m')) as [<-|].
    - rewrite list_lookup_insert_eq by (by eapply lookup_lt_Some). eexists. split; [done|]. simpl. rewrite Hm in Hm'.
      injection Hm' as <-. rewrite Hacts. set_solver.
    - rewrite list_lookup_insert_ne by done. by exists sn'. }
  assert (∀ ch g, WGrant ch g ∈ y_wire y' → WGrant ch g ∈ y_wire y) as Hnog.
  { intros ch g. rewrite Hw. intros [?|Hin]%elem_of_app; [done|]. by apply message_of_did in Hin as (? & ? & _ & []). }
  split.
  - intros n c Hn. eapply client_grows; [done|by apply Hcl|]. intros ch g Hin. left. by apply Hnog.
  - intros m' sn' Hm'. simpl in Hm'. destruct (decide (m = m')) as [<-|Hne].
    + rewrite list_lookup_insert_eq in Hm' by (by eapply lookup_lt_Some). injection Hm' as <-.
      destruct (Hsv m sn Hm) as (size & w & ls & Hr & Hreq & Hgrant). specialize (Hl sn eq_refl).
      exists size, w, (ls ++ [l]). simpl. split; [by eapply server_run_snoc|].
      unfold ServerClose.requests_delivered, ServerClose.claims_delivered in *. split.
      * intros ir. rewrite omap_app, elem_of_app. intros [Hin|Hin]; apply (gr_wire _ _ Hg); [by apply Hreq|].
        destruct l; simpl in Hin; try by apply elem_of_nil in Hin. by apply list_elem_of_singleton in Hin as ->.
      * intros claim. rewrite omap_app, elem_of_app. intros [Hin|Hin]; apply (gr_wire _ _ Hg); [by apply Hgrant|].
        destruct l; simpl in Hin; try by apply elem_of_nil in Hin. by apply list_elem_of_singleton in Hin as ->.
    + rewrite list_lookup_insert_ne in Hm' by done. by eapply server_grows, Hsv.
  - intros id md Hmd. by eapply prepared_grows, Hca.
  - intros msg. rewrite Hw. intros [Hin|Hin]%elem_of_app; [by eapply explained_grows, Hwi|].
    apply message_of_did in Hin as (n & a & Hin & Hmsg).
    assert (did y' a) as Hdid.
    { exists m, (MkServerNode (sn_server sn) (sn_handler sn) x'), n. split; [simpl; by apply list_lookup_insert_eq, (lookup_lt_Some _ _ _ Hm)|].
      simpl. rewrite Hacts. apply elem_of_app. by right. }
    destruct msg; try done; by subst a.
  - intros ch g ch' g' Hin%Hnog Hin'%Hnog. by apply (Hgr ch g ch' g').
Qed.

(** *** Runs *)

Lemma publish_inv y msg : system_inv y → explained y msg → (∀ ch g, msg ≠ WGrant ch g) → system_inv (publish y msg).
Proof.
  intros [Hcl Hsv Hca Hwi Hgr] He Hno. assert (grows y (publish y msg)) as Hg by (split; simpl; [by eauto|by eauto|done|set_solver]).
  assert (∀ ch g, WGrant ch g ∈ y_wire (publish y msg) → WGrant ch g ∈ y_wire y) as Hnog.
  { intros ch g [?|Hin]%elem_of_app; [done|]. apply list_elem_of_singleton in Hin. by destruct (Hno ch g). }
  split.
  - intros n c Hn. eapply client_grows; [done|by apply Hcl|]. intros ch g Hin. left. by apply Hnog.
  - intros m sn Hm. by eapply server_grows, Hsv.
  - intros id md Hmd. by eapply prepared_grows, Hca.
  - intros msg' [Hin| ->%list_elem_of_singleton]%elem_of_app; (eapply explained_grows; [done|]); [by apply Hwi|done].
  - intros ch g ch' g' Hin%Hnog Hin'%Hnog. by apply (Hgr ch g ch' g').
Qed.

Lemma system_step_inv y l y' : system_inv y → system_step itoa l y = Some y' → system_inv y'.
Proof.
  intros Hi. destruct l as [n rpc topic cx now0 now id ty request opts|id|n l|n j r|n subject|m l|m j]; simpl.
  - destruct (y_clients y !! n) as [c|] eqn:Hn; simpl; [|done]. destruct (GetInfo _ _ _) as [i|]; simpl; [|done].
    destruct (newRPC_prepare _ _ _ _ _ _ _ _ _) as [[k pub]|] eqn:Hp; [|done]. destruct (y_calls y !! id) eqn:Hid; [done|].
    destruct (client_goes itoa y n (LStart k)) as [y1|] eqn:Hgo; simpl; [|done]. intros [= <-].
    pose proof (newRPC_prepare_request _ _ _ _ _ _ _ _ _ _ _ Hp) as (_&_&_&_&_&_&Hk&_).
    eapply call_inv; [done..|]. intros c' Hc'. rewrite Hn in Hc'. injection Hc' as <-. by exists i, cx, now0, now, ty, opts.
  - destruct (y_calls y !! id) as [md|] eqn:Hid; simpl; [|done]. destruct (y_clients y !! md_client md) as [c|]; simpl; [|done].
    destruct (s_threads (cn_sys c) !! id) as [[k []]|]; try done. intros [= <-]. apply publish_inv; [done| |done].
    simpl. destruct (yi_calls _ Hi id md Hid) as (c' & i & cx & now0 & now & ty & opts & _ & Hp).
    pose proof (newRPC_prepare_request _ _ _ _ _ _ _ _ _ _ _ Hp) as (_&Hr&_). exists md. by rewrite Hr.
  - destruct (client_alone l) eqn:Ha; [|done]. intros Hgo. eapply client_goes_inv; [done|exact Hgo|]. by destruct l.
  - destruct (y_clients y !! n) as [c|]; simpl; [|done]. destruct (y_wire y !! j) as [msg|] eqn:Hj; simpl; [|done].
    destruct msg; try done; destruct (hears _ _ _ _); try done; intros Hgo; (eapply client_goes_inv; [done|exact Hgo|]); [done|].
    left. eexists. by eapply list_elem_of_lookup_2.
  - destruct (y_clients y !! n) as [c|]; simpl; [|done]. destruct (c_inbox _); [|done]. intros Hgo.
    eapply client_goes_inv; [done|exact Hgo|]. right. by eexists.
  - destruct (server_alone l) eqn:Ha; [|done]. intros Hgo. eapply server_goes_inv; [done|exact Hgo|]. by destruct l.
  - destruct (y_servers y !! m) as [sn|] eqn:Hm; simpl; [|done]. destruct (y_wire y !! j) as [msg|] eqn:Hj; simpl; [|done].
    apply list_elem_of_lookup_2 in Hj. destruct msg; try done; case_bool_decide as Hch; try done; intros Hgo;
      (eapply server_goes_inv; [done|exact Hgo|]); intros sn' Hm'; rewrite Hm in Hm'; injection Hm' as <-; by subst ch.
Qed.

Lemma initial_inv clients servers : system_inv (initial clients servers).
Proof.
  split; simpl.
  - intros n c Hn. apply list_lookup_fmap_Some in Hn as ([c0 size] & -> & _).
    destruct (new_sys_invariants (T := T) size) as (Ho & Hm & _). split; simpl; try done.
    intros id r. by rewrite (proj2 (new_sys_empty size id)), elem_of_nil.
  - intros m sn Hn. apply list_lookup_fmap_Some in Hn as ([[[s h] size] w] & -> & _). exists size, w, []. split; [done|].
    by split; intros ? ?%elem_of_nil.
  - done.
  - by intros msg ?%elem_of_nil.
  - by intros ch g ch' g' ?%elem_of_nil.
Qed.

Lemma system_run_inv ls y y' : system_inv y → system_run itoa ls y = Some y' → system_inv y'.
Proof.
  revert y. induction ls as [|l ls IH]; intros y Hi; simpl; [by intros [= <-]|].
  destruct (system_step itoa l y) as [y1|] eqn:Hs; simpl; [|done]. by eapply IH, system_step_inv.
Qed.
End invariant.
