(* ===== verification/SystemCalls.v ===== *)
(** * SystemCalls.v: what calls are worth in a system of clients, servers and a bus

    On [System]'s runs: one server handles a claimed call, and what a call returns is what
    a handler answered to the message the caller gave. *)
From S2P Require Import Prelude Errors Bus Info Metadata Interceptors Float32 Options Messages Selection ClientRPC Router ServerRPC Protocol.
From S2P Require ServerRun ServerClose.
From S2P Require Import System.

Section calls.
Context `{GrpcApi} `{!StatusApi} `{!Codec} {T : carried} {W : Type} (itoa : Z → string).
Implicit Types (y : system T W).

(** The goroutine [n] of the handler [m], with its request, ran the handler. *)
Definition ran y (m n : nat) (sn : server_node (W := W)) (g : ServerRun.goroutine) : Prop :=
  y_servers y !! m = Some sn ∧ ServerRun.r_goroutines (sn_sys sn) !! n = Some g ∧
  ∃ req, (n, AHandle req) ∈ ServerRun.r_acts (sn_sys sn).

(** A request that is claimed: the queue did not choose for the client. *)
Definition claimed (sn : server_node (W := W)) (g : ServerRun.goroutine) : bool :=
  ri_RequireClaim (h_i (sn_handler sn)) && negb (ri_Queue (h_i (sn_handler sn)) && rq_NoClaim (ServerRun.g_ir g)).

Lemma handles_in acts req : AHandle req ∈ acts → handles acts = true.
Proof. intros [l1 [l2 ->]]%list_elem_of_split. unfold handles. rewrite existsb_app. simpl. apply orb_true_r. Qed.

Lemma quiet_in acts a : quiet acts → a ∈ acts → match a with AHandle _ | ARespond _ _ => False | _ => True end.
Proof. intros Hq Ha. unfold quiet in Hq. rewrite Forall_forall in Hq. specialize (Hq a Ha). by destruct a. Qed.

(** What a goroutine that handled or responded did is all that [handleRequest] does, and
    its request was published where its handler listens. *)
Lemma did_whole y m sn n a : system_inv y → y_servers y !! m = Some sn → (n, a) ∈ ServerRun.r_acts (sn_sys sn) →
  match a with AHandle _ | ARespond _ _ => True | _ => False end →
  ∃ g now pubErr d now' w, ServerRun.r_goroutines (sn_sys sn) !! n = Some g ∧
    WRequest (GetRPCChannel (h_i (sn_handler sn))) (ServerRun.g_ir g) ∈ y_wire y ∧
    (handleRequest (sn_server sn) (sn_handler sn) (ServerRun.g_ir g) now pubErr d now' w).2 = ServerClose.acts_of (sn_sys sn) n ∧
    match d with
    | Decided claim => cr_RequestId claim = rq_RequestId (ServerRun.g_ir g) ∧
        WGrant (GetClaimResponseChannel (h_i (sn_handler sn))) claim ∈ y_wire y
    | TimedOut => True
    end.
Proof.
  intros Hi Hm Ha Hkind. destruct (yi_server _ Hi m sn Hm) as (size & w0 & ls & Hr & Hreq & Hgr).
  destruct (goroutine_did _ _ size w0 ls _ n a Hr Ha) as (g & Hg & Hd & [Hq|(now & pubErr & d & now' & w & Hk & Heq)]).
  - apply acts_of_in in Ha. pose proof (quiet_in _ a Hq Ha). by destruct a.
  - exists g, now, pubErr, d, now', w. split; [done|]. split; [by apply Hreq|]. split; [done|].
    destruct d as [claim|]; [|done]. destruct Hk as [Hin Hid]. split; [done|by apply Hgr].
Qed.

(** A goroutine that handled a claimed request was granted it. *)
Lemma ran_granted y m n sn g : system_inv y → ran y m n sn g → claimed sn g = true →
  ∃ ch claim, WGrant ch claim ∈ y_wire y ∧ cr_RequestId claim = rq_RequestId (ServerRun.g_ir g) ∧ cr_ServerId claim = sv_ID (sn_server sn).
Proof.
  intros Hi (Hm & Hg & req & Ha) Hc.
  destruct (did_whole y m sn n _ Hi Hm Ha I) as (g' & now & pubErr & d & now' & w & Hg' & _ & Heq & Hd).
  rewrite Hg in Hg'. injection Hg' as <-. apply andb_prop in Hc as [Hc Hq%negb_true_iff].
  assert (handles (handleRequest (sn_server sn) (sn_handler sn) (ServerRun.g_ir g) now pubErr d now' w).2 = true) as Hh
    by (rewrite Heq; by eapply handles_in, acts_of_in).
  apply handles_needs_grant in Hh as [[Hno|[Hq1 Hq2]]|(claim & -> & Hid)]; [congruence|by rewrite Hq1, Hq2 in Hq|].
  destruct Hd as [Hrid Hin]. eauto.
Qed.

(** The request of a goroutine is that of the call with its ID. *)
Lemma ran_request y m n sn g : system_inv y → ran y m n sn g →
  ∃ md, y_calls y !! rq_RequestId (ServerRun.g_ir g) = Some md ∧ ServerRun.g_ir g = pb_request (md_pub md).
Proof.
  intros Hi (Hm & Hg & req & Ha). destruct (did_whole y m sn n _ Hi Hm Ha I) as (g' & ? & ? & ? & ? & ? & Hg' & Hw & _).
  rewrite Hg in Hg'. injection Hg' as <-. destruct (yi_wire _ Hi _ Hw) as (md & Hmd & Heq & _). by exists md.
Qed.

Lemma response_id (s : server) ir t response err : rs_RequestId (response_of s ir t response err) = rq_RequestId ir.
Proof.
  unfold response_of. destruct err as [e|].
  - destruct (as_Error e); [done|]. destruct (FromError e) as [st|]; [by case_bool_decide|done].
  - destruct response as [m|]; [|done]. by destruct (SerializePayload m).
Qed.

(** A response is the answer to a request that does not decode, or the handler's. *)
Lemma handleRequest_responds (s : server) (h : rpcHandlerImpl (W := W)) ir now pubErr d now' w ch res :
  ARespond ch res ∈ (handleRequest s h ir now pubErr d now' w).2 → rs_RequestId res = rq_RequestId ir ∧
  ((∃ e, DeserializePayload (h_RequestType h) (rq_RawRequest ir) = Err e) ∨
   ∃ req t response err w0, DeserializePayload (h_RequestType h) (rq_RawRequest ir) = Ok req ∧
     AHandle req ∈ (handleRequest s h ir now pubErr d now' w).2 ∧
     (h_handler h (hctx_of ir) req w0).2 = (response, err) ∧ res = response_of s ir t response err).
Proof.
  destruct (handleRequest_shape s h ir now pubErr d now' w) as (pre & post & -> & Hq & He).
  intros [Hin|Hin]%elem_of_app; [by apply (quiet_in _ _ Hq) in Hin|].
  destruct He as [|e t Hd|req t response err w0 Hd Hh].
  - by apply elem_of_nil in Hin.
  - apply list_elem_of_singleton in Hin as [= _ ->]. split; [done|]. left. by exists e.
  - apply elem_of_cons in Hin as [|Hin]; [done|]. apply list_elem_of_singleton in Hin as [= _ ->].
    split; [by apply response_id|]. right. exists req, t, response, err, w0. split; [done|]. split; [|done].
    apply elem_of_app. right. by left.
Qed.
End calls.

(** ** Properties *)

(** C1: in a system of any clients and servers, whatever the bus loses, delays, repeats or
    reorders and however their goroutines interleave, one server handles a claimed call:
    two goroutines that ran a handler for one request ID, wherever they are, belong to
    servers of one ID and had the same request, the one its caller published; and they are
    one goroutine unless a server was given the request twice. *)
Theorem system_one_server_handles `{GrpcApi} `{!StatusApi} `{!Codec} {T : carried} {W : Type} (itoa : Z → string)
    (clients : list (RPCClient T * nat)) (servers : list (server * rpcHandlerImpl (W := W) * nat * W)) (ls : list (ylabel T))
    (y : system T W) (m1 n1 m2 n2 : nat) (sn1 sn2 : server_node) (g1 g2 : ServerRun.goroutine)
    (Hrun : system_run itoa ls (initial clients servers) = Some y)
    (Hran1 : ran y m1 n1 sn1 g1) (Hran2 : ran y m2 n2 sn2 g2)
    (Hclaimed1 : claimed sn1 g1 = true) (Hclaimed2 : claimed sn2 g2 = true)
    (Hid : rq_RequestId (ServerRun.g_ir g1) = rq_RequestId (ServerRun.g_ir g2)) :
  sv_ID (sn_server sn1) = sv_ID (sn_server sn2) ∧
  (∃ md, y_calls y !! rq_RequestId (ServerRun.g_ir g1) = Some md ∧
     ServerRun.g_ir g1 = pb_request (md_pub md) ∧ ServerRun.g_ir g2 = pb_request (md_pub md)) ∧
  (m1 = m2 → NoDup (rq_RequestId ∘ ServerRun.g_ir <$> ServerRun.r_goroutines (sn_sys sn1)) → n1 = n2).
Proof.
  pose proof (system_run_inv itoa ls _ y (initial_inv clients servers) Hrun) as Hi. split; [|split].
  - destruct (ran_granted y m1 n1 sn1 g1 Hi Hran1 Hclaimed1) as (ch1 & c1 & Hw1 & Hr1 & <-).
    destruct (ran_granted y m2 n2 sn2 g2 Hi Hran2 Hclaimed2) as (ch2 & c2 & Hw2 & Hr2 & <-).
    apply (yi_grants _ Hi ch1 c1 ch2 c2); [done|done|congruence].
  - destruct (ran_request y m1 n1 sn1 g1 Hi Hran1) as (md & Hmd & Hg1).
    destruct (ran_request y m2 n2 sn2 g2 Hi Hran2) as (md' & Hmd' & Hg2). exists md. split; [done|]. split; [done|].
    rewrite Hid in Hmd. congruence.
  - intros <- Hnd. destruct Hran1 as (Hm1 & Hg1 & _), Hran2 as (Hm2 & Hg2 & _). rewrite Hm1 in Hm2. injection Hm2 as <-.
    eapply NoDup_lookup; [exact Hnd|by rewrite list_lookup_fmap, Hg1|]. rewrite list_lookup_fmap, Hg2. simpl. by rewrite Hid.
Qed.

(** C2: in such a system a call that returns a message returns the answer to its own: a
    server that listens where the call was published had the very request the caller
    published, and when it takes the caller's type of message, its handler ran on the
    caller's message and the result is what that run returned, as it reaches the caller. *)
Theorem system_result_authentic `{GrpcApi} `{!StatusApi} `{!Codec} {T : carried} {W : Type} (itoa : Z → string)
    (clients : list (RPCClient T * nat)) (servers : list (server * rpcHandlerImpl (W := W) * nat * W)) (ls : list (ylabel T))
    (y : system T W) (n : nat) (c : client_node) (id : string) (k : call T) (m : message)
    (Hrun : system_run itoa ls (initial clients servers) = Some y) (Hc : y_clients y !! n = Some c)
    (Hk : s_threads (cn_sys c) !! id = Some (k, TRunning (PReturned (Ok m)))) :
  ∃ md j sn i g, y_calls y !! id = Some md ∧ md_client md = n ∧ md_call md = k ∧
    y_servers y !! j = Some sn ∧ ServerRun.r_goroutines (sn_sys sn) !! i = Some g ∧
    ServerRun.g_ir g = pb_request (md_pub md) ∧ GetRPCChannel (h_i (sn_handler sn)) = pb_channel (md_pub md) ∧
    (h_RequestType (sn_handler sn) = FullName (md_message md) →
       (i, AHandle (md_message md)) ∈ ServerRun.r_acts (sn_sys sn) ∧
       ∃ w t response err, (h_handler (sn_handler sn) (hctx_of (ServerRun.g_ir g)) (md_message md) w).2 = (response, err) ∧
         outcome_of k (sn_server sn) (ServerRun.g_ir g) t response err = Ok m).
Proof.
  pose proof (system_run_inv itoa ls _ y (initial_inv clients servers) Hrun) as Hi. pose proof (yi_client _ Hi n c Hc) as Hok.
  destruct (co_result _ _ _ Hok _ _ _ Hk) as (ch & res & Hw & Hid & Hfin).
  rewrite (inv_id _ (co_maps _ _ _ Hok) _ _ _ Hk) in Hid.
  destruct (co_call _ _ _ Hok _ _ _ Hk) as (md & Hmd & Hn & Hcall).
  destruct (yi_wire _ Hi _ Hw) as (j & sn & i & Hj & Ha).
  destruct (did_whole y j sn i _ Hi Hj Ha I) as (g & now & pubErr & d & now' & w & Hg & Hreq & Heq & _).
  pose proof Ha as Hin. apply acts_of_in in Hin. rewrite <- Heq in Hin.
  destruct (handleRequest_responds _ _ _ _ _ _ _ _ _ _ Hin) as [Hrid Hans].
  destruct (yi_wire _ Hi _ Hreq) as (md' & Hmd' & Hir & Hch). assert (md' = md) as -> by congruence.
  exists md, j, sn, i, g. split_and!; try done. intros Hty.
  destruct (yi_calls _ Hi _ _ Hmd) as (c' & i' & cx & now0 & now1 & ty & opts & _ & Hp).
  pose proof (newRPC_prepare_request _ _ _ _ _ _ _ _ _ _ _ Hp) as (Hser & _). rewrite <- Hir in Hser.
  assert (DeserializePayload (h_RequestType (sn_handler sn)) (rq_RawRequest (ServerRun.g_ir g)) = Ok (md_message md)) as Hdec.
  { unfold SerializePayload in Hser. unfold DeserializePayload. rewrite Hty. by apply Unmarshal_Marshal. }
  rewrite Hdec in Hans. destruct Hans as [[e [=]]|(req & t & response & err & w0 & [= <-] & Hah & Hh & ->)].
  rewrite Heq in Hah. split; [by apply acts_of_in|]. by exists w0, t, response, err.
Qed.

(** ** A system of one client and two servers *)

Section system_witnesses.
#[local] Existing Instances grpc_numbers example_status.
#[local] Existing Instance Bus.Example.codec.

Definition system_client : RPCClient no_carried :=
  NewRPCClient (MkServiceDefinition "svc" "CLI_1" {["m" := MkMethodInfo false false true false]}) false [].

Definition system_handler : rpcHandlerImpl (W := unit) :=
  MkHandler (MkRequestInfo (MkRPCInfo "svc" "m" [] false) false true false) "M" (λ _ _ w, (w, (Some (("T", []) : message), None))) None.

Definition system_start : system no_carried unit :=
  initial [(system_client, 10%nat)] [(MkServer "svc" "SRV_a", system_handler, 10%nat, tt); (MkServer "svc" "SRV_b", system_handler, 10%nat, tt)].

Definition goes (m : nat) (d : decision) : ylabel no_carried := YServer m (ServerRun.LGoroutine 0 (ServerRun.MkInput 1 None d)).

(** Both servers bid; the first is granted, and its answer returned. *)
Definition one_call : list (ylabel no_carried) :=
  [YCall 0 "m" [] (MkCallerCtx None None) 0 0 "REQ_1" "T" (("M", []) : message)
     [WithSelectionOpts (MkSelectionOpts f32_zero f32_zero true Second 0 None)];
   YPublish "REQ_1"; YClient 0 (LPublished "REQ_1" 0 None);
   YDeliver 0 0; YServer 0 (ServerRun.LTakeRequest 1); goes 0 TimedOut; goes 0 TimedOut;
   YDeliver 1 0; YServer 1 (ServerRun.LTakeRequest 1); goes 1 TimedOut; goes 1 TimedOut;
   YHear 0 1 ""; YClient 0 LSend; YClient 0 (LTurn "REQ_1" 1 FromClaims None);
   YDeliver 0 3; YServer 0 ServerRun.LTakeClaim; YServer 0 ServerRun.LSend;
   goes 0 (Decided (MkClaimResponse "REQ_1" "SRV_a")); goes 0 TimedOut; goes 0 TimedOut;
   YHear 0 4 ""; YClient 0 LSend; YClient 0 (LTurn "REQ_1" 2 FromResponses None)].

Definition handled_and_returned (y : system no_carried unit) : bool :=
  match y_servers y !! 0%nat, y_clients y !! 0%nat with
  | Some sn, Some c =>
      match ServerRun.r_goroutines (sn_sys sn) !! 0%nat, s_threads (cn_sys c) !! "REQ_1" with
      | Some g, Some (_, TRunning (PReturned (Ok _))) =>
          claimed sn g && handles (ServerClose.acts_of (sn_sys sn) 0)
      | _, _ => false
      end
  | _, _ => false
  end.

Lemma one_call_works : from_option handled_and_returned false (system_run (λ _, "") one_call system_start) = true.
Proof. vm_compute. reflexivity. Qed.

Lemma handles_elem acts : handles acts = true → ∃ req, AHandle req ∈ acts.
Proof. intros (a & Ha & Hh)%existsb_exists. apply list_elem_of_In in Ha. destruct a as [| |req|]; try done. by exists req. Qed.

Lemma one_call_state : ∃ y sn g c k m, system_run (λ _, "") one_call system_start = Some y ∧
  ran y 0 0 sn g ∧ claimed sn g = true ∧
  y_clients y !! 0%nat = Some c ∧ s_threads (cn_sys c) !! "REQ_1" = Some (k, TRunning (PReturned (Ok m))).
Proof.
  pose proof one_call_works as Hw. destruct (system_run _ one_call system_start) as [y|]; [|done]. simpl in Hw. unfold handled_and_returned in Hw.
  destruct (y_servers y !! 0%nat) as [sn|] eqn:Hsn; [|done]. destruct (y_clients y !! 0%nat) as [c|] eqn:Hc; [|done].
  destruct (ServerRun.r_goroutines (sn_sys sn) !! 0%nat) as [g|] eqn:Hg; [|done].
  destruct (s_threads (cn_sys c) !! "REQ_1") as [[k [|[| |[m|]]|]]|] eqn:Hk; try done.
  apply andb_prop in Hw as [Hcl [req Hh]%handles_elem]. exists y, sn, g, c, k, m. split; [done|]. split; [|done].
  split; [done|]. split; [done|]. exists req. by apply acts_of_in.
Qed.

Lemma system_one_server_handles_witness : ∃ y sn g md, system_run (λ _, "") one_call system_start = Some y ∧
  ran y 0 0 sn g ∧ y_calls y !! rq_RequestId (ServerRun.g_ir g) = Some md ∧ ServerRun.g_ir g = pb_request (md_pub md).
Proof.
  destruct one_call_state as (y & sn & g & c & k & m & Hrun & Hran & Hcl & _).
  destruct (system_one_server_handles (λ _, "") [(system_client, 10%nat)]
    [(MkServer "svc" "SRV_a", system_handler, 10%nat, tt); (MkServer "svc" "SRV_b", system_handler, 10%nat, tt)]
    one_call y 0 0 0 0 sn sn g g Hrun Hran Hran Hcl Hcl eq_refl) as (_ & (md & Hmd & Hg & _) & _).
  exists y, sn, g, md. split; [exact Hrun|]. split; [exact Hran|]. split; [exact Hmd|exact Hg].
Defined.

Lemma system_result_authentic_witness : ∃ y md j sn, system_run (λ _, "") one_call system_start = Some y ∧
  y_calls y !! "REQ_1" = Some md ∧ y_servers y !! j = Some sn ∧ GetRPCChannel (h_i (sn_handler sn)) = pb_channel (md_pub md).
Proof.
  destruct one_call_state as (y & sn & g & c & k & m & Hrun & _ & _ & Hc & Hk).
  destruct (system_result_authentic (λ _, "") [(system_client, 10%nat)]
    [(MkServer "svc" "SRV_a", system_handler, 10%nat, tt); (MkServer "svc" "SRV_b", system_handler, 10%nat, tt)]
    one_call y 0 c "REQ_1" k m Hrun Hc Hk) as (md & j & sn' & i & g' & Hmd & _ & _ & Hj & _ & _ & Hch & _).
  exists y, md, j, sn'. split; [exact Hrun|]. split; [exact Hmd|]. split; [exact Hj|exact Hch].
Defined.
End system_witnesses.
