(* ===== verification/Transport.v ===== *)
(** * Transport.v: what a transport promises, and what rests on it

    [bus.Transport] of [src/pkg/bus/bus.go] as an interface: a machine whose steps publish
    payloads to destinations and hand payloads to readers.  The promise is the abstract
    bus: a subscription is handed payloads published to where it listens, each as often
    as it was published and no more.  [TransportLocal], [TransportRedis] and
    [TransportNats] discharge it; the theorems here need nothing but it. *)
From S2P Require Import Prelude Errors Bus.
From S2P Require Subscription.

(** ** Events *)

Inductive event (D K : Type) : Type :=
| Published (dest : D) (b : bytes)
| Handed (o : K) (b : bytes).
Arguments Published {D K} dest b.
Arguments Handed {D K} o b.

Section events.
Context {D K : Type} `{EqDecision K}.
Implicit Types (tr : list (event D K)).

Definition published tr : list (D * bytes) :=
  omap (λ e, match e with Published dest b => Some (dest, b) | Handed _ _ => None end) tr.

Definition handed_to (o : K) tr : list bytes :=
  omap (λ e, match e with Handed o' b => if decide (o' = o) then Some b else None | Published _ _ => None end) tr.

Lemma published_app tr1 tr2 : published (tr1 ++ tr2) = published tr1 ++ published tr2.
Proof. apply omap_app. Qed.

Lemma handed_app o tr1 tr2 : handed_to o (tr1 ++ tr2) = handed_to o tr1 ++ handed_to o tr2.
Proof. apply omap_app. Qed.
End events.

(** What is published where an address listens. *)
Definition heard {A D : Type} (hears : A → D → bytes → bool) (a : A) (ps : list (D * bytes)) : list bytes :=
  (filter (λ p, hears a p.1 p.2 = true) ps).*2.

Lemma heard_app {A D : Type} (hears : A → D → bytes → bool) (a : A) ps1 ps2 :
  heard hears a (ps1 ++ ps2) = heard hears a ps1 ++ heard hears a ps2.
Proof. unfold heard. by rewrite filter_app, fmap_app. Qed.

Lemma omap_submseteq {A B : Type} (f : A → option B) l1 l2 : l1 ⊆+ l2 → omap f l1 ⊆+ omap f l2.
Proof.
  induction 1 as [|x l1 l2 _ IH|x y l|x l1 l2 _ IH|l1 l2 l3 _ IH1 _ IH2]; simpl.
  - done.
  - destruct (f x); [by apply submseteq_skip|done].
  - destruct (f y), (f x); try done. by apply submseteq_swap.
  - destruct (f x); [by apply submseteq_cons|done].
  - by etrans.
Qed.

(** ** The abstract bus *)

(** [address o]: where subscription [o] listens. *)
Section bus.
Context {D K A : Type} `{EqDecision K} (hears : A → D → bytes → bool) (address : K → option A).

Record bus : Type := MkBus { b_published : list (D * bytes); b_handed : list (K * bytes) }.

Definition had (o : K) (y : bus) : list bytes := (filter (λ h, h.1 = o) (b_handed y)).*2.

Definition bus_step (e : event D K) (y : bus) : option bus :=
  match e with
  | Published dest b => Some (MkBus (b_published y ++ [(dest, b)]) (b_handed y))
  | Handed o b =>
      a ← address o;
      if decide (had o y ++ [b] ⊆+ heard hears a (b_published y))
      then Some (MkBus (b_published y) (b_handed y ++ [(o, b)])) else None
  end.

Fixpoint bus_run (tr : list (event D K)) (y : bus) : option bus :=
  match tr with
  | [] => Some y
  | e :: tr => y ← bus_step e y; bus_run tr y
  end.

Lemma bus_run_app tr1 tr2 y : bus_run (tr1 ++ tr2) y = bus_run tr1 y ≫= bus_run tr2.
Proof. revert y. induction tr1 as [|e tr1 IH]; intros y; [done|]. simpl. destruct (bus_step e y); simpl; [apply IH|done]. Qed.
End bus.
Arguments MkBus {D K} _ _.
Arguments bus D K : clear implicits.

(** ** Transports *)

Record transport : Type := MkTransport {
  m_state : Type;
  m_label : Type;
  m_key : Type;
  m_key_dec : EqDecision m_key;
  m_dest : Type;
  m_address : Type;
  m_hears : m_address → m_dest → bytes → bool;
  m_new : m_state;
  m_step : m_label → m_state → option m_state;
  m_event : m_label → m_state → option (event m_dest m_key);
  m_listens : m_state → m_key → option m_address
}.
#[export] Existing Instance m_key_dec.

Section machine.
Context (M : transport).

Fixpoint run (ls : list (m_label M)) (s : m_state M) : option (m_state M) :=
  match ls with
  | [] => Some s
  | l :: ls => s ← m_step M l s; run ls s
  end.

(** The events of a run. *)
Fixpoint trace (ls : list (m_label M)) (s : m_state M) : list (event (m_dest M) (m_key M)) :=
  match ls with
  | [] => []
  | l :: ls => match m_step M l s with Some s' => option_list (m_event M l s) ++ trace ls s' | None => [] end
  end.

Lemma run_snoc ls l s s' : run (ls ++ [l]) s = Some s' ↔ ∃ s1, run ls s = Some s1 ∧ m_step M l s1 = Some s'.
Proof.
  revert s. induction ls as [|l0 ls IH]; intros s; simpl.
  - split; [intros (s1 & ? & [= ->])%bind_Some; eauto|intros (? & [= ->] & ->); done].
  - destruct (m_step M l0 s) as [s0|]; simpl; [apply IH|]. naive_solver.
Qed.

Lemma trace_snoc ls l s s1 s' : run ls s = Some s1 → m_step M l s1 = Some s' →
  trace (ls ++ [l]) s = trace ls s ++ option_list (m_event M l s1).
Proof.
  revert s. induction ls as [|l0 ls IH]; intros s; simpl.
  - intros [= ->] ->. by rewrite app_nil_r.
  - destruct (m_step M l0 s) as [s0|]; simpl; [|done]. intros Hr Hs. by rewrite (IH s0 Hr Hs), (assoc_L (++)).
Qed.

(** Induction on runs, from the end. *)
Lemma run_trace_ind (P : m_state M → list (event (m_dest M) (m_key M)) → Prop) :
  P (m_new M) [] →
  (∀ s tr l s', P s tr → m_step M l s = Some s' → P s' (tr ++ option_list (m_event M l s))) →
  ∀ ls s, run ls (m_new M) = Some s → P s (trace ls (m_new M)).
Proof.
  intros H0 Hs ls. induction ls as [|l ls IH] using rev_ind; intros s.
  - by intros [= <-].
  - intros (s1 & Hr & Hl)%run_snoc. rewrite (trace_snoc ls l _ s1 s Hr Hl). by apply Hs; [apply IH|].
Qed.
End machine.

(** The promise.  A subscription listens where it did; what it was handed, with what is on
    its way, was published there. *)
Class Delivers (M : transport) : Prop := {
  listens_stay ls l s s' o a : run M ls (m_new M) = Some s → m_step M l s = Some s' → m_listens M s o = Some a → m_listens M s' o = Some a;
  handed_listens ls s o : run M ls (m_new M) = Some s → handed_to o (trace M ls (m_new M)) ≠ [] → is_Some (m_listens M s o);
  handed_heard ls s o a : run M ls (m_new M) = Some s → m_listens M s o = Some a →
    handed_to o (trace M ls (m_new M)) ⊆+ heard (m_hears M) a (published (trace M ls (m_new M)))
}.

(** *** It implements the abstract bus *)

Section refinement.
Context (M : transport) `{!Delivers M}.

(** The abstract bus after a trace. *)
Definition after (tr : list (event (m_dest M) (m_key M))) : bus (m_dest M) (m_key M) :=
  MkBus (published tr) (omap (λ e, match e with Handed o b => Some (o, b) | Published _ _ => None end) tr).

Lemma had_after o tr : had o (after tr) = handed_to o tr.
Proof.
  unfold had, after. cbn [b_handed]. induction tr as [|[dest b|o' b] tr IH]; [done|exact IH|]. cbn [omap list_omap handed_to].
  rewrite filter_cons. cbn [fst]. destruct (decide (o' = o)); [|exact IH]. rewrite fmap_cons. f_equal. exact IH.
Qed.

Lemma transport_refines ls s : run M ls (m_new M) = Some s →
  bus_run (m_hears M) (m_listens M s) (trace M ls (m_new M)) (MkBus [] []) = Some (after (trace M ls (m_new M))).
Proof.
  assert (∀ s', (∀ o a, m_listens M s o = Some a → m_listens M s' o = Some a) → run M ls (m_new M) = Some s →
    bus_run (m_hears M) (m_listens M s') (trace M ls (m_new M)) (MkBus [] []) = Some (after (trace M ls (m_new M)))) as Hgen;
    [|intros Hr; by apply Hgen].
  revert s. induction ls as [|l ls IH] using rev_ind; intros s s' Hle Hr; [done|].
  pose proof Hr as (s1 & Hr1 & Hl)%run_snoc. pose proof (trace_snoc M ls l _ s1 s Hr1 Hl) as Htr.
  assert (Hle1 : ∀ o a, m_listens M s1 o = Some a → m_listens M s' o = Some a) by (intros o a ?; by eapply Hle, listens_stay).
  rewrite Htr, bus_run_app, (IH s1 s' Hle1 Hr1). simpl. destruct (m_event M l s1) as [[dest b|o b]|] eqn:He; simpl.
  - unfold after. rewrite published_app, omap_app. simpl. by rewrite app_nil_r.
  - assert (Hh : handed_to o (trace M (ls ++ [l]) (m_new M)) = handed_to o (trace M ls (m_new M)) ++ [b]).
    { rewrite Htr, handed_app. simpl. by rewrite decide_True. }
    destruct (handed_listens (ls ++ [l]) s o Hr) as [a Ha]; [rewrite Hh; intros [_ [=]]%app_eq_nil|].
    rewrite (Hle o a Ha). simpl. rewrite had_after. pose proof (handed_heard (ls ++ [l]) s o a Hr Ha) as Hs.
    rewrite Hh, Htr, published_app in Hs. simpl in Hs. rewrite app_nil_r in Hs. rewrite decide_True by done.
    unfold after. rewrite published_app, omap_app. simpl. by rewrite app_nil_r.
  - by rewrite !app_nil_r.
Qed.
End refinement.
