(* ===== verification/TransportLocal.v ===== *)
(** * TransportLocal.v: the in-process bus keeps a transport's promise

    Every write a publisher of [LocalBus] makes is accounted for: it is of its own
    payload, to a subscription of its own channel, and the only one to that
    subscription. *)
From S2P Require Import Prelude Bus SubList Transport LocalBus LocalDelivery.

(** [Publish] publishes, and [Read] hands over. *)
Definition local_event (l : label) (s : LocalBus.transport) : option (event string nat) :=
  match l with
  | LPublish channel b => Some (Published channel b)
  | LRead o =>
      u ← t_all s !! o;
      match chan_recv (sub_msgChan u) with Received b _ => Some (Handed o b) | _ => None end
  | _ => None
  end.

Definition channel_of (s : LocalBus.transport) (l : nat) : option string := sl_channel <$> t_lists s !! l.

Definition local_listens (s : LocalBus.transport) (o : nat) : option string :=
  u ← t_all s !! o; channel_of s (sub_list u).

Definition local : Transport.transport :=
  {| m_hears := λ (channel dest : string) _, bool_decide (dest = channel);
     m_new := New;
     m_step := λ l s, match step l s with Next s' => Some s' | Blocked | Panic => None end;
     m_event := local_event;
     m_listens := local_listens |}.

(** ** The account *)

(** What the goroutines were started for: the publication of those that publish. *)
Definition started (l : label) : option (option (string * bytes)) :=
  match l with
  | LPublish channel b => Some (Some (channel, b))
  | LSubscribe _ _ _ | LClose _ => Some None
  | _ => None
  end.

Definition made (ls : list label) : list (option (string * bytes)) := omap started ls.

(** Who wrote to a subscription. *)
Definition writers (o : nat) (ws : list (nat * nat * bytes)) : list nat :=
  omap (λ w, if decide (w.1.2 = o) then Some w.1.1 else None) ws.

Definition is_publisher (t : thread) : bool :=
  match t with PLookup _ _ | PDispatch _ _ | PBroadcast _ _ _ _ | PQueueWrite _ _ _ _ => true | _ => false end.

(** The lists a publisher has before it, the one it is at included, and its payload. *)
Definition lists_in (t : thread) : list nat :=
  match t with
  | PDispatch lists _ => lists
  | PBroadcast l _ lists _ | PQueueWrite l _ lists _ => l :: lists
  | _ => []
  end.

Definition payload (t : thread) : bytes :=
  match t with PLookup _ b | PDispatch _ b | PBroadcast _ _ _ b | PQueueWrite _ _ _ b => b | _ => [] end.

(** A publisher is at the publication it was started for. *)
Definition serves (s : LocalBus.transport) (m : option (option (string * bytes))) (t : thread) : Prop :=
  is_publisher t = true →
  ∃ channel, m = Some (Some (channel, payload t)) ∧ NoDup (lists_in t) ∧
    (∀ l, l ∈ lists_in t → channel_of s l = Some channel) ∧
    match t with PLookup channel' _ => channel' = channel | _ => True end.

(** The writes to [o] a goroutine has before it. *)
Definition due (s : LocalBus.transport) (o : nat) (t : option thread) : nat :=
  match t_all s !! o, t with Some u, Some t => owed o (sub_list u) t | _, _ => 0 end.

Record accounted (ls : list label) (s : LocalBus.transport) : Prop := {
  ac_made : length (made ls) = length (t_threads s);
  ac_serves n t : t_threads s !! n = Some t → serves s (made ls !! n) t;
  ac_once n o : (occ n (writers o (writes ls New)) + due s o (t_threads s !! n) <= 1)%nat;
  ac_written n o b : (n, o, b) ∈ writes ls New →
    ∃ channel, local_listens s o = Some channel ∧ made ls !! n = Some (Some (channel, b))
}.

(** *** What a step keeps *)

Lemma channel_of_mono s s' l channel : mono s s' → channel_of s l = Some channel → channel_of s' l = Some channel.
Proof.
  intros Hm (L & HL & ->)%fmap_Some. destruct (mo_lists s s' Hm l L HL) as (L' & HL' & <- & _).
  unfold channel_of. by rewrite HL'.
Qed.

Lemma listens_mono s s' o channel : mono s s' → local_listens s o = Some channel → local_listens s' o = Some channel.
Proof.
  intros Hm (u & Hu & Hc)%bind_Some. destruct (mo_all s s' Hm o u Hu) as (u' & Hu' & Hl & _).
  unfold local_listens. rewrite Hu'. simpl. rewrite Hl. by eapply channel_of_mono.
Qed.

Lemma serves_mono s s' m t : mono s s' → serves s m t → serves s' m t.
Proof.
  intros Hm Hs Hp. destruct (Hs Hp) as (channel & ? & ? & Hl & ?). exists channel. split_and!; [done..| |done].
  intros l Hin. by eapply channel_of_mono, Hl.
Qed.

(** Subscriptions are made by subscribers. *)
Lemma publisher_makes_none s s' n t drop o : is_publisher t = true → thread_step s n t drop = Next s' →
  t_all s !! o = None → t_all s' !! o = None.
Proof.
  assert (Hw : ∀ s1 o' b t', and_then (write s o' b drop) (λ s, with_thread s n t') = Next s1 →
    t_all s !! o = None → t_all s1 !! o = None).
  { intros s1 o' b t'. unfold write. destruct (t_all s !! o') as [u|] eqn:Hu; [|done].
    destruct drop; [destruct (sub_canceled u); [|done]; by intros [= <-]|].
    destruct (chan_send _ _); [|done..]. intros [= <-]. simpl. intros Ho. rewrite list_lookup_insert_ne; [done|].
    intros ->. congruence. }
  destruct t as [channel b|[|l lists] b|l [|[o'|] rest] lists b|l o' lists b| | | | | | | | |]; simpl; try done; intros _.
  - destruct (transport_free s); [|done]. by intros [= <-].
  - by intros [= <-].
  - unfold dispatch. destruct (t_lists s !! l) as [L|]; [|done]. destruct (sl_queue L).
    + destruct (list_free s l); [|done]. destruct (pick _ _) as [[next p]|]; [|done]. by intros [= <-].
    + destruct (list_readable s l); [|done]. by intros [= <-].
  - by intros [= <-].
  - by apply Hw.
  - by intros [= <-].
  - by apply Hw.
Qed.

Lemma other_stays_other s s' n t drop : t_threads s !! n = Some t → is_publisher t = false →
  thread_step s n t drop = Next s' → ∃ t', t_threads s' = <[n := t']> (t_threads s) ∧ is_publisher t' = false.
Proof.
  intros Hn. destruct t as [| | | | |queue channel size|l size|o|o|o|o|o|o]; simpl; try done; intros _.
  - unfold subscribe. destruct (transport_free s); [|done].
    destruct ((if queue then t_queues s else t_subs s) !! channel); intros [= <-]; by eexists.
  - unfold create. destruct (t_lists s !! l); [|done]. destruct (list_free s l); [|done]. intros [= <-]. by eexists.
  - destruct (t_all s !! o); [|done]. intros [= <-]. by eexists.
  - destruct (transport_free s); [|done]. intros [= <-]. by eexists.
  - unfold onUnsubscribe. destruct (t_all s !! o) as [u|]; [|done]. destruct (t_lists s !! sub_list u); [|done].
    destruct (list_free s _); [|done]. destruct (_ <? _)%nat; [|done]. intros [= <-]. by eexists.
  - destruct (t_all s !! o); [|done]. destruct (chan_close _); [|done]. intros [= <-]. by eexists.
Qed.

Lemma occ_NoDup {A} `{EqDecision A} (a : A) l : NoDup l → (occ a l <= 1)%nat.
Proof.
  induction 1 as [|x l Hx _ IH]; [rewrite occ_nil; lia|]. rewrite occ_cons. destruct (decide (x = a)) as [->|]; [|lia].
  rewrite (occ_none a l) by done. lia.
Qed.

Lemma NoDup_occ {A} `{EqDecision A} (l : list A) : (∀ a, (occ a l <= 1)%nat) → NoDup l.
Proof.
  induction l as [|x l IH]; intros Hl; constructor.
  - intros Hx. specialize (Hl x). rewrite occ_cons, decide_True in Hl by done.
    assert (occ x l ≠ 0%nat); [|lia]. unfold occ. intros Hz%nil_length_inv.
    assert (x ∈ filter (λ y, y = x) l) as Hin by (by apply list_elem_of_filter). rewrite Hz in Hin. by apply elem_of_nil in Hin.
  - apply IH. intros a. specialize (Hl a). rewrite occ_cons in Hl. lia.
Qed.

(** A lookup finds two lists at most, a channel's own and its queue's. *)
Lemma lists_of_ok s channel : core_ok s →
  NoDup (lists_of s channel) ∧ ∀ l, l ∈ lists_of s channel → channel_of s l = Some channel.
Proof.
  intros Hc. assert (Hin : ∀ l, l ∈ lists_of s channel → channel_of s l = Some channel).
  { intros l [queue Hq]%in_lists_of. destruct (co_maps s Hc queue channel l Hq) as (L & HL & <- & _).
    unfold channel_of. by rewrite HL. }
  split; [|done]. unfold lists_of. pose proof (co_maps s Hc false channel) as H1. pose proof (co_maps s Hc true channel) as H2.
  simpl in H1, H2. destruct (t_subs s !! channel) as [l1|], (t_queues s !! channel) as [l2|]; simpl;
    [|apply NoDup_singleton..|constructor].
  constructor; [|apply NoDup_singleton]. intros ->%list_elem_of_singleton.
  destruct (H1 l2 eq_refl) as (L1 & ? & _ & ?). destruct (H2 l2 eq_refl) as (L2 & ? & _ & ?). congruence.
Qed.

(** A subscription about to be made is owed a publication once at most. *)
Lemma owed_new s n t m o lo : inv s → t_threads s !! n = Some t → serves s m t → t_all s !! o = None →
  (owed o lo t <= 1)%nat.
Proof.
  intros Hinv Hn Hs Ho. pose proof (iv_threads s Hinv n t Hn) as Hok. pose proof (iv_core s Hinv) as Hc.
  assert (Hno : ∀ l L, t_lists s !! l = Some L → Some o ∉ sl_subs L).
  { intros l L HL [i Hi]%list_elem_of_lookup_1. destruct (co_subs s Hc l L i o HL Hi) as (u & ? & _). congruence. }
  destruct t as [channel b|lists b|l rest lists b|l o' lists b| | | | | | | | |]; simpl; try lia;
    destruct (Hs eq_refl) as (channel' & _ & Hnd & _); simpl in Hnd.
  - by apply occ_NoDup.
  - apply NoDup_cons in Hnd as [_ Hnd]. pose proof (occ_NoDup lo _ Hnd). destruct Hok as (_ & L & pre & HL & Hp).
    rewrite occ_none; [lia|]. intros Hin. apply (Hno l L HL). rewrite Hp. apply elem_of_app. by right.
  - apply NoDup_cons in Hnd as [_ Hnd]. pose proof (occ_NoDup lo _ Hnd). destruct Hok as (_ & L & HL & Hin).
    rewrite decide_False; [lia|]. intros ->. by apply (Hno l L HL).
Qed.

(** A publisher's step stays at its publication, and pays what it writes. *)
Lemma publisher_step s s' n t t' m drop : inv s → t_threads s !! n = Some t → is_publisher t = true → serves s m t →
  goes s s' drop t t' →
  (is_publisher t' = true → payload t' = payload t ∧ ∀ channel, m = Some (Some (channel, payload t)) →
     NoDup (lists_in t') ∧ (∀ l, l ∈ lists_in t' → channel_of s l = Some channel) ∧ ∀ c b, t' ≠ PLookup c b) ∧
  ∀ o u, t_all s !! o = Some u →
    (occ n (writers o (option_list (write_of (LStep n drop) s))) + owed o (sub_list u) t' <= owed o (sub_list u) t)%nat.
Proof.
  intros Hinv Hn Hp Hs Hgo. pose proof (iv_core s Hinv) as Hc. destruct (Hs Hp) as (channel & Hm & Hnd & Hl & Hch).
  assert (Hch' : ∀ c, m = Some (Some (c, payload t)) → c = channel) by (intros c Heq; congruence).
  assert (Hno : ∀ o, write_of (LStep n drop) s = None → occ n (writers o (option_list (write_of (LStep n drop) s))) = 0%nat).
  { intros o ->. by apply occ_nil. }
  assert (Hwr : ∀ o o' b, write_of (LStep n drop) s = (if drop then None else Some (n, o', b)) →
    (occ n (writers o (option_list (write_of (LStep n drop) s))) <= if decide (o' = o) then 1 else 0)%nat).
  { intros o o' b ->. destruct drop; [apply Nat.le_0_l|]. unfold writers. simpl. destruct (decide (o' = o)); [|done].
    rewrite occ_cons, occ_nil. by case_decide. }
  assert (Hw : write_of (LStep n drop) s = match t with
    | PBroadcast _ (Some o :: _) _ b | PQueueWrite _ o _ b => if drop then None else Some (n, o, b) | _ => None end).
  { simpl. rewrite Hn. destruct t as [| |l [|[o|] rest] lists b| | | | | | | | | |], drop; done. }
  destruct t as [ch b|[|l lists] b|l [|x rest] lists b|l o' lists b| | | | | | | | |]; try done; simpl in Hgo, Hnd, Hl.
  - destruct Hgo as [-> _]. split.
    + intros _. split; [done|]. intros c ->%Hch'. subst ch. destruct (lists_of_ok s channel Hc) as [? ?]. by split_and!.
    + intros o u Hu. rewrite Hno by done. cbn [owed]. destruct (lists_of_ok s ch Hc) as [? _]. by apply occ_NoDup.
  - subst t'. split; [done|]. intros o u Hu. rewrite Hno by done. cbn [owed]. lia.
  - destruct Hgo as (L & HL & Hgo). pose proof Hnd as [_ Hnd']%NoDup_cons.
    assert (Hl' : ∀ l0, l0 ∈ lists → channel_of s l0 = Some channel) by (intros; apply Hl; by right).
    destruct (sl_queue L).
    + destruct Hgo as [->|(o' & Hin & ->)].
      * split; [intros _; split; [done|]; by intros c ->%Hch'|]. intros o u Hu. rewrite Hno by done. cbn [owed]. rewrite occ_cons. lia.
      * split; [intros _; split; [done|]; by intros c ->%Hch'|]. intros o u Hu. rewrite Hno by done. cbn [owed]. rewrite occ_cons.
        destruct (decide (o' = o)) as [->|]; [|lia]. destruct (decide (l = sub_list u)); [lia|]. by destruct (occ_other o s u l L).
    + subst t'. split; [intros _; split; [done|]; by intros c ->%Hch'|]. intros o u Hu. rewrite Hno by done. cbn [owed]. rewrite occ_cons.
      destruct (decide (l = sub_list u)) as [->|Hne]; [|rewrite (occ_none (Some o)); [lia|by eapply occ_other]].
      assert (occ (Some o) (sl_subs L) <= 1)%nat; [|lia].
      destruct (decide (Some o ∈ sl_subs L)) as [[i Hi]%list_elem_of_lookup_1|Hni]; [|rewrite occ_none; [lia|done]].
      rewrite (occ_once _ _ i); [lia|done|]. intros j Hj.
      destruct (co_subs s Hc _ L j o HL Hj) as (u3 & Hu3 & _ & <- & _). destruct (co_subs s Hc _ L i o HL Hi) as (u4 & ? & _ & <- & _). congruence.
  - subst t'. apply NoDup_cons in Hnd as [_ Hnd]. split.
    + intros _. split; [done|]. intros c ->%Hch'. split_and!; [done| |done]. intros; apply Hl; by right.
    + intros o u Hu. rewrite Hno by done. cbn [owed]. lia.
  - destruct Hgo as [-> _]. split; [intros _; split; [done|]; by intros c ->%Hch'|]. intros o u Hu. cbn [owed]. rewrite occ_cons.
    destruct x as [o'|]; [|rewrite Hno by done; lia]. pose proof (Hwr o o' b Hw).
    destruct (decide (o' = o)) as [->|]; [rewrite (decide_True (P := Some o = Some o)) by done; lia|lia].
  - destruct Hgo as [-> _]. apply NoDup_cons in Hnd as [_ Hnd]. split.
    + intros _. split; [done|]. intros c ->%Hch'. split_and!; [done| |done]. intros; apply Hl; by right.
    + intros o u Hu. cbn [owed]. pose proof (Hwr o o' b Hw). lia.
Qed.

(** *** Runs *)

Lemma writers_app o ws1 ws2 : writers o (ws1 ++ ws2) = writers o ws1 ++ writers o ws2.
Proof. apply omap_app. Qed.

Lemma run_snoc_local ls l s s' : LocalBus.run (ls ++ [l]) s = Some s' →
  ∃ s1, LocalBus.run ls s = Some s1 ∧ step l s1 = Next s'.
Proof.
  revert s. induction ls as [|l0 ls IH]; intros s; simpl.
  - destruct (step l s) as [s1| |] eqn:Hs; try done. intros [= <-]. by exists s.
  - destruct (step l0 s) as [s0| |]; try done. apply IH.
Qed.

Lemma writes_snoc ls l s s1 s' : LocalBus.run ls s = Some s1 → step l s1 = Next s' →
  writes (ls ++ [l]) s = writes ls s ++ option_list (write_of l s1).
Proof.
  revert s. induction ls as [|l0 ls IH]; intros s; simpl.
  - intros [= ->] ->. by rewrite app_nil_r.
  - destruct (step l0 s) as [s0| |]; try done. intros Hr Hs. by rewrite (IH s0 Hr Hs), (assoc_L (++)).
Qed.

Lemma writer_in ws n o : n ∈ writers o ws → ∃ b, (n, o, b) ∈ ws.
Proof.
  intros ([[n' o'] b] & Hin & Hw)%list_elem_of_omap. simpl in Hw. destruct (decide (o' = o)) as [->|]; [|done].
  injection Hw as ->. by exists b.
Qed.

Lemma not_written ls s n o : accounted ls s → local_listens s o = None ∨ made ls !! n = None →
  occ n (writers o (writes ls New)) = 0%nat.
Proof.
  intros Ha Hno. apply occ_none. intros [b Hb]%writer_in. destruct (ac_written _ _ Ha n o b Hb) as (channel & ? & ?).
  destruct Hno; congruence.
Qed.

(** A step that writes nothing and leaves the goroutines, or starts one. *)
Lemma accounted_quiet ls l s s' ts : accounted ls s → LocalBus.run ls New = Some s → step l s = Next s' →
  write_of l s = None → t_threads s' = t_threads s ++ ts →
  (∀ o, is_Some (t_all s' !! o) → is_Some (t_all s !! o)) →
  (started l = None ∧ ts = [] ∨
   ∃ m t, started l = Some m ∧ ts = [t] ∧ serves s' (Some m) t ∧ ∀ o lo, (owed o lo t <= 1)%nat) →
  accounted (ls ++ [l]) s'.
Proof.
  intros Ha Hr Hs Hw Hts Hall Hl. pose proof (step_mono l s s' Hs) as Hm.
  assert (Hws : writes (ls ++ [l]) New = writes ls New) by (rewrite (writes_snoc ls l New s s' Hr Hs), Hw; by rewrite app_nil_r).
  assert (Hmade : ∃ ms, made (ls ++ [l]) = made ls ++ ms ∧ length ms = length ts).
  { unfold made. rewrite omap_app. exists (omap started [l]). split; [done|]. simpl.
    destruct Hl as [[-> ->]|(m & t & -> & -> & _)]; done. }
  destruct Hmade as (ms & Hmade & Hlen). pose proof (ac_made _ _ Ha) as Hml.
  assert (Hdue : ∀ o t, (due s' o (Some t) = due s o (Some t))%nat).
  { intros o t. unfold due. destruct (t_all s !! o) as [u|] eqn:Hu.
    - destruct (mo_all s s' Hm o u Hu) as (u' & -> & -> & _). done.
    - destruct (t_all s' !! o) as [u'|] eqn:Hu'; [|done]. destruct (Hall o) as [? ?]; [by rewrite Hu'|congruence]. }
  split.
  - rewrite Hmade, Hts, !length_app. lia.
  - intros n t Hn. rewrite Hts in Hn. apply lookup_app_Some in Hn as [Hn|[Hge Hn]].
    + rewrite Hmade, lookup_app_l by (rewrite Hml; by eapply lookup_lt_Some). by apply (serves_mono s), Ha.
    + destruct Hl as [[_ ->]|(m & t1 & Hst & -> & Hse & _)]; [done|]. apply list_lookup_singleton_Some in Hn as [Hz <-].
      assert (made (ls ++ [l]) !! n = Some m) as ->; [|done]. unfold made. rewrite omap_app. fold (made ls).
      rewrite lookup_app_r by lia. simpl. rewrite Hst. simpl. replace (n - length (made ls))%nat with 0%nat by lia. done.
  - intros n o. rewrite Hws, Hts. destruct (decide (n < length (t_threads s))%nat) as [Hlt|Hge].
    + rewrite lookup_app_l by done. pose proof (ac_once _ _ Ha n o) as Ho. apply lookup_lt_is_Some in Hlt as [t Ht].
      rewrite Ht in *. by rewrite Hdue.
    + rewrite (not_written ls s n o Ha) by (right; apply lookup_ge_None; lia). simpl.
      rewrite lookup_app_r by lia. destruct Hl as [[_ ->]|(m & t1 & _ & -> & _ & Ho)]; unfold due; [rewrite lookup_nil; destruct (t_all s' !! o); lia|].
      destruct (t_all s' !! o) as [u|]; [|lia]. destruct ([t1] !! _) as [t2|] eqn:Ht2; [|lia].
      apply list_lookup_singleton_Some in Ht2 as [_ <-]. apply Ho.
  - intros n o b Hb. rewrite Hws in Hb. destruct (ac_written _ _ Ha n o b Hb) as (channel & ? & Hn). exists channel.
    split; [by eapply listens_mono|]. rewrite Hmade. by apply lookup_app_l_Some.
Qed.

(** A write is to a subscription of the publication's channel. *)
Lemma write_listens s m n drop w : inv s → t_threads s !! n.1 = Some n.2 → serves s m n.2 →
  write_of (LStep n.1 drop) s = Some w → ∃ channel o, w = (n.1, o, payload n.2) ∧
    local_listens s o = Some channel ∧ m = Some (Some (channel, payload n.2)).
Proof.
  destruct n as [n t]. simpl. intros Hinv Hn Hs. pose proof (iv_core s Hinv) as Hc. pose proof (iv_threads s Hinv n t Hn) as Hok.
  rewrite Hn.
  assert (Hlist : ∀ l L o, t_lists s !! l = Some L → Some o ∈ sl_subs L → local_listens s o = channel_of s l).
  { intros l L o HL [i Hi]%list_elem_of_lookup_1. destruct (co_subs s Hc l L i o HL Hi) as (u & Hu & <- & _).
    unfold local_listens. by rewrite Hu. }
  destruct drop; [by destruct t|].
  destruct t as [|lists b|l [|[o|] rest] lists b|l o lists b| | | | | | | | |]; try done; intros [= <-];
    destruct (Hs eq_refl) as (channel & Hm & _ & Hl & _); exists channel, o; (split_and!; [done| |done]);
    rewrite <- (Hl l) by (by left).
  - destruct Hok as (_ & L & pre & HL & Hp). apply (Hlist l L); [done|]. rewrite Hp. apply elem_of_app. right. by left.
  - destruct Hok as (_ & L & HL & Hin). by apply (Hlist l L).
Qed.

Lemma listens_none s o : t_all s !! o = None → local_listens s o = None.
Proof. unfold local_listens. by intros ->. Qed.

Lemma accounted_thread ls s s' n t drop : accounted ls s → inv s → LocalBus.run ls New = Some s →
  t_threads s !! n = Some t → thread_step s n t drop = Next s' → accounted (ls ++ [LStep n drop]) s'.
Proof.
  intros Ha Hinv Hr Hn Hs. destruct (thread_step_effect s s' n t drop Hn Hs) as (Hm & t' & Hth & Hgo).
  assert (Hst : step (LStep n drop) s = Next s') by (simpl; by rewrite Hn).
  assert (Hws : writes (ls ++ [LStep n drop]) New = writes ls New ++ option_list (write_of (LStep n drop) s)) by (by eapply writes_snoc).
  assert (Hmade : made (ls ++ [LStep n drop]) = made ls) by (unfold made; by rewrite omap_app, app_nil_r).
  pose proof (ac_serves _ _ Ha n t Hn) as Hse.
  assert (Hwrite : ∀ w, write_of (LStep n drop) s = Some w → is_publisher t = true ∧ ∃ channel o, w = (n, o, payload t) ∧
    local_listens s o = Some channel ∧ made ls !! n = Some (Some (channel, payload t))).
  { intros w Hw. split; [|by apply (write_listens s _ (n, t) drop w)]. simpl in Hw. rewrite Hn in Hw. by destruct drop, t. }
  assert (Hnone : ∀ m o, m ≠ n ∨ t_all s !! o = None ∨ is_publisher t = false →
    occ m (writers o (option_list (write_of (LStep n drop) s))) = 0%nat).
  { intros m o Hor. apply occ_none. intros [b Hin]%writer_in. destruct (write_of (LStep n drop) s) as [w|] eqn:Hw;
      [|by apply elem_of_nil in Hin]. apply list_elem_of_singleton in Hin. subst w.
    destruct (Hwrite _ eq_refl) as (Hp & channel & o' & [= -> -> ->] & Hl & _).
    destruct Hor as [?|[Ho|?]]; [done| |congruence]. by rewrite listens_none in Hl. }
  assert (Ht' : is_publisher t = false → is_publisher t' = false).
  { intros Hp. destruct (other_stays_other s s' n t drop Hn Hp Hs) as (t2 & Hth2 & Hp2).
    assert (t' = t2) as ->; [|done]. apply lookup_lt_Some in Hn. rewrite Hth in Hth2.
    apply (f_equal (.!! n)) in Hth2. rewrite !list_lookup_insert_eq in Hth2 by done. by injection Hth2. }
  split; rewrite ?Hmade.
  - rewrite Hth, length_insert. apply Ha.
  - intros m t2 Hm2. rewrite Hth in Hm2. apply list_lookup_insert_cases in Hm2 as [[-> ->]|[_ Hm2]];
      [|by apply (serves_mono s), Ha]. intros Hp'. destruct (is_publisher t) eqn:Hp; [|by rewrite Ht' in Hp'].
    destruct (Hse Hp) as (channel & Hmd & _). destruct (publisher_step s s' n t t' _ drop Hinv Hn Hp Hse Hgo) as [H1 _].
    destruct (H1 Hp') as [Hpay H2]. destruct (H2 channel Hmd) as (? & Hl & Hnl). exists channel. rewrite Hpay. split_and!; [done..| |].
    + intros l Hin. by eapply channel_of_mono, Hl.
    + destruct t'; try done. by destruct (Hnl channel0 b).
  - intros m o. rewrite Hws, writers_app, occ_app, Hth. pose proof (ac_once _ _ Ha m o) as Ho.
    destruct (t_all s !! o) as [u|] eqn:Hu.
    + assert (Hdue : ∀ t2, due s' o (Some t2) = owed o (sub_list u) t2 ∧ due s o (Some t2) = owed o (sub_list u) t2).
      { intros t2. unfold due. destruct (mo_all s s' Hm o u Hu) as (u' & -> & Hsl & _). by rewrite Hu, Hsl. }
      destruct (decide (m = n)) as [->|Hne].
      * rewrite list_lookup_insert_eq by (by eapply lookup_lt_Some). rewrite Hn in Ho. destruct (Hdue t') as [-> _]. destruct (Hdue t) as [_ Hd].
        rewrite Hd in Ho. destruct (is_publisher t) eqn:Hp.
        -- destruct (publisher_step s s' n t t' _ drop Hinv Hn Hp Hse Hgo) as [_ H2]. specialize (H2 o u Hu). lia.
        -- rewrite Hnone by auto. specialize (Ht' eq_refl). destruct t'; simpl; try done; lia.
      * rewrite list_lookup_insert_ne by done. rewrite Hnone by auto. destruct (t_threads s !! m) as [t2|]; [|unfold due in *; by destruct (t_all s' !! o); lia].
        destruct (Hdue t2) as [-> Hd]. rewrite Hd in Ho. lia.
    + rewrite Hnone by auto. rewrite (not_written ls s m o Ha) by (left; by apply listens_none). unfold due.
      destruct (t_all s' !! o) as [u'|] eqn:Hu'; [|lia]. destruct (<[n:=t']> (t_threads s) !! m) as [t2|] eqn:Hm2; [|lia].
      apply list_lookup_insert_cases in Hm2 as [[-> ->]|[_ Hm2]].
      * destruct (is_publisher t) eqn:Hp; [by rewrite (publisher_makes_none s s' n t drop o Hp Hs Hu) in Hu'|].
        specialize (Ht' eq_refl). destruct t'; simpl; try done; lia.
      * simpl. apply (owed_new s m t2 (made ls !! m) o (sub_list u') Hinv Hm2); [by apply Ha|done].
  - intros m o b Hb. rewrite Hws in Hb. apply elem_of_app in Hb as [Hb|Hb].
    + destruct (ac_written _ _ Ha m o b Hb) as (channel & ? & ?). exists channel. split; [by eapply listens_mono|done].
    + destruct (write_of (LStep n drop) s) as [w|] eqn:Hw; [|by apply elem_of_nil in Hb].
      apply list_elem_of_singleton in Hb. subst w. destruct (Hwrite _ eq_refl) as (_ & channel & o' & [= -> -> ->] & ? & ?).
      exists channel. split; [by eapply listens_mono|done].
Qed.

Lemma accounted_step ls l s s' : accounted ls s → inv s → LocalBus.run ls New = Some s → step l s = Next s' →
  accounted (ls ++ [l]) s'.
Proof.
  intros Ha Hinv Hr Hs. destruct l as [channel b|queue channel size|o|n drop|o|o]; pose proof Hs as Hst; simpl in Hst.
  - injection Hst as <-. apply (accounted_quiet ls _ s _ [PLookup channel b] Ha Hr Hs); try done. right.
    exists (Some (channel, b)), (PLookup channel b). split_and!; [done..| |simpl; lia].
    intros _. exists channel. split_and!; [done|constructor| |done]. by intros l ?%elem_of_nil.
  - injection Hst as <-. apply (accounted_quiet ls _ s _ [SStart queue channel size] Ha Hr Hs); try done. right.
    exists None, (SStart queue channel size). split_and!; [done..|simpl; lia].
  - destruct (_ && _); [|done]. injection Hst as <-.
    apply (accounted_quiet ls _ s _ [CCancel o] Ha Hr Hs); try done. right.
    exists None, (CCancel o). split_and!; [done..|simpl; lia].
  - destruct (t_threads s !! n) as [t|] eqn:Hn; [|done]. by apply (accounted_thread ls s s' n t).
  - assert (t_threads s' = t_threads s ++ [] ∧ ∀ o2, is_Some (t_all s' !! o2) → is_Some (t_all s !! o2)) as [Hts Hall].
    { rewrite app_nil_r. destruct (t_all s !! o) as [u|] eqn:Hu; [|done].
      destruct (chan_recv _) as [b c| |]; simplify_eq; (split; [done|]); [|done]. intros o2. apply list_lookup_insert_is_Some. }
    apply (accounted_quiet ls _ s _ [] Ha Hr Hs); try done. by left.
  - assert (t_threads s' = t_threads s ++ [] ∧ ∀ o2, is_Some (t_all s' !! o2) → is_Some (t_all s !! o2)) as [Hts Hall].
    { rewrite app_nil_r. destruct (t_all s !! o) as [u|] eqn:Hu; [|done].
      simplify_eq. split; [done|]. intros o2. apply list_lookup_insert_is_Some. }
    apply (accounted_quiet ls _ s _ [] Ha Hr Hs); try done. by left.
Qed.

Lemma run_accounted ls s : LocalBus.run ls New = Some s → accounted ls s.
Proof.
  revert s. induction ls as [|l ls IH] using rev_ind; intros s.
  - intros [= <-]. split; [done|intros [] ? [=]|intros n o; apply Nat.le_0_l|intros n o b Hb; by apply elem_of_nil in Hb].
  - intros (s1 & Hr & Hs)%run_snoc_local. apply (accounted_step ls l s1 s); [by apply IH| |done..].
    by apply (bus_run_inv ls New s1 inv_New).
Qed.

(** ** The promise *)

Lemma local_run ls s : Transport.run local ls s = LocalBus.run ls s.
Proof. revert s. induction ls as [|l ls IH]; intros s; [done|]. simpl. destruct (step l s); [apply IH|done..]. Qed.

Lemma trace_local l ls s : trace local (l :: ls) s =
  match step l s with Next s' => option_list (m_event local l s) ++ trace local ls s' | _ => [] end.
Proof. simpl. by destruct (step l s). Qed.

(** The trace's hand-overs are the reads of [LocalDelivery], its publications those
    goroutines were started for. *)
Lemma local_event_handed l s (o : nat) : handed_to o (option_list (m_event local l s)) =
  match step l s with Next _ => read_of l s o | _ => [] end.
Proof.
  destruct l as [channel b|queue channel size|o'|n drop|o'|o']; try done.
  - simpl. by destruct (_ && _).
  - simpl. destruct (t_threads s !! n) as [t|]; [|done]. by destruct (thread_step s n t drop).
  - simpl. unfold buffer. destruct (t_all s !! o') as [u|] eqn:Hu; [|done]. simpl. unfold chan_recv.
    destruct (chan_buf (sub_msgChan u)) as [|b rest] eqn:Hb.
    + destruct (chan_closed _); [|done]. simpl. destruct (decide (o' = o)) as [<-|]; [|done]. rewrite Hu. simpl. by rewrite Hb.
    + simpl. destruct (decide (o' = o)) as [<-|]; [|done]. rewrite Hu. simpl. by rewrite Hb.
  - simpl. by destruct (t_all s !! o').
Qed.

Lemma local_handed ls s (o : nat) : handed_to o (trace local ls s) = reads ls s o.
Proof.
  revert s. induction ls as [|l ls IH]; intros s; [done|]. rewrite trace_local. cbn [reads].
  pose proof (local_event_handed l s o) as He. destruct (step l s) as [s'| |]; [|done..].
  by rewrite handed_app, (IH s'), He.
Qed.

Lemma local_published ls s s' : LocalBus.run ls s = Some s' → published (trace local ls s) = omap id (made ls).
Proof.
  revert s. induction ls as [|l ls IH]; intros s; [done|]. rewrite trace_local. cbn [LocalBus.run].
  destruct (step l s) as [s1| |]; [|done..]. intros Hr. rewrite published_app, (IH s1 Hr).
  destruct l as [channel b|queue channel size|o'|n drop|o'|o']; try done.
  simpl. destruct (t_all s !! o') as [u|]; [|done]. simpl. by destruct (chan_recv _).
Qed.

Lemma omap_seq {A B} (f : A → option B) (m : list A) :
  omap (λ n, m !! n ≫= f) (seq 0 (length m)) = omap f m.
Proof.
  induction m as [|x m IH] using rev_ind; [done|]. rewrite length_app, seq_app, !omap_app. f_equal.
  - rewrite <- IH. apply list_omap_ext. apply Forall2_same_length_lookup_2; [done|]. intros i y z Hy Hz.
    rewrite Hy in Hz. injection Hz as <-. apply lookup_seq in Hy as [-> Hi]. by rewrite lookup_app_l.
  - simpl. rewrite lookup_app_r, Nat.sub_diag by lia. simpl. by destruct (f x).
Qed.

(** What a publication is to a channel's subscribers. *)
Definition publication_to (channel : string) (m : option (string * bytes)) : option bytes :=
  p ← m; if decide (p.1 = channel) then Some p.2 else None.

Lemma heard_local channel ms : heard (m_hears local) channel (omap id ms) = omap (publication_to channel) ms.
Proof.
  induction ms as [|[[c b]|] ms IH]; [done| |exact IH].
  change (omap id (Some (c, b) :: ms)) with ((c, b) :: omap id ms). unfold heard in *. rewrite filter_cons. simpl.
  destruct (decide (c = channel)) as [->|Hne].
  - rewrite decide_True by (by apply bool_decide_eq_true). simpl. f_equal. exact IH.
  - rewrite decide_False by (by intros ?%bool_decide_eq_true). exact IH.
Qed.

(** What was written to a subscription was published on its channel, once per write. *)
Lemma written_heard ls s o channel : LocalBus.run ls New = Some s → local_listens s o = Some channel →
  written_to o (writes ls New) ⊆+ heard (m_hears local) channel (omap id (made ls)).
Proof.
  intros Hr Hl. pose proof (run_accounted ls s Hr) as Ha. rewrite heard_local. set (f := publication_to channel).
  assert (written_to o (writes ls New) = omap (λ n, made ls !! n ≫= f) (writers o (writes ls New))) as ->.
  { pose proof (ac_written _ _ Ha) as Hw. revert Hw. generalize (writes ls New). intros ws Hw.
    induction ws as [|[[n o'] b] ws IH]; [done|].
    assert (Hw' : ∀ n o b, (n, o, b) ∈ ws → ∃ channel, local_listens s o = Some channel ∧ made ls !! n = Some (Some (channel, b)))
      by (intros n2 o2 b2 Hin; apply Hw; by right).
    specialize (IH Hw'). unfold written_to, writers in *. simpl. destruct (decide (o' = o)) as [->|]; [|exact IH].
    destruct (Hw n o b ltac:(by left)) as (c & Hc & Hm). rewrite Hl in Hc. injection Hc as <-.
    change (omap ?g (n :: ?l)) with (match g n with Some y => y :: omap g l | None => omap g l end). cbv beta. rewrite Hm.
    assert (Some (Some (channel, b)) ≫= f = Some b) as -> by (unfold f, publication_to; simpl; by rewrite decide_True).
    f_equal. exact IH. }
  rewrite <- (omap_seq f (made ls)). apply omap_submseteq, NoDup_submseteq.
  - apply NoDup_occ. intros n. pose proof (ac_once _ _ Ha n o). lia.
  - intros n [b Hb]%writer_in. destruct (ac_written _ _ Ha n o b Hb) as (c & _ & Hm). apply elem_of_seq.
    apply lookup_lt_Some in Hm. lia.
Qed.

#[export] Instance local_delivers : Delivers local.
Proof.
  split.
  - simpl. intros ls l s s' o a _. destruct (step l s) as [s1| |] eqn:Hs; [|done..]. intros [= <-]. by apply listens_mono, (step_mono l).
  - intros ls s o. change (m_new local) with New. rewrite local_run. intros Hr. pose proof (run_buffer ls New s o Hr) as Hb. rewrite local_handed. intros Hne.
    assert (∃ b, b ∈ written_to o (writes ls New)) as [b Hin].
    { simpl in Hb. rewrite Hb. destruct (reads ls New o) as [|b r]; [done|]. exists b. by left. }
    apply list_elem_of_omap in Hin as ([[n o'] b'] & Hin & Hw). simpl in Hw. destruct (decide (o' = o)) as [->|]; [|done].
    destruct (ac_written _ _ (run_accounted ls s Hr) n o b' Hin) as (channel & Hl & _). by exists channel.
  - intros ls s o a. change (m_new local) with New. rewrite local_run. intros Hr Hl. rewrite local_handed, (local_published ls New s Hr).
    etrans; [|by apply (written_heard ls s o a)]. pose proof (run_buffer ls New s o Hr) as Hb. simpl in Hb. rewrite Hb.
    by apply submseteq_inserts_r.
Qed.
