(* ===== verification/TransportRedis.v ===== *)
(** * TransportRedis.v: the redis bus keeps a transport's promise

    What redis delivers on a channel is what the bus hands to the channel's
    subscriptions: the read worker writes a message to each of them once at most, and to
    one of a queue. *)
From S2P Require Import Prelude Bus Transport RedisBus.

Definition redis_event (l : label) (s : RedisBus.transport) : option (event string nat) :=
  match l with
  | LMessage channel msg => Some (Published channel msg)
  | LRead o =>
      u ← t_all s !! o;
      match chan_recv (sub_msgChan u) with Received b _ => Some (Handed o b) | _ => None end
  | _ => None
  end.

Definition redis_listens (s : RedisBus.transport) (o : nat) : option string := sub_channel <$> t_all s !! o.

Definition redis : Transport.transport :=
  {| m_hears := λ (channel dest : string) _, bool_decide (dest = channel);
     m_new := New;
     m_step := λ l s, match step l s with Next s' => Some s' | Blocked | Panic => None end;
     m_event := redis_event;
     m_listens := redis_listens |}.

(** ** What a subscription may still be handed *)

(** The message under way may come to the subscriptions left, and to one of the queue's. *)
Definition under_way (s : RedisBus.transport) (o : nat) (u : redisSubscription) : list bytes :=
  match t_reader s with
  | RReceive => []
  | RSubs channel rest msg =>
      if bool_decide (o ∈ rest) || sub_queue u && bool_decide (sub_channel u = channel) then [msg] else []
  | RQueue o' msg => if decide (o = o') then [msg] else []
  end.

Definition held (s : RedisBus.transport) (o : nat) (u : redisSubscription) : list bytes :=
  chan_buf (sub_msgChan u) ++ under_way s o u.

(** The subscriptions left are the channel's, none twice. *)
Definition dispatching (s : RedisBus.transport) : Prop :=
  match t_reader s with
  | RSubs channel rest _ => NoDup rest ∧
      ∀ o, o ∈ rest → ∃ u, t_all s !! o = Some u ∧ sub_channel u = channel ∧ sub_queue u = false
  | _ => True
  end.

Definition new_handed (o : nat) (l : label) (s : RedisBus.transport) : list bytes :=
  match l with
  | LRead o' => if decide (o' = o) then from_option (λ u, take 1 (chan_buf (sub_msgChan u))) [] (t_all s !! o) else []
  | _ => []
  end.

Definition new_heard (channel : string) (l : label) : list bytes :=
  match l with LMessage channel' msg => if decide (channel' = channel) then [msg] else [] | _ => [] end.

(** A subscription after a step is the one before it, with what it may still be handed. *)
Definition keeps (l : label) (s s' : RedisBus.transport) (o : nat) (u u' : redisSubscription) : Prop :=
  sub_channel u' = sub_channel u ∧ sub_queue u' = sub_queue u ∧
  new_handed o l s ++ held s' o u' ⊆+ held s o u ++ new_heard (sub_channel u) l.

Record moves (l : label) (s s' : RedisBus.transport) : Prop := {
  mv_old o u : t_all s !! o = Some u → ∃ u', t_all s' !! o = Some u' ∧ keeps l s s' o u u';
  mv_new o u : t_all s' !! o = Some u → t_all s !! o = None → held s' o u = [];
  mv_dispatching : dispatching s'
}.

(** A step that leaves the read worker where it is. *)
Lemma moves_same l s s' : t_reader s' = t_reader s → dispatching s → (∀ o, new_handed o l s = []) →
  (∀ o u, t_all s !! o = Some u → ∃ u', t_all s' !! o = Some u' ∧ sub_channel u' = sub_channel u ∧
     sub_queue u' = sub_queue u ∧ chan_buf (sub_msgChan u') = chan_buf (sub_msgChan u)) →
  (∀ o u, t_all s' !! o = Some u → t_all s !! o = None → t_reader s = RReceive ∧ chan_buf (sub_msgChan u) = []) →
  moves l s s'.
Proof.
  intros Hr Hd Hh Hall Hnew. split.
  - intros o u Hu. destruct (Hall o u Hu) as (u' & Hu' & Hc & Hq & Hb). exists u'. split; [done|]. split_and!; [done..|].
    rewrite Hh. unfold held, under_way. rewrite Hr, Hb, Hc, Hq. simpl. by apply submseteq_inserts_r.
  - intros o u Hu Hno. destruct (Hnew o u Hu Hno) as [Hrr Hb]. unfold held, under_way. by rewrite Hr, Hrr, Hb.
  - unfold dispatching in *. rewrite Hr. destruct (t_reader s); [done| |done]. destruct Hd as [? Hd]. split; [done|].
    intros o Ho. destruct (Hd o Ho) as (u & Hu & ? & ?). destruct (Hall o u Hu) as (u' & ? & ? & ? & _). exists u'. split_and!; congruence.
Qed.

(** One subscription changes. *)
Lemma moves_update l s o u u' : dispatching s → (∀ o, new_handed o l s = []) → t_all s !! o = Some u →
  sub_channel u' = sub_channel u → sub_queue u' = sub_queue u → chan_buf (sub_msgChan u') = chan_buf (sub_msgChan u) →
  moves l s (set_all s (<[o := u']> (t_all s))).
Proof.
  intros Hd Hh Hu Hc Hq Hb. apply moves_same; [done..| |].
  - intros o2 u2 Hu2. simpl. destruct (decide (o2 = o)) as [->|Hne].
    + exists u'. assert (u2 = u) as -> by congruence. rewrite list_lookup_insert_eq by (by eapply lookup_lt_Some). done.
    + exists u2. by rewrite list_lookup_insert_ne.
  - intros o2 u2 Hu2 Hno. simpl in Hu2. apply list_lookup_insert_cases in Hu2 as [[-> _]|[_ ?]]; congruence.
Qed.

(** A write: the message leaves the read worker for the subscription, or nowhere. *)
Lemma write_result s s' o msg drop : write s o msg drop = Next s' → ∃ u u', t_all s !! o = Some u ∧
  s' = set_all s (<[o := u']> (t_all s)) ∧ sub_channel u' = sub_channel u ∧ sub_queue u' = sub_queue u ∧
  chan_buf (sub_msgChan u') ⊆+ chan_buf (sub_msgChan u) ++ [msg].
Proof.
  unfold write. destruct (t_all s !! o) as [u|] eqn:Hu; [|done]. destruct drop.
  - destruct (sub_canceled u); [|done]. intros [= <-]. exists u, u. rewrite (list_insert_id _ _ _ Hu).
    split_and!; [done|by destruct s|done|done|by apply submseteq_inserts_r].
  - destruct (chan_send _ _) as [c| |] eqn:Hc; [|done..]. intros [= <-]. eexists u, _.
    apply chan_send_sent in Hc as (_ & _ & _ & Hb). split_and!; [done..|]. simpl. by rewrite Hb.
Qed.

Lemma moves_write s s1 o msg drop r : dispatching s → write s o msg drop = Next s1 →
  (∀ u, t_all s !! o = Some u → under_way s o u = [msg] ∧ under_way (set_reader s r) o u = []) →
  (∀ o2 u, o2 ≠ o → under_way (set_reader s r) o2 u ⊆+ under_way s o2 u) →
  dispatching (set_reader s r) → moves (LReader drop) s (set_reader s1 r).
Proof.
  intros Hd (u & u' & Hu & -> & Hc & Hq & Hb)%write_result Ho Hother Hd'. destruct (Ho u Hu) as [Hw Hw'].
  assert (Hun : ∀ o2 u2 u3, sub_channel u3 = sub_channel u2 → sub_queue u3 = sub_queue u2 →
    under_way (set_reader (set_all s (<[o:=u']> (t_all s))) r) o2 u3 = under_way (set_reader s r) o2 u2).
  { intros o2 u2 u3 Hc2 Hq2. unfold under_way. simpl. by rewrite Hc2, Hq2. }
  split.
  - intros o2 u2 Hu2. simpl. destruct (decide (o2 = o)) as [->|Hne].
    + exists u'. assert (u2 = u) as -> by congruence. rewrite list_lookup_insert_eq by (by eapply lookup_lt_Some).
      split; [done|]. split_and!; [done..|]. simpl. unfold held. rewrite (Hun o u u' Hc Hq), Hw, Hw', !app_nil_r. exact Hb.
    + exists u2. rewrite list_lookup_insert_ne by done. split; [done|]. split_and!; [done..|]. simpl. unfold held.
      rewrite (Hun o2 u2 u2), app_nil_r by done. by apply submseteq_app, Hother.
  - intros o2 u2 Hu2 Hno. simpl in Hu2. apply list_lookup_insert_cases in Hu2 as [[-> _]|[_ ?]]; congruence.
  - unfold dispatching in *. simpl in *. destruct r; [done| |done]. destruct Hd' as [? Hin]. split; [done|].
    intros o2 Ho2. destruct (Hin o2 Ho2) as (u2 & Hu2 & ? & ?). destruct (decide (o2 = o)) as [->|Hne].
    + exists u'. assert (u2 = u) as -> by congruence. rewrite list_lookup_insert_eq by (by eapply lookup_lt_Some). split_and!; congruence.
    + exists u2. by rewrite list_lookup_insert_ne.
Qed.

(** The read worker. *)
Lemma moves_reader s s' drop : bus_inv s → dispatching s → reader_step s drop = Next s' → moves (LReader drop) s s'.
Proof.
  intros Hb Hd Hs. unfold reader_step in Hs. pose proof Hd as Hd0. unfold dispatching in Hd.
  destruct (t_reader s) as [|channel [|o rest] msg|o msg] eqn:Hr; [done|..].
  - destruct (t_queues s !! channel) as [l|] eqn:Hl.
    + unfold dispatchQueue in Hs. destruct (sl_subs l !! _) as [o|] eqn:Ho; [|done]. injection Hs as <-.
      destruct (bi_subs s Hb true channel (sl_subs l) o) as (u & Hu & Hc & Hq & _);
        [by unfold slice; simpl; rewrite Hl|by eapply list_elem_of_lookup_2|].
      split; [|simpl; congruence|done]. intros o2 u2 Hu2. exists u2. split; [done|]. split_and!; [done..|]. simpl.
      unfold held, under_way. rewrite Hr. simpl. rewrite app_nil_r. apply submseteq_app; [done|].
      destruct (decide (o2 = o)) as [->|]; [|apply submseteq_nil_l].
      assert (u2 = u) as -> by congruence. rewrite Hq, Hc, (bool_decide_eq_true_2 (channel = channel)) by done. done.
    + injection Hs as <-. split; [|simpl; congruence|done]. intros o2 u2 Hu2. exists u2. split; [done|]. split_and!; [done..|].
      simpl. unfold held, under_way. simpl. rewrite !app_nil_r. by apply submseteq_inserts_r.
  - destruct Hd as [Hnd Hin]. apply NoDup_cons in Hnd as [Hni Hnd]. destruct (write s o msg drop) as [s1| |] eqn:Hw; [|done..].
    injection Hs as <-. apply (moves_write s s1 o msg drop (RSubs channel rest msg) Hd0 Hw).
    + intros u Hu. destruct (Hin o) as (u2 & Hu2 & _ & Hq); [by left|]. simplify_eq. unfold under_way. rewrite Hr. simpl.
      rewrite bool_decide_eq_true_2 by (by left). rewrite (bool_decide_eq_false_2 (o ∈ rest)) by done. by rewrite Hq.
    + intros o2 u Hne. unfold under_way. rewrite Hr. simpl.
      rewrite (bool_decide_ext (o2 ∈ o :: rest) (o2 ∈ rest)); [done|]. rewrite elem_of_cons. naive_solver.
    + unfold dispatching. simpl. split; [done|]. intros o2 Ho2. apply Hin. by right.
  - destruct (write s o msg drop) as [s1| |] eqn:Hw; [|done..]. injection Hs as <-.
    apply (moves_write s s1 o msg drop RReceive Hd0 Hw); [| |done].
    + intros u Hu. unfold under_way. rewrite Hr. simpl. by rewrite decide_True.
    + intros o2 u Hne. unfold under_way. simpl. apply submseteq_nil_l.
Qed.

Lemma mu_free_receive s : mu_free s = true → t_reader s = RReceive.
Proof. unfold mu_free. by destruct (t_reader s). Qed.

Lemma unsubscribe_same s channel queue o :
  t_all (unsubscribe s channel queue o) = t_all s ∧ t_reader (unsubscribe s channel queue o) = t_reader s.
Proof.
  unfold unsubscribe. destruct (lists s queue !! channel); [|done]. destruct (decide _); [|done].
  by destruct (remove _ _), queue.
Qed.

Lemma moves_subscribe s channel size queue : mu_free s = true → dispatching s →
  moves (LSubscribe channel size queue) s (subscribe s channel size queue).
Proof.
  intros Hmu Hd. set (u := MkSubscription channel queue false (make_chan size)).
  assert (t_all (subscribe s channel size queue) = t_all s ++ [u] ∧ t_reader (subscribe s channel size queue) = t_reader s) as [Ha Hr].
  { unfold subscribe. by destruct (lists _ _ !! _), queue. }
  apply moves_same; [done..| |].
  - intros o u2 Hu2. exists u2. rewrite Ha. by rewrite (lookup_app_l_Some _ _ _ _ Hu2).
  - intros o u2 Hu2 Hno. split; [by apply mu_free_receive|]. rewrite Ha in Hu2.
    apply lookup_app_Some in Hu2 as [?|[_ Hu2]]; [congruence|]. by apply list_lookup_singleton_Some in Hu2 as [_ <-].
Qed.

(** A message comes, for the subscriptions of its channel. *)
Lemma moves_message s channel msg : bus_inv s → mu_free s = true →
  moves (LMessage channel msg) s (set_reader s (RSubs channel (from_option sl_subs [] (t_subs s !! channel)) msg)).
Proof.
  intros Hb Hmu. pose proof (mu_free_receive s Hmu) as Hr.
  assert (Hin : ∀ o, o ∈ from_option sl_subs [] (t_subs s !! channel) → ∃ u, t_all s !! o = Some u ∧ sub_channel u = channel ∧ sub_queue u = false).
  { intros o Ho. destruct (t_subs s !! channel) as [l|] eqn:Hl; [|by apply elem_of_nil in Ho].
    destruct (bi_subs s Hb false channel (sl_subs l) o) as (u & ? & ? & ? & _); [by unfold slice; simpl; rewrite Hl|done|by exists u]. }
  split; [|simpl; congruence|].
  - intros o u Hu. exists u. split; [done|]. split_and!; [done..|]. simpl. unfold held, under_way. rewrite Hr. simpl.
    rewrite app_nil_r. apply submseteq_app; [done|]. destruct (decide (channel = sub_channel u)) as [->|Hne]; [case_match; [done|apply submseteq_nil_l]|].
    rewrite (bool_decide_eq_false_2 (sub_channel u = channel)) by congruence. rewrite andb_false_r, orb_false_r.
    rewrite bool_decide_eq_false_2; [done|]. intros Ho. destruct (Hin o Ho) as (u2 & ? & ? & _). congruence.
  - unfold dispatching. simpl. split; [|done]. destruct (t_subs s !! channel) as [l|] eqn:Hl; [|constructor].
    simpl. apply (bi_slices s Hb false channel). unfold slice. simpl. by rewrite Hl.
Qed.

Lemma moves_step l s s' : bus_inv s → dispatching s → step l s = Next s' → moves l s s'.
Proof.
  intros Hb Hd. destruct l as [channel size queue|o|n|channel msg|drop|sub unsub|o|o]; simpl.
  - destruct (mu_free s) eqn:Hmu; [|done]. intros [= <-]. by apply moves_subscribe.
  - destruct (t_all s !! o) as [u|] eqn:Hu; [|done]. destruct (forallb _ _); [|done]. intros [= <-].
    destruct (moves_update (LClose o) s o u (set_canceled u) Hd) as [M1 M2 M3]; [done..|]. split; [exact M1|exact M2|exact M3].
  - destruct (t_closers s !! n) as [k|]; [|done]. destruct k as [o|o|o]; simpl; [| |done].
    + destruct (t_all s !! o) as [u|] eqn:Hu; [|done]. destruct (mu_free s) eqn:Hmu; [|done]. intros [= <-].
      destruct (unsubscribe_same s (sub_channel u) (sub_queue u) o) as [Ha Hr].
      apply moves_same; simpl; rewrite ?Ha, ?Hr; try done; [|congruence]. intros o2 u2 Hu2. by exists u2.
    + destruct (t_all s !! o) as [u|] eqn:Hu; [|done]. destruct (chan_close _) as [c|] eqn:Hc; [|done]. intros [= <-].
      unfold chan_close in Hc. destruct (chan_closed _); [done|]. injection Hc as <-.
      destruct (moves_update (LCloser n) s o u (set_msgChan u (Chan (chan_cap (sub_msgChan u)) (chan_buf (sub_msgChan u)) true)) Hd)
        as [M1 M2 M3]; [done..|]. split; [exact M1|exact M2|exact M3].
  - destruct (mu_free s) eqn:Hmu; [|done]. intros [= <-]. by apply moves_message.
  - by apply moves_reader.
  - intros Hw. assert (t_all s' = t_all s ∧ t_reader s' = t_reader s) as [Ha Hr].
    { unfold writer_step in Hw. destruct (t_writer s); simpl in Hw; repeat case_match; by simplify_eq. }
    apply moves_same; rewrite ?Ha; try done; [|congruence]. intros o2 u2 Hu2. by exists u2.
  - destruct (t_all s !! o) as [u|] eqn:Hu; [|done]. unfold chan_recv.
    destruct (chan_buf (sub_msgChan u)) as [|b rest] eqn:Hbuf.
    + destruct (chan_closed _); [|done]. intros [= <-]. apply moves_same; try done; [| |congruence].
      * intros o2. simpl. destruct (decide (o = o2)) as [<-|]; [|done]. rewrite Hu. simpl. by rewrite Hbuf.
      * intros o2 u2 Hu2. by exists u2.
    + intros [= <-]. set (u' := set_msgChan u _). split.
      * intros o2 u2 Hu2. simpl. destruct (decide (o2 = o)) as [->|Hne].
        -- exists u'. assert (u2 = u) as -> by congruence. rewrite list_lookup_insert_eq by (by eapply lookup_lt_Some). split; [done|]. split_and!; [done..|].
           simpl. rewrite decide_True by done. rewrite Hu. simpl. unfold held. rewrite Hbuf, app_nil_r. simpl. done.
        -- exists u2. rewrite list_lookup_insert_ne by done. split; [done|]. split_and!; [done..|].
           simpl. rewrite decide_False by done. by rewrite app_nil_r.
      * intros o2 u2 Hu2 Hno. simpl in Hu2. apply list_lookup_insert_cases in Hu2 as [[-> _]|[_ ?]]; congruence.
      * unfold dispatching in *. simpl. destruct (t_reader s); [done| |done]. destruct Hd as [? Hin]. split; [done|].
        intros o2 Ho2. destruct (Hin o2 Ho2) as (u2 & Hu2 & ? & ?). destruct (decide (o2 = o)) as [->|Hne].
        -- exists u'. assert (u2 = u) as -> by congruence. rewrite list_lookup_insert_eq by (by eapply lookup_lt_Some). by split_and!.
        -- exists u2. by rewrite list_lookup_insert_ne.
  - destruct (t_all s !! o) as [u|] eqn:Hu; [|done]. intros [= <-]. by eapply moves_update.
Qed.

(** ** The promise *)

Lemma handed_event l s s' (o : nat) : step l s = Next s' →
  handed_to o (option_list (m_event redis l s)) = new_handed o l s.
Proof.
  destruct l as [channel size queue|o'|n|channel msg|drop|sub unsub|o'|o']; try done. simpl.
  destruct (t_all s !! o') as [u|] eqn:Hu; [|done]. simpl. unfold chan_recv.
  destruct (chan_buf (sub_msgChan u)) as [|b rest] eqn:Hb.
  - destruct (chan_closed _); [|done]. intros _. simpl. destruct (decide (o' = o)) as [<-|]; [|done]. rewrite Hu. simpl. by rewrite Hb.
  - intros _. simpl. destruct (decide (o' = o)) as [<-|]; [|done]. rewrite Hu. simpl. by rewrite Hb.
Qed.

Lemma heard_event l s channel :
  heard (m_hears redis) channel (published (option_list (m_event redis l s))) = new_heard channel l.
Proof.
  destruct l as [ch size queue|o'|n|ch msg|drop|sub unsub|o'|o']; try done; simpl.
  - unfold heard. rewrite filter_cons. simpl. destruct (decide (ch = channel)) as [->|Hne].
    + by rewrite decide_True by (by apply bool_decide_eq_true).
    + by rewrite decide_False by (by intros ?%bool_decide_eq_true).
  - destruct (t_all s !! o') as [u|]; [|done]. simpl. by destruct (chan_recv _).
Qed.

Definition redis_account (s : RedisBus.transport) (tr : list (event (m_dest redis) (m_key redis))) : Prop :=
  bus_inv s ∧ dispatching s ∧
  ∀ o : nat, match t_all s !! o with
       | Some u => handed_to o tr ++ held s o u ⊆+ heard (m_hears redis) (sub_channel u) (published tr)
       | None => handed_to o tr = []
       end.

Lemma account_step s tr l s' : redis_account s tr → m_step redis l s = Some s' →
  redis_account s' (tr ++ option_list (m_event redis l s)).
Proof.
  intros (Hb & Hd & Ha) Hs. simpl in Hs. destruct (step l s) as [s1| |] eqn:Hst; [|done..]. injection Hs as <-.
  pose proof (moves_step l s s1 Hb Hd Hst) as [M1 M2 M3]. split; [|split; [done|]].
  - pose proof (step_bus l s Hb) as Hok. by rewrite Hst in Hok.
  - intros o. rewrite handed_app, published_app.
    rewrite (handed_event l s s1 o Hst). specialize (Ha o). destruct (t_all s !! o) as [u|] eqn:Hu.
    + destruct (M1 o u Hu) as (u' & -> & Hc & _ & Hk). rewrite Hc, heard_app, heard_event, <- (assoc_L (++)).
      trans (handed_to o tr ++ (held s o u ++ new_heard (sub_channel u) l)); [by apply submseteq_skips_l|]. rewrite (assoc_L (++)). by apply submseteq_skips_r.
    + assert (Hh : new_handed o l s = []).
      { destruct l; try done. simpl. case_decide; [|done]. by subst; rewrite Hu. }
      rewrite Ha, Hh. destruct (t_all s1 !! o) as [u'|] eqn:Hu'; [|done]. rewrite (M2 o u' Hu' Hu). apply submseteq_nil_l.
Qed.

Lemma redis_accounts ls s : Transport.run redis ls (m_new redis) = Some s → redis_account s (trace redis ls (m_new redis)).
Proof.
  apply (run_trace_ind redis redis_account); [|apply account_step].
  split; [apply New_bus|]. split; [done|]. intros o. done.
Qed.

#[export] Instance redis_delivers : Delivers redis.
Proof.
  split.
  - intros ls l s s' o a (Hb & Hd & _)%redis_accounts. simpl. destruct (step l s) as [s1| |] eqn:Hs; [|done..]. intros [= <-].
    unfold redis_listens. intros (u & Hu & ->)%fmap_Some.
    destruct (mv_old _ _ _ (moves_step l s s1 Hb Hd Hs) o u Hu) as (u' & -> & <- & _). done.
  - intros ls s o Hr%redis_accounts Hne. destruct Hr as (_ & _ & Ha). specialize (Ha o). simpl. unfold redis_listens.
    unfold redis_listens. destruct (t_all s !! (o : nat)); [by eexists|by destruct Hne].
  - intros ls s o a Hr%redis_accounts Hl. destruct Hr as (_ & _ & Ha). specialize (Ha o). simpl in Hl. unfold redis_listens in Hl.
    apply fmap_Some in Hl as (u & Hu & ->). rewrite Hu in Ha. etrans; [|exact Ha]. by apply submseteq_inserts_r.
Qed.
