(* ===== verification/TransportNats.v ===== *)
(** * TransportNats.v: the nats bus keeps a transport's promise

    What nats delivers to one of its subscriptions is what the bus hands to the
    subscription it was made for: by way of a router, to those of the message's local
    channel; or to the only one there is. *)
From S2P Require Import Prelude Errors Bus Transport NatsBus NatsDelivery.

Section nats.
Context `{GrpcApi} `{!StatusApi} `{!Codec}.
Implicit Types (x : NatsBus.transport) (ns : natsSub) (u : routerSubscription) (rt : router) (m : natsMsg).

#[local] Instance target_eq_dec : EqDecision target.
Proof. solve_decision. Defined.

(** A destination is a nats subscription and its subject; a reader is of a subscription
    with a router, or without. *)
Definition nats_event (l : label) x : option (event (nat * string) (nat + nat)) :=
  match l with
  | LDeliver k m => ns ← n_nats x !! k; Some (Published (k, ns_subject ns) (nm_Data m))
  | LRead o => u ← n_subs x !! o; match chan_recv (rs_msgChan u) with Received m _ => Some (Handed (inl o) (nm_Data m)) | _ => None end
  | LReadSub p => q ← n_plain x !! p; match chan_recv (ps_msgChan q) with Received m _ => Some (Handed (inr p) (nm_Data m)) | _ => None end
  | _ => None
  end.

(** The nats subscriptions, and what they were made for. *)
Definition seen_nats x : list (target * string) := (λ ns, (ns_target ns, ns_subject ns)) <$> n_nats x.

(** Where a subscription listens: its nats subscription, the subject, and the local channel
    if it has one. *)
Definition nats_listens x (o : nat + nat) : option (nat * string * option string) :=
  match o with
  | inl o =>
      u ← n_subs x !! o; rt ← n_all x !! rs_router u; k ← rt_sub rt; Some (k, rt_channel rt, Some (rs_channel u))
  | inr p => '(k, t) ← list_find (λ t, t.1 = ToSub p) (seen_nats x); Some (k, t.2, None)
  end.

(** A message for a local channel carries it. *)
Definition is_for (channel : option string) (b : bytes) : bool :=
  match channel with
  | None => true
  | Some channel => match DecodeLocalChannel b with Ok c => bool_decide (c = channel) | Err _ => false end
  end.

Definition nats_hears (a : nat * string * option string) (dest : nat * string) (b : bytes) : bool :=
  bool_decide (dest = a.1) && is_for a.2 b.

Definition nats : Transport.transport :=
  {| m_hears := nats_hears;
     m_new := New;
     m_step := λ l x, match step l x with Next x' => Some x' | Blocked | Panic => None end;
     m_event := nats_event;
     m_listens := nats_listens |}.

(** ** What stays of a state *)

Definition seen_subs x : list (nat * string) := (λ u, (rs_router u, rs_channel u)) <$> n_subs x.
Definition seen_routers x : list (option nat * string) := (λ rt, (rt_sub rt, rt_channel rt)) <$> n_all x.

Lemma fmap_insert_same {A B} (f : A → B) (l : list A) i a a' :
  l !! i = Some a → f a' = f a → f <$> <[i := a']> l = f <$> l.
Proof. intros Hi Hf. rewrite list_fmap_insert, Hf. apply list_insert_id. by rewrite list_lookup_fmap, Hi. Qed.

Lemma seen_Unsubscribe (ks : list natsSub) sub :
  (λ ns, (ns_target ns, ns_subject ns)) <$> Unsubscribe ks sub = (λ ns, (ns_target ns, ns_subject ns)) <$> ks.
Proof.
  destruct sub as [k|]; [|done]. simpl. apply list_eq. intros i. rewrite !list_lookup_fmap, list_lookup_alter.
  case_decide as Hk; [|done]. rewrite <- Hk. by destruct (ks !! k).
Qed.

(** What a step adds: to the nats subscriptions, to those of the routers, and the nats
    subscription a router gets. *)
Record steps x x' : Prop := {
  sp_nats : seen_nats x `prefix_of` seen_nats x';
  sp_subs : seen_subs x `prefix_of` seen_subs x';
  sp_sub r k channel : seen_routers x !! r = Some (Some k, channel) → seen_routers x' !! r = Some (Some k, channel);
  sp_got r k channel : seen_routers x' !! r = Some (Some k, channel) →
    seen_routers x !! r = Some (Some k, channel) ∨ seen_nats x' !! k = Some (ToRouter r, channel);
  sp_target k p subject : seen_nats x' !! k = Some (ToSub p, subject) →
    seen_nats x !! k = Some (ToSub p, subject) ∨ (k = length (n_nats x) ∧ p = length (n_plain x));
  sp_plain p : (p < length (n_plain x'))%nat → (p < length (n_plain x))%nat ∨
    ∃ subject, seen_nats x' !! length (n_nats x) = Some (ToSub p, subject)
}.

(** Nothing of it changes. *)
Lemma steps_same x x' : seen_nats x' = seen_nats x → seen_subs x' = seen_subs x → seen_routers x' = seen_routers x →
  length (n_plain x') = length (n_plain x) → steps x x'.
Proof. intros E1 E2 E3 E4. split; rewrite ?E1, ?E2, ?E3, ?E4; auto. Qed.

(** Routers are made, and opened. *)
Lemma steps_more x x' us rs : seen_nats x' = seen_nats x → seen_subs x' = seen_subs x ++ us →
  seen_routers x' = seen_routers x ++ rs → (∀ r k channel, rs !! r ≠ Some (Some k, channel)) →
  length (n_plain x') = length (n_plain x) → steps x x'.
Proof.
  intros E1 E2 E3 Hrs E4. split; rewrite ?E1, ?E2, ?E3, ?E4; auto.
  - by apply prefix_app_r.
  - intros r k channel Hr. by apply lookup_app_l_Some.
  - intros r k channel [?|[_ Hr]]%lookup_app_Some; [by left|]. by destruct (Hrs _ _ _ Hr).
Qed.

Lemma steps_find_router x n ca : steps x (find_router x n ca).
Proof.
  unfold find_router. destruct (n_routers x !! _) as [r|].
  - destruct (n_all x !! r) as [rt|]; [|by apply steps_same]. case_bool_decide; by apply steps_same.
  - apply (steps_more x _ [] [(None, ch_Server (ca_channel ca))]); unfold seen_nats, seen_subs, seen_routers; fields; rewrite ?app_nil_r; try done.
    + by rewrite fmap_app.
    + by intros [|r] k channel.
Qed.

Lemma steps_open_section x n r found ca rt : n_all x !! r = Some rt → steps x (open_section x n r found ca rt).
Proof.
  intros Hr. apply (steps_more x _ [(r, ch_Local (ca_channel ca))] []); unfold seen_nats, seen_subs, seen_routers, open_section; fields; try done.
  - by rewrite fmap_app.
  - rewrite app_nil_r. by eapply fmap_insert_same.
Qed.

Lemma steps_close_section x o u rt : n_subs x !! o = Some u → n_all x !! rs_router u = Some rt → steps x (close_section x o u rt).
Proof.
  intros Hu Hr. unfold close_section. pose proof (close_same_log rt (rs_channel u) o) as [Hl _].
  assert (rt_channel (close rt (rs_channel u) o).1 = rt_channel rt) as Hc.
  { unfold close. cbn zeta. case_decide; [|done]. by destruct (remove _ _). }
  destruct (close rt (rs_channel u) o) as [rt' last]. simpl in Hl, Hc.
  destruct last; apply steps_same; unfold seen_nats, seen_subs, seen_routers; fields; try done; try (by eapply fmap_insert_same);
    try (eapply fmap_insert_same; [done|by rewrite Hl, Hc]). apply seen_Unsubscribe.
Qed.

(** Nats answers to a call that makes a router's subscription. *)
Lemma steps_answers x n r o ca rt u : n_all x !! r = Some rt → rt_sub rt = None → n_subs x !! o = Some u →
  steps x (nats_answers x n r o ca rt u false).
Proof.
  intros Hr Hsub Hu. unfold nats_answers. set (k1 := length (n_nats x)). set (new := (ToRouter r, rt_channel rt)).
  set (x' := set_calls _ _).
  assert (Hn : seen_nats x' = seen_nats x ++ [new]) by (unfold seen_nats, x'; fields; by rewrite fmap_app).
  assert (Hs : seen_subs x' = seen_subs x) by (unfold seen_subs, x'; fields; by eapply fmap_insert_same).
  assert (Ha : seen_routers x' = <[r := (Some k1, rt_channel rt)]> (seen_routers x)) by (unfold seen_routers, x'; fields; by rewrite list_fmap_insert).
  assert (Hr0 : seen_routers x !! r = Some (None, rt_channel rt)) by (unfold seen_routers; by rewrite list_lookup_fmap, Hr, <- Hsub).
  split; rewrite ?Hn, ?Hs, ?Ha; auto.
  - by apply prefix_app_r.
  - intros r' k channel Hr'. rewrite list_lookup_insert_ne; [done|]. intros ->. congruence.
  - intros r' k channel [[-> [= -> ->]]|[_ ?]]%list_lookup_insert_cases; [right|by left].
    rewrite lookup_app_r by (unfold seen_nats; by rewrite length_fmap). unfold seen_nats. rewrite length_fmap, Nat.sub_diag. done.
  - intros k p subject [?|[_ Hk]]%lookup_app_Some; [by left|]. by apply list_lookup_singleton_Some in Hk as [_ [=]].
Qed.

Lemma steps_forget x n r ca rt : n_all x !! r = Some rt → rt_sub rt = None → steps x (forget_router x n r ca rt).
Proof.
  intros Hr Hsub. apply steps_same; try done. unfold seen_routers, forget_router; fields.
  eapply fmap_insert_same; [done|]. simpl. by rewrite Hsub.
Qed.

Lemma steps_subscribe x subject size queue inbox : steps x (subscribe x subject size queue inbox false).
Proof.
  unfold subscribe. set (x' := set_nats _ _).
  assert (Hn : seen_nats x' = seen_nats x ++ [(ToSub (length (n_plain x)), subject)]) by (unfold seen_nats, x'; fields; by rewrite fmap_app).
  assert (Hlen : length (seen_nats x) = length (n_nats x)) by (unfold seen_nats; by rewrite length_fmap).
  split; rewrite ?Hn; auto.
  - by apply prefix_app_r.
  - intros k p subj [?|[Hge Hk]]%lookup_app_Some; [by left|right]. apply list_lookup_singleton_Some in Hk as [Hz [= <- _]].
    split; [|done]. rewrite Hlen in *. lia.
  - intros p Hp. unfold x' in Hp. fields. simpl in Hp. rewrite length_app in Hp. simpl in Hp.
    destruct (decide (p = length (n_plain x))) as [->|Hne]; [right|left; lia]. exists subject.
    rewrite lookup_app_r by lia. by rewrite Hlen, Nat.sub_diag.
Qed.

Lemma seen_with_callback x k ns pending cb log : n_nats x !! k = Some ns →
  (λ ns, (ns_target ns, ns_subject ns)) <$> <[k := with_callback ns pending cb log]> (n_nats x) = seen_nats x.
Proof. intros Hk. by eapply fmap_insert_same. Qed.

Lemma steps_callback x k ns drop x' : n_nats x !! k = Some ns → callback_step x k ns drop = Next x' → steps x x'.
Proof.
  intros Hk Hs.
  assert (Hsame : ∀ pending cb log, steps x (set_nats x (<[k := with_callback ns pending cb log]> (n_nats x)))).
  { intros pending cb log. apply steps_same; try done. by apply seen_with_callback. }
  assert (Hall : ∀ r rt w log cb, n_all x !! r = Some rt →
    steps x (set_nats (set_all x (<[r := with_writing rt w log]> (n_all x))) (<[k := with_callback ns (ns_pending ns) cb (ns_log ns)]> (n_nats x)))).
  { intros r rt w log cb Hr. apply steps_same; try done; [by apply seen_with_callback|]. by eapply fmap_insert_same. }
  unfold callback_step, take in Hs. destruct (ns_callback ns) as [|m channel| |m].
  - destruct (ns_pending ns) as [|m rest]; [done|]. destruct (ns_active ns); [|done]. destruct (ns_target ns) as [r|p].
    + destruct (DecodeLocalChannel _); injection Hs as <-; apply Hsame.
    + destruct (n_plain x !! p) as [q|]; [|done]. destruct (accepts q m); injection Hs as <-; apply Hsame.
  - destruct (ns_target ns) as [r|p]; [|done]. destruct (n_all x !! r) as [rt|] eqn:Hr; [|done].
    destruct (rt_writing rt); [done|]. injection Hs as <-. by apply Hall.
  - destruct (ns_target ns) as [r|p]; [|done]. destruct (n_all x !! r) as [rt|] eqn:Hr; [|done]. unfold router_write in Hs.
    destruct (rt_writing rt) as [[m [|o rest]]|]; [| |done].
    + injection Hs as <-. by apply Hall.
    + destruct (n_subs x !! o) as [u|] eqn:Hu; [|done]. destruct (write_chan _ _ _ _) as [[c|]|]; try done. injection Hs as <-.
      apply steps_same; try done; by eapply fmap_insert_same.
  - destruct (ns_target ns) as [r|p]; [done|]. destruct (n_plain x !! p) as [q|] eqn:Hq; [|done].
    destruct (write_chan _ _ _ _) as [[c|]|]; try done. injection Hs as <-.
    apply steps_same; try done; [by apply seen_with_callback|]. fields. simpl. by rewrite length_insert.
Qed.

(** A subscription's user, or its closing, goes on. *)
Lemma steps_user x o u u' : n_subs x !! o = Some u → rs_router u' = rs_router u → rs_channel u' = rs_channel u →
  steps x (set_subs x (<[o := u']> (n_subs x))).
Proof.
  intros Hu Hr Hc. apply steps_same; try done. unfold seen_subs. fields. eapply fmap_insert_same; [done|]. by rewrite Hr, Hc.
Qed.

Lemma steps_plain x p q : steps x (set_plain x (<[p := q]> (n_plain x))).
Proof. apply steps_same; try done. fields. simpl. by rewrite length_insert. Qed.

Lemma nats_steps ls l x x' : logged ls x → step l x = Next x' → steps x x'.
Proof.
  intros G Hs. destruct l as [channel size queue fails|channel size fails|n fails| |o|o|k m|k drop|o|p|o|p|p]; cbn [step] in Hs.
  - case_bool_decide; injection Hs as <-; [destruct fails; [by apply steps_same|apply steps_subscribe]|by apply steps_same].
  - injection Hs as <-. destruct fails; [by apply steps_same|apply steps_subscribe].
  - destruct (n_calls x !! n) as [ca|] eqn:Hca; [|done]. unfold call_step in Hs. destruct (ca_at ca) as [| |r o|r|] eqn:Hat; try done.
    + destruct (n_mu x); [done|]. injection Hs as <-. apply steps_find_router.
    + destruct (n_all x !! r) as [rt|] eqn:Hr; [|done]. destruct (n_subs x !! o) as [u|] eqn:Hu; [|done]. injection Hs as <-.
      destruct fails; [by apply steps_same|]. destruct (g_opens _ _ G n r) as (rt' & ? & ?); [by right; exists ca; eauto|].
      simplify_eq. by apply steps_answers.
    + destruct (n_mu x); [by destruct (n_all x !! r)|]. destruct (n_all x !! r) as [rt|] eqn:Hr; [|done]. injection Hs as <-.
      destruct (g_opens _ _ G n r) as (rt' & ? & ?); [by right; exists ca; eauto|]. simplify_eq. by apply steps_forget.
  - destruct (n_mu x) as [sec|]; [|done]. unfold section_step in Hs. destruct sec as [n r found|o].
    + destruct (n_calls x !! n) as [ca|]; [|done]. destruct (n_all x !! r) as [rt|] eqn:Hr; [|done].
      destruct (rt_writing rt); [done|]. injection Hs as <-. by apply steps_open_section.
    + destruct (n_subs x !! o) as [u|] eqn:Hu; [|done]. destruct (n_all x !! rs_router u) as [rt|] eqn:Hr; [|done].
      destruct (rt_writing rt); [done|]. injection Hs as <-. by apply steps_close_section.
  - destruct (n_subs x !! o) as [u|] eqn:Hu; [|done]. destruct (rs_close u), (rs_live u); try done. injection Hs as <-. by eapply steps_user.
  - destruct (n_subs x !! o) as [u|] eqn:Hu; [|done]. unfold closer_step in Hs. destruct (rs_close u); try done.
    + destruct (n_mu x); [done|]. injection Hs as <-. apply steps_same; try done. by eapply fmap_insert_same.
    + destruct (chan_close _); [|done]. injection Hs as <-. by eapply steps_user.
  - destruct (n_nats x !! k) as [ns|] eqn:Hk; [|done]. destruct (ns_active ns); [|done]. injection Hs as <-.
    apply steps_same; try done. by apply seen_with_callback.
  - destruct (n_nats x !! k) as [ns|] eqn:Hk; [|done]. by apply (steps_callback x k ns drop).
  - destruct (n_subs x !! o) as [u|] eqn:Hu; [|done]. destruct (chan_recv _); [| |done]; injection Hs as <-; [by eapply steps_user|by apply steps_same].
  - destruct (n_plain x !! p) as [q|]; [|done].
    destruct (chan_recv _); [|destruct (ps_canceled q); [|done]..]; injection Hs as <-; [apply steps_plain|by apply steps_same..].
  - destruct (n_subs x !! o) as [u|] eqn:Hu; [|done]. injection Hs as <-. by eapply steps_user.
  - destruct (n_plain x !! p) as [q|]; [|done]. injection Hs as <-. apply steps_plain.
  - destruct (n_plain x !! p) as [q|]; [|done]. injection Hs as <-. unfold close_sub. apply steps_same; try done.
    + unfold seen_nats. fields. rewrite <- list_fmap_compose. apply list_fmap_ext. intros i ns _. simpl.
      destruct (ns_target ns) eqn:Ht; [by rewrite Ht|]. case_decide; simpl; by rewrite Ht.
    + fields. simpl. by rewrite length_insert.
Qed.

(** ** What was read *)

Definition reads_sub x : list (list natsMsg) := rs_read <$> n_subs x.
Definition reads_plain x : list (list natsMsg) := ps_read <$> n_plain x.

Definition read_of x (o : nat + nat) : list natsMsg :=
  match o with inl o => default [] (reads_sub x !! o) | inr p => default [] (reads_plain x !! p) end.

(** Nothing is read; subscriptions may be made. *)
Definition unread x x' : Prop :=
  (∃ n, reads_sub x' = reads_sub x ++ replicate n []) ∧ (∃ n, reads_plain x' = reads_plain x ++ replicate n []).

Lemma unread_same x x' : reads_sub x' = reads_sub x → reads_plain x' = reads_plain x → unread x x'.
Proof. intros E1 E2. unfold unread. rewrite E1, E2. split; exists 0%nat; by rewrite app_nil_r. Qed.

Lemma default_replicate (l : list (list natsMsg)) n i : default [] ((l ++ replicate n []) !! i) = default [] (l !! i).
Proof.
  destruct (l !! i) as [ms|] eqn:Hi; [by rewrite (lookup_app_l_Some _ _ _ _ Hi)|].
  rewrite lookup_app_r by (by apply lookup_ge_None). destruct (replicate n [] !! _) as [ms|] eqn:Hr; [|done].
  by apply lookup_replicate in Hr as [-> _].
Qed.

Lemma unread_read x x' o : unread x x' → read_of x' o = read_of x o.
Proof. intros [[n1 E1] [n2 E2]]. destruct o; simpl; rewrite ?E1, ?E2; apply default_replicate. Qed.

Lemma unread_subscribe x subject size queue inbox fails : unread x (subscribe x subject size queue inbox fails).
Proof.
  unfold subscribe. destruct fails; [by apply unread_same|]. split; [exists 0%nat|exists 1%nat]; unfold reads_sub, reads_plain; fields.
  - by rewrite app_nil_r.
  - by rewrite fmap_app.
Qed.

Lemma unread_call x n ca fails x' : call_step x n ca fails = Next x' → unread x x'.
Proof.
  unfold call_step. destruct (ca_at ca) as [| |r o|r|]; try done.
  - destruct (n_mu x); [done|]. intros [= <-]. unfold find_router. destruct (n_routers x !! _) as [r|]; [|by apply unread_same].
    destruct (n_all x !! r); [|by apply unread_same]. case_bool_decide; by apply unread_same.
  - destruct (n_all x !! r) as [rt|]; [|done]. destruct (n_subs x !! o) as [u|] eqn:Hu; [|done]. intros [= <-].
    unfold nats_answers. destruct fails; apply unread_same; try done. unfold reads_sub. fields. by eapply fmap_insert_same.
  - destruct (n_mu x); [by destruct (n_all x !! r)|]. destruct (n_all x !! r); [|done]. intros [= <-]. by apply unread_same.
Qed.

Lemma unread_section x sec x' : section_step x sec = Next x' → unread x x'.
Proof.
  unfold section_step. destruct sec as [n r found|o].
  - destruct (n_calls x !! n) as [ca|]; [|done]. destruct (n_all x !! r) as [rt|]; [|done]. destruct (rt_writing rt); [done|].
    intros [= <-]. unfold open_section. split; [exists 1%nat|exists 0%nat]; unfold reads_sub, reads_plain; fields; [by rewrite fmap_app|by rewrite app_nil_r].
  - destruct (n_subs x !! o) as [u|] eqn:Hu; [|done]. destruct (n_all x !! rs_router u) as [rt|]; [|done]. destruct (rt_writing rt); [done|].
    intros [= <-]. unfold close_section. destruct (close rt (rs_channel u) o) as [rt' []]; apply unread_same; try done;
      unfold reads_sub; fields; by eapply fmap_insert_same.
Qed.

Lemma unread_callback x k ns drop x' : callback_step x k ns drop = Next x' → unread x x'.
Proof.
  intros Hs. unfold callback_step, take in Hs. destruct (ns_callback ns) as [|m channel| |m].
  - destruct (ns_pending ns) as [|m rest]; [done|]. destruct (ns_active ns); [|done]. destruct (ns_target ns) as [r|p].
    + destruct (DecodeLocalChannel _); injection Hs as <-; by apply unread_same.
    + destruct (n_plain x !! p) as [q|]; [|done]. destruct (accepts q m); injection Hs as <-; by apply unread_same.
  - destruct (ns_target ns) as [r|p]; [|done]. destruct (n_all x !! r) as [rt|]; [|done].
    destruct (rt_writing rt); [done|]. injection Hs as <-. by apply unread_same.
  - destruct (ns_target ns) as [r|p]; [|done]. destruct (n_all x !! r) as [rt|]; [|done]. unfold router_write in Hs.
    destruct (rt_writing rt) as [[m [|o rest]]|]; [| |done].
    + injection Hs as <-. by apply unread_same.
    + destruct (n_subs x !! o) as [u|] eqn:Hu; [|done]. destruct (write_chan _ _ _ _) as [[c|]|]; try done. injection Hs as <-.
      apply unread_same; try done. unfold reads_sub. fields. by eapply fmap_insert_same.
  - destruct (ns_target ns) as [r|p]; [done|]. destruct (n_plain x !! p) as [q|] eqn:Hq; [|done].
    destruct (write_chan _ _ _ _) as [[c|]|]; try done. injection Hs as <-.
    apply unread_same; try done. unfold reads_plain. fields. by eapply fmap_insert_same.
Qed.

Lemma insert_read {A} (f : A → list natsMsg) (l : list A) i j a a' ms : l !! i = Some a → f a' = f a ++ ms →
  default [] ((f <$> <[i := a']> l) !! j) = default [] ((f <$> l) !! j) ++ (if decide (i = j) then ms else []).
Proof.
  intros Hi Hf. rewrite list_fmap_insert. destruct (decide (i = j)) as [<-|Hne].
  - rewrite list_lookup_insert_eq by (rewrite length_fmap; by eapply lookup_lt_Some). rewrite list_lookup_fmap, Hi. exact Hf.
  - rewrite list_lookup_insert_ne by done. by rewrite app_nil_r.
Qed.

(** What a subscription has read is what the trace handed to it. *)
Lemma step_read l x x' o : step l x = Next x' →
  nm_Data <$> read_of x' o = (nm_Data <$> read_of x o) ++ handed_to o (option_list (nats_event l x)).
Proof.
  intros Hs.
  assert (Hquiet : unread x x' → handed_to o (option_list (nats_event l x)) = [] →
    nm_Data <$> read_of x' o = (nm_Data <$> read_of x o) ++ handed_to o (option_list (nats_event l x))).
  { intros Hu ->. by rewrite (unread_read x x' o Hu), app_nil_r. }
  destruct l as [channel size queue fails|channel size fails|n fails| |o'|o'|k m|k drop|o'|p|o'|p|p]; cbn [step] in Hs.
  - apply Hquiet; [|done]. case_bool_decide; injection Hs as <-; [apply unread_subscribe|by apply unread_same].
  - apply Hquiet; [|done]. injection Hs as <-. apply unread_subscribe.
  - apply Hquiet; [|done]. destruct (n_calls x !! n) as [ca|]; [|done]. by eapply unread_call.
  - apply Hquiet; [|done]. destruct (n_mu x) as [sec|]; [|done]. by eapply unread_section.
  - apply Hquiet; [|done]. destruct (n_subs x !! o') as [u|] eqn:Hu; [|done]. destruct (rs_close u), (rs_live u); try done. injection Hs as <-.
    apply unread_same; try done. by eapply fmap_insert_same.
  - apply Hquiet; [|done]. destruct (n_subs x !! o') as [u|] eqn:Hu; [|done]. unfold closer_step in Hs. destruct (rs_close u); try done.
    + destruct (n_mu x); [done|]. injection Hs as <-. apply unread_same; try done. by eapply fmap_insert_same.
    + destruct (chan_close _); [|done]. injection Hs as <-. apply unread_same; try done. by eapply fmap_insert_same.
  - destruct (n_nats x !! k) as [ns|] eqn:Hk; [|done]. destruct (ns_active ns); [|done]. injection Hs as <-.
    apply Hquiet; [by apply unread_same|]. simpl. by rewrite Hk.
  - apply Hquiet; [|done]. destruct (n_nats x !! k) as [ns|]; [|done]. by eapply unread_callback.
  - simpl. destruct (n_subs x !! o') as [u|] eqn:Hu; [|done]. simpl. destruct (chan_recv _) as [m c| |]; [| |done]; simpl in *.
    + injection Hs as <-. destruct o as [o|p]; simpl.
      * unfold reads_sub. fields. rewrite (insert_read rs_read _ o' o u _ [m] Hu), fmap_app by done.
        destruct (decide (o' = o)), (decide (inl o' = inl o)); (done || congruence).
      * by rewrite app_nil_r.
    + injection Hs as <-. by rewrite app_nil_r.
  - simpl. destruct (n_plain x !! p) as [q|] eqn:Hq; [|done]. simpl. destruct (chan_recv _) as [m c| |]; simpl in *.
    + injection Hs as <-. destruct o as [o|p']; simpl.
      * by rewrite app_nil_r.
      * unfold reads_plain. fields. rewrite (insert_read ps_read _ p p' q _ [m] Hq), fmap_app by done.
        destruct (decide (p = p')), (decide (inr p = inr p')); (done || congruence).
    + destruct (ps_canceled q); [|done]. injection Hs as <-. by rewrite app_nil_r.
    + destruct (ps_canceled q); [|done]. injection Hs as <-. by rewrite app_nil_r.
  - apply Hquiet; [|done]. destruct (n_subs x !! o') as [u|] eqn:Hu; [|done]. injection Hs as <-.
    apply unread_same; try done. by eapply fmap_insert_same.
  - apply Hquiet; [|done]. destruct (n_plain x !! p) as [q|] eqn:Hq; [|done]. injection Hs as <-.
    apply unread_same; try done. by eapply fmap_insert_same.
  - apply Hquiet; [|done]. destruct (n_plain x !! p) as [q|] eqn:Hq; [|done]. injection Hs as <-.
    apply unread_same; try done. by eapply fmap_insert_same.
Qed.

(** ** Subscriptions without a router *)

(** What such a subscription read, with what is on its way, is of what nats delivered to
    its nats subscription. *)
Definition plain_ok (ls : list label) x : Prop :=
  ∀ k ns p q, n_nats x !! k = Some ns → ns_target ns = ToSub p → n_plain x !! p = Some q →
    ps_read q ++ chan_buf (ps_msgChan q) ++ in_hand ns ++ ns_pending ns ⊆+ delivered k ls.

(** Nats subscriptions are for different ones. *)
Definition unique x : Prop :=
  ∀ k k' p s s', seen_nats x !! k = Some (ToSub p, s) → seen_nats x !! k' = Some (ToSub p, s') → k' = k.

Lemma seen_lookup x k ns : n_nats x !! k = Some ns → seen_nats x !! k = Some (ns_target ns, ns_subject ns).
Proof. intros Hk. unfold seen_nats. by rewrite list_lookup_fmap, Hk. Qed.

Lemma unique_target x k k' ns ns' p : unique x → n_nats x !! k = Some ns → n_nats x !! k' = Some ns' →
  ns_target ns = ToSub p → ns_target ns' = ToSub p → k' = k.
Proof.
  intros Hu Hk%seen_lookup Hk'%seen_lookup Ht Ht'. rewrite Ht in Hk. rewrite Ht' in Hk'. by eapply Hu.
Qed.

(** A step that leaves them alone. *)
Lemma plain_frame ls l x x' : plain_ok ls x → (∀ k, delivered k (ls ++ [l]) = delivered k ls) →
  (∀ k ns' p, n_nats x' !! k = Some ns' → ns_target ns' = ToSub p → ∃ ns, n_nats x !! k = Some ns ∧
     ns_target ns = ToSub p ∧ in_hand ns' = in_hand ns ∧ ns_pending ns' = ns_pending ns) →
  (∀ p q', n_plain x' !! p = Some q' → ∃ q, n_plain x !! p = Some q ∧ ps_read q' = ps_read q ∧
     chan_buf (ps_msgChan q') = chan_buf (ps_msgChan q)) →
  plain_ok (ls ++ [l]) x'.
Proof.
  intros Hok Hd Hn Hp k ns' p q' Hk Ht Hq. destruct (Hn k ns' p Hk Ht) as (ns & Hns & Ht' & -> & ->).
  destruct (Hp p q' Hq) as (q & Hq' & -> & ->). rewrite Hd. by apply (Hok k ns p q).
Qed.

Lemma plain_same ls l x x' : plain_ok ls x → (∀ k, delivered k (ls ++ [l]) = delivered k ls) →
  n_nats x' = n_nats x → n_plain x' = n_plain x → plain_ok (ls ++ [l]) x'.
Proof. intros Hok Hd Hn Hp. apply (plain_frame ls l x); rewrite ?Hn, ?Hp; eauto. Qed.

Lemma delivered_quiet k ls l : (∀ k m, l ≠ LDeliver k m) → delivered k (ls ++ [l]) = delivered k ls.
Proof. intros Hl. rewrite delivered_snoc. destruct l; try apply app_nil_r. by destruct (Hl k0 m). Qed.

Lemma plain_subscribe ls l x subject size queue inbox fails : plain_ok ls x → wired x → (∀ k m, l ≠ LDeliver k m) →
  plain_ok (ls ++ [l]) (subscribe x subject size queue inbox fails).
Proof.
  intros Hok W Hl. unfold subscribe. destruct fails; [by apply (plain_same ls l x); auto using delivered_quiet|].
  intros k ns p q Hk Ht Hq. rewrite delivered_quiet by done. simpl in Hk, Hq.
  apply lookup_app_Some in Hk as [Hk|[_ Hk]].
  - apply lookup_app_Some in Hq as [Hq|[Hge _]]; [by apply (Hok k ns p q)|]. exfalso.
    pose proof (w_nats _ W k ns Hk) as Hn. unfold nats_ok in Hn. rewrite Ht in Hn. lia.
  - apply list_lookup_singleton_Some in Hk as [_ <-]. simpl in Ht. injection Ht as <-.
    rewrite lookup_app_r, Nat.sub_diag in Hq by lia. injection Hq as <-. apply submseteq_nil_l.
Qed.

(** The callback of a nats subscription: of a router's, and of another. *)
Lemma plain_router ls x k ns l r rs us pending cb log : plain_ok ls x → (∀ k, delivered k (ls ++ [l]) = delivered k ls) →
  n_nats x !! k = Some ns → ns_target ns = ToRouter r →
  plain_ok (ls ++ [l]) (set_nats (set_all (set_subs x us) rs) (<[k := with_callback ns pending cb log]> (n_nats x))).
Proof.
  intros Hok Hd Hk Ht. apply (plain_frame ls _ x); auto; fields; [|by eauto].
  intros k' ns' p [[-> ->]|[_ Hk']]%list_lookup_insert_cases Ht'; [simpl in Ht'; congruence|by exists ns'].
Qed.

Lemma plain_one ls x k ns l p q q' pending cb log : plain_ok ls x → unique x → (∀ k, delivered k (ls ++ [l]) = delivered k ls) →
  n_nats x !! k = Some ns → ns_target ns = ToSub p → n_plain x !! p = Some q →
  ps_read q' ++ chan_buf (ps_msgChan q') ++ in_hand (with_callback ns pending cb log) ++ pending ⊆+
    ps_read q ++ chan_buf (ps_msgChan q) ++ in_hand ns ++ ns_pending ns →
  plain_ok (ls ++ [l]) (set_nats (set_plain x (<[p := q']> (n_plain x))) (<[k := with_callback ns pending cb log]> (n_nats x))).
Proof.
  intros Hok Hun Hd Hk Ht Hq Hle k' ns' p' q2 Hk' Ht' Hq2. rewrite Hd. fields. simpl in Hk', Hq2.
  apply list_lookup_insert_cases in Hk' as [[-> ->]|[Hne Hk']]; apply list_lookup_insert_cases in Hq2 as [[-> ->]|[Hne2 Hq2]].
  - etrans; [|by apply (Hok k ns p q)]. exact Hle.
  - simpl in Ht'. congruence.
  - destruct Hne. by apply (unique_target x k k' ns ns' p).
  - by apply (Hok k' ns' p' q2).
Qed.

Lemma plain_callback ls x k ns drop x' : plain_ok ls x → wired x → unique x → n_nats x !! k = Some ns →
  callback_step x k ns drop = Next x' → plain_ok (ls ++ [LCallback k drop]) x'.
Proof.
  intros Hok W Hun Hk Hs. assert (Hd : ∀ k', delivered k' (ls ++ [LCallback k drop]) = delivered k' ls) by (intros; by apply delivered_quiet).
  pose proof (w_nats _ W k ns Hk) as Hn. unfold nats_ok in Hn. unfold callback_step, take in Hs.
  destruct (ns_target ns) as [r|p] eqn:Ht.
  - pose proof (λ rs us pending cb log, plain_router ls x k ns _ r rs us pending cb log Hok Hd Hk Ht) as Hr.
    destruct (ns_callback ns) as [|m channel| |m]; [| | |done].
    + destruct (ns_pending ns) as [|m rest]; [done|]. destruct (ns_active ns); [|done].
      destruct (DecodeLocalChannel _); injection Hs as <-; apply (Hr (n_all x) (n_subs x)).
    + destruct (n_all x !! r) as [rt|]; [|done]. destruct (rt_writing rt); [done|]. injection Hs as <-. apply (Hr _ (n_subs x)).
    + destruct (n_all x !! r) as [rt|]; [|done]. unfold router_write in Hs. destruct (rt_writing rt) as [[m [|o rest]]|]; [| |done].
      * injection Hs as <-. apply (Hr _ (n_subs x)).
      * destruct (n_subs x !! o) as [u|]; [|done]. destruct (write_chan _ _ _ _) as [[c|]|]; try done. injection Hs as <-.
        by apply (plain_same ls _ x).
  - destruct Hn as [[q Hq]%lookup_lt_is_Some Hcb]. rewrite Hq in Hs.
    pose proof (λ q' pending cb log, plain_one ls x k ns _ p q q' pending cb log Hok Hun Hd Hk Ht Hq) as Hr.
    pose proof (Hr q) as Hr0. rewrite (list_insert_id (n_plain x)) in Hr0 by done.
    destruct (ns_callback ns) as [|m channel| |m] eqn:Hc; try done.
    + destruct (ns_pending ns) as [|m rest] eqn:Hp; [done|]. destruct (ns_active ns); [|done].
      assert (Hin : in_hand ns = []) by (unfold in_hand; by rewrite Hc).
      destruct (accepts q m); injection Hs as <-; apply Hr0; rewrite Hin; simpl; [done|].
      by apply submseteq_skips_l, submseteq_skips_l, submseteq_cons.
    + assert (Hin : in_hand ns = [m]) by (unfold in_hand; by rewrite Hc).
      destruct (write_chan (ps_msgChan q) (ps_canceled q) m drop) as [[c|]|] eqn:Hw; try done. injection Hs as <-.
      apply Hr. rewrite Hin. simpl. apply submseteq_skips_l. unfold write_chan in Hw. destruct drop.
      * destruct (ps_canceled q); [|done]. injection Hw as <-. by apply submseteq_skips_l, submseteq_cons.
      * destruct (chan_send _ _) as [c'| |] eqn:Hsend; try done. injection Hw as <-.
        apply chan_send_sent in Hsend as (_ & _ & _ & ->). by rewrite <- (assoc_L (++)).
Qed.

(** The other steps that do something for such a subscription. *)
Lemma plain_deliver ls x k ns m : plain_ok ls x → n_nats x !! k = Some ns →
  plain_ok (ls ++ [LDeliver k m]) (set_nats x (<[k := with_callback ns (ns_pending ns ++ [m]) (ns_callback ns) (ns_log ns)]> (n_nats x))).
Proof.
  intros Hok Hk k' ns' p q Hk' Ht Hq. rewrite delivered_snoc. fields. simpl in Hk', Hq.
  apply list_lookup_insert_cases in Hk' as [[-> ->]|[Hne Hk']].
  - rewrite decide_True by done. simpl in *. pose proof (Hok k ns p q Hk Ht Hq) as Hle. unfold in_hand in *. simpl.
    rewrite !(assoc_L (++)) in *. by apply submseteq_skips_r.
  - rewrite decide_False, app_nil_r by done. by apply (Hok k' ns' p q).
Qed.

Lemma plain_step ls l x x' : plain_ok ls x → wired x → unique x → step l x = Next x' → plain_ok (ls ++ [l]) x'.
Proof.
  intros Hok W Hun Hs. pose proof (λ k, delivered_quiet k ls l) as Hd.
  destruct l as [channel size queue fails|channel size fails|n fails| |o|o|k m|k drop|o|p|o|p|p]; cbn [step] in Hs.
  - case_bool_decide; injection Hs as <-; [by apply plain_subscribe|by apply (plain_same ls _ x); auto].
  - injection Hs as <-. by apply plain_subscribe.
  - destruct (n_calls x !! n) as [ca|]; [|done]. unfold call_step in Hs. destruct (ca_at ca) as [| |r o|r|]; try done.
    + destruct (n_mu x); [done|]. injection Hs as <-. unfold find_router. destruct (n_routers x !! _) as [r|]; [|by apply (plain_same ls _ x); auto].
      destruct (n_all x !! r) as [rt|]; [|by apply (plain_same ls _ x); auto]. case_bool_decide; by apply (plain_same ls _ x); auto.
    + destruct (n_all x !! r) as [rt|]; [|done]. destruct (n_subs x !! o) as [u|]; [|done]. injection Hs as <-. unfold nats_answers.
      destruct fails; [by apply (plain_same ls _ x); auto|]. apply (plain_frame ls _ x); auto; fields; [|by eauto].
      intros k ns' p [Hk|[_ Hk]]%lookup_app_Some Ht; [by exists ns'|]. by apply list_lookup_singleton_Some in Hk as [_ <-].
    + destruct (n_mu x); [by destruct (n_all x !! r)|]. destruct (n_all x !! r); [|done]. injection Hs as <-. by apply (plain_same ls _ x); auto.
  - destruct (n_mu x) as [sec|]; [|done]. unfold section_step in Hs. destruct sec as [n r found|o].
    + destruct (n_calls x !! n) as [ca|]; [|done]. destruct (n_all x !! r) as [rt|]; [|done]. destruct (rt_writing rt); [done|].
      injection Hs as <-. by apply (plain_same ls _ x); auto.
    + destruct (n_subs x !! o) as [u|]; [|done]. destruct (n_all x !! rs_router u) as [rt|]; [|done]. destruct (rt_writing rt); [done|].
      injection Hs as <-. unfold close_section. destruct (close rt (rs_channel u) o) as [rt' []]; [|by apply (plain_same ls _ x); auto].
      apply (plain_frame ls _ x); auto; fields; [|by eauto]. intros k ns' p (ns0 & Hns0 & [[_ ->]|[_ ->]])%Unsubscribe_lookup Ht; by exists ns0.
  - destruct (n_subs x !! o) as [u|]; [|done]. destruct (rs_close u), (rs_live u); try done. injection Hs as <-. by apply (plain_same ls _ x); auto.
  - destruct (n_subs x !! o) as [u|]; [|done]. unfold closer_step in Hs. destruct (rs_close u); try done.
    + destruct (n_mu x); [done|]. injection Hs as <-. by apply (plain_same ls _ x); auto.
    + destruct (chan_close _); [|done]. injection Hs as <-. by apply (plain_same ls _ x); auto.
  - destruct (n_nats x !! k) as [ns|] eqn:Hk; [|done]. destruct (ns_active ns); [|done]. injection Hs as <-. by apply plain_deliver.
  - destruct (n_nats x !! k) as [ns|] eqn:Hk; [|done]. by apply (plain_callback ls x k ns).
  - destruct (n_subs x !! o) as [u|]; [|done]. destruct (chan_recv _); [| |done]; injection Hs as <-; by apply (plain_same ls _ x); auto.
  - destruct (n_plain x !! p) as [q|] eqn:Hq; [|done]. destruct (chan_recv (ps_msgChan q)) as [m c| |] eqn:Hc.
    + injection Hs as <-. apply chan_recv_closed in Hc as (_ & _ & Hb). intros k ns p' q' Hk Ht Hq'. rewrite Hd by done.
      simpl in Hk, Hq'. apply list_lookup_insert_cases in Hq' as [[-> ->]|[_ Hq']]; [|by apply (Hok k ns p' q')].
      simpl. rewrite <- (assoc_L (++)). simpl. pose proof (Hok k ns p q Hk Ht Hq) as Hle. by rewrite Hb in Hle.
    + destruct (ps_canceled q); [|done]. injection Hs as <-. by apply (plain_same ls _ x); auto.
    + destruct (ps_canceled q); [|done]. injection Hs as <-. by apply (plain_same ls _ x); auto.
  - destruct (n_subs x !! o) as [u|]; [|done]. injection Hs as <-. by apply (plain_same ls _ x); auto.
  - destruct (n_plain x !! p) as [q|] eqn:Hq; [|done]. injection Hs as <-. apply (plain_frame ls _ x); auto; fields; [by eauto|].
    intros p' q' [[-> ->]|[_ ?]]%list_lookup_insert_cases; [by exists q|by exists q'].
  - destruct (n_plain x !! p) as [q|] eqn:Hq; [|done]. injection Hs as <-. unfold close_sub. apply (plain_frame ls _ x); auto; fields.
    + intros k ns' p' (ns & -> & Hk)%list_lookup_fmap_Some Ht. exists ns. split; [done|].
      destruct (ns_target ns) as [r|p2] eqn:Ht2; [congruence|]. case_decide; simpl in Ht; rewrite Ht2 in Ht; by injection Ht as <-.
    + intros p' q' [[-> ->]|[_ ?]]%list_lookup_insert_cases; [by exists q|by exists q'].
Qed.

(** ** The promise *)

Lemma filter_fmap_bool {A B} (f : A → B) (P : B → bool) (l : list A) :
  filter (λ b, P b = true) (f <$> l) = f <$> filter (λ a, P (f a) = true) l.
Proof.
  induction l as [|a l IH]; [done|]. rewrite fmap_cons, !filter_cons. destruct (decide (P (f a) = true)); [|exact IH].
  rewrite fmap_cons. by f_equal.
Qed.

(** What is heard on a nats subscription. *)
Lemma heard_nats k s channel (ps : list (nat * string * bytes)) : (∀ s' b, ((k, s'), b) ∈ ps → s' = s) →
  heard nats_hears (k, s, channel) ps = filter (λ b, is_for channel b = true) (filter (λ p, p.1.1 = k) ps).*2.
Proof.
  unfold heard. induction ps as [|[[k' s'] b] ps IH]; intros Hs; [done|].
  assert (Hs' : ∀ s' b, ((k, s'), b) ∈ ps → s' = s) by (intros s2 b2 Hin; apply (Hs s2 b2); by right). specialize (IH Hs').
  assert (Hh : nats_hears (k, s, channel) (k', s') b = if decide (k' = k) then is_for channel b else false).
  { unfold nats_hears. cbn [fst snd]. destruct (decide (k' = k)) as [->|Hne].
    - by rewrite bool_decide_eq_true_2 by (f_equal; apply (Hs s' b); left).
    - by rewrite bool_decide_eq_false_2 by congruence. }
  rewrite !filter_cons. cbn [fst snd]. rewrite Hh. destruct (decide (k' = k)) as [->|Hne].
  - rewrite fmap_cons, filter_cons. cbn [snd]. destruct (decide (is_for channel b = true)); [rewrite fmap_cons; f_equal|]; exact IH.
  - rewrite decide_False by done. exact IH.
Qed.

Record nats_account (ls : list label) x (tr : list (event (nat * string) (nat + nat))) : Prop := {
  na_delivered k : (filter (λ p, p.1.1 = k) (published tr)).*2 = nm_Data <$> delivered k ls;
  na_subject k s b : ((k, s), b) ∈ published tr → ∃ t, seen_nats x !! k = Some (t, s);
  na_read o : handed_to o tr = nm_Data <$> read_of x o;
  na_sub r k channel : seen_routers x !! r = Some (Some k, channel) → seen_nats x !! k = Some (ToRouter r, channel);
  na_unique : unique x;
  na_has p : (p < length (n_plain x))%nat → ∃ k s, seen_nats x !! k = Some (ToSub p, s);
  na_plain : plain_ok ls x
}.

Lemma nats_account_step ls x tr l x' : logged ls x → wired x → nats_account ls x tr → step l x = Next x' →
  nats_account (ls ++ [l]) x' (tr ++ option_list (nats_event l x)).
Proof.
  intros G W [N1 N2 N3 N4 N5 N6 N7] Hs. pose proof (nats_steps ls l x x' G Hs) as [P1 P2 P3 P4 P5 P6].
  assert (Hpub : published (option_list (nats_event l x)) = match l with
    | LDeliver k m => match n_nats x !! k with Some ns => [((k, ns_subject ns), nm_Data m)] | None => [] end | _ => [] end).
  { destruct l; try done; simpl.
    - by destruct (n_nats x !! k).
    - destruct (n_subs x !! o) as [u|]; [|done]. simpl. by destruct (chan_recv _).
    - destruct (n_plain x !! p) as [q|]; [|done]. simpl. by destruct (chan_recv _). }
  split.
  - intros k. rewrite published_app, filter_app, fmap_app, N1, delivered_snoc, fmap_app. f_equal. rewrite Hpub.
    destruct l as [| | | | | |k' m| | | | | |]; try done. simpl in Hs. destruct (n_nats x !! k') as [ns|]; [|done].
    rewrite filter_cons, filter_nil. simpl. by destruct (decide (k' = k)).
  - intros k s b. rewrite published_app, Hpub. intros [Hin|Hin]%elem_of_app.
    + destruct (N2 k s b Hin) as [t Ht]. exists t. by eapply prefix_lookup_Some.
    + destruct l as [| | | | | |k' m| | | | | |]; try (by apply elem_of_nil in Hin).
      destruct (n_nats x !! k') as [ns|] eqn:Hk; [|by apply elem_of_nil in Hin]. apply list_elem_of_singleton in Hin.
      injection Hin as -> -> ->. exists (ns_target ns). eapply prefix_lookup_Some; [by apply seen_lookup|done].
  - intros o. by rewrite handed_app, N3, (step_read l x x' o Hs).
  - intros r k channel [Hr|?]%P4; [|done]. by eapply prefix_lookup_Some, P1; apply N4.
  - intros k k' p s s' Hk Hk'. destruct (P5 k p s Hk) as [Ho|[-> Hp]], (P5 k' p s' Hk') as [Ho'|[-> Hp']]; [by eapply N5| | |done].
    + exfalso. unfold seen_nats in Ho. apply list_lookup_fmap_Some in Ho as (ns & [= Ht _] & Hns).
      pose proof (w_nats _ W k ns Hns) as Hn. unfold nats_ok in Hn. rewrite <- Ht in Hn. lia.
    + exfalso. unfold seen_nats in Ho'. apply list_lookup_fmap_Some in Ho' as (ns & [= Ht _] & Hns).
      pose proof (w_nats _ W k' ns Hns) as Hn. unfold nats_ok in Hn. rewrite <- Ht in Hn. lia.
  - intros p [Hp|[s Hn]]%P6; [|eauto]. destruct (N6 p Hp) as (k & s & Hk). exists k, s. by eapply prefix_lookup_Some.
  - by eapply plain_step.
Qed.

Lemma nats_accounts ls x : Transport.run nats ls New = Some x →
  logged ls x ∧ wired x ∧ nats_account ls x (trace nats ls New).
Proof.
  revert x. induction ls as [|l ls IH] using rev_ind; intros x.
  - intros [= <-]. split; [apply logged_New|]. split; [apply wired_New|]. split; try done.
    + intros k s b Hb. by apply elem_of_nil in Hb.
    + by intros [|].
    + intros p Hp. simpl in Hp. lia.
  - intros Hr. apply run_snoc in Hr as (x1 & Hr & Hl). destruct (IH x1 Hr) as (G & W & N).
    rewrite (trace_snoc nats ls l New x1 x Hr Hl). simpl in Hl. destruct (step l x1) as [x2| |] eqn:Hs; [|done..].
    injection Hl as <-. split; [by eapply logged_step|]. split; [|by eapply nats_account_step].
    pose proof (step_safe l x1 W) as Hok. by rewrite Hs in Hok.
Qed.

(** What a router's subscription read is of what its nats subscription was delivered. *)
Lemma router_handed ls x tr o u : logged ls x → wired x → nats_account ls x tr → n_subs x !! o = Some u →
  match n_all x !! rs_router u with
  | Some rt => match rt_sub rt with
    | Some k => rs_read u ⊆+ filter (λ m, is_for (Some (rs_channel u)) (nm_Data m) = true) (delivered k ls)
    | None => rs_read u = []
    end
  | None => False
  end.
Proof.
  intros G W N Hu. destruct (v_router _ _ (w_routes _ W) o u Hu) as [rt Hr]. rewrite Hr.
  destruct (v_got _ _ (w_routes _ W) o u rt Hu Hr) as [Hsub _].
  assert (Hread : rs_read u `sublist_of` filter (λ m, decodes (rs_channel u) m = true) (rt_log rt)).
  { etrans; [|etrans; [exact Hsub|]].
    - unfold got. rewrite <- (assoc_L (++)). by apply sublist_inserts_r.
    - unfold wanted. rewrite <- (take_drop (rs_since u) (rt_log rt)) at 2. rewrite filter_app. by apply sublist_inserts_l. }
  destruct (rt_sub rt) as [k|] eqn:Hk.
  - pose proof (na_sub _ _ _ N (rs_router u) k (rt_channel rt)) as Hn. unfold seen_routers in Hn. rewrite list_lookup_fmap, Hr in Hn.
    simpl in Hn. rewrite Hk in Hn. specialize (Hn eq_refl). unfold seen_nats in Hn. apply list_lookup_fmap_Some in Hn as (ns & [= Ht _] & Hns).
    destruct (g_router _ _ G k ns (rs_router u) Hns) as (rt' & Hr' & _ & Hf); [done|]. assert (rt' = rt) as -> by congruence.
    apply sublist_submseteq. etrans; [exact Hread|].
    assert (filter (λ m, is_for (Some (rs_channel u)) (nm_Data m) = true) (delivered k ls)
      = filter (λ m, decodes (rs_channel u) m = true) (filter (λ m, decodable m = true) (delivered k ls))) as ->.
    { rewrite list_filter_filter. apply list_filter_iff. intros m. unfold decodes, decodable, is_for.
      destruct (DecodeLocalChannel _); simpl; naive_solver. }
    unfold for_router in Hf. rewrite Hf, filter_app. by apply sublist_inserts_r.
  - rewrite (g_unsubscribed _ _ G _ rt Hr Hk) in Hread. by apply sublist_nil_r in Hread.
Qed.

Lemma account_subject ls x tr k s t : nats_account ls x tr → seen_nats x !! k = Some (t, s) →
  ∀ s' b, ((k, s'), b) ∈ published tr → s' = s.
Proof. intros N Hk s' b Hb. destruct (na_subject _ _ _ N k s' b Hb) as [t' Ht]. congruence. Qed.

#[export] Instance nats_delivers : Delivers nats.
Proof.
  split.
  - intros ls l x x' o a (G & W & N)%nats_accounts Hl. simpl in Hl. destruct (step l x) as [x1| |] eqn:Hs; [|done..].
    injection Hl as <-. pose proof (nats_steps ls l x x1 G Hs) as [P1 P2 P3 _ _ _]. destruct o as [o|p]; simpl.
    + intros (u & Hu & (rt & Hr & (k & Hk & [= <-])%bind_Some)%bind_Some)%bind_Some.
      assert (seen_subs x1 !! o = Some (rs_router u, rs_channel u)) as Hu1.
      { eapply prefix_lookup_Some, P2. unfold seen_subs. by rewrite list_lookup_fmap, Hu. }
      unfold seen_subs in Hu1. apply list_lookup_fmap_Some in Hu1 as (u1 & [= Er Ec] & ->). simpl. rewrite <- Er, <- Ec.
      assert (seen_routers x1 !! rs_router u = Some (Some k, rt_channel rt)) as Hr1.
      { apply P3. unfold seen_routers. by rewrite list_lookup_fmap, Hr, <- Hk. }
      unfold seen_routers in Hr1. apply list_lookup_fmap_Some in Hr1 as (rt1 & [= Es Ech] & ->). simpl. by rewrite <- Es, <- Ech.
    + intros ([k t] & Hf & [= <-])%bind_Some. destruct P1 as [new ->]. by rewrite (list_find_app_l _ _ _ _ _ Hf).
  - intros ls x o (G & W & N)%nats_accounts Hne0.
    assert (Hne : nm_Data <$> read_of x o ≠ []) by (rewrite <- (na_read _ _ _ N o); exact Hne0). clear Hne0.
    destruct o as [o|p]; simpl in *.
    + unfold reads_sub in Hne. rewrite list_lookup_fmap in Hne. destruct (n_subs x !! o) as [u|] eqn:Hu; [|by destruct Hne].
      pose proof (router_handed ls x _ o u G W N Hu) as Hh. simpl in *. destruct (n_all x !! rs_router u) as [rt|]; [|done]. simpl.
      destruct (rt_sub rt); [by eexists|]. destruct Hne. by rewrite Hh.
    + unfold reads_plain in Hne. rewrite list_lookup_fmap in Hne. destruct (n_plain x !! p) as [q|] eqn:Hq; [|by destruct Hne].
      destruct (na_has _ _ _ N p) as (k & s & Hk); [by eapply lookup_lt_Some|].
      destruct (list_find (λ t, t.1 = ToSub p) (seen_nats x)) as [[k' t]|] eqn:Hf; [by eexists|].
      apply list_find_None in Hf. rewrite Forall_lookup in Hf. by destruct (Hf k _ Hk).
  - intros ls x o a (G & W & N)%nats_accounts Hl.
    enough (Hle : nm_Data <$> read_of x o ⊆+ heard nats_hears a (published (trace nats ls New)))
      by (rewrite <- (na_read _ _ _ N o) in Hle; exact Hle).
    destruct o as [o|p]; simpl in *.
    + apply bind_Some in Hl as (u & Hu & (rt & Hr & (k & Hk & [= <-])%bind_Some)%bind_Some).
      pose proof (router_handed ls x _ o u G W N Hu) as Hh. rewrite Hr, Hk in Hh.
      pose proof (na_sub _ _ _ N (rs_router u) k (rt_channel rt)) as Hn. unfold seen_routers in Hn. rewrite list_lookup_fmap, Hr in Hn.
      simpl in Hn. rewrite Hk in Hn. specialize (Hn eq_refl).
      rewrite (heard_nats k (rt_channel rt) (Some (rs_channel u))) by (by eapply account_subject).
      rewrite (na_delivered _ _ _ N k), filter_fmap_bool. unfold reads_sub. rewrite list_lookup_fmap, Hu. simpl.
      by apply fmap_submseteq.
    + apply bind_Some in Hl as ([k [t s]] & (Hk & Ht & _)%list_find_Some & [= <-]). simpl in Ht. subst t.
      rewrite (heard_nats k s None) by (by eapply account_subject).
      rewrite (na_delivered _ _ _ N k), filter_fmap_bool. apply fmap_submseteq.
      assert (filter (λ m, is_for None (nm_Data m) = true) (delivered k ls) = delivered k ls) as ->.
      { generalize (delivered k ls). intros ms. induction ms as [|m ms IH]; [done|]. rewrite filter_cons_True by done. by rewrite IH. }
      unfold reads_plain. rewrite list_lookup_fmap. destruct (n_plain x !! p) as [q|] eqn:Hq; [|apply submseteq_nil_l]. simpl.
      pose proof Hk as Hk'. unfold seen_nats in Hk'. apply list_lookup_fmap_Some in Hk' as (ns & [= Ht _] & Hns).
      etrans; [|by apply (na_plain _ _ _ N k ns p q)]. by apply submseteq_inserts_r.
Qed.
End nats.
