(* ===== verification/Transports.v ===== *)
(** * Transports.v: the three transports, and subscriptions over any of them

    The in-process, redis and nats buses implement the abstract bus of [Transport]; a typed
    subscription of [src/pkg/bus/subscription.go] over a transport that does gives its user
    messages published to it and no others, and none more often than it was published. *)
From S2P Require Import Prelude Errors Bus Transport TransportLocal TransportRedis TransportNats.
From S2P Require LocalBus LocalDelivery RedisBus NatsBus Subscription.

(** ** Refinement *)

(** Every run of a transport is one of the abstract bus, with the same publications and
    hand-overs. *)
Definition refines_bus (M : Transport.transport) : Prop :=
  ∀ ls s, run M ls (m_new M) = Some s →
    bus_run (m_hears M) (m_listens M s) (trace M ls (m_new M)) (MkBus [] []) = Some (after M (trace M ls (m_new M))).

(** C16: each transport, in every interleaving of its goroutines, with whatever its broker
    does, implements the abstract bus: a subscription reads only what was published to where
    it listens, each publication once at most.  For the in-process bus what counts as
    published is what [Publish] was called with, for redis what redis delivered on a channel,
    for nats what nats delivered to the nats subscription made for the subscriber. *)
Theorem transports_refine_bus `{GrpcApi} `{!StatusApi} `{!Codec} :
  refines_bus local ∧ refines_bus redis ∧ refines_bus nats.
Proof. split_and!; intros ls s Hr; exact (transport_refines _ ls s Hr). Qed.

(** ** Typed subscriptions *)

Section typed.
Context `{Codec, !Gzip} (M : Transport.transport) `{!Delivers M}.

(** A run of [forward] and its user over reader [o]: what was delivered to it is what the
    transport handed to the reader. *)
Definition over (o : m_key M) (tr : list (event (m_dest M) (m_key M))) (ls : list Subscription.label) : Prop :=
  (Subscription.delivered ls).*1 `prefix_of` handed_to o tr.

Lemma omap_decode MessageType maxSize (rs : list (bytes * string)) :
  omap (Subscription.decode MessageType None maxSize) rs = omap (Subscription.decode_bytes MessageType maxSize) rs.*1.
Proof. induction rs as [|[b subject] rs IH]; [done|]. cbn [omap list_omap fmap list_fmap fst Subscription.decode]. by rewrite <- IH. Qed.

(** What its user got is made of payloads handed to the reader. *)
Lemma got_from_handed MessageType maxSize size ls u o tr :
  Subscription.run MessageType None maxSize ls (Subscription.startSubscription size) = Some u → over o tr ls →
  Subscription.u_taken u ++ chan_buf (Subscription.u_c u)
    ⊆+ omap (Subscription.decode_bytes MessageType maxSize) (handed_to o tr).
Proof.
  intros Hr Ho. pose proof (Subscription.run_ok _ _ _ ls _ u (Subscription.subscription_start_inv _ _ _ size) Hr) as Hi.
  pose proof (Subscription.run_delivered MessageType None maxSize ls _ u Hr) as Hd. simpl in Hd.
  assert (Hread : Subscription.u_taken u ++ chan_buf (Subscription.u_c u)
    ⊆+ omap (Subscription.decode MessageType None maxSize) (Subscription.u_read u)).
  { pose proof (Subscription.ui_read _ _ _ u Hi) as Hf. unfold Subscription.forwarded in Hf.
    destruct (Subscription.u_forward u); repeat (match goal with H : _ ∨ _ |- _ => destruct H | H : _ ∧ _ |- _ => destruct H
      | H : ∃ _, _ |- _ => destruct H end); match goal with H : _ = omap _ _ |- _ => rewrite <- H end;
      try done; by apply submseteq_inserts_r. }
  etrans; [exact Hread|]. rewrite omap_decode. apply omap_submseteq. unfold over in Ho. rewrite <- Hd, fmap_app in Ho.
  destruct Ho as [rest ->]. rewrite <- (assoc_L (++)). by apply submseteq_inserts_r.
Qed.
End typed.

(** Payloads a bus published for messages decode to those. *)
Lemma omap_published `{Codec, !Gzip} {St} (t : Bus.Transport St) opts MessageType maxSize channel msgs payloads :
  Forall2 (Subscription.readable MessageType maxSize (b_c (base (Bus.New t opts))) channel) msgs payloads →
  omap (Subscription.decode_bytes MessageType maxSize) payloads = msgs.
Proof.
  induction 1 as [|msg b msgs payloads Hb _ IH]; [done|].
  pose proof (Subscription.decode_published t opts MessageType None maxSize channel msg b Hb) as Hd.
  cbn [Subscription.decode] in Hd. cbn [omap list_omap]. rewrite Hd. by f_equal.
Qed.

(** C18: over any transport that implements the bus, the messages a typed subscription gives
    its user are messages that payloads published to where it listens decode to, each as
    often as such payloads were published and no more, although the transport, the
    forwarding and the closing interleave in any way; so that when the payloads are what a
    bus published for some messages of its type, they are among those. *)
Theorem subscription_authentic `{Codec, !Gzip} {St} (t : Bus.Transport St) (opts : list BusOption)
    (M : Transport.transport) `{!Delivers M} (ls : list (m_label M)) (s : m_state M) (o : m_key M) (a : m_address M)
    (MessageType channel : string) (maxSize : Z) (size : nat) (ls' : list Subscription.label) (u : Subscription.subscription) :
  run M ls (m_new M) = Some s → m_listens M s o = Some a →
  Subscription.run MessageType None maxSize ls' (Subscription.startSubscription size) = Some u →
  over M o (trace M ls (m_new M)) ls' →
  let payloads := heard (m_hears M) a (published (trace M ls (m_new M))) in
  let got := Subscription.u_taken u ++ chan_buf (Subscription.u_c u) in
  got ⊆+ omap (Subscription.decode_bytes MessageType maxSize) payloads ∧
  ∀ msgs, Forall2 (Subscription.readable MessageType maxSize (b_c (base (Bus.New t opts))) channel) msgs payloads → got ⊆+ msgs.
Proof.
  intros Hr Ha Hu Ho payloads got. assert (Hgot : got ⊆+ omap (Subscription.decode_bytes MessageType maxSize) payloads).
  { etrans; [by eapply got_from_handed|]. apply omap_submseteq. by apply (handed_heard ls s). }
  split; [done|]. intros msgs Hp. rewrite <- (omap_published t opts MessageType maxSize channel msgs payloads Hp). exact Hgot.
Qed.

(** ** Witnesses *)

Section transports_witness.
#[local] Existing Instances grpc_numbers example_status.
#[local] Existing Instances Bus.Example.codec Bus.Example.gzip.

(** Two subscribers of a channel, a message published on it, and one on another; the second
    subscriber reads. *)
Definition published_run (b : bytes) : list LocalBus.label :=
  [LocalBus.LSubscribe false "a" 1; LocalBus.LStep 0 false; LocalBus.LStep 0 false;
   LocalBus.LSubscribe false "a" 1; LocalBus.LStep 1 false; LocalBus.LStep 1 false;
   LocalBus.LPublish "b" b; LocalBus.LPublish "a" b] ++
  replicate 6 (LocalBus.LStep 3 false) ++ [LocalBus.LRead 1].

Definition one_payload : bytes := Subscription.payload_of (Subscription.T_message (bytes_of "x")).

Definition forwards_one : list Subscription.label :=
  [Subscription.LDeliver one_payload ""; Subscription.LRead; Subscription.LSend; Subscription.LTake].

Lemma transports_refine_bus_witness : ∃ s, run local (published_run one_payload) (m_new local) = Some s ∧
  ∃ y, bus_run (m_hears local) (m_listens local s) (trace local (published_run one_payload) (m_new local)) (MkBus [] []) = Some y ∧
    length (b_published y) = 2%nat ∧ b_handed y = [(1%nat, one_payload)].
Proof.
  destruct (run local (published_run one_payload) (m_new local)) as [s|] eqn:Hs; [|vm_compute in Hs; discriminate].
  exists s. split; [reflexivity|]. eexists. split.
  - exact (proj1 transports_refine_bus (published_run one_payload) s Hs).
  - split; vm_compute; reflexivity.
Defined.

Lemma subscription_authentic_witness : ∃ s u, run local (published_run one_payload) (m_new local) = Some s ∧
  Subscription.run "T" None 0 forwards_one (Subscription.startSubscription 1) = Some u ∧
  Subscription.u_taken u = [Subscription.T_message (bytes_of "x")] ∧
  Subscription.u_taken u ++ chan_buf (Subscription.u_c u) ⊆+ [Subscription.T_message (bytes_of "x")].
Proof.
  destruct (run local (published_run one_payload) (m_new local)) as [s|] eqn:Hs; [|vm_compute in Hs; discriminate].
  assert (from_option (λ u, bool_decide (Subscription.u_taken u = [Subscription.T_message (bytes_of "x")])) false
    (Subscription.run "T" None 0 forwards_one (Subscription.startSubscription 1)) = true) as Ht by (vm_compute; reflexivity).
  destruct (Subscription.run "T" None 0 forwards_one (Subscription.startSubscription 1)) as [u|] eqn:Hu; [|discriminate Ht].
  exists s, u. split; [reflexivity|]. split; [reflexivity|]. split; [exact (bool_decide_eq_true_1 _ Ht)|].
  apply (subscription_authentic drop_transport [WithBusCompression (MkCompressionOpts 1 10000 0)] local
    (published_run one_payload) s 1%nat "a" "T" "" 0 1 forwards_one u Hs).
  - vm_compute in Hs. injection Hs as <-. vm_compute. reflexivity.
  - exact Hu.
  - exists []. vm_compute. reflexivity.
  - repeat constructor; try (vm_compute; reflexivity).
    eexists. split; [reflexivity|left; reflexivity].
Defined.
End transports_witness.
